(* ===== verification/_CoqProject ===== *)
-Q . S2P
Prelude.v
Contracts.v
Relocatable.v
Rounds.v
FreeList.v
IndexSet.v
IndexSetConc.v
IndexSetLoop.v
Mock.v
Spsc.v
SpscConc.v
SpscLoop.v
WeakMemory.v
SpscWeak.v
IndexSetWeak.v
Bitset.v
BitsetConc.v
BitsetLoop.v
Mpmc.v
MpmcConc.v
MpmcLoop.v
PoolAlloc.v
Channel.v
Shm.v
DataSegment.v
SegmentMgr.v
Config.v
Paths.v
Service.v
RegistryConc.v
PubSub.v
PubSubSafe.v
PubSubConc.v
PubSubLoop.v
ReqRes.v
ReqResSafe.v
ReqResConc.v
ReqResLoop.v
Blackboard.v
SeqlockWeak.v
Hex.v
FileLock.v
Monitor.v
Event.v
EventPorts.v
WaitSet.v
Signal.v
Node.v
Derive.v
Shared.v
Tests.v
TestsOs.v
Examples.v
Integration.v
