(* ===== verification/Prelude.v ===== *)
(** * Entangle: verification of a zero-copy shared-memory IPC library

    This library models the Rust workspace under src/crates/ and proves what
    makes it correct.  The program is a stack: lock-free structures, then a
    transport of shared-memory segments and channels, then services whose ports
    exchange 8-byte offsets instead of payloads.

    ** Files, and the code they model

    - Prelude: outcomes of Rust computations, machine integers, list and
      transition-system lemmas, tactics, the hint database [words].
    - Contracts (entangle-transport/src/contracts.rs): [PointerOffset], error
      types, channel states.
    - Relocatable (entangle-lockfree/src/relocatable.rs): [RelocatablePtr].
    - Rounds: fair schedules of threads whose loops come closer to their ends.
    - FreeList: the free list threaded through an array that the allocator and
      the container share.
    - IndexSet (index_set.rs): the interface [IndexAllocator] with its laws, and
      [UniqueIndexSet], which implements it; one call at a time.
    - IndexSetConc (index_set.rs): [acquire] and [release] cut at every atomic
      access, run by any number of threads; IndexSetLoop, its threaded tests.
    - Spsc and SpscConc (spsc_queue.rs): [SpscQueue], sequentially and as a
      machine of producers and consumers; SpscLoop, its threaded tests.
    - WeakMemory: loads, stores and read-modify-writes with their orderings, by
      views.  SpscWeak: the queue, IndexSetWeak: the allocator on that memory,
      with the orderings of the source.
    - Mock (src/contracts/mock.rs, entangle-platform/src/mock.rs): the mock
      allocator, a second [IndexAllocator], and the mock memory.
    - Bitset (atomic_bitset.rs), Mpmc (mpmc_container.rs): [AtomicBitSet] and
      [MpmcContainer], one call at a time.
    - BitsetConc: the calls on an [AtomicBitSet] cut at every access to a word;
      BitsetLoop, its threaded tests.
    - MpmcConc: [add], [remove] and [get] cut at every access to the head, the
      links, the values and the words of the bitset, run by any number of
      threads.  It is seen as a configuration of IndexSetConc in which one more
      thread owns the occupied slots, and reuses that invariant.  MpmcLoop, its
      threaded tests.
    - PoolAlloc (pool_alloc.rs): [PoolAllocator], over any [IndexAllocator].
    - Channel (channel.rs, mock.rs): [ZeroCopyChannel] and its test double.
    - Shm (entangle-platform/src/shm.rs, error.rs): [SharedMemory] over the
      class [Posix] of system calls.
    - DataSegment (data_segment.rs), SegmentMgr (segment_mgr.rs).
    - Config (entangle/src/contracts.rs, config.rs, error.rs): service names,
      quality of service, configuration, errors.
    - Paths: joining and splitting of file names.
    - Service (service/config.rs, registry.rs, lifecycle.rs): compatibility,
      registration and discovery over the classes [FileSystem] and [Ron].
    - RegistryConc (registry.rs, lifecycle.rs): [open_or_create] by any number of
      processes, one step per file operation.
    - PubSub (service/pubsub.rs, port/publisher.rs, port/subscriber.rs,
      sample.rs) and PubSubSafe, its transition system and theorems.  PubSubConc:
      a publisher and a subscriber on two threads, [send], [receive], [reclaim]
      and the drop of a sample cut at every access to the shared queues;
      PubSubLoop: the producer and consumer loops of examples/multi_process.rs
      and tests/integration.rs on top of it.
    - ReqRes (service/reqres.rs, port/client.rs, port/server.rs) and ReqResSafe.
      ReqResConc: the server and any number of clients on threads, every call
      cut at its accesses to the segment, the chunks and the queues.
      ReqResLoop: the server and client loops of tests/cross_process.rs on top
      of it.
    - Blackboard (service/blackboard.rs, port/writer.rs, port/reader.rs): the
      seqlock as one call runs alone, and the ports.  SeqlockWeak: one writer and
      any number of readers at the same time, with the orderings of the source.
    - Hex: hexadecimal numbers as the monitor writes and reads them.
    - FileLock (file_lock.rs) and Monitor (process_monitor.rs): locks of files
      over the class [LockOs], and the transition system of the processes that
      register, crash, probe and clean up.
    - Event (entangle-platform/src/event.rs): [EventNotification] over the class
      [EventOs] of descriptors; EventPorts (service/event.rs, port/notifier.rs,
      port/listener.rs); WaitSet (waitset.rs).
    - Signal (signal.rs): the flags and the handler as a machine of calls that
      interrupt one another.
    - Node (node.rs): ids over the class [DefaultHasher], creation on top of the
      monitor and the signal handlers, drop, service selection.
    - Derive (entangle-derive/src/lib.rs): the macro as a function on syntax
      trees, and the types that trait selection then accepts.
    - Shared (src/contracts/shared_types.rs, src/contracts/mock.rs): the types
      of the contract and their copies in the crates; the mock channel.
    - Tests and TestsOs (the [mod tests] beside the code): each unit test as a
      program on the model that evaluates its assertions.
    - Examples (crates/entangle/examples): the [main] functions of pubsub.rs,
      reqres.rs, blackboard.rs, event.rs and waitset.rs.  Integration
      (crates/entangle/tests/integration.rs): the tests of one thread.

    A method is the function of the same name in the Module of its type, which
    takes and returns the state that [&self] mutates.  [Result] is [result]; a
    call that can panic or loop is an [outcome].

    ** Conventions

    - Integers are [Z] in the range of their Rust type, and every operation
      that can leave it is followed by [wrap].  The profile is release: overflow
      wraps, and [debug_assert!] is a separate boolean function
      ([..._debug_assert]) that theorems show to be true.  [usize] has 64 bits.
    - A compare-exchange of the weak kind may fail for no reason: sequential
      loops take a list [spurious] with one flag per turn.  It is also the fuel:
      any list that holds one [false] is enough, and the theorems ask for no
      more.  [OutOfFuel] is a loop that is still turning.
    - Concurrent machines interleave single accesses to shared memory in one
      order (sequential consistency).  They have executable [exec] and [run]
      functions, and each property holds for every schedule.
    - SpscWeak, SeqlockWeak and IndexSetWeak have the orderings of the source
      instead: a schedule also says which of the values allowed by the ordering a
      load returns.  A store comes last in the order of its location.  That loses
      nothing: a location is written by one thread, or only by
      read-modify-writes, or by an owner that has seen its last value
      ([weak_index_set_handover]).  A load reads from a store that has been
      executed; an access that is not atomic behaves like a Relaxed one.
    - An [Arc] is an index into a store ([World]), so clones of a handle share
      their target.  Calls on ports are atomic steps of the systems of
      PubSubSafe and ReqResSafe; in PubSubConc and ReqResConc they are cut at
      every access to what threads share.  There a call on the allocator is one
      step.  For what calls do, [index_set_linearizable] justifies that; for how
      long they take it does not: where a bound counts steps or turns, the turns
      of the allocator's own loops come on top, and [index_set_lock_free] bounds
      those by what the other threads get done.  [Server::receive] holds its
      mutex from its first step to its last; only the creation of a client takes
      it too, and the threads start when the clients are there.
    - The threaded tests run under schedules: lists of turns, each with a flag
      that makes the compare-exchange fail for no reason.  A round is a list in
      which every thread has a turn; the theorems on loops bound the rounds that
      are enough.
    - What is not in the repository is a class of operations with a class of
      laws: [Posix] and [PosixSpec] (system calls), [FileSystem] and
      [FileSystemSpec] (std::fs), [Ron] and [RonSpec] (the ron crate), [LockOs]
      and [LockOsSpec] (files with flock), [EventOs] and [EventOsSpec] (eventfd,
      pipe, read, write, poll), [SignalOs] and [SignalOsSpec] (signal),
      [DefaultHasher] and [DefaultHasherSpec].  The laws state documented
      behaviour and allow every call to fail; a class named [...Ready] adds that
      calls do not fail for want of a resource or of a permission.  That is an
      assumption, and an explicit hypothesis of the theorems that need it
      ([monitor_liveness], [monitor_cleanup], [node_life_cycle],
      [open_or_create_winner], half of [registry_list], those on events).
      Paths are in one spelling, and lead to files or to directories.  A call
      that would wait is [Blocks].  The modules [ToyOs], [ToyFs], [ToyLocks], [ToyEvents] and
      [ToySignals] are instances on which witnesses are computed.

    ** What the theorems show

    - Allocation.  [index_set_linearizable], [index_set_exclusive],
      [index_set_no_panic], [index_set_quiescent], [index_set_lock_free] and
      [acquire_solo]: under every interleaving the allocator is an atomic stack,
      an index has one owner, no slot is lost, and a call takes four steps and
      two more for each operation that takes effect meanwhile and each spurious
      failure; [acquire_release_ends]: threads that acquire and release in
      loops end.  The bound: between a thread's load and its compare-exchange
      fewer than 2^32 other operations succeed, or the 32-bit tag repeats; the
      relation [reach] has that side condition and nothing else.
      [weak_index_set_stack], [weak_index_set_handover],
      [weak_index_set_lock_free], [sc_index_runs_are_weak_runs]: the same with the
      orderings of the source, where an [acquire] that fails may have seen the
      empty stack late; and the memory of an index passes from owner to owner
      without a stale read.
    - Queues.  [spsc_linearizable], [spsc_fifo], [spsc_no_panic]: with one
      producer and one consumer a bounded FIFO, also when the 64-bit positions
      wrap; [producer_consumer_ends]: two loops over it end with all values
      received in order; [spsc_two_producers_lose]: not with two producers.
      [weak_spsc_fifo], [weak_spsc_payload], [weak_spsc_wait_free]: the orderings
      of the source are enough for this, and for the payload written before a
      push to be visible after the pop; [sc_runs_are_weak_runs]: that machine
      has the interleavings of SpscConc among its runs.
      [channel_refines_queues] lifts this to the channel.
    - Containers.  [mpmc_refines_map], [bitset_refines_set]: every sequence of
      calls is that of a finite map, of a finite set.  [bitset_linearizable]:
      so is every interleaving of calls, but for searches that find nothing and
      counts, and no two searches take one bit.  [mpmc_linearizable]: in
      any interleaving the calls are moves of one free list and one map, in the
      order of their events (an [add] reserves a slot, then puts it in the map;
      a [remove] takes it out, then frees it); [mpmc_quiescent]: no slot is
      lost, and between calls the container satisfies the sequential invariant.
      The bound is that of the allocator.  [concurrent_set_ends] and
      [concurrent_add_remove_ends]: loops of such calls end, with every bit set,
      with the container empty.  [mock_allocator_equivalent],
      [mock_channel_equivalent]: the mocks answer as the real ones do, the
      channel until it is full.
    - Segments.  [shm_create_spec], [shm_life_cycle], [ds_create_chunks],
      [ds_open_shares], [segment_manager_safe], [pointer_offset_roundtrip],
      [relocatable_remap]: chunks are in bounds, aligned, disjoint and named by
      distinct offsets; what a failed creation leaves behind.
    - Services.  [service_name_new], [registry_roundtrip], [registry_list],
      [open_or_create_spec]; [open_or_create_agreement] and
      [open_or_create_winner]: concurrent callers that succeed agree, and one
      of them made the file.
    - Processes.  [monitor_liveness], [monitor_cleanup], [node_life_cycle]:
      exactly the registered nodes are alive and listed, whatever crashes, and
      cleanups remove the files of the others, as long as files can be opened;
      [monitor_open_failure]: otherwise a live node is taken for dead and its
      file removed; [register_cleanup_race], [node_same_tick]: where registration
      goes wrong.
    - Events.  [event_refines_counter]: an event is a counter on both kinds of
      system; [try_wait_breaks_wait], [notifier_never_wakes_listener];
      [waitset_wait_spec].
    - Signals.  [signal_flags]; [signal_reset_race].
    - Types.  [impl_zero_copy_safe_spec], [derive_sound]: what the macro accepts,
      and that no type it admits contains a pointer or a union, at any depth.
    - Publish-subscribe.  [pubsub_conservation], [pubsub_delivery],
      [pubsub_progress]: while no publisher has more than one subscriber, no
      chunk is in two places, values arrive unchanged and in order, and no call
      panics or blocks; [pubsub_two_subscribers]: with two, [reclaim] frees a
      chunk twice.  [pubsub_threads_safe]: the same for two threads whose calls
      overlap, and no chunk is written while it is read; [loops_finish]: the
      producer and the consumer of the example end under every fair schedule,
      with every value received and every chunk given back.
    - Request-response.  [reqres_conservation], [reqres_delivery], for any
      number of clients; [reqres_threads_safe], [reqres_threads_delivery]: the
      same when their calls and the server's overlap;
      [reqres_threads_wait_free]: every call ends within a fixed number of its
      own steps and calls on the allocator; [reqres_loops_finish]: a client that
      waits for each response and a server that waits for each request end under
      every fair schedule, with every request answered.
    - Blackboard, with the orderings of the source.  [seqlock_weak_words]: every
      word that a read returns comes from the write whose number it loaded, or
      from a later one; [seqlock_weak_monotone]: successive reads never go back,
      word by word, so a counter of one word never seems to fall;
      [seqlock_weak_tears]: but longer values may mix words of two writes.  [seqlock_sequential_register]: not where every load
      returns the latest value; there one writer and its readers are an atomic
      register for the first 2^63 writes.  [blackboard_write_read],
      [blackboard_reader_spins], [blackboard_create_ports]: one call at a time.
      [sc_register], [blackboard_no_torn_read] and [blackboard_two_writers_tear]
      are about the machine [Seqlock], whose memory is sequentially consistent:
      two writers tear values even there.
    - Tests and examples.  [..._tests_pass], [..._passes] and [..._example]: every modelled
      test and example passes on the model; [event_example_hangs] and
      [waitset_example_times_out]: two examples do not do what they say.

    ** Not modelled

    Memory orderings weaker than sequential consistency, except for the queue,
    the seqlock and the allocator; the interleavings of more than one publisher
    and one subscriber; files and memory that other programs change.  Logging.
    [MpmcContainer::for_each] and [len] have no steps of their own in MpmcConc:
    the first makes the accesses of one [get] per slot, the second those of
    [count_set] in BitsetConc.
    Benchmarks measure time and have no assertions.  The producers and consumers
    of tests/cross_process.rs and tests/proptest_qos.rs are those of PubSubLoop
    with other numbers, their servers and clients those of ReqResLoop; their
    writers and readers are those of SeqlockWeak. *)
From Stdlib Require Export ZArith Lia.
From stdpp Require Export prelude gmap strings list numbers.
From stdpp Require Export list_relations list_misc.
#[local] Open Scope Z_scope.

(** ** Outcomes of Rust computations

    [result] is Rust's [Result<A, E>].  [outcome] is what a call does:
    it returns a value, it panics (an [assert!], an out-of-range index),
    or it is still looping when the fuel given to the model is used up. *)

Inductive result (A E : Type) : Type :=
| Ok (a : A)
| Err (e : E).
Arguments Ok {A E} a.
Arguments Err {A E} e.

Inductive outcome (A : Type) : Type :=
| Ret (a : A)
| Panic
| OutOfFuel.
Arguments Ret {A} a.
Arguments Panic {A}.
Arguments OutOfFuel {A}.

Definition obind {A B} (m : outcome A) (k : A -> outcome B) : outcome B :=
  match m with
  | Ret a => k a
  | Panic => Panic
  | OutOfFuel => OutOfFuel
  end.

Definition rbind {A B E} (m : result A E) (k : A -> result B E) : result B E :=
  match m with
  | Ok a => k a
  | Err e => Err e
  end.

Definition map_err {A E F} (f : E -> F) (m : result A E) : result A F :=
  match m with
  | Ok a => Ok a
  | Err e => Err (f e)
  end.

Declare Scope rust_scope.
Delimit Scope rust_scope with rust.
Notation "'let!' x ':=' m 'in' k" := (obind m (fun x => k))
  (at level 10, x pattern, m at level 100, k at level 200) : rust_scope.
Notation "'let?' x ':=' m 'in' k" := (rbind m (fun x => k))
  (at level 10, x pattern, m at level 100, k at level 200) : rust_scope.

(** An indexing expression [v[i]] of the source: it panics out of range. *)
Definition index {A} (l : list A) (i : Z) : outcome A :=
  match l !! Z.to_nat i with
  | Some a => Ret a
  | None => Panic
  end.

(** ** Machine integers

    A [w]-bit unsigned integer is a [Z] in [0, 2^w); arithmetic that can leave
    the range is followed by [wrap w]. *)

Definition wrap (w x : Z) : Z := x mod 2 ^ w.
Definition fits (w x : Z) : Prop := 0 <= x < 2 ^ w.

Definition wrapping_add (w a b : Z) : Z := wrap w (a + b).
Definition wrapping_sub (w a b : Z) : Z := wrap w (a - b).
Definition wrapping_mul (w a b : Z) : Z := wrap w (a * b).
(** [a << n] at width [w]: bits shifted out at the top are lost. *)
Definition shl (w a n : Z) : Z := wrap w (Z.shiftl a n).
(** [!a] at width [w]. *)
Definition bnot (w a : Z) : Z := Z.lxor a (Z.ones w).

#[global] Instance fits_dec w x : Decision (fits w x).
Proof. unfold fits. apply _. Defined.

Create HintDb words.

Lemma wrap_small w x : fits w x -> wrap w x = x.
Proof. intros H. apply Z.mod_small, H. Qed.

Lemma wrap_fits w x : 0 <= w -> fits w (wrap w x).
Proof. intros. apply Z.mod_pos_bound, Z.pow_pos_nonneg; lia. Qed.

Lemma wrap_wrap w x : 0 <= w -> wrap w (wrap w x) = wrap w x.
Proof. intros. apply wrap_small, wrap_fits; done. Qed.

Lemma wrap_add_l w a b : wrap w (wrap w a + b) = wrap w (a + b).
Proof. apply Zplus_mod_idemp_l. Qed.

Lemma wrap_add_r w a b : wrap w (a + wrap w b) = wrap w (a + b).
Proof. apply Zplus_mod_idemp_r. Qed.

Lemma wrap_sub_l w a b : wrap w (wrap w a - b) = wrap w (a - b).
Proof. apply Zminus_mod_idemp_l. Qed.

Lemma wrap_sub_r w a b : wrap w (a - wrap w b) = wrap w (a - b).
Proof. apply Zminus_mod_idemp_r. Qed.

(** Two counters less than [2^w] apart that agree modulo [2^w] are equal:
    the fact on which every tag or sequence-number argument rests. *)
Lemma wrap_window w a b :
  wrap w a = wrap w b -> 0 <= a - b < 2 ^ w -> a = b.
Proof.
  unfold wrap. intros He Hb.
  assert (Hs : (a - b) mod 2 ^ w = 0).
  { rewrite Zminus_mod, He, Z.sub_diag. apply Z.mod_0_l. lia. }
  rewrite Z.mod_small in Hs by lia. lia.
Qed.

Lemma fits_le w v x : 0 <= w <= v -> fits w x -> fits v x.
Proof.
  unfold fits. intros ? [? ?]. pose proof (Z.pow_le_mono_r 2 w v). lia.
Qed.

Lemma testbit_fits w x : 0 <= w -> 0 <= x ->
  (forall n, w <= n -> Z.testbit x n = false) -> fits w x.
Proof.
  intros Hw Hx Hb. split; [done|].
  destruct (decide (x < 2 ^ w)) as [|Hge]; [done|].
  assert (0 < 2 ^ w) by (apply Z.pow_pos_nonneg; lia).
  assert (Hl : w <= Z.log2 x) by (apply Z.log2_le_pow2; lia).
  specialize (Hb _ Hl). rewrite Z.bit_log2 in Hb by lia. done.
Qed.

Lemma fits_testbit w x n : fits w x -> w <= n -> Z.testbit x n = false.
Proof.
  intros [H0 H1] Hn. destruct (decide (x = 0)) as [->|]; [apply Z.bits_0|].
  apply Z.bits_above_log2; [done|].
  apply Z.lt_le_trans with w; [|done]. apply Z.log2_lt_pow2; lia.
Qed.

Lemma wrapping_add_fits w a b : 0 <= w -> fits w (wrapping_add w a b).
Proof. apply wrap_fits. Qed.

Lemma wrapping_sub_fits w a b : 0 <= w -> fits w (wrapping_sub w a b).
Proof. apply wrap_fits. Qed.

#[export] Hint Resolve wrap_fits wrapping_add_fits wrapping_sub_fits fits_testbit : words.
#[export] Hint Extern 1 (0 <= Zpos _) => discriminate : words.
#[global] Arguments wrap : simpl never.
#[global] Arguments wrapping_add : simpl never.
#[global] Arguments wrapping_sub : simpl never.
#[global] Arguments wrapping_mul : simpl never.
#[global] Arguments shl : simpl never.
#[global] Arguments bnot : simpl never.

(** Solves the closed side conditions [fits 64 5], [0 <= 32] and the like. *)
Ltac fits_tac := solve [ auto with words | unfold fits, wrap in *; lia
                       | vm_compute; intuition congruence ].

(** ** Lists indexed by machine integers *)

Lemma index_Ret {A} (l : list A) i a :
  index l i = Ret a <-> l !! Z.to_nat i = Some a.
Proof. unfold index. destruct (l !! Z.to_nat i); split; congruence. Qed.

Lemma index_ok {A} (l : list A) i :
  0 <= i < Z.of_nat (length l) -> exists a, l !! Z.to_nat i = Some a.
Proof. intros. apply lookup_lt_is_Some_2. lia. Qed.

(** Replacing the state of one thread in a list of threads. *)
Section replace.
Context {A B : Type} (f : A -> list B).

Lemma delete_insert_same (l : list A) i x : delete i (<[i := x]> l) = delete i l.
Proof. revert i. induction l as [|y l IH]; intros [|i]; cbn; by rewrite ?IH. Qed.

Lemma concat_lookup (l : list A) i x :
  l !! i = Some x -> concat (f <$> l) ≡ₚ f x ++ concat (f <$> delete i l).
Proof.
  revert i. induction l as [|y l IH]; intros [|i]; cbn; [done|done|by intros [= ->]|].
  intros Hi. rewrite (IH _ Hi). by rewrite Permutation_app_swap_app.
Qed.

Lemma concat_insert (l : list A) i x y :
  l !! i = Some x ->
  concat (f <$> <[i := y]> l) ≡ₚ f y ++ concat (f <$> delete i l).
Proof.
  intros Hi. rewrite (concat_lookup (<[i := y]> l) i y), delete_insert_same; [done|].
  apply list_lookup_insert_eq. by eapply lookup_lt_Some.
Qed.

Lemma elem_of_concat (l : list A) i a x :
  l !! i = Some a -> x ∈ f a -> x ∈ concat (f <$> l).
Proof. intros Hi Hx. rewrite (concat_lookup _ _ _ Hi). apply elem_of_app. by left. Qed.

Lemma concat_disjoint (l : list A) i j a b x :
  NoDup (concat (f <$> l)) -> l !! i = Some a -> l !! j = Some b -> i <> j ->
  x ∈ f a -> x ∉ f b.
Proof.
  intros Hnd Hi Hj Hne Hx Hb. rewrite (concat_lookup _ _ _ Hi) in Hnd.
  apply NoDup_app in Hnd as (_ & Hd & _). apply (Hd x Hx).
  destruct (decide (j < i)%nat).
  - apply (elem_of_concat _ j b); [|done]. by rewrite list_lookup_delete_lt.
  - apply (elem_of_concat _ (pred j) b); [|done].
    rewrite list_lookup_delete_ge by lia. by replace (S (pred j)) with j by lia.
Qed.
End replace.

Lemma pair_fst {A B} (x : A * B) a : x.1 = a -> x = (a, x.2).
Proof. by destruct x; intros <-. Qed.

(** An element in the middle of a list, and the others. *)
Lemma elem_middle {A} (l1 l2 : list A) x : x ∈ l1 ++ x :: l2.
Proof. apply elem_of_app. right. by left. Qed.

Lemma elem_middle_other {A} (l1 l2 : list A) x y : y ∈ l1 ++ l2 -> y ∈ l1 ++ x :: l2.
Proof. rewrite !elem_of_app, elem_of_cons. tauto. Qed.

(** A number above those of a list, for a new object. *)
Definition above (l : list Z) : Z := foldr Z.max 0 l + 1.

Lemma above_fresh l x : x ∈ l -> x < above l.
Proof.
  unfold above. induction l as [|y l IH]; [by intros ?%elem_of_nil|]. cbn.
  intros [->|Hx%IH]%elem_of_cons; lia.
Qed.

Lemma above_nonneg l : 0 <= above l.
Proof. unfold above. induction l; cbn; lia. Qed.

(** Sums of integers over a list. *)
Fixpoint zsum {A} (f : A -> Z) (l : list A) : Z :=
  match l with [] => 0 | x :: l => f x + zsum f l end.

Lemma zsum_lookup {A} (f : A -> Z) l i x :
  l !! i = Some x -> zsum f l = f x + zsum f (delete i l).
Proof.
  revert i. induction l as [|y l IH]; intros [|i] Hi; try done.
  - cbn in Hi. by simplify_eq.
  - change (delete (S i) (y :: l)) with (y :: delete i l). cbn [zsum].
    rewrite (IH i) by done. lia.
Qed.

Lemma zsum_insert {A} (f : A -> Z) l i x y :
  l !! i = Some x -> zsum f (<[i := y]> l) = zsum f l - f x + f y.
Proof.
  intros Hi. rewrite (zsum_lookup f (<[i := y]> l) i y), delete_insert_same.
  - rewrite (zsum_lookup f l i x Hi). lia.
  - apply list_lookup_insert_eq. by eapply lookup_lt_Some.
Qed.

Lemma zsum_replicate {A} (f : A -> Z) n x : zsum f (replicate n x) = Z.of_nat n * f x.
Proof. induction n as [|n IH]; cbn [replicate zsum]; [done|]. lia. Qed.

Lemma concat_replicate_nil {A B} (f : A -> list B) n x :
  f x = [] -> concat (f <$> replicate n x) = [].
Proof. intros Hf. induction n as [|n IH]; cbn; [done|]. by rewrite Hf. Qed.

(** Filters that agree on the list, and filters of an image. *)
Section filter.
Context {A : Type} (P Q : A -> Prop) `{!forall x, Decision (P x), !forall x, Decision (Q x)}.

Lemma filter_ext_in (l : list A) :
  (forall x, x ∈ l -> P x <-> Q x) -> filter P l = filter Q l.
Proof.
  induction l as [|x l IH]; intros Hpq; [done|]. rewrite !filter_cons.
  rewrite IH by (intros; apply Hpq; by right).
  specialize (Hpq x (list_elem_of_here _ _)). do 2 case_decide; tauto.
Qed.

Lemma filter_none_in (l : list A) : (forall x, x ∈ l -> ~ P x) -> filter P l = [].
Proof.
  induction l as [|x l IH]; intros Hp; [done|]. rewrite filter_cons_False.
  - apply IH. intros; apply Hp. by right.
  - apply Hp. by left.
Qed.

Lemma length_filter_fmap {B} (f : B -> A) (l : list B) :
  length (filter P (f <$> l)) = length (filter (fun x => P (f x)) l).
Proof.
  induction l as [|x l IH]; [done|]. cbn [fmap list_fmap]. rewrite !filter_cons.
  case_decide; cbn; by rewrite IH.
Qed.
End filter.

(** A history of values, each with the number of what it belongs to, and what
    the history holds for number [i]. *)
Definition values_of {A} (i : nat) (h : list (nat * A)) : list A :=
  snd <$> filter (fun p => p.1 = i) h.
#[global] Arguments values_of : simpl never.

Lemma values_of_here {A} i (v : A) l : values_of i (l ++ [(i, v)]) = values_of i l ++ [v].
Proof. unfold values_of. rewrite filter_app, fmap_app. by rewrite filter_cons_True. Qed.

Lemma values_of_other {A} i j (v : A) l : i <> j -> values_of i (l ++ [(j, v)]) = values_of i l.
Proof.
  intros. unfold values_of. rewrite filter_app, fmap_app.
  rewrite filter_cons_False by (cbn; congruence). by rewrite app_nil_r.
Qed.

Lemma values_of_none {A} i (h : list (nat * A)) :
  (forall v, (i, v) ∉ h) -> values_of i h = [].
Proof.
  intros Hn. unfold values_of. rewrite filter_none_in; [done|].
  intros [j v] Hin He. cbn in He. subst j. by apply (Hn v).
Qed.

Lemma elem_of_values {A} i (v : A) h : v ∈ values_of i h <-> (i, v) ∈ h.
Proof.
  unfold values_of. rewrite list_elem_of_fmap. split.
  - intros ([j w] & -> & [He Hin]%list_elem_of_filter). cbn in He. by subst j.
  - intros Hin. exists (i, v). split; [done|]. by apply list_elem_of_filter.
Qed.

(** ** Tactics *)

(** Case analysis on the innermost [match] of the goal or of a hypothesis,
    keeping the equation. *)
Ltac case_goal :=
  match goal with
  | |- context [match ?x with _ => _ end] => destruct x eqn:?
  end.
Ltac case_hyp H :=
  match type of H with
  | context [match ?x with _ => _ end] => destruct x eqn:?
  end.

(** Turns boolean comparisons on [Z] into propositions. *)
Ltac zbool :=
  repeat match goal with
  | H : (_ <? _) = true |- _ => apply Z.ltb_lt in H
  | H : (_ <? _) = false |- _ => apply Z.ltb_ge in H
  | H : (_ <=? _) = true |- _ => apply Z.leb_le in H
  | H : (_ <=? _) = false |- _ => apply Z.leb_gt in H
  | H : (_ =? _) = true |- _ => apply Z.eqb_eq in H
  | H : (_ =? _) = false |- _ => apply Z.eqb_neq in H
  | H : (_ >=? _) = _ |- _ => rewrite Z.geb_leb in H
  | H : (_ && _) = true |- _ => apply andb_prop in H as [??]
  | H : negb _ = true |- _ => apply negb_true_iff in H
  | H : negb _ = false |- _ => apply negb_false_iff in H
  end.

(** ** Transition systems *)

Section transition_systems.
Context {St : Type} (step : St -> St -> Prop).

(** An invariant is established by the initial states and kept by each step. *)
Definition inductive_invariant (init I : St -> Prop) : Prop :=
  (forall s, init s -> I s) /\ (forall s s', I s -> step s s' -> I s').

Lemma invariant_rtc init I s s' :
  inductive_invariant init I -> init s -> rtc step s s' -> I s'.
Proof. intros [Hi Hs] H0. apply rtc_ind_r; eauto. Qed.
End transition_systems.

(** ** Atomic operations

    [compare_exchange_weak(old, new)] on a cell holding [cur]: it may fail
    although [cur = old] (the flag [spurious]); on failure it returns the
    current value, which every loop of the source uses as its next [old]. *)
Definition compare_exchange_weak (spurious : bool) (cur old new : Z) : result Z Z :=
  if (cur =? old) && negb spurious then Ok new else Err cur.

Lemma cas_ok sp cur old new v :
  compare_exchange_weak sp cur old new = Ok v <-> cur = old /\ sp = false /\ v = new.
Proof.
  unfold compare_exchange_weak. destruct (cur =? old) eqn:E, sp; cbn; zbool;
    split; intros; destruct_and?; simplify_eq; auto.
Qed.

Lemma cas_err sp cur old new v :
  compare_exchange_weak sp cur old new = Err v -> v = cur.
Proof. unfold compare_exchange_weak. case_match; congruence. Qed.

Lemma cas_same sp cur new :
  compare_exchange_weak sp cur cur new = if sp then Err cur else Ok new.
Proof. unfold compare_exchange_weak. rewrite Z.eqb_refl. by destruct sp. Qed.

(** A failure has a reason. *)
Lemma cas_err_why sp cur old new v :
  compare_exchange_weak sp cur old new = Err v -> sp = true \/ cur <> old.
Proof.
  intros H. destruct (decide (cur = old)) as [->|]; [left|by right].
  rewrite cas_same in H. by destruct sp.
Qed.
