(* ===== verification/Contracts.v ===== *)
(** * Transport contracts (crates/entangle-transport/src/contracts.rs)

    [PointerOffset] (a segment id and a byte offset packed in a [u64]), the
    channel states and the errors of loans, sends and receives.  The layout
    lemmas proved here are what every later file knows about the packing. *)
From S2P Require Import Prelude.
#[local] Open Scope Z_scope.

(** [LoanError], [SendError], [ReceiveError] and [ChannelState]. *)

Inductive LoanError :=
| OutOfMemory
| ExceedsMaxLoans (max : Z).

Inductive SendError :=
| SendConnectionBroken
| QueueFull.

Inductive ReceiveError :=
| Empty
| RecvConnectionBroken.

Inductive ChannelState :=
| Creating
| Connected
| Disconnected.

#[global] Instance LoanError_eq_dec : EqDecision LoanError.
Proof. solve_decision. Defined.
#[global] Instance SendError_eq_dec : EqDecision SendError.
Proof. solve_decision. Defined.
#[global] Instance ReceiveError_eq_dec : EqDecision ReceiveError.
Proof. solve_decision. Defined.
#[global] Instance ChannelState_eq_dec : EqDecision ChannelState.
Proof. solve_decision. Defined.

(** The discriminants of [#[repr(u8)] enum ChannelState]. *)
Definition ChannelState_as_u8 (s : ChannelState) : Z :=
  match s with Creating => 0 | Connected => 1 | Disconnected => 2 end.

(** A slot of two bit fields: [hi] shifted above a low field of [n] bits.
    Both the pointer offsets and the packed free-list heads are such slots. *)
Section bit_fields.
Context (m n : Z) (Hm : 0 <= m) (Hn : 0 <= n).

Lemma fields_lor hi lo :
  0 <= hi -> fits n lo -> Z.lor (Z.shiftl hi n) lo = hi * 2 ^ n + lo.
Proof.
  intros Hhi Hlo. rewrite <- Z.shiftl_mul_pow2 by done.
  symmetry. rewrite <- Z.lxor_lor.
  - apply Z.add_nocarry_lxor. apply Z.bits_inj'. intros k Hk.
    rewrite Z.land_spec, Z.bits_0, Z.shiftl_spec by done.
    destruct (decide (k < n)).
    + rewrite Z.testbit_neg_r by lia. done.
    + rewrite (fits_testbit n lo) by (done || lia). apply andb_false_r.
  - apply Z.bits_inj'. intros k Hk.
    rewrite Z.land_spec, Z.bits_0, Z.shiftl_spec by done.
    destruct (decide (k < n)).
    + rewrite Z.testbit_neg_r by lia. done.
    + rewrite (fits_testbit n lo) by (done || lia). apply andb_false_r.
Qed.

Lemma fields_fits hi lo :
  fits m hi -> fits n lo -> fits (m + n) (hi * 2 ^ n + lo).
Proof.
  unfold fits. intros ??. rewrite Z.pow_add_r by done. nia.
Qed.

Lemma fields_hi hi lo :
  0 <= hi -> fits n lo -> Z.shiftr (hi * 2 ^ n + lo) n = hi.
Proof.
  intros ? [??]. rewrite Z.shiftr_div_pow2 by done.
  rewrite Z.div_add_l by lia. rewrite Z.div_small by lia. lia.
Qed.

Lemma fields_lo hi lo :
  fits n lo -> wrap n (hi * 2 ^ n + lo) = lo.
Proof.
  intros Hlo. unfold wrap. rewrite Z.add_comm, Z_mod_plus_full.
  by apply Z.mod_small.
Qed.

Lemma fields_eta x : 0 <= x -> Z.shiftr x n * 2 ^ n + wrap n x = x.
Proof.
  intros. rewrite Z.shiftr_div_pow2 by done. unfold wrap.
  rewrite Z.mul_comm. symmetry. apply Z.div_mod. lia.
Qed.
End bit_fields.

(** ** PointerOffset *)
Module PointerOffset.

(** [pub struct PointerOffset(u64)]: the wrapped integer. *)
Record PointerOffset := mk { raw0 : Z }.

#[global] Instance PointerOffset_eq_dec : EqDecision PointerOffset.
Proof. solve_decision. Defined.

Definition OFFSET_MASK : Z := 0x0000FFFFFFFFFFFF.

(** [((segment_id as u64) << 48) | (offset as u64 & 0x0000_FFFF_FFFF_FFFF)] *)
Definition new (segment_id offset : Z) : PointerOffset :=
  mk (Z.lor (shl 64 segment_id 48) (Z.land offset OFFSET_MASK)).

(** [debug_assert!(offset < (1 << 48))], checked in debug builds only. *)
Definition new_debug_assert (offset : Z) : bool := offset <? 2 ^ 48.

Definition segment_id (p : PointerOffset) : Z := wrap 16 (Z.shiftr (raw0 p) 48).

Definition offset (p : PointerOffset) : Z := Z.land (raw0 p) OFFSET_MASK.

Definition raw (p : PointerOffset) : Z := raw0 p.

Definition from_raw (r : Z) : PointerOffset := mk r.

Lemma mask_wrap x : 0 <= x -> Z.land x OFFSET_MASK = wrap 48 x.
Proof. intros. change OFFSET_MASK with (Z.ones 48). by apply Z.land_ones. Qed.

(** What [new] computes: the two fields side by side. *)
Lemma raw_new sid off :
  fits 16 sid -> 0 <= off -> raw (new sid off) = sid * 2 ^ 48 + wrap 48 off.
Proof.
  intros Hs Ho. unfold new, raw, shl. cbn. rewrite mask_wrap by done.
  rewrite wrap_small.
  - apply fields_lor; [lia| apply Hs | apply wrap_fits; lia].
  - rewrite Z.shiftl_mul_pow2 by lia. unfold fits in *. lia.
Qed.

Lemma raw_fits sid off : fits 16 sid -> 0 <= off -> fits 64 (raw (new sid off)).
Proof.
  intros Hs Ho. rewrite raw_new by done.
  apply (fields_fits 16 48); [lia|lia|done|apply wrap_fits; lia].
Qed.

Lemma segment_id_new sid off :
  fits 16 sid -> 0 <= off -> segment_id (new sid off) = sid.
Proof.
  intros Hs Ho. unfold segment_id.
  change (raw0 (new sid off)) with (raw (new sid off)). rewrite raw_new by done.
  rewrite fields_hi; [by apply wrap_small|lia|apply Hs|apply wrap_fits; lia].
Qed.

Lemma offset_new_wrap sid off :
  fits 16 sid -> 0 <= off -> offset (new sid off) = wrap 48 off.
Proof.
  intros Hs Ho. unfold offset.
  change (raw0 (new sid off)) with (raw (new sid off)). rewrite raw_new by done.
  rewrite mask_wrap.
  - by apply fields_lo, wrap_fits.
  - pose proof (wrap_fits 48 off). unfold fits in *. lia.
Qed.

Lemma offset_new sid off :
  fits 16 sid -> fits 48 off -> offset (new sid off) = off.
Proof.
  intros Hs Ho. rewrite offset_new_wrap; [by apply wrap_small|done|apply Ho].
Qed.

Lemma new_inj s1 o1 s2 o2 :
  fits 16 s1 -> fits 16 s2 -> fits 48 o1 -> fits 48 o2 ->
  new s1 o1 = new s2 o2 -> s1 = s2 /\ o1 = o2.
Proof.
  intros Hs1 Hs2 Ho1 Ho2 E. split.
  - rewrite <- (segment_id_new s1 o1), <- (segment_id_new s2 o2), E; try done;
      [apply Ho2|apply Ho1].
  - by rewrite <- (offset_new s1 o1), <- (offset_new s2 o2), E.
Qed.

(** Unpacking and repacking any [u64] gives it back: the whole word is used. *)
Lemma new_unpack p : fits 64 (raw p) -> new (segment_id p) (offset p) = p.
Proof.
  destruct p as [r]. unfold raw. cbn. intros Hr.
  assert (Hs : fits 16 (Z.shiftr r 48)).
  { unfold fits in *. rewrite Z.shiftr_div_pow2 by lia. split.
    - apply Z.div_pos; lia.
    - apply Z.div_lt_upper_bound; lia. }
  unfold segment_id, offset. cbn. rewrite wrap_small by done.
  rewrite mask_wrap by apply Hr.
  pose proof (wrap_fits 48 r ltac:(lia)) as Hw.
  pose proof (raw_new (Z.shiftr r 48) (wrap 48 r) Hs ltac:(apply Hw)) as Hn.
  rewrite (wrap_small 48 (wrap 48 r)) in Hn by done.
  rewrite fields_eta in Hn by (unfold fits in Hr; lia).
  unfold raw in Hn. destruct (new _ _). by cbn in Hn; subst.
Qed.

(** A [PointerOffset] loses nothing: packing a 16-bit segment and a 48-bit
    offset gives a [u64] from which both come back, every [u64] is the packing
    of its two fields, and an offset of more than 48 bits (which the debug
    assertion of [new] refuses) loses its high bits only, never the segment. *)
Theorem pointer_offset_roundtrip sid off r :
  fits 16 sid -> 0 <= off -> fits 64 r ->
  fits 64 (raw (new sid off)) /\ segment_id (new sid off) = sid /\
  offset (new sid off) = (if new_debug_assert off then off else wrap 48 off) /\
  new (segment_id (from_raw r)) (offset (from_raw r)) = from_raw r.
Proof.
  intros Hs Ho Hr. split; [by apply raw_fits|]. split; [by apply segment_id_new|].
  split; [|by apply new_unpack]. rewrite offset_new_wrap by done.
  unfold new_debug_assert. destruct (off <? 2 ^ 48) eqn:E; zbool; [|done].
  apply wrap_small. split; lia.
Qed.

Lemma pointer_offset_roundtrip_witness :
  offset (new 65535 281474976710655) = 281474976710655 /\ offset (new 3 (2 ^ 48 + 8)) = 8.
Proof.
  split.
  - destruct (pointer_offset_roundtrip 65535 281474976710655 0) as (_ & _ & H & _);
      [fits_tac|lia|fits_tac|exact H].
  - destruct (pointer_offset_roundtrip 3 (2 ^ 48 + 8) 0) as (_ & _ & H & _);
      [fits_tac|lia|fits_tac|exact H].
Defined.

End PointerOffset.
