(* ===== verification/Relocatable.v ===== *)
(** * RelocatablePtr (crates/entangle-lockfree/src/relocatable.rs)

    A pointer stored as the distance from its own address, for memory that
    other processes map at other addresses.  Addresses are 64-bit words; [ptr]
    methods take the address of the cell, which [&self] gives in the source. *)
From S2P Require Import Prelude.
#[local] Open Scope Z_scope.

Module RelocatablePtr.

(** [AtomicIsize]: a signed 64-bit value. *)
Record RelocatablePtr := mk { offset : Z }.

(** The signed reading of a 64-bit word. *)
Definition to_isize (x : Z) : Z :=
  let u := wrap 64 x in if u <? 2 ^ 63 then u else u - 2 ^ 64.

Definition null : RelocatablePtr := mk 0.

(** [target.offset_from(self_addr)] *)
Definition from_ptr (self_addr target : Z) : Z := to_isize (target - self_addr).

Definition store (self_addr target : Z) : RelocatablePtr := mk (from_ptr self_addr target).

Definition load (self_addr : Z) (p : RelocatablePtr) : Z :=
  let off := offset p in
  if off =? 0 then 0 else wrap 64 (self_addr + off).

Definition load_mut (self_addr : Z) (p : RelocatablePtr) : Z := load self_addr p.

Definition is_null (p : RelocatablePtr) : bool := offset p =? 0.

Definition clear (p : RelocatablePtr) : RelocatablePtr := mk 0.

Lemma to_isize_small x : - 2 ^ 63 <= x < 2 ^ 63 -> to_isize x = x.
Proof.
  intros Hx. unfold to_isize. destruct (decide (0 <= x)).
  - rewrite wrap_small by (unfold fits; lia). by rewrite (proj2 (Z.ltb_lt _ _)) by lia.
  - assert (He : wrap 64 x = x + 2 ^ 64).
    { unfold wrap. rewrite <- (Z.mod_add x 1) by lia. rewrite Z.mod_small; lia. }
    rewrite He, (proj2 (Z.ltb_ge _ _)) by lia. lia.
Qed.

Lemma offset_store self_addr target :
  - 2 ^ 63 <= target - self_addr < 2 ^ 63 -> offset (store self_addr target) = target - self_addr.
Proof. apply to_isize_small. Qed.

(** Relocation.  A pointer stored while the segment is mapped at [base]
    leads to the same byte of the segment when it is loaded under any other
    mapping [base'], without being written again; only a pointer to its own
    cell is lost, since the distance 0 is also the null pointer. *)
Theorem relocatable_remap base base' size s t :
  0 <= base -> 0 < base' -> base + size <= 2 ^ 64 -> base' + size <= 2 ^ 64 ->
  size < 2 ^ 63 -> 0 <= s < size -> 0 <= t < size ->
  let p := store (base + s) (base + t) in
  load (base + s) p = (if s =? t then 0 else base + t) /\
  load (base' + s) p = (if s =? t then 0 else base' + t) /\
  is_null p = (s =? t) /\ (s <> t -> load (base' + s) p <> 0) /\
  load (base' + s) (clear p) = 0.
Proof.
  intros H0 H1 Hb Hb' Hsz Hs Ht p.
  assert (Ho : offset p = t - s) by (unfold p; rewrite offset_store; lia).
  unfold is_null, load. rewrite Ho.
  destruct (s =? t) eqn:E; zbool.
  - by rewrite (proj2 (Z.eqb_eq _ _)) by lia.
  - rewrite (proj2 (Z.eqb_neq _ _)) by lia.
    rewrite !wrap_small by (unfold fits; lia).
    split; [lia|]. split; [lia|]. split; [done|]. split; [lia|done].
Qed.

Lemma relocatable_remap_witness :
  load (8192 + 16) (store (4096 + 16) (4096 + 8)) = 8200.
Proof.
  destruct (relocatable_remap 4096 8192 64 16 8) as (_ & H & _); [lia..|]. exact H.
Defined.

End RelocatablePtr.
