(* ===== verification/Rounds.v ===== *)
(** * Fair schedules of terminating threads

    Threads that run loops over a shared structure, one access a turn.  When
    every turn of a thread that has not ended brings the system closer to its
    end, up to the failures that a schedule injects, then enough rounds, in each
    of which every thread has a turn, end all threads.  IndexSetLoop.v,
    BitsetLoop.v and MpmcLoop.v give the measures. *)
From S2P Require Import Prelude.
#[local] Open Scope Z_scope.

(** A round gives each of [n] threads at least one turn. *)
Definition round (n : nat) (sched : list (nat * bool)) : Prop := forall i, (i < n)%nat -> i ∈ sched.*1.

(** The turns at which a compare-exchange is to fail for no reason. *)
Definition spurious_count (sched : list (nat * bool)) : nat :=
  length (filter (fun x => x.2 = true) sched).

Lemma spurious_count_cons i sp sched :
  Z.of_nat (spurious_count ((i, sp) :: sched)) = Z.of_nat (spurious_count sched) + if sp then 1 else 0.
Proof. unfold spurious_count. rewrite filter_cons. cbn. destruct sp; case_decide; cbn; done || lia. Qed.

Lemma spurious_count_app l1 l2 : spurious_count (l1 ++ l2) = (spurious_count l1 + spurious_count l2)%nat.
Proof. unfold spurious_count. by rewrite filter_app, length_app. Qed.

(** Sums over the threads. *)
Lemma zsum_nonneg {A} (f : A -> Z) l : (forall x, 0 <= f x) -> 0 <= zsum f l.
Proof. intros Hf. induction l as [|x l IH]; cbn; [lia|]. specialize (Hf x). lia. Qed.

Lemma zsum_le {A} (f g : A -> Z) l d :
  (forall x, x ∈ l -> f x <= g x + d) -> 0 <= d -> zsum f l <= zsum g l + d * Z.of_nat (length l).
Proof.
  intros Hfg Hd. induction l as [|x l IH]; cbn [zsum length]; [lia|].
  pose proof (Hfg x ltac:(left)). specialize (IH ltac:(intros; apply Hfg; by right)). nia.
Qed.

(** One thread comes from [x] to [y], and every other loses at most [d]. *)
Lemma zsum_step {A} (f g : A -> Z) l i x y d :
  l !! i = Some x -> 0 <= d -> (forall z, z ∈ l -> g z <= f z + d) ->
  zsum g (<[i := y]> l) <= zsum f l - f x + g y + d * Z.of_nat (length l).
Proof.
  intros Hx Hd Hle. rewrite (zsum_insert _ _ _ _ _ Hx), (zsum_lookup g _ _ _ Hx), (zsum_lookup f _ _ _ Hx).
  pose proof (zsum_le g f (delete i l) d) as Hz.
  assert (Hdl : (length (delete i l) <= length l)%nat) by (rewrite length_delete by eauto; lia).
  specialize (Hz ltac:(eauto using list_elem_of_delete_inv) Hd). nia.
Qed.

Section rounds.
Context {St L : Type} (loops : St -> list L) (step : nat -> bool -> St -> St).
Context (ended : L -> Prop) {Hdec : forall l, Decision (ended l)}.
Context (good : St -> Prop) (work : St -> Z) (slack : Z).

Definition unfinished (s : St) (i : nat) : Prop := exists l, loops s !! i = Some l /\ ~ ended l.
Definition finished (s : St) : Prop := Forall ended (loops s).
Definition run_loops (sched : list (nat * bool)) (s : St) : St :=
  foldl (fun s x => step x.1 x.2 s) s sched.

(** A turn of thread [i]; one that fails spuriously may cost [slack]. *)
Record moves (s : St) (i : nat) (sp : bool) (s' : St) : Prop := {
  mv_good : good s';
  mv_length : length (loops s') = length (loops s);
  mv_other : forall j, j <> i -> loops s' !! j = loops s !! j;
  mv_work : work s' <= work s + (if sp then slack else 0);
  mv_closer : unfinished s i -> work s' + 1 <= work s + (if sp then slack else 0);
}.

(** A turn of a thread that has ended. *)
Lemma moves_still s i sp : 0 <= slack -> good s -> (forall l, loops s !! i = Some l -> ended l) -> moves s i sp s.
Proof using Type.
  intros Hs Hg He. split; try done; [destruct sp; lia|]. intros (l & Hl & Hn). by apply He in Hl.
Qed.

Context (Hslack : 0 <= slack) (Hmoves : forall s i sp, good s -> moves s i sp (step i sp s)).

Lemma run_loops_good sched s : good s -> good (run_loops sched s).
Proof using Hmoves.
  revert s. induction sched as [|[i sp] sched IH]; intros s Hg; [done|]. apply IH. by apply Hmoves.
Qed.

Lemma run_loops_length sched s : good s -> length (loops (run_loops sched s)) = length (loops s).
Proof using Hmoves.
  revert s. induction sched as [|[i sp] sched IH]; intros s Hg; [done|].
  destruct (Hmoves s i sp Hg) as [Hg' Hl _ _ _]. by rewrite <- Hl, <- (IH _ Hg').
Qed.

Lemma run_loops_work sched s :
  good s ->
  work (run_loops sched s) <= work s + slack * Z.of_nat (spurious_count sched) /\
  ((exists i, unfinished s i /\ i ∈ sched.*1) ->
   work (run_loops sched s) + 1 <= work s + slack * Z.of_nat (spurious_count sched)).
Proof using Hmoves Hslack.
  revert s. induction sched as [|[i sp] sched IH]; intros s Hg.
  { split; [cbn; lia|]. intros (i & _ & Hi). by apply elem_of_nil in Hi. }
  change (run_loops ((i, sp) :: sched) s) with (run_loops sched (step i sp s)).
  destruct (Hmoves s i sp Hg) as [Hg' _ Hother Hw Hw1]. destruct (IH _ Hg') as [Hw2 Hw3].
  rewrite spurious_count_cons. split; [destruct sp; lia|]. intros (j & Hj & Hin). cbn in Hin.
  destruct (decide (j = i)) as [->|Hne]; [specialize (Hw1 Hj); destruct sp; lia|].
  apply elem_of_cons in Hin as [->|Hin]; [done|].
  assert (Hu : unfinished (step i sp s) j) by (destruct Hj as (l & Hl & ?); exists l; by rewrite Hother).
  specialize (Hw3 ltac:(eauto)). destruct sp; lia.
Qed.

Lemma finished_or s : finished s \/ exists i, (i < length (loops s))%nat /\ unfinished s i.
Proof using Hdec.
  unfold finished, unfinished. destruct (decide (Forall ended (loops s))) as [|Hn]; [by left|right].
  apply not_Forall_Exists in Hn; [|exact _]. apply Exists_exists in Hn as (l & Hl & Hne).
  apply list_elem_of_lookup in Hl as [i Hi]. exists i. split; [by eapply lookup_lt_Some|by exists l].
Qed.

Context (Hstay : forall s i sp, finished s -> step i sp s = s).

Lemma finished_run sched s : finished s -> run_loops sched s = s.
Proof using Hstay.
  intros Hf. induction sched as [|[i sp] sched IH]; [done|].
  change (run_loops ((i, sp) :: sched) s) with (run_loops sched (step i sp s)). by rewrite Hstay.
Qed.

Lemma rounds_end rounds s :
  (forall s, 0 <= work s) -> good s -> Forall (round (length (loops s))) rounds ->
  work s + slack * Z.of_nat (spurious_count (concat rounds)) < Z.of_nat (length rounds) ->
  finished (run_loops (concat rounds) s).
Proof using Hdec Hmoves Hslack Hstay.
  intros H0. revert s. induction rounds as [|r rounds IH]; intros s Hg Hr Hw; cbn [length concat] in *.
  { pose proof (H0 s). unfold spurious_count in Hw. cbn in Hw. lia. }
  apply Forall_cons in Hr as [Hr Hrs]. unfold run_loops. rewrite foldl_app.
  fold (run_loops r s). fold (run_loops (concat rounds) (run_loops r s)).
  destruct (finished_or s) as [Hf|(i & Hi & Hu)]; [by rewrite (finished_run r), finished_run by done|].
  destruct (run_loops_work r s Hg) as [_ Hw']. specialize (Hw' ltac:(exists i; split; [done|by apply Hr])).
  apply IH; [by apply run_loops_good|by rewrite run_loops_length|]. rewrite spurious_count_app in Hw. lia.
Qed.
End rounds.
