(* ===== verification/FreeList.v ===== *)
(** * Linked free lists threaded through an array

    [UniqueIndexSet] and [MpmcContainer] both keep their free slots in a list
    whose links are the entries of a [next] array and whose end is the index
    [0xFFFF_FFFF].  [chain next h l] says that following the links from [h]
    visits exactly the slots [l]; it is the representation predicate of both
    structures, sequential and concurrent. *)
From S2P Require Import Prelude Contracts.
#[local] Open Scope Z_scope.

Definition SENTINEL : Z := 0xFFFFFFFF.
#[global] Arguments SENTINEL : simpl never.

Create HintDb freelist.

Fixpoint chain (next : list Z) (h : Z) (l : list Z) : Prop :=
  match l with
  | [] => h = SENTINEL
  | x :: l' =>
      h = x /\ 0 <= x < SENTINEL /\
      exists n, next !! Z.to_nat x = Some n /\ chain next n l'
  end.

(** The initial links [0 -> 1 -> ... -> cap-1 -> SENTINEL] of both [new]s. *)
Definition initial_next (capacity : Z) : list Z :=
  (fun i => if i + 1 <? capacity then i + 1 else SENTINEL) <$> seqZ 0 capacity.

Section chain.
Implicit Types (next l : list Z) (h i x : Z).

Lemma chain_functional next h l1 l2 :
  chain next h l1 -> chain next h l2 -> l1 = l2.
Proof.
  revert h l2. induction l1 as [|x l1 IH]; intros h [|y l2]; cbn.
  - done.
  - intros -> (-> & ? & _). lia.
  - intros (-> & ? & _) ->. lia.
  - intros (-> & _ & n & Hn & H1) (-> & _ & m & Hm & H2).
    f_equal. simplify_eq. eauto.
Qed.

Lemma chain_nil next l : chain next SENTINEL l <-> l = [].
Proof. split; [|by intros ->]. destruct l; cbn; [done|]. intros (<- & ? & _). lia. Qed.

Lemma chain_cons next h l :
  chain next h l -> h <> SENTINEL ->
  exists l' n, l = h :: l' /\ 0 <= h < SENTINEL /\
    next !! Z.to_nat h = Some n /\ chain next n l'.
Proof. destruct l; cbn; [done|]. intros (-> & ? & n & ? & ?) _. eauto 10. Qed.

Lemma chain_nonneg next h l : chain next h l -> Forall (fun x => 0 <= x < SENTINEL) l.
Proof.
  revert h. induction l as [|x l IH]; intros h; [constructor|].
  intros (_ & ? & n & _ & ?). constructor; eauto.
Qed.

(** Writing the link of a slot that is not on the list leaves the list alone. *)
Lemma chain_insert next h l i v :
  chain next h l -> 0 <= i -> i ∉ l -> chain (<[Z.to_nat i := v]> next) h l.
Proof.
  revert h. induction l as [|x l IH]; intros h; cbn; [done|].
  intros (-> & ? & n & ? & ?) ? Hin. apply not_elem_of_cons in Hin as [? ?].
  repeat split; try lia. exists n. split; [|by apply IH].
  rewrite list_lookup_insert_ne; [done|]. lia.
Qed.

(** Pushing slot [i]: its link is set to the old head. *)
Lemma chain_push next h l i :
  chain next h l -> 0 <= i < SENTINEL -> i < Z.of_nat (length next) -> i ∉ l ->
  chain (<[Z.to_nat i := h]> next) i (i :: l).
Proof.
  intros. cbn. repeat split; try lia. exists h.
  split; [|apply chain_insert; done || lia].
  apply list_lookup_insert_eq. lia.
Qed.

(** A slot whose link already is the head can be pushed without a write. *)
Lemma chain_link next h l i :
  chain next h l -> 0 <= i < SENTINEL -> next !! Z.to_nat i = Some h ->
  chain next i (i :: l).
Proof. cbn. eauto 10. Qed.

Lemma initial_next_length cap : length (initial_next cap) = Z.to_nat cap.
Proof. unfold initial_next. rewrite length_fmap. apply length_seqZ. Qed.

Lemma initial_next_lookup cap i :
  0 <= i < cap ->
  initial_next cap !! Z.to_nat i = Some (if i + 1 <? cap then i + 1 else SENTINEL).
Proof.
  intros. unfold initial_next. rewrite list_lookup_fmap.
  rewrite (lookup_seqZ_lt 0 cap (Z.to_nat i)) by lia. cbn.
  by rewrite Z2Nat.id by lia.
Qed.

Lemma initial_chain_from cap (k : nat) i :
  0 < cap <= SENTINEL -> 0 <= i -> i + Z.of_nat k = cap ->
  chain (initial_next cap) (if i <? cap then i else SENTINEL) (seqZ i (Z.of_nat k)).
Proof.
  revert i. induction k as [|k IH]; intros i Hc Hi Hk.
  - cbn. destruct (i <? cap) eqn:E; zbool; [lia|done].
  - rewrite seqZ_cons by lia. cbn.
    destruct (i <? cap) eqn:E; zbool; [|lia].
    repeat split; try lia. eexists. split; [apply initial_next_lookup; lia|].
    replace (Z.succ i) with (i + 1) by lia.
    replace (Z.pred (Z.of_nat (S k))) with (Z.of_nat k) by lia.
    apply IH; lia.
Qed.

Lemma initial_chain cap :
  0 < cap <= SENTINEL -> chain (initial_next cap) 0 (seqZ 0 cap).
Proof.
  intros Hc. pose proof (initial_chain_from cap (Z.to_nat cap) 0) as H.
  rewrite Z2Nat.id in H by lia. destruct (0 <? cap) eqn:E; zbool; [|lia].
  apply H; lia.
Qed.

Lemma initial_next_valid cap x :
  0 < cap <= SENTINEL -> x ∈ initial_next cap -> x = SENTINEL \/ 0 <= x < cap.
Proof.
  intros Hc. unfold initial_next. rewrite list_elem_of_fmap.
  intros (i & -> & Hi). apply elem_of_seqZ in Hi. case_match; zbool; lia.
Qed.
End chain.

#[export] Hint Resolve chain_insert chain_link initial_chain : freelist.

(** ** Packed heads: [head_index:32][tag:32] *)

Definition pack (head tag : Z) : Z := head * 2 ^ 32 + tag.
#[global] Arguments pack : simpl never.

Lemma pack_fits h t : fits 32 h -> fits 32 t -> fits 64 (pack h t).
Proof. intros. by apply (fields_fits 32 32). Qed.

Lemma pack_inj h1 t1 h2 t2 :
  fits 32 t1 -> fits 32 t2 -> pack h1 t1 = pack h2 t2 -> h1 = h2 /\ t1 = t2.
Proof. unfold pack, fits. lia. Qed.

Lemma SENTINEL_fits x : x = SENTINEL \/ 0 <= x < SENTINEL -> fits 32 x.
Proof. unfold SENTINEL, fits. lia. Qed.
