(* ===== verification/IndexSet.v ===== *)
(** * UniqueIndexSet (crates/entangle-lockfree/src/index_set.rs)

    The lock-free free list of slot indices, here as one thread runs it: the
    CAS loops of [acquire] and [release] with weak compare-exchanges that may
    fail spuriously, the representation invariant [wf], and the laws every
    client relies on.  IndexSetConc.v runs the same code in many threads. *)
From S2P Require Import Prelude Contracts FreeList.
#[local] Open Scope Z_scope.
#[local] Open Scope rust_scope.

(** The [IndexAllocator] interface of contracts/shared_types.rs.  [ia_rep s
    free held] relates a state to the indices that can be handed out, in
    order, and the indices handed out and not yet given back. *)
Class IndexAllocator (A E : Type) := {
  ia_acquire : A -> outcome (result Z E * A);
  ia_release : A -> Z -> outcome A;
  ia_capacity : A -> Z;
  ia_borrowed : A -> Z;
  ia_rep : A -> list Z -> list Z -> Prop;
}.

Class IndexAllocatorLaws A E `{IndexAllocator A E} := {
  ia_acquire_cons s x free held :
    ia_rep s (x :: free) held ->
    exists s', ia_acquire s = Ret (Ok x, s') /\ ia_rep s' free (x :: held) /\
      ia_capacity s' = ia_capacity s;
  ia_acquire_nil s held :
    ia_rep s [] held -> exists e, ia_acquire s = Ret (Err e, s);
  ia_release_held s free held i :
    ia_rep s free (i :: held) ->
    exists s', ia_release s i = Ret s' /\ ia_rep s' (i :: free) held /\
      ia_capacity s' = ia_capacity s;
  ia_rep_held_perm s free held held' :
    ia_rep s free held -> held ≡ₚ held' -> ia_rep s free held';
  ia_rep_perm s free held :
    ia_rep s free held -> free ++ held ≡ₚ seqZ 0 (ia_capacity s);
  ia_rep_capacity s free held :
    ia_rep s free held -> 0 < ia_capacity s < SENTINEL;
  ia_rep_borrowed s free held :
    ia_rep s free held -> ia_borrowed s = Z.of_nat (length held);
}.

(** Facts that follow from the laws alone. *)
Section laws.
Context `{IndexAllocatorLaws A E}.
Implicit Types (s : A) (free held : list Z).

Lemma ia_rep_NoDup s free held : ia_rep s free held -> NoDup (free ++ held).
Proof. intros Hr. rewrite (ia_rep_perm _ _ _ Hr). apply NoDup_seqZ. Qed.

Lemma ia_rep_bound s free held i :
  ia_rep s free held -> i ∈ free ++ held -> 0 <= i < ia_capacity s.
Proof.
  intros Hr Hi. rewrite (ia_rep_perm _ _ _ Hr) in Hi. apply elem_of_seqZ in Hi. lia.
Qed.

Lemma ia_rep_length s free held :
  ia_rep s free held ->
  Z.of_nat (length free) + Z.of_nat (length held) = ia_capacity s.
Proof.
  intros Hr. pose proof (ia_rep_perm _ _ _ Hr) as Hp.
  apply Permutation_length in Hp. rewrite length_app, length_seqZ in Hp.
  pose proof (ia_rep_capacity _ _ _ Hr). lia.
Qed.
End laws.

Module UniqueIndexSet.

(** [pub struct UniqueIndexSet { head, next, capacity, borrowed }]. *)
Record UniqueIndexSet := mk {
  head : Z;
  next : list Z;
  capacity : Z;
  borrowed : Z;
}.

Definition HEAD_SHIFT : Z := 32.
Definition TAG_MASK : Z := 0xFFFFFFFF.

Inductive AcquireError := NoFreeIndex.

Definition pack (head tag : Z) : Z :=
  Z.lor (shl 64 head HEAD_SHIFT) (Z.land tag TAG_MASK).

Definition extract_head (val : Z) : Z := wrap 32 (Z.shiftr val HEAD_SHIFT).

Definition extract_tag (val : Z) : Z := wrap 32 (Z.land val TAG_MASK).

#[global] Arguments pack : simpl never.
#[global] Arguments extract_head : simpl never.
#[global] Arguments extract_tag : simpl never.

(** [UniqueIndexSet::new]: asserts the capacity, links all slots. *)
Definition new (capacity : Z) : outcome UniqueIndexSet :=
  if (0 <? capacity) && (capacity <? SENTINEL)
  then Ret (mk (pack 0 0) (initial_next capacity) capacity 0)
  else Panic.

(** The loop of [acquire]; each element of [spurious] is one turn's
    compare-exchange, [true] when it fails although the head is unchanged. *)
Fixpoint acquire_loop (spurious : list bool) (old : Z) (s : UniqueIndexSet)
    : outcome (result Z AcquireError * UniqueIndexSet) :=
  match spurious with
  | [] => OutOfFuel
  | sp :: spurious =>
      let head_idx := extract_head old in
      if head_idx =? SENTINEL then Ret (Err NoFreeIndex, s)
      else
        let! next_idx := index (next s) head_idx in
        let tag := extract_tag old in
        let new := pack next_idx (wrapping_add 32 tag 1) in
        match compare_exchange_weak sp (head s) old new with
        | Ok w =>
            Ret (Ok head_idx,
                 mk w (next s) (capacity s) (wrapping_add 32 (borrowed s) 1))
        | Err current => acquire_loop spurious current s
        end
  end.

Definition acquire (spurious : list bool) (s : UniqueIndexSet) :=
  acquire_loop spurious (head s) s.

(** [self.next[index].store(v)]: panics out of range. *)
Definition store_next (s : UniqueIndexSet) (i v : Z) : outcome UniqueIndexSet :=
  let! _ := index (next s) i in
  Ret (mk (head s) (<[Z.to_nat i := v]> (next s)) (capacity s) (borrowed s)).

(** The loop of [release]. *)
Fixpoint release_loop (spurious : list bool) (idx old : Z) (s : UniqueIndexSet)
    : outcome UniqueIndexSet :=
  match spurious with
  | [] => OutOfFuel
  | sp :: spurious =>
      let head_idx := extract_head old in
      let! s := store_next s idx head_idx in
      let tag := extract_tag old in
      let new := pack idx (wrapping_add 32 tag 1) in
      match compare_exchange_weak sp (head s) old new with
      | Ok w => Ret (mk w (next s) (capacity s) (wrapping_sub 32 (borrowed s) 1))
      | Err current => release_loop spurious idx current s
      end
  end.

Definition release (spurious : list bool) (s : UniqueIndexSet) (idx : Z) :=
  release_loop spurious idx (head s) s.

(** [debug_assert!(index < self.capacity)] of [release], debug builds only. *)
Definition release_debug_assert (s : UniqueIndexSet) (idx : Z) : bool :=
  idx <? capacity s.

Definition borrowed_count (s : UniqueIndexSet) : Z := borrowed s.

(** [self.capacity.saturating_sub(self.borrowed_count())] *)
Definition available (s : UniqueIndexSet) : Z :=
  Z.max 0 (capacity s - borrowed_count s).

(** ** Packing *)

Lemma pack_spec h t : fits 32 h -> fits 32 t -> pack h t = FreeList.pack h t.
Proof.
  intros Hh Ht. unfold pack, HEAD_SHIFT, shl.
  change TAG_MASK with (Z.ones 32). rewrite Z.land_ones by lia.
  fold (wrap 32 t). rewrite (wrap_small 32 t) by done. rewrite wrap_small.
  - apply fields_lor; [lia|apply Hh|done].
  - rewrite Z.shiftl_mul_pow2 by lia. unfold fits in *. lia.
Qed.

Lemma extract_head_pack h t : fits 32 h -> fits 32 t -> extract_head (pack h t) = h.
Proof.
  intros Hh Ht. rewrite pack_spec by done. unfold extract_head, FreeList.pack, HEAD_SHIFT.
  rewrite fields_hi; [by apply wrap_small|lia|apply Hh|done].
Qed.

Lemma extract_tag_pack h t : fits 32 h -> fits 32 t -> extract_tag (pack h t) = t.
Proof.
  intros Hh Ht. rewrite pack_spec by done. unfold extract_tag.
  change TAG_MASK with (Z.ones 32). rewrite Z.land_ones by lia.
  fold (wrap 32 (FreeList.pack h t)). rewrite wrap_wrap by lia.
  unfold FreeList.pack. by apply fields_lo.
Qed.

Lemma extract_head_fits v : fits 32 (extract_head v).
Proof. apply wrap_fits. lia. Qed.
Lemma extract_tag_fits v : fits 32 (extract_tag v).
Proof. apply wrap_fits. lia. Qed.
#[export] Hint Resolve extract_head_fits extract_tag_fits : words.

(** ** The representation *)

Definition valid_idx (cap x : Z) : Prop := x = SENTINEL \/ 0 <= x < cap.

(** [free] is the list threaded from the head; [held] are the other slots. *)
Record wf (s : UniqueIndexSet) (free held : list Z) : Prop := {
  wf_cap : 0 < capacity s < SENTINEL;
  wf_len : length (next s) = Z.to_nat (capacity s);
  wf_next : forall x, x ∈ next s -> valid_idx (capacity s) x;
  wf_chain : chain (next s) (extract_head (head s)) free;
  wf_perm : free ++ held ≡ₚ seqZ 0 (capacity s);
  wf_borrowed : borrowed s = Z.of_nat (length held);
}.

Lemma valid_idx_fits cap x : cap < SENTINEL -> valid_idx cap x -> fits 32 x.
Proof. intros ? H. apply SENTINEL_fits. unfold valid_idx in H. lia. Qed.

Lemma wf_elem s free held i : wf s free held -> i ∈ free ++ held -> 0 <= i < capacity s.
Proof.
  intros [] Hi. rewrite wf_perm0 in Hi. apply elem_of_seqZ in Hi. lia.
Qed.

Lemma wf_NoDup s free held : wf s free held -> NoDup (free ++ held).
Proof. intros []. rewrite wf_perm0. apply NoDup_seqZ. Qed.

Lemma wf_held_not_free s free held i : wf s free held -> i ∈ held -> i ∉ free.
Proof.
  intros Hwf%wf_NoDup Hi Hf. apply NoDup_app in Hwf as (_ & Hd & _). by apply (Hd i).
Qed.

(** The head is the sentinel or a slot: what [release] stores as a link. *)
Lemma wf_head_valid s free held :
  wf s free held -> valid_idx (capacity s) (extract_head (head s)).
Proof.
  intros Hwf. destruct free as [|x free].
  - left. apply Hwf.
  - right. destruct (wf_chain _ _ _ Hwf) as (-> & _).
    apply (wf_elem _ _ _ _ Hwf). left.
Qed.

Lemma wf_length s free held :
  wf s free held -> Z.of_nat (length free) + Z.of_nat (length held) = capacity s.
Proof.
  intros []. apply Permutation_length in wf_perm0.
  rewrite length_app, length_seqZ in wf_perm0. lia.
Qed.

Lemma wf_held_perm s free held held' :
  wf s free held -> held ≡ₚ held' -> wf s free held'.
Proof.
  intros [] Hp. split; try done.
  - by rewrite <- Hp.
  - by rewrite <- (Permutation_length Hp).
Qed.

Lemma new_wf cap s : new cap = Ret s -> wf s (seqZ 0 cap) [].
Proof.
  unfold new. destruct (_ && _) eqn:E; [|done]. intros [= <-]. zbool.
  split; cbn; try done.
  - apply initial_next_length.
  - intros x Hx. by apply initial_next_valid; try lia.
  - rewrite extract_head_pack by fits_tac. apply initial_chain; lia.
  - by rewrite app_nil_r.
Qed.

(** One compare-exchange that does not fail spuriously settles the loop: the
    result does not depend on how many spurious failures come first. *)
Lemma acquire_spurious sps s :
  false ∈ sps -> acquire sps s = acquire [false] s.
Proof.
  unfold acquire. induction sps as [|sp sps IH]; intros Hin; [by apply elem_of_nil in Hin|].
  cbn. destruct (extract_head (head s) =? SENTINEL) eqn:E1; [done|].
  destruct (index _ _) eqn:E2; cbn; [|done|done]. rewrite !cas_same.
  destruct sp; [|done]. apply elem_of_cons in Hin as [?|Hin]; [done|].
  rewrite (IH Hin). cbn. rewrite E1, E2. cbn. by rewrite cas_same.
Qed.

Lemma store_next_twice s i v w s' :
  store_next s i v = Ret s' -> store_next s' i w = store_next s i w.
Proof.
  unfold store_next. destruct (index _ _) as [a| |] eqn:E; cbn; [|done|done].
  intros [= <-]. cbn. apply index_Ret in E as El.
  apply lookup_lt_Some in El.
  unfold index. rewrite list_lookup_insert_eq by done. cbn.
  by rewrite list_insert_insert_eq.
Qed.

Lemma release_spurious sps s i :
  false ∈ sps -> release sps s i = release [false] s i.
Proof.
  unfold release. intros Hin.
  assert (Hh : forall v s', store_next s i v = Ret s' -> head s' = head s).
  { unfold store_next. intros v s'. destruct (index _ _); cbn; [|done|done].
    by intros [= <-]. }
  destruct (store_next s i (extract_head (head s))) as [s1| |] eqn:E1.
  2,3: destruct sps; [by apply elem_of_nil in Hin|]; cbn; rewrite E1; done.
  assert (Hg : forall sps, false ∈ sps -> forall s0, store_next s0 i (extract_head (head s)) = Ret s1 ->
            release_loop sps i (head s) s0 = release_loop [false] i (head s) s).
  { clear sps Hin. induction sps as [|sp sps IH]; intros Hin s0 E0; [by apply elem_of_nil in Hin|].
    cbn. rewrite E0, E1. cbn. rewrite (Hh _ _ E1), !cas_same. destruct sp; [|done].
    apply elem_of_cons in Hin as [?|Hin]; [done|].
    rewrite (IH Hin s1); [cbn; rewrite E1; cbn; rewrite (Hh _ _ E1); by rewrite cas_same|].
    rewrite (store_next_twice _ _ _ _ _ E0). by rewrite E0. }
  apply Hg; done.
Qed.

(** ** The laws *)

Section operations.
Context (s : UniqueIndexSet).

Lemma acquire_nonempty x free held :
  wf s (x :: free) held ->
  exists s', acquire [false] s = Ret (Ok x, s') /\ wf s' free (x :: held) /\
    capacity s' = capacity s.
Proof.
  intros Hwf. pose proof (wf_elem _ _ _ x Hwf ltac:(set_solver)) as Hx.
  pose proof (wf_length _ _ _ Hwf) as Hlen. cbn in Hlen.
  destruct Hwf. cbn in wf_chain0.
  destruct wf_chain0 as (Hh & Hx' & n & Hn & Hc).
  assert (Hfn : fits 32 n).
  { apply valid_idx_fits with (capacity s); [lia|]. apply wf_next0.
    by eapply list_elem_of_lookup_2. }
  unfold acquire. cbn. rewrite Hh.
  destruct (x =? SENTINEL) eqn:E; zbool; [lia|].
  unfold index. rewrite Hn. cbn. rewrite cas_same.
  eexists. split; [done|]. split; [|done]. split; cbn; try done.
  - rewrite extract_head_pack by auto with words. done.
  - rewrite <- wf_perm0. by rewrite <- Permutation_middle.
  - unfold wrapping_add. rewrite wrap_small; [lia|].
    unfold fits, SENTINEL in *. lia.
Qed.

Lemma acquire_empty held :
  wf s [] held -> acquire [false] s = Ret (Err NoFreeIndex, s).
Proof. intros []. unfold acquire. cbn in *. by rewrite wf_chain0. Qed.

Lemma release_wf i free held :
  wf s free (i :: held) ->
  exists s', release [false] s i = Ret s' /\ wf s' (i :: free) held /\
    capacity s' = capacity s.
Proof.
  intros Hwf. pose proof (wf_elem _ _ _ i Hwf ltac:(set_solver)) as Hi.
  pose proof (wf_held_not_free _ _ _ i Hwf ltac:(left)) as Hif.
  pose proof (wf_head_valid _ _ _ Hwf) as Hhv.
  pose proof (wf_length _ _ _ Hwf) as Hlen. cbn in Hlen.
  destruct Hwf.
  destruct (index_ok (next s) i) as [a Ha]; [lia|].
  unfold release. cbn. unfold store_next, index. rewrite Ha. cbn. rewrite cas_same.
  assert (fits 32 i) by (unfold fits, SENTINEL in *; lia).
  eexists. split; [done|]. split; [|done]. split; cbn; try done.
  - by rewrite length_insert.
  - intros x Hx. apply list_elem_of_lookup in Hx as [j Hj].
    apply list_lookup_insert_Some in Hj as [(_ & <- & _)|(_ & Hj)].
    + done.
    + apply wf_next0. by eapply list_elem_of_lookup_2.
  - rewrite extract_head_pack by auto with words.
    apply chain_push; try done; lia.
  - rewrite <- wf_perm0. by rewrite <- Permutation_middle.
  - unfold wrapping_sub. rewrite wf_borrowed0. cbn [length]. rewrite wrap_small; [lia|].
    unfold fits, SENTINEL in *. lia.
Qed.
End operations.

#[global] Instance UniqueIndexSet_IndexAllocator : IndexAllocator UniqueIndexSet AcquireError := {
  ia_acquire := acquire [false];
  ia_release := release [false];
  ia_capacity := capacity;
  ia_borrowed := borrowed_count;
  ia_rep := wf;
}.

#[global] Instance UniqueIndexSet_laws : IndexAllocatorLaws UniqueIndexSet AcquireError.
Proof.
  split; cbn.
  - intros s x free held. apply acquire_nonempty.
  - intros s held Hw. exists NoFreeIndex. by eapply acquire_empty.
  - intros s free held i. apply release_wf.
  - apply wf_held_perm.
  - intros s free held H. apply H.
  - intros s free held H. apply H.
  - intros s free held H. apply H.
Qed.

End UniqueIndexSet.
