(* ===== verification/IndexSetConc.v ===== *)
(** * UniqueIndexSet under concurrency

    The loops of [acquire] and [release] cut at every access to shared memory
    and run by any number of threads in any order (sequentially consistent
    interleaving).  A configuration carries one piece of ghost state, the
    number [version] of successful compare-exchanges so far, of which the tag
    in the head word is the low 32 bits. *)
From S2P Require Import Prelude Contracts FreeList IndexSet.
#[local] Open Scope Z_scope.

Module IndexSetThreads.
Import UniqueIndexSet.

(** Where a thread stands.  [AcqLoop old] and [RelLoop idx old] are the heads
    of the two loops, [AcqCas]/[RelCas] the compare-exchange that follows,
    [AcqCount]/[RelCount] the update of [borrowed] after it succeeded. *)
Inductive pc :=
| Idle
| AcqLoad
| AcqLoop (old : Z)
| AcqCas (old next_idx : Z)
| AcqCount (head_idx : Z)
| RelLoad (idx : Z)
| RelLoop (idx old : Z)
| RelCas (idx old : Z)
| RelCount
| Panicked.

(** What an operation does to the abstract free list, at one instant. *)
Inductive event :=
| Acquired (idx : Z)
| FoundEmpty
| Released (idx : Z).

(** A thread owns the indices [acquire] returned to it until it passes them to
    [release].  [seen] (ghost) is the version at its last load of the head,
    [effect] (ghost) the event of the operation it is in or last returned from. *)
Record thread := mkT {
  at_ : pc;
  owned : list Z;
  returned : option (result Z AcquireError);
  seen : Z;
  effect : option event;
}.

Record config := mkC {
  set : UniqueIndexSet;
  version : Z;
  threads : list thread;
}.

(** A thread calls [acquire], calls [release] on its [k]-th index, or runs to
    its next shared access; [spurious] is the fate of a weak compare-exchange. *)
Inductive action :=
| CallAcquire
| CallRelease (k : nat)
| Run (spurious : bool).

(** [old] has just been read from the head word. *)
Definition observe (old ver : Z) (t : thread) : thread * list event :=
  if extract_head old =? SENTINEL
  then (mkT (AcqLoop old) (owned t) None ver (Some FoundEmpty), [FoundEmpty])
  else (mkT (AcqLoop old) (owned t) None ver None, []).

Definition goto (t : thread) (p : pc) : thread :=
  mkT p (owned t) (returned t) (seen t) (effect t).

Definition observe_rel (idx old ver : Z) (t : thread) : thread :=
  mkT (RelLoop idx old) (owned t) (returned t) ver (effect t).

Definition run_thread (spurious : bool) (s : UniqueIndexSet) (ver : Z) (t : thread)
    : option (UniqueIndexSet * Z * (thread * list event)) :=
  match at_ t with
  | Idle | Panicked => None
  | AcqLoad => Some (s, ver, observe (head s) ver t)
  | AcqLoop old =>
      let head_idx := extract_head old in
      if head_idx =? SENTINEL
      then Some (s, ver, (mkT Idle (owned t) (Some (Err NoFreeIndex)) (seen t) (effect t), []))
      else match next s !! Z.to_nat head_idx with
           | Some n => Some (s, ver, (goto t (AcqCas old n), []))
           | None => Some (s, ver, (goto t Panicked, []))
           end
  | AcqCas old n =>
      let new := pack n (wrapping_add 32 (extract_tag old) 1) in
      match compare_exchange_weak spurious (head s) old new with
      | Ok w =>
          Some (mk w (next s) (capacity s) (borrowed s), ver + 1,
                (mkT (AcqCount (extract_head old)) (owned t) None (seen t)
                   (Some (Acquired (extract_head old))),
                 [Acquired (extract_head old)]))
      | Err current => Some (s, ver, observe current ver t)
      end
  | AcqCount idx =>
      Some (mk (head s) (next s) (capacity s) (wrapping_add 32 (borrowed s) 1), ver,
            (mkT Idle (idx :: owned t) (Some (Ok idx)) (seen t) (effect t), []))
  | RelLoad idx => Some (s, ver, (observe_rel idx (head s) ver t, []))
  | RelLoop idx old =>
      match next s !! Z.to_nat idx with
      | Some _ =>
          Some (mk (head s) (<[Z.to_nat idx := extract_head old]> (next s))
                   (capacity s) (borrowed s), ver, (goto t (RelCas idx old), []))
      | None => Some (s, ver, (goto t Panicked, []))
      end
  | RelCas idx old =>
      let new := pack idx (wrapping_add 32 (extract_tag old) 1) in
      match compare_exchange_weak spurious (head s) old new with
      | Ok w =>
          Some (mk w (next s) (capacity s) (borrowed s), ver + 1,
                (mkT RelCount (owned t) (returned t) (seen t) (Some (Released idx)),
                 [Released idx]))
      | Err current => Some (s, ver, (observe_rel idx current ver t, []))
      end
  | RelCount =>
      Some (mk (head s) (next s) (capacity s) (wrapping_sub 32 (borrowed s) 1), ver,
            (goto t Idle, []))
  end.

Definition act (a : action) (s : UniqueIndexSet) (ver : Z) (t : thread)
    : option (UniqueIndexSet * Z * (thread * list event)) :=
  match a with
  | Run sp => run_thread sp s ver t
  | CallAcquire =>
      match at_ t with
      | Idle => Some (s, ver, (mkT AcqLoad (owned t) None (seen t) None, []))
      | _ => None
      end
  | CallRelease k =>
      match at_ t, owned t !! k with
      | Idle, Some idx =>
          Some (s, ver, (mkT (RelLoad idx) (delete k (owned t)) None (seen t) None, []))
      | _, _ => None
      end
  end.

(** Thread [i] takes action [a]. *)
Definition exec (i : nat) (a : action) (c : config) : option (config * list event) :=
  match threads c !! i with
  | None => None
  | Some t =>
      match act a (set c) (version c) t with
      | None => None
      | Some (s, ver, (t', evs)) => Some (mkC s ver (<[i := t']> (threads c)), evs)
      end
  end.

(** A schedule: who acts, in order; [None] if an action is not enabled. *)
Fixpoint run (sched : list (nat * action)) (c : config) : option (config * list event) :=
  match sched with
  | [] => Some (c, [])
  | (i, a) :: sched =>
      match exec i a c with
      | None => None
      | Some (c1, e1) =>
          match run sched c1 with
          | None => None
          | Some (c2, e2) => Some (c2, e1 ++ e2)
          end
      end
  end.

Definition new_thread : thread := mkT Idle [] None 0 None.

Definition init (s : UniqueIndexSet) (n : nat) : config :=
  mkC s 0 (replicate n new_thread).

(** ** The abstract index set: a stack of free indices, one atomic event each *)

Definition spec_step (free : list Z) (e : event) : option (list Z) :=
  match e, free with
  | Acquired i, x :: free => if i =? x then Some free else None
  | Acquired _, [] => None
  | FoundEmpty, [] => Some []
  | FoundEmpty, _ => None
  | Released i, free => if decide (i ∈ free) then None else Some (i :: free)
  end.

Fixpoint spec_run (free : list Z) (evs : list event) : option (list Z) :=
  match evs with
  | [] => Some free
  | e :: evs =>
      match spec_step free e with Some free => spec_run free evs | None => None end
  end.

Lemma spec_run_app free evs1 evs2 :
  spec_run free (evs1 ++ evs2) =
  match spec_run free evs1 with Some f => spec_run f evs2 | None => None end.
Proof.
  revert free. induction evs1 as [|e evs1 IH]; intros free; cbn; [done|].
  destruct (spec_step free e); [apply IH|done].
Qed.

(** ** The invariant *)

(** The slots a thread keeps off the free list. *)
Definition held (t : thread) : list Z :=
  match at_ t with
  | AcqCount i | RelLoad i | RelLoop i _ | RelCas i _ => i :: owned t
  | _ => owned t
  end.

(** The contribution of a thread to the [borrowed] counter. *)
Definition count (t : thread) : Z :=
  Z.of_nat (length (owned t)) +
  match at_ t with RelLoad _ | RelLoop _ _ | RelCas _ _ | RelCount => 1 | _ => 0 end.

(** What a thread that loaded [old] at version [seen] knows of the head. *)
Definition fresh (s : UniqueIndexSet) (ver seen old : Z) : Prop :=
  seen <= ver /\ (seen = ver -> old = head s).

Definition knows (s : UniqueIndexSet) (ver seen old : Z) : Prop :=
  fresh s ver seen old /\ extract_tag old = wrap 32 seen /\
  valid_idx (capacity s) (extract_head old).

Definition thread_ok (s : UniqueIndexSet) (ver : Z) (t : thread) : Prop :=
  match at_ t with
  | Idle =>
      match returned t with
      | Some (Ok i) => effect t = Some (Acquired i)
      | Some (Err _) => effect t = Some FoundEmpty
      | None => True
      end
  | AcqLoop old =>
      knows s ver (seen t) old /\
      (extract_head old = SENTINEL -> effect t = Some FoundEmpty)
  | AcqCas old n =>
      knows s ver (seen t) old /\ extract_head old <> SENTINEL /\
      valid_idx (capacity s) n /\
      (seen t = ver -> next s !! Z.to_nat (extract_head old) = Some n)
  | AcqCount i => effect t = Some (Acquired i)
  | RelLoop idx old =>
      returned t = None /\ valid_idx (capacity s) (extract_head old) /\ fresh s ver (seen t) old
  | RelCas idx old =>
      returned t = None /\ valid_idx (capacity s) (extract_head old) /\
      fresh s ver (seen t) old /\
      next s !! Z.to_nat idx = Some (extract_head old)
  | RelLoad _ | RelCount => returned t = None
  | AcqLoad => True
  | Panicked => False
  end.

Record inv (c : config) (free : list Z) : Prop := {
  inv_cap : 0 < capacity (set c) < SENTINEL;
  inv_len : length (next (set c)) = Z.to_nat (capacity (set c));
  inv_next : forall x, x ∈ next (set c) -> valid_idx (capacity (set c)) x;
  inv_chain : chain (next (set c)) (extract_head (head (set c))) free;
  inv_tag : extract_tag (head (set c)) = wrap 32 (version c);
  inv_version : 0 <= version c;
  inv_perm : free ++ concat (held <$> threads c) ≡ₚ seqZ 0 (capacity (set c));
  inv_borrowed : borrowed (set c) = wrap 32 (zsum count (threads c));
  inv_threads : forall i t, threads c !! i = Some t -> thread_ok (set c) (version c) t;
}.

(** No thread sits between its load of the head and its compare-exchange while
    [2^32] other compare-exchanges succeed: the tag then tells versions apart. *)
Definition in_window (c : config) : Prop :=
  forall i t old n, threads c !! i = Some t -> at_ t = AcqCas old n ->
  version c - seen t < 2 ^ 32.

(** The invariant rebuilt after thread [i] moved from [t] to [t']. *)
Lemma inv_update c free s' ver' i t t' free' :
  inv c free -> threads c !! i = Some t ->
  capacity s' = capacity (set c) -> length (next s') = length (next (set c)) ->
  (forall x, x ∈ next s' -> valid_idx (capacity (set c)) x) ->
  chain (next s') (extract_head (head s')) free' ->
  extract_tag (head s') = wrap 32 ver' -> version c <= ver' ->
  free' ++ held t' ≡ₚ free ++ held t ->
  borrowed s' = wrap 32 (borrowed (set c) - count t + count t') ->
  thread_ok s' ver' t' ->
  (forall j u, j <> i -> threads c !! j = Some u ->
     thread_ok (set c) (version c) u -> thread_ok s' ver' u) ->
  inv (mkC s' ver' (<[i := t']> (threads c))) free'.
Proof.
  intros Hinv Hi Hcap Hlen Hnext Hch Htag Hver Hperm Hb Hok Hoth.
  destruct Hinv. split; cbn; rewrite ?Hcap; try done; try lia.
  - rewrite (concat_insert held _ _ _ _ Hi), app_assoc, Hperm.
    rewrite <- inv_perm0, (concat_lookup held _ _ _ Hi). by rewrite app_assoc.
  - rewrite Hb, inv_borrowed0, (zsum_insert count _ _ _ _ Hi).
    replace (wrap 32 (zsum count (threads c)) - count t + count t')
      with (wrap 32 (zsum count (threads c)) + (count t' - count t)) by lia.
    rewrite wrap_add_l. f_equal. lia.
  - intros j u Hj. destruct (decide (j = i)) as [->|Hne].
    + rewrite list_lookup_insert_eq in Hj by (by eapply lookup_lt_Some). by simplify_eq.
    + rewrite list_lookup_insert_ne in Hj by done. eauto.
Qed.

(** Another thread's view survives a successful compare-exchange. *)
Lemma thread_ok_bump s ver w u b :
  thread_ok s ver u ->
  thread_ok (mk w (next s) (capacity s) b) (ver + 1) u.
Proof.
  unfold thread_ok, knows, fresh. destruct (at_ u); cbn; intros; try done;
    destruct_and?; repeat split; try done; lia.
Qed.

(** ... and a change of the counter alone. *)
Lemma thread_ok_count s ver b u :
  thread_ok s ver u -> thread_ok (mk (head s) (next s) (capacity s) b) ver u.
Proof. done. Qed.

Section facts.
Context (c : config) (free : list Z) (Hinv : inv c free).
Implicit Types (i j : nat) (t u : thread).

Lemma held_valid i t x :
  threads c !! i = Some t -> x ∈ held t ->
  0 <= x < capacity (set c) /\ x ∉ free.
Proof.
  intros Hi Hx. destruct Hinv.
  assert (Hin : x ∈ concat (held <$> threads c)).
  { by eapply elem_of_concat. }
  split.
  - assert (Hs : x ∈ free ++ concat (held <$> threads c)) by (apply elem_of_app; by right).
    rewrite inv_perm0 in Hs. apply elem_of_seqZ in Hs. lia.
  - pose proof (NoDup_seqZ 0 (capacity (set c))) as Hnd. rewrite <- inv_perm0 in Hnd.
    apply NoDup_app in Hnd as (_ & Hd & _). intros Hf. by apply (Hd x).
Qed.

Lemma held_disjoint i j t u x :
  threads c !! i = Some t -> threads c !! j = Some u -> i <> j ->
  x ∈ held t -> x ∉ held u.
Proof.
  intros Hi Hj Hne Hx Hu. destruct Hinv.
  pose proof (NoDup_seqZ 0 (capacity (set c))) as Hnd. rewrite <- inv_perm0 in Hnd.
  apply NoDup_app in Hnd as (_ & _ & Hnd).
  by apply (concat_disjoint held _ _ _ _ _ x Hnd Hi Hj).
Qed.

Lemma free_elem x : x ∈ free -> 0 <= x < capacity (set c).
Proof.
  intros Hx. destruct Hinv.
  assert (Hs : x ∈ free ++ concat (held <$> threads c)) by (apply elem_of_app; by left).
  rewrite inv_perm0 in Hs. apply elem_of_seqZ in Hs. lia.
Qed.

Lemma head_valid : valid_idx (capacity (set c)) (extract_head (head (set c))).
Proof.
  pose proof free_elem as Hf. pose proof (inv_chain _ _ Hinv) as Hc.
  clear Hinv. destruct free as [|x f]; [by left|right].
  destruct Hc as (-> & _). apply Hf. left.
Qed.

Lemma knows_now : knows (set c) (version c) (version c) (head (set c)).
Proof. split; [split; [lia|done]|]. split; [apply Hinv|apply head_valid]. Qed.

Lemma rel_now t idx :
  returned t = None ->
  thread_ok (set c) (version c) (observe_rel idx (head (set c)) (version c) t).
Proof. intros. split; [done|]. split; [apply head_valid|]. split; [cbn; lia|done]. Qed.

(** A compare-exchange of [acquire] that succeeds inside the window acts on
    the version it observed. *)
Lemma cas_same_version i t old n :
  threads c !! i = Some t -> at_ t = AcqCas old n -> in_window c ->
  head (set c) = old -> seen t = version c.
Proof.
  intros Hi Hpc Hw He. specialize (Hw _ _ _ _ Hi Hpc).
  pose proof (inv_threads _ _ Hinv _ _ Hi) as Hok. unfold thread_ok in Hok.
  rewrite Hpc in Hok. destruct Hok as (((Hle & _) & Htag & _) & _).
  symmetry. apply (wrap_window 32); [|lia].
  rewrite <- Htag, <- He. symmetry. apply Hinv.
Qed.

Lemma borrowed_same t t' : count t' = count t ->
  borrowed (set c) = wrap 32 (borrowed (set c) - count t + count t').
Proof.
  intros ->. rewrite (inv_borrowed _ _ Hinv).
  replace (_ - count t + count t) with (wrap 32 (zsum count (threads c))) by lia.
  symmetry. apply wrap_wrap. lia.
Qed.

(** A step that touches no shared memory. *)
Lemma inv_local i t t' :
  threads c !! i = Some t -> held t' = held t -> count t' = count t ->
  thread_ok (set c) (version c) t' ->
  inv (mkC (set c) (version c) (<[i := t']> (threads c))) free.
Proof.
  intros Hi Hh Hc Hok. eapply inv_update; eauto; try apply Hinv; try done.
  - by rewrite Hh.
  - by apply borrowed_same.
Qed.
(** One lemma per kind of step.  Reading the head ... *)
Lemma observe_inv i t t' evs :
  threads c !! i = Some t -> held t = owned t ->
  count t = Z.of_nat (length (owned t)) ->
  observe (head (set c)) (version c) t = (t', evs) ->
  exists free', spec_run free evs = Some free' /\
    inv (mkC (set c) (version c) (<[i := t']> (threads c))) free'.
Proof.
  intros Hi Hh Hc Ho. pose proof (inv_chain _ _ Hinv) as Hch.
  unfold observe in Ho. destruct (_ =? SENTINEL) eqn:E; zbool; simplify_eq.
  - rewrite E in Hch. apply chain_nil in Hch. exists free. split; [by rewrite Hch|].
    apply (inv_local i t); [done..| |]; cbn.
    + rewrite Hc. unfold count. cbn. lia.
    + split; [apply knows_now|done].
  - exists free. split; [done|]. apply (inv_local i t); [done..| |]; cbn.
    + rewrite Hc. unfold count. cbn. lia.
    + split; [apply knows_now|done].
Qed.

(** ... linking a slot that is being released ... *)
Lemma link_inv i t idx old :
  threads c !! i = Some t -> at_ t = RelLoop idx old ->
  inv (mkC (mk (head (set c)) (<[Z.to_nat idx := extract_head old]> (next (set c)))
               (capacity (set c)) (borrowed (set c))) (version c)
           (<[i := goto t (RelCas idx old)]> (threads c))) free.
Proof.
  intros Hi Hpc. pose proof (inv_threads _ _ Hinv _ _ Hi) as Hok.
  unfold thread_ok in Hok. rewrite Hpc in Hok. destruct Hok as (Hret & Hold & Hfr).
  assert (Hidx : idx ∈ held t) by (unfold held; rewrite Hpc; left).
  pose proof (held_valid _ _ _ Hi Hidx) as [Hb Hnf].
  assert (Hlt : (Z.to_nat idx < length (next (set c)))%nat)
    by (rewrite (inv_len _ _ Hinv); lia).
  eapply inv_update; eauto; cbn.
  - apply length_insert.
  - intros x [j Hj]%list_elem_of_lookup.
    apply list_lookup_insert_Some in Hj as [(_ & <- & _)|(_ & Hj)]; [done|].
    apply (inv_next _ _ Hinv). by eapply list_elem_of_lookup_2.
  - apply chain_insert; [apply Hinv|lia|done].
  - apply Hinv.
  - lia.
  - unfold held. by rewrite Hpc.
  - apply borrowed_same. unfold count. by rewrite Hpc.
  - split; [done|]. split; [done|]. split; [exact Hfr|]. by apply list_lookup_insert_eq.
  - intros j u Hne Hj Hu. unfold thread_ok in *.
    destruct (at_ u) eqn:Hpu; try exact Hu; cbn.
    + destruct Hu as (Hk & Hns & Hv & Hlk). split; [exact Hk|].
      split; [done|]. split; [done|]. intros Hs.
      destruct Hk as ((_ & Hhd) & _). specialize (Hhd Hs). subst old0.
      rewrite list_lookup_insert_ne; [eauto|].
      pose proof (chain_cons _ _ _ (inv_chain _ _ Hinv) Hns) as (l' & m & Hf & ? & _).
      intros He. apply Hnf. rewrite Hf.
      replace idx with (extract_head (head (set c))) by lia. left.
    + destruct Hu as (Hr & Hv & Hfu & Hlk). split; [done|]. split; [done|]. split; [done|].
      rewrite list_lookup_insert_ne; [done|].
      assert (Hu' : idx0 ∈ held u) by (unfold held; rewrite Hpu; left).
      pose proof (held_valid _ _ _ Hj Hu') as [? _]. intros He.
      assert (idx = idx0) as -> by lia.
      by apply (held_disjoint j i u t idx0 Hj Hi Hne).
Qed.

(** ... popping the head ... *)
Lemma acq_cas_inv i t old n :
  threads c !! i = Some t -> at_ t = AcqCas old n -> in_window c ->
  head (set c) = old ->
  exists free', free = extract_head old :: free' /\
    inv (mkC (mk (pack n (wrapping_add 32 (extract_tag old) 1)) (next (set c))
                 (capacity (set c)) (borrowed (set c))) (version c + 1)
             (<[i := mkT (AcqCount (extract_head old)) (owned t) None (seen t)
                       (Some (Acquired (extract_head old)))]> (threads c))) free'.
Proof.
  intros Hi Hpc Hw He.
  pose proof (cas_same_version _ _ _ _ Hi Hpc Hw He) as Hs.
  pose proof (inv_threads _ _ Hinv _ _ Hi) as Hok. unfold thread_ok in Hok.
  rewrite Hpc in Hok. destruct Hok as ((_ & Htag & _) & Hne & Hn & Hlk).
  specialize (Hlk Hs). pose proof (inv_chain _ _ Hinv) as Hch. rewrite He in Hch.
  apply chain_cons in Hch as (free' & m & Hf & Hr & Hm & Hch'); [|done].
  assert (m = n) as -> by congruence. exists free'. split; [done|].
  assert (fits 32 n) by (eapply valid_idx_fits; [apply Hinv|done]).
  eapply inv_update; eauto; cbn.
  - apply Hinv.
  - by rewrite extract_head_pack by auto with words.
  - rewrite extract_tag_pack by auto with words. rewrite Htag, Hs.
    unfold wrapping_add. apply wrap_add_l.
  - lia.
  - rewrite Hf. unfold held. rewrite Hpc. cbn. by rewrite <- Permutation_middle.
  - apply borrowed_same. unfold count. by rewrite Hpc.
  - done.
  - intros j u _ _ Hu. by apply thread_ok_bump.
Qed.

(** ... pushing a slot ... *)
Lemma rel_cas_inv i t idx old :
  threads c !! i = Some t -> at_ t = RelCas idx old -> head (set c) = old ->
  (idx ∉ free) /\
  inv (mkC (mk (pack idx (wrapping_add 32 (extract_tag old) 1)) (next (set c))
               (capacity (set c)) (borrowed (set c))) (version c + 1)
           (<[i := mkT RelCount (owned t) (returned t) (seen t) (Some (Released idx))]>
              (threads c))) (idx :: free).
Proof.
  intros Hi Hpc He. pose proof (inv_threads _ _ Hinv _ _ Hi) as Hok.
  unfold thread_ok in Hok. rewrite Hpc in Hok. destruct Hok as (Hret & Hv & Hfr & Hlk).
  assert (Hidx : idx ∈ held t) by (unfold held; rewrite Hpc; left).
  pose proof (held_valid _ _ _ Hi Hidx) as [Hb Hnf]. split; [done|].
  pose proof (inv_cap _ _ Hinv) as Hcap.
  assert (fits 32 idx) by (apply (valid_idx_fits (capacity (set c))); [lia|by right]).
  eapply inv_update; eauto; cbn [next head set capacity borrowed].
  - apply Hinv.
  - rewrite extract_head_pack by auto with words.
    apply (chain_link _ (extract_head old)); [rewrite <- He; apply Hinv|lia|done].
  - rewrite extract_tag_pack by auto with words. rewrite <- He, (inv_tag _ _ Hinv).
    unfold wrapping_add. apply wrap_add_l.
  - lia.
  - unfold held. rewrite Hpc. cbn. by rewrite <- Permutation_middle.
  - apply borrowed_same. unfold count. by rewrite Hpc.
  - intros j u _ _ Hu. by apply thread_ok_bump.
Qed.

(** ... and the updates of the counter. *)
Lemma count_inv i t t' b :
  threads c !! i = Some t -> held t' ≡ₚ held t ->
  b = wrap 32 (borrowed (set c) - count t + count t') ->
  thread_ok (set c) (version c) t' ->
  inv (mkC (mk (head (set c)) (next (set c)) (capacity (set c)) b) (version c)
           (<[i := t']> (threads c))) free.
Proof.
  intros Hi Hh Hb Hok. eapply inv_update; eauto; try apply Hinv; try done.
  by rewrite Hh.
Qed.

(** A step on the thread's own state alone, with no event. *)
Lemma silent_inv i t t' :
  threads c !! i = Some t -> held t' ≡ₚ held t -> count t' = count t ->
  thread_ok (set c) (version c) t' ->
  exists free', spec_run free [] = Some free' /\
    inv (mkC (set c) (version c) (<[i := t']> (threads c))) free'.
Proof.
  intros Hi H1 H2 H3. exists free. split; [done|].
  pose proof (count_inv i t t' _ Hi H1 (borrowed_same t t' H2) H3).
  by destruct (set c).
Qed.

Ltac silent t Hpc :=
  apply (silent_inv _ t);
  [done|unfold held; by rewrite ?Hpc|unfold count; by rewrite ?Hpc|].

(** Calls: [release] takes an index out of the thread's own ones. *)
Lemma call_inv i a t s' ver' t' evs :
  threads c !! i = Some t -> (forall sp, a <> Run sp) ->
  act a (set c) (version c) t = Some (s', ver', (t', evs)) ->
  exists free', spec_run free evs = Some free' /\
    inv (mkC s' ver' (<[i := t']> (threads c))) free'.
Proof.
  intros Hi Hr Ha. unfold act in Ha.
  destruct a as [|k|sp]; [| |by destruct (Hr sp)];
    destruct (at_ t) eqn:Hpc; try done.
  - simplify_eq. by silent t Hpc.
  - destruct (owned t !! k) as [x|] eqn:Hk; simplify_eq.
    pose proof (delete_Permutation _ _ _ Hk) as Hp.
    apply (silent_inv _ t); [done| | |done].
    + unfold held. rewrite Hpc. by symmetry.
    + unfold count. rewrite Hpc. pose proof (Permutation_length Hp). cbn in *. lia.
Qed.

(** The steps of [acquire] ... *)
Lemma run_acquire_inv sp i t s' ver' t' evs :
  threads c !! i = Some t -> in_window c ->
  match at_ t with AcqLoad | AcqLoop _ | AcqCas _ _ | AcqCount _ => True | _ => False end ->
  run_thread sp (set c) (version c) t = Some (s', ver', (t', evs)) ->
  exists free', spec_run free evs = Some free' /\
    inv (mkC s' ver' (<[i := t']> (threads c))) free'.
Proof.
  intros Hi Hw Hin Ha. pose proof (inv_threads _ _ Hinv _ _ Hi) as Hok.
  unfold run_thread in Ha. unfold thread_ok in Hok. destruct (at_ t) eqn:Hpc; try done.
  - simplify_eq. apply (observe_inv i t); try done;
      [unfold held|unfold count]; rewrite Hpc; lia || done.
  - destruct Hok as [Hk He]. destruct (_ =? SENTINEL) eqn:E; zbool.
    { simplify_eq. silent t Hpc. by apply He. }
    destruct (index_ok (next (set c)) (extract_head old)) as [n Hn].
    { rewrite (inv_len _ _ Hinv). destruct Hk as (_ & _ & [?|?]); [done|lia]. }
    rewrite Hn in Ha. simplify_eq. silent t Hpc.
    unfold thread_ok. cbn. repeat split; try apply Hk; try done.
    apply (inv_next _ _ Hinv). by eapply list_elem_of_lookup_2.
  - destruct (compare_exchange_weak _ _ _ _) as [w|cur] eqn:Ec.
    + apply cas_ok in Ec as (He & _ & ->). simplify_eq.
      destruct (acq_cas_inv i t (head (set c)) next_idx Hi Hpc Hw eq_refl) as (f & Hf & ?).
      exists f. split; [|done]. rewrite Hf. cbn. by rewrite Z.eqb_refl.
    + apply cas_err in Ec as ->. simplify_eq. apply (observe_inv i t); try done;
        [unfold held|unfold count]; rewrite Hpc; lia || done.
  - simplify_eq. exists free. split; [done|]. apply (count_inv i t); [done| | |done].
    + unfold held. by rewrite Hpc.
    + unfold wrapping_add, count. rewrite Hpc. cbn [at_ owned length]. f_equal. lia.
Qed.

(** ... and of [release]. *)
Lemma run_release_inv sp i t s' ver' t' evs :
  threads c !! i = Some t ->
  match at_ t with RelLoad _ | RelLoop _ _ | RelCas _ _ | RelCount => True | _ => False end ->
  run_thread sp (set c) (version c) t = Some (s', ver', (t', evs)) ->
  exists free', spec_run free evs = Some free' /\
    inv (mkC s' ver' (<[i := t']> (threads c))) free'.
Proof.
  intros Hi Hin Ha. pose proof (inv_threads _ _ Hinv _ _ Hi) as Hok.
  unfold run_thread in Ha. unfold thread_ok in Hok. destruct (at_ t) eqn:Hpc; try done.
  - simplify_eq. silent t Hpc. apply rel_now; done.
  - assert (Hidx : idx ∈ held t) by (unfold held; rewrite Hpc; left).
    destruct (index_ok (next (set c)) idx) as [n Hn].
    { rewrite (inv_len _ _ Hinv). pose proof (held_valid _ _ _ Hi Hidx). lia. }
    rewrite Hn in Ha. simplify_eq. exists free. split; [done|]. by apply link_inv.
  - destruct (compare_exchange_weak _ _ _ _) as [w|cur] eqn:Ec.
    + apply cas_ok in Ec as (He & _ & ->). simplify_eq.
      destruct (rel_cas_inv i t idx (head (set c)) Hi Hpc eq_refl) as [Hnf Hf].
      exists (idx :: free). split; [|done]. cbn. by rewrite decide_False.
    + apply cas_err in Ec as ->. simplify_eq. silent t Hpc.
      apply rel_now, Hok.
  - simplify_eq. exists free. split; [done|]. apply (count_inv i t); [done| | |].
    + unfold held. by rewrite Hpc.
    + unfold wrapping_sub, count. rewrite Hpc. cbn [at_ owned goto length]. f_equal. lia.
    + unfold thread_ok. cbn. by rewrite Hok.
Qed.

(** Every action keeps the invariant, and its events are legal moves of the
    abstract stack of free indices. *)
Lemma exec_inv i a c' evs :
  in_window c -> exec i a c = Some (c', evs) ->
  exists free', spec_run free evs = Some free' /\ inv c' free'.
Proof.
  intros Hw He. unfold exec in He. destruct (threads c !! i) as [t|] eqn:Hi; [|done].
  destruct (act a (set c) (version c) t) as [[[s' ver'] [t' evs']]|] eqn:Ha; [|done].
  simplify_eq. destruct a as [|k|sp];
    [apply (call_inv i CallAcquire t); done|apply (call_inv i (CallRelease k) t); done|].
  cbn in Ha. destruct (at_ t) eqn:Hpc.
  1,10: by unfold run_thread in Ha; rewrite Hpc in Ha.
  all: first [ apply (run_acquire_inv sp i t); try done; by rewrite Hpc
             | apply (run_release_inv sp i t); try done; by rewrite Hpc ].
Qed.
End facts.


Lemma init_inv cap s n : new cap = Ret s -> inv (init s n) (seqZ 0 cap).
Proof.
  intros Hn. pose proof (new_wf _ _ Hn) as []. 
  assert (E : s = mk (pack 0 0) (initial_next cap) cap 0).
  { unfold new in Hn. case_match; by simplify_eq. }
  split; cbn; try done.
  - rewrite E. cbn. rewrite extract_tag_pack by fits_tac. done.
  - by rewrite concat_replicate_nil.
  - rewrite E. cbn. rewrite zsum_replicate. cbn. by rewrite Z.mul_0_r.
  - intros i t Hi. apply lookup_replicate in Hi as [-> _]. done.
Qed.

(** ** Reachable configurations *)

Inductive reach (c0 : config) : config -> list event -> Prop :=
| reach_refl : reach c0 c0 []
| reach_step c evs i a c' e :
    reach c0 c evs -> in_window c -> exec i a c = Some (c', e) ->
    reach c0 c' (evs ++ e).

Lemma reach_inv c0 f0 c evs :
  inv c0 f0 -> reach c0 c evs ->
  exists free, spec_run f0 evs = Some free /\ inv c free.
Proof.
  intros H0. induction 1 as [|c evs i a c' e _ (f & Hf & Hi) Hw He]; [eauto|].
  destruct (exec_inv c f Hi i a c' e Hw He) as (f' & Hf' & Hi').
  exists f'. by rewrite spec_run_app, Hf.
Qed.


(** A run of fewer than [2^32] actions never leaves the window. *)
Lemma act_version a s ver t s' ver' p :
  act a s ver t = Some (s', ver', p) -> ver <= ver' <= ver + 1.
Proof.
  unfold act, run_thread. intros H.
  destruct a as [|k|sp]; destruct (at_ t); try done;
    repeat case_match; simplify_eq; lia.
Qed.

Definition seen_nonneg (c : config) : Prop :=
  0 <= version c /\ forall i t, threads c !! i = Some t -> 0 <= seen t.

Lemma act_seen a s ver t s' ver' t' e :
  act a s ver t = Some (s', ver', (t', e)) -> 0 <= ver -> 0 <= seen t -> 0 <= seen t'.
Proof.
  unfold act, run_thread, observe, observe_rel. intros H ??.
  destruct a as [|k|sp]; destruct (at_ t); try done;
    repeat case_match; simplify_eq; cbn in *; lia.
Qed.

Lemma exec_seen i a c c' e :
  exec i a c = Some (c', e) -> seen_nonneg c ->
  seen_nonneg c' /\ version c' <= version c + 1.
Proof.
  unfold exec. intros H [Hv Hs]. destruct (threads c !! i) as [t|] eqn:Hi; [|done].
  destruct (act a _ _ t) as [[[s' ver'] [t' e']]|] eqn:Ha; [|done]. simplify_eq.
  pose proof (act_version _ _ _ _ _ _ _ Ha). cbn. split; [split; cbn; [lia|]|lia].
  intros j u Hj. apply list_lookup_insert_Some in Hj as [(-> & <- & _)|(_ & Hj)]; [|eauto].
  eapply act_seen; eauto.
Qed.

Lemma short_run_reach sched c0 c c' evs evs0 :
  run sched c = Some (c', evs) -> reach c0 c evs0 -> seen_nonneg c ->
  version c + Z.of_nat (length sched) <= 2 ^ 32 ->
  reach c0 c' (evs0 ++ evs).
Proof.
  revert c evs evs0. induction sched as [|[i a] sched IH]; intros c evs evs0 Hr H0 Hs Hl; cbn in Hr.
  - simplify_eq. by rewrite app_nil_r.
  - destruct (exec i a c) as [[c1 e1]|] eqn:He; [|done].
    destruct (run sched c1) as [[c2 e2]|] eqn:Hr2; [|done]. simplify_eq.
    destruct (exec_seen _ _ _ _ _ He Hs) as [Hs1 Hv1]. cbn [length] in Hl.
    rewrite app_assoc. apply (IH c1); [done| |done|lia].
    econstructor; [done| |done]. intros j t old n Hj _.
    destruct Hs as [_ Hs]. specialize (Hs _ _ Hj). lia.
Qed.

Lemma init_run_reach sched s n c evs :
  Z.of_nat (length sched) <= 2 ^ 32 -> run sched (init s n) = Some (c, evs) ->
  reach (init s n) c evs.
Proof.
  intros Hl Hr. apply (short_run_reach sched _ (init s n) c evs []); [done|constructor| |done].
  split; [done|]. intros i t Hi. by apply lookup_replicate in Hi as [-> _].
Qed.

(** ** Properties *)

Lemma act_capacity a s ver t s' ver' p :
  act a s ver t = Some (s', ver', p) -> capacity s' = capacity s.
Proof.
  unfold act, run_thread. intros H.
  destruct a as [|k|sp]; destruct (at_ t); try done; repeat case_match; by simplify_eq.
Qed.

Lemma reachable_inv cap s n c evs :
  new cap = Ret s -> reach (init s n) c evs ->
  exists free, spec_run (seqZ 0 cap) evs = Some free /\ inv c free /\
    capacity (set c) = cap.
Proof.
  intros Hnew Hr. destruct (reach_inv _ _ _ _ (init_inv _ _ n Hnew) Hr) as (f & Hf & Hi).
  exists f. split; [done|]. split; [done|].
  assert (Es : capacity s = cap).
  { unfold new in Hnew. case_match; by simplify_eq. }
  rewrite <- Es. clear -Hr. induction Hr as [|c1 evs1 i a c2 e H1 IH Hw He]; [done|].
  rewrite <- IH. unfold exec in He.
  destruct (threads c1 !! i) as [t|]; [|done].
  destruct (act a _ _ t) as [[[s' ver'] [t' e']]|] eqn:Ha; [|done]. simplify_eq.
  by eapply act_capacity.
Qed.

Lemma owned_held t x : x ∈ owned t -> x ∈ held t.
Proof. unfold held. destruct (at_ t); try done; intros; by right. Qed.

(** C2: however the loops of [acquire] and [release] interleave in [n]
    threads, the operations take effect one at a time, in the order of the
    events [evs], as pushes and pops of one stack of free indices that starts
    as [0, 1, ..., cap-1]; the stack is at every moment the list threaded from
    the head word; and what a finished [acquire] returns is its event.  The
    condition, part of [reach]: no thread waits between its load of the head and
    its compare-exchange while 2^32 other compare-exchanges succeed, or the
    32-bit tag repeats.  (Sequentially consistent interleavings; for the orderings
    of the source see [weak_index_set_stack].) *)
Theorem index_set_linearizable cap s n c evs :
  new cap = Ret s -> reach (init s n) c evs ->
  exists free,
    spec_run (seqZ 0 cap) evs = Some free /\
    chain (next (set c)) (extract_head (head (set c))) free /\
    forall i t, threads c !! i = Some t -> at_ t = Idle ->
      match returned t with
      | Some (Ok idx) => effect t = Some (Acquired idx)
      | Some (Err NoFreeIndex) => effect t = Some FoundEmpty
      | None => True
      end.
Proof.
  intros Hn Hr. destruct (reachable_inv _ _ _ _ _ Hn Hr) as (f & Hf & Hi & _).
  exists f. split; [done|]. split; [apply Hi|].
  intros i t Ht Hidle. pose proof (inv_threads _ _ Hi _ _ Ht) as Hok.
  unfold thread_ok in Hok. rewrite Hidle in Hok. by repeat case_match.
Qed.

(** An index is in one place only: the indices that two threads own are
    disjoint and in range, no thread owns an index twice, and no owned index
    can be reached from the head of the free list. *)
Theorem index_set_exclusive cap s n c evs i j t u x :
  new cap = Ret s -> reach (init s n) c evs ->
  threads c !! i = Some t -> threads c !! j = Some u -> x ∈ owned t ->
  0 <= x < cap /\ NoDup (owned t) /\ (i <> j -> x ∉ owned u) /\
  forall free, chain (next (set c)) (extract_head (head (set c))) free -> x ∉ free.
Proof.
  intros Hn Hr Ht Hu Hx.
  destruct (reachable_inv _ _ _ _ _ Hn Hr) as (f & Hf & Hi & <-).
  pose proof (held_valid c f Hi i t x Ht (owned_held _ _ Hx)) as [Hb Hnf].
  split; [done|]. split; [|split].
  - pose proof (NoDup_seqZ 0 (capacity (set c))) as Hnd.
    rewrite <- (inv_perm _ _ Hi), (concat_lookup held _ _ _ Ht) in Hnd.
    apply NoDup_app in Hnd as (_ & _ & Hnd). apply NoDup_app in Hnd as (Hnd & _ & _).
    unfold held in Hnd. destruct (at_ t); try done; by apply NoDup_cons in Hnd as [_ ?].
  - intros Hne Hxu. apply (held_disjoint c f Hi i j t u x Ht Hu Hne); by apply owned_held.
  - intros free Hch. by rewrite (chain_functional _ _ _ _ Hch (inv_chain _ _ Hi)).
Qed.

(** No interleaving makes a thread index the [next] array out of range:
    no thread ever panics. *)
Theorem index_set_no_panic cap s n c evs i t :
  new cap = Ret s -> reach (init s n) c evs -> threads c !! i = Some t ->
  at_ t <> Panicked.
Proof.
  intros Hn Hr Ht Hp. destruct (reachable_inv _ _ _ _ _ Hn Hr) as (f & _ & Hi & _).
  pose proof (inv_threads _ _ Hi _ _ Ht) as Hok. unfold thread_ok in Hok. by rewrite Hp in Hok.
Qed.

(** Between operations the counter counts what is owned. *)
Lemma idle_counts c f :
  inv c f -> Forall (fun t => at_ t = Idle) (threads c) ->
  borrowed_count (set c) = zsum (fun t => Z.of_nat (length (owned t))) (threads c) /\
  available (set c) = Z.of_nat (length f) /\
  borrowed_count (set c) + available (set c) = capacity (set c).
Proof.
  intros Hi Hidle.
  assert (Hz : zsum count (threads c) = zsum (fun t => Z.of_nat (length (owned t))) (threads c)
    /\ zsum count (threads c) = Z.of_nat (length (concat (held <$> threads c)))).
  { clear -Hidle. induction Hidle as [|t l Ht _ [IH1 IH2]]; [done|].
    assert (Ec : count t = Z.of_nat (length (owned t))) by (unfold count; rewrite Ht; lia).
    assert (Eh : held t = owned t) by (unfold held; by rewrite Ht).
    rewrite fmap_cons. cbn [zsum concat]. rewrite length_app, Eh. lia. }
  destruct Hz as [Hz1 Hz2].
  pose proof (Permutation_length (inv_perm _ _ Hi)) as Hp.
  rewrite length_app, length_seqZ in Hp. pose proof (inv_cap _ _ Hi) as Hcap.
  assert (Hb : borrowed (set c) = zsum count (threads c)).
  { rewrite (inv_borrowed _ _ Hi). apply wrap_small.
    unfold fits, SENTINEL in *. lia. }
  unfold available, borrowed_count. lia.
Qed.

(** When no operation is in progress, [borrowed_count] is exactly the
    number of indices owned, [available] the number of slots on the free list,
    and the two add up to the capacity: no slot is ever lost. *)
Theorem index_set_quiescent cap s n c evs :
  new cap = Ret s -> reach (init s n) c evs ->
  Forall (fun t => at_ t = Idle) (threads c) ->
  exists free,
    chain (next (set c)) (extract_head (head (set c))) free /\
    borrowed_count (set c) = zsum (fun t => Z.of_nat (length (owned t))) (threads c) /\
    available (set c) = Z.of_nat (length free) /\
    borrowed_count (set c) + available (set c) = cap.
Proof.
  intros Hn Hr Hidle. destruct (reachable_inv _ _ _ _ _ Hn Hr) as (f & _ & Hi & <-).
  exists f. split; [apply Hi|]. by apply idle_counts.
Qed.

(** *** Lock-freedom *)

(** The actions of a schedule that are steps of thread [i]'s calls, and those of
    them whose weak compare-exchange may fail for no reason. *)
Definition own_step (i : nat) (x : nat * action) : bool :=
  (x.1 =? i)%nat && match x.2 with Run _ => true | _ => false end.
Definition spurious_step (i : nat) (x : nat * action) : bool :=
  (x.1 =? i)%nat && match x.2 with Run sp => sp | _ => false end.
Definition own_steps (i : nat) (sched : list (nat * action)) : nat := length (List.filter (own_step i) sched).
Definition spurious_steps (i : nat) (sched : list (nat * action)) : nat :=
  length (List.filter (spurious_step i) sched).

(** Thread [i] makes no new call. *)
Definition no_call (i : nat) (sched : list (nat * action)) : bool :=
  forallb (fun x => negb (x.1 =? i)%nat || own_step i x) sched.

(** The operations that took effect on the free list. *)
Definition progress (evs : list event) : nat :=
  length (List.filter (fun e => match e with FoundEmpty => false | _ => true end) evs).

(** The head that a thread works with. *)
Definition head_of (p : pc) : option Z :=
  match p with AcqLoop old | AcqCas old _ | RelLoop _ old | RelCas _ old => Some old | _ => None end.

Definition head_ok (s : UniqueIndexSet) (ver : Z) (t : thread) : Prop :=
  forall old, head_of (at_ t) = Some old -> fresh s ver (seen t) old.

Definition heads_ok (c : config) : Prop :=
  forall i t, threads c !! i = Some t -> head_ok (set c) (version c) t.

(** The steps left if nobody interferes, and two more for each operation that
    took effect since the thread loaded the head. *)
Definition steps_left (p : pc) : Z :=
  match p with
  | AcqLoad | RelLoad _ => 4
  | AcqLoop _ | RelLoop _ _ => 3
  | AcqCas _ _ | RelCas _ _ => 2
  | AcqCount _ | RelCount => 1
  | Idle | Panicked => 0
  end.

Definition potential (ver : Z) (t : thread) : Z :=
  steps_left (at_ t) + match head_of (at_ t) with Some _ => 2 * (ver - seen t) | None => 0 end.

Lemma potential_nonneg s ver t : head_ok s ver t -> 0 <= potential ver t.
Proof.
  intros Hh. unfold potential. assert (0 <= steps_left (at_ t)) by (destruct (at_ t); cbn; lia).
  destruct (head_of (at_ t)) as [old|] eqn:E; [|lia]. destruct (Hh old E). lia.
Qed.

(** What an action does to the head: it stays, or one operation takes effect. *)
Lemma act_moves a s ver t s' ver' t' e :
  act a s ver t = Some (s', ver', (t', e)) ->
  (ver' = ver /\ head s' = head s /\ progress e = 0%nat) \/ (ver' = ver + 1 /\ progress e = 1%nat).
Proof.
  unfold act, run_thread, observe. intros H.
  destruct a as [|k|sp]; destruct (at_ t); try done; repeat case_match; simplify_eq; auto.
Qed.

Lemma head_ok_other s ver s' ver' u :
  (ver' = ver /\ head s' = head s) \/ ver' = ver + 1 -> head_ok s ver u -> head_ok s' ver' u.
Proof.
  intros Hv Hh old Ho. destruct (Hh old Ho) as [H1 H2].
  destruct Hv as [[-> Hv]| ->]; split; lia.
Qed.

Lemma cas_fails sp h old new cur :
  compare_exchange_weak sp h old new = Err cur -> cur = h /\ (h <> old \/ sp = true).
Proof.
  intros Hc. split; [by eapply cas_err|]. destruct (decide (h = old)) as [->|]; [|by left].
  destruct sp; [by right|]. by rewrite cas_same in Hc.
Qed.

(** A thread that has just loaded the head knows it. *)
Lemma head_ok_now s ver t old : seen t = ver -> old = head s -> head_of (at_ t) = Some old -> head_ok s ver t.
Proof. intros <- -> Ho x Hx. split; [lia|congruence]. Qed.

(** A step of a call: the thread still knows its head, and its potential falls,
    unless it fails its compare-exchange for no reason. *)
Lemma run_thread_potential sp s ver t s' ver' t' e :
  run_thread sp s ver t = Some (s', ver', (t', e)) -> head_ok s ver t ->
  head_ok s' ver' t' /\
  1 + potential ver' t' <= potential ver t + 2 * (ver' - ver) + (if sp then 2 else 0).
Proof.
  intros Hr Hh. assert (Hsp : 0 <= if sp then 2 else 0) by (destruct sp; lia). unfold run_thread in Hr. unfold potential. unfold head_ok in Hh.
  destruct (at_ t) as [| |old|old nx|x|x|x old|x old| |] eqn:Hpc; try done; cbn [head_of steps_left] in *.
  - unfold observe in Hr. destruct (_ =? SENTINEL); simplify_eq; cbn;
      (split; [eapply head_ok_now; [done|reflexivity|done]|lia]).
  - specialize (Hh old eq_refl). pose proof (proj1 Hh).
    repeat case_match; simplify_eq; cbn; (split; [try done; by intros ? [= <-]|lia]).
  - specialize (Hh old eq_refl). destruct Hh as [H1 H2].
    destruct (compare_exchange_weak _ _ _ _) as [w|cur] eqn:Ec.
    + simplify_eq. cbn. split; [done|lia].
    + apply cas_fails in Ec as [-> Hwhy]. unfold observe in Hr.
      destruct (_ =? SENTINEL); simplify_eq; cbn; (split; [eapply head_ok_now; [done|reflexivity|done]|]);
        (destruct Hwhy as [Hne| ->]; [|cbn; lia]);
        (assert (seen t <> ver') by (intros Hs; by rewrite (H2 Hs) in Hne)); lia.
  - simplify_eq. cbn. split; [done|lia].
  - simplify_eq. cbn. split; [eapply head_ok_now; [done|reflexivity|done]|lia].
  - specialize (Hh old eq_refl). pose proof (proj1 Hh).
    repeat case_match; simplify_eq; cbn; (split; [try done; by intros ? [= <-]|lia]).
  - specialize (Hh old eq_refl). destruct Hh as [H1 H2].
    destruct (compare_exchange_weak _ _ _ _) as [w|cur] eqn:Ec; simplify_eq; cbn.
    + split; [done|lia].
    + apply cas_fails in Ec as [-> Hwhy]. split; [eapply head_ok_now; [done|reflexivity|done]|].
      destruct Hwhy as [Hne| ->]; [|cbn; lia].
      assert (seen t <> ver') by (intros Hs; by rewrite (H2 Hs) in Hne). lia.
  - simplify_eq. cbn. split; [done|lia].
Qed.

Lemma exec_heads_ok j a c c' e : heads_ok c -> exec j a c = Some (c', e) -> heads_ok c'.
Proof.
  intros Hh He. unfold exec in He. destruct (threads c !! j) as [u|] eqn:Hj; [|done].
  destruct (act a _ _ u) as [[[s' ver'] [u' e']]|] eqn:Ha; [|done]. simplify_eq.
  pose proof (act_moves _ _ _ _ _ _ _ _ Ha) as Hm. intros i t. cbn.
  intros [(-> & <- & _)|[Hne Hi]]%list_lookup_insert_Some.
  - destruct a as [|k|sp]; cbn in Ha; [by repeat case_match; simplify_eq..|].
    by apply (run_thread_potential _ _ _ _ _ _ _ _ Ha), (Hh _ _ Hj).
  - apply (head_ok_other (set c) (version c)); [|by apply (Hh i)]. naive_solver.
Qed.

(** One action of the schedule, whoever acts. *)
Lemma exec_potential i t j a c c' e :
  heads_ok c -> threads c !! i = Some t -> no_call i [(j, a)] = true -> exec j a c = Some (c', e) ->
  exists t', threads c' !! i = Some t' /\
    Z.of_nat (own_steps i [(j, a)]) + potential (version c') t'
    <= potential (version c) t + 2 * Z.of_nat (progress e) + 2 * Z.of_nat (spurious_steps i [(j, a)]).
Proof.
  intros Hh Hi Hn He. unfold exec in He. destruct (threads c !! j) as [u|] eqn:Hj; [|done].
  destruct (act a _ _ u) as [[[s' ver'] [u' e']]|] eqn:Ha; [|done]. simplify_eq.
  pose proof (act_moves _ _ _ _ _ _ _ _ Ha) as Hm.
  unfold own_steps, spurious_steps, no_call, own_step, spurious_step in *. cbn in Hn |- *.
  destruct (j =? i)%nat eqn:Eji; cbn in Hn |- *.
  - apply Nat.eqb_eq in Eji as ->. simplify_eq. exists u'.
    rewrite list_lookup_insert_eq by (by eapply lookup_lt_Some). split; [done|].
    destruct a as [|k|sp]; try done. cbn in Ha.
    destruct (run_thread_potential _ _ _ _ _ _ _ _ Ha (Hh i _ Hi)) as [_ Hp]. cbn. destruct sp; cbn; lia.
  - apply Nat.eqb_neq in Eji. exists t. rewrite list_lookup_insert_ne by done. split; [done|].
    unfold potential. cbn. destruct (head_of (at_ t)); cbn; lia.
Qed.

Lemma run_potential i sched c t c' evs :
  heads_ok c -> threads c !! i = Some t -> no_call i sched = true -> run sched c = Some (c', evs) ->
  Z.of_nat (own_steps i sched)
  <= potential (version c) t + 2 * Z.of_nat (progress evs) + 2 * Z.of_nat (spurious_steps i sched).
Proof.
  revert c t evs. induction sched as [|[j a] sched IH]; intros c t evs Hh Hi Hn Hr; cbn [run] in Hr.
  - simplify_eq. pose proof (potential_nonneg _ _ _ (Hh i t Hi)). cbn. lia.
  - destruct (exec j a c) as [[c1 e1]|] eqn:He; [|done].
    destruct (run sched c1) as [[c2 e2]|] eqn:Hr2; [|done]. simplify_eq.
    change ((j, a) :: sched) with ([(j, a)] ++ sched) in *.
    unfold no_call in Hn. rewrite forallb_app in Hn. apply andb_prop in Hn as [Hn1 Hn2].
    destruct (exec_potential _ _ _ _ _ _ _ Hh Hi Hn1 He) as (t1 & Ht1 & Hp).
    pose proof (IH c1 t1 e2 (exec_heads_ok _ _ _ _ _ Hh He) Ht1 Hn2 Hr2) as Hp2.
    unfold own_steps, spurious_steps, progress in *. rewrite !List.filter_app, !length_app. lia.
Qed.

Lemma reach_heads_ok s n c evs : reach (init s n) c evs -> heads_ok c.
Proof.
  induction 1 as [|c evs i a c' e _ IH _ He]; [|by eapply exec_heads_ok].
  intros i t [-> _]%lookup_replicate old. done.
Qed.

Lemma run_thread_some sp s ver t :
  at_ t <> Idle -> at_ t <> Panicked -> is_Some (run_thread sp s ver t).
Proof. unfold run_thread. intros. destruct (at_ t); try done; repeat case_match; by eexists. Qed.

(** C9: (lock-freedom)  A thread inside a call is never stuck: it can take its
    next step, whatever the other threads are doing.  And from the start of a
    call on, in every schedule, the thread takes at most four steps, two more for
    each operation (of any thread) that takes effect on the free list meanwhile,
    and two more for each compare-exchange that fails spuriously: the loops of
    [acquire] and [release] turn again only when some operation has completed. *)
Theorem index_set_lock_free cap s n c evs i t :
  new cap = Ret s -> reach (init s n) c evs -> threads c !! i = Some t ->
  (at_ t <> Idle -> exists c' e, exec i (Run false) c = Some (c', e)) /\
  forall sched c' evs',
    at_ t = AcqLoad \/ (exists idx, at_ t = RelLoad idx) ->
    run sched c = Some (c', evs') -> no_call i sched = true ->
    Z.of_nat (own_steps i sched)
    <= 4 + 2 * Z.of_nat (progress evs') + 2 * Z.of_nat (spurious_steps i sched).
Proof.
  intros Hn Hr Ht. split.
  - intros Hni. destruct (reachable_inv _ _ _ _ _ Hn Hr) as (f & _ & Hi & _).
    pose proof (inv_threads _ _ Hi _ _ Ht) as Hok. unfold thread_ok in Hok.
    destruct (run_thread_some false (set c) (version c) t) as [[[s' ver'] [t' e]] E];
      [done|by destruct (at_ t)|].
    unfold exec. rewrite Ht. cbn. rewrite E. by do 2 eexists.
  - intros sched c' evs' Hst Hrun Hnc.
    pose proof (run_potential i sched c t c' evs' (reach_heads_ok _ _ _ _ Hr) Ht Hnc Hrun) as Hp.
    destruct Hst as [E|[idx E]]; unfold potential in Hp; rewrite E in Hp; cbn in Hp; lia.
Qed.

(** ** One thread alone *)

Lemma exec_at i a s ver l t s' ver' t' e :
  l !! i = Some t -> act a s ver t = Some (s', ver', (t', e)) ->
  exec i a (mkC s ver l) = Some (mkC s' ver' (<[i := t']> l), e).
Proof. intros Hi Ha. unfold exec. cbn. by rewrite Hi, Ha. Qed.

Lemma run_step i a s ver l t s' ver' t' e rest c' e' :
  l !! i = Some t -> act a s ver t = Some (s', ver', (t', e)) ->
  run rest (mkC s' ver' (<[i := t']> l)) = Some (c', e') ->
  run ((i, a) :: rest) (mkC s ver l) = Some (c', e ++ e').
Proof. intros Hi Ha Hr. cbn [run]. by rewrite (exec_at _ _ _ _ _ _ _ _ _ _ Hi Ha), Hr. Qed.

(** Runs one action of the thread; [tac] rewrites with what is known of it. *)
Ltac solo tac :=
  eapply run_step;
  [first [eassumption | apply list_lookup_insert_eq; rewrite ?length_insert; assumption]
  |cbn; unfold run_thread, observe, observe_rel, goto; cbn; tac; cbn; reflexivity|].

(** A thread that runs [acquire] with no other thread in between behaves as
    the sequential [acquire] of IndexSet.v: same result, same final state. *)
Theorem acquire_solo i c t s' r :
  threads c !! i = Some t -> at_ t = Idle ->
  acquire [false] (set c) = Ret (r, s') ->
  exists k c' e, run ((i, CallAcquire) :: replicate k (i, Run false)) c = Some (c', e) /\
    set c' = s' /\
    exists t', threads c' !! i = Some t' /\ at_ t' = Idle /\ returned t' = Some r /\
      owned t' = match r with Ok idx => idx :: owned t | Err _ => owned t end.
Proof.
  destruct c as [s ver l]. cbn [set threads]. intros Hi Hidle Ha.
  destruct t as [p ow ret sn ef]. cbn in Hidle. subst p.
  pose proof (lookup_lt_Some _ _ _ Hi) as Hlt.
  unfold acquire in Ha. cbn in Ha. destruct (extract_head (head s) =? SENTINEL) eqn:E.
  - simplify_eq. exists 2%nat. do 2 eexists. split.
    + cbn [replicate]. solo idtac. solo ltac:(rewrite ?E). solo ltac:(rewrite ?E). done.
    + split; [done|]. eexists. split; [apply list_lookup_insert_eq; by rewrite !length_insert|].
      done.
  - unfold index in Ha. destruct (next s !! _) as [nx|] eqn:En; [|done]. cbn in Ha.
    rewrite cas_same in Ha. simplify_eq. exists 4%nat. do 2 eexists. split.
    + cbn [replicate]. solo idtac. solo ltac:(rewrite ?E). solo ltac:(rewrite ?E, ?En).
      solo ltac:(rewrite ?cas_same). solo idtac. done.
    + split; [done|]. eexists. split; [apply list_lookup_insert_eq; by rewrite !length_insert|].
      done.
Qed.

(** The same for [release] of the thread's [k]-th index. *)
Lemma release_solo i c t s' k idx :
  threads c !! i = Some t -> at_ t = Idle -> owned t !! k = Some idx ->
  release [false] (set c) idx = Ret s' ->
  exists c' e, run ((i, CallRelease k) :: replicate 4 (i, Run false)) c = Some (c', e) /\
    set c' = s' /\
    exists t', threads c' !! i = Some t' /\ at_ t' = Idle /\ owned t' = delete k (owned t).
Proof.
  destruct c as [s ver l]. cbn [set threads]. intros Hi Hidle Hk Ha.
  destruct t as [p ow ret sn ef]. cbn in Hidle, Hk. subst p.
  pose proof (lookup_lt_Some _ _ _ Hi) as Hlt.
  unfold release in Ha. cbn in Ha. unfold store_next, index in Ha.
  destruct (next s !! _) as [nx|] eqn:En; [|done]. cbn in Ha.
  rewrite cas_same in Ha. simplify_eq. do 2 eexists. split.
  - cbn [replicate]. solo ltac:(rewrite ?Hk). solo idtac. solo ltac:(rewrite ?En).
    solo ltac:(rewrite ?cas_same). solo idtac. done.
  - split; [done|]. eexists. split; [apply list_lookup_insert_eq; by rewrite !length_insert|].
    done.
Qed.

(** ** Witnesses: two threads that race for the same head *)

Definition set4 : UniqueIndexSet := mk (UniqueIndexSet.pack 0 0) (initial_next 4) 4 0.

(** Both threads load the head; thread 1 wins; thread 0 retries; thread 1 gives
    its index back. *)
Definition race : list (nat * action) :=
  let r := Run false in
  [(0, CallAcquire); (1, CallAcquire); (0, r); (1, r); (0, r); (1, r); (1, r); (1, r);
   (0, r); (0, r); (0, r); (0, r); (1, CallRelease 0); (1, r); (1, r); (1, r); (1, r)]%nat.

Definition race_end : config :=
  match run race (init set4 2) with Some (c, _) => c | None => init set4 2 end.
Definition race_events : list event :=
  match run race (init set4 2) with Some (_, e) => e | None => [] end.

Lemma race_reach : reach (init set4 2) race_end race_events.
Proof. apply (init_run_reach race); vm_compute; done || reflexivity. Qed.

Lemma index_set_linearizable_witness :
  exists free, spec_run (seqZ 0 4) race_events = Some free /\
    chain (next (set race_end)) (extract_head (head (set race_end))) free.
Proof.
  destruct (index_set_linearizable 4 set4 2 race_end race_events eq_refl race_reach)
    as (free & H1 & H2 & _).
  exists free. split; [exact H1|exact H2].
Defined.

Definition thread_of (c : config) (i : nat) : thread :=
  match threads c !! i with Some t => t | None => new_thread end.

Lemma race_thread0 : threads race_end !! 0%nat = Some (thread_of race_end 0).
Proof. vm_compute. reflexivity. Qed.
Lemma race_thread1 : threads race_end !! 1%nat = Some (thread_of race_end 1).
Proof. vm_compute. reflexivity. Qed.

(** After the race thread 0 owns index 1, thread 1 none. *)
Lemma index_set_exclusive_witness :
  1 ∈ owned (thread_of race_end 0) /\ 0 <= 1 < 4 /\ 1 ∉ owned (thread_of race_end 1).
Proof.
  assert (Hx : 1 ∈ owned (thread_of race_end 0)) by (vm_compute; left).
  split; [exact Hx|].
  destruct (index_set_exclusive 4 set4 2 race_end race_events 0 1
              (thread_of race_end 0) (thread_of race_end 1) 1
              eq_refl race_reach race_thread0 race_thread1 Hx) as (Hb & _ & Hd & _).
  split; [exact Hb|]. apply Hd. discriminate.
Defined.

Lemma index_set_no_panic_witness : at_ (thread_of race_end 0) <> Panicked.
Proof.
  exact (index_set_no_panic 4 set4 2 race_end race_events 0 _ eq_refl race_reach race_thread0).
Defined.

Lemma index_set_quiescent_witness :
  borrowed_count (set race_end) = 1 /\ available (set race_end) = 3.
Proof.
  destruct (index_set_quiescent 4 set4 2 race_end race_events eq_refl race_reach)
    as (free & _ & Hb & _ & Hs).
  - vm_compute. repeat constructor.
  - assert (E : zsum (fun t => Z.of_nat (length (owned t))) (threads race_end) = 1)
      by (vm_compute; reflexivity).
    rewrite E in Hb. rewrite Hb in Hs. split; [exact Hb|lia].
Defined.

(** The race from the moment both threads have called [acquire]: thread 0 loses
    its first compare-exchange and takes six steps. *)
Definition race_cut : config :=
  match run (take 2 race) (init set4 2) with Some (c, _) => c | None => init set4 2 end.

Lemma race_cut_reach : reach (init set4 2) race_cut [].
Proof. apply (init_run_reach (take 2 race)); vm_compute; done || reflexivity. Qed.

Lemma index_set_lock_free_witness :
  (exists c' e, exec 0 (Run false) race_cut = Some (c', e)) /\
  own_steps 0 (drop 2 race) = 6%nat /\
  Z.of_nat (own_steps 0 (drop 2 race)) <= 4 + 2 * Z.of_nat (progress race_events) + 2 * 0.
Proof.
  destruct (index_set_lock_free 4 set4 2 race_cut [] 0 (thread_of race_cut 0) eq_refl race_cut_reach eq_refl)
    as [H1 H2].
  split; [apply H1; vm_compute; discriminate|]. split; [reflexivity|].
  apply (H2 (drop 2 race) race_end race_events); [left; reflexivity|vm_compute; reflexivity|reflexivity].
Defined.

Lemma acquire_solo_witness :
  exists k c' e,
    run ((0%nat, CallAcquire) :: replicate k (0%nat, Run false)) (init set4 1) = Some (c', e) /\
    extract_head (head (set c')) = 1.
Proof.
  destruct (acquire_solo 0 (init set4 1) new_thread
              (mk (UniqueIndexSet.pack 1 1) (initial_next 4) 4 1) (Ok 0)
              eq_refl eq_refl eq_refl) as (k & c' & e & Hr & Hs & _).
  exists k, c', e. split; [exact Hr|]. rewrite Hs. reflexivity.
Defined.

End IndexSetThreads.
