(* ===== verification/IndexSetLoop.v ===== *)
(** * The threaded tests of UniqueIndexSet
    (entangle-lockfree/src/index_set.rs, concurrent_acquire_release and
    concurrent_acquire_release_never_duplicates)

    Any number of threads, each taking an index and giving it back a number of
    times, as programs over the machine of IndexSetConc.v.  However their turns
    fall the loops end, after a number of turns that grows only with the number
    of spurious failures; then all indices are back. *)
From S2P Require Import Prelude Contracts FreeList IndexSet IndexSetConc Rounds.
#[local] Open Scope Z_scope.

Module IndexSetLoop.
Import UniqueIndexSet IndexSetThreads.

(** [for _ in 0..k { if let Ok(idx) = set.acquire() { set.release(idx) } }]: [k]
    rounds to start; in [acquire], about to call [release] or in it, with [k]
    rounds to follow; [Failed] is a panic. *)
Inductive loop :=
| Next (k : nat)
| Acquiring (k : nat)
| Release (k : nat)
| Releasing (k : nat)
| Failed.

Record sys := mkSys { cfg : config; loops : list loop }.

Definition after_acquire (k : nat) (t : thread) : loop :=
  match at_ t with
  | Idle => match returned t with Some (Ok _) => Release k | _ => Next k end
  | Panicked => Failed
  | _ => Acquiring k
  end.

Definition after_release (k : nat) (t : thread) : loop :=
  match at_ t with Idle => Next k | Panicked => Failed | _ => Releasing k end.

(** The next call or access of a thread, and where its loop is then. *)
Definition turn (l : loop) (spurious : bool) : option (action * (thread -> loop)) :=
  match l with
  | Next 0 | Failed => None
  | Next (S k) => Some (CallAcquire, after_acquire k)
  | Acquiring k => Some (Run spurious, after_acquire k)
  | Release k => Some (CallRelease 0, after_release k)
  | Releasing k => Some (Run spurious, after_release k)
  end.

Definition step (i : nat) (spurious : bool) (s : sys) : sys :=
  match loops s !! i with
  | None => s
  | Some l =>
      match turn l spurious with
      | None => s
      | Some (a, next) =>
          match exec i a (cfg s) with
          | Some (c, _) =>
              let l' := match threads c !! i with Some t => next t | None => Failed end in
              mkSys c (<[i := l']> (loops s))
          | None => mkSys (cfg s) (<[i := Failed]> (loops s))
          end
      end
  end.

Definition start (set : UniqueIndexSet) (n k : nat) : sys :=
  mkSys (init set n) (replicate n (Next k)).

(** The tests: eight threads with a hundred rounds on 64 indices; two threads
    with one round on three. *)
Definition concurrent_acquire_release (set : UniqueIndexSet) : sys := start set 8 100.
Definition concurrent_acquire_release_never_duplicates (set : UniqueIndexSet) : sys := start set 2 1.

(** ** What a thread still has to do *)

Definition loop_ok (t : thread) (l : loop) : Prop :=
  match l with
  | Next _ => at_ t = Idle /\ owned t = []
  | Acquiring _ => owned t = [] /\
      match at_ t with AcqLoad | AcqLoop _ | AcqCas _ _ | AcqCount _ => True | _ => False end
  | Release _ => at_ t = Idle /\ exists x, owned t = [x]
  | Releasing _ => owned t = [] /\
      match at_ t with RelLoad _ | RelLoop _ _ | RelCas _ _ | RelCount => True | _ => False end
  | Failed => False
  end.

(** Compare-exchanges still to succeed. *)
Definition cas_left (x : thread * loop) : Z :=
  match x.2 with
  | Next k => 2 * Z.of_nat k
  | Acquiring k => 2 * Z.of_nat k + match at_ x.1 with AcqCount _ => 1 | _ => 2 end
  | Release k => 2 * Z.of_nat k + 1
  | Releasing k => 2 * Z.of_nat k + match at_ x.1 with RelCount => 0 | _ => 1 end
  | Failed => 0
  end.

(** Turns to the end if no one interferes any more: a thread that has read an old
    head turns its loop once more. *)
Definition late (ver : Z) (t : thread) : Z := if seen t <? ver then 2 else 0.

Definition turns_left (ver : Z) (x : thread * loop) : Z :=
  let t := x.1 in
  match x.2 with
  | Next k => 10 * Z.of_nat k
  | Acquiring k => 10 * Z.of_nat k +
      match at_ t with
      | AcqLoad => 9
      | AcqLoop _ => 8 + late ver t
      | AcqCas _ _ => 7 + late ver t
      | _ => 6
      end
  | Release k => 10 * Z.of_nat k + 5
  | Releasing k => 10 * Z.of_nat k +
      match at_ t with
      | RelLoad _ => 4
      | RelLoop _ _ => 3 + late ver t
      | RelCas _ _ => 2 + late ver t
      | _ => 1
      end
  | Failed => 0
  end.

Lemma late_now ver t : seen t = ver -> late ver t = 0.
Proof. intros <-. unfold late. by rewrite Z.ltb_irrefl. Qed.
Lemma late_bound ver t : 0 <= late ver t <= 2.
Proof. unfold late. destruct (_ <? _); lia. Qed.
Lemma late_past ver t : seen t < ver -> late ver t = 2.
Proof. intros H. unfold late. by rewrite (proj2 (Z.ltb_lt _ _)). Qed.

Ltac closer := cbn; split; [first [done|split; done]|lia].

(** A thread that acts: nothing blocks it, and it comes closer to its end. *)
Section one.
Context (c : config) (i : nat) (t : thread) (Hi : threads c !! i = Some t).
Context (Hok : thread_ok (set c) (version c) t).

Definition comes_closer (sp : bool) (l : loop) (ver : Z) (t' : thread) (l' : loop) : Prop :=
  loop_ok t' l' /\
  turns_left ver (t', l') + 1 <= turns_left (version c) (t, l) + (if sp then 2 else 0) /\
  cas_left (t', l') + (ver - version c) <= cas_left (t, l).

Lemma turn_acts l sp a next :
  loop_ok t l -> turn l sp = Some (a, next) ->
  exists s' ver t' e, act a (set c) (version c) t = Some (s', ver, (t', e)) /\
    (thread_ok s' ver t' -> comes_closer sp l ver t' (next t')).
Proof using Hok.
  intros Hl Ht. unfold comes_closer. unfold thread_ok in Hok.
  destruct l as [[|k]|k|k|k|]; cbn in Ht; try done; injection Ht as <- <-; cbn in Hl.
  - destruct Hl as [Ha Ho]. cbn. rewrite Ha. do 4 eexists. split; [done|]. intros _. cbn. destruct sp; closer.
  - destruct Hl as [Ho Ha]. cbn. unfold run_thread.
    destruct (at_ t) as [| |old|old nx|x| | | | |] eqn:Ep; try done.
    + unfold observe. destruct (_ =? SENTINEL); (do 4 eexists; split; [done|]); intros _; cbn;
        rewrite ?Ep, ?late_now by done; destruct sp; closer.
    + destruct (extract_head old =? SENTINEL).
      * do 4 eexists. split; [done|]. intros _. cbn. rewrite ?Ep. pose proof (late_bound (version c) t).
        destruct sp; closer.
      * destruct (next (set c) !! _) as [nx|]; (do 4 eexists; split; [done|]); [|by intros []].
        intros _. cbn. rewrite ?Ep. unfold late. cbn. destruct sp; closer.
    + destruct Hok as (((Hle & Hfr) & _) & _). pose proof (late_bound (version c) t).
      destruct (compare_exchange_weak sp (head (set c)) old _) as [w|cur] eqn:Ec.
      * do 4 eexists. split; [done|]. intros _. cbn. rewrite ?Ep. destruct sp; closer.
      * assert (Hlate : sp = true \/ late (version c) t = 2).
        { destruct sp; [by left|right]. apply late_past.
          destruct (decide (seen t = version c)) as [E|]; [|lia].
          rewrite (Hfr E), cas_same in Ec. done. }
        unfold observe. destruct (extract_head cur =? SENTINEL);
          (do 4 eexists; split; [done|]); intros _; cbn; rewrite ?Ep, ?late_now by done;
          (destruct Hlate as [->|Hlate]; [|destruct sp]; closer).
    + do 4 eexists. split; [done|]. intros _. cbn. rewrite ?Ep.
      split; [split; [done|by rewrite Ho; eexists]|]. destruct sp; lia.
  - destruct Hl as [Ha [x Ho]]. cbn. rewrite Ha, Ho. cbn. do 4 eexists. split; [done|].
    intros _. cbn. destruct sp; closer.
  - destruct Hl as [Ho Ha]. cbn. unfold run_thread.
    destruct (at_ t) as [| |old|old nx|x|idx|idx old|idx old| |] eqn:Ep; try done.
    + do 4 eexists. split; [done|]. intros _. cbn. rewrite ?Ep, ?late_now by done.
      destruct sp; closer.
    + destruct (next (set c) !! _) as [nx|]; (do 4 eexists; split; [done|]); [|by intros []].
      intros _. cbn. rewrite ?Ep. unfold late. cbn. destruct sp; closer.
    + destruct Hok as (_ & _ & (Hle & Hfr) & _).
      destruct (compare_exchange_weak sp (head (set c)) old _) as [w|cur] eqn:Ec;
        (do 4 eexists; split; [done|]); intros _.
      * cbn. rewrite ?Ep. pose proof (late_bound (version c) t). destruct sp; closer.
      * assert (Hlate : sp = true \/ late (version c) t = 2).
        { destruct sp; [by left|right]. apply late_past.
          destruct (decide (seen t = version c)) as [E|]; [|lia].
          rewrite (Hfr E), cas_same in Ec. done. }
        pose proof (late_bound (version c) t). cbn. rewrite ?Ep, ?late_now by done.
        destruct Hlate as [->|Hlate]; [|destruct sp]; closer.
    + do 4 eexists. split; [done|]. intros _. cbn. rewrite ?Ep. split; [done|]. destruct sp; lia.
Qed.
End one.

(** ** All threads together *)
Definition views (s : sys) : list (thread * loop) := zip (threads (cfg s)) (loops s).
Definition cas_total (s : sys) : Z := zsum cas_left (views s).

(** Each success delays every thread by at most two turns. *)
Definition work (s : sys) : Z :=
  zsum (turns_left (version (cfg s))) (views s) +
  2 * Z.of_nat (length (loops s)) * cas_total s.

(** [limit] bounds the successful compare-exchanges of the whole run. *)
Record good (limit : Z) (s : sys) : Prop := {
  g_inv : exists free, inv (cfg s) free;
  g_seen : seen_nonneg (cfg s);
  g_loops : Forall2 loop_ok (threads (cfg s)) (loops s);
  g_limit : version (cfg s) + cas_total s <= limit;
}.

(** The loop of a thread has ended. *)
Definition ended (l : loop) : Prop := l = Next 0.
#[export] Instance ended_dec l : Decision (ended l).
Proof. unfold ended. destruct l as [[|k]|k|k|k|]; first [by left|by right]. Defined.

Lemma cas_left_nonneg x : 0 <= cas_left x.
Proof. unfold cas_left. repeat case_match; lia. Qed.
Lemma turns_left_nonneg ver x : 0 <= turns_left ver x.
Proof. unfold turns_left. pose proof (late_bound ver x.1). repeat case_match; lia. Qed.

Lemma work_nonneg s : 0 <= work s.
Proof.
  unfold work, cas_total. pose proof (zsum_nonneg _ (views s) (turns_left_nonneg (version (cfg s)))).
  pose proof (zsum_nonneg _ (views s) cas_left_nonneg). nia.
Qed.

Lemma in_window_good limit s : limit < 2 ^ 32 -> good limit s -> in_window (cfg s).
Proof.
  intros Hl [_ [Hv Hs] _ Hlim] i t old nx Hi _. specialize (Hs i t Hi).
  pose proof (zsum_nonneg _ (views s) cas_left_nonneg). unfold cas_total in Hlim. lia.
Qed.

Lemma turns_left_later ver x : turns_left (ver + 1) x <= turns_left ver x + 2.
Proof.
  unfold turns_left. pose proof (late_bound ver x.1). pose proof (late_bound (ver + 1) x.1).
  repeat case_match; lia.
Qed.

(** The sum over the threads after a turn of thread [i]. *)
Lemma turns_sum s i t l t' l' ver :
  views s !! i = Some (t, l) -> ver = version (cfg s) \/ ver = version (cfg s) + 1 ->
  zsum (turns_left ver) (<[i := (t', l')]> (views s)) <=
    zsum (turns_left (version (cfg s))) (views s) - turns_left (version (cfg s)) (t, l)
    + turns_left ver (t', l') + 2 * (ver - version (cfg s)) * Z.of_nat (length (views s)).
Proof.
  intros Hx Hver. apply zsum_step; [done|lia|]. intros z _.
  pose proof (turns_left_later (version (cfg s)) z). destruct Hver as [->| ->]; lia.
Qed.

#[local] Abbreviation moves := (moves loops ended).

(** One turn: nothing fails, and unless the thread is done the work shrinks. *)
Lemma loop_step limit s i sp :
  limit < 2 ^ 32 -> good limit s -> moves (good limit) work 2 s i sp (step i sp s).
Proof.
  intros Hlim Hg. pose proof (in_window_good _ _ Hlim Hg) as Hwin. pose proof Hg as [[f Hinv] Hseen Hall Hv].
  unfold step. destruct (loops s !! i) as [l|] eqn:El; [|by apply moves_still; [..|congruence]].
  destruct (Forall2_lookup_r _ _ _ _ _ Hall El) as (t & Et & Hl).
  destruct (turn l sp) as [[a next]|] eqn:Eturn.
  2: { apply moves_still; [done..|]. intros l' El'. rewrite El in El'. injection El' as <-.
       by destruct l as [[|k]|k|k|k|]. }
  pose proof (inv_threads _ _ Hinv _ _ Et) as Hok.
  destruct (turn_acts (cfg s) t Hok l sp a next Hl Eturn) as (s' & ver & t' & e & Ha & Hclose).
  assert (He : exec i a (cfg s) = Some (mkC s' ver (<[i := t']> (threads (cfg s))), e))
    by (unfold exec; by rewrite Et, Ha).
  rewrite He. cbn [threads]. pose proof (lookup_lt_Some _ _ _ Et) as Hlt.
  rewrite list_lookup_insert_eq by done.
  destruct (exec_inv _ _ Hinv _ _ _ _ Hwin He) as (f' & _ & Hinv').
  destruct (exec_seen _ _ _ _ _ He Hseen) as [Hseen' Hver].
  pose proof (act_version _ _ _ _ _ _ _ Ha) as Hv1.
  destruct Hclose as (Hl' & Hturns & Hcas).
  { apply (inv_threads _ _ Hinv' i). cbn. by apply list_lookup_insert_eq. }
  set (l' := next t') in *. set (s2 := mkSys _ _).
  assert (Hviews : views s2 = <[i := (t', l')]> (views s)) by (unfold views, s2; cbn; by rewrite <- insert_zip_with).
  assert (Hx : views s !! i = Some (t, l)) by (unfold views; by rewrite lookup_zip_with, Et, El).
  assert (Hct : cas_total s2 = cas_total s - cas_left (t, l) + cas_left (t', l'))
    by (unfold cas_total; rewrite Hviews; by rewrite (zsum_insert _ _ _ _ _ Hx)).
  assert (Hw : work s2 + 1 <= work s + (if sp then 2 else 0)).
  { unfold work. change (version (cfg s2)) with ver. rewrite Hct, Hviews.
    pose proof (turns_sum s i t l t' l' ver Hx ltac:(lia)) as Hsum.
    assert (length (views s) = length (loops s)) as Hlv
      by (unfold views; rewrite length_zip_with, (Forall2_length _ _ _ Hall); lia).
    assert (length (loops s2) = length (loops s)) as -> by (unfold s2; cbn; by rewrite length_insert).
    assert (2 * Z.of_nat (length (loops s)) * (cas_left (t', l') + (ver - version (cfg s)))
      <= 2 * Z.of_nat (length (loops s)) * cas_left (t, l)) by nia. lia. }
  split; [split; cbn; [by exists f'|done|by apply Forall2_insert|]|..].
  - change (ver + cas_total s2 <= limit). lia.
  - unfold s2. cbn. by rewrite length_insert.
  - intros j Hj. unfold s2. cbn. by rewrite list_lookup_insert_ne.
  - lia.
  - done.
Qed.

(** [step] keeps a system whose loops have ended. *)
Lemma ended_stays s i sp : finished loops ended s -> step i sp s = s.
Proof.
  unfold finished, step. rewrite Forall_forall. intros Hf. destruct (loops s !! i) as [l|] eqn:El; [|done].
  by rewrite (Hf l) by (by eapply list_elem_of_lookup_2).
Qed.

#[local] Abbreviation run_loops := (run_loops step).

(** ** What the tests rely on *)

Lemma loops_start cap s n k :
  new cap = Ret s -> let st := start s n k in
  good (2 * Z.of_nat n * Z.of_nat k) st /\ length (loops st) = n /\
  work st = Z.of_nat n * Z.of_nat k * (10 + 4 * Z.of_nat n).
Proof.
  intros Hnew st. assert (Hz : views st = replicate n (new_thread, Next k)).
  { unfold views, st, start, init. cbn. by rewrite zip_with_replicate. }
  assert (Hct : cas_total st = 2 * Z.of_nat n * Z.of_nat k).
  { unfold cas_total. rewrite Hz, zsum_replicate. cbn. lia. }
  split; [|split].
  - split.
    + exists (seqZ 0 cap). by apply init_inv.
    + split; [done|]. intros i t Hi. by apply lookup_replicate in Hi as [-> _].
    + apply Forall2_replicate. by split.
    + rewrite Hct. cbn. lia.
  - unfold st, start. cbn. apply length_replicate.
  - unfold work. rewrite Hct, Hz, zsum_replicate. unfold st, start. cbn [loops]; unfold turns_left.
    rewrite length_replicate. cbn [fst snd]. ring.
Qed.

(** ([concurrent_acquire_release])  [n] threads that take an index and give
    it back [k] times each: in whatever order they run, no thread panics and all
    loops end, within [n k (10 + 4 n)] rounds and two more for every spurious
    failure of a compare-exchange, a round being any run in which every thread
    has a turn; at the end no index is borrowed and all are available. *)
Theorem acquire_release_ends cap s n k rounds :
  new cap = Ret s -> 2 * Z.of_nat n * Z.of_nat k < 2 ^ 32 -> Forall (round n) rounds ->
  Z.of_nat n * Z.of_nat k * (10 + 4 * Z.of_nat n) + 2 * Z.of_nat (spurious_count (concat rounds))
    < Z.of_nat (length rounds) ->
  let e := run_loops (concat rounds) (start s n k) in
  Forall (fun l => l = Next 0) (loops e) /\
  borrowed_count (set (cfg e)) = 0 /\ available (set (cfg e)) = capacity (set (cfg e)).
Proof.
  intros Hnew Hlim Hr Hlen e. destruct (loops_start cap s n k Hnew) as (Hg & Hl & Hw).
  pose proof (fun s i sp => loop_step _ s i sp Hlim) as Hmoves.
  assert (Hf : finished loops ended e).
  { apply (rounds_end _ _ _ _ work 2 ltac:(lia) Hmoves ended_stays _ _ work_nonneg Hg); [by rewrite Hl|].
    rewrite Hw. lia. }
  destruct (run_loops_good _ _ _ _ _ _ Hmoves (concat rounds) _ Hg) as [[f Hinv] _ Hall _].
  fold e in Hinv, Hall.
  split; [done|].
  assert (Hidle : Forall (fun t => at_ t = Idle /\ owned t = []) (threads (cfg e))).
  { apply Forall_lookup. intros i t Ht. destruct (Forall2_lookup_l _ _ _ _ _ Hall Ht) as (l & El & Hl').
    unfold finished in Hf. rewrite Forall_lookup in Hf. by rewrite (Hf i l El) in Hl'. }
  destruct (idle_counts _ _ Hinv) as (Hb & Ha & Hs).
  { eapply Forall_impl; [exact Hidle|]. by intros t []. }
  assert (Hz : zsum (fun t => Z.of_nat (length (owned t))) (threads (cfg e)) = 0).
  { clear -Hidle. induction Hidle as [|t l [_ Ho] _ IH]; [done|]. cbn. by rewrite Ho, IH. }
  rewrite Hz in Hb. split; [done|lia].
Qed.

(** Two threads, one round each, three indices, in lock step; every tenth turn
    fails spuriously. *)
Definition loom_round (spurious : bool) : list (nat * bool) := [(0, spurious); (1, false)]%nat.
Definition loom_rounds : list (list (nat * bool)) :=
  concat (replicate 5 (loom_round true :: replicate 9 (loom_round false))).
Definition set3 : UniqueIndexSet :=
  match new 3 with Ret s => s | _ => mk 0 [] 0 0 end.

Lemma acquire_release_ends_witness :
  let e := run_loops (concat loom_rounds) (concurrent_acquire_release_never_duplicates set3) in
  loops e = [Next 0; Next 0] /\ borrowed_count (set (cfg e)) = 0 /\ available (set (cfg e)) = 3.
Proof.
  destruct (acquire_release_ends 3 set3 2 1 loom_rounds) as (_ & Hb & Ha).
  - vm_compute. reflexivity.
  - vm_compute. reflexivity.
  - unfold loom_rounds. cbn. repeat (constructor; [intros [|[|i]] Hi; [vm_compute; left|vm_compute; right; left|lia]|]).
    constructor.
  - vm_compute. reflexivity.
  - split; [vm_compute; reflexivity|]. split; [exact Hb|]. etrans; [exact Ha|]. vm_compute. reflexivity.
Defined.

(** [concurrent_acquire_release_never_duplicates] cannot fail: it asserts
    nothing but that its threads end. *)
End IndexSetLoop.
