(* ===== verification/Mock.v ===== *)
(** * Mocks (src/contracts/mock.rs, crates/entangle-platform/src/mock.rs)

    The stand-ins that the crates are developed against: shared memory on the
    heap and an index allocator behind two mutexes.  The mock allocator obeys
    the laws of the real one (IndexSet.v), so a client cannot tell them apart.
    The mock channel is in Channel.v. *)
From S2P Require Import Prelude Contracts FreeList IndexSet.
#[local] Open Scope Z_scope.
#[local] Open Scope rust_scope.

(** [MockSharedMemory]: a zeroed heap block; its address is the heap's business. *)
Module MockSharedMemory.
Record MockSharedMemory := mk { name : string; data : list Z; size : Z }.

Definition create (name : string) (size : Z) : MockSharedMemory :=
  mk name (replicate (Z.to_nat size) 0) size.
End MockSharedMemory.

(** [MockSharedMemoryProvider]: the segments by name. *)
Module MockSharedMemoryProvider.
Record MockSharedMemoryProvider := mk { segments : gmap string (list Z) }.

Definition new : MockSharedMemoryProvider := mk ∅.
End MockSharedMemoryProvider.

Module MockIndexAllocator.

(** [free_list] is a [Vec]: [pop] and [push] work at its end. *)
Record MockIndexAllocator := mk { free_list : list Z; capacity : Z; borrowed : Z }.

Definition new (capacity : Z) : MockIndexAllocator :=
  mk (rev (seqZ 0 capacity)) capacity 0.

Definition pop (v : list Z) : option (Z * list Z) :=
  match rev v with [] => None | x :: v => Some (x, rev v) end.

Definition acquire (a : MockIndexAllocator) : option Z * MockIndexAllocator :=
  match pop (free_list a) with
  | None => (None, a)
  | Some (idx, free) => (Some idx, mk free (capacity a) (wrapping_add 32 (borrowed a) 1))
  end.

Definition release (a : MockIndexAllocator) (index : Z) : MockIndexAllocator :=
  mk (free_list a ++ [index]) (capacity a) (wrapping_sub 32 (borrowed a) 1).

Definition borrowed_count (a : MockIndexAllocator) : Z := borrowed a.

(** The free indices are the vector read from its end. *)
Record rep (a : MockIndexAllocator) (free held : list Z) : Prop := {
  rep_free : free_list a = rev free;
  rep_cap : 0 < capacity a < SENTINEL;
  rep_perm : free ++ held ≡ₚ seqZ 0 (capacity a);
  rep_borrowed : borrowed a = Z.of_nat (length held);
}.

Lemma rep_length a free held :
  rep a free held -> Z.of_nat (length free) + Z.of_nat (length held) = capacity a.
Proof.
  intros [_ Hc Hp _]. apply Permutation_length in Hp. rewrite length_app, length_seqZ in Hp. lia.
Qed.

Lemma mock_new_rep cap : 0 < cap < SENTINEL -> rep (new cap) (seqZ 0 cap) [].
Proof. intros Hc. split; cbn; try done. by rewrite app_nil_r. Qed.

#[global] Instance MockIndexAllocator_IndexAllocator : IndexAllocator MockIndexAllocator unit := {
  ia_acquire a := let (r, a) := acquire a in
    Ret (match r with Some i => Ok i | None => Err tt end, a);
  ia_release a i := Ret (release a i);
  ia_capacity := capacity;
  ia_borrowed := borrowed_count;
  ia_rep := rep;
}.

#[global] Instance MockIndexAllocator_laws : IndexAllocatorLaws MockIndexAllocator unit.
Proof.
  split; cbn.
  - intros a x free held Hr. pose proof (rep_length _ _ _ Hr) as Hl. destruct Hr as [Hf Hc Hp Hb].
    unfold acquire, pop. rewrite Hf, rev_involutive. cbn. eexists. split; [done|]. split; [|done].
    split; cbn; [done|done| |].
    + by rewrite <- Hp, <- Permutation_middle.
    + unfold wrapping_add. cbn [length] in Hl. rewrite Hb, wrap_small; [lia|].
      unfold fits, SENTINEL in *. lia.
  - intros a held [Hf _ _ _]. unfold acquire, pop. rewrite Hf. by exists tt.
  - intros a free held i Hr. pose proof (rep_length _ _ _ Hr) as Hl. destruct Hr as [Hf Hc Hp Hb].
    eexists. split; [done|]. split; [|done]. split; cbn; [by rewrite Hf|done| |].
    + by rewrite <- Hp, <- Permutation_middle.
    + unfold wrapping_sub. cbn [length] in *. rewrite Hb, wrap_small; [lia|].
      unfold fits, SENTINEL in *. lia.
  - intros a free held held' [Hf Hc Hp Hb] Hh. split; [done|done|by rewrite <- Hh|].
    rewrite Hb. by rewrite (Permutation_length Hh).
  - intros a free held H. apply H.
  - intros a free held H. apply H.
  - intros a free held H. apply H.
Qed.
End MockIndexAllocator.

(** ** A client cannot tell two lawful allocators apart *)

(** What a client does: acquire, or give back the [k]-th index it holds. *)
Inductive client_call := Acquire | Release (k : nat).

Section clients.
Context {A E : Type} `{IndexAllocatorLaws A E}.

(** The indices held, latest first, and what each call returned: an index, or
    nothing when none was free; [release] of an index not held is not made. *)
Fixpoint client_run (a : A) (held : list Z) (calls : list client_call)
    : outcome (list (option Z) * list Z * Z) :=
  match calls with
  | [] => Ret ([], held, ia_borrowed a)
  | Acquire :: calls =>
      let! (r, a) := ia_acquire a in
      match r with
      | Ok i => let! (rs, held, n) := client_run a (i :: held) calls in Ret (Some i :: rs, held, n)
      | Err _ => let! (rs, held, n) := client_run a held calls in Ret (None :: rs, held, n)
      end
  | Release k :: calls =>
      match held !! k with
      | Some i =>
          let! a := ia_release a i in
          let! (rs, held, n) := client_run a (delete k held) calls in Ret (None :: rs, held, n)
      | None => client_run a held calls
      end
  end.

(** The same client on a stack of free indices. *)
Fixpoint client_spec (free held : list Z) (calls : list client_call) : list (option Z) * list Z * Z :=
  match calls with
  | [] => ([], held, Z.of_nat (length held))
  | Acquire :: calls =>
      match free with
      | x :: free => let '(rs, held, n) := client_spec free (x :: held) calls in (Some x :: rs, held, n)
      | [] => let '(rs, held, n) := client_spec [] held calls in (None :: rs, held, n)
      end
  | Release k :: calls =>
      match held !! k with
      | Some i => let '(rs, held, n) := client_spec (i :: free) (delete k held) calls in (None :: rs, held, n)
      | None => client_spec free held calls
      end
  end.

Lemma client_run_spec a free held calls :
  ia_rep a free held -> client_run a held calls = Ret (client_spec free held calls).
Proof.
  revert a free held. induction calls as [|[|k] calls IH]; intros a free held Hr; cbn.
  - by rewrite (ia_rep_borrowed _ _ _ Hr).
  - destruct free as [|x free].
    + destruct (ia_acquire_nil a held Hr) as [e ->]. cbn. rewrite (IH a [] held Hr). cbn.
      by destruct (client_spec [] held calls) as [[rs h] n].
    + destruct (ia_acquire_cons a x free held Hr) as (a' & -> & Hr' & _). cbn.
      rewrite (IH a' free (x :: held) Hr'). cbn.
      by destruct (client_spec free (x :: held) calls) as [[rs h] n].
  - destruct (held !! k) as [i|] eqn:Hk; [|by apply IH].
    assert (Hp : ia_rep a free (i :: delete k held)).
    { eapply ia_rep_held_perm; [done|]. by apply delete_Permutation. }
    destruct (ia_release_held a free (delete k held) i Hp) as (a' & -> & Hr' & _). cbn.
    rewrite (IH a' (i :: free) (delete k held) Hr'). cbn.
    by destruct (client_spec (i :: free) (delete k held) calls) as [[rs h] n].
Qed.
End clients.

Section equivalence.
Import UniqueIndexSet.

(** C39: (the mock allocator against the lock-free one)  For every capacity that
    [UniqueIndexSet::new] accepts, a client that acquires indices and gives back
    those it holds gets the same answers from [MockIndexAllocator] as from
    [UniqueIndexSet], in the same order, is left with the same indices and
    reads the same [borrowed_count]. *)
Theorem mock_allocator_equivalent cap s calls :
  UniqueIndexSet.new cap = Ret s ->
  client_run (MockIndexAllocator.new cap) [] calls = client_run s [] calls.
Proof.
  intros Hn. pose proof (new_wf _ _ Hn) as Hw.
  assert (Hc : 0 < cap < SENTINEL /\ capacity s = cap).
  { unfold new in Hn. destruct (0 <? cap) eqn:E1; [|done]. destruct (cap <? SENTINEL) eqn:E2; [|done].
    zbool. injection Hn as <-. done. }
  destruct Hc as [Hc <-].
  rewrite (client_run_spec (MockIndexAllocator.new (capacity s)) (seqZ 0 (capacity s)) [] calls)
    by by apply MockIndexAllocator.mock_new_rep.
  by rewrite (client_run_spec s (seqZ 0 (capacity s)) [] calls).
Qed.

Lemma mock_allocator_equivalent_witness :
  exists s, UniqueIndexSet.new 2 = Ret s /\
    client_run (MockIndexAllocator.new 2) [] [Acquire; Acquire; Acquire; Release 1; Acquire]
    = client_run s [] [Acquire; Acquire; Acquire; Release 1; Acquire] /\
    client_run s [] [Acquire; Acquire; Acquire; Release 1; Acquire]
    = Ret ([Some 0; Some 1; None; None; Some 0], [0; 1], 2).
Proof.
  destruct (UniqueIndexSet.new 2) as [s| |] eqn:E; [|vm_compute in E; discriminate..].
  exists s. split; [reflexivity|].
  split; [exact (mock_allocator_equivalent 2 s _ E)|].
  vm_compute in E. injection E as <-. vm_compute. reflexivity.
Defined.
End equivalence.
