(* ===== verification/Spsc.v ===== *)
(** * SpscQueue (crates/entangle-lockfree/src/spsc_queue.rs)

    The bounded ring buffer of [u64] values with free-running 64-bit write and
    read positions, as one thread runs it.  [rep q n l] says that the queue
    holds the values [l] after [n] values have been popped; the positions are
    [n] and [n + length l] modulo [2^64]. *)
From S2P Require Import Prelude.
#[local] Open Scope Z_scope.
#[local] Open Scope rust_scope.

Module SpscQueue.

(** [pub struct SpscQueue]; the cache-line wrappers carry no data. *)
Record SpscQueue := mk {
  write_pos : Z;
  read_pos : Z;
  capacity : Z;
  mask : Z;
  data : list Z;
}.

(** [usize::next_power_of_two]; it wraps to 0 above [2^63]. *)
Definition next_power_of_two (n : Z) : Z :=
  if n <=? 1 then 1 else wrap 64 (2 ^ Z.log2_up n).

Definition new (capacity : Z) : SpscQueue :=
  let capacity := Z.max (next_power_of_two capacity) 2 in
  mk 0 0 capacity (capacity - 1) (replicate (Z.to_nat capacity) 0).

(** [self.data[idx].store(value)]: panics out of range. *)
Definition store_data (q : SpscQueue) (idx value : Z) : outcome SpscQueue :=
  let! _ := index (data q) idx in
  Ret (mk (write_pos q) (read_pos q) (capacity q) (mask q)
          (<[Z.to_nat idx := value]> (data q))).

Definition set_write (q : SpscQueue) (w : Z) : SpscQueue :=
  mk w (read_pos q) (capacity q) (mask q) (data q).
Definition set_read (q : SpscQueue) (r : Z) : SpscQueue :=
  mk (write_pos q) r (capacity q) (mask q) (data q).

(** The capacity test of [push] and [is_full]. *)
Definition no_space (q : SpscQueue) (write read : Z) : bool :=
  wrapping_sub 64 write read >=? capacity q.

Definition push (q : SpscQueue) (value : Z) : outcome (bool * SpscQueue) :=
  let write := write_pos q in
  let read := read_pos q in
  if no_space q write read then Ret (false, q)
  else
    let idx := Z.land write (mask q) in
    let! q := store_data q idx value in
    Ret (true, set_write q (wrapping_add 64 write 1)).

Definition pop (q : SpscQueue) : outcome (option Z * SpscQueue) :=
  let read := read_pos q in
  let write := write_pos q in
  if read =? write then Ret (None, q)
  else
    let idx := Z.land read (mask q) in
    let! value := index (data q) idx in
    Ret (Some value, set_read q (wrapping_add 64 read 1)).

Definition is_empty (q : SpscQueue) : bool := read_pos q =? write_pos q.
Definition is_full (q : SpscQueue) : bool := no_space q (write_pos q) (read_pos q).
Definition len (q : SpscQueue) : Z := wrapping_sub 64 (write_pos q) (read_pos q).

(** ** Ring arithmetic *)

(** The slot of the free-running position [p]. *)
Definition slot (q : SpscQueue) (p : Z) : nat := Z.to_nat (p mod capacity q).

Definition power_capacity (q : SpscQueue) : Prop :=
  exists k, 1 <= k <= 63 /\ capacity q = 2 ^ k.

Record shape (q : SpscQueue) : Prop := {
  shape_cap : power_capacity q;
  shape_mask : mask q = capacity q - 1;
  shape_data : length (data q) = Z.to_nat (capacity q);
}.

Lemma shape_bound q : shape q -> 2 <= capacity q <= 2 ^ 63.
Proof.
  intros [(k & Hk & ->) _ _]. split.
  - change 2 with (2 ^ 1) at 1. apply Z.pow_le_mono_r; lia.
  - apply Z.pow_le_mono_r; lia.
Qed.

(** Masking the 64-bit position selects the slot of the free-running one. *)
Lemma mask_slot q p : shape q -> Z.land (wrap 64 p) (mask q) = p mod capacity q.
Proof.
  intros [(k & Hk & Hc) Hm _]. rewrite Hm, Hc.
  replace (2 ^ k - 1) with (Z.ones k) by (rewrite Z.ones_equiv; lia).
  rewrite Z.land_ones by lia. unfold wrap.
  apply Z.mod_mod_divide. exists (2 ^ (64 - k)). rewrite <- Z.pow_add_r by lia.
  f_equal. lia.
Qed.

Lemma slot_lt q p : shape q -> (slot q p < length (data q))%nat.
Proof.
  intros Hs. pose proof (shape_bound _ Hs). rewrite (shape_data _ Hs).
  unfold slot. pose proof (Z.mod_pos_bound p (capacity q) ltac:(lia)). lia.
Qed.

(** Positions less than a capacity apart have different slots. *)
Lemma slot_inj q a b :
  shape q -> slot q a = slot q b -> - capacity q < a - b < capacity q -> a = b.
Proof.
  intros Hs He Hb. pose proof (shape_bound _ Hs). unfold slot in He.
  pose proof (Z.mod_pos_bound a (capacity q) ltac:(lia)).
  pose proof (Z.mod_pos_bound b (capacity q) ltac:(lia)).
  assert (Hm : a mod capacity q = b mod capacity q) by (apply Z2Nat.inj; tauto).
  assert (Hd : (a - b) mod capacity q = 0).
  { rewrite Zminus_mod, Hm, Z.sub_diag. apply Z.mod_0_l. lia. }
  apply Z.mod_divide in Hd as [k Hk]; [|lia].
  assert (0 < capacity q) by lia. generalize dependent (capacity q). intros c **.
  assert (k = 0) by nia. lia.
Qed.

(** ** The representation *)

Record rep (q : SpscQueue) (n : Z) (l : list Z) : Prop := {
  rep_shape : shape q;
  rep_read : read_pos q = wrap 64 n;
  rep_write : write_pos q = wrap 64 (n + Z.of_nat (length l));
  rep_le : Z.of_nat (length l) <= capacity q;
  rep_data : forall i v, l !! i = Some v -> data q !! slot q (n + Z.of_nat i) = Some v;
}.

Section rep.
Context (q : SpscQueue) (n : Z) (l : list Z) (Hrep : rep q n l).

Lemma rep_len : wrapping_sub 64 (write_pos q) (read_pos q) = Z.of_nat (length l).
Proof.
  destruct Hrep. unfold wrapping_sub. rewrite rep_write0, rep_read0.
  rewrite wrap_sub_l, wrap_sub_r. pose proof (shape_bound _ rep_shape0).
  replace (n + Z.of_nat (length l) - n) with (Z.of_nat (length l)) by lia.
  apply wrap_small. unfold fits. lia.
Qed.

Lemma rep_no_space : no_space q (write_pos q) (read_pos q) = (Z.of_nat (length l) =? capacity q).
Proof.
  unfold no_space. rewrite rep_len. pose proof (rep_le _ _ _ Hrep).
  rewrite Z.geb_leb. destruct (_ <=? _) eqn:E1, (_ =? _) eqn:E2; zbool; lia || done.
Qed.

Lemma rep_empty : (read_pos q =? write_pos q) = bool_decide (l = []).
Proof.
  destruct Hrep. pose proof (shape_bound _ rep_shape0).
  rewrite rep_write0, rep_read0. destruct l as [|x l'] eqn:El.
  - cbn. rewrite Z.add_0_r. apply Z.eqb_refl.
  - cbn [length]. rewrite bool_decide_false by done. apply Z.eqb_neq. intros He.
    apply eq_sym, wrap_window in He; cbn [length] in *; lia.
Qed.

(** Writing the slot just after the last value leaves the values alone ... *)
Lemma rep_store v :
  Z.of_nat (length l) < capacity q ->
  exists q', store_data q (Z.land (write_pos q) (mask q)) v = Ret q' /\
    q' = mk (write_pos q) (read_pos q) (capacity q) (mask q)
            (<[slot q (n + Z.of_nat (length l)) := v]> (data q)) /\
    rep q' n l /\ data q' !! slot q' (n + Z.of_nat (length l)) = Some v.
Proof.
  intros Hlt. destruct Hrep.
  assert (Hs : Z.to_nat (Z.land (write_pos q) (mask q)) = slot q (n + Z.of_nat (length l)))
    by (by rewrite rep_write0, mask_slot).
  pose proof (slot_lt q (n + Z.of_nat (length l)) rep_shape0) as Hsl.
  destruct (lookup_lt_is_Some_2 _ _ Hsl) as [a Ha].
  unfold store_data, index. rewrite Hs, Ha. cbn. eexists. split; [done|]. split; [done|].
  split; [|by apply list_lookup_insert_eq].
  split; cbn; try done.
  - destruct rep_shape0. split; cbn; try done. by rewrite length_insert.
  - intros i w Hi. rewrite list_lookup_insert_ne; [by apply rep_data0|].
    intros He. apply (slot_inj q) in He; [|done|]; apply lookup_lt_Some in Hi; lia.
Qed.

(** ... and moving the write position publishes it. *)
Lemma rep_publish v :
  Z.of_nat (length l) < capacity q ->
  data q !! slot q (n + Z.of_nat (length l)) = Some v ->
  rep (set_write q (wrapping_add 64 (write_pos q) 1)) n (l ++ [v]).
Proof.
  intros Hlt Hv. destruct Hrep. split; cbn; try done.
  - destruct rep_shape0. by split.
  - rewrite rep_write0. unfold wrapping_add. rewrite wrap_add_l, length_app. cbn. f_equal. lia.
  - rewrite length_app. cbn. lia.
  - intros i w Hi. apply lookup_app_Some in Hi as [Hi|[Hi Hw]]; [by apply rep_data0|].
    apply list_lookup_singleton_Some in Hw as [Hz <-].
    by replace (Z.of_nat i) with (Z.of_nat (length l)) by lia.
Qed.
End rep.

Lemma rep_head q n x l :
  rep q n (x :: l) -> data q !! Z.to_nat (Z.land (read_pos q) (mask q)) = Some x.
Proof.
  intros []. rewrite rep_read0, mask_slot by done.
  specialize (rep_data0 0%nat x eq_refl). cbn in rep_data0. by rewrite Z.add_0_r in rep_data0.
Qed.

Lemma rep_advance q n x l :
  rep q n (x :: l) -> rep (set_read q (wrapping_add 64 (read_pos q) 1)) (n + 1) l.
Proof.
  intros []. cbn [length] in *. split; cbn; try done.
  - destruct rep_shape0. by split.
  - rewrite rep_read0. apply wrap_add_l.
  - rewrite rep_write0. f_equal. lia.
  - lia.
  - intros i v Hi. specialize (rep_data0 (S i) v Hi). unfold slot in *. cbn in *.
    by replace (n + 1 + Z.of_nat i) with (n + Z.of_nat (S i)) by lia.
Qed.

(** ** Sequential behaviour *)

Lemma push_rep q n l v :
  rep q n l -> Z.of_nat (length l) < capacity q ->
  exists q', push q v = Ret (true, q') /\ rep q' n (l ++ [v]) /\ capacity q' = capacity q.
Proof.
  intros Hr Hlt. unfold push. rewrite (rep_no_space _ _ _ Hr).
  destruct (_ =? _) eqn:E; zbool; [lia|].
  destruct (rep_store _ _ _ Hr v Hlt) as (q1 & -> & -> & H1 & H2). cbn.
  eexists. split; [done|]. split; [|done].
  by apply (rep_publish _ _ _ H1).
Qed.

Lemma push_full q n l v :
  rep q n l -> Z.of_nat (length l) = capacity q -> push q v = Ret (false, q).
Proof.
  intros Hr He. unfold push. rewrite (rep_no_space _ _ _ Hr), He. by rewrite Z.eqb_refl.
Qed.

Lemma pop_rep q n x l :
  rep q n (x :: l) ->
  exists q', pop q = Ret (Some x, q') /\ rep q' (n + 1) l /\ capacity q' = capacity q.
Proof.
  intros Hr. unfold pop. rewrite (rep_empty _ _ _ Hr). cbn.
  unfold index. rewrite (rep_head _ _ _ _ Hr). cbn. eexists. split; [done|].
  split; [|done]. by eapply rep_advance.
Qed.

Lemma pop_empty q n : rep q n [] -> pop q = Ret (None, q).
Proof. intros Hr. unfold pop. by rewrite (rep_empty _ _ _ Hr). Qed.

Lemma len_rep q n l : rep q n l -> len q = Z.of_nat (length l).
Proof. apply rep_len. Qed.

Lemma is_full_rep q n l : rep q n l -> is_full q = (Z.of_nat (length l) =? capacity q).
Proof. apply rep_no_space. Qed.

Lemma is_empty_rep q n l : rep q n l -> is_empty q = bool_decide (l = []).
Proof. apply rep_empty. Qed.

(** [new] rounds up: for any capacity that memory can hold, the queue is empty
    and has room for at least the requested number of values. *)
Lemma new_capacity cap :
  0 <= cap <= 2 ^ 63 -> cap <= capacity (new cap) /\ power_capacity (new cap).
Proof.
  intros Hc. unfold new, next_power_of_two, power_capacity. cbn.
  destruct (cap <=? 1) eqn:E; zbool.
  - split; [lia|]. by exists 1.
  - assert (Hl : 1 <= Z.log2_up cap <= 63).
    { split; [change 1 with (Z.log2_up 2); apply Z.log2_up_le_mono; lia|].
      change 63 with (Z.log2_up (2 ^ 63)). apply Z.log2_up_le_mono. lia. }
    pose proof (Z.log2_up_spec cap ltac:(lia)) as Hu.
    pose proof (Z.pow_le_mono_r 2 1 (Z.log2_up cap) ltac:(lia) ltac:(lia)).
    rewrite wrap_small.
    + split; [lia|]. exists (Z.log2_up cap). split; [done|]. lia.
    + pose proof (Z.pow_le_mono_r 2 (Z.log2_up cap) 63 ltac:(lia) ltac:(lia)). unfold fits. lia.
Qed.

Lemma new_rep cap : 0 <= cap <= 2 ^ 63 -> rep (new cap) 0 [].
Proof.
  intros Hc. pose proof (new_capacity _ Hc) as [_ Hp].
  split; cbn; try done.
  - split; cbn; [done|done|]. apply length_replicate.
  - destruct Hp as (k & Hk & Hck). unfold new in Hck. cbn in Hck. lia.
Qed.

End SpscQueue.
