(* ===== verification/SpscConc.v ===== *)
(** * SpscQueue under concurrency

    [push] and [pop] cut at every access to shared memory, run by lists of
    producers and consumers in any order (sequentially consistent
    interleaving).  With one producer and one consumer the queue is a
    linearizable bounded FIFO; with two producers a value is lost. *)
From S2P Require Import Prelude Spsc.
#[local] Open Scope Z_scope.

Module SpscThreads.
Import SpscQueue.

(** Producer: called, write position read, space found, value stored. *)
Inductive push_pc :=
| PushIdle (last : option bool)
| PushStart (v : Z)
| PushRead (v write : Z)
| PushStore (v write : Z)
| PushPublish (v write : Z)
| PushPanic.

(** Consumer: called, read position read, value present, value read. *)
Inductive pop_pc :=
| PopIdle (last : option (option Z))
| PopStart
| PopRead (read : Z)
| PopLoad (read : Z)
| PopAdvance (read v : Z)
| PopPanic.

Inductive event :=
| Pushed (v : Z)
| PushFull
| Popped (v : Z)
| PopEmpty.

Record config := mkC {
  queue : SpscQueue;
  producers : list push_pc;
  consumers : list pop_pc;
}.

Definition step_push (q : SpscQueue) (p : push_pc) : option (SpscQueue * push_pc * list event) :=
  match p with
  | PushIdle _ | PushPanic => None
  | PushStart v => Some (q, PushRead v (write_pos q), [])
  | PushRead v write =>
      if no_space q write (read_pos q)
      then Some (q, PushIdle (Some false), [PushFull])
      else Some (q, PushStore v write, [])
  | PushStore v write =>
      match store_data q (Z.land write (mask q)) v with
      | Ret q' => Some (q', PushPublish v write, [])
      | _ => Some (q, PushPanic, [])
      end
  | PushPublish v write =>
      Some (set_write q (wrapping_add 64 write 1), PushIdle (Some true), [Pushed v])
  end.

Definition step_pop (q : SpscQueue) (p : pop_pc) : option (SpscQueue * pop_pc * list event) :=
  match p with
  | PopIdle _ | PopPanic => None
  | PopStart => Some (q, PopRead (read_pos q), [])
  | PopRead read =>
      if read =? write_pos q
      then Some (q, PopIdle (Some None), [PopEmpty])
      else Some (q, PopLoad read, [])
  | PopLoad read =>
      match data q !! Z.to_nat (Z.land read (mask q)) with
      | Some v => Some (q, PopAdvance read v, [])
      | None => Some (q, PopPanic, [])
      end
  | PopAdvance read v =>
      Some (set_read q (wrapping_add 64 read 1), PopIdle (Some (Some v)), [Popped v])
  end.

Inductive action :=
| CallPush (i : nat) (v : Z)
| RunPush (i : nat)
| CallPop (i : nat)
| RunPop (i : nat).

Definition exec (a : action) (c : config) : option (config * list event) :=
  match a with
  | CallPush i v =>
      match producers c !! i with
      | Some (PushIdle _) =>
          Some (mkC (queue c) (<[i := PushStart v]> (producers c)) (consumers c), [])
      | _ => None
      end
  | RunPush i =>
      match producers c !! i with
      | Some p =>
          match step_push (queue c) p with
          | Some (q, p', e) => Some (mkC q (<[i := p']> (producers c)) (consumers c), e)
          | None => None
          end
      | None => None
      end
  | CallPop i =>
      match consumers c !! i with
      | Some (PopIdle _) =>
          Some (mkC (queue c) (producers c) (<[i := PopStart]> (consumers c)), [])
      | _ => None
      end
  | RunPop i =>
      match consumers c !! i with
      | Some p =>
          match step_pop (queue c) p with
          | Some (q, p', e) => Some (mkC q (producers c) (<[i := p']> (consumers c)), e)
          | None => None
          end
      | None => None
      end
  end.

Fixpoint run (sched : list action) (c : config) : option (config * list event) :=
  match sched with
  | [] => Some (c, [])
  | a :: sched =>
      match exec a c with
      | None => None
      | Some (c1, e1) =>
          match run sched c1 with None => None | Some (c2, e2) => Some (c2, e1 ++ e2) end
      end
  end.

Definition init (q : SpscQueue) (np nc : nat) : config :=
  mkC q (replicate np (PushIdle None)) (replicate nc (PopIdle None)).

(** ** The abstract bounded FIFO *)

Definition spec_step (cap : Z) (l : list Z) (e : event) : option (list Z) :=
  match e with
  | Pushed v => if Z.of_nat (length l) <? cap then Some (l ++ [v]) else None
  | PushFull => if Z.of_nat (length l) =? cap then Some l else None
  | Popped v =>
      match l with x :: l => if v =? x then Some l else None | [] => None end
  | PopEmpty => match l with [] => Some [] | _ => None end
  end.

Fixpoint spec_run (cap : Z) (l : list Z) (evs : list event) : option (list Z) :=
  match evs with
  | [] => Some l
  | e :: evs => match spec_step cap l e with Some l => spec_run cap l evs | None => None end
  end.

Definition pushed (evs : list event) : list Z :=
  omap (fun e => match e with Pushed v => Some v | _ => None end) evs.
Definition popped (evs : list event) : list Z :=
  omap (fun e => match e with Popped v => Some v | _ => None end) evs.

Lemma spsc_spec_run_app cap l e1 e2 :
  spec_run cap l (e1 ++ e2) =
  match spec_run cap l e1 with Some l => spec_run cap l e2 | None => None end.
Proof.
  revert l. induction e1 as [|e e1 IH]; intros l; cbn; [done|].
  destruct (spec_step cap l e); [apply IH|done].
Qed.

(** The abstract queue is first-in first-out. *)
Lemma spec_fifo cap l evs l' :
  spec_run cap l evs = Some l' -> l ++ pushed evs = popped evs ++ l'.
Proof.
  revert l. induction evs as [|e evs IH]; intros l H; cbn in H.
  - simplify_eq. cbn. by rewrite app_nil_r.
  - destruct (spec_step cap l e) as [l1|] eqn:E; [|done]. specialize (IH _ H).
    assert (Hp : pushed (e :: evs) = pushed [e] ++ pushed evs) by (by destruct e).
    assert (Hq : popped (e :: evs) = popped [e] ++ popped evs) by (by destruct e).
    rewrite Hp, Hq, <- app_assoc, <- IH. destruct e as [v| |v|]; cbn in E |- *.
    + destruct (_ <? cap); simplify_eq. by rewrite <- app_assoc.
    + destruct (_ =? cap); by simplify_eq.
    + destruct l as [|x l]; [done|]. destruct (v =? x) eqn:Ev; simplify_eq; zbool. by subst.
    + destruct l; by simplify_eq.
Qed.

(** ** The invariant of one producer and one consumer *)

Definition push_ok (q : SpscQueue) (n : Z) (l : list Z) (p : push_pc) : Prop :=
  match p with
  | PushIdle _ | PushStart _ => True
  | PushRead v write => write = write_pos q
  | PushStore v write => write = write_pos q /\ Z.of_nat (length l) < capacity q
  | PushPublish v write =>
      write = write_pos q /\ Z.of_nat (length l) < capacity q /\
      data q !! slot q (n + Z.of_nat (length l)) = Some v
  | PushPanic => False
  end.

Definition pop_ok (q : SpscQueue) (l : list Z) (p : pop_pc) : Prop :=
  match p with
  | PopIdle _ | PopStart => True
  | PopRead read => read = read_pos q
  | PopLoad read => read = read_pos q /\ l <> []
  | PopAdvance read v => read = read_pos q /\ exists l', l = v :: l'
  | PopPanic => False
  end.

Record inv (c : config) (cap n : Z) (l : list Z) : Prop := {
  inv_rep : rep (queue c) n l;
  inv_cap : capacity (queue c) = cap;
  inv_push : exists p, producers c = [p] /\ push_ok (queue c) n l p;
  inv_pop : exists p, consumers c = [p] /\ pop_ok (queue c) l p;
}.

Lemma pop_ok_same q q' l p :
  read_pos q' = read_pos q -> pop_ok q l p -> pop_ok q' l p.
Proof. destruct p; cbn; congruence. Qed.

(** What the producer does next keeps the consumer's view, and conversely. *)
Lemma step_push_inv q n l p p' q' e k :
  rep q n l -> push_ok q n l p -> pop_ok q l k -> step_push q p = Some (q', p', e) ->
  exists l', spec_run (capacity q) l e = Some l' /\ rep q' n l' /\
    capacity q' = capacity q /\ push_ok q' n l' p' /\ pop_ok q' l' k.
Proof.
  intros Hr Hp Hk Hs. destruct p as [| v|v w|v w|v w|]; cbn in *; try done.
  - simplify_eq. by exists l.
  - subst w. rewrite (rep_no_space _ _ _ Hr) in Hs. pose proof (rep_le _ _ _ Hr).
    destruct (_ =? _) eqn:E; simplify_eq; zbool; exists l; cbn.
    + rewrite E, Z.eqb_refl. done.
    + split; [done|]. split; [done|]. split; [done|]. split; [|done]. split; [done|lia].
  - destruct Hp as [-> Hlt].
    destruct (rep_store _ _ _ Hr v Hlt) as (q1 & Hq1 & E1 & H1 & H2).
    rewrite Hq1 in Hs. simplify_eq. exists l. split; [done|]. split; [done|].
    split; [done|]. split; [done|]. by apply (pop_ok_same q).
  - destruct Hp as (-> & Hlt & Hd). simplify_eq. exists (l ++ [v]). cbn.
    rewrite (proj2 (Z.ltb_lt _ _) Hlt). split; [done|].
    split; [by apply rep_publish|]. split; [done|]. split; [done|].
    destruct k; cbn in *; try done.
    + split; [apply Hk|]. by destruct l.
    + destruct Hk as (-> & l' & ->). split; [done|]. by eexists.
Qed.

Lemma step_pop_inv q n l p p' q' e k :
  rep q n l -> pop_ok q l p -> push_ok q n l k -> step_pop q p = Some (q', p', e) ->
  let n' := match e with [Popped _] => n + 1 | _ => n end in
  exists l', spec_run (capacity q) l e = Some l' /\ rep q' n' l' /\
    capacity q' = capacity q /\ pop_ok q' l' p' /\ push_ok q' n' l' k.
Proof.
  intros Hr Hp Hk Hs. cbn zeta. destruct p as [| |r|r|r v|]; cbn in *; try done.
  - simplify_eq. by exists l.
  - subst r. rewrite (rep_empty _ _ _ Hr) in Hs. exists l.
    case_bool_decide as E; simplify_eq; done.
  - destruct Hp as [-> Hne]. destruct l as [|x l']; [done|].
    rewrite (rep_head _ _ _ _ Hr) in Hs. simplify_eq. exists (x :: l').
    repeat split; try done; try apply Hr. by eexists.
  - destruct Hp as (-> & l' & ->). simplify_eq. exists l'. cbn.
    rewrite Z.eqb_refl. split; [done|]. split; [by eapply rep_advance|].
    split; [done|]. split; [done|]. cbn [length] in *.
    destruct k; cbn in *; try done; destruct_and?; try (split; [done|lia]).
    split; [done|]. split; [lia|].
    by replace (n + 1 + Z.of_nat (length l')) with (n + Z.of_nat (S (length l'))) by lia.
Qed.

(** The value of a push under way, and whether a pop is. *)
Definition push_val (p : push_pc) : option Z :=
  match p with
  | PushStart v | PushRead v _ | PushStore v _ | PushPublish v _ => Some v
  | PushIdle _ | PushPanic => None
  end.

Definition pop_busy (p : pop_pc) : bool :=
  match p with PopIdle _ | PopPanic => false | _ => true end.

(** How far a call has come. *)
Definition push_rank (p : push_pc) : Z :=
  match p with PushRead _ _ => 1 | PushStore _ _ => 2 | PushPublish _ _ => 3 | _ => 0 end.
Definition pop_rank (p : pop_pc) : Z :=
  match p with PopRead _ => 1 | PopLoad _ => 2 | PopAdvance _ _ => 3 | _ => 0 end.

Lemma pop_rank_bound p : 0 <= pop_rank p <= 3.
Proof. destruct p; cbn; lia. Qed.
Lemma push_rank_bound p : 0 <= push_rank p <= 3.
Proof. destruct p; cbn; lia. Qed.

Lemma pop_ok_nonempty q l p : pop_ok q l p -> 2 <= pop_rank p -> (1 <= length l)%nat.
Proof.
  destruct p; cbn; try lia.
  - intros [_ Hl] _. destruct l; [done|cbn; lia].
  - intros (_ & l' & ->) _. cbn. lia.
Qed.

(** A push on a queue with room goes on or publishes its value ... *)
Lemma step_push_cases q n l p k v :
  rep q n l -> push_ok q n l p -> pop_ok q l k -> push_val p = Some v ->
  Z.of_nat (length l) < capacity q ->
  exists q' p' e, step_push q p = Some (q', p', e) /\ capacity q' = capacity q /\
    (push_val p' = Some v /\ push_rank p' = push_rank p + 1 /\
     rep q' n l /\ push_ok q' n l p' /\ pop_ok q' l k \/
     p' = PushIdle (Some true) /\ push_rank p = 3 /\
     rep q' n (l ++ [v]) /\ pop_ok q' (l ++ [v]) k).
Proof.
  intros Hr Hp Hk Hv Hlt.
  assert (Hs : exists q' p' e, step_push q p = Some (q', p', e)).
  { destruct p; cbn in Hv |- *; try done; [eauto| |destruct (store_data _ _ _)|]; eauto.
    destruct (no_space _ _ _); eauto. }
  destruct Hs as (q' & p' & e & Hs). exists q', p', e. split; [done|].
  destruct (step_push_inv _ _ _ _ _ _ _ _ Hr Hp Hk Hs) as (l' & He & Hr' & Hc & Hp' & Hk').
  split; [done|]. destruct p as [| |v' w|v' w|v' w|]; cbn in Hv, Hs; simplify_eq.
  - left. cbn in He. by simplify_eq.
  - cbn in Hp. subst w. rewrite (rep_no_space _ _ _ Hr) in Hs.
    rewrite (proj2 (Z.eqb_neq _ _)) in Hs by lia. cbn in He. left. by simplify_eq.
  - left. destruct (store_data _ _ _); simplify_eq; cbn in He, Hp'; by simplify_eq.
  - right. cbn in He. by destruct (_ <? _) in He; simplify_eq.
Qed.

(** ... and a pop goes on, finds nothing, or takes the oldest value. *)
Lemma step_pop_cases q n l p k :
  rep q n l -> pop_ok q l p -> push_ok q n l k -> pop_busy p = true ->
  exists q' p' e, step_pop q p = Some (q', p', e) /\ capacity q' = capacity q /\
    (pop_busy p' = true /\ pop_rank p' = pop_rank p + 1 /\
     rep q' n l /\ pop_ok q' l p' /\ push_ok q' n l k \/
     p' = PopIdle (Some None) /\ pop_rank p = 1 /\ l = [] /\ q' = q \/
     exists v l', p' = PopIdle (Some (Some v)) /\ pop_rank p = 3 /\ l = v :: l' /\
       rep q' (n + 1) l' /\ push_ok q' (n + 1) l' k).
Proof.
  intros Hr Hp Hk Hb. destruct p as [| |w|w|w v|]; cbn in Hp; try done.
  - exists q, (PopRead (read_pos q)), []. split; [done|]. split; [done|]. by left.
  - subst w. cbn. rewrite (rep_empty _ _ _ Hr). case_bool_decide as E; do 3 eexists;
      (split; [done|]); (split; [done|]); [by right; left|by left].
  - destruct Hp as [-> Hne]. destruct l as [|x l']; [done|]. cbn.
    rewrite (rep_head _ _ _ _ Hr). do 3 eexists. split; [done|]. split; [done|]. left.
    repeat split; try done; try apply Hr. by eexists.
  - destruct Hp as (-> & l' & ->). do 3 eexists. split; [done|]. split; [done|]. right. right.
    exists v, l'. split; [done|]. split; [done|]. split; [done|].
    destruct (step_pop_inv q n (v :: l') (PopAdvance (read_pos q) v) _ _ _ k Hr
      ltac:(by split; [|eexists]) Hk eq_refl) as (l2 & He & H1 & _ & _ & H2).
    cbn in He. rewrite Z.eqb_refl in He. by simplify_eq.
Qed.

Lemma spsc_exec_inv a c cap n l c' e :
  inv c cap n l -> exec a c = Some (c', e) ->
  exists n' l', spec_run cap l e = Some l' /\ inv c' cap n' l'.
Proof.
  intros [Hr Hc (p & Hp & Hpo) (k & Hk & Hko)] He. unfold exec in He.
  destruct a as [i v|i|i|i]; rewrite ?Hp, ?Hk in He; destruct i as [|i]; try done; cbn in He.
  - destruct p; simplify_eq. exists n, l. split; [done|]. split; cbn; eauto.
  - destruct (step_push _ _) as [[[q p'] e']|] eqn:E; simplify_eq.
    destruct (step_push_inv _ _ _ _ _ _ _ _ Hr Hpo Hko E) as (l' & ? & ? & ? & ? & ?).
    exists n, l'. split; [done|]. split; cbn; eauto.
  - destruct k; simplify_eq. exists n, l. split; [done|]. split; cbn; eauto.
  - destruct (step_pop _ _) as [[[q p'] e']|] eqn:E; simplify_eq.
    destruct (step_pop_inv _ _ _ _ _ _ _ _ Hr Hko Hpo E) as (l' & ? & ? & ? & ? & ?).
    eexists _, l'. split; [done|]. split; cbn; eauto.
Qed.

Lemma run_inv sched c cap n l c' evs :
  inv c cap n l -> run sched c = Some (c', evs) ->
  exists n' l', spec_run cap l evs = Some l' /\ inv c' cap n' l'.
Proof.
  revert c n l evs. induction sched as [|a sched IH]; intros c n l evs Hi Hr; cbn in Hr.
  - simplify_eq. eauto.
  - destruct (exec a c) as [[c1 e1]|] eqn:E; [|done].
    destruct (run sched c1) as [[c2 e2]|] eqn:E2; [|done]. simplify_eq.
    destruct (spsc_exec_inv _ _ _ _ _ _ _ Hi E) as (n1 & l1 & H1 & Hi1).
    destruct (IH _ _ _ _ Hi1 E2) as (n2 & l2 & H2 & Hi2).
    exists n2, l2. by rewrite spsc_spec_run_app, H1.
Qed.

Lemma spsc_init_inv cap : 0 <= cap <= 2 ^ 63 ->
  inv (init (new cap) 1 1) (capacity (new cap)) 0 [].
Proof.
  intros Hc. split; cbn; try done.
  - by apply new_rep.
  - by exists (PushIdle None).
  - by exists (PopIdle None).
Qed.

(** ** Properties *)

(** C3: with one producer and one consumer, every interleaving of [push] and
    [pop] is an execution of a bounded FIFO of capacity [capacity (new cap)]:
    in particular a push fails only when the queue is full, a pop only when it
    is empty, and the values in the ring are the abstract contents. *)
Theorem spsc_linearizable cap sched c evs :
  0 <= cap <= 2 ^ 63 -> run sched (init (new cap) 1 1) = Some (c, evs) ->
  exists n l, spec_run (capacity (new cap)) [] evs = Some l /\ rep (queue c) n l.
Proof.
  intros Hc Hr. destruct (run_inv _ _ _ _ _ _ _ (spsc_init_inv _ Hc) Hr) as (n & l & H & Hi).
  exists n, l. split; [done|apply Hi].
Qed.

(** First in, first out, nothing lost or duplicated: the values popped so
    far followed by the [len] values in the ring are the values pushed, in
    order, whatever the 64-bit positions have wrapped to. *)
Theorem spsc_fifo cap sched c evs :
  0 <= cap <= 2 ^ 63 -> run sched (init (new cap) 1 1) = Some (c, evs) ->
  exists l, pushed evs = popped evs ++ l /\ len (queue c) = Z.of_nat (length l) /\
    Z.of_nat (length l) <= capacity (new cap).
Proof.
  intros Hc Hr. destruct (run_inv _ _ _ _ _ _ _ (spsc_init_inv _ Hc) Hr) as (n & l & H & Hi).
  exists l. apply spec_fifo in H. split; [done|]. destruct Hi.
  split; [by eapply len_rep|]. rewrite <- inv_cap0. apply inv_rep0.
Qed.

(** No interleaving of one producer and one consumer indexes the ring out
    of range. *)
Theorem spsc_no_panic cap sched c evs :
  0 <= cap <= 2 ^ 63 -> run sched (init (new cap) 1 1) = Some (c, evs) ->
  (PushPanic ∉ producers c) /\ PopPanic ∉ consumers c.
Proof.
  intros Hc Hr. destruct (run_inv _ _ _ _ _ _ _ (spsc_init_inv _ Hc) Hr) as (n & l & H & Hi).
  destruct Hi as [_ _ (p & -> & Hp) (k & -> & Hk)].
  split; intros ?%list_elem_of_singleton; by subst.
Qed.

(** A run of one push and one pop that overlap at every step. *)
Definition overlap : list action :=
  [CallPush 0 7; RunPush 0; RunPush 0; RunPush 0; RunPush 0;
   CallPush 0 8; CallPop 0; RunPush 0; RunPop 0; RunPush 0; RunPop 0; RunPush 0;
   RunPop 0; RunPush 0; RunPop 0; CallPush 0 9; RunPush 0].
Definition overlap_end : config :=
  match run overlap (init (new 2) 1 1) with Some (c, _) => c | None => init (new 2) 1 1 end.
Definition overlap_events : list event :=
  match run overlap (init (new 2) 1 1) with Some (_, e) => e | None => [] end.

Lemma overlap_run : run overlap (init (new 2) 1 1) = Some (overlap_end, overlap_events).
Proof. vm_compute. reflexivity. Qed.

Lemma spsc_linearizable_witness :
  exists n l, spec_run 2 [] overlap_events = Some l /\ rep (queue overlap_end) n l.
Proof. apply (spsc_linearizable 2 overlap); [lia|exact overlap_run]. Defined.

Lemma spsc_fifo_witness :
  exists l, pushed overlap_events = popped overlap_events ++ l /\
    len (queue overlap_end) = Z.of_nat (length l) /\ Z.of_nat (length l) <= 2.
Proof. apply (spsc_fifo 2 overlap); [lia|exact overlap_run]. Defined.

Lemma spsc_no_panic_witness :
  (PushPanic ∉ producers overlap_end) /\ PopPanic ∉ consumers overlap_end.
Proof. apply (spsc_no_panic 2 overlap overlap_end overlap_events); [lia|exact overlap_run]. Defined.

(** The queue is only correct for one producer.  [push] takes [&self] and
    the type is [Sync], so nothing stops two threads: here both calls of [push]
    return [true], and the queue holds a single value; the other is lost. *)
Theorem spsc_two_producers_lose :
  exists sched c evs,
    run sched (init (new 4) 2 1) = Some (c, evs) /\
    producers c = [PushIdle (Some true); PushIdle (Some true)] /\
    pushed evs = [1; 2] /\ popped evs = [] /\ len (queue c) = 1.
Proof.
  exists [CallPush 0 1; CallPush 1 2; RunPush 0; RunPush 1; RunPush 0; RunPush 1;
          RunPush 0; RunPush 1; RunPush 0; RunPush 1].
  do 2 eexists. split; [vm_compute; reflexivity|]. vm_compute. auto.
Qed.

(** Two consumers receive the same value twice. *)
Lemma spsc_two_consumers_duplicate :
  exists sched c evs,
    run sched (init (new 4) 1 2) = Some (c, evs) /\
    consumers c = [PopIdle (Some (Some 1)); PopIdle (Some (Some 1))] /\ pushed evs = [1].
Proof.
  exists [CallPush 0 1; RunPush 0; RunPush 0; RunPush 0; RunPush 0;
          CallPop 0; CallPop 1; RunPop 0; RunPop 1; RunPop 0; RunPop 1;
          RunPop 0; RunPop 1; RunPop 0; RunPop 1].
  do 2 eexists. split; [vm_compute; reflexivity|]. vm_compute. auto.
Qed.

End SpscThreads.
