(* ===== verification/SpscLoop.v ===== *)
(** * The threaded tests of SpscQueue
    (entangle-lockfree/src/spsc_queue.rs, concurrent_producer_consumer and
    spsc_fifo_ordering)

    The two threads of each test as programs over the machine of SpscConc.v.
    For every interleaving the consumer has a prefix of what the producer sends,
    and every fair schedule ends with all of it received in order. *)
From Stdlib Require Import Sorted.
From S2P Require Import Prelude Spsc SpscConc.
#[local] Open Scope Z_scope.

Module SpscLoop.
Import SpscQueue SpscThreads.

Inductive thread := Producer | Consumer.

#[global] Instance thread_eq_dec : EqDecision thread.
Proof. solve_decision. Defined.

(** [for i in 0..n { while !q.push(i) { spin_loop() } }]: about to call [push]
    for value [i], or in the call; [ProdFailed] is a panic. *)
Inductive producer :=
| PNext (i : nat)
| PPushing (i : nat)
| ProdFailed.

(** [while received.len() < n { if let Some(v) = q.pop() { received.push(v) } }] *)
Inductive consumer :=
| CNext (received : list Z)
| CPopping (received : list Z)
| ConsFailed.

Record sys := mkSys {
  cfg : config;
  prod : producer;
  cons : consumer;
}.

Section test.
(** The number of values and the values: 10000 and [i] itself in the test. *)
Context (n : nat) (f : nat -> Z).

Definition after_push (i : nat) (c : config) : producer :=
  match producers c !! 0%nat with
  | Some (PushIdle (Some true)) => PNext (S i)
  | Some (PushIdle _) => PNext i
  | Some PushPanic | None => ProdFailed
  | Some _ => PPushing i
  end.

Definition step_producer (s : sys) : sys :=
  let act a next :=
    match exec a (cfg s) with
    | Some (c, _) => mkSys c (next c) (cons s)
    | None => mkSys (cfg s) ProdFailed (cons s)
    end in
  match prod s with
  | PNext i => if (i <? n)%nat then act (CallPush 0 (f i)) (after_push i) else s
  | PPushing i => act (RunPush 0) (after_push i)
  | ProdFailed => s
  end.

Definition after_pop (received : list Z) (c : config) : consumer :=
  match consumers c !! 0%nat with
  | Some (PopIdle (Some (Some v))) => CNext (received ++ [v])
  | Some (PopIdle _) => CNext received
  | Some PopPanic | None => ConsFailed
  | Some _ => CPopping received
  end.

Definition step_consumer (s : sys) : sys :=
  let act a next :=
    match exec a (cfg s) with
    | Some (c, _) => mkSys c (prod s) (next c)
    | None => mkSys (cfg s) (prod s) ConsFailed
    end in
  match cons s with
  | CNext received =>
      if (length received <? n)%nat then act (CallPop 0) (after_pop received) else s
  | CPopping received => act (RunPop 0) (after_pop received)
  | ConsFailed => s
  end.

Definition step (t : thread) (s : sys) : sys :=
  match t with Producer => step_producer s | Consumer => step_consumer s end.

Definition run_threads (sched : list thread) (s : sys) : sys := foldl (fun s t => step t s) s sched.

Definition start (cap : Z) : sys := mkSys (init (new cap) 1 1) (PNext 0) (CNext []).

Definition values (i : nat) : list Z := f <$> seq 0 i.

Lemma spsc_values_S i : values (S i) = values i ++ [f i].
Proof. unfold values. by rewrite seq_S, fmap_app. Qed.

Lemma length_spsc_values i : length (values i) = i.
Proof. unfold values. by rewrite length_fmap, length_seq. Qed.

(** ** The invariant *)

(** What has been sent, given where the producer is, and what has been received. *)
Definition pushing (p : producer) : nat :=
  match p with PNext i | PPushing i => i | ProdFailed => 0 end.
Definition got (p : consumer) : list Z :=
  match p with CNext l | CPopping l => l | ConsFailed => [] end.

Definition prod_ok (p : producer) (k : push_pc) : Prop :=
  match p with
  | PNext i => (i <= n)%nat /\ exists last, k = PushIdle last
  | PPushing i => (i < n)%nat /\ push_val k = Some (f i)
  | ProdFailed => False
  end.

Definition cons_ok (p : consumer) (k : pop_pc) : Prop :=
  match p with
  | CNext l => (length l <= n)%nat /\ exists last, k = PopIdle last
  | CPopping l => (length l < n)%nat /\ pop_busy k = true
  | ConsFailed => False
  end.

(** [l] is in the ring; [p] and [k] are the calls under way. *)
Record good_at (cap : Z) (s : sys) (pos : Z) (l : list Z) (p : push_pc) (k : pop_pc) : Prop := {
  g_rep : rep (queue (cfg s)) pos l;
  g_cap : capacity (queue (cfg s)) = cap;
  g_producers : producers (cfg s) = [p];
  g_consumers : consumers (cfg s) = [k];
  g_push : push_ok (queue (cfg s)) pos l p;
  g_pop : pop_ok (queue (cfg s)) l k;
  g_prod : prod_ok (prod s) p;
  g_cons : cons_ok (cons s) k;
  g_values : values (pushing (prod s)) = got (cons s) ++ l;
}.

Definition good (cap : Z) (s : sys) : Prop := exists pos l p k, good_at cap s pos l p k.

(** ** The work that is left: three accesses of each thread for each value *)
Definition prod_work (s : sys) (p : push_pc) : Z :=
  3 * (Z.of_nat n - Z.of_nat (pushing (prod s))) - Z.max 0 (push_rank p - 1).
Definition cons_work (s : sys) (k : pop_pc) : Z :=
  3 * (Z.of_nat n - Z.of_nat (length (got (cons s)))) - Z.max 0 (pop_rank k - 1).

Definition work (s : sys) : Z :=
  match producers (cfg s), consumers (cfg s) with
  | [p], [k] => prod_work s p + cons_work s k
  | _, _ => 0
  end.

(** Turns until a waiting thread looks at the queue. *)
Definition to_push (s : sys) : nat :=
  match prod s, producers (cfg s) with
  | PNext _, _ => 3
  | _, [PushStart _] => 2
  | _, _ => 1
  end.
Definition to_pop (s : sys) : nat :=
  match cons s, consumers (cfg s) with
  | CNext _, _ => 3
  | _, [PopStart] => 2
  | _, _ => 1
  end.

Definition ring (s : sys) : Z := len (queue (cfg s)).

Section invariant.
Context (cap : Z).

Lemma ring_at s pos l p k : good_at cap s pos l p k -> ring s = Z.of_nat (length l).
Proof using Type. intros []. by eapply len_rep. Qed.

Definition prod_done (s : sys) : Prop := prod s = PNext n.
Definition cons_done (s : sys) : Prop := exists l, cons s = CNext l /\ length l = n.

(** One turn of the producer does work, or it waits: it has not looked at the
    ring yet, or the ring is full. *)
Lemma producer_step s :
  good cap s -> let s' := step_producer s in
  good cap s' /\ cons s' = cons s /\ consumers (cfg s') = consumers (cfg s) /\
  (work s' = work s - 1 \/
   work s' = work s /\ ring s' = ring s /\ (prod_done s' <-> prod_done s) /\
   (prod_done s \/ (to_push s' < to_push s)%nat \/ ring s = cap)).
Proof using Type.
  intros (pos & l & p & k & Hg). pose proof Hg as []. cbn zeta. unfold step_producer.
  destruct (prod s) as [i|i|] eqn:Ep; [| |done]; cbn -[values] in g_prod0, g_values0.
  - destruct g_prod0 as (Hi & last & ->). destruct (Nat.ltb_spec i n) as [Hlt|].
    2: { split; [by eexists _, _, _, _|]. split; [done|]. split; [done|]. right. split; [done|].
         split; [done|]. split; [done|]. left. unfold prod_done. rewrite Ep. f_equal. lia. }
    unfold exec. rewrite g_producers0. cbn. split.
    { exists pos, l, (PushStart (f i)), k. split; cbn; try done. }
    split; [done|]. split; [done|]. right. unfold work, prod_work, cons_work, ring, to_push, prod_done.
    cbn. rewrite Ep, g_producers0, g_consumers0. cbn. split; [done|]. split; [done|].
    split; [split; [done|intros [= ->]; lia]|]. right. left. lia.
  - destruct g_prod0 as (Hi & Hv). unfold exec. rewrite g_producers0. cbn [list_lookup lookup].
    assert (Hbase : work s = prod_work s p + cons_work s k)
      by (unfold work; by rewrite g_producers0, g_consumers0).
    destruct (decide (Z.of_nat (length l) < cap)) as [Hroom|Hfull].
    + rewrite <- g_cap0 in Hroom.
      destruct (step_push_cases _ pos l p k _ g_rep0 g_push0 g_pop0 Hv Hroom)
        as (q' & p' & e & -> & Hc & [(Hv' & Hrank & Hr & Hpo & Hko)|(-> & Hrank & Hr & Hko)]).
      * assert (Ha : forall q cs, after_push i (mkC q [p'] cs) = PPushing i) by (by destruct p').
        change (<[0%nat:=p']> [p]) with [p']. rewrite Ha. split.
        { exists pos, l, p', k. split; cbn; try done. congruence. }
        split; [done|]. split; [done|]. unfold work, prod_work, cons_work, ring, to_push, prod_done.
        cbn [cfg producers consumers prod cons queue]. rewrite Ep, g_producers0, g_consumers0, Hrank.
        rewrite (len_rep _ _ _ Hr), (len_rep _ _ _ g_rep0).
        destruct p; cbn in Hv |- *; try done; cbn in Hrank.
        -- right. split; [lia|]. split; [done|]. split; [done|]. right. left.
           destruct p'; cbn in Hrank; try lia; lia.
        -- left. lia.
        -- left. lia.
        -- pose proof (push_rank_bound p'). lia.
      * change (<[0%nat:=PushIdle (Some true)]> [p]) with [PushIdle (Some true)].
        cbn [after_push producers lookup list_lookup]. split.
        { exists pos, (l ++ [f i]), (PushIdle (Some true)), k. split; cbn -[values]; try done; try congruence.
          - split; [lia|by eexists].
          - by rewrite spsc_values_S, g_values0, app_assoc. }
        split; [done|]. split; [done|]. left. unfold work, prod_work, cons_work.
        cbn [cfg producers consumers prod cons pushing]. rewrite Ep, g_producers0, g_consumers0, Hrank.
        cbn [pushing push_rank]. lia.
    + pose proof (rep_le _ _ _ g_rep0) as Hle. rewrite g_cap0 in Hle.
      destruct p as [| |v w|v w|v w|]; cbn in Hv, g_push0; try done;
        try (destruct_and?; exfalso; lia).
      * cbn. split.
        { exists pos, l, (PushRead v (write_pos (queue (cfg s)))), k. split; cbn; try done. }
        split; [done|]. split; [done|]. right. unfold work, prod_work, cons_work, ring, to_push, prod_done.
        cbn. rewrite Ep, g_producers0, g_consumers0. cbn. split; [lia|]. split; [done|]. split; [done|]. right. left. lia.
      * subst w. cbn. rewrite (rep_no_space _ _ _ g_rep0), g_cap0, (proj2 (Z.eqb_eq _ _)) by lia.
        cbn. split.
        { exists pos, l, (PushIdle (Some false)), k. split; cbn; try done. split; [lia|by eexists]. }
        split; [done|]. split; [done|]. right. unfold work, prod_work, cons_work, ring, prod_done.
        cbn. rewrite Ep, g_producers0, g_consumers0. cbn. split; [lia|]. split; [done|].
        split; [split; [intros [= ->]; lia|done]|].
        right. right. rewrite (len_rep _ _ _ g_rep0). lia.
Qed.
(** The same of the consumer: it waits as long as the ring is empty. *)
Lemma consumer_step s :
  good cap s -> let s' := step_consumer s in
  good cap s' /\ prod s' = prod s /\ producers (cfg s') = producers (cfg s) /\
  (work s' = work s - 1 \/
   work s' = work s /\ ring s' = ring s /\ (cons_done s' <-> cons_done s) /\
   (cons_done s \/ (to_pop s' < to_pop s)%nat \/ ring s = 0)).
Proof using Type.
  intros (pos & l & p & k & Hg). pose proof Hg as []. cbn zeta. unfold step_consumer.
  destruct (cons s) as [acc|acc|] eqn:Ec; [| |done]; cbn -[values] in g_cons0, g_values0.
  - destruct g_cons0 as (Hi & last & ->). destruct (Nat.ltb_spec (length acc) n) as [Hlt|].
    2: { split; [by eexists _, _, _, _|]. split; [done|]. split; [done|]. right. split; [done|].
         split; [done|]. split; [done|]. left. exists acc. split; [done|lia]. }
    unfold exec. rewrite g_consumers0. cbn. split.
    { exists pos, l, p, PopStart. split; cbn; try done. }
    split; [done|]. split; [done|]. right. unfold work, prod_work, cons_work, ring, to_pop, cons_done.
    cbn. rewrite Ec, g_producers0, g_consumers0. cbn. split; [done|]. split; [done|].
    split; [split; [by intros (? & ? & ?)|intros (? & [= ->] & ?); lia]|]. right. left. lia.
  - destruct g_cons0 as (Hi & Hb). unfold exec. rewrite g_consumers0. cbn [list_lookup lookup].
    destruct (step_pop_cases _ pos l k p g_rep0 g_pop0 g_push0 Hb)
      as (q' & k' & e & -> & Hc & [(Hb' & Hrank & Hr & Hko & Hpo)|[(-> & Hrank & -> & ->)|
            (v & l' & -> & Hrank & -> & Hr & Hpo)]]).
    + assert (Ha : forall q ps, after_pop acc (mkC q ps [k']) = CPopping acc) by (by destruct k').
      change (<[0%nat:=k']> [k]) with [k']. rewrite Ha. split.
      { exists pos, l, p, k'. split; cbn; try done. congruence. }
      split; [done|]. split; [done|]. unfold work, prod_work, cons_work, ring, to_pop, cons_done.
      cbn [cfg producers consumers prod cons queue]. rewrite Ec, g_producers0, g_consumers0, Hrank.
      rewrite (len_rep _ _ _ Hr), (len_rep _ _ _ g_rep0).
      destruct k; cbn in Hb |- *; try done; cbn in Hrank.
      * right. split; [lia|]. split; [done|]. split; [split; by intros (? & ? & ?)|]. right. left.
        destruct k'; cbn in Hrank; try lia; lia.
      * left. lia.
      * left. lia.
      * pose proof (pop_rank_bound k'). lia.
    + change (<[0%nat:=PopIdle (Some None)]> [k]) with [PopIdle (Some None)].
      cbn [after_pop consumers lookup list_lookup]. split.
      { exists pos, [], p, (PopIdle (Some None)). split; cbn -[values]; try done. split; [lia|by eexists]. }
      split; [done|]. split; [done|]. right. unfold work, prod_work, cons_work, ring, cons_done.
      cbn [cfg producers consumers prod cons queue]. rewrite Ec, g_producers0, g_consumers0, Hrank.
      cbn [got pop_rank]. split; [lia|]. split; [done|].
      split; [split; [intros (? & [= ->] & ?); lia|by intros (? & ? & ?)]|].
      right. right. by rewrite (len_rep _ _ _ g_rep0).
    + change (<[0%nat:=PopIdle (Some (Some v))]> [k]) with [PopIdle (Some (Some v))].
      cbn [after_pop consumers lookup list_lookup]. split.
      { exists (pos + 1), l', p, (PopIdle (Some (Some v))). split; cbn -[values]; try done; try congruence.
        - rewrite length_app. cbn. split; [lia|by eexists].
        - by rewrite g_values0, <- app_assoc. }
      split; [done|]. split; [done|]. left. unfold work, prod_work, cons_work.
      cbn [cfg producers consumers prod cons]. rewrite Ec, g_producers0, g_consumers0, Hrank.
      cbn [got pop_rank]. rewrite length_app. cbn [length]. lia.
Qed.

Lemma step_work t s : good cap s -> good cap (step t s) /\ work (step t s) <= work s.
Proof using Type.
  intros Hg. destruct t; cbn [step];
    [destruct (producer_step s Hg) as (H & _ & _ & Hw)|destruct (consumer_step s Hg) as (H & _ & _ & Hw)];
    (split; [done|lia]).
Qed.

Lemma run_threads_good sched s :
  good cap s -> good cap (run_threads sched s) /\ work (run_threads sched s) <= work s.
Proof using Type.
  revert s. induction sched as [|t sched IH]; intros s Hg; [done|].
  destruct (step_work t s Hg) as [Hg' Hw]. destruct (IH _ Hg') as [H1 H2]. split; [done|].
  change (run_threads (t :: sched) s) with (run_threads sched (step t s)). lia.
Qed.

(** How often [t] runs. *)
Definition turns (t : thread) (sched : list thread) : nat :=
  length (filter (fun u => u = t) sched).

(** A thread that could go on does so when it is given enough turns: [Q] holds
    as long as nothing is done, and each turn of [t] brings it closer. *)
Lemma wait_ends (Q : sys -> Prop) (m : sys -> nat) (t : thread) :
  (forall s, good cap s -> Q s -> (0 < m s)%nat) ->
  (forall u s, good cap s -> Q s -> work (step u s) < work s \/
     Q (step u s) /\ (m (step u s) + (if decide (u = t) then 1 else 0) <= m s)%nat) ->
  forall sched s, good cap s -> Q s -> (m s <= turns t sched)%nat -> work (run_threads sched s) < work s.
Proof using Type.
  intros Hpos Hstep sched. induction sched as [|u sched IH]; intros s Hg Hq Hm.
  { pose proof (Hpos s Hg Hq). unfold turns in Hm. cbn in Hm. lia. }
  change (run_threads (u :: sched) s) with (run_threads sched (step u s)).
  destruct (step_work u s Hg) as [Hg' _]. destruct (Hstep u s Hg Hq) as [Hw|[Hq' Hm']].
  - destruct (run_threads_good sched _ Hg') as [_ ?]. lia.
  - pose proof (step_work u s Hg) as [_ Hle].
    enough (work (run_threads sched (step u s)) < work (step u s)) by lia. apply IH; [done|done|].
    unfold turns in *. rewrite filter_cons in Hm. repeat case_decide; cbn in *; try done; lia.
Qed.

Lemma to_push_frame s s' :
  prod s' = prod s -> producers (cfg s') = producers (cfg s) -> to_push s' = to_push s.
Proof using Type. unfold to_push. by intros -> ->. Qed.
Lemma to_pop_frame s s' :
  cons s' = cons s -> consumers (cfg s') = consumers (cfg s) -> to_pop s' = to_pop s.
Proof using Type. unfold to_pop. by intros -> ->. Qed.

Lemma producer_goes_on sched s :
  good cap s -> ~ prod_done s -> ring s < cap -> (3 <= turns Producer sched)%nat ->
  work (run_threads sched s) < work s.
Proof using Type.
  intros Hg Hd Hr Ht.
  apply (wait_ends (fun s => ~ prod_done s /\ ring s < cap) to_push Producer); try done.
  - intros s1 _ _. unfold to_push. repeat case_match; lia.
  - intros u s1 Hg1 [Hd1 Hr1]. destruct u; cbn [step].
    + destruct (producer_step s1 Hg1) as (_ & _ & _ & [Hw|(Hw & Hring & Hdd & [Hd2|[Hlt|Hful]])]);
        [left; lia|done| |lia].
      right. split; [split; [by rewrite Hdd|by rewrite Hring]|]. rewrite decide_True by done. lia.
    + destruct (consumer_step s1 Hg1) as (_ & Hp & Hps & [Hw|(Hw & Hring & _)]); [left; lia|right].
      rewrite decide_False by done. rewrite (to_push_frame _ _ Hp Hps). unfold prod_done in *.
      rewrite Hp, Hring. split; [done|lia].
  - unfold to_push in *. repeat case_match; lia.
Qed.

Lemma consumer_goes_on sched s :
  good cap s -> ~ cons_done s -> 0 < ring s -> (3 <= turns Consumer sched)%nat ->
  work (run_threads sched s) < work s.
Proof using Type.
  intros Hg Hd Hr Ht.
  apply (wait_ends (fun s => ~ cons_done s /\ 0 < ring s) to_pop Consumer); try done.
  - intros s1 _ _. unfold to_pop. repeat case_match; lia.
  - intros u s1 Hg1 [Hd1 Hr1]. destruct u; cbn [step].
    + destruct (producer_step s1 Hg1) as (_ & Hp & Hps & [Hw|(Hw & Hring & _)]); [left; lia|right].
      rewrite decide_False by done. rewrite (to_pop_frame _ _ Hp Hps). unfold cons_done in *.
      rewrite Hp, Hring. split; [done|lia].
    + destruct (consumer_step s1 Hg1) as (_ & _ & _ & [Hw|(Hw & Hring & Hdd & [Hd2|[Hlt|Hful]])]);
        [left; lia|done| |lia].
      right. split; [split; [by rewrite Hdd|by rewrite Hring]|]. rewrite decide_True by done. lia.
  - unfold to_pop in *. repeat case_match; lia.
Qed.

Definition fair (sched : list thread) : Prop :=
  (3 <= turns Producer sched)%nat /\ (3 <= turns Consumer sched)%nat.

Definition finished (s : sys) : Prop := prod_done s /\ cons_done s.

(** Both cannot wait: a full ring has something to pop, an empty one has room. *)
Lemma fair_progress sched s :
  0 < cap -> good cap s -> fair sched -> work (run_threads sched s) < work s \/ finished s.
Proof using Type.
  intros Hcap Hg [Hp Hc]. pose proof Hg as (pos & l & p & k & Hga). pose proof (ring_at _ _ _ _ _ Hga) as Hr.
  destruct Hga. pose proof (f_equal length g_values0) as Hl. rewrite length_spsc_values, length_app in Hl.
  assert (Hpd : (pushing (prod s) <= n)%nat /\ (prod_done s \/ (pushing (prod s) < n)%nat)).
  { unfold prod_done. destruct (prod s) as [i|i|]; cbn in g_prod0 |- *; [| |done]; destruct g_prod0 as [Hi _].
    - split; [lia|]. destruct (decide (i = n)) as [->|]; [by left|right; lia].
    - split; [lia|right; lia]. }
  assert (Hcd : cons_done s \/ (length (got (cons s)) < n)%nat).
  { unfold cons_done. destruct (cons s) as [a|a|]; cbn in g_cons0 |- *; [| |done]; destruct g_cons0 as [Ha _].
    - destruct (decide (length a = n)); [left; eauto|right; lia].
    - by right. }
  destruct Hpd as [Hle Hpd]. destruct (decide (0 < ring s)) as [Hpos|Hzero].
  - left. apply consumer_goes_on; [done| |done|done]. intros (a & Ea & Hla). rewrite Ea in Hl. cbn in Hl. lia.
  - destruct Hpd as [Hpd|Hlt].
    + destruct Hcd as [Hcd|Hlt]; [by right|]. unfold prod_done in Hpd. rewrite Hpd in Hl. cbn in Hl. lia.
    + left. apply producer_goes_on; [done| |lia|done]. unfold prod_done. intros E. rewrite E in Hlt. cbn in Hlt. lia.
Qed.

Lemma finished_stays sched s : finished s -> run_threads sched s = s.
Proof using Type.
  intros [Hp (l & Hc & Hl)]. unfold prod_done in Hp. induction sched as [|t sched IH]; [done|].
  change (run_threads (t :: sched) s) with (run_threads sched (step t s)).
  assert (E : step t s = s); [|by rewrite E].
  destruct t; cbn [step]; unfold step_producer, step_consumer; rewrite ?Hp, ?Hc.
  - by rewrite (proj2 (Nat.ltb_ge n n)).
  - by rewrite (proj2 (Nat.ltb_ge _ n)) by lia.
Qed.

Lemma spsc_work_nonneg s : good cap s -> 0 <= work s.
Proof using Type.
  intros (pos & l & p & k & []). unfold work. rewrite g_producers0, g_consumers0.
  unfold prod_work, cons_work. pose proof (push_rank_bound p). pose proof (pop_rank_bound k).
  assert (pop_rank k <= 1 \/ (length (got (cons s)) < n)%nat).
  { destruct (cons s); cbn in g_cons0 |- *; [|right; apply g_cons0|done].
    destruct g_cons0 as (_ & ? & ->). left. cbn. lia. }
  assert (push_rank p <= 1 \/ (pushing (prod s) < n)%nat).
  { destruct (prod s); cbn in g_prod0 |- *; [|right; apply g_prod0|done].
    destruct g_prod0 as (_ & ? & ->). left. cbn. lia. }
  assert (length (got (cons s)) <= n)%nat
    by (destruct (cons s); cbn in g_cons0 |- *; try done; destruct g_cons0; lia).
  assert (pushing (prod s) <= n)%nat by (destruct (prod s); cbn in g_prod0 |- *; try done; destruct g_prod0; lia).
  lia.
Qed.

Lemma fair_rounds rounds s :
  0 < cap -> good cap s -> Forall fair rounds -> work s < Z.of_nat (length rounds) ->
  finished (run_threads (concat rounds) s).
Proof using Type.
  intros Hcap Hg Hf. revert s Hg. induction Hf as [|r rounds Hr _ IH]; intros s Hg Hw; cbn [length] in Hw.
  { pose proof (spsc_work_nonneg s Hg). lia. }
  cbn [concat]. unfold run_threads. rewrite foldl_app. fold (run_threads r s).
  fold (run_threads (concat rounds) (run_threads r s)).
  destruct (run_threads_good r s Hg) as [Hg' _]. destruct (fair_progress r s Hcap Hg Hr) as [Hlt|Hfin].
  - apply IH; [done|lia].
  - rewrite (finished_stays r s Hfin). by rewrite (finished_stays _ s Hfin).
Qed.
End invariant.

(** ** What the test asserts *)

Lemma spsc_start_good cap : 0 < cap <= 2 ^ 63 ->
  0 < capacity (new cap) /\ good (capacity (new cap)) (start cap) /\ work (start cap) = 6 * Z.of_nat n.
Proof using Type.
  intros Hc. pose proof (new_rep cap ltac:(lia)) as Hr. split; [|split].
  - pose proof (new_capacity cap ltac:(lia)) as [? _]. lia.
  - exists 0, [], (PushIdle None), (PopIdle None). split; cbn -[values]; try done; split; (lia || by eexists).
  - unfold work, prod_work, cons_work. cbn -[Z.mul Z.of_nat]. lia.
Qed.

(** In every interleaving: no panic, and a prefix of the values has arrived. *)
Theorem producer_consumer_fifo cap sched :
  0 < cap <= 2 ^ 63 ->
  let s := run_threads sched (start cap) in
  prod s <> ProdFailed /\ cons s <> ConsFailed /\ got (cons s) `prefix_of` values n.
Proof using Type.
  intros Hc s. destruct (spsc_start_good cap Hc) as (_ & Hg & _).
  destruct (run_threads_good _ sched _ Hg) as [(pos & l & p & k & Hga) _]. fold s in Hga. destruct Hga.
  split; [intros E; by rewrite E in g_prod0|]. split; [intros E; by rewrite E in g_cons0|].
  trans (values (pushing (prod s))); [by exists l|].
  assert (pushing (prod s) <= n)%nat by (destruct (prod s); cbn in g_prod0 |- *; try done; destruct g_prod0; lia).
  exists (f <$> seq (pushing (prod s)) (n - pushing (prod s))). unfold values.
  rewrite <- fmap_app. f_equal. replace n with (pushing (prod s) + (n - pushing (prod s)))%nat at 1 by lia.
  apply seq_app.
Qed.

(** C21: ([concurrent_producer_consumer])  Every schedule of more than [6 n]
    rounds, a round being any run that gives each thread three turns, ends both
    loops of the test, and the consumer has received all [n] values in order,
    whatever the capacity of the queue. *)
Theorem producer_consumer_ends cap rounds :
  0 < cap <= 2 ^ 63 -> Forall fair rounds -> (6 * n < length rounds)%nat ->
  let s := run_threads (concat rounds) (start cap) in
  prod s = PNext n /\ cons s = CNext (values n) /\ is_empty (queue (cfg s)) = true.
Proof using Type.
  intros Hc Hf Hn s. destruct (spsc_start_good cap Hc) as (Hcap & Hg & Hw).
  pose proof (fair_rounds _ rounds _ Hcap Hg Hf ltac:(lia)) as [Hp (acc & Hcs & Hacc)]. fold s in Hp, Hcs.
  destruct (run_threads_good _ (concat rounds) _ Hg) as [(pos & l & p & k & Hga) _].
  fold s in Hga. destruct Hga. unfold prod_done in Hp. rewrite Hp, Hcs in g_values0.
  cbn -[values] in g_values0. pose proof (f_equal length g_values0) as Hl.
  rewrite length_spsc_values, length_app in Hl. destruct l as [|x l]; [|cbn in Hl; lia].
  rewrite app_nil_r in g_values0. split; [done|]. split; [congruence|].
  by rewrite (is_empty_rep _ _ _ g_rep0).
Qed.
End test.

(** Three values through the smallest queue, the threads in strict alternation. *)
Definition example_round : list thread :=
  [Producer; Consumer; Producer; Consumer; Producer; Consumer].

Lemma producer_consumer_ends_witness :
  cons (run_threads 3 Z.of_nat (concat (replicate 19 example_round)) (start 1)) = CNext [0; 1; 2].
Proof.
  apply (producer_consumer_ends 3 Z.of_nat 1 (replicate 19 example_round)).
  - lia.
  - apply Forall_replicate. split; vm_compute; lia.
  - rewrite length_replicate. lia.
Defined.

(** ** [spsc_fifo_ordering]: a given number of pushes and pops *)

(** The values still to push, the pops still to make, what they gave. *)
Record loom := mkLoom {
  l_cfg : config;
  todo : list Z;
  pops : nat;
  popped_values : list Z;
}.

(** The results of [push] are ignored. *)
Definition loom_producer (s : loom) : loom :=
  match producers (l_cfg s) !! 0%nat, todo s with
  | Some (PushIdle _), v :: rest =>
      match exec (CallPush 0 v) (l_cfg s) with
      | Some (c, _) => mkLoom c rest (pops s) (popped_values s)
      | None => s
      end
  | _, _ =>
      match exec (RunPush 0) (l_cfg s) with
      | Some (c, _) => mkLoom c (todo s) (pops s) (popped_values s)
      | None => s
      end
  end.

Definition loom_consumer (s : loom) : loom :=
  match consumers (l_cfg s) !! 0%nat, pops s with
  | Some (PopIdle _), S k =>
      match exec (CallPop 0) (l_cfg s) with
      | Some (c, _) => mkLoom c (todo s) k (popped_values s)
      | None => s
      end
  | _, _ =>
      match exec (RunPop 0) (l_cfg s) with
      | Some (c, _) =>
          let got := match consumers c !! 0%nat with Some (PopIdle (Some (Some v))) => [v] | _ => [] end in
          mkLoom c (todo s) (pops s) (popped_values s ++ got)
      | None => s
      end
  end.

Definition loom_run (sched : list thread) (s : loom) : loom :=
  foldl (fun s t => match t with Producer => loom_producer s | Consumer => loom_consumer s end) s sched.

Definition spsc_fifo_ordering (sched : list thread) : loom :=
  loom_run sched (mkLoom (init (new 4) 1 1) [1; 2] 4 []).

(** [for w in values.windows(2) { assert!(w[0] < w[1]) }] *)
Fixpoint ascending (l : list Z) : bool :=
  match l with
  | x :: (y :: _) as rest => (x <? y) && ascending rest
  | _ => true
  end.

(** Of what is pushed, in order, some values may be refused by a full queue. *)
Definition loom_good (cap : Z) (program : list Z) (s : loom) : Prop :=
  exists n l p k, rep (queue (l_cfg s)) n l /\ capacity (queue (l_cfg s)) = cap /\
    producers (l_cfg s) = [p] /\ consumers (l_cfg s) = [k] /\
    push_ok (queue (l_cfg s)) n l p /\ pop_ok (queue (l_cfg s)) l k /\
    (popped_values s ++ l ++ option_list (push_val p) ++ todo s) `sublist_of` program.

Lemma push_effect q n l p k q' p' e :
  rep q n l -> push_ok q n l p -> pop_ok q l k -> step_push q p = Some (q', p', e) ->
  exists l', rep q' n l' /\ capacity q' = capacity q /\ push_ok q' n l' p' /\ pop_ok q' l' k /\
    (l' ++ option_list (push_val p')) `sublist_of` (l ++ option_list (push_val p)).
Proof.
  intros Hr Hp Hk Hs. destruct (step_push_inv _ _ _ _ _ _ _ _ Hr Hp Hk Hs) as (l' & He & Hr' & Hc & Hp' & Hk').
  exists l'. do 4 (split; [done|]). destruct p as [| |v w|v w|v w|]; cbn in Hs; try done.
  - simplify_eq. cbn in He. by simplify_eq.
  - destruct (no_space _ _ _); simplify_eq; cbn in He.
    + destruct (_ =? _) in He; simplify_eq. cbn. apply sublist_app; [done|apply sublist_nil_l].
    + by simplify_eq.
  - destruct (store_data _ _ _); simplify_eq; cbn in He; simplify_eq; [done|by cbn in Hp'..].
  - simplify_eq. cbn in He. destruct (_ <? _) in He; simplify_eq. cbn. by rewrite app_nil_r.
Qed.

Lemma pop_effect q n l p k q' k' e :
  rep q n l -> pop_ok q l k -> push_ok q n l p -> step_pop q k = Some (q', k', e) ->
  exists n' l', rep q' n' l' /\ capacity q' = capacity q /\ pop_ok q' l' k' /\ push_ok q' n' l' p /\
    match k' with PopIdle (Some (Some v)) => [v] | _ => [] end ++ l' = l.
Proof.
  intros Hr Hk Hp Hs. destruct (step_pop_inv _ _ _ _ _ _ _ _ Hr Hk Hp Hs) as (l' & He & Hr' & Hc & Hk' & Hp').
  eexists _, l'. do 4 (split; [done|]). destruct k as [| |r|r|r v|]; cbn in Hs; try done.
  - simplify_eq. cbn in He. by simplify_eq.
  - destruct (_ =? _); simplify_eq; cbn in He; [destruct l; by simplify_eq|by simplify_eq].
  - destruct (data q !! _); simplify_eq; cbn in He; by simplify_eq.
  - simplify_eq. cbn in He. destruct l as [|x l]; [done|]. destruct (v =? x) eqn:E; simplify_eq.
    cbn. apply Z.eqb_eq in E. by subst.
Qed.

Lemma loom_good_producer cap program s : loom_good cap program s -> loom_good cap program (loom_producer s).
Proof.
  intros Hg. pose proof Hg as (n & l & p & k & Hr & Hc & Hps & Hcs & Hp & Hk & Hsub). unfold loom_producer, exec.
  rewrite Hps. cbn [lookup list_lookup].
  assert (Hrun : forall q' p' e, step_push (queue (l_cfg s)) p = Some (q', p', e) ->
    loom_good cap program (mkLoom (mkC q' [p'] (consumers (l_cfg s))) (todo s) (pops s) (popped_values s))).
  { intros q' p' e Hs. destruct (push_effect _ _ _ _ _ _ _ _ Hr Hp Hk Hs) as (l' & Hr' & Hc' & Hp' & Hk' & He).
    exists n, l', p', k. cbn. split; [done|]. split; [congruence|]. do 4 (split; [done|]).
    etrans; [|exact Hsub]. apply sublist_app; [done|]. rewrite !app_assoc. by apply sublist_app. }
  assert (Hstay : match step_push (queue (l_cfg s)) p with
    | Some (q', p', _) => loom_good cap program
        (mkLoom (mkC q' [p'] (consumers (l_cfg s))) (todo s) (pops s) (popped_values s))
    | None => True end).
  { destruct (step_push _ p) as [[[q' p'] e]|]; [by eapply Hrun|done]. }
  destruct p as [last|v|v w|v w|v w|]; try (destruct (step_push _ _) as [[[q' p'] e]|]; done).
  destruct (todo s) as [|v rest] eqn:Et; cbn; [done|].
  exists n, l, (PushStart v), k. cbn. rewrite Hcs. do 6 (split; [done|]). done.
Qed.

Lemma loom_good_consumer cap program s : loom_good cap program s -> loom_good cap program (loom_consumer s).
Proof.
  intros Hg. pose proof Hg as (n & l & p & k & Hr & Hc & Hps & Hcs & Hp & Hk & Hsub). unfold loom_consumer, exec.
  rewrite Hcs. cbn [lookup list_lookup].
  assert (Hrun : match step_pop (queue (l_cfg s)) k with
    | Some (q', k', _) => loom_good cap program
        (mkLoom (mkC q' (producers (l_cfg s)) [k']) (todo s) (pops s)
           (popped_values s ++ match k' with PopIdle (Some (Some v)) => [v] | _ => [] end))
    | None => True end).
  { destruct (step_pop _ k) as [[[q' k'] e]|] eqn:Hs; [|done].
    destruct (pop_effect _ _ _ _ _ _ _ _ Hr Hk Hp Hs) as (n' & l' & Hr' & Hc' & Hk' & Hp' & He).
    exists n', l', p, k'. cbn. split; [done|]. split; [congruence|]. do 4 (split; [done|]).
    rewrite <- He in Hsub. by rewrite <- !app_assoc in *. }
  destruct k as [last| |w|w|w v|]; try (destruct (step_pop _ _) as [[[q' k'] e]|]; done).
  destruct (pops s) as [|j] eqn:Et; cbn; [done|].
  exists n, l, p, PopStart. cbn. rewrite Hps. do 6 (split; [done|]). done.
Qed.

Lemma loom_run_good cap program sched s : loom_good cap program s -> loom_good cap program (loom_run sched s).
Proof.
  revert s. induction sched as [|t sched IH]; intros s Hg; [done|]. cbn. apply IH.
  destruct t; [by apply loom_good_producer|by apply loom_good_consumer].
Qed.

Lemma sublist_sorted (l k : list Z) : StronglySorted Z.lt l -> k `sublist_of` l -> StronglySorted Z.lt k.
Proof.
  intros Hl Hs. revert Hl. induction Hs as [|x k l Hs IH|x k l Hs IH]; intros Hl; [done|..];
    apply StronglySorted_inv in Hl as [Hl Hx]; [|by apply IH].
  constructor; [by apply IH|]. apply Forall_forall. intros y Hy. rewrite Forall_forall in Hx. apply Hx.
  by eapply elem_of_sublist.
Qed.

Lemma sorted_ascending l : StronglySorted Z.lt l -> ascending l = true.
Proof.
  induction 1 as [|x l Hl IH Hx]; [done|]. destruct l as [|y l]; [done|].
  apply Forall_inv in Hx. change ((x <? y) && ascending (y :: l) = true).
  rewrite IH. by rewrite (proj2 (Z.ltb_lt x y)).
Qed.

(** A queue that is used by a producer of ascending values never hands them out
    in another order, whatever the interleaving. *)
Theorem loom_ascending cap program pops sched :
  0 <= cap <= 2 ^ 63 -> StronglySorted Z.lt program ->
  ascending (popped_values (loom_run sched (mkLoom (init (new cap) 1 1) program pops []))) = true.
Proof.
  intros Hc Hsorted. set (s := loom_run _ _).
  assert (Hg : loom_good (capacity (new cap)) program s).
  { apply loom_run_good. exists 0, [], (PushIdle None), (PopIdle None). cbn.
    split; [by apply new_rep|]. by do 5 (split; [done|]). }
  destruct Hg as (n & l & p & k & _ & _ & _ & _ & _ & _ & Hsub).
  apply sorted_ascending, (sublist_sorted program); [done|].
  etrans; [|exact Hsub]. apply sublist_inserts_r. done.
Qed.

Lemma spsc_fifo_ordering_ascending sched : ascending (popped_values (spsc_fifo_ordering sched)) = true.
Proof. apply (loom_ascending 4 [1; 2] 4 sched); [lia|]. repeat constructor; lia. Defined.
End SpscLoop.
