(* ===== verification/WeakMemory.v ===== *)
(** * Release and acquire accesses

    The memory model of Rust's atomics, as far as loads and stores without
    fences use it, in its operational form.  A location keeps every value stored
    to it, in order; a view says how far a thread has seen each location.  A
    load may return any value not older than the thread's view of the location:
    the schedule chooses.  A [Release] store attaches the view of its thread to
    the value, and an [Acquire] load that reads it takes that view over.
    Non-atomic accesses behave like [Relaxed] ones.

    Two things are simpler than in the general model.  A store comes last in the
    order of its location, which loses nothing when each location is written by
    one thread, as in the machines built on this file; and loads only read from
    stores that have been executed. *)
From S2P Require Import Prelude.

(** [Ordering], for loads and for stores. *)
Inductive ordering := Relaxed | Acquire | Release.

Section memory.
Context {Loc : Type} `{EqDecision Loc}.

(** A function changed at one location. *)
Definition upd {A} (l : Loc) (x : A) (f : Loc -> A) : Loc -> A :=
  fun l' => if decide (l' = l) then x else f l'.

Lemma upd_eq {A} l (x : A) f : upd l x f l = x.
Proof using Type. unfold upd. by rewrite decide_True. Qed.
Lemma upd_ne {A} l l' (x : A) f : l' <> l -> upd l x f l' = f l'.
Proof using Type. intros. unfold upd. by rewrite decide_False. Qed.

Definition view := Loc -> nat.

Record message := Msg { val : Z; msg_view : view }.

Definition memory := Loc -> list message.

Definition bottom : view := fun _ => 0%nat.
Definition join (V W : view) : view := fun l => V l `max` W l.

(** Every location starts with one value that every thread has seen. *)
Definition initial (f : Loc -> Z) : memory := fun l => [Msg (f l) bottom].

(** [ts] is the place, in the order of [l], of the value that is read. *)
Definition load (o : ordering) (l : Loc) (ts : nat) (M : memory) (V : view) : option (Z * view) :=
  if decide (V l <= ts)%nat then
    match M l !! ts with
    | Some m =>
        let V := upd l ts V in
        Some (val m, match o with Acquire => join V (msg_view m) | _ => V end)
    | None => None
    end
  else None.

Definition store (o : ordering) (l : Loc) (v : Z) (M : memory) (V : view) : memory * view :=
  let ts := length (M l) in
  let V := upd l ts V in
  (upd l (M l ++ [Msg v match o with Release => V | _ => upd l ts bottom end]) M, V).

(** A read-modify-write reads the last value of the location and stores the one
    that comes next.  Its store passes on the view that was read with the value,
    whatever the orderings [rd] of the load and [wr] of the store. *)
Definition rmw (rd wr : ordering) (l : Loc) (v : Z) (M : memory) (V : view) : memory * view :=
  match last (M l) with
  | Some m =>
      let ts := length (M l) in
      let V := upd l ts match rd with Acquire => join V (msg_view m) | _ => V end in
      let W := upd l ts match wr with Release => join V (msg_view m) | _ => msg_view m end in
      (upd l (M l ++ [Msg v W]) M, V)
  | None => (M, V)
  end.

(** ** Order on views *)

Definition view_le (V W : view) : Prop := forall l, (V l <= W l)%nat.

#[export] Instance view_le_preorder : PreOrder view_le.
Proof. split; [intros V l; lia|intros U V W H1 H2 l; specialize (H1 l); specialize (H2 l); lia]. Qed.

Lemma join_l V W : view_le V (join V W).
Proof using Type. intros l. unfold join. lia. Qed.
Lemma join_r V W : view_le W (join V W).
Proof using Type. intros l. unfold join. lia. Qed.

(** A view of a memory points at values that are there, also the views that the
    values carry. *)
Definition closed (M : memory) (V : view) : Prop := forall l, (V l < length (M l))%nat.
Definition wf_memory (M : memory) : Prop := forall l m, m ∈ M l -> closed M (msg_view m).

Definition grows (M M' : memory) : Prop := forall l, exists ms, M' l = M l ++ ms.

Lemma grows_lookup M M' l ts m : grows M M' -> M l !! ts = Some m -> M' l !! ts = Some m.
Proof using Type. intros Hg Hm. destruct (Hg l) as [ms ->]. by apply lookup_app_l_Some. Qed.

Lemma grows_length M M' l : grows M M' -> (length (M l) <= length (M' l))%nat.
Proof using Type. intros Hg. destruct (Hg l) as [ms ->]. rewrite length_app. lia. Qed.

Lemma closed_grows M M' V : grows M M' -> closed M V -> closed M' V.
Proof using Type. intros Hg Hc l. pose proof (grows_length M M' l Hg). specialize (Hc l). lia. Qed.

Lemma initial_wf f : wf_memory (initial f).
Proof using Type. intros l m ->%list_elem_of_singleton l'. cbn. unfold bottom. lia. Qed.

Lemma initial_closed f : closed (initial f) bottom.
Proof using Type. intros l. cbn. unfold bottom. lia. Qed.

(** ** Loads *)

(** What a load gives: a value of the location, and a view that knows it. *)
Record loaded (o : ordering) (l : Loc) (ts : nat) (M : memory) (V : view) (v : Z) (V' : view) : Prop := {
  ld_ts : (V l <= ts < length (M l))%nat;
  ld_msg : exists m, M l !! ts = Some m /\ val m = v /\ (o = Acquire -> view_le (msg_view m) V') /\
    (forall l', V' l' <= Nat.max ((upd l ts V) l') (match o with Acquire => msg_view m l' | _ => 0 end))%nat;
  ld_grows : view_le V V';
  ld_at : (ts <= V' l)%nat;
}.

Lemma load_loaded o l ts M V v V' : load o l ts M V = Some (v, V') -> loaded o l ts M V v V'.
Proof using Type.
  unfold load. case_decide as Hle; [|done]. destruct (M l !! ts) as [m|] eqn:E; [|done]. intros [= <- <-].
  assert (Hg : view_le V (upd l ts V)).
  { intros l'. destruct (decide (l' = l)) as [->|]; [rewrite upd_eq|rewrite upd_ne by done]; done. }
  split.
  - split; [done|]. by eapply lookup_lt_Some.
  - exists m. split; [done|]. split; [done|]. split.
    + intros ->. apply join_r.
    + intros l'. destruct o; unfold join; lia.
  - etrans; [exact Hg|]. destruct o; [done|apply join_l|done].
  - trans ((upd l ts V) l); [by rewrite upd_eq|]. destruct o; [done|apply join_l|done].
Qed.

Lemma load_some o l ts M V : (V l <= ts < length (M l))%nat -> is_Some (load o l ts M V).
Proof using Type.
  intros [Hle Hlt]. unfold load. rewrite decide_True by done.
  destruct (lookup_lt_is_Some_2 _ _ Hlt) as [m ->]. by eexists.
Qed.

Lemma loaded_closed o l ts M V v V' :
  loaded o l ts M V v V' -> wf_memory M -> closed M V -> closed M V'.
Proof using Type.
  intros [Hts (m & Hm & _ & _ & Hle) _ _] Hwf Hc l'. specialize (Hle l').
  assert (Hm' : (msg_view m l' < length (M l'))%nat) by (apply (Hwf l); by eapply list_elem_of_lookup_2).
  specialize (Hc l'). destruct (decide (l' = l)) as [->|].
  - rewrite upd_eq in Hle. destruct o; lia.
  - rewrite upd_ne in Hle by done. destruct o; lia.
Qed.

(** ** Stores *)

Record stored (o : ordering) (l : Loc) (v : Z) (M : memory) (V : view) (M' : memory) (V' : view) : Prop := {
  st_new : exists m, M' l = M l ++ [m] /\ val m = v /\ (o = Release -> msg_view m = V') /\
    msg_view m l = length (M l) /\ view_le (msg_view m) V';
  st_other : forall l', l' <> l -> M' l' = M l';
  st_view : V' l = length (M l) /\ forall l', l' <> l -> V' l' = V l';
}.

Lemma store_stored o l v M V : stored o l v M V (store o l v M V).1 (store o l v M V).2.
Proof using Type.
  split; cbn.
  - eexists. split; [by rewrite upd_eq|]. cbn. split; [done|].
    split; [by intros ->|]. split; [destruct o; by rewrite upd_eq|].
    destruct o; try done; intros l'; (destruct (decide (l' = l)) as [->|Hne];
      [by rewrite !upd_eq|rewrite upd_ne by done; unfold bottom; lia]).
  - intros l' Hne. by rewrite upd_ne.
  - split; [by rewrite upd_eq|]. intros l' Hne. by rewrite upd_ne.
Qed.

Lemma stored_grows o l v M V M' V' : stored o l v M V M' V' -> grows M M'.
Proof using EqDecision0.
  intros [(m & Hm & _) Ho _] l'. destruct (decide (l' = l)) as [->|Hne]; [by exists [m]|].
  exists []. by rewrite Ho, app_nil_r.
Qed.

Lemma stored_view o l v M V M' V' : stored o l v M V M' V' -> closed M V -> view_le V V'.
Proof using EqDecision0.
  intros [_ _ [Hl Ho]] Hc l'. specialize (Hc l'). destruct (decide (l' = l)) as [->|Hne]; [lia|]. by rewrite Ho.
Qed.

Lemma stored_closed o l v M V M' V' :
  stored o l v M V M' V' -> wf_memory M -> closed M V -> wf_memory M' /\ closed M' V'.
Proof using EqDecision0.
  intros Hst Hwf Hc. pose proof (stored_grows _ _ _ _ _ _ _ Hst) as Hg.
  destruct Hst as [(m & Hm & _ & _ & _ & Hle) Ho [Hl Hv]].
  assert (Hc' : closed M' V').
  { intros l'. destruct (decide (l' = l)) as [->|Hne].
    - rewrite Hl, Hm, length_app. cbn. lia.
    - rewrite Hv by done. by apply (closed_grows M). }
  split; [|done]. intros l' m' Hin. destruct (decide (l' = l)) as [->|Hne].
  - rewrite Hm in Hin. apply elem_of_app in Hin as [Hin|Hin].
    + apply (closed_grows M); [done|]. by apply (Hwf l).
    + apply list_elem_of_singleton in Hin as ->. intros l'. specialize (Hle l'). specialize (Hc' l'). lia.
  - rewrite Ho in Hin by done. apply (closed_grows M); [done|]. by apply (Hwf l').
Qed.

(** ** Read-modify-writes *)

Record updated (rd wr : ordering) (l : Loc) (v : Z) (M : memory) (V : view) (M' : memory) (V' : view) : Prop := {
  up_msgs : exists m m', last (M l) = Some m /\ M' l = M l ++ [m'] /\ val m' = v /\
    msg_view m' l = length (M l) /\ view_le (msg_view m) (msg_view m') /\
    (rd = Acquire -> view_le (msg_view m) V') /\ (wr = Release -> view_le V' (msg_view m'));
  up_other : forall l', l' <> l -> M' l' = M l';
  up_at : V' l = length (M l);
  up_le : view_le V V';
  up_closed : wf_memory M' /\ closed M' V';
}.

Lemma view_le_upd l k V W : (V l <= k)%nat -> view_le V W -> view_le V (upd l k W).
Proof using Type.
  intros Hk Hle l'. destruct (decide (l' = l)) as [->|Hne]; [by rewrite upd_eq|]. by rewrite upd_ne.
Qed.

Lemma upd_mono l k V W : view_le V W -> view_le (upd l k V) (upd l k W).
Proof using Type.
  intros Hle l'. destruct (decide (l' = l)) as [->|Hne]; [by rewrite !upd_eq|]. by rewrite !upd_ne.
Qed.

Lemma closed_join M V W : closed M V -> closed M W -> closed M (join V W).
Proof using Type. intros H1 H2 l. specialize (H1 l). specialize (H2 l). unfold join. lia. Qed.

(** Views stay inside a memory that has one value more. *)
Lemma closed_upd M V l m : closed M V -> closed (upd l (M l ++ [m]) M) (upd l (length (M l)) V).
Proof using Type.
  intros Hc l'. destruct (decide (l' = l)) as [->|Hne].
  - rewrite !upd_eq, length_app. cbn. lia.
  - rewrite !upd_ne by done. apply Hc.
Qed.

Lemma grows_upd M l m : grows M (upd l (M l ++ [m]) M).
Proof using Type.
  intros l'. destruct (decide (l' = l)) as [->|Hne]; [rewrite upd_eq; by eexists|].
  exists []. by rewrite upd_ne, app_nil_r.
Qed.

Lemma closed_at M l k V : (k < length (M l))%nat -> closed M V -> closed M (upd l k V).
Proof using Type.
  intros Hk Hc l'. destruct (decide (l' = l)) as [->|Hne]; [by rewrite upd_eq|]. rewrite upd_ne by done. apply Hc.
Qed.

Lemma rmw_updated rd wr l v M V : wf_memory M -> closed M V ->
  updated rd wr l v M V (rmw rd wr l v M V).1 (rmw rd wr l v M V).2.
Proof using Type.
  intros Hwf Hc. unfold rmw. destruct (last (M l)) as [m|] eqn:El.
  2:{ apply last_None in El. specialize (Hc l). rewrite El in Hc. cbn in Hc. lia. }
  assert (Hm : closed M (msg_view m)) by (apply (Hwf l); apply last_Some in El as [? ->]; set_solver).
  set (V1 := match rd with Acquire => join V (msg_view m) | _ => V end).
  assert (Hc1 : closed M V1) by (destruct rd; [done|by apply closed_join|done]).
  assert (Hle : view_le V V1) by (destruct rd; [done|apply join_l|done]).
  set (V' := upd l (length (M l)) V1).
  assert (HV' : view_le V V') by (apply view_le_upd; [specialize (Hc l); lia|done]).
  set (W := upd l (length (M l)) match wr with Release => join V' (msg_view m) | _ => msg_view m end).
  assert (HmW : view_le (msg_view m) W).
  { apply view_le_upd; [specialize (Hm l); lia|]. destruct wr; [done|done|apply join_r]. }
  assert (HcW : closed (upd l (M l ++ [Msg v W]) M) W).
  { pose proof (closed_grows _ _ _ (grows_upd M l (Msg v W)) Hm) as H1.
    pose proof (closed_upd M V1 l (Msg v W) Hc1) as H2. fold V' in H2.
    apply closed_at; [|destruct wr; [done|done|by apply closed_join]].
    rewrite upd_eq, length_app. cbn. lia. }
  split; cbn [fst snd].
  - exists m, (Msg v W). split; [done|]. rewrite upd_eq. split; [done|]. split; [done|]. cbn.
    split; [by unfold W; rewrite upd_eq|]. split; [done|]. split.
    + intros ->. apply view_le_upd; [specialize (Hm l); lia|apply join_r].
    + intros ->. apply view_le_upd; [unfold V'; by rewrite upd_eq|apply join_l].
  - intros l' Hne. by rewrite upd_ne.
  - unfold V'. by rewrite upd_eq.
  - done.
  - split; [|by apply closed_upd]. intros l' m' Hin. destruct (decide (l' = l)) as [->|Hne].
    + rewrite upd_eq in Hin. apply elem_of_app in Hin as [Hin|Hin]; [|apply list_elem_of_singleton in Hin as ->; done].
      apply (closed_grows M); [apply grows_upd|by apply (Hwf l)].
    + rewrite upd_ne in Hin by done. apply (closed_grows M); [apply grows_upd|by apply (Hwf l')].
Qed.

Lemma updated_grows rd wr l v M V M' V' : updated rd wr l v M V M' V' -> grows M M'.
Proof using EqDecision0.
  intros [(m & m' & _ & Hm & _) Ho _ _ _] l'. destruct (decide (l' = l)) as [->|Hne]; [by exists [m']|].
  exists []. by rewrite Ho, app_nil_r.
Qed.

(** ** The latest values: sequential consistency is one way to load *)

Definition latest (M : memory) (l : Loc) : Z :=
  match last (M l) with Some m => val m | None => 0%Z end.

Lemma load_latest o l M V : wf_memory M -> closed M V ->
  exists ts V', load o l ts M V = Some (latest M l, V') /\ S ts = length (M l) /\ closed M V'.
Proof using Type.
  intros Hwf Hc. pose proof (Hc l) as Hl. exists (pred (length (M l))).
  destruct (load_some o l (pred (length (M l))) M V ltac:(lia)) as [[v V'] Hv]. exists V'.
  pose proof (load_loaded _ _ _ _ _ _ _ Hv) as Hld. split; [|split; [lia|by apply (loaded_closed _ _ _ _ _ _ _ Hld)]].
  destruct Hld as [_ (m & Hm & <- & _) _ _]. rewrite Hv. unfold latest. by rewrite last_lookup, Hm.
Qed.

Lemma store_latest o l v M V M' V' : stored o l v M V M' V' ->
  latest M' l = v /\ forall l', l' <> l -> latest M' l' = latest M l'.
Proof using Type.
  intros [(m & Hm & Hv & _) Ho _]. unfold latest. split; [by rewrite Hm, last_snoc|].
  intros l' Hne. by rewrite Ho.
Qed.

Lemma updated_latest rd wr l v M V M' V' : updated rd wr l v M V M' V' ->
  latest M' l = v /\ forall l', l' <> l -> latest M' l' = latest M l'.
Proof using Type.
  intros [(m & m' & _ & Hm & Hv & _) Ho _ _ _]. unfold latest. split; [by rewrite Hm, last_snoc|].
  intros l' Hne. by rewrite Ho.
Qed.

Lemma latest_msg M l m : last (M l) = Some m -> latest M l = val m.
Proof using Type. unfold latest. by intros ->. Qed.

(** A view that is at the end of a location can only load its latest value. *)
Lemma load_current o l ts M V v V' :
  load o l ts M V = Some (v, V') -> (length (M l) <= S (V l))%nat -> v = latest M l /\ S ts = length (M l).
Proof using Type.
  intros Hl Hc. apply load_loaded in Hl. destruct Hl as [Hts (m & Hm & <- & _) _ _].
  assert (ts = pred (length (M l))) as -> by lia. split; [|lia]. unfold latest. by rewrite last_lookup, Hm.
Qed.
End memory.
Arguments message Loc : clear implicits.
Arguments memory Loc : clear implicits.
Arguments view Loc : clear implicits.
