(* ===== verification/SpscWeak.v ===== *)
(** * SpscQueue with the memory orderings of the source
    (crates/entangle-lockfree/src/spsc_queue.rs)

    The machine of SpscConc.v again, for one producer and one consumer, on the
    memory of WeakMemory.v: every access has the ordering that the code gives it,
    and a load returns any value that the ordering allows.  The queue is still
    first-in first-out and loses nothing, and what the producer wrote before a
    push is visible after the pop of that value: the payload of a sample, which
    sample.rs (crates/entangle) writes and reads without atomics.  The
    producer's other stores, [WriteCell], and the consumer's other loads,
    [ReadCell], stand for those. *)
From S2P Require Import Prelude WeakMemory Spsc SpscConc.
#[local] Open Scope Z_scope.

Module SpscWeak.
Import SpscQueue SpscThreads.

(** The atomics of the queue; and the memory that the values pushed point to,
    which the producer writes and the consumer reads without synchronisation. *)
Inductive loc := WritePos | ReadPos | Data (i : nat) | Cell (x : nat).
#[export] Instance loc_eq_dec : EqDecision loc.
Proof. solve_decision. Defined.

(** [shown] (ghost): the view of the producer at the end of each push. *)
Record config := mkC {
  mem : memory loc;
  p_view : view loc;
  producer : push_pc;
  c_view : view loc;
  consumer : pop_pc;
  shown : list (view loc);
}.

(** Everyone has seen the constructor's zeroes. *)
Definition init : config :=
  mkC (initial (fun _ => 0)) bottom (PushIdle None) bottom (PopIdle None) [].

Section machine.
(** Only [capacity] and [mask] of [q] are read: they never change. *)
Context (q : SpscQueue).

(** One step of [push]; a load reads the value at place [ts]. *)
Definition step_push (ts : nat) (M : memory loc) (V : view loc) (p : push_pc)
    : option (memory loc * view loc * push_pc * list event) :=
  match p with
  | PushIdle _ | PushPanic => None
  | PushStart v =>
      match load Relaxed WritePos ts M V with
      | Some (write, V) => Some (M, V, PushRead v write, [])
      | None => None
      end
  | PushRead v write =>
      match load Acquire ReadPos ts M V with
      | Some (read, V) =>
          if no_space q write read then Some (M, V, PushIdle (Some false), [PushFull])
          else Some (M, V, PushStore v write, [])
      | None => None
      end
  | PushStore v write =>
      let idx := Z.to_nat (Z.land write (mask q)) in
      if decide (idx < length (data q))%nat then
        let (M, V) := store Release (Data idx) v M V in
        Some (M, V, PushPublish v write, [])
      else Some (M, V, PushPanic, [])
  | PushPublish v write =>
      let (M, V) := store Release WritePos (wrapping_add 64 write 1) M V in
      Some (M, V, PushIdle (Some true), [Pushed v])
  end.

Definition step_pop (ts : nat) (M : memory loc) (V : view loc) (p : pop_pc)
    : option (memory loc * view loc * pop_pc * list event) :=
  match p with
  | PopIdle _ | PopPanic => None
  | PopStart =>
      match load Relaxed ReadPos ts M V with
      | Some (read, V) => Some (M, V, PopRead read, [])
      | None => None
      end
  | PopRead read =>
      match load Acquire WritePos ts M V with
      | Some (write, V) =>
          if read =? write then Some (M, V, PopIdle (Some None), [PopEmpty])
          else Some (M, V, PopLoad read, [])
      | None => None
      end
  | PopLoad read =>
      let idx := Z.to_nat (Z.land read (mask q)) in
      if decide (idx < length (data q))%nat then
        match load Acquire (Data idx) ts M V with
        | Some (v, V) => Some (M, V, PopAdvance read v, [])
        | None => None
        end
      else Some (M, V, PopPanic, [])
  | PopAdvance read v =>
      let (M, V) := store Release ReadPos (wrapping_add 64 read 1) M V in
      Some (M, V, PopIdle (Some (Some v)), [Popped v])
  end.

(** Between calls the producer stores to cells and the consumer loads from them. *)
Inductive action :=
| CallPush (v : Z)
| RunPush (ts : nat)
| WriteCell (x : nat) (v : Z)
| CallPop
| RunPop (ts : nat)
| ReadCell (x ts : nat).

Definition exec (a : action) (c : config) : option (config * list event) :=
  match a with
  | CallPush v =>
      match producer c with
      | PushIdle _ => Some (mkC (mem c) (p_view c) (PushStart v) (c_view c) (consumer c) (shown c), [])
      | _ => None
      end
  | RunPush ts =>
      match step_push ts (mem c) (p_view c) (producer c) with
      | Some (M, V, p, e) =>
          Some (mkC M V p (c_view c) (consumer c) (shown c ++ match e with [Pushed _] => [V] | _ => [] end), e)
      | None => None
      end
  | WriteCell x v =>
      match producer c with
      | PushIdle _ =>
          let (M, V) := store Relaxed (Cell x) v (mem c) (p_view c) in
          Some (mkC M V (producer c) (c_view c) (consumer c) (shown c), [])
      | _ => None
      end
  | CallPop =>
      match consumer c with
      | PopIdle _ => Some (mkC (mem c) (p_view c) (producer c) (c_view c) PopStart (shown c), [])
      | _ => None
      end
  | RunPop ts =>
      match step_pop ts (mem c) (c_view c) (consumer c) with
      | Some (M, V, p, e) => Some (mkC M (p_view c) (producer c) V p (shown c), e)
      | None => None
      end
  | ReadCell x ts =>
      match consumer c, load Relaxed (Cell x) ts (mem c) (c_view c) with
      | PopIdle _, Some (_, V) => Some (mkC (mem c) (p_view c) (producer c) V (consumer c) (shown c), [])
      | _, _ => None
      end
  end.

Fixpoint run (sched : list action) (c : config) : option (config * list event) :=
  match sched with
  | [] => Some (c, [])
  | a :: sched =>
      match exec a c with
      | None => None
      | Some (c1, e1) =>
          match run sched c1 with None => None | Some (c2, e2) => Some (c2, e1 ++ e2) end
      end
  end.

(** ** The invariant *)

Context (Hq : shape q).
#[local] Abbreviation cap := (Z.to_nat (capacity q)).

(** The slot of push number [j], and its place in the order of that slot. *)
Definition slot_of (j : nat) : loc := Data (j mod cap).
Definition turn_of (j : nat) : nat := S (j / cap).

(** A push whose value is stored but not published. *)
Definition stored_value (p : push_pc) : list Z :=
  match p with PushPublish v _ => [v] | _ => [] end.

(** What a view knows if it knows [k] pushes: their values, and all that the
    producer had seen and written before. *)
Definition knows (sv : list (view loc)) (k : nat) (V : view loc) : Prop :=
  forall j, (j < k)%nat -> (turn_of j <= V (slot_of j))%nat /\ forall W, sv !! j = Some W -> view_le W V.

(** [ps] has been published; [all] are the values in the slots; [m] pops. *)
Record memory_ok (M : memory loc) (sv : list (view loc)) (ps all : list Z) (m : nat) : Prop := {
  mo_wf : wf_memory M;
  mo_write_length : length (M WritePos) = S (length ps);
  mo_write : forall k msg, M WritePos !! k = Some msg ->
    val msg = wrap 64 (Z.of_nat k) /\ msg_view msg WritePos = k /\ knows sv k (msg_view msg);
  mo_read_length : length (M ReadPos) = S m;
  mo_read : forall k msg, M ReadPos !! k = Some msg ->
    val msg = wrap 64 (Z.of_nat k) /\ msg_view msg ReadPos = k;
  mo_data_length : forall j, (turn_of j < length (M (slot_of j)))%nat <-> (j < length all)%nat;
  mo_data : forall j msg, M (slot_of j) !! turn_of j = Some msg ->
    all !! j = Some (val msg) /\ (msg_view msg WritePos <= j)%nat;
  mo_count : (m <= length ps)%nat;
  mo_shown : length sv = length ps;
}.

Definition producer_sees (sv : list (view loc)) (V : view loc) (n m stored : nat) : Prop :=
  V WritePos = n /\ (V ReadPos <= m)%nat /\ (n <= V ReadPos + cap)%nat /\ knows sv stored V.

Definition producer_ok (sv : list (view loc)) (V : view loc) (ps : list Z) (m : nat) (p : push_pc) : Prop :=
  producer_sees sv V (length ps) m (length (ps ++ stored_value p)) /\
  match p with
  | PushIdle (Some false) => length ps = (V ReadPos + cap)%nat
  | PushIdle _ | PushStart _ => True
  | PushRead _ w => w = wrap 64 (Z.of_nat (length ps))
  | PushStore _ w | PushPublish _ w =>
      w = wrap 64 (Z.of_nat (length ps)) /\ (length ps < V ReadPos + cap)%nat
  | PushPanic => False
  end.

Definition consumer_ok (sv : list (view loc)) (V : view loc) (ps : list Z) (m : nat) (p : pop_pc) : Prop :=
  V ReadPos = m /\ (m <= V WritePos <= length ps)%nat /\ knows sv (V WritePos) V /\
  match p with
  | PopIdle (Some None) => V WritePos = m
  | PopIdle _ | PopStart => True
  | PopRead r => r = wrap 64 (Z.of_nat m)
  | PopLoad r => r = wrap 64 (Z.of_nat m) /\ (m < V WritePos)%nat
  | PopAdvance r v => r = wrap 64 (Z.of_nat m) /\ (m < V WritePos)%nat /\ ps !! m = Some v
  | PopPanic => False
  end.

Record inv (c : config) (ps : list Z) (m : nat) : Prop := {
  i_mem : memory_ok (mem c) (shown c) ps (ps ++ stored_value (producer c)) m;
  i_pclosed : closed (mem c) (p_view c);
  i_cclosed : closed (mem c) (c_view c);
  i_prod : producer_ok (shown c) (p_view c) ps m (producer c);
  i_cons : consumer_ok (shown c) (c_view c) ps m (consumer c);
}.

(** ** Positions *)

Lemma cap_bound : 2 <= capacity q <= 2 ^ 63 /\ capacity q = Z.of_nat cap /\ (0 < cap)%nat.
Proof using Hq. pose proof (shape_bound q Hq). lia. Qed.

Lemma no_space_pos n r : (r <= n <= r + cap)%nat ->
  no_space q (wrap 64 (Z.of_nat n)) (wrap 64 (Z.of_nat r)) = (n =? r + cap)%nat.
Proof using Hq.
  intros Hn. pose proof cap_bound. unfold no_space, wrapping_sub. rewrite wrap_sub_l, wrap_sub_r.
  rewrite wrap_small by (unfold fits; lia). rewrite Z.geb_leb.
  destruct (_ <=? _) eqn:E1, (_ =? _)%nat eqn:E2; zbool; try done.
  - apply Nat.eqb_neq in E2. lia.
  - apply Nat.eqb_eq in E2. lia.
Qed.

Lemma same_pos m w : (m <= w <= m + cap)%nat ->
  (wrap 64 (Z.of_nat m) =? wrap 64 (Z.of_nat w)) = (m =? w)%nat.
Proof using Hq.
  intros Hw. pose proof cap_bound. destruct (Nat.eqb_spec m w) as [->|Hne]; [apply Z.eqb_refl|].
  apply Z.eqb_neq. intros He. apply eq_sym, wrap_window in He; lia.
Qed.

Lemma slot_index n : Z.to_nat (Z.land (wrap 64 (Z.of_nat n)) (mask q)) = (n mod cap)%nat.
Proof using Hq.
  pose proof cap_bound as (_ & Hc & ?). rewrite (mask_slot q) by done. rewrite Hc at 1.
  rewrite <- Nat2Z.inj_mod. apply Nat2Z.id.
Qed.

Lemma slot_there n : (n mod cap < length (data q))%nat.
Proof using Hq. pose proof cap_bound. rewrite (shape_data _ Hq). apply Nat.mod_upper_bound. lia. Qed.

Lemma next_pos n : wrapping_add 64 (wrap 64 (Z.of_nat n)) 1 = wrap 64 (Z.of_nat (S n)).
Proof using Type. unfold wrapping_add. rewrite wrap_add_l. f_equal. lia. Qed.

(** In one slot the turns are in the order of the pushes. *)
Lemma turns_ordered j k : slot_of j = slot_of k -> (turn_of j <= turn_of k)%nat <-> (j <= k)%nat.
Proof using Hq.
  unfold slot_of, turn_of. intros [= Hm]. pose proof cap_bound.
  pose proof (Nat.div_mod_eq j cap). pose proof (Nat.div_mod_eq k cap). split; intros Hle.
  - rewrite H0, H1, Hm. nia.
  - apply le_n_S, Nat.Div0.div_le_mono. lia.
Qed.

Lemma turn_later j : slot_of (j + cap) = slot_of j /\ turn_of (j + cap) = S (turn_of j).
Proof using Hq.
  pose proof cap_bound. unfold slot_of, turn_of. replace (j + cap)%nat with (j + 1 * cap)%nat by lia.
  rewrite Nat.Div0.mod_add, Nat.div_add by lia. split; [done|lia].
Qed.

Lemma knows_le sv k V W : knows sv k V -> view_le V W -> knows sv k W.
Proof using Type.
  intros Hk Hle j Hj. destruct (Hk j Hj) as [H1 H2]. split.
  - specialize (Hle (slot_of j)). lia.
  - intros U HU. trans V; [by apply H2|done].
Qed.

Lemma knows_more sv U k V : (k <= length sv)%nat -> knows sv k V -> knows (sv ++ U) k V.
Proof using Type.
  intros Hl Hk j Hj. destruct (Hk j Hj) as [H1 H2]. split; [done|]. intros W HW.
  apply H2. by rewrite lookup_app_l in HW by lia.
Qed.

(** The next push finds its slot at the end of its last turn. *)
Lemma next_turn M V sv ps all m : memory_ok M sv ps all m -> closed M V ->
  length (M (slot_of (length all))) = turn_of (length all).
Proof using Hq.
  intros Hm Hc. pose proof cap_bound. pose proof (mo_data_length _ _ _ _ _ Hm (length all)) as H0.
  specialize (Hc (slot_of (length all))).
  destruct (decide (length all < cap)%nat) as [Hlt|Hge].
  - assert (turn_of (length all) = 1%nat) as E by (unfold turn_of; by rewrite Nat.div_small). lia.
  - pose proof (mo_data_length _ _ _ _ _ Hm (length all - cap)) as H1.
    destruct (turn_later (length all - cap)) as [E1 E2].
    replace (length all - cap + cap)%nat with (length all) in E1, E2 by lia.
    rewrite <- E1 in H1. lia.
Qed.

(** ** Loads and stores of the producer *)

Lemma producer_load o l ts M V v V' sv ps all m stored :
  loaded o l ts M V v V' -> memory_ok M sv ps all m -> closed M V ->
  producer_sees sv V (length ps) m stored -> closed M V' /\ producer_sees sv V' (length ps) m stored.
Proof using Type.
  intros Hl Hm Hc (Hw & Hr & Hn & Hk). pose proof (loaded_closed _ _ _ _ _ _ _ Hl (mo_wf _ _ _ _ _ Hm) Hc) as Hc'.
  split; [done|]. pose proof (ld_grows _ _ _ _ _ _ _ Hl) as Hg.
  pose proof (Hc' WritePos). pose proof (Hc' ReadPos). pose proof (Hg WritePos). pose proof (Hg ReadPos).
  rewrite (mo_write_length _ _ _ _ _ Hm) in *. rewrite (mo_read_length _ _ _ _ _ Hm) in *.
  split; [lia|]. split; [lia|]. split; [lia|]. by eapply knows_le.
Qed.

(** The value goes to the slot of the next push. *)
Lemma store_value M V v M' V' sv ps m :
  stored Release (slot_of (length ps)) v M V M' V' -> memory_ok M sv ps ps m -> closed M V ->
  producer_sees sv V (length ps) m (length ps) ->
  memory_ok M' sv ps (ps ++ [v]) m /\ producer_sees sv V' (length ps) m (length (ps ++ [v])).
Proof using Hq.
  intros Hst Hm Hc (Hw & Hr & Hn & Hk). pose proof (next_turn M V sv ps ps m Hm Hc) as Ht.
  pose proof (stored_view _ _ _ _ _ _ _ Hst Hc) as HVV.
  destruct (stored_closed _ _ _ _ _ _ _ Hst (mo_wf _ _ _ _ _ Hm) Hc) as [Hwf' _].
  destruct Hst as [(msg & Hmsg & Hval & Hview & _ & _) Hoth [HVl HVo]].
  rewrite Ht in HVl. specialize (Hview eq_refl).
  assert (Hlen : length (M' (slot_of (length ps))) = S (turn_of (length ps)))
    by (rewrite Hmsg, length_app, Ht; cbn [length]; lia).
  split; [split|].
  - done.
  - rewrite Hoth by done. apply Hm.
  - rewrite Hoth by done. apply Hm.
  - rewrite Hoth by done. apply Hm.
  - rewrite Hoth by done. apply Hm.
  - intros j. rewrite length_app. cbn [length]. destruct (decide (slot_of j = slot_of (length ps))) as [E|Hne].
    + rewrite E, Hlen. pose proof (turns_ordered j (length ps) E). lia.
    + rewrite Hoth by done. rewrite (mo_data_length _ _ _ _ _ Hm).
      assert (j <> length ps) by (by intros ->). lia.
  - intros j mj Hj. destruct (decide (slot_of j = slot_of (length ps))) as [E|Hne].
    + rewrite E, Hmsg in Hj. apply lookup_app_Some in Hj as [Hj|[Hge Hj]].
      * rewrite <- E in Hj. apply (mo_data _ _ _ _ _ Hm) in Hj as [Hj ?]. split; [|done].
        by apply lookup_app_l_Some.
      * rewrite Ht in Hge, Hj. pose proof (turns_ordered (length ps) j (eq_sym E)) as Ho.
        apply list_lookup_singleton_Some in Hj as [He <-].
        assert (j = length ps) as ->. { pose proof (turns_ordered j (length ps) E). lia. }
        rewrite Hview, HVo, Hw by done. split; [|done]. rewrite Hval. apply list_lookup_middle. done.
    + rewrite Hoth in Hj by done. apply (mo_data _ _ _ _ _ Hm) in Hj as [Hj ?]. split; [|done].
      by apply lookup_app_l_Some.
  - apply Hm.
  - apply Hm.
  - rewrite length_app. cbn [length]. split; [by rewrite HVo|]. rewrite !(HVo ReadPos) by done. split; [done|]. split; [done|].
    intros j Hj. split.
    + destruct (decide (slot_of j = slot_of (length ps))) as [E|Hne].
      * rewrite E, HVl. pose proof (turns_ordered j (length ps) E). lia.
      * rewrite HVo by done. apply Hk. assert (j <> length ps) by (by intros ->). lia.
    + intros W HW. trans V; [|done]. apply (Hk j); [|done]. apply lookup_lt_Some in HW. by rewrite (mo_shown _ _ _ _ _ Hm) in HW.
Qed.

(** The position makes the push known to those who read it. *)
Lemma publish M V v M' V' sv ps m :
  stored Release WritePos (wrap 64 (Z.of_nat (S (length ps)))) M V M' V' ->
  memory_ok M sv ps (ps ++ [v]) m -> closed M V -> (length ps < V ReadPos + cap)%nat ->
  producer_sees sv V (length ps) m (length (ps ++ [v])) ->
  memory_ok M' (sv ++ [V']) (ps ++ [v]) (ps ++ [v]) m /\
  producer_sees (sv ++ [V']) V' (length (ps ++ [v])) m (length (ps ++ [v])).
Proof using Type.
  intros Hst Hm Hc Hlt (Hw & Hr & _ & Hk).
  destruct (stored_closed _ _ _ _ _ _ _ Hst (mo_wf _ _ _ _ _ Hm) Hc) as [Hwf' _]. pose proof Hst as Hst0.
  destruct Hst as [(msg & Hmsg & Hval & Hview & _ & _) Hoth [HVl HVo]]. specialize (Hview eq_refl).
  rewrite (mo_write_length _ _ _ _ _ Hm) in HVl.
  pose proof (mo_shown _ _ _ _ _ Hm) as Hsh.
  assert (Hk' : knows (sv ++ [V']) (length (ps ++ [v])) V').
  { intros j Hj. split; [rewrite HVo by done; by apply Hk|]. intros W [HW|[_ HW]]%lookup_app_Some.
    - trans V; [|by apply (stored_view _ _ _ _ _ _ _ Hst0 Hc)]. by apply (Hk j).
    - apply list_lookup_singleton_Some in HW as [_ <-]. done. }
  assert (Hlen : length (ps ++ [v]) = S (length ps)) by (rewrite length_app; cbn; lia).
  split; [split|].
  - done.
  - rewrite Hmsg, length_app, (mo_write_length _ _ _ _ _ Hm), Hlen. cbn. lia.
  - intros k mk Hmk. rewrite Hmsg in Hmk. apply lookup_app_Some in Hmk as [Hmk|[Hge Hmk]].
    { destruct (mo_write _ _ _ _ _ Hm _ _ Hmk) as (? & ? & ?). split; [done|]. split; [done|].
      apply knows_more; [|done]. apply lookup_lt_Some in Hmk. rewrite (mo_write_length _ _ _ _ _ Hm) in Hmk. lia. }
    apply list_lookup_singleton_Some in Hmk as [He <-].
    rewrite (mo_write_length _ _ _ _ _ Hm) in He, Hge. assert (k = S (length ps)) as -> by lia.
    rewrite Hval, Hview, HVl, <- Hlen. by split_and!.
  - rewrite Hoth by done. apply Hm.
  - rewrite Hoth by done. apply Hm.
  - intros j. rewrite Hoth by done. apply Hm.
  - intros j mj Hj. rewrite Hoth in Hj by done. by apply (mo_data _ _ _ _ _ Hm).
  - pose proof (mo_count _ _ _ _ _ Hm). lia.
  - rewrite !length_app, Hsh. done.
  - split; [lia|]. rewrite (HVo ReadPos) by done. split; [done|]. split; [lia|done].
Qed.

(** ** Loads and stores of the consumer *)

Definition consumer_sees (sv : list (view loc)) (V : view loc) (n m : nat) : Prop :=
  V ReadPos = m /\ (m <= V WritePos <= n)%nat /\ knows sv (V WritePos) V.

(** A load of the consumer other than of [WritePos] shows it no new push. *)
Lemma consumer_load o l ts M V v V' sv ps all m :
  loaded o l ts M V v V' -> memory_ok M sv ps all m -> closed M V -> consumer_sees sv V (length ps) m ->
  l <> WritePos ->
  (forall msg, o = Acquire -> M l !! ts = Some msg -> (msg_view msg WritePos <= V WritePos)%nat) ->
  closed M V' /\ consumer_sees sv V' (length ps) m /\ V' WritePos = V WritePos.
Proof using Type.
  intros Hl Hm Hc (Hr & Hw & Hk) Hne Hv.
  pose proof (loaded_closed _ _ _ _ _ _ _ Hl (mo_wf _ _ _ _ _ Hm) Hc) as Hc'.
  destruct Hl as [_ (msg & Hmsg & _ & _ & Hle) Hg _]. specialize (Hle WritePos).
  rewrite upd_ne in Hle by done. pose proof (Hg WritePos). pose proof (Hg ReadPos). pose proof (Hc' ReadPos) as Hcr.
  rewrite (mo_read_length _ _ _ _ _ Hm) in Hcr.
  assert (Hww : V' WritePos = V WritePos).
  { destruct o; try lia. specialize (Hv msg eq_refl Hmsg). lia. }
  split; [done|]. split; [|done]. split; [lia|]. rewrite Hww. split; [lia|]. by eapply knows_le.
Qed.

(** A load of [WritePos] shows it the pushes before the value it reads. *)
Lemma consumer_load_write ts M V v V' sv ps all m :
  loaded Acquire WritePos ts M V v V' -> memory_ok M sv ps all m -> closed M V ->
  consumer_sees sv V (length ps) m ->
  closed M V' /\ consumer_sees sv V' (length ps) m /\ V' WritePos = ts /\ v = wrap 64 (Z.of_nat ts).
Proof using Type.
  intros Hl Hm Hc (Hr & Hw & Hk).
  pose proof (loaded_closed _ _ _ _ _ _ _ Hl (mo_wf _ _ _ _ _ Hm) Hc) as Hc'.
  destruct Hl as [Hts (msg & Hmsg & Hval & Hacq & Hle) Hg Hat]. specialize (Hle WritePos). specialize (Hacq eq_refl).
  rewrite upd_eq in Hle. destruct (mo_write _ _ _ _ _ Hm _ _ Hmsg) as (Hv & Hmw & Hmk).
  rewrite (mo_write_length _ _ _ _ _ Hm) in Hts. pose proof (Hg ReadPos). pose proof (Hc' ReadPos) as Hcr.
  rewrite (mo_read_length _ _ _ _ _ Hm) in Hcr.
  assert (Hww : V' WritePos = ts) by lia. split; [done|]. split; [|split; [done|congruence]].
  split; [lia|]. rewrite Hww. split; [lia|]. by eapply knows_le.
Qed.

(** The load of a value reads the push of its turn: older values have been seen,
    and the slot has not been used again. *)
Lemma consumer_load_data ts M V v V' sv ps all m Vp stored :
  loaded Acquire (slot_of m) ts M V v V' -> memory_ok M sv ps all m ->
  consumer_sees sv V (length ps) m -> (m < V WritePos)%nat ->
  producer_sees sv Vp (length ps) m stored -> (length all <= Vp ReadPos + cap)%nat -> prefix ps all ->
  ts = turn_of m /\ ps !! m = Some v.
Proof using Hq.
  intros [Hts (msg & Hmsg & Hval & _ & _) _ _] Hm (_ & Hw & Hk) Hlt (_ & Hvr & _ & _) Hall [rest Hpre].
  assert (ts = turn_of m) as ->.
  { destruct (Hk m Hlt) as [Hk' _]. destruct (turn_later m) as [E1 E2].
    pose proof (mo_data_length _ _ _ _ _ Hm (m + cap)) as Hd. rewrite E1, E2 in Hd. lia. }
  split; [done|]. destruct (mo_data _ _ _ _ _ Hm _ _ Hmsg) as [Hd _]. subst v.
  rewrite Hpre, lookup_app_l in Hd by lia. done.
Qed.

Lemma advance M V M' V' sv ps all m :
  stored Release ReadPos (wrap 64 (Z.of_nat (S m))) M V M' V' ->
  memory_ok M sv ps all m -> closed M V -> consumer_sees sv V (length ps) m -> (m < V WritePos)%nat ->
  memory_ok M' sv ps all (S m) /\ consumer_sees sv V' (length ps) (S m).
Proof using Type.
  intros Hst Hm Hc (Hr & Hw & Hk) Hlt.
  destruct (stored_closed _ _ _ _ _ _ _ Hst (mo_wf _ _ _ _ _ Hm) Hc) as [Hwf' _].
  pose proof Hst as Hst0. destruct Hst as [(msg & Hmsg & Hval & _ & Hat & _) Hoth [HVl HVo]].
  rewrite (mo_read_length _ _ _ _ _ Hm) in HVl, Hat.
  split; [split|].
  - done.
  - rewrite Hoth by done. apply Hm.
  - intros k mk Hmk. rewrite Hoth in Hmk by done. by apply (mo_write _ _ _ _ _ Hm).
  - rewrite Hmsg, length_app, (mo_read_length _ _ _ _ _ Hm). cbn. lia.
  - intros k mk Hmk. rewrite Hmsg in Hmk. apply lookup_app_Some in Hmk as [Hmk|[Hge Hmk]];
      [by apply (mo_read _ _ _ _ _ Hm)|].
    apply list_lookup_singleton_Some in Hmk as [He <-]. rewrite (mo_read_length _ _ _ _ _ Hm) in He, Hge.
    assert (k = S m) as -> by lia. done.
  - intros j. rewrite Hoth by done. apply Hm.
  - intros j mj Hj. rewrite Hoth in Hj by done. by apply (mo_data _ _ _ _ _ Hm).
  - lia.
  - apply Hm.
  - split; [done|]. rewrite (HVo WritePos) by done. split; [lia|].
    apply (knows_le _ _ V); [done|]. by apply (stored_view _ _ _ _ _ _ _ Hst0 Hc).
Qed.

(** ** The steps *)

(** A step of the producer that publishes nothing. *)
Lemma weak_producer_step c ps m M V p sv :
  inv c ps m -> memory_ok M (shown c) ps (ps ++ stored_value p) m -> closed M V -> closed M (c_view c) ->
  producer_ok (shown c) V ps m p -> sv = shown c ++ [] -> inv (mkC M V p (c_view c) (consumer c) sv) (ps ++ []) m.
Proof using Type. intros [_ _ _ _ Hk] Hm Hc Hcc Hp ->. rewrite !app_nil_r. by split. Qed.

(** What is shown at the end of a step of the producer. *)
#[local] Abbreviation shows c V e := (shown c ++ match e with [Pushed _] => [V] | _ => [] end).

Lemma push_inv ts c ps m M V p e :
  inv c ps m -> step_push ts (mem c) (p_view c) (producer c) = Some (M, V, p, e) ->
  inv (mkC M V p (c_view c) (consumer c) (shows c V e)) (ps ++ pushed e) m /\ popped e = [].
Proof using Hq.
  intros Hinv He. pose proof cap_bound as Hcap. pose proof Hinv as [Hm Hpc Hcc [Hs Hp] Hk].
  destruct (producer c) as [b|v|v w|v w|v w|]; cbn [step_push stored_value] in He, Hm, Hs; try done;
    try rewrite app_nil_r in Hm, Hs.
  - destruct (load _ _ _ _ _) as [[w V1]|] eqn:El; [|done]. simplify_eq. apply load_loaded in El.
    destruct (producer_load _ _ _ _ _ _ _ _ _ _ _ _ El Hm Hpc Hs) as [Hc' Hs'].
    destruct El as [Hts (msg & Hmsg & <- & _) _ _]. rewrite (mo_write_length _ _ _ _ _ Hm) in Hts.
    destruct (mo_write _ _ _ _ _ Hm _ _ Hmsg) as [Hv _]. destruct Hs as [Hw _].
    assert (ts = length ps) as -> by lia. split; [|done].
    apply weak_producer_step; cbn; rewrite ?app_nil_r; try done. split; [by rewrite app_nil_r|done].
  - destruct (load _ _ _ _ _) as [[r V1]|] eqn:El; [|done]. apply load_loaded in El.
    destruct (producer_load _ _ _ _ _ _ _ _ _ _ _ _ El Hm Hpc Hs) as [Hc' Hs'].
    destruct El as [Hts (msg & Hmsg & <- & _ & Hle) _ Hat]. rewrite (mo_read_length _ _ _ _ _ Hm) in Hts.
    subst w. destruct (mo_read _ _ _ _ _ Hm _ _ Hmsg) as [Hv Hat']. rewrite Hv in He. pose proof (mo_count _ _ _ _ _ Hm).
    destruct Hs as (Hw & Hr & Hn & _). rewrite no_space_pos in He by lia.
    specialize (Hle ReadPos). rewrite upd_eq, Hat' in Hle.
    destruct (Nat.eqb_spec (length ps) (ts + cap)) as [E|E]; simplify_eq; (split; [|done]);
      (apply weak_producer_step; cbn; rewrite ?app_nil_r; try done); (split; [by rewrite app_nil_r|]).
    + lia.
    + split; [done|]. lia.
  - rewrite (proj1 Hp), slot_index, decide_True in He by apply slot_there.
    destruct (store _ _ _ _ _) as [M1 V1] eqn:Est. simplify_eq.
    pose proof (store_stored Release (slot_of (length ps)) v (mem c) (p_view c)) as Hst.
    unfold slot_of in Hst. rewrite Est in Hst. cbn in Hst.
    destruct (stored_closed _ _ _ _ _ _ _ Hst (mo_wf _ _ _ _ _ Hm) Hpc) as [_ Hc'].
    pose proof (closed_grows _ _ _ (stored_grows _ _ _ _ _ _ _ Hst) Hcc) as Hcc'.
    pose proof (st_view _ _ _ _ _ _ _ Hst) as [_ HVo].
    destruct (store_value _ _ v _ _ _ ps m Hst Hm Hpc Hs) as [Hm' Hs']. split; [|done].
    apply weak_producer_step; try done. split; [done|]. split; [by destruct Hp|]. rewrite HVo by done. by destruct Hp.
  - destruct Hp as [-> Hlt]. rewrite next_pos in He.
    destruct (store _ _ _ _ _) as [M1 V1] eqn:Est. simplify_eq.
    pose proof (store_stored Release WritePos (wrap 64 (Z.of_nat (S (length ps)))) (mem c) (p_view c)) as Hst.
    rewrite Est in Hst. cbn in Hst.
    destruct (stored_closed _ _ _ _ _ _ _ Hst (mo_wf _ _ _ _ _ Hm) Hpc) as [_ Hc'].
    pose proof (closed_grows _ _ _ (stored_grows _ _ _ _ _ _ _ Hst) Hcc) as Hcc'.
    destruct (publish _ _ v _ _ _ ps m Hst Hm Hpc Hlt Hs) as [Hm' Hs']. split; [|done].
    split; cbn; rewrite ?app_nil_r; try done; [split; [by rewrite app_nil_r|done]|].
    destruct Hk as (Hr & Hw & Hkn & Hkp). unfold consumer_ok. cbn [c_view consumer].
    rewrite length_app. split; [done|]. split; [lia|].
    split; [apply knows_more; [rewrite (mo_shown _ _ _ _ _ Hm); lia|done]|].
    destruct (consumer c); try done. destruct Hkp as (? & ? & Hv'). split; [done|]. split; [done|].
    by apply lookup_app_l_Some.
Qed.

(** A step of the consumer that takes nothing. *)
Lemma weak_consumer_step c ps m V p :
  inv c ps m -> closed (mem c) V -> consumer_ok (shown c) V ps m p ->
  inv (mkC (mem c) (p_view c) (producer c) V p (shown c)) ps m.
Proof using Type. intros [Hm Hpc _ Hp _] Hc Hk. by split. Qed.

(** What the producer does leaves room for the slot that is read. *)
Lemma room_left sv V ps m p : producer_ok sv V ps m p -> (length (ps ++ stored_value p) <= V ReadPos + cap)%nat.
Proof using Type.
  intros [(_ & _ & Hn & _) Hp]. rewrite length_app. destruct p as [b|v|v w|v w|v w|]; cbn [stored_value length]; lia.
Qed.

Lemma pop_inv ts c ps m M V p e :
  inv c ps m -> step_pop ts (mem c) (c_view c) (consumer c) = Some (M, V, p, e) ->
  inv (mkC M (p_view c) (producer c) V p (shown c)) ps (m + length (popped e)) /\ pushed e = [] /\
  take (m + length (popped e)) ps = take m ps ++ popped e.
Proof using Hq.
  intros Hinv He. pose proof cap_bound as Hcap. pose proof Hinv as [Hm Hpc Hcc Hp (Hr & Hw & Hkn & Hk)].
  pose proof (conj Hr (conj Hw Hkn)) as Hs. fold (consumer_sees (shown c) (c_view c) (length ps) m) in Hs.
  destruct (consumer c) as [b| |r|r|r v|]; cbn [step_pop] in He; try done.
  - destruct (load _ _ _ _ _) as [[w V1]|] eqn:El; [|done]. injection He as <- <- <- <-. apply load_loaded in El. cbn.
    rewrite Nat.add_0_r, app_nil_r.
    destruct (consumer_load _ _ _ _ _ _ _ _ _ _ _ El Hm Hcc Hs ltac:(done) ltac:(done)) as (Hc' & Hs' & _).
    destruct El as [Hts (msg & Hmsg & <- & _) _ _]. rewrite (mo_read_length _ _ _ _ _ Hm) in Hts.
    destruct (mo_read _ _ _ _ _ Hm _ _ Hmsg) as [Hv _]. assert (ts = m) as -> by lia.
    split; [|done]. apply weak_consumer_step; [done..|]. destruct Hs' as (? & ? & ?). unfold consumer_ok; split_and!; done || lia.
  - destruct (load _ _ _ _ _) as [[w V1]|] eqn:El; [|done]. apply load_loaded in El.
    destruct (consumer_load_write _ _ _ _ _ _ _ _ _ El Hm Hcc Hs) as (Hc' & Hs' & Hts & ->).
    destruct Hs' as (Hr' & Hw' & Hkn'). subst r.
    destruct Hp as [(_ & Hpr & Hpn & _) _]. rewrite same_pos in He by lia.
    destruct (Nat.eqb_spec m ts) as [E|E]; injection He as <- <- <- <-; cbn; rewrite Nat.add_0_r, app_nil_r;
      (split; [|done]); (apply weak_consumer_step; [done..|]); (unfold consumer_ok; split_and!; try done; try lia).
  - rewrite (proj1 Hk), slot_index, decide_True in He by apply slot_there.
    destruct (load _ _ _ _ _) as [[v V1]|] eqn:El; [|done]. injection He as <- <- <- <-. apply load_loaded in El. cbn.
    rewrite Nat.add_0_r, app_nil_r. destruct Hk as [-> Hlt].
    destruct (consumer_load_data _ _ _ _ _ _ _ _ _ _ _ El Hm Hs Hlt (proj1 Hp) (room_left _ _ _ _ _ Hp) ltac:(by eexists))
      as [-> Hv].
    destruct (consumer_load _ _ _ _ _ _ _ _ _ _ _ El Hm Hcc Hs ltac:(done)) as (Hc' & (Hr' & Hw' & Hkn') & Hww).
    { intros msg _ Hmsg. destruct (mo_data _ _ _ _ _ Hm _ _ Hmsg) as [_ ?]. lia. }
    split; [|done]. apply weak_consumer_step; [done..|]. unfold consumer_ok; split_and!; try done; lia.
  - destruct Hk as (-> & Hlt & Hv). rewrite next_pos in He.
    destruct (store _ _ _ _ _) as [M1 V1] eqn:Est. injection He as <- <- <- <-. cbn [popped omap list_omap length].
    rewrite Nat.add_1_r. split; [|split; [done|by apply take_S_r]].
    pose proof (store_stored Release ReadPos (wrap 64 (Z.of_nat (S m))) (mem c) (c_view c)) as Hst.
    rewrite Est in Hst. cbn in Hst.
    destruct (stored_closed _ _ _ _ _ _ _ Hst (mo_wf _ _ _ _ _ Hm) Hcc) as [_ Hc'].
    pose proof (closed_grows _ _ _ (stored_grows _ _ _ _ _ _ _ Hst) Hpc) as Hpc'.
    destruct (advance _ _ _ _ _ _ _ _ Hst Hm Hcc Hs Hlt) as [Hm' (Hr' & Hw' & Hkn')].
    split; cbn; try done. destruct Hp as [(H1 & H2 & H3 & H4) Hp']. split; [|done].
    split; [done|]. split; [lia|]. by split.
Qed.

(** Between calls the threads use the memory that the values point to. *)
Lemma write_cell c ps m x v M V :
  inv c ps m -> stored Relaxed (Cell x) v (mem c) (p_view c) M V ->
  inv (mkC M V (producer c) (c_view c) (consumer c) (shown c)) ps m.
Proof using Hq.
  intros [Hm Hpc Hcc [(Hw & Hr & Hn & Hk) Hp] Hcons] Hst.
  pose proof (stored_view _ _ _ _ _ _ _ Hst Hpc) as HVV.
  destruct (stored_closed _ _ _ _ _ _ _ Hst (mo_wf _ _ _ _ _ Hm) Hpc) as [Hwf' Hpc'].
  pose proof (closed_grows _ _ _ (stored_grows _ _ _ _ _ _ _ Hst) Hcc) as Hcc'.
  destruct Hst as [_ Hoth [_ HVo]]. split; cbn; try done.
  - destruct Hm. split; try done; try (rewrite Hoth by done; done).
    + intros j. by rewrite Hoth.
    + intros j msg. rewrite Hoth by done. apply mo_data0.
  - unfold producer_ok, producer_sees. rewrite !HVo by done. split; [|done].
    split_and!; try done. by apply (knows_le _ _ (p_view c)).
Qed.

Lemma read_cell c ps m x ts v V :
  inv c ps m -> loaded Relaxed (Cell x) ts (mem c) (c_view c) v V ->
  inv (mkC (mem c) (p_view c) (producer c) V (consumer c) (shown c)) ps m.
Proof using Hq.
  intros Hinv Hl. pose proof Hinv as [Hm Hpc Hcc Hp (Hr & Hw & Hk & Hc)].
  destruct (consumer_load _ _ _ _ _ _ _ _ _ _ _ Hl Hm Hcc (conj Hr (conj Hw Hk)) ltac:(done) ltac:(done))
    as (Hc' & (Hr' & Hw' & Hk') & E).
  apply weak_consumer_step; [done..|]. unfold consumer_ok. rewrite E in *. split_and!; done || lia.
Qed.

Lemma weak_exec_inv a c ps m c' e :
  inv c ps m -> exec a c = Some (c', e) ->
  exists m', inv c' (ps ++ pushed e) m' /\ take m' (ps ++ pushed e) = take m ps ++ popped e.
Proof using Hq.
  intros Hinv He. pose proof (mo_count _ _ _ _ _ (i_mem _ _ _ Hinv)) as Hle.
  destruct a as [v|ts|x v| |ts|x ts]; cbn -[store] in He.
  - destruct (producer c) eqn:Ep; try done. simplify_eq. exists m. cbn. rewrite !app_nil_r. split; [|done].
    destruct Hinv as [Hm Hpc Hcc Hp Hk]. rewrite Ep in Hm, Hp.
    split; try done. by split; [apply Hp|].
  - destruct (step_push _ _ _ _) as [[[[M V] p] e']|] eqn:Es; [|done]. simplify_eq.
    destruct (push_inv _ _ _ _ _ _ _ _ Hinv Es) as [Hi ->]. exists m. split; [done|].
    by rewrite app_nil_r, take_app_le.
  - destruct (producer c) eqn:Ep; try done.
    pose proof (store_stored Relaxed (Cell x) v (mem c) (p_view c)) as Hst.
    destruct (store _ _ _ _ _) as [M V]. simplify_eq. exists m. cbn. rewrite !app_nil_r. split; [|done].
    rewrite <- Ep. by apply (write_cell c ps m x v).
  - destruct (consumer c) eqn:Ek; try done. simplify_eq. exists m. cbn. rewrite !app_nil_r. split; [|done].
    destruct Hinv as [Hm Hpc Hcc Hp (H1 & H2 & H3 & Hk)]. by split.
  - destruct (step_pop _ _ _ _) as [[[[M V] p] e']|] eqn:Es; [|done]. simplify_eq.
    destruct (pop_inv _ _ _ _ _ _ _ _ Hinv Es) as (Hi & -> & Ht). rewrite app_nil_r. by eexists.
  - destruct (consumer c) eqn:Ek; try done.
    destruct (load _ _ _ _ _) as [[v V]|] eqn:El; [|done]. simplify_eq. exists m. cbn. rewrite !app_nil_r.
    split; [|done]. rewrite <- Ek. apply (read_cell c ps m x ts v); [done|]. by apply load_loaded.
Qed.

Lemma weak_run_inv sched c ps m c' evs :
  inv c ps m -> run sched c = Some (c', evs) ->
  exists m', inv c' (ps ++ pushed evs) m' /\ take m' (ps ++ pushed evs) = take m ps ++ popped evs.
Proof using Hq.
  revert c ps m evs. induction sched as [|a sched IH]; intros c ps m evs Hi Hr; cbn in Hr.
  - simplify_eq. exists m. cbn. by rewrite !app_nil_r.
  - destruct (exec a c) as [[c1 e1]|] eqn:He; [|done].
    destruct (run sched c1) as [[c2 e2]|] eqn:Hr2; [|done]. simplify_eq.
    destruct (weak_exec_inv _ _ _ _ _ _ Hi He) as (m1 & Hi1 & Ht1).
    destruct (IH _ _ _ _ Hi1 Hr2) as (m2 & Hi2 & Ht2). exists m2.
    unfold pushed, popped in *. rewrite !omap_app, !app_assoc. split; [done|]. by rewrite Ht2, Ht1.
Qed.

Lemma weak_init_inv : inv init [] 0.
Proof using Hq.
  pose proof cap_bound. split; cbn; try apply initial_closed.
  - split; cbn; try done; try apply initial_wf; try lia.
    + intros k msg Hk. apply list_lookup_singleton_Some in Hk as [-> <-]. split_and!; try done.
      intros j Hj. lia.
    + intros k msg Hk. by apply list_lookup_singleton_Some in Hk as [-> <-].
    + intros j. unfold turn_of. lia.
  - split; [|done]. split_and!; cbn; try done; try (unfold bottom; lia). intros j Hj. lia.
  - split_and!; try done; try (unfold bottom; lia). intros j Hj. unfold bottom in Hj. lia.
Qed.

(** A call under way takes its next step, whatever value it reads. *)
Lemma push_moves ts c M V p e v :
  push_val (producer c) = Some v -> step_push ts (mem c) (p_view c) (producer c) = Some (M, V, p, e) ->
  p <> PushPanic ->
  (exists b, p = PushIdle (Some b)) \/ push_val p = Some v /\ push_rank p = push_rank (producer c) + 1.
Proof using Type.
  destruct (producer c) as [b|w|w x|w x|w x|]; cbn; try done; intros [= <-]; intros He Hp;
    repeat case_match; simplify_eq; cbn; eauto.
Qed.

Lemma push_can c ps m v :
  inv c ps m -> push_val (producer c) = Some v -> exists ts, is_Some (exec (RunPush ts) c).
Proof using Hq.
  intros [_ Hc _ _ _] Hv. cbn.
  assert (Hl : forall o l, is_Some (load o l (p_view c l) (mem c) (p_view c))) by (intros; apply load_some; by split).
  destruct (producer c) as [b|w|w x|w x|w x|]; cbn in Hv |- *; try discriminate Hv.
  - exists (p_view c WritePos). destruct (Hl Relaxed WritePos) as [[r V] ->]. by eexists.
  - exists (p_view c ReadPos). destruct (Hl Acquire ReadPos) as [[r V] ->]. destruct (no_space _ _ _); by eexists.
  - exists 0%nat. case_decide; by eexists.
  - exists 0%nat. by eexists.
Qed.

Lemma pop_moves ts c M V p e :
  pop_busy (consumer c) = true -> step_pop ts (mem c) (c_view c) (consumer c) = Some (M, V, p, e) ->
  p <> PopPanic ->
  (exists r, p = PopIdle (Some r)) \/ pop_busy p = true /\ pop_rank p = pop_rank (consumer c) + 1.
Proof using Type.
  destruct (consumer c) as [b| |w|w|w x|]; cbn; try done; intros _ He Hp;
    repeat case_match; simplify_eq; cbn; eauto.
Qed.

Lemma pop_can c ps m :
  inv c ps m -> pop_busy (consumer c) = true -> exists ts, is_Some (exec (RunPop ts) c).
Proof using Hq.
  intros [_ _ Hc _ _] Hv. cbn.
  assert (Hl : forall o l, is_Some (load o l (c_view c l) (mem c) (c_view c))) by (intros; apply load_some; by split).
  destruct (consumer c) as [b| |w|w|w x|]; cbn in Hv |- *; try discriminate Hv.
  - exists (c_view c ReadPos). destruct (Hl Relaxed ReadPos) as [[r V] ->]. by eexists.
  - exists (c_view c WritePos). destruct (Hl Acquire WritePos) as [[r V] ->]. destruct (_ =? _); by eexists.
  - exists (c_view c (Data (Z.to_nat (Z.land w (mask q))))).
    destruct (Hl Acquire (Data (Z.to_nat (Z.land w (mask q))))) as [[r V] ->]. case_decide; by eexists.
  - exists 0%nat. by eexists.
Qed.
End machine.

(** C5: with the orderings of the source, whatever values the loads return
    within what these allow: no call panics, the values popped are the values
    pushed, in order, and at most [capacity] of them are in the queue; a [pop]
    that finds nothing has taken all that it had been shown, a [push] that finds
    no room has been shown that the queue was full. *)
Theorem weak_spsc_fifo cap sched c evs :
  0 <= cap <= 2 ^ 63 -> run (new cap) sched init = Some (c, evs) ->
  popped evs `prefix_of` pushed evs /\
  Z.of_nat (length (pushed evs)) <= Z.of_nat (length (popped evs)) + capacity (new cap) /\
  producer c <> PushPanic /\ consumer c <> PopPanic /\
  (consumer c = PopIdle (Some None) -> c_view c WritePos = length (popped evs)) /\
  (producer c = PushIdle (Some false) ->
     Z.of_nat (length (pushed evs)) = Z.of_nat (p_view c ReadPos) + capacity (new cap)).
Proof.
  intros Hc Hr. pose proof (rep_shape _ _ _ (new_rep cap Hc)) as Hq. pose proof (cap_bound _ Hq) as Hcap.
  destruct (weak_run_inv _ Hq _ _ _ _ _ _ (weak_init_inv _ Hq) Hr) as (m & Hi & Ht). cbn in Ht.
  pose proof (mo_count _ _ _ _ _ _ (i_mem _ _ _ _ Hi)) as Hm. cbn in Hm, Hi.
  assert (m = length (popped evs)) as -> by (rewrite <- Ht, length_take; lia).
  destruct Hi as [_ _ _ [(Hw & Hrd & Hn & _) Hp] (Hr' & Hw' & _ & Hk)].
  split; [exists (drop (length (popped evs)) (pushed evs)); by rewrite <- Ht at 1; rewrite take_drop|].
  split; [lia|]. split; [intros E; by rewrite E in Hp|]. split; [intros E; by rewrite E in Hk|].
  split; [intros E; by rewrite E in Hk|]. intros E. rewrite E in Hp. lia.
Qed.

(** Two values through a queue of two, the consumer reading old positions twice. *)
Definition late_reader : list action :=
  [CallPush 7; RunPush 0; RunPush 0; RunPush 0; RunPush 0; CallPop; RunPop 0; RunPop 0; CallPop; RunPop 0;
   RunPop 1; CallPush 8; RunPush 1; RunPush 0; RunPush 0; RunPush 0; RunPop 1; RunPop 0; CallPop; RunPop 1; RunPop 1].

Lemma weak_spsc_fifo_witness :
  match run (new 2) late_reader init with
  | Some (c, evs) => evs = [Pushed 7; PopEmpty; Pushed 8; Popped 7; PopEmpty] /\ popped evs `prefix_of` pushed evs
  | None => False
  end.
Proof.
  destruct (run (new 2) late_reader init) as [[c evs]|] eqn:E.
  - split; [vm_compute in E; by injection E as _ <-|]. apply (weak_spsc_fifo 2 late_reader c evs ltac:(lia) E).
  - vm_compute in E. discriminate.
Defined.

(** C6: what a push publishes is visible to the pop that takes it.  After the
    [j]-th value has been popped the consumer has seen all that the producer had
    seen and written when that push ended; so each load of a cell that has not
    been written since returns its value, though neither the store nor the load
    of the cell is synchronised. *)
Theorem weak_spsc_payload cap sched c evs j W :
  0 <= cap <= 2 ^ 63 -> run (new cap) sched init = Some (c, evs) ->
  (j < length (popped evs))%nat -> shown c !! j = Some W ->
  view_le W (c_view c) /\
  forall x, S (W (Cell x)) = length (mem c (Cell x)) -> forall ts v V,
    load Relaxed (Cell x) ts (mem c) (c_view c) = Some (v, V) -> v = latest (mem c) (Cell x).
Proof.
  intros Hc Hr Hj HW. pose proof (rep_shape _ _ _ (new_rep cap Hc)) as Hq.
  destruct (weak_run_inv _ Hq _ _ _ _ _ _ (weak_init_inv _ Hq) Hr) as (m & Hi & Ht). cbn in Ht, Hi.
  assert (length (popped evs) <= m)%nat as Hm by (rewrite <- Ht, length_take; lia).
  destruct Hi as [_ _ _ _ (_ & Hw & Hk & _)]. destruct (Hk j ltac:(lia)) as [_ Hsee].
  split; [by apply Hsee|]. intros x Hx ts v V Hl. apply load_loaded in Hl.
  destruct Hl as [Hts (msg & Hmsg & <- & _) _ _]. specialize (Hsee W HW (Cell x)).
  unfold latest. rewrite last_lookup. replace (pred (length (mem c (Cell x)))) with ts by lia. by rewrite Hmsg.
Qed.

(** A value is written to cell 5 and its address pushed; once it has been popped
    the cell reads 42, and no longer the zero that was there before. *)
Definition hand_over : list action :=
  [WriteCell 5 42; CallPush 5; RunPush 0; RunPush 0; RunPush 0; RunPush 0;
   ReadCell 5 0; CallPop; RunPop 0; RunPop 1; RunPop 1; RunPop 0].

Lemma weak_spsc_payload_witness :
  match run (new 2) hand_over init with
  | Some (c, evs) =>
      evs = [Pushed 5; Popped 5] /\
      forall ts v V, load Relaxed (Cell 5) ts (mem c) (c_view c) = Some (v, V) -> v = 42
  | None => False
  end.
Proof.
  destruct (run (new 2) hand_over init) as [[c evs]|] eqn:E; [|vm_compute in E; discriminate].
  assert (evs = [Pushed 5; Popped 5]) as He by (vm_compute in E; by injection E as _ <-).
  destruct (shown c !! 0%nat) as [W|] eqn:EW; [|vm_compute in E; injection E as <- _; discriminate EW].
  split; [exact He|]. intros ts v V Hl.
  destruct (weak_spsc_payload 2 hand_over c evs 0 W ltac:(lia) E ltac:(rewrite He; cbn; lia) EW) as [_ Hx].
  rewrite (Hx 5%nat) with (2 := Hl); vm_compute in E; injection E as <- _; [reflexivity|].
  cbn in EW. injection EW as <-. reflexivity.
Defined.

(** Both calls are wait-free: a step is always possible, and after four a call
    has returned. *)
Theorem weak_spsc_wait_free cap sched c evs :
  0 <= cap <= 2 ^ 63 -> run (new cap) sched init = Some (c, evs) ->
  (forall v, push_val (producer c) = Some v ->
     (exists ts, is_Some (exec (new cap) (RunPush ts) c)) /\
     forall ts c' e, exec (new cap) (RunPush ts) c = Some (c', e) ->
       (exists b, producer c' = PushIdle (Some b)) \/
       push_val (producer c') = Some v /\ push_rank (producer c') = push_rank (producer c) + 1) /\
  (pop_busy (consumer c) = true ->
     (exists ts, is_Some (exec (new cap) (RunPop ts) c)) /\
     forall ts c' e, exec (new cap) (RunPop ts) c = Some (c', e) ->
       (exists r, consumer c' = PopIdle (Some r)) \/
       pop_busy (consumer c') = true /\ pop_rank (consumer c') = pop_rank (consumer c) + 1).
Proof.
  intros Hc Hr. pose proof (rep_shape _ _ _ (new_rep cap Hc)) as Hq.
  destruct (weak_run_inv _ Hq _ _ _ _ _ _ (weak_init_inv _ Hq) Hr) as (m & Hi & _). cbn in Hi.
  split; [intros v Hv|intros Hb]; (split; [by eapply push_can || by eapply pop_can|]); intros ts c' e He;
    destruct (weak_exec_inv _ Hq _ _ _ _ _ _ Hi He) as (m' & [_ _ _ [_ Hp'] (_ & _ & _ & Hk')] & _); cbn in He.
  - destruct (step_push _ _ _ _ _) as [[[[M V] p] e']|] eqn:Es; [|done]. simplify_eq.
    apply (push_moves _ _ _ _ _ _ _ _ Hv Es). by intros ->.
  - destruct (step_pop _ _ _ _ _) as [[[[M V] p] e']|] eqn:Es; [|done]. simplify_eq.
    apply (pop_moves _ _ _ _ _ _ _ Hb Es). by intros ->.
Qed.

(** ** The interleavings of SpscConc.v are among these runs *)

Section sc.
Context (q : SpscQueue).

Record same_state (c : SpscThreads.config) (w : config) : Prop := {
  ss_capacity : capacity (queue c) = capacity q;
  ss_mask : mask (queue c) = mask q;
  ss_length : length (data (queue c)) = length (data q);
  ss_write : latest (mem w) WritePos = write_pos (queue c);
  ss_read : latest (mem w) ReadPos = read_pos (queue c);
  ss_data : forall i v, data (queue c) !! i = Some v -> latest (mem w) (Data i) = v;
  ss_producer : producers c = [producer w];
  ss_consumer : consumers c = [consumer w];
  ss_wf : wf_memory (mem w);
  ss_pclosed : closed (mem w) (p_view w);
  ss_cclosed : closed (mem w) (c_view w);
}.

Lemma sc_push c w qc p e :
  same_state c w -> SpscThreads.step_push (queue c) (producer w) = Some (qc, p, e) ->
  exists a w', exec q a w = Some (w', e) /\ same_state (SpscThreads.mkC qc [p] (consumers c)) w'.
Proof using Type.
  intros [] He. cbn [exec]. destruct (producer w) as [b|v|v x|v x|v x|] eqn:Ep; cbn in He; try done.
  - destruct (load_latest Relaxed WritePos (mem w) (p_view w) ss_wf0 ss_pclosed0) as (ts & V & Hl & _ & Hc).
    exists (RunPush ts). cbn. rewrite Ep. cbn. rewrite Hl, ss_write0. simplify_eq. eexists. split; [done|]. by split.
  - destruct (load_latest Acquire ReadPos (mem w) (p_view w) ss_wf0 ss_pclosed0) as (ts & V & Hl & _ & Hc).
    exists (RunPush ts). cbn. rewrite Ep. cbn. rewrite Hl, ss_read0. unfold no_space in *. rewrite <- ss_capacity0.
    destruct (_ >=? _); simplify_eq; (eexists; split; [done|]; by split).
  - exists (RunPush 0). cbn -[store]. rewrite Ep. cbn -[store]. rewrite <- ss_mask0, <- ss_length0. unfold store_data, index in He.
    destruct (data (queue c) !! _) as [x0|] eqn:Ed; cbn in He; simplify_eq.
    + rewrite decide_True by (by eapply lookup_lt_Some).
      pose proof (store_stored Release (Data (Z.to_nat (Z.land x (mask (queue c))))) v (mem w) (p_view w)) as Hst.
      destruct (store _ _ _ _ _) as [M1 V1] eqn:Est. cbn [fst snd] in Hst. eexists. split; [done|].
      destruct (stored_closed _ _ _ _ _ _ _ Hst ss_wf0 ss_pclosed0) as [Hwf' Hc'].
      destruct (store_latest _ _ _ _ _ _ _ Hst) as [Hnew Hold].
      split; cbn; try done.
      * by rewrite length_insert.
      * by rewrite Hold.
      * by rewrite Hold.
      * intros i y [(<- & <- & _)|[Hne Hi]]%list_lookup_insert_Some; [done|].
        rewrite Hold by congruence. by apply ss_data0.
      * apply (closed_grows (mem w)); [|done]. by apply (stored_grows _ _ _ _ _ _ _ Hst).
    + rewrite decide_False by (apply lookup_ge_None in Ed; lia). eexists. split; [done|]. by split.
  - exists (RunPush 0). cbn -[store]. rewrite Ep. cbn -[store]. simplify_eq.
    pose proof (store_stored Release WritePos (wrapping_add 64 x 1) (mem w) (p_view w)) as Hst.
    destruct (store _ _ _ _ _) as [M1 V1] eqn:Est. cbn [fst snd] in Hst. eexists. split; [done|].
    destruct (stored_closed _ _ _ _ _ _ _ Hst ss_wf0 ss_pclosed0) as [Hwf' Hc'].
    destruct (store_latest _ _ _ _ _ _ _ Hst) as [Hnew Hold].
    split; cbn; try done.
    + by rewrite Hold.
    + intros i y Hi. rewrite Hold by done. by apply ss_data0.
    + apply (closed_grows (mem w)); [|done]. by apply (stored_grows _ _ _ _ _ _ _ Hst).
Qed.

Lemma sc_pop c w qc p e :
  same_state c w -> SpscThreads.step_pop (queue c) (consumer w) = Some (qc, p, e) ->
  exists a w', exec q a w = Some (w', e) /\ same_state (SpscThreads.mkC qc (producers c) [p]) w'.
Proof using Type.
  intros [] He. cbn [exec]. destruct (consumer w) as [b| |x|x|x v|] eqn:Ep; cbn in He; try done.
  - destruct (load_latest Relaxed ReadPos (mem w) (c_view w) ss_wf0 ss_cclosed0) as (ts & V & Hl & _ & Hc).
    exists (RunPop ts). cbn. rewrite Ep. cbn. rewrite Hl, ss_read0. simplify_eq. eexists. split; [done|]. by split.
  - destruct (load_latest Acquire WritePos (mem w) (c_view w) ss_wf0 ss_cclosed0) as (ts & V & Hl & _ & Hc).
    exists (RunPop ts). cbn. rewrite Ep. cbn. rewrite Hl, ss_write0.
    destruct (_ =? _); simplify_eq; (eexists; split; [done|]; by split).
  - destruct (load_latest Acquire (Data (Z.to_nat (Z.land x (mask (queue c))))) (mem w) (c_view w) ss_wf0 ss_cclosed0)
      as (ts & V & Hl & _ & Hc).
    exists (RunPop ts). cbn. rewrite Ep. cbn. rewrite <- ss_mask0, <- ss_length0.
    destruct (data (queue c) !! _) as [v|] eqn:Ed; simplify_eq.
    + rewrite decide_True by (by eapply lookup_lt_Some). rewrite Hl, (ss_data0 _ _ Ed). eexists. split; [done|]. by split.
    + rewrite decide_False by (apply lookup_ge_None in Ed; lia). eexists. split; [done|]. by split.
  - exists (RunPop 0). cbn -[store]. rewrite Ep. cbn -[store]. simplify_eq.
    pose proof (store_stored Release ReadPos (wrapping_add 64 x 1) (mem w) (c_view w)) as Hst.
    destruct (store _ _ _ _ _) as [M1 V1] eqn:Est. cbn [fst snd] in Hst. eexists. split; [done|].
    destruct (stored_closed _ _ _ _ _ _ _ Hst ss_wf0 ss_cclosed0) as [Hwf' Hc'].
    destruct (store_latest _ _ _ _ _ _ _ Hst) as [Hnew Hold].
    split; cbn; try done.
    + by rewrite Hold.
    + intros i y Hi. rewrite Hold by done. by apply ss_data0.
    + apply (closed_grows (mem w)); [|done]. by apply (stored_grows _ _ _ _ _ _ _ Hst).
Qed.

Lemma sc_step c w a c' e :
  same_state c w -> SpscThreads.exec a c = Some (c', e) ->
  exists a' w', exec q a' w = Some (w', e) /\ same_state c' w'.
Proof using Type.
  intros Hs He. pose proof (ss_producer _ _ Hs) as Hp. pose proof (ss_consumer _ _ Hs) as Hk.
  destruct a as [i v|i|i|i]; cbn in He; rewrite ?Hp, ?Hk in He; destruct i as [|i]; try done; cbn in He.
  - destruct (producer w) eqn:Ep; try done. simplify_eq. exists (CallPush v). cbn. rewrite Ep. eexists.
    split; [done|]. destruct Hs. by split.
  - destruct (SpscThreads.step_push _ _) as [[[qc p] e']|] eqn:Es; [|done]. simplify_eq.
    rewrite <- Hk. by apply sc_push.
  - destruct (consumer w) eqn:Ep; try done. simplify_eq. exists CallPop. cbn. rewrite Ep. eexists.
    split; [done|]. destruct Hs. by split.
  - destruct (SpscThreads.step_pop _ _) as [[[qc p] e']|] eqn:Es; [|done]. simplify_eq.
    rewrite <- Hp. by apply sc_pop.
Qed.
End sc.

(** Every interleaving of SpscConc.v with one producer and one consumer is a run
    of this machine with the same events: the one in which every load reads the
    last value. *)
Theorem sc_runs_are_weak_runs cap sched c evs :
  SpscThreads.run sched (SpscThreads.init (new cap) 1 1) = Some (c, evs) ->
  exists sched' w, run (new cap) sched' init = Some (w, evs) /\
    producers c = [producer w] /\ consumers c = [consumer w].
Proof.
  assert (Hgen : forall c0 w0, same_state (new cap) c0 w0 -> SpscThreads.run sched c0 = Some (c, evs) ->
    exists sched' w, run (new cap) sched' w0 = Some (w, evs) /\ same_state (new cap) c w).
  { revert evs. induction sched as [|a sched IH]; intros evs c0 w0 Hs Hr; cbn in Hr.
    - simplify_eq. by exists [], w0.
    - destruct (SpscThreads.exec a c0) as [[c1 e1]|] eqn:He; [|done].
      destruct (SpscThreads.run sched c1) as [[c2 e2]|] eqn:Hr2; [|done]. simplify_eq.
      destruct (sc_step _ _ _ _ _ _ Hs He) as (a' & w1 & Ha & Hs1).
      destruct (IH _ _ _ Hs1 Hr2) as (sched' & w & Hw & Hs2). exists (a' :: sched'), w. cbn. by rewrite Ha, Hw. }
  intros Hr. destruct (Hgen (SpscThreads.init (new cap) 1 1) init) as (sched' & w & Hw & Hs); [|done|].
  - split; try done; try apply initial_wf; try apply initial_closed.
    intros i v. cbn. intros [-> _]%lookup_replicate. done.
  - exists sched', w. split; [done|]. split; apply Hs.
Qed.
End SpscWeak.
