(* ===== verification/IndexSetWeak.v ===== *)
(** * UniqueIndexSet with the memory orderings of the source
    (crates/entangle-lockfree/src/index_set.rs)

    The machine of IndexSetConc.v again, on the memory of WeakMemory.v: a load of
    the head or of a link returns any value that its ordering allows, so a thread
    may work on a head that is long gone; only a compare-exchange that succeeds
    reads the last value.  The configuration of IndexSetConc.v that has the last
    value of every location keeps its invariant, and the steps of this machine
    are proved with the lemmas of that one.

    A chunk belongs to the owner of its index: each index has a cell, the memory
    of the chunk, which its owner loads and stores without synchronisation. *)
From S2P Require Import Prelude Contracts FreeList IndexSet IndexSetConc WeakMemory.
#[local] Open Scope Z_scope.

Module IndexSetWeak.
Import UniqueIndexSet IndexSetThreads.

Inductive loc := Head | Next (i : nat) | Borrowed | Cell (i : nat).
#[export] Instance index_loc_eq_dec : EqDecision loc.
Proof. solve_decision. Defined.

(** A thread of IndexSetConc.v and its view; [seen] is the place of the head that
    it loaded last.  [called] (ghost) is the view at its last call. *)
Record wthread := mkW { local : thread; view_of : view loc; called : view loc }.

Record config := mkC { mem : memory loc; threads : list wthread }.

Section machine.
(** [capacity] never changes. *)
Context (cap : Z).

(** [run_thread]: one access; a load reads the value at place [ts].  A
    compare-exchange that fails is a load: it may read the value it expected. *)
Definition run_thread (ts : nat) (M : memory loc) (V : view loc) (t : thread)
    : option (memory loc * view loc * thread) :=
  match at_ t with
  | Idle | Panicked => None
  | AcqLoad =>
      match load Acquire Head ts M V with
      | Some (old, V) => Some (M, V, (observe old (Z.of_nat ts) t).1)
      | None => None
      end
  | AcqLoop old =>
      let head_idx := extract_head old in
      if head_idx =? SENTINEL
      then Some (M, V, mkT Idle (owned t) (Some (Err NoFreeIndex)) (seen t) (effect t))
      else if decide (Z.to_nat head_idx < Z.to_nat cap)%nat then
        match load Acquire (Next (Z.to_nat head_idx)) ts M V with
        | Some (n, V) => Some (M, V, goto t (AcqCas old n))
        | None => None
        end
      else Some (M, V, goto t Panicked)
  | AcqCas old n =>
      match load Acquire Head ts M V with
      | Some (current, V) => Some (M, V, (observe current (Z.of_nat ts) t).1)
      | None => None
      end
  | AcqCount idx =>
      let (M, V) := rmw Relaxed Relaxed Borrowed (wrapping_add 32 (latest M Borrowed) 1) M V in
      Some (M, V, mkT Idle (idx :: owned t) (Some (Ok idx)) (seen t) (effect t))
  | RelLoad idx =>
      match load Acquire Head ts M V with
      | Some (old, V) => Some (M, V, observe_rel idx old (Z.of_nat ts) t)
      | None => None
      end
  | RelLoop idx old =>
      if decide (Z.to_nat idx < Z.to_nat cap)%nat then
        let (M, V) := store Release (Next (Z.to_nat idx)) (extract_head old) M V in
        Some (M, V, goto t (RelCas idx old))
      else Some (M, V, goto t Panicked)
  | RelCas idx old =>
      match load Acquire Head ts M V with
      | Some (current, V) => Some (M, V, observe_rel idx current (Z.of_nat ts) t)
      | None => None
      end
  | RelCount =>
      let (M, V) := rmw Relaxed Relaxed Borrowed (wrapping_sub 32 (latest M Borrowed) 1) M V in
      Some (M, V, goto t Idle)
  end.

(** A compare-exchange that succeeds. *)
Definition win_thread (M : memory loc) (V : view loc) (t : thread)
    : option (memory loc * view loc * thread * event) :=
  match at_ t with
  | AcqCas old n =>
      if latest M Head =? old then
        let (M, V) := rmw Acquire Release Head (pack n (wrapping_add 32 (extract_tag old) 1)) M V in
        Some (M, V, mkT (AcqCount (extract_head old)) (owned t) None (seen t) (Some (Acquired (extract_head old))),
              Acquired (extract_head old))
      else None
  | RelCas idx old =>
      if latest M Head =? old then
        let (M, V) := rmw Acquire Release Head (pack idx (wrapping_add 32 (extract_tag old) 1)) M V in
        Some (M, V, mkT RelCount (owned t) (returned t) (seen t) (Some (Released idx)), Released idx)
      else None
  | _ => None
  end.

(** Between calls a thread stores to the cell of its [k]-th index, or loads it. *)
Inductive action :=
| CallAcquire
| CallRelease (k : nat)
| Run (ts : nat)
| Win
| WriteCell (k : nat) (v : Z)
| ReadCell (k ts : nat).

Definition act (a : action) (M : memory loc) (w : wthread) : option (memory loc * wthread * list event) :=
  let t := local w in
  let V := view_of w in
  match a with
  | CallAcquire =>
      match at_ t with
      | Idle => Some (M, mkW (mkT AcqLoad (owned t) None (seen t) None) V V, [])
      | _ => None
      end
  | CallRelease k =>
      match at_ t, owned t !! k with
      | Idle, Some idx => Some (M, mkW (mkT (RelLoad idx) (delete k (owned t)) None (seen t) None) V V, [])
      | _, _ => None
      end
  | Run ts =>
      match run_thread ts M V t with
      | Some (M, V, t) => Some (M, mkW t V (called w), [])
      | None => None
      end
  | Win =>
      match win_thread M V t with
      | Some (M, V, t, e) => Some (M, mkW t V (called w), [e])
      | None => None
      end
  | WriteCell k v =>
      match at_ t, owned t !! k with
      | Idle, Some idx =>
          let (M, V) := store Relaxed (Cell (Z.to_nat idx)) v M V in Some (M, mkW t V (called w), [])
      | _, _ => None
      end
  | ReadCell k ts =>
      match at_ t, owned t !! k with
      | Idle, Some idx =>
          match load Relaxed (Cell (Z.to_nat idx)) ts M V with
          | Some (_, V) => Some (M, mkW t V (called w), [])
          | None => None
          end
      | _, _ => None
      end
  end.

(** Thread [i] takes action [a]. *)
Definition exec (i : nat) (a : action) (c : config) : option (config * list event) :=
  match threads c !! i with
  | None => None
  | Some w =>
      match act a (mem c) w with
      | None => None
      | Some (M, w', e) => Some (mkC M (<[i := w']> (threads c)), e)
      end
  end.

Fixpoint run (sched : list (nat * action)) (c : config) : option (config * list event) :=
  match sched with
  | [] => Some (c, [])
  | (i, a) :: sched =>
      match exec i a c with
      | None => None
      | Some (c1, e1) =>
          match run sched c1 with None => None | Some (c2, e2) => Some (c2, e1 ++ e2) end
      end
  end.

(** ** The configuration of the last values *)

Definition state (M : memory loc) : UniqueIndexSet :=
  mk (latest M Head) ((fun i => latest M (Next i)) <$> seq 0 (Z.to_nat cap)) cap (latest M Borrowed).

Definition version_of (M : memory loc) : Z := Z.of_nat (length (M Head)) - 1.

Definition strong (c : config) : IndexSetThreads.config :=
  IndexSetThreads.mkC (state (mem c)) (version_of (mem c)) (local <$> threads c).

(** The memory and the cell of index [x]. *)
Definition belongs (x : Z) (l : loc) : Prop := l = Next (Z.to_nat x) \/ l = Cell (Z.to_nat x).

(** A view that has seen the last value of both. *)
Definition current (M : memory loc) (V : view loc) (x : Z) : Prop :=
  forall l, belongs x l -> (length (M l) <= S (V l))%nat.

(** Message [k] of the head is the top of the stack after [k] events. *)
Definition head_ok (evs : list event) (k : nat) (m : message loc) : Prop :=
  extract_tag (val m) = wrap 32 (Z.of_nat k) /\ valid_idx cap (extract_head (val m)) /\ msg_view m Head = k /\
  exists f, spec_run (seqZ 0 cap) (take k evs) = Some f /\ (extract_head (val m) = SENTINEL -> f = []).

Record memory_ok (M : memory loc) (evs : list event) (free : list Z) : Prop := {
  mo_wf : wf_memory M;
  mo_version : length (M Head) = S (length evs);
  mo_spec : spec_run (seqZ 0 cap) evs = Some free;
  mo_head : forall k m, M Head !! k = Some m -> head_ok evs k m;
  mo_chain : forall k m m', M Head !! k = Some m -> last (M Head) = Some m' -> view_le (msg_view m) (msg_view m');
  mo_next : forall i m, (i < Z.to_nat cap)%nat -> m ∈ M (Next i) -> valid_idx cap (val m);
  mo_free : forall x m, x ∈ free -> last (M Head) = Some m -> current M (msg_view m) x;
}.

(** [acquire] found the stack empty at a moment that is not older than what the
    thread had seen when it called. *)
Definition empty_seen (evs : list event) (w : wthread) : Prop :=
  0 <= seen (local w) /\ (called w Head <= Z.to_nat (seen (local w)) <= length evs)%nat /\
  spec_run (seqZ 0 cap) (take (Z.to_nat (seen (local w))) evs) = Some [].

Definition local_ok (M : memory loc) (V : view loc) (evs : list event) (w : wthread) : Prop :=
  match at_ (local w) with
  | Idle => match returned (local w) with Some (Err _) => empty_seen evs w | _ => True end
  | AcqLoop old =>
      (extract_head old = SENTINEL -> empty_seen evs w) /\
      exists m, 0 <= seen (local w) /\ M Head !! Z.to_nat (seen (local w)) = Some m /\ view_le (msg_view m) V
  | _ => True
  end.

Record thread_ok (M : memory loc) (evs : list event) (w : wthread) : Prop := {
  to_closed : closed M (view_of w);
  to_called : view_le (called w) (view_of w);
  to_held : forall x, x ∈ held (local w) -> current M (view_of w) x;
  to_local : local_ok M (view_of w) evs w;
}.

Record inv (c : config) (evs : list event) (free : list Z) : Prop := {
  i_strong : IndexSetThreads.inv (strong c) free;
  i_mem : memory_ok (mem c) evs free;
  i_threads : forall i w, threads c !! i = Some w -> thread_ok (mem c) evs w;
}.

(** ** Facts about the last values *)

Lemma state_eq M M' : (forall l, (forall x, l <> Cell x) -> latest M' l = latest M l) -> state M' = state M.
Proof using Type.
  intros H. unfold state. f_equal; [by apply H| |by apply H]. apply list_fmap_ext. intros _ i _. by apply H.
Qed.

Lemma lookup_next M i : (i < Z.to_nat cap)%nat -> next (state M) !! i = Some (latest M (Next i)).
Proof using Type. intros Hi. cbn. by rewrite list_lookup_fmap, lookup_seq_lt. Qed.

Lemma insert_next M M' i v : (i < Z.to_nat cap)%nat -> latest M' (Next i) = v ->
  (forall l, l <> Next i -> latest M' l = latest M l) ->
  state M' = mk (latest M Head) (<[i := v]> (next (state M))) cap (latest M Borrowed).
Proof using Type.
  intros Hi Hv Ho. unfold state. rewrite !Ho by done. f_equal. apply list_eq. intros j. cbn.
  destruct (decide (j = i)) as [->|Hne].
  - rewrite list_lookup_insert_eq by (by rewrite length_fmap, length_seq).
    by rewrite list_lookup_fmap, lookup_seq_lt, <- Hv.
  - rewrite list_lookup_insert_ne, !list_lookup_fmap by done.
    destruct (seq 0 (Z.to_nat cap) !! j) as [k|] eqn:Ek; [|done]. apply lookup_seq in Ek as [-> _]. cbn.
    by rewrite Ho by congruence.
Qed.

Lemma strong_insert M c i w :
  strong (mkC M (<[i := w]> (threads c))) =
  IndexSetThreads.mkC (state M) (version_of M) (<[i := local w]> (local <$> threads c)).
Proof using Type. unfold strong. cbn. by rewrite list_fmap_insert. Qed.

Lemma current_le M V W x : current M V x -> view_le V W -> current M W x.
Proof using Type. intros Hc Hle l Hl. specialize (Hc l Hl). specialize (Hle l). lia. Qed.

Lemma current_same M M' V x : (forall l, belongs x l -> M' l = M l) -> current M V x -> current M' V x.
Proof using Type. intros He Hc l Hl. rewrite He by done. by apply Hc. Qed.

Lemma belongs_inj x y l : 0 <= x -> 0 <= y -> belongs x l -> belongs y l -> x = y.
Proof using Type. unfold belongs. intros ?? [->| ->] [[= E]|[= E]]; lia. Qed.

(** What others do leaves what a thread knows. *)
Lemma empty_seen_app evs e w : empty_seen evs w -> empty_seen (evs ++ e) w.
Proof using Type.
  intros (H0 & H1 & H2). split; [done|]. rewrite length_app. split; [lia|]. by rewrite take_app_le by lia.
Qed.

Lemma thread_ok_other M M' evs e w :
  grows M M' -> (forall x l, x ∈ held (local w) -> belongs x l -> M' l = M l) ->
  thread_ok M evs w -> thread_ok M' (evs ++ e) w.
Proof using Type.
  intros Hg Hf [Hc Hca Hh Hl]. split; [by apply (closed_grows M)|done|..].
  - intros x Hx. apply (current_same M); [|by apply Hh]. intros l. by apply Hf.
  - unfold local_ok in *. destruct (at_ (local w)) as [| |old|old n|x|x|x old|x old| |]; try done.
    + destruct (returned (local w)) as [[|]|]; [done|by apply empty_seen_app|done].
    + destruct Hl as (He & m & Hm & Hlk & Hv). split; [intros E; by apply empty_seen_app, He|].
      exists m. split; [done|]. split; [|done]. by apply (grows_lookup M).
Qed.

Lemma head_ok_app evs e k m : (k <= length evs)%nat -> head_ok evs k m -> head_ok (evs ++ e) k m.
Proof using Type. intros Hk (H1 & H2 & H3 & H4). repeat split; try done. by rewrite take_app_le. Qed.

Section facts.
Context (c : config) (evs : list event) (free : list Z) (Hinv : inv c evs free).

Lemma held_index i w x : threads c !! i = Some w -> x ∈ held (local w) -> 0 <= x < cap /\ x ∉ free.
Proof using Hinv.
  intros Hi Hx. apply (held_valid (strong c) free (i_strong _ _ _ Hinv) i (local w) x); [|done].
  cbn. by rewrite list_lookup_fmap, Hi.
Qed.

Lemma held_apart i j w u x : threads c !! i = Some w -> threads c !! j = Some u -> i <> j ->
  x ∈ held (local w) -> x ∉ held (local u).
Proof using Hinv.
  intros Hi Hj. apply (held_disjoint (strong c) free (i_strong _ _ _ Hinv) i j (local w) (local u) x);
    cbn; by rewrite list_lookup_fmap, ?Hi, ?Hj.
Qed.

Lemma strong_lookup i w : threads c !! i = Some w ->
  IndexSetThreads.threads (strong c) !! i = Some (local w) /\
  IndexSetThreads.thread_ok (state (mem c)) (version_of (mem c)) (local w).
Proof using Hinv.
  intros Hi. assert (E : IndexSetThreads.threads (strong c) !! i = Some (local w))
    by (cbn; by rewrite list_lookup_fmap, Hi).
  split; [done|]. apply (inv_threads _ _ (i_strong _ _ _ Hinv) _ _ E).
Qed.

(** A step that leaves the head alone. *)
Lemma quiet_inv i w M w' :
  threads c !! i = Some w ->
  IndexSetThreads.inv (IndexSetThreads.mkC (state M) (version_of M) (<[i := local w']> (local <$> threads c))) free ->
  wf_memory M -> grows (mem c) M -> M Head = mem c Head ->
  (forall x l, 0 <= x -> x ∉ held (local w) -> belongs x l -> M l = mem c l) ->
  (forall j m, (j < Z.to_nat cap)%nat -> m ∈ M (Next j) -> valid_idx cap (val m)) ->
  thread_ok M evs w' ->
  inv (mkC M (<[i := w']> (threads c))) evs free.
Proof using Hinv.
  intros Hi Hs Hwf Hg Hh Hf Hn Hok. split; cbn.
  - by rewrite strong_insert.
  - destruct (i_mem _ _ _ Hinv). split; rewrite ?Hh; try done. intros x m Hx Hm.
    apply (current_same (mem c)); [|by apply mo_free0]. intros l. apply Hf.
    + apply (free_elem (strong c) free (i_strong _ _ _ Hinv)) in Hx. lia.
    + intros Hx'. by apply (held_index i w x Hi Hx').
  - intros j u Hj. apply list_lookup_insert_Some in Hj as [(-> & <- & _)|(Hne & Hj)]; [done|].
    rewrite <- (app_nil_r evs). apply (thread_ok_other (mem c)); [done| |by apply (i_threads _ _ _ Hinv j)].
    intros x l Hx. apply Hf; [by apply (held_index j u)|]. by apply (held_apart j i u w x).
Qed.

(** A step that touches no memory: only a view and a thread change. *)
Lemma view_inv i w t' V :
  threads c !! i = Some w -> held t' ≡ₚ held (local w) -> count t' = count (local w) ->
  IndexSetThreads.thread_ok (state (mem c)) (version_of (mem c)) t' ->
  closed (mem c) V -> view_le (view_of w) V -> local_ok (mem c) V evs (mkW t' V (called w)) ->
  inv (mkC (mem c) (<[i := mkW t' V (called w)]> (threads c))) evs free.
Proof using Hinv.
  intros Hi Hh Hc Hok Hcl Hle Hl. pose proof (i_threads _ _ _ Hinv i w Hi) as [_ Hca Hcur _].
  destruct (strong_lookup i w Hi) as [Hi' _].
  apply (quiet_inv i w); try done.
  - destruct (silent_inv (strong c) free (i_strong _ _ _ Hinv) i (local w) t' Hi' Hh Hc Hok) as (f & [= <-] & Hs).
    exact Hs.
  - apply (i_mem _ _ _ Hinv).
  - intros l. exists []. by rewrite app_nil_r.
  - apply (i_mem _ _ _ Hinv).
  - split; [done|by trans (view_of w)| |done]. cbn. intros x Hx. rewrite Hh in Hx.
    apply (current_le _ (view_of w)); [by apply Hcur|done].
Qed.

(** ** Loads of the head *)

Lemma load_head ts V old V' :
  load Acquire Head ts (mem c) V = Some (old, V') -> closed (mem c) V ->
  closed (mem c) V' /\ view_le V V' /\ (V Head <= ts <= length evs)%nat /\
  knows (state (mem c)) (version_of (mem c)) (Z.of_nat ts) old /\
  exists m, mem c Head !! ts = Some m /\ val m = old /\ view_le (msg_view m) V' /\ head_ok evs ts m.
Proof using Hinv.
  intros Hl Hc. apply load_loaded in Hl. destruct (i_mem _ _ _ Hinv).
  pose proof (loaded_closed _ _ _ _ _ _ _ Hl mo_wf0 Hc) as Hc'.
  destruct Hl as [Hts (m & Hm & Hv & Ha & _) Hle _]. specialize (Ha eq_refl).
  rewrite mo_version0 in Hts. pose proof (mo_head0 _ _ Hm) as Hh.
  split; [done|]. split; [done|]. split; [lia|]. split; [|by exists m].
  destruct Hh as (Htag & Hval & _ & _). rewrite Hv in Htag, Hval. unfold version_of. rewrite mo_version0.
  split; [split; [lia|]|by split]. intros E. cbn. rewrite <- Hv. symmetry. apply latest_msg.
  rewrite last_lookup, mo_version0. by replace ts with (pred (S (length evs))) in Hm by lia.
Qed.

(** The head that [acquire] loads next. *)
Lemma observe_weak_inv i w ts old V :
  threads c !! i = Some w -> held (local w) = owned (local w) ->
  count (local w) = Z.of_nat (length (owned (local w))) ->
  load Acquire Head ts (mem c) (view_of w) = Some (old, V) ->
  inv (mkC (mem c) (<[i := mkW (observe old (Z.of_nat ts) (local w)).1 V (called w)]> (threads c))) evs free.
Proof using Hinv.
  intros Hi Hh Hc Hl. pose proof (i_threads _ _ _ Hinv i w Hi) as [Hcl Hca _ _].
  destruct (load_head _ _ _ _ Hl Hcl) as (Hcl' & Hle & Hts & Hk & m & Hm & Hv & Hmv & (_ & _ & _ & f & Hf & Hnil)).
  assert (Hlocal : forall t', at_ t' = AcqLoop old -> seen t' = Z.of_nat ts ->
    local_ok (mem c) V evs (mkW t' V (called w))).
  { intros t' Hat Hs. unfold local_ok, empty_seen. cbn. rewrite Hat, Hs, Nat2Z.id. split; [|exists m; split; [lia|done]].
    intros E. split; [lia|]. specialize (Hca Head). split; [lia|]. rewrite Hv in Hnil. rewrite Hf. f_equal. by apply Hnil. }
  unfold observe. destruct (extract_head old =? SENTINEL) eqn:E; zbool; cbn [fst];
    (apply (view_inv i w); [done|by rewrite Hh|rewrite Hc; unfold count; cbn; lia| |done|done|by apply Hlocal]);
    (split; [exact Hk|by intros]).
Qed.

Lemma observe_rel_weak_inv i w ts idx old V :
  threads c !! i = Some w -> held (local w) = idx :: owned (local w) ->
  count (local w) = Z.of_nat (length (owned (local w))) + 1 -> returned (local w) = None ->
  load Acquire Head ts (mem c) (view_of w) = Some (old, V) ->
  inv (mkC (mem c) (<[i := mkW (observe_rel idx old (Z.of_nat ts) (local w)) V (called w)]> (threads c))) evs free.
Proof using Hinv.
  intros Hi Hh Hc Hr Hl. pose proof (i_threads _ _ _ Hinv i w Hi) as [Hcl _ _ _].
  destruct (load_head _ _ _ _ Hl Hcl) as (Hcl' & Hle & Hts & (Hk & _ & Hv) & _).
  apply (view_inv i w); try done. by rewrite Hh.
Qed.

(** ** The link of the head *)

Lemma load_link i w old ts n V :
  threads c !! i = Some w -> at_ (local w) = AcqLoop old -> extract_head old <> SENTINEL ->
  load Acquire (Next (Z.to_nat (extract_head old))) ts (mem c) (view_of w) = Some (n, V) ->
  inv (mkC (mem c) (<[i := mkW (goto (local w) (AcqCas old n)) V (called w)]> (threads c))) evs free.
Proof using Hinv.
  intros Hi Hat Hne Hl. destruct (strong_lookup i w Hi) as [_ Hok]. unfold IndexSetThreads.thread_ok in Hok.
  rewrite Hat in Hok. destruct Hok as [Hk _]. pose proof (i_threads _ _ _ Hinv i w Hi) as [Hcl _ _ Hloc].
  unfold local_ok in Hloc. rewrite Hat in Hloc. destruct Hloc as (_ & m & H0 & Hm & Hmv).
  destruct (i_mem _ _ _ Hinv). pose proof (i_strong _ _ _ Hinv) as Hs.
  assert (Hlt : 0 <= extract_head old < cap) by (by destruct Hk as (_ & _ & [?|?])).
  pose proof (load_loaded _ _ _ _ _ _ _ Hl) as Hld.
  pose proof (loaded_closed _ _ _ _ _ _ _ Hld mo_wf0 Hcl) as Hcl'.
  apply (view_inv i w); try done.
  - unfold held. by rewrite Hat.
  - unfold count. by rewrite Hat.
  - split; [exact Hk|]. split; [done|]. split.
    { destruct Hld as [_ (mn & Hmn & <- & _) _ _]. apply (mo_next0 (Z.to_nat (extract_head old))); [lia|].
      by eapply list_elem_of_lookup_2. }
    cbn [seen goto]. intros Hseen. rewrite lookup_next by lia. f_equal. symmetry.
    destruct Hk as ((_ & Hnow) & _). specialize (Hnow Hseen).
    assert (Hin : extract_head old ∈ free).
    { pose proof (inv_chain _ _ Hs) as Hch. cbn in Hch, Hnow. rewrite <- Hnow in Hch.
      destruct (chain_cons _ _ _ Hch Hne) as (f' & x & -> & _). left. }
    assert (Hlast : last (mem c Head) = Some m).
    { rewrite last_lookup, mo_version0. cbn. unfold version_of in Hseen. rewrite mo_version0 in Hseen.
      by replace (Z.to_nat (seen (local w))) with (length evs) in Hm by lia. }
    apply (load_current _ _ _ _ _ _ _ Hl).
    apply (current_le _ _ (view_of w) _ (mo_free0 _ _ Hin Hlast) Hmv). by left.
  - apply (ld_grows _ _ _ _ _ _ _ Hld).
Qed.

(** ** Stores *)

Lemma store_current o l v M V M' V' x :
  stored o l v M V M' V' -> current M V x -> current M' V' x.
Proof using Type.
  intros [(m & Hm & _) Ho [Hl Hv]] Hc l' Hb. destruct (decide (l' = l)) as [->|Hne].
  - rewrite Hl, Hm, length_app. cbn. lia.
  - rewrite Ho, Hv by done. by apply Hc.
Qed.

(** A store to the memory or the link of an index that the thread holds. *)
Lemma store_owned i w o l v M V t' idx :
  threads c !! i = Some w -> stored o l v (mem c) (view_of w) M V -> idx ∈ held (local w) -> belongs idx l ->
  (l = Next (Z.to_nat idx) -> valid_idx cap v) ->
  IndexSetThreads.inv (IndexSetThreads.mkC (state M) (version_of M) (<[i := t']> (local <$> threads c))) free ->
  held t' = held (local w) -> local_ok M V evs (mkW t' V (called w)) ->
  inv (mkC M (<[i := mkW t' V (called w)]> (threads c))) evs free.
Proof using Hinv.
  intros Hi Hst Hidx Hb Hv Hs Hh Hloc. pose proof (i_threads _ _ _ Hinv i w Hi) as [Hcl Hca Hcur _].
  pose proof (i_mem _ _ _ Hinv) as Hm. destruct (held_index i w idx Hi Hidx) as [Hr _].
  destruct (stored_closed _ _ _ _ _ _ _ Hst (mo_wf _ _ _ Hm) Hcl) as [Hwf Hcl'].
  pose proof (stored_view _ _ _ _ _ _ _ Hst Hcl) as Hle. pose proof (st_other _ _ _ _ _ _ _ Hst) as Ho.
  assert (Hne : forall x l', 0 <= x -> x <> idx -> belongs x l' -> l' <> l).
  { intros x l' Hx Hne Hx' ->. apply Hne. by apply (belongs_inj x idx l); [|lia|..]. }
  apply (quiet_inv i w); try done.
  - by apply (stored_grows _ _ _ _ _ _ _ Hst).
  - apply Ho. by destruct Hb as [->| ->].
  - intros x l' Hx Hnx Hl'. apply Ho, (Hne x); [done| |done]. by intros ->.
  - intros j m Hj Hin. destruct (decide (Next j = l)) as [E|E]; [|rewrite Ho in Hin by done; by apply (mo_next _ _ _ Hm j)].
    destruct Hst as [(m' & Hm' & <- & _) _ _]. rewrite E, Hm' in Hin. apply elem_of_app in Hin as [Hin|Hin].
    + rewrite <- E in Hin. by apply (mo_next _ _ _ Hm j).
    + apply list_elem_of_singleton in Hin as ->. apply Hv. destruct Hb as [?|?]; congruence.
  - split; [done|by trans (view_of w)| |done]. cbn. rewrite Hh. intros x Hx.
    apply (store_current _ _ _ _ _ _ _ _ Hst). by apply Hcur.
Qed.

Lemma store_link i w idx old M V :
  threads c !! i = Some w -> at_ (local w) = RelLoop idx old ->
  stored Release (Next (Z.to_nat idx)) (extract_head old) (mem c) (view_of w) M V ->
  inv (mkC M (<[i := mkW (goto (local w) (RelCas idx old)) V (called w)]> (threads c))) evs free.
Proof using Hinv.
  intros Hi Hat Hst. destruct (strong_lookup i w Hi) as [Hi' Hok].
  unfold IndexSetThreads.thread_ok in Hok. rewrite Hat in Hok. destruct Hok as (_ & Hv & _).
  assert (Hidx : idx ∈ held (local w)) by (unfold held; rewrite Hat; left).
  destruct (held_index i w idx Hi Hidx) as [Hr _].
  destruct (store_latest _ _ _ _ _ _ _ Hst) as [Hnew Hold].
  apply (store_owned i w _ _ _ _ _ _ idx Hi Hst Hidx); try done; [by left| |unfold held; by rewrite Hat].
  pose proof (link_inv _ _ (i_strong _ _ _ Hinv) i (local w) idx old Hi' Hat) as Hs. cbn in Hs.
  rewrite (insert_next (mem c) M (Z.to_nat idx) (extract_head old)) by (done || lia).
  unfold version_of in *. by rewrite (st_other _ _ _ _ _ _ _ Hst) by done.
Qed.

Lemma store_cell i w idx v M V :
  threads c !! i = Some w -> at_ (local w) = Idle -> idx ∈ owned (local w) ->
  stored Relaxed (Cell (Z.to_nat idx)) v (mem c) (view_of w) M V ->
  inv (mkC M (<[i := mkW (local w) V (called w)]> (threads c))) evs free.
Proof using Hinv.
  intros Hi Hat Hidx Hst. destruct (strong_lookup i w Hi) as [Hi' _].
  pose proof (i_threads _ _ _ Hinv i w Hi) as [_ _ _ Hloc].
  apply (store_owned i w _ _ _ _ _ _ idx Hi Hst); try done; [by apply owned_held|by right| |].
  - rewrite (state_eq (mem c) M) by (intros l Hl; by apply (store_latest _ _ _ _ _ _ _ Hst)).
    unfold version_of. rewrite (st_other _ _ _ _ _ _ _ Hst) by done. cbn in Hi'. rewrite list_insert_id by done.
    apply (i_strong _ _ _ Hinv).
  - unfold local_ok in *. cbn. by rewrite Hat in *.
Qed.

(** ** The counter *)

Lemma count_weak_inv i w rd wr b t' M V :
  threads c !! i = Some w -> updated rd wr Borrowed b (mem c) (view_of w) M V ->
  held t' ≡ₚ held (local w) ->
  b = wrap 32 (latest (mem c) Borrowed - count (local w) + count t') ->
  IndexSetThreads.thread_ok (state (mem c)) (version_of (mem c)) t' ->
  local_ok M V evs (mkW t' V (called w)) ->
  inv (mkC M (<[i := mkW t' V (called w)]> (threads c))) evs free.
Proof using Hinv.
  intros Hi Hup Hh Hb Hok Hloc. pose proof (i_threads _ _ _ Hinv i w Hi) as [Hcl Hca Hcur _].
  destruct (strong_lookup i w Hi) as [Hi' _]. destruct (updated_latest _ _ _ _ _ _ _ _ Hup) as [Hnew Hold].
  pose proof (updated_grows _ _ _ _ _ _ _ _ Hup) as Hg. destruct Hup as [_ Ho _ Hle [Hwf Hcl']].
  assert (Hob : forall x l, belongs x l -> M l = mem c l) by (intros x l [->| ->]; by apply Ho).
  apply (quiet_inv i w); try done; [| by apply Ho|by intros; eapply Hob| |].
  - pose proof (count_inv _ _ (i_strong _ _ _ Hinv) i (local w) t' b Hi' Hh Hb Hok) as Hs. cbn in Hs.
    unfold version_of in *. rewrite Ho by done. unfold state in *. rewrite Hnew, Hold by done.
    by rewrite (list_fmap_ext (fun j => latest M (Next j)) (fun j => latest (mem c) (Next j)) _)
      by (intros; by apply Hold).
  - intros j m Hj. rewrite Ho by done. by apply (mo_next _ _ _ (i_mem _ _ _ Hinv) j).
  - split; [done|by trans (view_of w)| |done]. cbn. intros x Hx. rewrite Hh in Hx.
    apply (current_same (mem c)); [intros l; by apply Hob|]. apply (current_le _ (view_of w)); [by apply Hcur|done].
Qed.

(** ** Compare-exchanges that succeed *)

Lemma win_inv i w v t' M V e free' :
  threads c !! i = Some w -> updated Acquire Release Head v (mem c) (view_of w) M V ->
  IndexSetThreads.inv (IndexSetThreads.mkC (state M) (version_of M) (<[i := t']> (local <$> threads c))) free' ->
  spec_step free e = Some free' ->
  (forall x, x ∈ free' \/ x ∈ held t' -> x ∈ free \/ x ∈ held (local w)) ->
  local_ok M V (evs ++ [e]) (mkW t' V (called w)) ->
  inv (mkC M (<[i := mkW t' V (called w)]> (threads c))) (evs ++ [e]) free'.
Proof using Hinv.
  intros Hi Hup Hs He Hin Hloc. pose proof (i_threads _ _ _ Hinv i w Hi) as [Hcl Hca Hcur _].
  destruct (i_mem _ _ _ Hinv). pose proof (updated_grows _ _ _ _ _ _ _ _ Hup) as Hg.
  destruct (updated_latest _ _ _ _ _ _ _ _ Hup) as [Hnew _].
  destruct Hup as [(m & m' & Hlast & Hmsgs & Hval & Hat & Hmm & HmV & HVm) Ho _ Hle [Hwf Hcl']].
  specialize (HmV eq_refl). specialize (HVm eq_refl).
  assert (Hob : forall x l, belongs x l -> M l = mem c l) by (intros x l [->| ->]; by apply Ho).
  assert (Hlast' : last (M Head) = Some m') by (by rewrite Hmsgs, last_snoc).
  assert (Hcurr : forall x, x ∈ free' \/ x ∈ held t' -> current M V x).
  { intros x Hx. apply (current_same (mem c)); [intros l; by apply Hob|].
    destruct (Hin x Hx) as [Hx'|Hx']; [apply (current_le _ (msg_view m)); [by apply mo_free0|done]|].
    apply (current_le _ (view_of w)); [by apply Hcur|done]. }
  assert (Hrun : spec_run (seqZ 0 cap) (evs ++ [e]) = Some free') by (rewrite spec_run_app, mo_spec0; cbn; by rewrite He).
  assert (Hlen : length (M Head) = S (length (evs ++ [e])))
    by (rewrite Hmsgs, !length_app, mo_version0; cbn; lia).
  split; cbn.
  - by rewrite strong_insert.
  - split; [done..| | | |].
    + intros k mk Hk. rewrite Hmsgs in Hk. apply lookup_app_Some in Hk as [Hk|[Hge Hk]].
      { apply head_ok_app; [|by apply mo_head0]. apply lookup_lt_Some in Hk. lia. }
      apply list_lookup_singleton_Some in Hk as [Hk <-]. assert (k = S (length evs)) as -> by lia.
      pose proof (inv_tag _ _ Hs) as Ht. pose proof (head_valid _ _ Hs) as Hv. pose proof (inv_chain _ _ Hs) as Hch.
      cbn in Ht, Hv, Hch. rewrite Hnew, <- Hval in Ht, Hv, Hch. unfold version_of in Ht.
      split; [rewrite Ht, Hlen, length_app; cbn; f_equal; lia|]. split; [done|]. split; [by rewrite Hat, mo_version0|].
      exists free'. split; [by rewrite firstn_all2 by (rewrite length_app; cbn; lia)|].
      intros E. rewrite E in Hch. by apply chain_nil in Hch.
    + intros k mk mk' Hk E. rewrite Hlast' in E. injection E as <-. rewrite Hmsgs in Hk.
      apply lookup_app_Some in Hk as [Hk|[_ Hk]]; [trans (msg_view m); [by apply (mo_chain0 k)|done]|].
      by apply list_lookup_singleton_Some in Hk as [_ <-].
    + intros j mj Hj. rewrite Ho by done. by apply mo_next0.
    + intros x mx Hx E. rewrite Hlast' in E. injection E as <-. apply (current_le _ V); [|done]. apply Hcurr. by left.
  - intros j u Hj. apply list_lookup_insert_Some in Hj as [(-> & <- & _)|(Hne & Hj)].
    + split; [done|by trans (view_of w)| |done]. intros x Hx. apply Hcurr. by right.
    + apply (thread_ok_other (mem c)); [done| |by apply (i_threads _ _ _ Hinv j)]. intros x l _. apply Hob.
Qed.

Lemma win_state i w v M V t' s ver free' :
  threads c !! i = Some w -> updated Acquire Release Head v (mem c) (view_of w) M V ->
  IndexSetThreads.inv (IndexSetThreads.mkC s ver (<[i := t']> (local <$> threads c))) free' ->
  s = mk v (next (state (mem c))) cap (latest (mem c) Borrowed) -> ver = version_of (mem c) + 1 ->
  IndexSetThreads.inv (IndexSetThreads.mkC (state M) (version_of M) (<[i := t']> (local <$> threads c))) free'.
Proof using Type.
  intros Hi Hup Hs -> ->. destruct (updated_latest _ _ _ _ _ _ _ _ Hup) as [Hnew Hold].
  destruct Hup as [(m & m' & _ & Hmsgs & _) _ _ _ _].
  assert (E1 : version_of M = version_of (mem c) + 1) by (unfold version_of; rewrite Hmsgs, length_app; cbn; lia).
  assert (E2 : state M = mk v (next (state (mem c))) cap (latest (mem c) Borrowed)).
  { unfold state. rewrite Hnew, Hold by done. f_equal. apply list_fmap_ext. intros. by apply Hold. }
  by rewrite E1, E2.
Qed.

(** ** Every action keeps the invariant *)

Lemma updated_rmw i w rd wr l v :
  threads c !! i = Some w ->
  updated rd wr l v (mem c) (view_of w) (rmw rd wr l v (mem c) (view_of w)).1 (rmw rd wr l v (mem c) (view_of w)).2.
Proof using Hinv. intros Hi. apply rmw_updated; [apply (i_mem _ _ _ Hinv)|apply (i_threads _ _ _ Hinv i w Hi)]. Qed.

Lemma run_weak_inv i w ts M V t' :
  threads c !! i = Some w -> run_thread ts (mem c) (view_of w) (local w) = Some (M, V, t') ->
  inv (mkC M (<[i := mkW t' V (called w)]> (threads c))) evs free.
Proof using Hinv.
  intros Hi Hr. destruct (strong_lookup i w Hi) as [Hi' Hok]. unfold IndexSetThreads.thread_ok in Hok.
  pose proof (i_threads _ _ _ Hinv i w Hi) as [Hcl Hca Hcur Hloc].
  unfold run_thread in Hr. destruct (at_ (local w)) as [| |old|old n|x|x|x old|x old| |] eqn:Hat; try done.
  - destruct (load _ _ _ _ _) as [[old V1]|] eqn:El; [|done]. simplify_eq.
    apply (observe_weak_inv i w); [done|unfold held|unfold count|done]; rewrite Hat; done || lia.
  - unfold local_ok in Hloc. rewrite Hat in Hloc. destruct Hok as [Hk He], Hloc as [Hse _].
    destruct (_ =? SENTINEL) eqn:E; zbool.
    { simplify_eq. apply (view_inv i w); try done; [unfold held; by rewrite Hat|unfold count; by rewrite Hat|by apply He|].
      unfold local_ok. cbn. by apply Hse. }
    rewrite decide_True in Hr by (destruct Hk as (_ & _ & [?|?]); [done|cbn in *; lia]).
    destruct (load _ _ _ _ _) as [[n V1]|] eqn:El; [|done]. simplify_eq. by apply (load_link i w old ts).
  - destruct (load _ _ _ _ _) as [[old1 V1]|] eqn:El; [|done]. simplify_eq.
    apply (observe_weak_inv i w); [done|unfold held|unfold count|done]; rewrite Hat; done || lia.
  - pose proof (updated_rmw i w Relaxed Relaxed Borrowed (wrapping_add 32 (latest (mem c) Borrowed) 1) Hi) as Hup.
    destruct (rmw _ _ _ _ _ _) as [M1 V1]. simplify_eq.
    apply (count_weak_inv i w _ _ _ _ _ _ Hi Hup); [unfold held; by rewrite Hat| |done|done].
    unfold wrapping_add, count. rewrite Hat. cbn [at_ owned length]. f_equal. lia.
  - destruct (load _ _ _ _ _) as [[old V1]|] eqn:El; [|done]. simplify_eq.
    apply (observe_rel_weak_inv i w); [done|unfold held|unfold count|done|done]; rewrite Hat; done || lia.
  - assert (Hx : x ∈ held (local w)) by (unfold held; rewrite Hat; left).
    rewrite decide_True in Hr by (pose proof (held_index i w x Hi Hx); lia).
    pose proof (store_stored Release (Next (Z.to_nat x)) (extract_head old) (mem c) (view_of w)) as Hst.
    destruct (store _ _ _ _ _) as [M1 V1]. simplify_eq. by apply (store_link i w x old).
  - destruct (load _ _ _ _ _) as [[old1 V1]|] eqn:El; [|done]. simplify_eq.
    apply (observe_rel_weak_inv i w); [done|unfold held|unfold count|apply Hok|done]; rewrite Hat; done || lia.
  - pose proof (updated_rmw i w Relaxed Relaxed Borrowed (wrapping_sub 32 (latest (mem c) Borrowed) 1) Hi) as Hup.
    destruct (rmw _ _ _ _ _ _) as [M1 V1]. simplify_eq.
    apply (count_weak_inv i w _ _ _ _ _ _ Hi Hup); [unfold held; by rewrite Hat| | |].
    + unfold wrapping_sub, count. rewrite Hat. cbn [at_ owned goto length]. f_equal. lia.
    + unfold IndexSetThreads.thread_ok. cbn. by rewrite Hok.
    + unfold local_ok. cbn. by rewrite Hok.
Qed.

Lemma win_weak_inv i w M V t' e :
  threads c !! i = Some w -> in_window (strong c) -> win_thread (mem c) (view_of w) (local w) = Some (M, V, t', e) ->
  exists free', inv (mkC M (<[i := mkW t' V (called w)]> (threads c))) (evs ++ [e]) free'.
Proof using Hinv.
  intros Hi Hwin Hr. destruct (strong_lookup i w Hi) as [Hi' _]. pose proof (i_strong _ _ _ Hinv) as Hs.
  unfold win_thread in Hr. destruct (at_ (local w)) as [| |old|old n|x|x|x old|x old| |] eqn:Hat; try done;
    destruct (_ =? old) eqn:E; zbool; try done.
  - pose proof (updated_rmw i w Acquire Release Head (pack n (wrapping_add 32 (extract_tag old) 1)) Hi) as Hup.
    destruct (rmw _ _ _ _ _ _) as [M1 V1]. simplify_eq.
    destruct (acq_cas_inv _ _ Hs i (local w) _ n Hi' Hat Hwin eq_refl) as (free' & Hf & Hs').
    exists free'. apply (win_inv i w _ _ _ _ _ _ Hi Hup); try done.
    + by apply (win_state i w _ _ _ _ _ _ _ Hi Hup Hs').
    + rewrite Hf. cbn. by rewrite Z.eqb_refl.
    + unfold held at 2. rewrite Hat, Hf. cbn. intros y. rewrite !elem_of_cons. tauto.
  - pose proof (updated_rmw i w Acquire Release Head (pack x (wrapping_add 32 (extract_tag old) 1)) Hi) as Hup.
    destruct (rmw _ _ _ _ _ _) as [M1 V1]. simplify_eq.
    destruct (rel_cas_inv _ _ Hs i (local w) x _ Hi' Hat eq_refl) as [Hnf Hs'].
    exists (x :: free). apply (win_inv i w _ _ _ _ _ _ Hi Hup); try done.
    + by apply (win_state i w _ _ _ _ _ _ _ Hi Hup Hs').
    + cbn. by rewrite decide_False.
    + unfold held at 2. rewrite Hat. cbn. intros y. rewrite !elem_of_cons. tauto.
Qed.

(** A call: the thread's view stays, and is the one it called with. *)
Lemma call_weak_inv i w t' :
  threads c !! i = Some w -> held t' ≡ₚ held (local w) -> count t' = count (local w) ->
  IndexSetThreads.thread_ok (state (mem c)) (version_of (mem c)) t' ->
  match at_ t' with Idle | AcqLoop _ => False | _ => True end ->
  inv (mkC (mem c) (<[i := mkW t' (view_of w) (view_of w)]> (threads c))) evs free.
Proof using Hinv.
  intros Hi Hh Hc Hok Hp. pose proof (i_threads _ _ _ Hinv i w Hi) as [Hcl Hca Hcur _].
  destruct (strong_lookup i w Hi) as [Hi' _]. apply (quiet_inv i w); try done.
  - destruct (silent_inv (strong c) free (i_strong _ _ _ Hinv) i (local w) t' Hi' Hh Hc Hok) as (f & [= <-] & Hs).
    exact Hs.
  - apply (i_mem _ _ _ Hinv).
  - intros l. exists []. by rewrite app_nil_r.
  - apply (i_mem _ _ _ Hinv).
  - split; [done|done| |].
    + cbn. intros x Hx. rewrite Hh in Hx. by apply Hcur.
    + unfold local_ok. cbn. by destruct (at_ t').
Qed.

Lemma exec_weak_inv i a c' e :
  in_window (strong c) -> exec i a c = Some (c', e) -> exists free', inv c' (evs ++ e) free'.
Proof using Hinv.
  intros Hwin He. unfold exec in He. destruct (threads c !! i) as [w|] eqn:Hi; [|done].
  destruct (act a (mem c) w) as [[[M w'] e']|] eqn:Ha; [|done]. injection He as <- <-.
  pose proof (i_threads _ _ _ Hinv i w Hi) as [Hcl Hca Hcur Hloc].
  destruct a as [|k|ts| |k v|k ts]; unfold act in Ha.
  - destruct (at_ (local w)) eqn:Hat; try done. injection Ha as <- <- <-. rewrite app_nil_r. exists free.
    apply call_weak_inv; try done; [unfold held; by rewrite Hat|unfold count; by rewrite Hat].
  - destruct (at_ (local w)) eqn:Hat; try done. destruct (owned (local w) !! k) as [x|] eqn:Hk; [|done].
    injection Ha as <- <- <-. rewrite app_nil_r. exists free. pose proof (delete_Permutation _ _ _ Hk) as Hp.
    apply call_weak_inv; try done; [unfold held; rewrite Hat; by symmetry|].
    unfold count. rewrite Hat. pose proof (Permutation_length Hp). cbn in *. lia.
  - destruct (run_thread _ _ _ _) as [[[M1 V1] t1]|] eqn:Er; [|done]. injection Ha as <- <- <-.
    rewrite app_nil_r. exists free. by apply (run_weak_inv i w ts).
  - destruct (win_thread _ _ _) as [[[[M1 V1] t1] e1]|] eqn:Er; [|done]. injection Ha as <- <- <-.
    by apply (win_weak_inv i w).
  - destruct (at_ (local w)) eqn:Hat; try done. destruct (owned (local w) !! k) as [x|] eqn:Hk; [|done].
    pose proof (store_stored Relaxed (Cell (Z.to_nat x)) v (mem c) (view_of w)) as Hst.
    destruct (store _ _ _ _ _) as [M1 V1]. injection Ha as <- <- <-. rewrite app_nil_r. exists free.
    apply (store_cell i w x v); try done. by eapply list_elem_of_lookup_2.
  - destruct (at_ (local w)) eqn:Hat; try done. destruct (owned (local w) !! k) as [x|] eqn:Hk; [|done].
    destruct (load _ _ _ _ _) as [[v V1]|] eqn:El; [|done]. injection Ha as <- <- <-. rewrite app_nil_r. exists free.
    apply load_loaded in El. destruct (strong_lookup i w Hi) as [_ Hok].
    apply (view_inv i w); try done; [by apply (loaded_closed _ _ _ _ _ _ _ El); [apply (i_mem _ _ _ Hinv)|]| |].
    + apply (ld_grows _ _ _ _ _ _ _ El).
    + unfold local_ok in *. cbn. by rewrite Hat in *.
Qed.
End facts.
End machine.

(** Every location has one value, that of the constructor. *)
Definition init (s : UniqueIndexSet) (n : nat) : config :=
  mkC (initial (fun l => match l with
         | Head => head s | Next i => default 0 (next s !! i) | Borrowed => borrowed s | Cell _ => 0 end))
      (replicate n (mkW new_thread bottom bottom)).

Inductive reach (cap : Z) (c0 : config) : config -> list event -> Prop :=
| weak_refl : reach cap c0 c0 []
| weak_step c evs i a c' e :
    reach cap c0 c evs -> in_window (strong cap c) -> exec cap i a c = Some (c', e) ->
    reach cap c0 c' (evs ++ e).

Lemma strong_init cap s n : new cap = Ret s -> strong cap (init s n) = IndexSetThreads.init s n.
Proof.
  intros Hn. pose proof (init_inv cap s n Hn) as Hi.
  assert (E : capacity s = cap) by (unfold new in Hn; case_match; by simplify_eq).
  unfold strong, init, IndexSetThreads.init, state. cbn. rewrite fmap_replicate. f_equal.
  destruct s as [h nx cp b]. cbn in *. f_equal; [|done]. pose proof (inv_len _ _ Hi) as Hlen. cbn in Hlen.
  apply list_eq. intros i. rewrite list_lookup_fmap. rewrite E in Hlen.
  destruct (decide (i < Z.to_nat cap)%nat) as [Hlt|Hge].
  - rewrite lookup_seq_lt by done. cbn. unfold latest, initial. cbn.
    destruct (lookup_lt_is_Some_2 nx i ltac:(lia)) as [y Hy]. by rewrite Hy.
  - rewrite lookup_seq_ge by lia. cbn. symmetry. apply lookup_ge_None. lia.
Qed.

Lemma weak_index_init cap s n : new cap = Ret s -> inv cap (init s n) [] (seqZ 0 cap).
Proof.
  intros Hn. pose proof (init_inv cap s n Hn) as Hi. pose proof (strong_init cap s n Hn) as Hst.
  assert (E : capacity s = cap) by (unfold new in Hn; case_match; by simplify_eq).
  split.
  - by rewrite Hst.
  - pose proof (inv_tag _ _ Hi) as Ht. pose proof (head_valid _ _ Hi) as Hv. pose proof (inv_chain _ _ Hi) as Hch.
    cbn in Ht, Hv, Hch. rewrite E in Hv. split; cbn; try done.
    + apply initial_wf.
    + intros k m Hk. apply list_lookup_singleton_Some in Hk as [-> <-]. split; [done|]. split; [done|]. split; [done|].
      exists (seqZ 0 cap). split; [done|]. cbn. intros E0. rewrite E0 in Hch. by apply chain_nil in Hch.
    + intros k m m' Hk [= <-]. by apply list_lookup_singleton_Some in Hk as [_ <-].
    + intros i m Hlt Hm. apply list_elem_of_singleton in Hm as ->. cbn. pose proof (inv_next _ _ Hi) as Hnx. cbn in Hnx.
      rewrite E in Hnx. pose proof (inv_len _ _ Hi) as Hlen. cbn in Hlen. rewrite E in Hlen.
      destruct (lookup_lt_is_Some_2 (next s) i ltac:(lia)) as [y Hy]. rewrite Hy. cbn.
      apply Hnx. by eapply list_elem_of_lookup_2.
    + intros x m _ [= <-] l _. cbn. lia.
  - intros i w Hw. apply lookup_replicate in Hw as [-> _]. split; cbn; [apply initial_closed|done|set_solver|done].
Qed.

Lemma weak_index_inv cap s n c evs :
  new cap = Ret s -> reach cap (init s n) c evs -> exists free, inv cap c evs free.
Proof.
  intros Hn. induction 1 as [|c evs i a c' e _ (f & Hf) Hw He]; [eexists; by apply weak_index_init|].
  by apply (exec_weak_inv cap c evs f Hf i a).
Qed.

(** ** Properties *)

(** C8: with the orderings of the source, whatever values the loads return
    within what these allow: the successful compare-exchanges are pushes and pops
    of one stack of free indices, in the order of the events, and the stack is
    the list that the last values link; no thread panics; what a finished
    [acquire] returns was popped by it, and when it fails the stack was empty at
    some moment, not older than what the thread had seen when it called. *)
Theorem weak_index_set_stack cap s n c evs :
  new cap = Ret s -> reach cap (init s n) c evs ->
  exists free,
    spec_run (seqZ 0 cap) evs = Some free /\
    chain (next (state cap (mem c))) (extract_head (latest (mem c) Head)) free /\
    forall i w, threads c !! i = Some w ->
      at_ (local w) <> Panicked /\
      (at_ (local w) = Idle ->
       match returned (local w) with
       | Some (Ok idx) => effect (local w) = Some (Acquired idx)
       | Some (Err NoFreeIndex) =>
           exists k, (called w Head <= k <= length evs)%nat /\ spec_run (seqZ 0 cap) (take k evs) = Some []
       | None => True
       end).
Proof.
  intros Hn Hr. destruct (weak_index_inv _ _ _ _ _ Hn Hr) as (free & Hi). exists free.
  split; [apply (i_mem _ _ _ _ Hi)|]. split; [apply (i_strong _ _ _ _ Hi)|]. intros i w Hw.
  destruct (strong_lookup _ _ _ _ Hi i w Hw) as [_ Hok]. unfold IndexSetThreads.thread_ok in Hok.
  split; [intros E; by rewrite E in Hok|]. intros E. rewrite E in Hok.
  pose proof (to_local _ _ _ _ (i_threads _ _ _ _ Hi i w Hw)) as Hl. unfold local_ok in Hl. rewrite E in Hl.
  destruct (returned (local w)) as [[x|[]]|]; try done. destruct Hl as (_ & Hk & Hs). by eexists.
Qed.

(** C7: an index goes from owner to owner with its memory: an index that a
    thread owns is in range and owned by no other thread; the owner has seen the
    last value of the link and of the cell of the index, whoever stored it, so
    all its unsynchronised loads return the last value, and its stores can only
    come after all others. *)
Theorem weak_index_set_handover cap s n c evs i w x :
  new cap = Ret s -> reach cap (init s n) c evs ->
  threads c !! i = Some w -> x ∈ owned (local w) ->
  0 <= x < cap /\
  (forall j u, threads c !! j = Some u -> i <> j -> x ∉ owned (local u)) /\
  forall l, belongs x l ->
    length (mem c l) = S (view_of w l) /\
    forall o ts v V, load o l ts (mem c) (view_of w) = Some (v, V) -> v = latest (mem c) l.
Proof.
  intros Hn Hr Hw Hx. destruct (weak_index_inv _ _ _ _ _ Hn Hr) as (free & Hi).
  pose proof (owned_held _ _ Hx) as Hh. destruct (held_index _ _ _ _ Hi i w x Hw Hh) as [Hb _].
  split; [done|]. split.
  { intros j u Hu Hne Hxu. apply (held_apart _ _ _ _ Hi i j w u x Hw Hu Hne Hh). by apply owned_held. }
  intros l Hl. destruct (i_threads _ _ _ _ Hi i w Hw) as [Hc _ Hcur _]. specialize (Hcur x Hh l Hl).
  split; [specialize (Hc l); lia|]. intros o ts v V Hld. by apply (load_current _ _ _ _ _ _ _ Hld).
Qed.

(** Lock-freedom: a compare-exchange can succeed, or some other one has
    succeeded since the head that the thread loaded. *)
Theorem weak_index_set_lock_free cap s n c evs i w :
  new cap = Ret s -> reach cap (init s n) c evs -> threads c !! i = Some w ->
  match at_ (local w) with AcqCas _ _ | RelCas _ _ => True | _ => False end ->
  (exists c' e, exec cap i Win c = Some (c', [e])) \/ seen (local w) < Z.of_nat (length evs).
Proof.
  intros Hn Hr Hw Hp. destruct (weak_index_inv _ _ _ _ _ Hn Hr) as (free & Hi).
  destruct (strong_lookup _ _ _ _ Hi i w Hw) as [_ Hok]. pose proof (mo_version _ _ _ _ (i_mem _ _ _ _ Hi)) as Hlen.
  assert (Hcas : forall old, fresh (state cap (mem c)) (version_of (mem c)) (seen (local w)) old ->
    latest (mem c) Head = old \/ seen (local w) < Z.of_nat (length evs)).
  { intros old [Hle Heq]. unfold version_of in *. rewrite Hlen in *.
    destruct (decide (seen (local w) = Z.of_nat (length evs))) as [E|E]; [left|right; lia].
    symmetry. apply Heq. lia. }
  unfold IndexSetThreads.thread_ok in Hok. unfold exec. rewrite Hw. cbn. unfold win_thread.
  destruct (at_ (local w)) as [| |old|old nx|x|x|x old|x old| |] eqn:E; try done.
  - destruct Hok as [[Hf _] _]. destruct (Hcas old Hf) as [<-|Hlt]; [left|by right].
    rewrite Z.eqb_refl. destruct (rmw _ _ _ _ _ _) as [M V]. by do 2 eexists.
  - destruct Hok as (_ & _ & Hf & _). destruct (Hcas old Hf) as [<-|Hlt]; [left|by right].
    rewrite Z.eqb_refl. destruct (rmw _ _ _ _ _ _) as [M V]. by do 2 eexists.
Qed.

(** ** The interleavings of IndexSetConc.v are among these runs *)

Section sc.
Context (cap : Z).

Definition quiet_event (e : event) : bool := match e with FoundEmpty => false | _ => true end.

Record same_state (c : IndexSetThreads.config) (w : config) : Prop := {
  ss_strong : strong cap w = c;
  ss_wf : wf_memory (mem w);
  ss_closed : forall i t, threads w !! i = Some t -> closed (mem w) (view_of t);
}.

Lemma same_update w i t c' M V ca :
  same_state c' (mkC M (<[i := mkW t V ca]> (threads w))) <->
  IndexSetThreads.mkC (state cap M) (version_of M) (<[i := t]> (local <$> threads w)) = c' /\ wf_memory M /\
  forall j u, <[i := mkW t V ca]> (threads w) !! j = Some u -> closed M (view_of u).
Proof using Type.
  pose proof (strong_insert cap M w i (mkW t V ca)) as E. cbn [local] in E. rewrite <- E. split; [by intros []|]. intros (? & ? & ?). by split.
Qed.

(** A thread moves, and its view with it; memory grows. *)
Lemma same_step c w i u t M V ca s ver :
  same_state c w -> threads w !! i = Some u -> wf_memory M -> closed M V -> grows (mem w) M ->
  state cap M = s -> version_of M = ver ->
  same_state (IndexSetThreads.mkC s ver (<[i := t]> (IndexSetThreads.threads c)))
             (mkC M (<[i := mkW t V ca]> (threads w))).
Proof using Type.
  intros [<- Hwf Hcl] Hi Hwf' Hc' Hg <- <-. apply same_update. cbn. split; [done|]. split; [done|].
  intros j x Hj. apply list_lookup_insert_Some in Hj as [(-> & <- & _)|(_ & Hj)]; [done|].
  apply (closed_grows (mem w)); [done|]. by apply (Hcl j).
Qed.

Lemma load_last c w i u l : same_state c w -> threads w !! i = Some u ->
  exists ts V, load Acquire l ts (mem w) (view_of u) = Some (latest (mem w) l, V) /\ S ts = length (mem w l) /\
    closed (mem w) V.
Proof using Type.
  intros [_ Hwf Hc] Hi. by apply load_latest, (Hc i).
Qed.

Lemma same_silent c w i u t V ca :
  same_state c w -> threads w !! i = Some u -> closed (mem w) V ->
  same_state (IndexSetThreads.mkC (set c) (version c) (<[i := t]> (IndexSetThreads.threads c)))
             (mkC (mem w) (<[i := mkW t V ca]> (threads w))).
Proof using Type.
  intros Hs Hi Hc. pose proof Hs as [<- Hwf _]. apply (same_step _ w i u); try done. intros l. exists []. by rewrite app_nil_r.
Qed.

(** The update of the head. *)
Lemma same_win c w i u t v :
  same_state c w -> threads w !! i = Some u ->
  let r := rmw Acquire Release Head v (mem w) (view_of u) in
  same_state (IndexSetThreads.mkC (mk v (next (set c)) (capacity (set c)) (borrowed (set c))) (version c + 1)
                (<[i := t]> (IndexSetThreads.threads c)))
             (mkC r.1 (<[i := mkW t r.2 (called u)]> (threads w))).
Proof using Type.
  intros Hs Hi r. pose proof Hs as [<- Hwf Hc].
  pose proof (rmw_updated Acquire Release Head v (mem w) (view_of u) Hwf (Hc i u Hi)) as Hup. fold r in Hup.
  destruct (updated_latest _ _ _ _ _ _ _ _ Hup) as [Hnew Hold]. pose proof (updated_grows _ _ _ _ _ _ _ _ Hup) as Hg.
  destruct Hup as [(m & m' & _ & Hm & _) Ho _ _ [Hwf' Hc']]. apply (same_step _ w i u); try done.
  - unfold state. rewrite Hnew, Hold by done. cbn. f_equal. apply list_fmap_ext. intros. by apply Hold.
  - unfold version_of. cbn. unfold version_of. rewrite Hm, length_app. cbn. lia.
Qed.

Lemma same_count c w i u t b :
  same_state c w -> threads w !! i = Some u ->
  let r := rmw Relaxed Relaxed Borrowed b (mem w) (view_of u) in
  same_state (IndexSetThreads.mkC (mk (head (set c)) (next (set c)) (capacity (set c)) b) (version c)
                (<[i := t]> (IndexSetThreads.threads c)))
             (mkC r.1 (<[i := mkW t r.2 (called u)]> (threads w))).
Proof using Type.
  intros Hs Hi r. pose proof Hs as [<- Hwf Hc].
  pose proof (rmw_updated Relaxed Relaxed Borrowed b (mem w) (view_of u) Hwf (Hc i u Hi)) as Hup. fold r in Hup.
  destruct (updated_latest _ _ _ _ _ _ _ _ Hup) as [Hnew Hold]. pose proof (updated_grows _ _ _ _ _ _ _ _ Hup) as Hg.
  destruct Hup as [_ Ho _ _ [Hwf' Hc']]. apply (same_step _ w i u); try done.
  - unfold state. rewrite Hnew, Hold by done. cbn. f_equal. apply list_fmap_ext. intros. by apply Hold.
  - unfold version_of. cbn. unfold version_of. by rewrite Ho.
Qed.

Lemma observe_events old ver t t' e : observe old ver t = (t', e) -> filter quiet_event e = [].
Proof using Type. unfold observe. destruct (_ =? _); by intros [= <- <-]. Qed.

(** What the other machine does, with the same moves of the stack. *)
Definition follows (c : IndexSetThreads.config) (w : config) (i : nat) (s : UniqueIndexSet) (ver : Z) (t : thread)
    (e : list event) : Prop :=
  exists a w', exec cap i a w = Some (w', filter quiet_event e) /\
    same_state (IndexSetThreads.mkC s ver (<[i := t]> (IndexSetThreads.threads c))) w'.

(** A step of one thread, when it can be taken with some choice. *)
Lemma follows_run c w i u t M V s ver e ts :
  threads w !! i = Some u -> run_thread cap ts (mem w) (view_of u) (local u) = Some (M, V, t) ->
  filter quiet_event e = [] ->
  same_state (IndexSetThreads.mkC s ver (<[i := t]> (IndexSetThreads.threads c)))
             (mkC M (<[i := mkW t V (called u)]> (threads w))) ->
  follows c w i s ver t e.
Proof using Type.
  intros Hi Hr He Hs. exists (Run ts). eexists. unfold exec. rewrite Hi. cbn [act]. rewrite Hr, He. by split.
Qed.

Lemma follows_win c w i u t M V s ver x :
  threads w !! i = Some u -> win_thread (mem w) (view_of u) (local u) = Some (M, V, t, x) -> quiet_event x = true ->
  same_state (IndexSetThreads.mkC s ver (<[i := t]> (IndexSetThreads.threads c)))
             (mkC M (<[i := mkW t V (called u)]> (threads w))) ->
  follows c w i s ver t [x].
Proof using Type.
  intros Hi Hr He Hs. exists Win. eexists. unfold exec. rewrite Hi. cbn [act]. rewrite Hr. split; [|exact Hs].
  by destruct x.
Qed.

Section step.
Context c w i u (Hs : same_state c w) (Hi : threads w !! i = Some u).

Lemma follows_head t e :
  (forall ts V, Z.of_nat ts = version c ->
     load Acquire Head ts (mem w) (view_of u) = Some (head (set c), V) ->
     run_thread cap ts (mem w) (view_of u) (local u) = Some (mem w, V, t)) ->
  filter quiet_event e = [] -> follows c w i (set c) (version c) t e.
Proof using Hs Hi.
  intros Hr He. destruct (load_last _ w i u Head Hs Hi) as (ts & V & Hl & Hts & Hc).
  apply (follows_run c w i u t (mem w) V _ _ e ts Hi); [|done|by apply (same_silent _ w i u)].
  pose proof Hs as [<- _ _]. apply Hr; [|done]. cbn. unfold version_of. lia.
Qed.

Lemma follows_local t ts :
  run_thread cap ts (mem w) (view_of u) (local u) = Some (mem w, view_of u, t) ->
  follows c w i (set c) (version c) t [].
Proof using Hs Hi.
  intros Hr. apply (follows_run c w i u t (mem w) (view_of u) _ _ [] ts Hi Hr); [done|].
  apply (same_silent _ w i u); [done..|]. pose proof Hs as [_ _ Hc]. by apply (Hc i).
Qed.

(** The link of slot [x] is there when [x] is in range. *)
Lemma follows_next x : next (set c) !! Z.to_nat x = None -> ~ (Z.to_nat x < Z.to_nat cap)%nat.
Proof using Hs.
  pose proof Hs as [<- _ _]. intros En%lookup_ge_None. cbn in En. rewrite length_fmap, length_seq in En. lia.
Qed.

Lemma follows_next_in x n : next (set c) !! Z.to_nat x = Some n ->
  (Z.to_nat x < Z.to_nat cap)%nat /\ n = latest (mem w) (Next (Z.to_nat x)).
Proof using Hs.
  pose proof Hs as [<- _ _]. intros En. pose proof (lookup_lt_Some _ _ _ En) as Hlt.
  cbn [set strong next state] in Hlt. rewrite length_fmap, length_seq in Hlt. split; [done|].
  cbn [set strong] in En. rewrite lookup_next in En by done. by injection En.
Qed.

Lemma follows_count b t :
  run_thread cap 0 (mem w) (view_of u) (local u) =
    Some (let r := rmw Relaxed Relaxed Borrowed b (mem w) (view_of u) in (r.1, r.2, t)) ->
  follows c w i (mk (head (set c)) (next (set c)) (capacity (set c)) b) (version c) t [].
Proof using Hs Hi. intros Hr. apply (follows_run _ _ _ _ _ _ _ _ _ [] 0 Hi Hr); [done|by apply same_count]. Qed.

Lemma follows_cas v t x :
  win_thread (mem w) (view_of u) (local u) =
    Some (let r := rmw Acquire Release Head v (mem w) (view_of u) in (r.1, r.2, t, x)) ->
  quiet_event x = true ->
  follows c w i (mk v (next (set c)) (capacity (set c)) (borrowed (set c))) (version c + 1) t [x].
Proof using Hs Hi. intros Hr Hx. apply (follows_win _ _ _ _ _ _ _ _ _ _ Hi Hr Hx). by apply same_win. Qed.

Lemma follows_store x v t :
  (Z.to_nat x < Z.to_nat cap)%nat ->
  run_thread cap 0 (mem w) (view_of u) (local u) =
    Some (let r := store Release (Next (Z.to_nat x)) v (mem w) (view_of u) in (r.1, r.2, t)) ->
  follows c w i (mk (head (set c)) (<[Z.to_nat x := v]> (next (set c))) (capacity (set c)) (borrowed (set c)))
          (version c) t [].
Proof using Hs Hi.
  intros Hlt Hr. apply (follows_run _ _ _ _ _ _ _ _ _ [] 0 Hi Hr); [done|].
  pose proof Hs as [<- Hwf Hcl]. pose proof (store_stored Release (Next (Z.to_nat x)) v (mem w) (view_of u)) as Hst.
  destruct (stored_closed _ _ _ _ _ _ _ Hst Hwf (Hcl i u Hi)) as [Hwf' Hc'].
  destruct (store_latest _ _ _ _ _ _ _ Hst) as [Hnew Hold].
  apply (same_step _ w i u); try done.
  - by apply (stored_grows _ _ _ _ _ _ _ Hst).
  - by apply insert_next.
Qed.

(** One step, with the choice of the last value in every load. *)
Lemma sc_run_thread sp s ver t e :
  IndexSetThreads.run_thread sp (set c) (version c) (local u) = Some (s, ver, (t, e)) ->
  follows c w i s ver t e.
Proof using Hs Hi.
  intros Hr. unfold IndexSetThreads.run_thread in Hr. assert (Hhead : head (set c) = latest (mem w) Head) by (by destruct Hs as [<- _ _]).
  assert (Hb : borrowed (set c) = latest (mem w) Borrowed) by (by destruct Hs as [<- _ _]).
  destruct (at_ (local u)) as [| |old|old n|x|x|x old|x old| |] eqn:Hat; try done.
  - injection Hr as <- <- Ho. apply follows_head; [|by eapply observe_events].
    intros ts V Hts Hl. unfold run_thread. by rewrite Hat, Hl, Hts, Ho.
  - destruct (_ =? SENTINEL) eqn:E.
    { injection Hr as <- <- <- <-. apply (follows_local _ 0). unfold run_thread. by rewrite Hat, E. }
    destruct (next (set c) !! _) as [n|] eqn:En; injection Hr as <- <- <- <-.
    + apply follows_next_in in En as [Hlt ->].
      destruct (load_last _ w i u (Next (Z.to_nat (extract_head old))) Hs Hi) as (ts & V & Hl & _ & Hc).
      apply (follows_run c w i u _ (mem w) V _ _ [] ts Hi); [|done|by apply (same_silent _ w i u)].
      unfold run_thread. by rewrite Hat, E, decide_True, Hl.
    + apply (follows_local _ 0). unfold run_thread. by rewrite Hat, E, decide_False by (by apply follows_next).
  - destruct (compare_exchange_weak _ _ _ _) as [v|cur] eqn:Ec.
    + apply cas_ok in Ec as (He & _ & ->). injection Hr as <- <- <- <-. apply follows_cas; [|done].
      unfold win_thread. rewrite Hat, <- Hhead, He, Z.eqb_refl. by destruct (rmw _ _ _ _ _ _).
    + apply cas_err in Ec as ->. injection Hr as <- <- Ho. apply follows_head; [|by eapply observe_events].
      intros ts V Hts Hl. unfold run_thread. by rewrite Hat, Hl, Hts, Ho.
  - injection Hr as <- <- <- <-. apply follows_count. unfold run_thread. rewrite Hat, Hb. by destruct (rmw _ _ _ _ _ _).
  - injection Hr as <- <- <- <-. apply follows_head; [|done]. intros ts V Hts Hl. unfold run_thread. by rewrite Hat, Hl, Hts.
  - destruct (next (set c) !! _) as [n|] eqn:En; injection Hr as <- <- <- <-.
    + apply follows_next_in in En as [Hlt _]. apply follows_store; [done|]. unfold run_thread.
      rewrite Hat, decide_True by done. by destruct (store _ _ _ _ _).
    + apply (follows_local _ 0). unfold run_thread. by rewrite Hat, decide_False by (by apply follows_next).
  - destruct (compare_exchange_weak _ _ _ _) as [v|cur] eqn:Ec.
    + apply cas_ok in Ec as (He & _ & ->). injection Hr as <- <- <- <-. apply follows_cas; [|done].
      unfold win_thread. rewrite Hat, <- Hhead, He, Z.eqb_refl. by destruct (rmw _ _ _ _ _ _).
    + apply cas_err in Ec as ->. injection Hr as <- <- <- <-. apply follows_head; [|done].
      intros ts V Hts Hl. unfold run_thread. by rewrite Hat, Hl, Hts.
  - injection Hr as <- <- <- <-. apply follows_count. unfold run_thread. rewrite Hat, Hb. by destruct (rmw _ _ _ _ _ _).
Qed.
End step.

Lemma sc_exec i a c c' e w :
  same_state c w -> IndexSetThreads.exec i a c = Some (c', e) ->
  exists a' w', exec cap i a' w = Some (w', filter quiet_event e) /\ same_state c' w'.
Proof using Type.
  intros Hs He. unfold IndexSetThreads.exec in He. pose proof Hs as [Hw Hwf Hcl].
  destruct (IndexSetThreads.threads c !! i) as [t|] eqn:Ht; [|done].
  destruct (IndexSetThreads.act a (set c) (version c) t) as [[[s ver] [t' e']]|] eqn:Ha; [|done].
  injection He as <- <-. pose proof Ht as Hi. rewrite <- Hw in Hi. cbn in Hi. rewrite list_lookup_fmap in Hi.
  destruct (threads w !! i) as [u|] eqn:Eu; [|done]. injection Hi as <-.
  assert (Hcall : forall t1, same_state (IndexSetThreads.mkC (set c) (version c) (<[i := t1]> (IndexSetThreads.threads c)))
    (mkC (mem w) (<[i := mkW t1 (view_of u) (view_of u)]> (threads w)))).
  { intros t1. apply (same_silent c w i u); [done..|by apply (Hcl i)]. }
  unfold IndexSetThreads.act in Ha. destruct a as [|k|sp]; [| |by apply (sc_run_thread c w i u Hs Eu sp)].
  - destruct (at_ (local u)) eqn:Hat; try done. injection Ha as <- <- <- <-. exists CallAcquire.
    unfold exec. rewrite Eu. cbn. rewrite Hat. eexists. split; [done|apply Hcall].
  - destruct (at_ (local u)) eqn:Hat; try done. destruct (owned (local u) !! k) as [x|] eqn:Hk; [|done].
    injection Ha as <- <- <- <-. exists (CallRelease k).
    unfold exec. rewrite Eu. cbn. rewrite Hat, Hk. eexists. split; [done|apply Hcall].
Qed.

Lemma sc_run sched c c' evs w :
  same_state c w -> IndexSetThreads.run sched c = Some (c', evs) ->
  exists sched' w', run cap sched' w = Some (w', filter quiet_event evs) /\ same_state c' w'.
Proof using Type.
  revert c evs w. induction sched as [|[i a] sched IH]; intros c evs w Hs Hr; cbn in Hr.
  - simplify_eq. by exists [], w.
  - destruct (IndexSetThreads.exec i a c) as [[c1 e1]|] eqn:He; [|done].
    destruct (IndexSetThreads.run sched c1) as [[c2 e2]|] eqn:Hr2; [|done]. simplify_eq.
    destruct (sc_exec _ _ _ _ _ _ Hs He) as (a' & w1 & Ha & Hs1).
    destruct (IH _ _ _ Hs1 Hr2) as (sched' & w2 & Hw & Hs2). exists ((i, a') :: sched'), w2. cbn.
    by rewrite Ha, Hw, filter_app.
Qed.
End sc.

(** Every interleaving of IndexSetConc.v is a run of this machine, with the same
    moves of the stack: the one in which every load reads the last value. *)
Theorem sc_index_runs_are_weak_runs cap s n sched c evs :
  new cap = Ret s -> IndexSetThreads.run sched (IndexSetThreads.init s n) = Some (c, evs) ->
  exists sched' w, run cap sched' (init s n) = Some (w, filter quiet_event evs) /\ strong cap w = c.
Proof.
  intros Hn Hr. destruct (sc_run cap sched (IndexSetThreads.init s n) c evs (init s n)) as (sched' & w & Hw & Hs).
  - split; [by apply strong_init|apply initial_wf|].
    intros i t Hi. apply lookup_replicate in Hi as [-> _]. apply initial_closed.
  - done.
  - exists sched', w. split; [done|apply Hs].
Qed.

(** ** Witnesses: a set of one index, handed over *)

Definition window_ok (c : IndexSetThreads.config) : bool :=
  forallb (fun t => match at_ t with AcqCas _ _ => version c - seen t <? 2 ^ 32 | _ => true end)
          (IndexSetThreads.threads c).

Lemma window_ok_in c : window_ok c = true -> in_window c.
Proof.
  intros Hb i t old n Hi Hat. unfold window_ok in Hb. rewrite forallb_forall in Hb.
  specialize (Hb t). rewrite Hat in Hb. apply Z.ltb_lt, Hb. apply list_elem_of_In. by eapply list_elem_of_lookup_2.
Qed.

(** [run], with the window tested before each step. *)
Fixpoint windows_ok (cap : Z) (sched : list (nat * action)) (c : config) : bool :=
  match sched with
  | [] => true
  | (i, a) :: sched =>
      window_ok (strong cap c) &&
      match exec cap i a c with Some (c, _) => windows_ok cap sched c | None => false end
  end.

Lemma run_weak_reach cap sched c0 c c' evs evs0 :
  windows_ok cap sched c = true -> run cap sched c = Some (c', evs) -> reach cap c0 c evs0 ->
  reach cap c0 c' (evs0 ++ evs).
Proof.
  revert c evs evs0. induction sched as [|[i a] sched IH]; intros c evs evs0 Hw Hr H0; cbn in Hw, Hr.
  - simplify_eq. by rewrite app_nil_r.
  - apply andb_prop in Hw as [Hw1 Hw2]. destruct (exec cap i a c) as [[c1 e1]|] eqn:He; [|done].
    destruct (run cap sched c1) as [[c2 e2]|] eqn:Hr2; [|done]. simplify_eq. rewrite app_assoc.
    apply (IH c1); [done..|]. apply (weak_step cap c0 c _ i a); [done|by apply window_ok_in|done].
Qed.

(** Thread 0 acquires the index, stores 42 in its cell and releases the index.
    Thread 1 loads the head as it was in between, and finds no index; then it
    loads the last one, and gets it. *)
Definition pass_on : list (nat * action) :=
  [(0, CallAcquire); (0, Run 0); (0, Run 0); (0, Win); (0, Run 0); (0, WriteCell 0 42);
   (0, CallRelease 0); (0, Run 1); (0, Run 0); (0, Win); (0, Run 0);
   (1, CallAcquire); (1, Run 1); (1, Run 0);
   (1, CallAcquire); (1, Run 2); (1, Run 1); (1, Win); (1, Run 0)]%nat.

Definition set1 : UniqueIndexSet := mk (UniqueIndexSet.pack 0 0) (initial_next 1) 1 0.

Definition after (k : nat) : config :=
  match run 1 (take k pass_on) (init set1 2) with Some (c, _) => c | None => init set1 2 end.
Definition events (k : nat) : list event :=
  match run 1 (take k pass_on) (init set1 2) with Some (_, e) => e | None => [] end.

Lemma after_reach k : windows_ok 1 (take k pass_on) (init set1 2) = true -> reach 1 (init set1 2) (after k) (events k).
Proof.
  intros Hw. unfold after, events. destruct (run 1 (take k pass_on) (init set1 2)) as [[c e]|] eqn:E; [|constructor].
  apply (run_weak_reach 1 (take k pass_on) (init set1 2) (init set1 2) c e []); [done..|constructor].
Qed.

(** After 14 steps the index is free and thread 1 has been told that it is not. *)
Lemma weak_index_set_stack_witness :
  events 14 = [Acquired 0; Released 0] /\
  exists free k, spec_run (seqZ 0 1) (events 14) = Some free /\ free = [0] /\
    (k <= 2)%nat /\ spec_run (seqZ 0 1) (take k (events 14)) = Some [].
Proof.
  assert (He : events 14 = [Acquired 0; Released 0]) by (vm_compute; reflexivity). split; [exact He|].
  destruct (weak_index_set_stack 1 set1 2 (after 14) (events 14) eq_refl (after_reach 14 ltac:(vm_compute; reflexivity)))
    as (free & Hf & _ & Ht).
  destruct (threads (after 14) !! 1%nat) as [w|] eqn:Ew; [|vm_compute in Ew; discriminate].
  destruct (Ht 1%nat w Ew) as [_ Hr].
  assert (Hw : at_ (local w) = Idle /\ returned (local w) = Some (Err NoFreeIndex))
    by (vm_compute in Ew; injection Ew as <-; split; reflexivity).
  destruct Hw as [Hidle Hret]. specialize (Hr Hidle). rewrite Hret in Hr. destruct Hr as (k & Hk & Hs).
  exists free, k. rewrite He in *. cbn [length] in Hk. split; [exact Hf|].
  split; [vm_compute in Hf; injection Hf as <-; reflexivity|]. split; [lia|exact Hs].
Defined.

(** In the end thread 1 owns the index, and reads 42. *)
Lemma weak_index_set_handover_witness :
  exists w, threads (after 19) !! 1%nat = Some w /\ owned (local w) = [0] /\
    forall ts v V, load Relaxed (Cell 0) ts (mem (after 19)) (view_of w) = Some (v, V) -> v = 42.
Proof.
  destruct (threads (after 19) !! 1%nat) as [w|] eqn:Ew; [|vm_compute in Ew; discriminate].
  assert (Hw : owned (local w) = [0]) by (vm_compute in Ew; injection Ew as <-; reflexivity).
  exists w. split; [reflexivity|]. split; [exact Hw|]. intros ts v V Hl.
  destruct (weak_index_set_handover 1 set1 2 (after 19) (events 19) 1 w 0 eq_refl
              (after_reach 19 ltac:(vm_compute; reflexivity)) Ew ltac:(rewrite Hw; left)) as (_ & _ & Hc).
  destruct (Hc (Cell 0) ltac:(right; reflexivity)) as [_ Hv]. rewrite (Hv _ _ _ _ Hl). vm_compute. reflexivity.
Defined.
End IndexSetWeak.
