(* ===== verification/Bitset.v ===== *)
(** * AtomicBitSet (crates/entangle-lockfree/src/atomic_bitset.rs)

    A bitset in 64-bit words; each operation is a CAS loop on one word.  [mem
    bs i] is the abstract content; [wf] keeps the words 64 bits wide and the
    bits beyond the capacity clear. *)
From S2P Require Import Prelude.
#[local] Open Scope Z_scope.
#[local] Open Scope rust_scope.

(** [u64::count_ones] and [u64::trailing_zeros]. *)
Definition ones_of (w : Z) : list Z := filter (fun k => Z.testbit w k = true) (seqZ 0 64).
Definition count_ones (w : Z) : Z := Z.of_nat (length (ones_of w)).
Definition trailing_zeros (w : Z) : Z := hd 64 (ones_of w).

Lemma elem_of_ones w k : k ∈ ones_of w <-> 0 <= k < 64 /\ Z.testbit w k = true.
Proof. unfold ones_of. rewrite list_elem_of_filter, elem_of_seqZ. intuition lia. Qed.

Lemma ones_of_nil w : fits 64 w -> ones_of w = [] <-> w = 0.
Proof.
  intros Hw. split.
  - intros Hn. apply Z.bits_inj'. intros k Hk. rewrite Z.bits_0.
    destruct (decide (k < 64)); [|apply (fits_testbit 64); [done|lia]].
    destruct (Z.testbit w k) eqn:E; [|done].
    assert (Hin : k ∈ ones_of w) by (apply elem_of_ones; split; [lia|done]).
    rewrite Hn in Hin. by apply elem_of_nil in Hin.
  - intros ->. reflexivity.
Qed.

Lemma sorted_seqZ_hd (P : Z -> Prop) `{!forall x, Decision (P x)} m n k l :
  filter P (seqZ m n) = k :: l -> P k /\ m <= k < m + n /\ forall j, m <= j < k -> ~ P j.
Proof.
  destruct (decide (0 <= n)) as [Hn|]; [|by rewrite seqZ_nil by lia].
  revert m. pattern n. revert n Hn. apply natlike_ind; [by intros m; rewrite seqZ_nil|].
  intros n Hn IH m. rewrite seqZ_cons by lia. rewrite Z.pred_succ, filter_cons.
  destruct (decide (P m)) as [Hp|Hp].
  - intros [= <- _]. split; [done|]. split; lia.
  - intros Hf. destruct (IH _ Hf) as (H1 & H2 & H3).
    split; [done|]. split; [lia|]. intros j Hj.
    destruct (decide (j = m)) as [->|]; [done|]. apply H3. lia.
Qed.

Lemma trailing_zeros_spec w :
  fits 64 w -> w <> 0 ->
  Z.testbit w (trailing_zeros w) = true /\ 0 <= trailing_zeros w < 64 /\
  forall j, 0 <= j < trailing_zeros w -> Z.testbit w j = false.
Proof.
  intros Hw Hne. unfold trailing_zeros. destruct (ones_of w) as [|k l] eqn:E.
  { by apply ones_of_nil in E. }
  cbn. unfold ones_of in E. apply sorted_seqZ_hd in E as (H1 & H2 & H3).
  split; [done|]. split; [lia|]. intros j Hj.
  apply not_true_is_false. by apply H3.
Qed.

(** Bit operations on one word. *)
Section word_bits.
Context (w k : Z) (Hw : fits 64 w) (Hk : 0 <= k < 64).

Lemma bit_pow : shl 64 1 k = 2 ^ k.
Proof.
  unfold shl. rewrite Z.shiftl_1_l. apply wrap_small.
  pose proof (Z.pow_lt_mono_r 2 k 64). unfold fits. lia.
Qed.

Lemma test_bit : negb (Z.land w (shl 64 1 k) =? 0) = Z.testbit w k.
Proof.
  rewrite bit_pow. destruct (Z.testbit w k) eqn:E.
  - apply negb_true_iff, Z.eqb_neq. intros H0.
    apply (f_equal (fun x => Z.testbit x k)) in H0.
    rewrite Z.land_spec, E, Z.pow2_bits_true, Z.bits_0 in H0 by lia. done.
  - apply negb_false_iff, Z.eqb_eq. apply Z.bits_inj'. intros j Hj.
    rewrite Z.land_spec, Z.bits_0, Z.pow2_bits_eqb by lia.
    destruct (k =? j) eqn:Ej; zbool; [|apply andb_false_r]. subst j. by rewrite E.
Qed.

Lemma set_bit_testbit j :
  0 <= j -> Z.testbit (Z.lor w (shl 64 1 k)) j = (j =? k) || Z.testbit w j.
Proof.
  intros. rewrite bit_pow, Z.lor_spec, Z.pow2_bits_eqb by lia.
  rewrite orb_comm. by rewrite Z.eqb_sym.
Qed.

Lemma set_bit_fits : fits 64 (Z.lor w (shl 64 1 k)).
Proof.
  apply testbit_fits; [lia| |].
  - rewrite bit_pow. apply Z.lor_nonneg. split; [apply Hw|]. apply Z.pow_nonneg. lia.
  - intros j Hj. rewrite set_bit_testbit by lia. rewrite (fits_testbit 64) by done.
    rewrite orb_false_r. apply Z.eqb_neq. lia.
Qed.

Lemma clear_bit_testbit j :
  0 <= j -> Z.testbit (Z.land w (bnot 64 (shl 64 1 k))) j = Z.testbit w j && negb (j =? k).
Proof.
  intros. unfold bnot. rewrite bit_pow, Z.land_spec, Z.lxor_spec, Z.pow2_bits_eqb by lia.
  rewrite Z.eqb_sym. destruct (decide (j < 64)).
  - rewrite Z.ones_spec_low by lia. by rewrite xorb_true_r.
  - rewrite (fits_testbit 64 w) by (done || lia). done.
Qed.

Lemma clear_bit_fits : fits 64 (Z.land w (bnot 64 (shl 64 1 k))).
Proof.
  apply testbit_fits; [lia| |].
  - apply Z.land_nonneg. left. apply Hw.
  - intros j Hj. rewrite clear_bit_testbit by lia. by rewrite (fits_testbit 64).
Qed.
End word_bits.

Module AtomicBitSet.

(** [pub struct AtomicBitSet { words, capacity }]. *)
Record AtomicBitSet := mk {
  words : list Z;
  capacity : Z;
}.

Definition new (capacity : Z) : AtomicBitSet :=
  let word_count := (capacity + 63) / 64 in
  mk (replicate (Z.to_nat word_count) 0) capacity.

Definition store_word (bs : AtomicBitSet) (word_idx w : Z) : AtomicBitSet :=
  mk (<[Z.to_nat word_idx := w]> (words bs)) (capacity bs).

(** The loops of [set] and [clear]; [spurious] as in IndexSet.v. *)
Fixpoint set_loop (spurious : list bool) (word_idx bit old : Z) (bs : AtomicBitSet)
    : outcome (bool * AtomicBitSet) :=
  match spurious with
  | [] => OutOfFuel
  | sp :: spurious =>
      if negb (Z.land old bit =? 0) then Ret (false, bs)
      else
        let! cur := index (words bs) word_idx in
        match compare_exchange_weak sp cur old (Z.lor old bit) with
        | Ok w => Ret (true, store_word bs word_idx w)
        | Err current => set_loop spurious word_idx bit current bs
        end
  end.

Definition set (spurious : list bool) (bs : AtomicBitSet) (idx : Z) :=
  let word_idx := idx / 64 in
  let bit := shl 64 1 (idx mod 64) in
  let! old := index (words bs) word_idx in
  set_loop spurious word_idx bit old bs.

Fixpoint clear_loop (spurious : list bool) (word_idx bit old : Z) (bs : AtomicBitSet)
    : outcome (bool * AtomicBitSet) :=
  match spurious with
  | [] => OutOfFuel
  | sp :: spurious =>
      if Z.land old bit =? 0 then Ret (false, bs)
      else
        let! cur := index (words bs) word_idx in
        match compare_exchange_weak sp cur old (Z.land old (bnot 64 bit)) with
        | Ok w => Ret (true, store_word bs word_idx w)
        | Err current => clear_loop spurious word_idx bit current bs
        end
  end.

Definition clear (spurious : list bool) (bs : AtomicBitSet) (idx : Z) :=
  let word_idx := idx / 64 in
  let bit := shl 64 1 (idx mod 64) in
  let! old := index (words bs) word_idx in
  clear_loop spurious word_idx bit old bs.

Definition is_set (bs : AtomicBitSet) (idx : Z) : outcome bool :=
  let word_idx := idx / 64 in
  let bit := shl 64 1 (idx mod 64) in
  let! w := index (words bs) word_idx in
  Ret (negb (Z.land w bit =? 0)).

Definition count_set (bs : AtomicBitSet) : Z := wrap 32 (zsum count_ones (words bs)).

(** The inner loop of [find_and_clear_first_set] on one word: [None] when it
    breaks (the word is zero), [Some r] when the function returns [r]. *)
Fixpoint find_in_word (spurious : list bool) (word_idx old : Z) (bs : AtomicBitSet)
    : outcome (option (option Z) * AtomicBitSet) :=
  match spurious with
  | [] => OutOfFuel
  | sp :: spurious =>
      if old =? 0 then Ret (None, bs)
      else
        let bit_pos := trailing_zeros old in
        let bit := shl 64 1 bit_pos in
        let! cur := index (words bs) word_idx in
        match compare_exchange_weak sp cur old (Z.land old (bnot 64 bit)) with
        | Ok w =>
            let idx := wrap 32 (word_idx * 64 + bit_pos) in
            if idx <? capacity bs then Ret (Some (Some idx), store_word bs word_idx w)
            else Ret (Some None, store_word bs word_idx (Z.lor w bit))
        | Err current => find_in_word spurious word_idx current bs
        end
  end.

Fixpoint find_from (spurious : list bool) (remaining : nat) (word_idx : Z) (bs : AtomicBitSet)
    : outcome (option Z * AtomicBitSet) :=
  match remaining with
  | O => Ret (None, bs)
  | S remaining =>
      let! old := index (words bs) word_idx in
      let! (r, bs) := find_in_word spurious word_idx old bs in
      match r with
      | Some r => Ret (r, bs)
      | None => find_from spurious remaining (word_idx + 1) bs
      end
  end.

Definition find_and_clear_first_set (spurious : list bool) (bs : AtomicBitSet) :=
  find_from spurious (length (words bs)) 0 bs.

(** ** Contents *)

Definition mem (bs : AtomicBitSet) (i : Z) : bool :=
  match words bs !! Z.to_nat (i / 64) with
  | Some w => Z.testbit w (i mod 64)
  | None => false
  end.

Record wf (bs : AtomicBitSet) : Prop := {
  wf_cap : fits 32 (capacity bs);
  wf_len : length (words bs) = Z.to_nat ((capacity bs + 63) / 64);
  wf_words : forall w, w ∈ words bs -> fits 64 w;
  wf_above : forall i, capacity bs <= i -> mem bs i = false;
}.

Section facts.
Context (bs : AtomicBitSet) (Hwf : wf bs).

Lemma word_index i : 0 <= i < capacity bs -> exists w, words bs !! Z.to_nat (i / 64) = Some w.
Proof.
  intros Hi. apply lookup_lt_is_Some_2. rewrite (wf_len _ Hwf).
  assert (i / 64 < (capacity bs + 63) / 64); [|pose proof (Z.div_pos i 64); lia].
  apply Z.div_lt_upper_bound; [lia|].
  pose proof (Z.div_mod (capacity bs + 63) 64 ltac:(lia)).
  pose proof (Z.mod_pos_bound (capacity bs + 63) 64 ltac:(lia)). lia.
Qed.

Lemma mod64 i : 0 <= i mod 64 < 64.
Proof. apply Z.mod_pos_bound. lia. Qed.

(** Replacing one word by one that differs in bit [i mod 64] only. *)
Lemma store_mem i w v f :
  0 <= i -> words bs !! Z.to_nat (i / 64) = Some w ->
  (forall j, 0 <= j -> Z.testbit v j = f (j =? i mod 64) (Z.testbit w j)) ->
  (forall b, f false b = b) ->
  forall j, 0 <= j -> mem (store_word bs (i / 64) v) j = f (j =? i) (mem bs j).
Proof.
  intros Hi Hw Hv Hf j Hj. unfold mem, store_word. cbn.
  pose proof (lookup_lt_Some _ _ _ Hw) as Hlt.
  pose proof (Z.div_mod i 64 ltac:(lia)). pose proof (Z.div_mod j 64 ltac:(lia)).
  destruct (decide (j / 64 = i / 64)) as [E|E].
  - rewrite E, list_lookup_insert_eq, Hw by done.
    rewrite Hv by apply mod64. f_equal.
    destruct (_ =? _) eqn:E1, (j =? i) eqn:E2; zbool; lia || done.
  - rewrite list_lookup_insert_ne.
    + destruct (j =? i) eqn:E2; zbool; [by subst|]. by rewrite Hf.
    + pose proof (Z.div_pos i 64). pose proof (Z.div_pos j 64). lia.
Qed.

Lemma store_wf i w :
  0 <= i -> fits 64 w ->
  (forall j, capacity bs <= j -> mem (store_word bs (i / 64) w) j = false) ->
  wf (store_word bs (i / 64) w).
Proof.
  intros Hi Hfw Hab. destruct Hwf. split; cbn; try done.
  - by rewrite length_insert.
  - intros x [j Hj]%list_elem_of_lookup.
    apply list_lookup_insert_Some in Hj as [(_ & <- & _)|(_ & Hj)]; [done|].
    apply wf_words0. by eapply list_elem_of_lookup_2.
Qed.
End facts.

Lemma bitset_new_wf cap : fits 32 cap -> wf (new cap).
Proof.
  intros Hc. split; cbn; try done.
  - by rewrite length_replicate.
  - intros w [j Hj]%list_elem_of_lookup. by apply lookup_replicate in Hj as [-> _].
  - intros i _. unfold mem. cbn. destruct (_ !! _) as [w|] eqn:E; [|done].
    apply lookup_replicate in E as [-> _]. apply Z.bits_0.
Qed.

Lemma bitset_new_mem cap i : mem (new cap) i = false.
Proof.
  unfold mem. cbn. destruct (_ !! _) as [w|] eqn:E; [|done].
  apply lookup_replicate in E as [-> _]. apply Z.bits_0.
Qed.

(** ** The operations *)

(** A loop that has read the current word settles at the first
    compare-exchange that does not fail spuriously. *)
Lemma set_loop_settles sps bs wi bit w :
  false ∈ sps -> words bs !! Z.to_nat wi = Some w -> negb (Z.land w bit =? 0) = false ->
  set_loop sps wi bit w bs = Ret (true, store_word bs wi (Z.lor w bit)).
Proof.
  intros Hin Hw Hb. induction sps as [|sp l IH]; [by apply elem_of_nil in Hin|]. cbn.
  rewrite Hb. unfold index. rewrite Hw. cbn. rewrite cas_same.
  destruct sp; [|done]. apply elem_of_cons in Hin as [?|?]; [done|auto].
Qed.

Lemma clear_loop_settles sps bs wi bit w :
  false ∈ sps -> words bs !! Z.to_nat wi = Some w -> (Z.land w bit =? 0) = false ->
  clear_loop sps wi bit w bs = Ret (true, store_word bs wi (Z.land w (bnot 64 bit))).
Proof.
  intros Hin Hw Hb. induction sps as [|sp l IH]; [by apply elem_of_nil in Hin|]. cbn.
  rewrite Hb. unfold index. rewrite Hw. cbn. rewrite cas_same.
  destruct sp; [|done]. apply elem_of_cons in Hin as [?|?]; [done|auto].
Qed.

Section operations.
Context (bs : AtomicBitSet) (Hwf : wf bs) (i : Z) (Hi : 0 <= i < capacity bs).
Context (sps : list bool) (Hsps : false ∈ sps).

Lemma is_set_mem : is_set bs i = Ret (mem bs i).
Proof using Hwf Hi.
  destruct (word_index bs Hwf i Hi) as [w Hw]. unfold is_set, mem, index. rewrite Hw. cbn.
  rewrite test_bit by apply mod64. done.
Qed.

Lemma set_mem :
  exists bs', set sps bs i = Ret (negb (mem bs i), bs') /\ wf bs' /\
    capacity bs' = capacity bs /\
    forall j, 0 <= j -> mem bs' j = (j =? i) || mem bs j.
Proof.
  destruct (word_index bs Hwf i Hi) as [w Hw].
  assert (Hfw : fits 64 w) by (apply (wf_words _ Hwf); by eapply list_elem_of_lookup_2).
  unfold set, index. rewrite Hw. cbn.
  assert (Hm : mem bs i = Z.testbit w (i mod 64)) by (unfold mem; by rewrite Hw).
  assert (Hst : forall j, 0 <= j ->
    mem (store_word bs (i / 64) (Z.lor w (shl 64 1 (i mod 64)))) j = (j =? i) || mem bs j).
  { apply (store_mem bs i w _ orb); [lia|done|intros; apply set_bit_testbit; [apply mod64|done]|done]. }
  destruct (Z.testbit w (i mod 64)) eqn:Eb.
  - exists bs. rewrite Hm. cbn. split.
    { destruct sps as [|sp l]; [by apply elem_of_nil in Hsps|]. cbn.
      by rewrite test_bit, Eb by apply mod64. }
    split; [done|]. split; [done|]. intros j Hj.
    destruct (j =? i) eqn:E; zbool; [by subst|done].
  - eexists. rewrite Hm. cbn. split; [|split; [|split; [|exact Hst]]].
    + apply set_loop_settles; [done|done|]. by rewrite test_bit by apply mod64.
    + apply store_wf; [done|lia|apply set_bit_fits; [done|apply mod64]|].
      intros j Hj. rewrite Hst by lia. rewrite (wf_above _ Hwf) by done.
      rewrite orb_false_r. apply Z.eqb_neq. lia.
    + done.
Qed.

Lemma clear_mem :
  exists bs', clear sps bs i = Ret (mem bs i, bs') /\ wf bs' /\
    capacity bs' = capacity bs /\
    forall j, 0 <= j -> mem bs' j = mem bs j && negb (j =? i).
Proof.
  destruct (word_index bs Hwf i Hi) as [w Hw].
  assert (Hfw : fits 64 w) by (apply (wf_words _ Hwf); by eapply list_elem_of_lookup_2).
  unfold clear, index. rewrite Hw. cbn.
  assert (Hm : mem bs i = Z.testbit w (i mod 64)) by (unfold mem; by rewrite Hw).
  assert (Ht : (Z.land w (shl 64 1 (i mod 64)) =? 0) = negb (Z.testbit w (i mod 64))).
  { rewrite <- (test_bit w (i mod 64)) by apply mod64. by rewrite negb_involutive. }
  assert (Hst : forall j, 0 <= j ->
    mem (store_word bs (i / 64) (Z.land w (bnot 64 (shl 64 1 (i mod 64))))) j
    = mem bs j && negb (j =? i)).
  { apply (store_mem bs i w _ (fun e b => b && negb e)); [lia|done| |].
    - intros j Hj; apply clear_bit_testbit; [done|apply mod64|done].
    - intros b. cbn. apply andb_true_r. }
  destruct (Z.testbit w (i mod 64)) eqn:Eb; cbn in Ht.
  - eexists. rewrite Hm. split; [|split; [|split; [|exact Hst]]].
    + by apply clear_loop_settles.
    + apply store_wf; [done|lia|apply clear_bit_fits; [done|apply mod64]|].
      intros j Hj. rewrite Hst by lia. by rewrite (wf_above _ Hwf).
    + done.
  - exists bs. rewrite Hm. split.
    { destruct sps as [|sp l]; [by apply elem_of_nil in Hsps|]. cbn. by rewrite Ht. }
    split; [done|]. split; [done|]. intros j Hj.
    destruct (j =? i) eqn:E; zbool; [subst; by rewrite Hm|by rewrite andb_true_r].
Qed.
End operations.

(** ** Counting and searching *)

(** The members, in increasing order. *)
Definition members (bs : AtomicBitSet) : list Z :=
  filter (fun i => mem bs i = true) (seqZ 0 (capacity bs)).

Lemma elem_of_members bs i :
  wf bs -> 0 <= i -> i ∈ members bs <-> mem bs i = true.
Proof.
  intros Hwf Hi. unfold members. rewrite list_elem_of_filter, elem_of_seqZ.
  split; [by intros []|]. intros Hm. split; [done|].
  destruct (decide (i < capacity bs)); [lia|].
  rewrite (wf_above _ Hwf) in Hm by lia. done.
Qed.

Definition bit_of (ws : list Z) (i : Z) : bool :=
  match ws !! Z.to_nat (i / 64) with
  | Some w => Z.testbit w (i mod 64)
  | None => false
  end.

Lemma zsum_count_ones ws :
  zsum count_ones ws
  = Z.of_nat (length (filter (fun i => bit_of ws i = true)
                        (seqZ 0 (64 * Z.of_nat (length ws))))).
Proof.
  induction ws as [|w ws IH]; [done|]. cbn [zsum length]. rewrite IH. clear IH.
  replace (64 * Z.of_nat (S (length ws))) with (64 + 64 * Z.of_nat (length ws)) by lia.
  rewrite seqZ_app, filter_app, length_app by lia. unfold count_ones, ones_of.
  rewrite Nat2Z.inj_add. apply (f_equal2 Z.add); apply (f_equal Z.of_nat).
  - apply (f_equal length), filter_ext_in. intros i [? ?]%elem_of_seqZ.
    unfold bit_of. rewrite Z.div_small, Z.mod_small by lia. done.
  - rewrite <- (Z.add_0_r (0 + 64)), <- fmap_add_seqZ, length_filter_fmap.
    apply (f_equal length), filter_ext_in. intros i [? ?]%elem_of_seqZ. cbn.
    unfold bit_of. replace (0 + 64 + i) with (i + 1 * 64) by lia.
    rewrite Z.div_add, Z.mod_add by lia.
    replace (Z.to_nat (i / 64 + 1)) with (S (Z.to_nat (i / 64))); [done|].
    pose proof (Z.div_pos i 64). lia.
Qed.

Lemma count_set_members bs :
  wf bs -> count_set bs = Z.of_nat (length (members bs)).
Proof.
  intros Hwf. unfold count_set, members. rewrite zsum_count_ones.
  pose proof (wf_cap _ Hwf) as Hc. pose proof (wf_len _ Hwf) as Hl.
  assert (Hle : capacity bs <= 64 * Z.of_nat (length (words bs))).
  { rewrite Hl, Z2Nat.id by (apply Z.div_pos; destruct Hc; lia).
    pose proof (Z.div_mod (capacity bs + 63) 64 ltac:(lia)).
    pose proof (Z.mod_pos_bound (capacity bs + 63) 64 ltac:(lia)). lia. }
  replace (64 * Z.of_nat (length (words bs)))
    with (capacity bs + (64 * Z.of_nat (length (words bs)) - capacity bs)) by lia.
  rewrite seqZ_app, filter_app by (destruct Hc; lia). cbn [Z.add].
  rewrite (filter_none_in _ (seqZ (capacity bs) _)), app_nil_r.
  - apply wrap_small. destruct Hc as [H0 H1]. split; [lia|].
    eapply Z.le_lt_trans; [apply inj_le, length_filter|].
    rewrite length_seqZ. lia.
  - intros i [? ?]%elem_of_seqZ Hm. change (mem bs i = true) in Hm. rewrite (wf_above _ Hwf) in Hm by lia. done.
Qed.

(** What [find_and_clear_first_set] promises. *)
Definition found (bs : AtomicBitSet) (r : option Z) (bs' : AtomicBitSet) : Prop :=
  match r with
  | None => bs' = bs /\ forall j, 0 <= j -> mem bs j = false
  | Some i =>
      0 <= i < capacity bs /\ mem bs i = true /\ (forall j, 0 <= j < i -> mem bs j = false)
      /\ wf bs' /\ capacity bs' = capacity bs
      /\ forall j, 0 <= j -> mem bs' j = mem bs j && negb (j =? i)
  end.

Section find.
Context (bs : AtomicBitSet) (Hwf : wf bs) (sps : list bool) (Hsps : false ∈ sps).

(** A nonzero word: its lowest bit is cleared. *)
Lemma find_in_word_nonzero wi w :
  words bs !! Z.to_nat wi = Some w -> w <> 0 ->
  find_in_word sps wi w bs =
    let p := trailing_zeros w in
    let w' := Z.land w (bnot 64 (shl 64 1 p)) in
    let idx := wrap 32 (wi * 64 + p) in
    Ret (if idx <? capacity bs then (Some (Some idx), store_word bs wi w')
         else (Some None, store_word bs wi (Z.lor w' (shl 64 1 p)))).
Proof using Hsps.
  intros Hw Hne. apply Z.eqb_neq in Hne.
  induction sps as [|sp l IH]; [by apply elem_of_nil in Hsps|]. cbn.
  rewrite Hne. unfold index. rewrite Hw. cbn. rewrite cas_same.
  destruct sp; [|by case_match]. apply elem_of_cons in Hsps as [?|?]; [done|auto].
Qed.

Lemma find_in_word_zero wi : find_in_word sps wi 0 bs = Ret (None, bs).
Proof using Hsps. destruct sps; [by apply elem_of_nil in Hsps|done]. Qed.

Lemma bit_index k p : 0 <= p < 64 -> (k * 64 + p) / 64 = k /\ (k * 64 + p) mod 64 = p.
Proof.
  intros. rewrite Z.add_comm, Z.div_add, Z.mod_add by lia.
  rewrite Z.div_small, Z.mod_small by lia. lia.
Qed.

Lemma find_from_spec n k :
  0 <= k -> Z.of_nat n + k = Z.of_nat (length (words bs)) ->
  (forall j, 0 <= j < 64 * k -> mem bs j = false) ->
  exists r bs', find_from sps n k bs = Ret (r, bs') /\ found bs r bs'.
Proof using Hwf Hsps.
  revert k. induction n as [|n IH]; intros k Hk Hn Hbelow; cbn [find_from].
  - exists None, bs. split; [done|]. split; [done|]. intros j Hj.
    destruct (decide (j < 64 * k)); [apply Hbelow; lia|]. unfold mem.
    rewrite lookup_ge_None_2; [done|].
    pose proof (Z.div_le_lower_bound j 64 k ltac:(lia) ltac:(lia)). lia.
  - destruct (index_ok (words bs) k) as [w Hw]; [lia|].
    assert (Hfw : fits 64 w) by (apply (wf_words _ Hwf); by eapply list_elem_of_lookup_2).
    unfold index. rewrite Hw. cbn [obind].
    destruct (decide (w = 0)) as [->|Hne].
    + rewrite find_in_word_zero. cbn [obind]. apply IH; [lia|lia|]. intros j Hj.
      destruct (decide (j < 64 * k)); [apply Hbelow; lia|]. unfold mem.
      replace (j / 64) with k; [rewrite Hw; apply Z.bits_0|].
      apply (Z.div_unique j 64 k (j - 64 * k)); lia.
    + destruct (trailing_zeros_spec w Hfw Hne) as (Hp & Hpr & Hlow).
      rewrite (find_in_word_nonzero _ _ Hw Hne). cbv zeta.
      set (p := trailing_zeros w) in *.
      destruct (bit_index k p Hpr) as [Ed Em].
      assert (Hm : mem bs (k * 64 + p) = true) by (unfold mem; by rewrite Ed, Em, Hw).
      assert (Hlt : k * 64 + p < capacity bs).
      { destruct (decide (k * 64 + p < capacity bs)); [done|].
        rewrite (wf_above _ Hwf) in Hm by lia. done. }
      rewrite wrap_small by (pose proof (wf_cap _ Hwf); unfold fits in *; lia).
      rewrite (proj2 (Z.ltb_lt _ _) Hlt). cbn [obind].
      assert (Hst : forall j, 0 <= j ->
        mem (store_word bs k (Z.land w (bnot 64 (shl 64 1 p)))) j
        = mem bs j && negb (j =? k * 64 + p)).
      { pose proof (store_mem bs (k * 64 + p) w (Z.land w (bnot 64 (shl 64 1 p)))
          (fun e b => b && negb e)) as Hs. rewrite Ed, Em in Hs.
        apply Hs; [lia|done| |intros; apply andb_true_r].
        intros; by apply clear_bit_testbit. }
      eexists (Some _), _. split; [done|]. split; [lia|]. split; [done|]. split; [|split; [|split; [|done]]].
      * intros j Hj. destruct (decide (j < 64 * k)); [apply Hbelow; lia|]. unfold mem.
        replace (j / 64) with k by (apply (Z.div_unique j 64 k (j - 64 * k)); lia).
        replace (j mod 64) with (j - 64 * k) by (apply (Z.mod_unique j 64 k); lia).
        rewrite Hw. apply Hlow. lia.
      * rewrite <- Ed at 1. apply store_wf; [done|lia|by apply clear_bit_fits|].
        rewrite Ed. intros j Hj. rewrite Hst by (pose proof (wf_cap _ Hwf); unfold fits in *; lia).
        by rewrite (wf_above _ Hwf).
      * done.
Qed.

Lemma find_and_clear_first_set_spec :
  exists r bs', find_and_clear_first_set sps bs = Ret (r, bs') /\ found bs r bs'.
Proof using Hwf Hsps. apply find_from_spec; lia. Qed.
End find.

(** ** The abstract set *)

Inductive call :=
| SetBit (i : Z)
| ClearBit (i : Z)
| IsSet (i : Z)
| CountSet
| FindAndClear.

Inductive reply :=
| Flag (b : bool)
| Count (n : Z)
| First (r : option Z).

Definition do_call (sps : list bool) (bs : AtomicBitSet) (c : call)
    : outcome (reply * AtomicBitSet) :=
  match c with
  | SetBit i => let! (b, bs) := set sps bs i in Ret (Flag b, bs)
  | ClearBit i => let! (b, bs) := clear sps bs i in Ret (Flag b, bs)
  | IsSet i => let! b := is_set bs i in Ret (Flag b, bs)
  | CountSet => Ret (Count (count_set bs), bs)
  | FindAndClear => let! (r, bs) := find_and_clear_first_set sps bs in Ret (First r, bs)
  end.

Fixpoint do_calls (sps : list bool) (bs : AtomicBitSet) (cs : list call)
    : outcome (list reply * AtomicBitSet) :=
  match cs with
  | [] => Ret ([], bs)
  | c :: cs =>
      let! (r, bs) := do_call sps bs c in
      let! (rs, bs) := do_calls sps bs cs in
      Ret (r :: rs, bs)
  end.

(** What a finite set of indices below [cap] answers. *)
Definition spec_call (cap : Z) (m : gset Z) (c : call) : reply * gset Z :=
  match c with
  | SetBit i => (Flag (bool_decide (i ∉ m)), {[i]} ∪ m)
  | ClearBit i => (Flag (bool_decide (i ∈ m)), m ∖ {[i]})
  | IsSet i => (Flag (bool_decide (i ∈ m)), m)
  | CountSet => (Count (Z.of_nat (size m)), m)
  | FindAndClear =>
      match filter (.∈ m) (seqZ 0 cap) with
      | [] => (First None, m)
      | i :: _ => (First (Some i), m ∖ {[i]})
      end
  end.

Fixpoint spec_calls (cap : Z) (m : gset Z) (cs : list call) : list reply * gset Z :=
  match cs with
  | [] => ([], m)
  | c :: cs =>
      let (r, m) := spec_call cap m c in
      let (rs, m) := spec_calls cap m cs in
      (r :: rs, m)
  end.

Definition call_ok (cap : Z) (c : call) : Prop :=
  match c with SetBit i | ClearBit i | IsSet i => 0 <= i < cap | _ => True end.

Record rep (bs : AtomicBitSet) (m : gset Z) : Prop := {
  rep_wf : wf bs;
  rep_mem : forall j, 0 <= j -> mem bs j = bool_decide (j ∈ m);
  rep_range : forall j, j ∈ m -> 0 <= j < capacity bs;
}.

Lemma bitset_rep_new cap : fits 32 cap -> rep (new cap) ∅.
Proof.
  intros Hc. split; [by apply bitset_new_wf| |set_solver].
  intros j _. rewrite bitset_new_mem. by rewrite bool_decide_eq_false_2 by set_solver.
Qed.

Lemma rep_count bs m : rep bs m -> count_set bs = Z.of_nat (size m).
Proof.
  intros [Hwf Hm Hr]. rewrite count_set_members by done. f_equal.
  unfold size, set_size. cbn. apply Permutation_length, NoDup_Permutation.
  - apply NoDup_filter, NoDup_seqZ.
  - apply NoDup_elements.
  - intros i. rewrite elem_of_elements. split.
    + intros [Hi Hin]%list_elem_of_filter. apply elem_of_seqZ in Hin.
      rewrite Hm in Hi by lia. by apply bool_decide_eq_true in Hi.
    + intros Hi. pose proof (Hr _ Hi). apply elem_of_members; [done|lia|].
      rewrite Hm by lia. by apply bool_decide_eq_true.
Qed.

Lemma rep_difference bs bs' m i :
  rep bs m -> wf bs' -> capacity bs' = capacity bs ->
  (forall j, 0 <= j -> mem bs' j = mem bs j && negb (j =? i)) -> rep bs' (m ∖ {[i]}).
Proof.
  intros [Hwf Hm Hr] Hwf' Hcap Hj. split; [done| |].
  - intros j H0. rewrite Hj, Hm by done. apply eq_true_iff_eq.
    rewrite andb_true_iff, negb_true_iff, Z.eqb_neq, !bool_decide_eq_true. set_solver.
  - intros j Hin. rewrite Hcap. apply Hr. set_solver.
Qed.

Lemma first_in (Q : Z -> Prop) `{!forall x, Decision (Q x)} n i :
  0 <= i < n -> Q i -> (forall j, 0 <= j < i -> ~ Q j) ->
  exists l, filter Q (seqZ 0 n) = i :: l.
Proof.
  intros Hi Hq Hlow. destruct (filter Q (seqZ 0 n)) as [|k l] eqn:E.
  - assert (Hin : i ∈ filter Q (seqZ 0 n)) by (apply list_elem_of_filter, conj, elem_of_seqZ; [done|lia]).
    rewrite E in Hin. by apply elem_of_nil in Hin.
  - apply sorted_seqZ_hd in E as (H1 & H2 & H3). exists l. f_equal.
    destruct (Z.lt_trichotomy k i) as [|[|]]; [|done|].
    + exfalso. apply (Hlow k); [lia|done].
    + exfalso. apply (H3 i); [lia|done].
Qed.

Lemma bitset_do_call sps bs m c :
  false ∈ sps -> rep bs m -> call_ok (capacity bs) c ->
  exists bs', do_call sps bs c = Ret ((spec_call (capacity bs) m c).1, bs') /\
    rep bs' (spec_call (capacity bs) m c).2 /\ capacity bs' = capacity bs.
Proof.
  intros Hin Hrep Hok. pose proof Hrep as [Hwf Hm Hr].
  destruct c as [i|i|i| |]; cbn [call_ok do_call spec_call fst snd] in *.
  - destruct (set_mem bs Hwf i Hok sps Hin) as (bs' & -> & Hwf' & Hcap & Hj). cbn.
    exists bs'. rewrite Hm by lia. rewrite bool_decide_not. split; [done|]. split; [|done].
    split; [done| |].
    + intros j H0. rewrite Hj, Hm by done. apply eq_true_iff_eq.
      rewrite orb_true_iff, Z.eqb_eq, !bool_decide_eq_true. set_solver.
    + intros j [->%elem_of_singleton|Hjm]%elem_of_union; rewrite Hcap; auto.
  - destruct (clear_mem bs Hwf i Hok sps Hin) as (bs' & -> & Hwf' & Hcap & Hj). cbn.
    exists bs'. rewrite Hm by lia. split; [done|]. split; [|done]. by eapply rep_difference.
  - rewrite (is_set_mem bs Hwf i Hok). cbn. rewrite Hm by lia. by exists bs.
  - rewrite (rep_count _ _ Hrep). by exists bs.
  - destruct (find_and_clear_first_set_spec bs Hwf sps Hin) as (r & bs' & -> & Hf). cbn.
    destruct r as [i|]; cbn in Hf.
    + destruct Hf as (Hi & Hmi & Hlow & Hwf' & Hcap & Hj).
      destruct (first_in (.∈ m) (capacity bs) i) as [l Hl]; [done| | |].
      * rewrite Hm in Hmi by lia. by apply bool_decide_eq_true in Hmi.
      * intros j Hlt. specialize (Hlow j Hlt). rewrite Hm in Hlow by lia.
        by apply bool_decide_eq_false in Hlow.
      * rewrite Hl. cbn. exists bs'. split; [done|]. split; [|done]. by eapply rep_difference.
    + destruct Hf as [-> Hnone]. rewrite filter_none_in; [by exists bs|].
      intros j [H0 _]%elem_of_seqZ Hjm. specialize (Hnone j H0). rewrite Hm in Hnone by done.
      by apply bool_decide_eq_false in Hnone.
Qed.

(** A bit set created by [new] answers every sequence of [set], [clear],
    [is_set], [count_set] and [find_and_clear_first_set] calls on bits below
    its capacity as a finite set of integers does: [set] and [clear] tell
    whether they changed the bit, [count_set] is the cardinality, and
    [find_and_clear_first_set] removes the least element.  No call panics or
    loops, however many compare-exchanges fail spuriously first. *)
Theorem bitset_refines_set sps cap cs :
  false ∈ sps -> fits 32 cap -> Forall (call_ok cap) cs ->
  exists bs', do_calls sps (new cap) cs = Ret ((spec_calls cap ∅ cs).1, bs') /\
    rep bs' (spec_calls cap ∅ cs).2.
Proof.
  intros Hin Hcap Hcs. pose proof (bitset_rep_new cap Hcap) as Hrep.
  assert (Hc : capacity (new cap) = cap) by done. revert Hrep Hc.
  generalize (new cap) as bs, (∅ : gset Z) as m.
  induction cs as [|c cs IH]; intros bs m Hrep Hc; [by exists bs|].
  apply Forall_cons in Hcs as [Ho Hcs]. cbn. rewrite <- Hc in Ho.
  destruct (bitset_do_call sps bs m c Hin Hrep Ho) as (bs1 & -> & Hrep1 & Hc1).
  rewrite Hc in *. cbn. destruct (spec_call cap m c) as [r m1]. cbn in *.
  destruct (IH Hcs bs1 m1 Hrep1 Hc1) as (bs2 & -> & Hrep2). cbn.
  destruct (spec_calls cap m1 cs). by exists bs2.
Qed.

Definition example_calls : list call :=
  [SetBit 5; SetBit 70; SetBit 5; IsSet 70; CountSet; FindAndClear; IsSet 5; ClearBit 70;
   FindAndClear].

Lemma bitset_refines_set_witness :
  exists bs', do_calls [true; false] (new 100) example_calls
    = Ret ((spec_calls 100 ∅ example_calls).1, bs') /\ rep bs' (spec_calls 100 ∅ example_calls).2.
Proof.
  apply (bitset_refines_set [true; false] 100).
  - apply elem_of_cons; right; apply elem_of_cons; left; reflexivity.
  - fits_tac.
  - repeat constructor; cbn; lia.
Defined.

Example bitset_run :
  (let! (rs, _) := do_calls [true; false] (new 100) example_calls in Ret rs)
  = Ret [Flag true; Flag true; Flag false; Flag true; Count 2; First (Some 5); Flag false;
         Flag true; First None].
Proof. vm_compute. reflexivity. Qed.

End AtomicBitSet.
