(* ===== verification/BitsetConc.v ===== *)
(** * AtomicBitSet under concurrency

    The operations of atomic_bitset.rs cut at every access to a word, run by any
    number of threads in any order.  [set], [clear], [is_set] and a successful
    [find_and_clear_first_set] take effect at one instant each; [count_set] and
    a search that finds nothing read the words one after the other. *)
From S2P Require Import Prelude Bitset.
#[local] Open Scope Z_scope.

Module BitsetThreads.
Import AtomicBitSet.

(** Where a thread stands: the load of the word and the compare-exchange of each
    loop; in a walk over the words, the word it is at and the count so far. *)
Inductive pc :=
| Idle
| SetLoad (i : Z)
| SetCas (i old : Z)
| ClearLoad (i : Z)
| ClearCas (i old : Z)
| IsSetLoad (i : Z)
| CountLoad (word_idx acc : Z)
| FindLoad (word_idx : Z)
| FindCas (word_idx old : Z)
| FindRestore (word_idx bit : Z)
| Panicked.

(** What takes effect at one instant; the flag is the answer of the call. *)
Inductive event :=
| WasSet (i : Z) (newly : bool)
| WasCleared (i : Z) (was : bool)
| Looked (i : Z) (b : bool)
| Took (i : Z).

(** [effect] (ghost) is the event of the call the thread last returned from. *)
Record thread := mkT {
  at_ : pc;
  returned : option reply;
  effect : option event;
}.

Record config := mkC {
  bits : AtomicBitSet;
  threads : list thread;
}.

Inductive action :=
| Call (c : call)
| Run (spurious : bool).

Definition goto (p : pc) : thread * list event := (mkT p None None, []).

(** The call returns, and this is when it takes effect ... *)
Definition answers (r : reply) (e : event) : thread * list event :=
  (mkT Idle (Some r) (Some e), [e]).

(** ... or it returns what it has gathered. *)
Definition gathered (r : reply) : thread * list event := (mkT Idle (Some r) None, []).

Definition bit_of_index (i : Z) : Z := shl 64 1 (i mod 64).

(** The heads of the loops, with the value just read from the word. *)
Definition observe_set (i old : Z) : thread * list event :=
  if negb (Z.land old (bit_of_index i) =? 0) then answers (Flag false) (WasSet i false)
  else goto (SetCas i old).

Definition observe_clear (i old : Z) : thread * list event :=
  if Z.land old (bit_of_index i) =? 0 then answers (Flag false) (WasCleared i false)
  else goto (ClearCas i old).

Definition next_count (bs : AtomicBitSet) (word_idx acc : Z) : thread * list event :=
  if word_idx <? Z.of_nat (length (words bs)) then goto (CountLoad word_idx acc)
  else gathered (Count acc).

Definition next_find (bs : AtomicBitSet) (word_idx : Z) : thread * list event :=
  if word_idx <? Z.of_nat (length (words bs)) then goto (FindLoad word_idx)
  else gathered (First None).

Definition observe_find (bs : AtomicBitSet) (word_idx old : Z) : thread * list event :=
  if old =? 0 then next_find bs (word_idx + 1) else goto (FindCas word_idx old).

(** The access a thread makes next, to the word [cur] it is at. *)
Definition step_word (spurious : bool) (bs : AtomicBitSet) (cur : Z) (p : pc)
    : option (AtomicBitSet * (thread * list event)) :=
  match p with
  | Idle | Panicked => None
  | SetLoad i => Some (bs, observe_set i cur)
  | SetCas i old =>
      match compare_exchange_weak spurious cur old (Z.lor old (bit_of_index i)) with
      | Ok w => Some (store_word bs (i / 64) w, answers (Flag true) (WasSet i true))
      | Err current => Some (bs, observe_set i current)
      end
  | ClearLoad i => Some (bs, observe_clear i cur)
  | ClearCas i old =>
      match compare_exchange_weak spurious cur old (Z.land old (bnot 64 (bit_of_index i))) with
      | Ok w => Some (store_word bs (i / 64) w, answers (Flag true) (WasCleared i true))
      | Err current => Some (bs, observe_clear i current)
      end
  | IsSetLoad i =>
      let b := negb (Z.land cur (bit_of_index i) =? 0) in
      Some (bs, answers (Flag b) (Looked i b))
  | CountLoad wi acc => Some (bs, next_count bs (wi + 1) (wrap 32 (acc + count_ones cur)))
  | FindLoad wi => Some (bs, observe_find bs wi cur)
  | FindCas wi old =>
      let bit_pos := trailing_zeros old in
      let bit := shl 64 1 bit_pos in
      match compare_exchange_weak spurious cur old (Z.land old (bnot 64 bit)) with
      | Ok w =>
          let idx := wrap 32 (wi * 64 + bit_pos) in
          if idx <? capacity bs
          then Some (store_word bs wi w, answers (First (Some idx)) (Took idx))
          else Some (store_word bs wi w, goto (FindRestore wi bit))
      | Err current => Some (bs, observe_find bs wi current)
      end
  | FindRestore wi bit => Some (store_word bs wi (Z.lor cur bit), gathered (First None))
  end.

Definition word_of (p : pc) : Z :=
  match p with
  | SetLoad i | SetCas i _ | ClearLoad i | ClearCas i _ | IsSetLoad i => i / 64
  | CountLoad wi _ | FindLoad wi | FindCas wi _ | FindRestore wi _ => wi
  | Idle | Panicked => 0
  end.

Definition run_thread (spurious : bool) (bs : AtomicBitSet) (p : pc)
    : option (AtomicBitSet * (thread * list event)) :=
  match p with
  | Idle | Panicked => None
  | _ =>
      match words bs !! Z.to_nat (word_of p) with
      | Some cur => step_word spurious bs cur p
      | None => Some (bs, goto Panicked)
      end
  end.

#[export] Instance call_ok_dec cap c : Decision (call_ok cap c).
Proof. destruct c; apply _. Defined.

(** A call on a bit below the capacity, which every operation asserts. *)
Definition start_call (bs : AtomicBitSet) (c : call) : option (thread * list event) :=
  if decide (call_ok (capacity bs) c) then
    Some (match c with
          | SetBit i => goto (SetLoad i)
          | ClearBit i => goto (ClearLoad i)
          | IsSet i => goto (IsSetLoad i)
          | CountSet => next_count bs 0 0
          | FindAndClear => next_find bs 0
          end)
  else None.

Definition act (a : action) (bs : AtomicBitSet) (p : pc)
    : option (AtomicBitSet * (thread * list event)) :=
  match a with
  | Run sp => run_thread sp bs p
  | Call c =>
      match p, start_call bs c with
      | Idle, Some r => Some (bs, r)
      | _, _ => None
      end
  end.

Definition exec (i : nat) (a : action) (c : config) : option (config * list event) :=
  match threads c !! i with
  | None => None
  | Some t =>
      match act a (bits c) (at_ t) with
      | None => None
      | Some (bs, (t', evs)) => Some (mkC bs (<[i := t']> (threads c)), evs)
      end
  end.

Fixpoint run (sched : list (nat * action)) (c : config) : option (config * list event) :=
  match sched with
  | [] => Some (c, [])
  | (i, a) :: sched =>
      match exec i a c with
      | None => None
      | Some (c1, e1) =>
          match run sched c1 with
          | None => None
          | Some (c2, e2) => Some (c2, e1 ++ e2)
          end
      end
  end.

Definition init (bs : AtomicBitSet) (n : nat) : config :=
  mkC bs (replicate n (mkT Idle None None)).

(** ** The abstract set *)

Definition event_step (m : gset Z) (e : event) : option (gset Z) :=
  match e with
  | WasSet i newly => if decide (newly = bool_decide (i ∉ m)) then Some ({[i]} ∪ m) else None
  | WasCleared i was => if decide (was = bool_decide (i ∈ m)) then Some (m ∖ {[i]}) else None
  | Looked i b => if decide (b = bool_decide (i ∈ m)) then Some m else None
  | Took i => if decide (i ∈ m) then Some (m ∖ {[i]}) else None
  end.

Fixpoint event_run (m : gset Z) (evs : list event) : option (gset Z) :=
  match evs with
  | [] => Some m
  | e :: evs => match event_step m e with Some m => event_run m evs | None => None end
  end.

Lemma event_run_app m evs1 evs2 :
  event_run m (evs1 ++ evs2) =
  match event_run m evs1 with Some m => event_run m evs2 | None => None end.
Proof.
  revert m. induction evs1 as [|e evs1 IH]; intros m; cbn; [done|].
  destruct (event_step m e); [apply IH|done].
Qed.

(** How often bit [i] came into the set, less how often it left. *)
Definition change (i : Z) (e : event) : Z :=
  match e with
  | WasSet j true => if decide (i = j) then 1 else 0
  | WasCleared j true | Took j => if decide (i = j) then -1 else 0
  | _ => 0
  end.

Definition one_if (b : bool) : Z := if b then 1 else 0.

Lemma event_run_balance i m evs m' :
  event_run m evs = Some m' ->
  one_if (bool_decide (i ∈ m')) = one_if (bool_decide (i ∈ m)) + zsum (change i) evs.
Proof.
  revert m. induction evs as [|e evs IH]; intros m; cbn; [intros [= ->]; lia|].
  destruct (event_step m e) as [m1|] eqn:E; [|done]. intros H. rewrite (IH _ H). clear IH H.
  enough (one_if (bool_decide (i ∈ m1)) = one_if (bool_decide (i ∈ m)) + change i e) by lia.
  unfold event_step in E.
  destruct e as [j b|j b|j b|j]; case_decide as Hd; simplify_eq; cbn [change];
    repeat (case_bool_decide || case_decide); cbn [one_if]; try lia; set_solver.
Qed.

(** ** The invariant *)

Definition old_bit (old i : Z) (b : bool) : Prop :=
  fits 64 old /\ Z.testbit old (i mod 64) = b.

Definition answered (t : thread) : Prop :=
  match returned t with
  | Some (Flag b) =>
      exists i, effect t = Some (WasSet i b) \/ effect t = Some (WasCleared i b) \/
        effect t = Some (Looked i b)
  | Some (First (Some i)) => effect t = Some (Took i)
  | Some (First None) | Some (Count _) | None => True
  end.

Definition ok (bs : AtomicBitSet) (t : thread) : Prop :=
  match at_ t with
  | Idle => answered t
  | SetLoad i | ClearLoad i | IsSetLoad i => 0 <= i < capacity bs
  | SetCas i old => 0 <= i < capacity bs /\ old_bit old i false
  | ClearCas i old => 0 <= i < capacity bs /\ old_bit old i true
  | CountLoad wi _ | FindLoad wi => 0 <= wi < Z.of_nat (length (words bs))
  | FindCas wi old => 0 <= wi < Z.of_nat (length (words bs)) /\ fits 64 old /\ old <> 0
  | FindRestore _ _ | Panicked => False
  end.

Record inv (c : config) (m : gset Z) : Prop := {
  inv_rep : rep (bits c) m;
  inv_threads : forall i t, threads c !! i = Some t -> ok (bits c) t;
}.

(** What other threads know does not depend on the contents of the words. *)
Lemma ok_store bs wi w t : ok bs t -> ok (store_word bs wi w) t.
Proof. unfold ok, store_word. cbn. by rewrite length_insert. Qed.

Section steps.
Context (c : config) (m : gset Z) (Hinv : inv c m).
Abbreviation bs := (bits c).

Definition goes (c' : config) (evs : list event) : Prop :=
  exists m', event_run m evs = Some m' /\ inv c' m'.

Lemma stays i t evs :
  ok bs t -> event_run m evs = Some m -> goes (mkC bs (<[i := t]> (threads c))) evs.
Proof using Hinv.
  intros Hok Hev. exists m. split; [done|]. split; [apply Hinv|].
  intros j u [(<- & <- & _)|[_ Hj]]%list_lookup_insert_Some; [done|]. by apply Hinv in Hj.
Qed.

Lemma word_at p cur :
  words bs !! Z.to_nat (word_of p) = Some cur -> fits 64 cur.
Proof using Hinv.
  intros Hw. apply (wf_words _ (rep_wf _ _ (inv_rep _ _ Hinv))). by eapply list_elem_of_lookup_2.
Qed.

(** The bit of [i] in its word tells whether [i] is in the set. *)
Lemma word_bit i cur :
  0 <= i -> words bs !! Z.to_nat (i / 64) = Some cur ->
  old_bit cur i (bool_decide (i ∈ m)) /\
  negb (Z.land cur (bit_of_index i) =? 0) = bool_decide (i ∈ m).
Proof using Hinv.
  intros Hi Hw. assert (Hf : fits 64 cur) by by apply (word_at (SetLoad i)).
  assert (Hb : Z.testbit cur (i mod 64) = bool_decide (i ∈ m)).
  { rewrite <- (rep_mem _ _ (inv_rep _ _ Hinv)) by done. unfold mem. by rewrite Hw. }
  split; [done|]. unfold bit_of_index. by rewrite test_bit by apply mod64.
Qed.

Lemma bitset_observe_set_inv k i cur :
  0 <= i < capacity bs -> words bs !! Z.to_nat (i / 64) = Some cur ->
  goes (mkC bs (<[k := (observe_set i cur).1]> (threads c))) (observe_set i cur).2.
Proof using Hinv.
  intros Hi Hw. destruct (word_bit i cur ltac:(lia) Hw) as [Hb Ht].
  unfold observe_set. rewrite Ht. case_bool_decide as Hm; cbn [fst snd answers goto].
  - apply stays; [cbn; unfold answered; cbn; eauto|]. cbn.
    rewrite decide_True by (rewrite bool_decide_eq_false_2; [done|tauto]). f_equal. set_solver.
  - by apply stays.
Qed.

Lemma bitset_observe_clear_inv k i cur :
  0 <= i < capacity bs -> words bs !! Z.to_nat (i / 64) = Some cur ->
  goes (mkC bs (<[k := (observe_clear i cur).1]> (threads c))) (observe_clear i cur).2.
Proof using Hinv.
  intros Hi Hw. destruct (word_bit i cur ltac:(lia) Hw) as [Hb Ht].
  unfold observe_clear. apply (f_equal negb) in Ht. rewrite negb_involutive in Ht. rewrite Ht.
  case_bool_decide as Hm; cbn [fst snd answers goto negb].
  - by apply stays.
  - apply stays; [cbn; unfold answered; cbn; eauto|]. cbn.
    rewrite decide_True by (by rewrite bool_decide_eq_false_2). f_equal. set_solver.
Qed.

(** The ends of the walks. *)
Lemma next_find_inv k wi :
  0 <= wi -> goes (mkC bs (<[k := (next_find bs wi).1]> (threads c))) (next_find bs wi).2.
Proof using Hinv.
  intros Hwi. unfold next_find. destruct (_ <? _) eqn:E; zbool; cbn [fst snd]; by apply stays.
Qed.

Lemma next_count_inv k wi acc :
  0 <= wi ->
  goes (mkC bs (<[k := (next_count bs wi acc).1]> (threads c))) (next_count bs wi acc).2.
Proof using Hinv.
  intros Hwi. unfold next_count. destruct (_ <? _) eqn:E; zbool; cbn [fst snd]; by apply stays.
Qed.

Lemma observe_find_inv k wi cur :
  0 <= wi -> words bs !! Z.to_nat wi = Some cur ->
  goes (mkC bs (<[k := (observe_find bs wi cur).1]> (threads c))) (observe_find bs wi cur).2.
Proof using Hinv.
  intros Hwi Hw. unfold observe_find. destruct (cur =? 0) eqn:E; zbool.
  - apply next_find_inv. lia.
  - apply stays; [|done]. pose proof (lookup_lt_Some _ _ _ Hw).
    split; [lia|]. split; [|done]. by apply (word_at (FindLoad wi)).
Qed.

(** A word is replaced and the set changes with it. *)
Lemma bitset_store_inv k t i cur w f m' evs :
  words bs !! Z.to_nat (i / 64) = Some cur -> 0 <= i < capacity bs -> fits 64 w ->
  (forall j, 0 <= j -> Z.testbit w j = f (j =? i mod 64) (Z.testbit cur j)) ->
  (forall b, f false b = b) ->
  (forall j, bool_decide (j ∈ m') = f (j =? i) (bool_decide (j ∈ m))) ->
  ok bs t -> event_run m evs = Some m' ->
  goes (mkC (store_word bs (i / 64) w) (<[k := t]> (threads c))) evs.
Proof using Hinv.
  intros Hw Hi Hfw Hbits Hf Hm Hok Hev. pose proof (inv_rep _ _ Hinv) as [Hwf Hmem Hr].
  exists m'. split; [done|].
  assert (Hj : forall j, 0 <= j -> mem (store_word bs (i / 64) w) j = bool_decide (j ∈ m')).
  { intros j H0. rewrite (store_mem bs i cur w f), Hm, Hmem by (done || lia). done. }
  assert (Hr' : forall j, j ∈ m' -> 0 <= j < capacity bs).
  { intros j Hin. destruct (decide (j = i)) as [->|Hne]; [done|]. apply Hr.
    specialize (Hm j). rewrite (proj2 (Z.eqb_neq j i) Hne), Hf, bool_decide_eq_true_2 in Hm by done.
    symmetry in Hm. by apply bool_decide_eq_true in Hm. }
  split; [split; [|done|done]|].
  - apply store_wf; [done|lia|done|]. intros j Hge. rewrite Hj by lia.
    apply bool_decide_eq_false. intros Hin%Hr'. lia.
  - intros j u [(<- & <- & _)|[_ Hu]]%list_lookup_insert_Some; apply ok_store; [done|].
    by apply Hinv in Hu.
Qed.

Lemma bitset_set_inv k i old :
  0 <= i < capacity bs -> old_bit old i false -> words bs !! Z.to_nat (i / 64) = Some old ->
  goes (mkC (store_word bs (i / 64) (Z.lor old (bit_of_index i)))
    (<[k := mkT Idle (Some (Flag true)) (Some (WasSet i true))]> (threads c))) [WasSet i true].
Proof using Hinv.
  intros Hi [Hf Hb] Hw. destruct (word_bit i old ltac:(lia) Hw) as [[_ Hm] _].
  rewrite Hb in Hm. symmetry in Hm. apply bool_decide_eq_false in Hm.
  apply bitset_store_inv with old orb ({[i]} ∪ m); try done.
  - apply set_bit_fits; [done|apply mod64].
  - intros j Hj. apply set_bit_testbit; [apply mod64|done].
  - intros j. apply eq_true_iff_eq. rewrite orb_true_iff, Z.eqb_eq, !bool_decide_eq_true. set_solver.
  - cbn. unfold answered. cbn. eauto.
  - cbn. by rewrite decide_True by by rewrite bool_decide_eq_true_2.
Qed.

(** Bit [i] of its word is cleared, by [clear] or by a search. *)
Lemma bitset_clear_inv k i old t e :
  0 <= i < capacity bs -> old_bit old i true -> words bs !! Z.to_nat (i / 64) = Some old ->
  ok bs t -> e = WasCleared i true \/ e = Took i ->
  goes (mkC (store_word bs (i / 64) (Z.land old (bnot 64 (bit_of_index i))))
    (<[k := t]> (threads c))) [e].
Proof using Hinv.
  intros Hi [Hf Hb] Hw Hok He. destruct (word_bit i old ltac:(lia) Hw) as [[_ Hm] _].
  rewrite Hb in Hm. symmetry in Hm. apply bool_decide_eq_true in Hm.
  apply bitset_store_inv with old (fun x b => b && negb x) (m ∖ {[i]}); try done.
  - apply clear_bit_fits; [done|apply mod64].
  - intros j Hj. apply clear_bit_testbit; [done|apply mod64|done].
  - intros b. apply andb_true_r.
  - intros j. apply eq_true_iff_eq.
    rewrite andb_true_iff, negb_true_iff, Z.eqb_neq, !bool_decide_eq_true. set_solver.
  - destruct He as [->| ->]; cbn; [|by rewrite decide_True].
    by rewrite decide_True by by rewrite bool_decide_eq_true_2.
Qed.

(** The bit that a search finds in a word is below the capacity. *)
Lemma found_bit wi old :
  0 <= wi -> words bs !! Z.to_nat wi = Some old -> fits 64 old -> old <> 0 ->
  let p := trailing_zeros old in
  let i := wi * 64 + p in
  i / 64 = wi /\ i mod 64 = p /\ 0 <= i < capacity bs /\ wrap 32 i = i /\ old_bit old i true.
Proof using Hinv.
  intros Hwi Hw Hf Hne p i. destruct (trailing_zeros_spec old Hf Hne) as (Hp & Hpr & _).
  destruct (bit_index wi p Hpr) as [Ed Em]. pose proof (inv_rep _ _ Hinv) as [Hwf Hmem Hr].
  assert (Hin : mem bs i = true) by (unfold mem, i; by rewrite Ed, Em, Hw).
  assert (Hi : 0 <= i < capacity bs).
  { split; [unfold i, p; lia|]. destruct (decide (i < capacity bs)); [done|].
    rewrite (wf_above _ Hwf) in Hin by lia. done. }
  split; [done|]. split; [done|]. split; [done|]. split.
  - apply wrap_small. pose proof (wf_cap _ Hwf). unfold fits in *. lia.
  - split; [done|]. unfold i. by rewrite Em.
Qed.

(** Every access keeps the invariant ... *)
Lemma step_word_inv k sp p cur bs' t' evs :
  ok bs (mkT p None None) -> words bs !! Z.to_nat (word_of p) = Some cur ->
  step_word sp bs cur p = Some (bs', (t', evs)) ->
  goes (mkC bs' (<[k := t']> (threads c))) evs.
Proof using Hinv.
  intros Hok Hw Hs. destruct p as [|i|i old|i|i old|i|wi acc|wi|wi old|wi b|];
    try done; cbn [ok at_ word_of] in *; cbn [step_word] in Hs.
  - pose proof (bitset_observe_set_inv k i cur Hok Hw). destruct (observe_set i cur). by simplify_eq.
  - destruct Hok as [Hi Hb]. destruct (compare_exchange_weak _ _ _ _) as [w|cur'] eqn:Ec.
    + apply cas_ok in Ec as (-> & _ & ->). injection Hs as <- <- <-. by apply bitset_set_inv.
    + apply cas_err in Ec as ->. pose proof (bitset_observe_set_inv k i cur Hi Hw).
      destruct (observe_set i cur). by simplify_eq.
  - pose proof (bitset_observe_clear_inv k i cur Hok Hw). destruct (observe_clear i cur). by simplify_eq.
  - destruct Hok as [Hi Hb]. destruct (compare_exchange_weak _ _ _ _) as [w|cur'] eqn:Ec.
    + apply cas_ok in Ec as (-> & _ & ->). injection Hs as <- <- <-. apply bitset_clear_inv; auto.
      cbn. unfold answered. cbn. eauto.
    + apply cas_err in Ec as ->. pose proof (bitset_observe_clear_inv k i cur Hi Hw).
      destruct (observe_clear i cur). by simplify_eq.
  - injection Hs as <- <- <-. destruct (word_bit i cur ltac:(lia) Hw) as [_ Ht].
    apply stays; [cbn; unfold answered; cbn; eauto|]. cbn. by rewrite Ht, decide_True.
  - pose proof (next_count_inv k (wi + 1) (wrap 32 (acc + count_ones cur)) ltac:(lia)).
    destruct (next_count _ _ _). by simplify_eq.
  - pose proof (observe_find_inv k wi cur ltac:(lia) Hw). destruct (observe_find _ _ _). by simplify_eq.
  - destruct Hok as (Hwi & Hf & Hne). destruct (compare_exchange_weak _ _ _ _) as [w|cur'] eqn:Ec.
    + apply cas_ok in Ec as (-> & _ & ->).
      destruct (found_bit wi old ltac:(lia) Hw Hf Hne) as (Ed & Em & Hi & Hwr & Hb).
      rewrite Hwr, (proj2 (Z.ltb_lt _ _)) in Hs by lia. injection Hs as <- <- <-.
      rewrite <- Em, <- Ed at 1. apply bitset_clear_inv; auto; [by rewrite Ed|done].
    + apply cas_err in Ec as ->. pose proof (observe_find_inv k wi cur ltac:(lia) Hw).
      destruct (observe_find _ _ _). by simplify_eq.
Qed.

(** ... and finds its word. *)
Lemma word_there p : ok bs (mkT p None None) -> p <> Idle ->
  exists cur, words bs !! Z.to_nat (word_of p) = Some cur.
Proof using Hinv.
  pose proof (rep_wf _ _ (inv_rep _ _ Hinv)) as Hwf.
  destruct p; cbn; intros Hok Hp; try done; try (apply (word_index bs Hwf); tauto);
    (apply index_ok; tauto).
Qed.

Lemma ok_at t : at_ t <> Idle -> ok bs t -> ok bs (mkT (at_ t) None None).
Proof using. unfold ok. by destruct (at_ t). Qed.

Lemma bitset_exec_inv k a c' evs : exec k a c = Some (c', evs) -> goes c' evs.
Proof using Hinv.
  intros He. unfold exec in He. destruct (threads c !! k) as [t|] eqn:Hk; [|done].
  pose proof (inv_threads _ _ Hinv _ _ Hk) as Hok.
  destruct (act a bs (at_ t)) as [[bs' [t' evs']]|] eqn:Ha; [|done]. injection He as <- <-.
  destruct a as [cl|sp]; cbn [act] in Ha.
  - destruct (at_ t); try done. unfold start_call in Ha. case_decide as Hcl; [|done].
    injection Ha as <- Ht. destruct cl; cbn in Hcl;
      try (unfold goto in Ht; injection Ht as <- <-; by apply stays).
    + pose proof (next_count_inv k 0 0 ltac:(lia)) as Hn. by rewrite Ht in Hn.
    + pose proof (next_find_inv k 0 ltac:(lia)) as Hn. by rewrite Ht in Hn.
  - assert (Hne : at_ t <> Idle) by (intros E; by rewrite E in Ha).
    destruct (word_there (at_ t) (ok_at t Hne Hok) Hne) as [cur Hw].
    apply (step_word_inv k sp (at_ t) cur); [by apply ok_at|done|].
    unfold run_thread in Ha. rewrite Hw in Ha. by destruct (at_ t).
Qed.
End steps.

(** ** Reachable configurations *)

Inductive reach (c0 : config) : config -> list event -> Prop :=
| reach_refl : reach c0 c0 []
| reach_step c evs k a c' e :
    reach c0 c evs -> exec k a c = Some (c', e) -> reach c0 c' (evs ++ e).

Lemma bitset_init_inv cap n : fits 32 cap -> inv (init (new cap) n) ∅.
Proof.
  intros Hc. split; [by apply bitset_rep_new|]. by intros i t [-> _]%lookup_replicate.
Qed.

Lemma bitset_reachable_inv cap n c evs :
  fits 32 cap -> reach (init (new cap) n) c evs ->
  exists m, event_run ∅ evs = Some m /\ inv c m.
Proof.
  intros Hc. induction 1 as [|c evs k a c' e _ (m & Hm & Hi) He].
  - exists ∅. split; [done|]. by apply bitset_init_inv.
  - destruct (bitset_exec_inv c m Hi k a c' e He) as (m' & Hm' & Hi').
    exists m'. by rewrite event_run_app, Hm.
Qed.

Lemma bitset_run_reach sched c0 c c' evs0 evs :
  reach c0 c evs0 -> run sched c = Some (c', evs) -> reach c0 c' (evs0 ++ evs).
Proof.
  revert c evs0 evs. induction sched as [|[k a] sched IH]; intros c evs0 evs H0 Hr; cbn in Hr.
  - simplify_eq. by rewrite app_nil_r.
  - destruct (exec k a c) as [[c1 e1]|] eqn:He; [|done].
    destruct (run sched c1) as [[c2 e2]|] eqn:Hr2; [|done]. simplify_eq.
    rewrite app_assoc. apply (IH c1); [|done]. by econstructor.
Qed.

(** ** Properties *)

(** C31: however the calls of [n] threads interleave, the answers of [set],
    [clear] and [is_set] and the bits that searches take are those of one finite
    set, initially empty, on which the calls act one at a time in the order of
    [evs]; the words hold that set at every moment; a bit leaves the set once
    for every time it came in, unless it is still there, so no two searches take
    the same bit; and no call on a bit below the capacity panics.  (Sequentially
    consistent interleavings.) *)
Theorem bitset_linearizable cap n c evs :
  fits 32 cap -> reach (init (new cap) n) c evs ->
  exists m, event_run ∅ evs = Some m /\ rep (bits c) m /\
    (forall i, zsum (change i) evs = one_if (bool_decide (i ∈ m))) /\
    (forall k t, threads c !! k = Some t ->
       at_ t <> Panicked /\ (at_ t = Idle -> answered t)).
Proof.
  intros Hc Hr. destruct (bitset_reachable_inv cap n c evs Hc Hr) as (m & Hm & Hi).
  exists m. split; [done|]. split; [apply Hi|]. split.
  - intros i. pose proof (event_run_balance i ∅ evs m Hm) as Hb.
    rewrite (bool_decide_eq_false_2 (i ∈ ∅)) in Hb by set_solver. cbn in Hb. lia.
  - intros k t Ht. pose proof (inv_threads _ _ Hi k t Ht) as Hok. unfold ok in Hok.
    split; [intros E; by rewrite E in Hok|]. intros E. by rewrite E in Hok.
Qed.

(** ** Two runs *)

Definition start100 : config := init (new 100) 2.
Definition end_of (sched : list (nat * action)) : config * list event :=
  match run sched start100 with Some r => r | None => (start100, []) end.

(** Two threads look for a bit at the same time. *)
Definition race : list (nat * action) :=
  let r := Run false in
  [(0, Call (SetBit 3)); (0, r); (0, r); (0, Call (SetBit 9)); (0, r); (0, r);
   (0, Call FindAndClear); (1, Call FindAndClear); (0, r); (1, r); (1, r); (0, r); (0, r)]%nat.

Lemma bitset_race_run : run race start100 = Some (end_of race).
Proof. vm_compute. reflexivity. Qed.

Lemma bitset_linearizable_witness :
  returned <$> threads (end_of race).1 = [Some (First (Some 9)); Some (First (Some 3))] /\
  exists m, event_run ∅ [WasSet 3 true; WasSet 9 true; Took 3; Took 9] = Some m /\
    rep (bits (end_of race).1) m.
Proof.
  split; [vm_compute; reflexivity|].
  assert (Hc : fits 32 100) by fits_tac.
  assert (He : (end_of race).2 = [WasSet 3 true; WasSet 9 true; Took 3; Took 9])
    by (vm_compute; reflexivity).
  pose proof (bitset_run_reach race start100 start100 (end_of race).1 [] (end_of race).2
                (reach_refl _)) as Hr.
  rewrite bitset_race_run in Hr. specialize (Hr (f_equal Some (surjective_pairing _))).
  destruct (bitset_linearizable 100 2 (end_of race).1 (end_of race).2 Hc Hr) as (m & Hm & Hrep & _).
  exists m. rewrite <- He. split; [exact Hm|exact Hrep].
Defined.

(** A search that finds nothing is no proof that the set was empty at some time.
    Bit 70 is set; thread 0 searches and sees the first word empty; thread 1
    sets bit 0 and then clears bit 70; thread 0 sees the second word empty. *)
Definition miss : list (nat * action) :=
  let r := Run false in
  [(0, Call (SetBit 70)); (0, r); (0, r); (0, Call FindAndClear); (0, r);
   (1, Call (SetBit 0)); (1, r); (1, r); (1, Call (ClearBit 70)); (1, r); (1, r); (0, r)]%nat.

Example find_misses :
  (returned <$> threads (end_of miss).1 !! 0%nat) = Some (Some (First None)) /\
  forallb (fun k => match event_run ∅ (take k (end_of miss).2) with
                    | Some m => negb (bool_decide (m = ∅))
                    | None => false
                    end) (seq 1 (length (end_of miss).2)) = true.
Proof. vm_compute. split; reflexivity. Qed.
End BitsetThreads.
