(* ===== verification/BitsetLoop.v ===== *)
(** * The threaded tests of AtomicBitSet
    (entangle-lockfree/src/atomic_bitset.rs, concurrent_set and
    concurrent_set_clear)

    Any number of threads, each setting a list of bits, as programs over the
    machine of BitsetConc.v.  However their turns fall the loops end, and then
    the bits that are set are those of all the lists. *)
From S2P Require Import Prelude Rounds Bitset BitsetConc.
#[local] Open Scope Z_scope.

Module BitsetLoop.
Import AtomicBitSet BitsetThreads.

(** [for i in todo { bs.set(i); }]: before the next call or in it, with the bits
    that follow; [Failed] is a panic. *)
Inductive loop :=
| Next (todo : list Z)
| Setting (todo : list Z)
| Failed.

Record sys := mkSys { cfg : config; loops : list loop }.

(** The answer of [set] is ignored. *)
Definition after_set (todo : list Z) (t : thread) : loop :=
  match at_ t with Idle => Next todo | Panicked => Failed | _ => Setting todo end.

Definition turn (l : loop) (spurious : bool) : option (action * (thread -> loop)) :=
  match l with
  | Next [] | Failed => None
  | Next (i :: todo) => Some (Call (SetBit i), after_set todo)
  | Setting todo => Some (Run spurious, after_set todo)
  end.

Definition step (i : nat) (spurious : bool) (s : sys) : sys :=
  match loops s !! i with
  | None => s
  | Some l =>
      match turn l spurious with
      | None => s
      | Some (a, next) =>
          match exec i a (cfg s) with
          | Some (c, _) =>
              let l' := match threads c !! i with Some t => next t | None => Failed end in
              mkSys c (<[i := l']> (loops s))
          | None => mkSys (cfg s) (<[i := Failed]> (loops s))
          end
      end
  end.

(** One thread per list. *)
Definition start (capacity : Z) (jobs : list (list Z)) : sys :=
  mkSys (init (new capacity) (length jobs)) (Next <$> jobs).

(** [concurrent_set]: four threads set the 64 bits of a word each;
    [concurrent_set_clear]: two threads set two bits of one word each. *)
Definition concurrent_set : sys :=
  start 256 ((fun t => (fun i => t * 64 + i) <$> seqZ 0 64) <$> seqZ 0 4).
Definition concurrent_set_clear : sys := start 4 [[0; 1]; [2; 3]].

(** ** What a thread still has to do *)

Definition target (t : thread) : list Z :=
  match at_ t with SetLoad i | SetCas i _ => [i] | _ => [] end.

Definition pending (x : thread * loop) : list Z :=
  match x.2 with Next todo => todo | Setting todo => target x.1 ++ todo | Failed => [] end.

Definition loop_ok (cap : Z) (t : thread) (l : loop) : Prop :=
  Forall (fun i => 0 <= i < cap) (pending (t, l)) /\
  match l with
  | Next _ => at_ t = Idle
  | Setting _ => match at_ t with SetLoad _ | SetCas _ _ => True | _ => False end
  | Failed => False
  end.

(** A thread whose value of its word is old turns its loop once more. *)
Definition late (bs : AtomicBitSet) (t : thread) : Z :=
  match at_ t with
  | SetCas i old => if decide (words bs !! Z.to_nat (i / 64) = Some old) then 0 else 1
  | _ => 0
  end.

(** Turns to the end if no one interferes any more. *)
Definition turns_left (bs : AtomicBitSet) (x : thread * loop) : Z :=
  match x.2 with
  | Next todo => 3 * Z.of_nat (length todo)
  | Setting todo => 3 * Z.of_nat (length todo) +
      match at_ x.1 with SetLoad _ => 2 | SetCas _ _ => 1 + late bs x.1 | _ => 0 end
  | Failed => 0
  end.

Lemma bits_late_bound bs t : 0 <= late bs t <= 1.
Proof. unfold late. repeat case_match; lia. Qed.

Lemma bits_turns_left_nonneg bs x : 0 <= turns_left bs x.
Proof. unfold turns_left. pose proof (bits_late_bound bs x.1). repeat case_match; lia. Qed.

Lemma bits_turns_left_later bs bs' x : turns_left bs' x <= turns_left bs x + 1.
Proof.
  unfold turns_left. pose proof (bits_late_bound bs x.1). pose proof (bits_late_bound bs' x.1).
  repeat case_match; lia.
Qed.

(** What a turn does: the bits [did] are set, and unless that changes a word no
    other thread is delayed. *)
Record acts (m : gset Z) (bs : AtomicBitSet) (sp : bool) (x : thread * loop)
    (bs' : AtomicBitSet) (y : thread * loop) (evs : list event) (did : list Z) : Prop := {
  ac_ok : loop_ok (capacity bs) y.1 y.2;
  ac_capacity : capacity bs' = capacity bs;
  ac_pending : pending x = did ++ pending y;
  ac_events : forall m', event_run m evs = Some m' -> m' = list_to_set did ∪ m;
  ac_turns : turns_left bs' y + 1 <= turns_left bs x + (if sp then 1 else 0);
  ac_others : bs' = bs \/ (0 < length did)%nat;
}.

Section one.
Context (c : config) (m : gset Z).
#[local] Abbreviation bs := (bits c).

(** The head of the loop of [set], with the value just read. *)
Lemma observe_acts (sp : bool) i cur todo x :
  words bs !! Z.to_nat (i / 64) = Some cur -> Forall (fun i => 0 <= i < capacity bs) (i :: todo) ->
  pending x = i :: todo ->
  3 * Z.of_nat (length todo) + 2 <= turns_left bs x + (if sp then 1 else 0) ->
  exists did, acts m bs sp x bs ((observe_set i cur).1, after_set todo (observe_set i cur).1)
    (observe_set i cur).2 did.
Proof using Type.
  intros Hw Hok Hp Ht. pose proof (Forall_inv_tail Hok). unfold observe_set. destruct (negb _); cbn.
  - exists [i]. split; try done; [|etrans; [|exact Ht]; unfold turns_left; cbn -[Z.mul]; lia|by left].
    intros m'. cbn. case_decide; [|done]. intros [= <-]. set_solver.
  - exists []. split; try done; [|cbn|by left].
    + intros m'. cbn. intros [= <-]. set_solver.
    + etrans; [|exact Ht]. unfold turns_left, late. cbn -[Z.mul]. rewrite decide_True by done. lia.
Qed.

Context (Hinv : inv c m).

(** A thread that is not at its end can act. *)
Lemma bits_turn_acts t l sp a next :
  ok bs t -> loop_ok (capacity bs) t l -> turn l sp = Some (a, next) ->
  exists bs' t' evs did, act a bs (at_ t) = Some (bs', (t', evs)) /\
    acts m bs sp (t, l) bs' (t', next t') evs did.
Proof using Hinv.
  intros Hok [Hf Hl] Ht. destruct l as [[|i todo]|todo|]; cbn in Ht; try done; injection Ht as <- <-.
  - cbn in Hl, Hf. rewrite Hl. cbn [act]. unfold start_call.
    rewrite decide_True by (cbn; by inversion Hf). do 4 eexists. split; [done|]. cbn. split; cbn; try done.
    + by rewrite app_nil_l.
    + intros m' [= <-]. set_solver.
    + unfold turns_left. cbn [fst snd length at_]. destruct sp; lia.
    + by left.
  - unfold pending, target in Hf. cbn in Hf. destruct (at_ t) as [|i|i old| | | | | | | |] eqn:Ea; try done;
      cbn in Hf; pose proof (Forall_inv Hf) as Hi;
      destruct (word_index bs (rep_wf _ _ (inv_rep _ _ Hinv)) i Hi) as [cur Hw].
    + cbn [act run_thread word_of]. rewrite Hw. cbn [step_word].
      destruct (observe_acts sp i cur todo (t, Setting todo) Hw Hf) as [did Ho];
        [unfold pending, target; cbn; by rewrite Ea|unfold turns_left; cbn; rewrite Ea; destruct sp; lia|].
      destruct (observe_set i cur) as [t' evs]. by exists bs, t', evs, did.
    + cbn [act run_thread word_of]. rewrite Hw. cbn [step_word].
      destruct (compare_exchange_weak sp cur old _) as [w|cur'] eqn:Ec.
      * apply cas_ok in Ec as (-> & -> & ->). eexists _, _, _, [i]. split; [done|].
        split; cbn; try done; [by split; [apply (Forall_inv_tail Hf)|]| | | |right; lia].
        -- unfold pending, target. cbn. by rewrite Ea.
        -- intros m'. cbn. case_decide; [|done]. intros [= <-]. set_solver.
        -- unfold turns_left. cbn -[Z.mul]. rewrite Ea. pose proof (bits_late_bound bs t). lia.
      * pose proof (cas_err _ _ _ _ _ Ec) as ->.
        assert (Hlate : late bs t = 1 \/ sp = true).
        { unfold late. rewrite Ea. case_decide as E; [|by left]. right.
          rewrite Hw in E. injection E as ->. rewrite cas_same in Ec. by destruct sp. }
        destruct (observe_acts sp i cur todo (t, Setting todo) Hw Hf) as [did Ho];
          [unfold pending, target; cbn; by rewrite Ea|unfold turns_left; cbn; rewrite Ea;
            pose proof (bits_late_bound bs t); destruct Hlate as [->| ->]; try destruct sp; lia|].
        destruct (observe_set i cur) as [t' evs]. by exists bs, t', evs, did.
Qed.
End one.

(** ** All threads together *)

Definition views (s : sys) : list (thread * loop) := zip (threads (cfg s)) (loops s).

(** The bits that are still to be set. *)
Definition left_over (s : sys) : list Z := concat (pending <$> views s).

(** A bit that is set delays every thread by at most one turn. *)
Definition work (s : sys) : Z :=
  zsum (turns_left (bits (cfg s))) (views s) +
  Z.of_nat (length (loops s)) * Z.of_nat (length (left_over s)).

(** [jobs] are the bits of all lists. *)
Record good (jobs : list Z) (s : sys) : Prop := {
  g_loops : Forall2 (loop_ok (capacity (bits (cfg s)))) (threads (cfg s)) (loops s);
  g_set : exists m, inv (cfg s) m /\ forall i, i ∈ jobs <-> i ∈ m \/ i ∈ left_over s;
}.

Definition ended (l : loop) : Prop := l = Next [].
#[export] Instance ended_dec l : Decision (ended l).
Proof. unfold ended. destruct l as [[|i todo]|todo|]; first [by left|by right]. Defined.

#[local] Abbreviation moves := (moves loops ended).
#[local] Abbreviation run_loops := (run_loops step).

Lemma bits_work_nonneg s : 0 <= work s.
Proof.
  unfold work. pose proof (zsum_nonneg _ (views s) (bits_turns_left_nonneg (bits (cfg s)))). lia.
Qed.

Lemma concat_replace {A B} (f : A -> list B) l i x y did :
  l !! i = Some x -> f x = did ++ f y -> concat (f <$> l) ≡ₚ did ++ concat (f <$> <[i := y]> l).
Proof.
  intros Hi Hf. revert i Hi. induction l as [|z l IH]; intros [|i] Hi; try done; cbn.
  - injection Hi as ->. by rewrite Hf, app_assoc.
  - rewrite (IH i Hi). by rewrite !app_assoc, (Permutation_app_comm did).
Qed.

(** One turn: nothing fails, and unless the thread is done the work shrinks. *)
Lemma bits_loop_step jobs s i sp : good jobs s -> moves (good jobs) work 1 s i sp (step i sp s).
Proof.
  intros Hg. pose proof Hg as [Hall (m & Hinv & Hset)].
  unfold step. destruct (loops s !! i) as [l|] eqn:El; [|by apply moves_still; [..|congruence]].
  destruct (Forall2_lookup_r _ _ _ _ _ Hall El) as (t & Et & Hl).
  destruct (turn l sp) as [[a next]|] eqn:Eturn.
  2: { apply moves_still; [done..|]. intros l' El'. rewrite El in El'. injection El' as <-.
       by destruct l as [[|j todo]|todo|], Hl. }
  destruct (bits_turn_acts (cfg s) m Hinv t l sp a next (inv_threads _ _ Hinv _ _ Et) Hl Eturn)
    as (bs' & t' & evs & did & Ha & [Hl' Hcap Hp Hev Ht Ho]).
  assert (He : exec i a (cfg s) = Some (mkC bs' (<[i := t']> (threads (cfg s))), evs))
    by (unfold exec; by rewrite Et, Ha).
  destruct (bitset_exec_inv _ _ Hinv _ _ _ _ He) as (m' & Hm' & Hinv').
  rewrite He. cbn [threads]. rewrite list_lookup_insert_eq by (by eapply lookup_lt_Some).
  cbn [fst snd] in Hl'. set (l' := next t') in *. set (s2 := mkSys _ _).
  assert (Hviews : views s2 = <[i := (t', l')]> (views s)) by (unfold views, s2; cbn; by rewrite <- insert_zip_with).
  assert (Hx : views s !! i = Some (t, l)) by (unfold views; by rewrite lookup_zip_with, Et, El).
  assert (Hleft : left_over s ≡ₚ did ++ left_over s2)
    by (unfold left_over; rewrite Hviews; by apply (concat_replace pending _ _ (t, l))).
  assert (Hlen : length (loops s2) = length (loops s)) by (unfold s2; cbn; by rewrite length_insert).
  assert (Hw : work s2 + 1 <= work s + (if sp then 1 else 0)).
  { unfold work. rewrite Hlen, Hviews, (Permutation_length Hleft), length_app. change (bits (cfg s2)) with bs'.
    assert (length (views s) = length (loops s)) as Hlv
      by (unfold views; rewrite length_zip_with, (Forall2_length _ _ _ Hall); lia).
    destruct Ho as [->|Hdid].
    - pose proof (zsum_step (turns_left (bits (cfg s))) (turns_left (bits (cfg s))) _ _ _ (t', l') 0 Hx
        ltac:(lia) ltac:(intros; lia)). lia.
    - pose proof (zsum_step (turns_left (bits (cfg s))) (turns_left bs') _ _ _ (t', l') 1 Hx
        ltac:(lia) ltac:(intros; apply bits_turns_left_later)). nia. }
  split; [split|done|..|lia|done].
  - cbn. rewrite Hcap. by apply Forall2_insert.
  - exists m'. split; [done|]. intros j. rewrite Hset, Hleft, (Hev _ Hm'). set_solver.
  - intros j Hj. unfold s2. cbn. by rewrite list_lookup_insert_ne.
Qed.

Lemma bits_ended_stays s i sp : finished loops ended s -> step i sp s = s.
Proof.
  unfold finished, step. rewrite Forall_forall. intros Hf. destruct (loops s !! i) as [l|] eqn:El; [|done].
  by rewrite (Hf l) by (by eapply list_elem_of_lookup_2).
Qed.

(** ** What the tests assert *)

Lemma bits_loops_start cap jobs :
  fits 32 cap -> Forall (Forall (fun i => 0 <= i < cap)) jobs ->
  let s := start cap jobs in
  good (concat jobs) s /\ length (loops s) = length jobs /\
  work s = (3 + Z.of_nat (length jobs)) * Z.of_nat (length (concat jobs)).
Proof.
  intros Hc Hj s.
  assert (Hp : pending <$> views s = jobs).
  { unfold views, s, start, init. cbn. clear. induction jobs as [|j jobs IH]; [done|]. cbn. by f_equal. }
  assert (Hlen : length (loops s) = length jobs) by (unfold s, start; cbn; apply length_fmap).
  split; [|split; [done|]].
  - split.
    + unfold s, start, init. cbn. clear -Hj. induction Hj as [|j jobs Hj _ IH]; constructor; [by split|done].
    + exists ∅. split; [by apply bitset_init_inv|]. intros i. unfold left_over. rewrite Hp. set_solver.
  - unfold work, left_over. rewrite Hp, Hlen.
    assert (Hz : zsum (turns_left (bits (cfg s))) (views s) = 3 * Z.of_nat (length (concat jobs))); [|lia].
    unfold views, s, start, init. cbn -[Z.mul]. generalize (new cap) as bs. clear. intros bs.
    induction jobs as [|j jobs IH]; [done|]. cbn -[Z.mul]. rewrite IH, length_app.
    unfold turns_left. cbn -[Z.mul]. lia.
Qed.

(** ([concurrent_set] and [concurrent_set_clear])  Threads that set lists of
    bits, in whatever order they run: no thread panics and all loops end, within
    [3 + n] rounds per bit and one more for every spurious failure; at the end
    the bits that are set are those of the lists, and [count_set] counts them,
    all of them when no two are equal. *)
Theorem concurrent_set_ends cap jobs rounds :
  fits 32 cap -> Forall (Forall (fun i => 0 <= i < cap)) jobs ->
  Forall (round (length jobs)) rounds ->
  (3 + Z.of_nat (length jobs)) * Z.of_nat (length (concat jobs)) +
    Z.of_nat (spurious_count (concat rounds)) < Z.of_nat (length rounds) ->
  let e := run_loops (concat rounds) (start cap jobs) in
  Forall (fun l => l = Next []) (loops e) /\
  (forall i, 0 <= i -> mem (bits (cfg e)) i = bool_decide (i ∈ concat jobs)) /\
  (NoDup (concat jobs) -> count_set (bits (cfg e)) = Z.of_nat (length (concat jobs))).
Proof.
  intros Hc Hj Hr Hlen e. destruct (bits_loops_start cap jobs Hc Hj) as (Hg & Hl & Hw).
  pose proof (bits_loop_step (concat jobs)) as Hmoves.
  assert (Hf : finished loops ended e).
  { apply (rounds_end _ _ _ _ work 1 ltac:(lia) Hmoves bits_ended_stays _ _ bits_work_nonneg Hg); [by rewrite Hl|].
    rewrite Hw. lia. }
  destruct (run_loops_good _ _ _ _ _ _ Hmoves (concat rounds) _ Hg) as [Hall (m & Hinv & Hset)].
  fold e in Hinv, Hset, Hall. split; [done|].
  assert (Hleft : left_over e = []).
  { unfold left_over, views. clear -Hall Hf. unfold finished in Hf.
    induction Hall as [|t l ts ls _ _ IH]; [done|]. apply Forall_cons in Hf as [-> Hf]. cbn. by apply IH. }
  assert (Hm : m ≡ list_to_set (concat jobs)).
  { intros i. rewrite elem_of_list_to_set, Hset, Hleft. set_solver. }
  pose proof (inv_rep _ _ Hinv) as Hrep. split.
  - intros i Hi. rewrite (rep_mem _ _ Hrep) by done. apply bool_decide_ext. by rewrite Hm, elem_of_list_to_set.
  - intros Hnd. rewrite (rep_count _ _ Hrep), Hm. by rewrite size_list_to_set.
Qed.

(** The test itself, its threads in strict rotation. *)
Definition test_round : list (nat * bool) := [(0, false); (1, false); (2, false); (3, false)]%nat.
Definition test_jobs : list (list Z) := (fun t => (fun i => t * 64 + i) <$> seqZ 0 64) <$> seqZ 0 4.

Lemma concurrent_set_ends_witness :
  concurrent_set = start 256 test_jobs /\
  count_set (bits (cfg (run_loops (concat (replicate 1800 test_round)) concurrent_set))) = 256.
Proof.
  split; [reflexivity|].
  destruct (concurrent_set_ends 256 test_jobs (replicate 1800 test_round)) as (_ & _ & Hc).
  - unfold fits. lia.
  - apply (bool_decide_unpack _). vm_compute. exact I.
  - apply Forall_replicate. intros i Hi. change (length test_jobs) with 4%nat in Hi.
    apply (bool_decide_unpack _). destruct i as [|[|[|[|i]]]]; [vm_compute; exact I..|lia].
  - vm_compute. reflexivity.
  - change concurrent_set with (start 256 test_jobs). rewrite Hc; [reflexivity|].
    assert (concat test_jobs = seqZ 0 256) as -> by reflexivity. apply NoDup_seqZ.
Defined.
End BitsetLoop.
