(* ===== verification/Mpmc.v ===== *)
(** * MpmcContainer (crates/entangle-lockfree/src/mpmc_container.rs)

    A fixed-capacity table of 64-bit values: a free list of slots (the one of
    FreeList.v), a bitset of the occupied slots, and the values.  The table is
    shown to implement a finite map from slots to values. *)
From Stdlib Require Import Sorted.
From S2P Require Import Prelude Contracts FreeList Bitset.
#[local] Open Scope Z_scope.
#[local] Open Scope rust_scope.

Module MpmcContainer.
Import AtomicBitSet.

(** [pub struct MpmcContainer { data, occupied, free_head, next, capacity }]. *)
Record MpmcContainer := mk {
  data : list Z;
  occupied : AtomicBitSet;
  free_head : Z;
  next : list Z;
  capacity : Z;
}.

Definition pack_head (head tag : Z) : Z := Z.lor (shl 64 head 32) tag.
Definition extract_head (val : Z) : Z := wrap 32 (Z.shiftr val 32).
Definition extract_tag (val : Z) : Z := wrap 32 val.

#[global] Arguments pack_head : simpl never.
#[global] Arguments extract_head : simpl never.
#[global] Arguments extract_tag : simpl never.

Definition new (capacity : Z) : outcome MpmcContainer :=
  if 0 <? capacity
  then Ret (mk (replicate (Z.to_nat capacity) 0) (AtomicBitSet.new capacity)
              (pack_head 0 0) (initial_next capacity) capacity)
  else Panic.

Definition with_data (c : MpmcContainer) d := mk d (occupied c) (free_head c) (next c) (capacity c).
Definition with_occupied (c : MpmcContainer) o := mk (data c) o (free_head c) (next c) (capacity c).
Definition with_head (c : MpmcContainer) h := mk (data c) (occupied c) h (next c) (capacity c).
Definition with_next (c : MpmcContainer) n := mk (data c) (occupied c) (free_head c) n (capacity c).

Fixpoint alloc_loop (spurious : list bool) (old : Z) (c : MpmcContainer)
    : outcome (option Z * MpmcContainer) :=
  match spurious with
  | [] => OutOfFuel
  | sp :: spurious =>
      let head := extract_head old in
      if head =? SENTINEL then Ret (None, c)
      else
        let! next_idx := index (next c) head in
        let tag := extract_tag old in
        let new := pack_head next_idx (wrapping_add 32 tag 1) in
        match compare_exchange_weak sp (free_head c) old new with
        | Ok w => Ret (Some head, with_head c w)
        | Err current => alloc_loop spurious current c
        end
  end.

Definition alloc_slot (spurious : list bool) (c : MpmcContainer) :=
  alloc_loop spurious (free_head c) c.

Fixpoint free_loop (spurious : list bool) (slot old : Z) (c : MpmcContainer)
    : outcome MpmcContainer :=
  match spurious with
  | [] => OutOfFuel
  | sp :: spurious =>
      let head := extract_head old in
      let! _ := index (next c) slot in
      let c := with_next c (<[Z.to_nat slot := head]> (next c)) in
      let tag := extract_tag old in
      let new := pack_head slot (wrapping_add 32 tag 1) in
      match compare_exchange_weak sp (free_head c) old new with
      | Ok w => Ret (with_head c w)
      | Err current => free_loop spurious slot current c
      end
  end.

Definition free_slot (spurious : list bool) (c : MpmcContainer) (slot : Z) :=
  free_loop spurious slot (free_head c) c.

Definition add (spurious : list bool) (c : MpmcContainer) (value : Z)
    : outcome (option Z * MpmcContainer) :=
  let! (r, c) := alloc_slot spurious c in
  match r with
  | None => Ret (None, c)
  | Some slot =>
      let! _ := index (data c) slot in
      let c := with_data c (<[Z.to_nat slot := value]> (data c)) in
      let! (_, o) := AtomicBitSet.set spurious (occupied c) slot in
      Ret (Some slot, with_occupied c o)
  end.

Definition remove (spurious : list bool) (c : MpmcContainer) (slot : Z)
    : outcome (option Z * MpmcContainer) :=
  let! (was_set, o) := AtomicBitSet.clear spurious (occupied c) slot in
  let c := with_occupied c o in
  if negb was_set then Ret (None, c)
  else
    let! value := index (data c) slot in
    let! c := free_slot spurious c slot in
    Ret (Some value, c).

Definition get (c : MpmcContainer) (slot : Z) : outcome (option Z) :=
  let! b := AtomicBitSet.is_set (occupied c) slot in
  if b then let! v := index (data c) slot in Ret (Some v) else Ret None.

(** [for_each]: [f] is the callback, acting on the caller's state. *)
Fixpoint for_each_from {S} (n : nat) (i : Z) (c : MpmcContainer) (f : Z -> Z -> S -> S) (s : S)
    : outcome S :=
  match n with
  | O => Ret s
  | Datatypes.S n =>
      let! b := AtomicBitSet.is_set (occupied c) i in
      if b then
        let! v := index (data c) i in for_each_from n (i + 1) c f (f i v s)
      else for_each_from n (i + 1) c f s
  end.

Definition for_each {S} (c : MpmcContainer) (f : Z -> Z -> S -> S) (s : S) : outcome S :=
  for_each_from (Z.to_nat (capacity c)) 0 c f s.

Definition len (c : MpmcContainer) : Z := AtomicBitSet.count_set (occupied c).
Definition is_empty (c : MpmcContainer) : bool := len c =? 0.

(** ** The finite map a container holds *)

Lemma pack_head_spec h t : fits 32 h -> fits 32 t -> pack_head h t = FreeList.pack h t.
Proof.
  intros Hh Ht. unfold pack_head, shl. rewrite wrap_small.
  - apply fields_lor; [lia|apply Hh|done].
  - rewrite Z.shiftl_mul_pow2 by lia. unfold fits in *. lia.
Qed.

Lemma extract_pack_head h t : fits 32 h -> fits 32 t -> extract_head (pack_head h t) = h.
Proof.
  intros Hh Ht. rewrite pack_head_spec by done. unfold extract_head, FreeList.pack.
  rewrite fields_hi; [by apply wrap_small|lia|apply Hh|done].
Qed.

Lemma extract_tag_wraps v : fits 32 (extract_tag v).
Proof. apply wrap_fits. lia. Qed.
Lemma extract_head_wraps v : fits 32 (extract_head v).
Proof. apply wrap_fits. lia. Qed.
#[export] Hint Resolve extract_tag_wraps extract_head_wraps : words.

Record holds (c : MpmcContainer) (free : list Z) (m : gmap Z Z) : Prop := {
  h_cap : 0 < capacity c <= SENTINEL;
  h_data : length (data c) = Z.to_nat (capacity c);
  h_next : length (next c) = Z.to_nat (capacity c);
  h_links : forall x, x ∈ next c -> fits 32 x;
  h_chain : chain (next c) (extract_head (free_head c)) free;
  h_nodup : NoDup free;
  h_free : forall i, i ∈ free <-> 0 <= i < capacity c /\ mem (occupied c) i = false;
  h_bits : AtomicBitSet.wf (occupied c);
  h_bitcap : AtomicBitSet.capacity (occupied c) = capacity c;
  h_map : forall i, m !! i =
    if (0 <=? i) && mem (occupied c) i then data c !! Z.to_nat i else None;
}.

(** The container [c] holds the map [m]. *)
Definition rep (c : MpmcContainer) (m : gmap Z Z) : Prop := exists free, holds c free m.

Section facts.
Context (c : MpmcContainer) (free : list Z) (m : gmap Z Z) (Hh : holds c free m).

Lemma holds_mem i :
  0 <= i < capacity c -> mem (occupied c) i = bool_decide (is_Some (m !! i)).
Proof using Hh.
  intros Hi. rewrite (h_map _ _ _ Hh). rewrite (proj2 (Z.leb_le 0 i)) by lia. cbn.
  destruct (index_ok (data c) i) as [v Hv]; [rewrite (h_data _ _ _ Hh); lia|]. rewrite Hv.
  destruct (mem _ _); symmetry; [by apply bool_decide_eq_true|].
  apply bool_decide_eq_false. by intros [].
Qed.

Lemma holds_dom i : is_Some (m !! i) -> 0 <= i < capacity c.
Proof using Hh.
  rewrite (h_map _ _ _ Hh). destruct (0 <=? i) eqn:E; [|by intros []]. zbool. cbn.
  destruct (mem _ i) eqn:Em; [|by intros []]. intros _. split; [done|].
  destruct (decide (i < capacity c)); [done|].
  rewrite (wf_above _ (h_bits _ _ _ Hh)) in Em; [done|]. rewrite (h_bitcap _ _ _ Hh). lia.
Qed.

(** The members of the bitset are the domain of the map. *)
Lemma holds_size : length (members (occupied c)) = size m.
Proof using Hh.
  assert (Hd : dom m = list_to_set (members (occupied c))).
  { apply set_eq. intros i. rewrite elem_of_dom, elem_of_list_to_set.
    unfold members. rewrite list_elem_of_filter, elem_of_seqZ, (h_bitcap _ _ _ Hh). split.
    - intros Hi. pose proof (holds_dom i Hi) as Hr. rewrite (holds_mem i Hr).
      split; [by apply bool_decide_eq_true|lia].
    - intros [Hm Hr]. rewrite holds_mem in Hm by lia. by apply bool_decide_eq_true in Hm. }
  rewrite <- size_dom, Hd. rewrite size_list_to_set; [done|].
  apply NoDup_filter, NoDup_seqZ.
Qed.

Lemma holds_next_fits i n : next c !! i = Some n -> fits 32 n.
Proof using Hh. intros. apply (h_links _ _ _ Hh). by eapply list_elem_of_lookup_2. Qed.
End facts.

Lemma mpmc_new_rep cap :
  0 < cap <= SENTINEL -> exists c, new cap = Ret c /\ rep c ∅ /\ capacity c = cap.
Proof.
  intros Hc. unfold new. rewrite (proj2 (Z.ltb_lt 0 cap)) by lia.
  eexists. split; [done|]. split; [|done]. exists (seqZ 0 cap).
  assert (fits 32 cap) by (unfold fits, SENTINEL in *; lia).
  split; cbn; try done.
  - by rewrite length_replicate.
  - apply initial_next_length.
  - intros x Hx%initial_next_valid; [|done]. apply SENTINEL_fits. lia.
  - rewrite extract_pack_head by fits_tac. by apply initial_chain.
  - apply NoDup_seqZ.
  - intros i. rewrite elem_of_seqZ, bitset_new_mem. intuition lia.
  - by apply bitset_new_wf.
  - intros i. by rewrite lookup_empty, bitset_new_mem, andb_false_r.
Qed.

(** One thread's allocation and release of a slot. *)
Lemma alloc_settles sps c free m x :
  false ∈ sps -> holds c (x :: free) m ->
  exists n, next c !! Z.to_nat x = Some n /\ chain (next c) n free /\
    alloc_slot sps c
    = Ret (Some x, with_head c (pack_head n (wrapping_add 32 (extract_tag (free_head c)) 1))).
Proof.
  intros Hin Hh. destruct (h_chain _ _ _ Hh) as (Hx & Hxs & n & Hn & Hc).
  exists n. split; [done|]. split; [done|]. unfold alloc_slot.
  induction sps as [|sp l IH]; [by apply elem_of_nil in Hin|]. cbn. rewrite Hx.
  destruct (x =? SENTINEL) eqn:E; zbool; [lia|]. unfold index. rewrite Hn. cbn.
  rewrite cas_same. destruct sp; [|done]. apply elem_of_cons in Hin as [?|?]; [done|auto].
Qed.

Lemma alloc_full sps c m :
  false ∈ sps -> holds c [] m -> alloc_slot sps c = Ret (None, c).
Proof.
  intros Hin Hh. pose proof (h_chain _ _ _ Hh) as Hx. cbn in Hx.
  unfold alloc_slot. destruct sps; [by apply elem_of_nil in Hin|]. cbn. by rewrite Hx.
Qed.

Lemma free_settles sps c slot :
  false ∈ sps -> 0 <= slot < Z.of_nat (length (next c)) ->
  free_slot sps c slot
  = Ret (with_head (with_next c (<[Z.to_nat slot := extract_head (free_head c)]> (next c)))
           (pack_head slot (wrapping_add 32 (extract_tag (free_head c)) 1))).
Proof.
  intros Hin Hs. unfold free_slot.
  set (h := extract_head (free_head c)).
  enough (Hg : forall l, false ∈ l -> forall nx,
    length nx = length (next c) ->
    <[Z.to_nat slot := h]> nx = <[Z.to_nat slot := h]> (next c) ->
    free_loop l slot (free_head c) (with_next c nx)
    = Ret (with_head (with_next c (<[Z.to_nat slot := h]> (next c)))
           (pack_head slot (wrapping_add 32 (extract_tag (free_head c)) 1)))).
  { destruct c. by apply (Hg sps Hin). }
  clear Hin sps. induction l as [|sp l IH]; intros Hin nx Hl He;
    [by apply elem_of_nil in Hin|]. cbn [free_loop]. fold h.
  destruct (index_ok nx slot) as [a Ha]; [lia|]. unfold index. cbn [next with_next].
  rewrite Ha. cbn [obind free_head with_next]. rewrite cas_same. destruct sp.
  - apply elem_of_cons in Hin as [?|Hin]; [done|].
    change (with_next (with_next c nx) ?x) with (with_next c x). apply IH; [done|..].
    + by rewrite length_insert.
    + by rewrite list_insert_insert_eq.
  - unfold with_head, with_next. cbn. by rewrite He.
Qed.

(** ** Functional behaviour *)

Section operations.
Context (sps : list bool) (Hsps : false ∈ sps).

Lemma add_some c free m x v :
  holds c (x :: free) m -> fits 32 x ->
  exists c', add sps c v = Ret (Some x, c') /\ holds c' free (<[x := v]> m) /\
    capacity c' = capacity c /\ m !! x = None.
Proof using Hsps.
  intros Hh Hfx. destruct (alloc_settles sps c free m x Hsps Hh) as (n & Hn & Hc & Ha).
  assert (Hx : 0 <= x < capacity c /\ mem (occupied c) x = false)
    by (apply (h_free _ _ _ Hh); by left).
  destruct Hx as [Hx Hxm].
  pose proof (h_nodup _ _ _ Hh) as Hnd. apply NoDup_cons in Hnd as [Hxf Hnd].
  unfold add. rewrite Ha. cbn [obind].
  destruct (index_ok (data c) x) as [a Hax]; [rewrite (h_data _ _ _ Hh); lia|].
  unfold index. cbn [data with_head]. rewrite Hax. cbn [obind occupied with_data with_head].
  destruct (set_mem (occupied c) (h_bits _ _ _ Hh) x) with (sps := sps)
    as (o & Hset & Ho & Hoc & Hom); [rewrite (h_bitcap _ _ _ Hh); lia|done|].
  rewrite Hset. cbn [obind]. eexists. split; [done|]. split; [|split; [done|]].
  - split; cbn; try apply Hh; try done.
    + rewrite length_insert. apply Hh.
    + rewrite extract_pack_head; [done|by eapply holds_next_fits|auto with words].
    + intros i. split.
      * intros Hi. destruct (proj1 (h_free _ _ _ Hh i)) as [? Hm]; [by right|].
        split; [done|]. rewrite Hom, Hm by lia. rewrite orb_false_r. apply Z.eqb_neq.
        intros ->. done.
      * intros [Hi Hm]. rewrite Hom in Hm by lia. apply orb_false_iff in Hm as [Hne%Z.eqb_neq Hm].
        assert (Hin : i ∈ x :: free) by (apply (h_free _ _ _ Hh); done).
        apply elem_of_cons in Hin as [?|?]; [done|done].
    + by rewrite Hoc, (h_bitcap _ _ _ Hh).
    + intros i. destruct (decide (i = x)) as [->|Hne].
      * rewrite lookup_insert_eq, (proj2 (Z.leb_le 0 x)), Hom, Z.eqb_refl by lia. cbn.
        rewrite list_lookup_insert_eq; [done|]. by eapply lookup_lt_Some.
      * rewrite lookup_insert_ne, (h_map _ _ _ Hh) by done.
        destruct (0 <=? i) eqn:E; [|done]. zbool. cbn.
        rewrite Hom by lia. rewrite (proj2 (Z.eqb_neq i x)) by done. cbn.
        rewrite list_lookup_insert_ne by lia. done.
  - rewrite (h_map _ _ _ Hh), Hxm. by rewrite andb_false_r.
Qed.

Lemma remove_some c free m slot v :
  holds c free m -> m !! slot = Some v ->
  exists c', remove sps c slot = Ret (Some v, c') /\ holds c' (slot :: free) (delete slot m)
    /\ capacity c' = capacity c.
Proof using Hsps.
  intros Hh Hv. pose proof (holds_dom _ _ _ Hh slot ltac:(eauto)) as Hs.
  pose proof (h_cap _ _ _ Hh) as Hcap.
  assert (Hm : mem (occupied c) slot = true).
  { rewrite (holds_mem _ _ _ Hh slot Hs). apply bool_decide_eq_true. eauto. }
  unfold remove.
  destruct (clear_mem (occupied c) (h_bits _ _ _ Hh) slot) with (sps := sps)
    as (o & Hclr & Ho & Hoc & Hom); [rewrite (h_bitcap _ _ _ Hh); lia|done|].
  rewrite Hclr, Hm. cbn [obind negb].
  rewrite (h_map _ _ _ Hh), Hm, (proj2 (Z.leb_le 0 slot)) in Hv by lia. cbn in Hv.
  unfold index. cbn [data with_occupied]. rewrite Hv. cbn [obind].
  rewrite free_settles; [|done|cbn; rewrite (h_next _ _ _ Hh); lia]. cbn [obind].
  assert (Hns : slot ∉ free).
  { intros Hin%(h_free _ _ _ Hh). destruct Hin. congruence. }
  eexists. split; [done|]. split; [|done].
  split; cbn; try apply Hh; try done.
  - rewrite length_insert. apply Hh.
  - intros y [j Hj]%list_elem_of_lookup.
    apply list_lookup_insert_Some in Hj as [(_ & <- & _)|(_ & Hj)]; [auto with words|].
    by eapply holds_next_fits.
  - rewrite extract_pack_head; [|unfold fits, SENTINEL in *; lia|auto with words].
    apply chain_push; [apply Hh|lia|rewrite (h_next _ _ _ Hh); lia|done].
  - apply NoDup_cons. split; [done|apply Hh].
  - intros i. rewrite elem_of_cons, (h_free _ _ _ Hh). split.
    + intros [->|[Hi Hmi]].
      * split; [done|]. by rewrite Hom, Z.eqb_refl, andb_false_r by lia.
      * split; [done|]. by rewrite Hom, Hmi by lia.
    + intros [Hi Hmi]. rewrite Hom in Hmi by lia.
      destruct (decide (i = slot)); [by left|]. right. split; [done|].
      rewrite (proj2 (Z.eqb_neq i slot)), andb_true_r in Hmi by done. done.
  - by rewrite Hoc, (h_bitcap _ _ _ Hh).
  - intros i. destruct (decide (i = slot)) as [->|Hne].
    + by rewrite lookup_delete_eq, Hom, Z.eqb_refl, !andb_false_r by lia.
    + rewrite lookup_delete_ne, (h_map _ _ _ Hh) by done.
      destruct (0 <=? i) eqn:E; [|done]. zbool. cbn.
      rewrite Hom, (proj2 (Z.eqb_neq i slot)), andb_true_r by (done || lia). done.
Qed.

Lemma remove_none c free m slot :
  holds c free m -> 0 <= slot < capacity c -> m !! slot = None ->
  exists c', remove sps c slot = Ret (None, c') /\ holds c' free m /\ capacity c' = capacity c.
Proof using Hsps.
  intros Hh Hs Hn.
  assert (Hm : mem (occupied c) slot = false).
  { rewrite (holds_mem _ _ _ Hh slot Hs), Hn. apply bool_decide_eq_false. by intros []. }
  destruct (clear_mem (occupied c) (h_bits _ _ _ Hh) slot) with (sps := sps)
    as (o & Hclr & Ho & Hoc & Hom); [rewrite (h_bitcap _ _ _ Hh); lia|done|].
  unfold remove. rewrite Hclr, Hm. cbn. eexists. split; [done|]. split; [|done].
  assert (Hsame : forall i, 0 <= i -> mem o i = mem (occupied c) i).
  { intros i Hi. rewrite Hom by done. destruct (i =? slot) eqn:E; zbool; cbn;
      [subst; by rewrite Hm|by rewrite andb_true_r]. }
  split; cbn; try apply Hh; try done.
  - intros i. rewrite (h_free _ _ _ Hh). split; intros [Hi ?]; (split; [done|]);
      [rewrite Hsame|rewrite <- Hsame]; done || lia.
  - by rewrite Hoc, (h_bitcap _ _ _ Hh).
  - intros i. rewrite (h_map _ _ _ Hh). destruct (0 <=? i) eqn:E; [|done]. zbool. cbn.
    by rewrite Hsame.
Qed.
End operations.

Lemma get_spec c free m slot :
  holds c free m -> 0 <= slot < capacity c -> get c slot = Ret (m !! slot).
Proof.
  intros Hh Hs. unfold get.
  rewrite (is_set_mem _ (h_bits _ _ _ Hh)) by (rewrite (h_bitcap _ _ _ Hh); lia).
  cbn [obind]. rewrite (h_map _ _ _ Hh), (proj2 (Z.leb_le 0 slot)) by lia. cbn [andb].
  destruct (mem _ _); [|done]. unfold index.
  destruct (index_ok (data c) slot) as [v Hv]; [rewrite (h_data _ _ _ Hh); lia|].
  by rewrite Hv.
Qed.

(** The entries from slot [i] on, in slot order. *)
Definition entries (m : gmap Z Z) (i : Z) (n : nat) : list (Z * Z) :=
  omap (fun k => (fun v => (k, v)) <$> m !! k) (seqZ i (Z.of_nat n)).

Lemma for_each_from_spec {S} (f : Z -> Z -> S -> S) c free m n i s :
  holds c free m -> 0 <= i -> i + Z.of_nat n <= capacity c ->
  for_each_from n i c f s = Ret (foldl (fun s p => f p.1 p.2 s) s (entries m i n)).
Proof.
  intros Hh. revert i s. induction n as [|n IH]; intros i s Hi Hn; [done|].
  unfold entries. rewrite seqZ_cons by lia. cbn [for_each_from omap list_omap].
  replace (Z.pred (Z.of_nat (Datatypes.S n))) with (Z.of_nat n) by lia.
  replace (Z.succ i) with (i + 1) by lia. fold (entries m (i + 1) n).
  pose proof (get_spec c free m i Hh ltac:(lia)) as Hg. unfold get in Hg.
  destruct (AtomicBitSet.is_set _ _) as [b| |]; cbn [obind] in *; [|done|done].
  destruct b; cbn [obind] in *.
  - destruct (index _ _) as [v| |]; cbn [obind] in *; [|done|done].
    injection Hg as <-. cbn. apply IH; lia.
  - injection Hg as <-. cbn. apply IH; lia.
Qed.

(** Number of visited slots and order of the visit. *)
Lemma entries_full m n i v :
  (i, v) ∈ entries m 0 n <-> 0 <= i < Z.of_nat n /\ m !! i = Some v.
Proof.
  unfold entries. rewrite list_elem_of_omap. split.
  - intros (k & Hk%elem_of_seqZ & Hm). destruct (m !! k) eqn:E; [|done].
    cbn in Hm. simplify_eq. split; [lia|done].
  - intros [Hi Hm]. exists i. rewrite elem_of_seqZ, Hm. split; [lia|done].
Qed.

Lemma holds_full c m : holds c [] m -> Z.of_nat (size m) = capacity c.
Proof.
  intros Hh. rewrite <- (holds_size _ _ _ Hh). unfold members.
  rewrite (h_bitcap _ _ _ Hh). pose proof (h_cap _ _ _ Hh).
  assert (Hall : filter (fun i => mem (occupied c) i = true) (seqZ 0 (capacity c))
                 = filter (fun _ => True) (seqZ 0 (capacity c))).
  { apply filter_ext_in. intros i Hi%elem_of_seqZ. split; [done|]. intros _.
    destruct (mem (occupied c) i) eqn:E; [done|].
    assert (Hin : i ∈ @nil Z) by (apply (h_free _ _ _ Hh); split; [lia|done]).
    by apply elem_of_nil in Hin. }
  rewrite Hall. clear Hall.
  assert (Ht : forall l : list Z, filter (fun _ => True) l = l).
  { induction l as [|x l IH]; [done|]. rewrite filter_cons_True by done. by rewrite IH. }
  rewrite Ht, length_seqZ. lia.
Qed.

(** ** Refinement of a finite map

    The calls a user of the container can make, what they return, and the map
    each of them specifies.  [Add] picks any unoccupied slot. *)
Inductive call :=
| Add (value : Z)
| Remove (slot : Z)
| Get (slot : Z)
| Len
| ForEach.

Inductive reply :=
| Slot (r : option Z)
| Value (r : option Z)
| Count (n : Z)
| Visited (l : list (Z * Z)).

Definition do_call (sps : list bool) (c : MpmcContainer) (o : call)
    : outcome (reply * MpmcContainer) :=
  match o with
  | Add v => let! (r, c) := add sps c v in Ret (Slot r, c)
  | Remove slot => let! (r, c) := remove sps c slot in Ret (Value r, c)
  | Get slot => let! r := get c slot in Ret (Value r, c)
  | Len => Ret (Count (len c), c)
  | ForEach => let! l := for_each c (fun i v l => l ++ [(i, v)]) [] in Ret (Visited l, c)
  end.

Fixpoint do_calls (sps : list bool) (c : MpmcContainer) (os : list call)
    : outcome (list reply * MpmcContainer) :=
  match os with
  | [] => Ret ([], c)
  | o :: os =>
      let! (r, c) := do_call sps c o in
      let! (rs, c) := do_calls sps c os in
      Ret (r :: rs, c)
  end.

(** The slots a caller may name: those of the container. *)
Definition call_ok (cap : Z) (o : call) : Prop :=
  match o with Remove slot | Get slot => 0 <= slot < cap | _ => True end.

Inductive spec_call (cap : Z) (m : gmap Z Z) : call -> reply -> gmap Z Z -> Prop :=
| spec_add v x : 0 <= x < cap -> m !! x = None ->
    spec_call cap m (Add v) (Slot (Some x)) (<[x := v]> m)
| spec_add_full v : Z.of_nat (size m) = cap -> spec_call cap m (Add v) (Slot None) m
| spec_remove x : spec_call cap m (Remove x) (Value (m !! x)) (delete x m)
| spec_get x : spec_call cap m (Get x) (Value (m !! x)) m
| spec_len : spec_call cap m Len (Count (Z.of_nat (size m))) m
| spec_for_each l :
    (forall i v, (i, v) ∈ l <-> m !! i = Some v) -> StronglySorted Z.lt l.*1 ->
    spec_call cap m ForEach (Visited l) m.

Inductive spec_calls (cap : Z) : gmap Z Z -> list call -> list reply -> gmap Z Z -> Prop :=
| spec_done m : spec_calls cap m [] [] m
| spec_more m o r m1 os rs m2 :
    spec_call cap m o r m1 -> spec_calls cap m1 os rs m2 ->
    spec_calls cap m (o :: os) (r :: rs) m2.

Lemma entries_sorted m i n : 0 <= i -> StronglySorted Z.lt (entries m i n).*1 /\
  Forall (fun k => i <= k) (entries m i n).*1.
Proof.
  revert i. induction n as [|n IH]; intros i Hi; [split; constructor|].
  unfold entries. rewrite seqZ_cons by lia. cbn [omap list_omap].
  replace (Z.pred (Z.of_nat (Datatypes.S n))) with (Z.of_nat n) by lia.
  replace (Z.succ i) with (i + 1) by lia. fold (entries m (i + 1) n).
  destruct (IH (i + 1) ltac:(lia)) as [H1 H2].
  destruct (m !! i); cbn.
  - split; constructor; try done; try lia.
    + eapply Forall_impl; [exact H2|]. cbn. lia.
    + eapply Forall_impl; [exact H2|]. cbn. lia.
  - split; [done|]. eapply Forall_impl; [exact H2|]. cbn. lia.
Qed.

Lemma foldl_collect (l acc : list (Z * Z)) :
  foldl (fun s p => s ++ [(p.1, p.2)]) acc l = acc ++ l.
Proof.
  revert acc. induction l as [|[a b] l IH]; intros acc; cbn; [by rewrite app_nil_r|].
  rewrite IH. by rewrite <- app_assoc.
Qed.

Lemma do_call_spec sps c m o :
  false ∈ sps -> rep c m -> call_ok (capacity c) o ->
  exists r c' m', do_call sps c o = Ret (r, c') /\ rep c' m' /\ capacity c' = capacity c
    /\ spec_call (capacity c) m o r m'.
Proof.
  intros Hin [free Hh] Hok. pose proof (h_cap _ _ _ Hh) as Hcap. destruct o as [v|x|x| |]; cbn.
  - destruct free as [|x free].
    + unfold add. rewrite (alloc_full sps c m Hin Hh). cbn. do 3 eexists. split; [done|]. split; [by eexists|]. split; [done|].
      apply spec_add_full. by apply holds_full.
    + assert (Hx : x ∈ x :: free) by left. apply (h_free _ _ _ Hh) in Hx as [Hx _].
      destruct (add_some sps Hin c free m x v Hh) as (c' & Ha & Hh' & Hc & Hn);
        [unfold fits, SENTINEL in *; lia|].
      rewrite Ha. cbn. do 3 eexists. split; [done|]. split; [by eexists|]. split; [done|].
      by apply spec_add.
  - cbn in Hok. destruct (m !! x) as [v|] eqn:E.
    + destruct (remove_some sps Hin c free m x v Hh E) as (c' & Ha & Hh' & Hc).
      rewrite Ha. cbn. do 3 eexists. split; [done|]. split; [by eexists|]. split; [done|].
      rewrite <- E. apply spec_remove.
    + destruct (remove_none sps Hin c free m x Hh Hok E) as (c' & Ha & Hh' & Hc).
      rewrite Ha. cbn. do 3 eexists. split; [done|].
      split; [by eexists|]. split; [done|].
      rewrite <- (delete_id m x E) at 2. rewrite <- E. apply spec_remove.
  - cbn in Hok. rewrite (get_spec c free m x Hh Hok). cbn.
    do 3 eexists. split; [done|]. split; [by eexists|]. split; [done|]. apply spec_get.
  - do 3 eexists. split; [done|]. split; [by eexists|]. split; [done|].
    unfold len. rewrite count_set_members, (holds_size _ _ _ Hh) by apply Hh. apply spec_len.
  - unfold for_each. rewrite (for_each_from_spec _ c free m) by (done || lia). cbn.
    rewrite foldl_collect. cbn. do 3 eexists. split; [done|]. split; [by eexists|].
    split; [done|]. apply spec_for_each; [|by apply entries_sorted].
    intros i v. rewrite entries_full. split; [by intros []|]. intros Hm. split; [|done].
    pose proof (holds_dom _ _ _ Hh i ltac:(eauto)). lia.
Qed.

(** A container created by [new] answers every sequence of [add],
    [remove], [get], [len] and [for_each] calls (on slots of the container)
    as a finite map from slots to values does: [add] stores under a slot that
    was unoccupied and fails only when all slots are occupied, [remove] gives
    back what was stored, [for_each] visits every entry once in slot order.
    No call panics, however many compare-exchanges fail spuriously first. *)
Theorem mpmc_refines_map sps cap os :
  false ∈ sps -> 0 < cap <= SENTINEL -> Forall (call_ok cap) os ->
  exists c rs c' m',
    new cap = Ret c /\ do_calls sps c os = Ret (rs, c') /\
    spec_calls cap ∅ os rs m' /\ rep c' m'.
Proof.
  intros Hin Hcap Hos. destruct (mpmc_new_rep cap Hcap) as (c & Hn & Hr & Hc).
  subst cap. clear Hcap. exists c.
  enough (Hg : exists rs c' m', do_calls sps c os = Ret (rs, c') /\
    spec_calls (capacity c) ∅ os rs m' /\ rep c' m')
    by (destruct Hg as (rs & c' & m' & ? & ? & ?); exists rs, c', m'; auto).
  clear Hn. revert c Hr Hos. generalize (∅ : gmap Z Z) as m.
  induction os as [|o os IH]; intros m c Hr Hos.
  - exists [], c, m. split; [done|]. split; [constructor|done].
  - apply Forall_cons in Hos as [Ho Hos].
    destruct (do_call_spec sps c m o Hin Hr Ho) as (r & c1 & m1 & Hd & Hr1 & Hc1 & Hs).
    rewrite <- Hc1 in Hos. destruct (IH m1 c1 Hr1 Hos) as (rs & c2 & m2 & Hd2 & Hs2 & Hr2).
    exists (r :: rs), c2, m2. cbn. rewrite Hd. cbn. rewrite Hd2. cbn.
    split; [done|]. split; [|done]. rewrite Hc1 in Hs2. by eapply spec_more.
Qed.

Lemma mpmc_refines_map_witness :
  exists c rs c' m',
    new 2 = Ret c /\
    do_calls [true; false] c [Add 7; Add 8; Add 9; Remove 0; Get 1; Add 5; Len; ForEach]
      = Ret (rs, c') /\
    spec_calls 2 ∅ [Add 7; Add 8; Add 9; Remove 0; Get 1; Add 5; Len; ForEach] rs m' /\ rep c' m'.
Proof.
  apply (mpmc_refines_map [true; false] 2).
  - apply elem_of_cons; right; apply elem_of_cons; left; reflexivity.
  - vm_compute. split; [reflexivity|discriminate].
  - repeat constructor; cbn; lia.
Defined.

Example mpmc_run :
  (let! c := new 2 in
   let! (rs, _) := do_calls [true; false] c
     [Add 7; Add 8; Add 9; Remove 0; Get 1; Add 5; Len; ForEach] in Ret rs)
  = Ret [Slot (Some 0); Slot (Some 1); Slot None; Value (Some 7); Value (Some 8);
         Slot (Some 0); Count 2; Visited [(0, 5); (1, 8)]].
Proof. vm_compute. reflexivity. Qed.

End MpmcContainer.
