(* ===== verification/MpmcConc.v ===== *)
(** * MpmcContainer under concurrency

    [add], [remove] and [get] cut at every access to shared memory (the head
    and the links of the free list, the values, the words of the bitset) and run
    by any number of threads in any order.  The free list is that of
    IndexSetConc.v: a configuration of the container is seen as one of the index
    set, in which one more thread owns the slots that are in the container, and
    its invariant is reused. *)
From S2P Require Import Prelude Contracts FreeList IndexSet IndexSetConc Bitset Mpmc.
#[local] Open Scope Z_scope.

Module MpmcThreads.
Module U := IndexSet.UniqueIndexSet.
Module I := IndexSetConc.IndexSetThreads.
Module B := Bitset.AtomicBitSet.
Import MpmcContainer.

(** Where a thread stands: in the loops of [alloc_slot] ([Add...]), the store of
    the value, the loop of [AtomicBitSet::set], that of [clear] ([Rem...]), the
    load of the value, the loop of [free_slot], the two loads of [get], or a panic
    in [add] or in another call. *)
Inductive pc :=
| Idle
| AddLoad (value : Z)
| AddLoop (value old : Z)
| AddCas (value old next_idx : Z)
| AddStore (value slot : Z)
| SetLoad (value slot : Z)
| SetCas (value slot word : Z)
| RemLoad (slot : Z)
| RemCas (slot word : Z)
| RemData (slot : Z)
| FreeLoad (slot value : Z)
| FreeLoop (slot value old : Z)
| FreeCas (slot value old : Z)
| GetLoad (slot : Z)
| GetData (slot : Z)
| AddPanicked
| Panicked.

Inductive answer :=
| AddedAt (r : option Z)
| RemovedIs (r : option Z)
| Got (r : option Z).

(** What takes effect, at one instant. *)
Inductive event :=
| Reserved (slot : Z)
| Full
| Added (slot value : Z)
| Removed (slot value : Z)
| NotThere (slot : Z)
| Freed (slot : Z).

(** [seen] (ghost) is the version at the last load of the head, [effect]
    (ghost) the event that decides the answer, [arg] the argument of the call. *)
Record thread := mkT {
  at_ : pc;
  returned : option answer;
  seen : Z;
  effect : option event;
  arg : Z;
}.

Record config := mkC {
  set : MpmcContainer;
  version : Z;
  threads : list thread;
}.

Inductive action :=
| CallAdd (value : Z)
| CallRemove (slot : Z)
| CallGet (slot : Z)
| Run (spurious : bool).

Definition goto (t : thread) (p : pc) : thread := mkT p (returned t) (seen t) (effect t) (arg t).

Definition answers (t : thread) (a : answer) : thread :=
  mkT Idle (Some a) (seen t) (effect t) (arg t).

Definition bit (slot : Z) : Z := shl 64 1 (slot mod 64).

(** The word of the bitset that holds the bit of [slot]. *)
Definition word (c : MpmcContainer) (slot : Z) : option Z :=
  B.words (occupied c) !! Z.to_nat (slot / 64).

Definition store_word (c : MpmcContainer) (slot w : Z) : MpmcContainer :=
  with_occupied c (B.store_word (occupied c) (slot / 64) w).

(** A thread that has just read the head, or a word, into its [old]. *)
Definition observe (value old ver : Z) (t : thread) : thread * list event :=
  if extract_head old =? SENTINEL
  then (mkT (AddLoop value old) None ver (Some Full) (arg t), [Full])
  else (mkT (AddLoop value old) None ver None (arg t), []).

Definition observe_set (value slot w : Z) (t : thread) : thread * list event :=
  if negb (Z.land w (bit slot) =? 0) then (answers t (AddedAt (Some slot)), [])
  else (goto t (SetCas value slot w), []).

Definition observe_clear (slot w : Z) (t : thread) : thread * list event :=
  if Z.land w (bit slot) =? 0
  then (mkT Idle (Some (RemovedIs None)) (seen t) (Some (NotThere slot)) (arg t), [NotThere slot])
  else (goto t (RemCas slot w), []).

Definition observe_free (slot value old ver : Z) (t : thread) : thread :=
  mkT (FreeLoop slot value old) (returned t) ver (effect t) (arg t).

(** The steps of [alloc_slot]. *)
Definition run_alloc (spurious : bool) (s : MpmcContainer) (ver : Z) (t : thread)
    : option (MpmcContainer * Z * (thread * list event)) :=
  match at_ t with
  | AddLoad v => Some (s, ver, observe v (free_head s) ver t)
  | AddLoop v old =>
      if extract_head old =? SENTINEL
      then Some (s, ver, (answers t (AddedAt None), []))
      else match next s !! Z.to_nat (extract_head old) with
           | Some n => Some (s, ver, (goto t (AddCas v old n), []))
           | None => Some (s, ver, (goto t AddPanicked, []))
           end
  | AddCas v old n =>
      let new := pack_head n (wrapping_add 32 (extract_tag old) 1) in
      match compare_exchange_weak spurious (free_head s) old new with
      | Ok w => Some (with_head s w, ver + 1,
                      (goto t (AddStore v (extract_head old)), [Reserved (extract_head old)]))
      | Err current => Some (s, ver, observe v current ver t)
      end
  | _ => None
  end.

(** The rest of [add]: the store of the value and [AtomicBitSet::set]. *)
Definition run_set (spurious : bool) (s : MpmcContainer) (ver : Z) (t : thread)
    : option (MpmcContainer * Z * (thread * list event)) :=
  match at_ t with
  | AddStore v slot =>
      match data s !! Z.to_nat slot with
      | Some _ => Some (with_data s (<[Z.to_nat slot := v]> (data s)), ver, (goto t (SetLoad v slot), []))
      | None => Some (s, ver, (goto t AddPanicked, []))
      end
  | SetLoad v slot =>
      match word s slot with
      | Some w => Some (s, ver, observe_set v slot w t)
      | None => Some (s, ver, (goto t AddPanicked, []))
      end
  | SetCas v slot w =>
      match word s slot with
      | Some cur =>
          match compare_exchange_weak spurious cur w (Z.lor w (bit slot)) with
          | Ok w' => Some (store_word s slot w', ver,
                           (mkT Idle (Some (AddedAt (Some slot))) (seen t) (Some (Added slot v)) (arg t),
                            [Added slot v]))
          | Err current => Some (s, ver, observe_set v slot current t)
          end
      | None => Some (s, ver, (goto t AddPanicked, []))
      end
  | _ => None
  end.

(** [AtomicBitSet::clear] and the load of the value, in [remove]. *)
Definition run_clear (spurious : bool) (s : MpmcContainer) (ver : Z) (t : thread)
    : option (MpmcContainer * Z * (thread * list event)) :=
  match at_ t with
  | RemLoad slot =>
      match word s slot with
      | Some w => Some (s, ver, observe_clear slot w t)
      | None => Some (s, ver, (goto t Panicked, []))
      end
  | RemCas slot w =>
      match word s slot with
      | Some cur =>
          match compare_exchange_weak spurious cur w (Z.land w (bnot 64 (bit slot))) with
          | Ok w' =>
              let e := Removed slot (default 0 (data s !! Z.to_nat slot)) in
              Some (store_word s slot w', ver, (mkT (RemData slot) None (seen t) (Some e) (arg t), [e]))
          | Err current => Some (s, ver, observe_clear slot current t)
          end
      | None => Some (s, ver, (goto t Panicked, []))
      end
  | RemData slot =>
      match data s !! Z.to_nat slot with
      | Some v => Some (s, ver, (goto t (FreeLoad slot v), []))
      | None => Some (s, ver, (goto t Panicked, []))
      end
  | _ => None
  end.

(** [free_slot], with which [remove] ends. *)
Definition run_free (spurious : bool) (s : MpmcContainer) (ver : Z) (t : thread)
    : option (MpmcContainer * Z * (thread * list event)) :=
  match at_ t with
  | FreeLoad slot v => Some (s, ver, (observe_free slot v (free_head s) ver t, []))
  | FreeLoop slot v old =>
      match next s !! Z.to_nat slot with
      | Some _ => Some (with_next s (<[Z.to_nat slot := extract_head old]> (next s)), ver,
                        (goto t (FreeCas slot v old), []))
      | None => Some (s, ver, (goto t Panicked, []))
      end
  | FreeCas slot v old =>
      let new := pack_head slot (wrapping_add 32 (extract_tag old) 1) in
      match compare_exchange_weak spurious (free_head s) old new with
      | Ok w => Some (with_head s w, ver + 1, (answers t (RemovedIs (Some v)), [Freed slot]))
      | Err current => Some (s, ver, (observe_free slot v current ver t, []))
      end
  | _ => None
  end.

Definition run_get (s : MpmcContainer) (ver : Z) (t : thread)
    : option (MpmcContainer * Z * (thread * list event)) :=
  match at_ t with
  | GetLoad slot =>
      match word s slot with
      | Some w =>
          if negb (Z.land w (bit slot) =? 0) then Some (s, ver, (goto t (GetData slot), []))
          else Some (s, ver, (answers t (Got None), []))
      | None => Some (s, ver, (goto t Panicked, []))
      end
  | GetData slot =>
      match data s !! Z.to_nat slot with
      | Some v => Some (s, ver, (answers t (Got (Some v)), []))
      | None => Some (s, ver, (goto t Panicked, []))
      end
  | _ => None
  end.

Definition run_thread (spurious : bool) (s : MpmcContainer) (ver : Z) (t : thread)
    : option (MpmcContainer * Z * (thread * list event)) :=
  match at_ t with
  | Idle | AddPanicked | Panicked => None
  | AddLoad _ | AddLoop _ _ | AddCas _ _ _ => run_alloc spurious s ver t
  | AddStore _ _ | SetLoad _ _ | SetCas _ _ _ => run_set spurious s ver t
  | RemLoad _ | RemCas _ _ | RemData _ => run_clear spurious s ver t
  | FreeLoad _ _ | FreeLoop _ _ _ | FreeCas _ _ _ => run_free spurious s ver t
  | GetLoad _ | GetData _ => run_get s ver t
  end.

(** A call starts on an idle thread; slots are [u32]s. *)
Definition call (t : thread) (p : pc) (a : Z) : thread := mkT p None (seen t) None a.

Definition act (a : action) (s : MpmcContainer) (ver : Z) (t : thread)
    : option (MpmcContainer * Z * (thread * list event)) :=
  match a with
  | Run sp => run_thread sp s ver t
  | CallAdd v => match at_ t with Idle => Some (s, ver, (call t (AddLoad v) v, [])) | _ => None end
  | CallRemove slot =>
      match at_ t with
      | Idle => if decide (fits 32 slot) then Some (s, ver, (call t (RemLoad slot) slot, [])) else None
      | _ => None
      end
  | CallGet slot =>
      match at_ t with
      | Idle => if decide (fits 32 slot) then Some (s, ver, (call t (GetLoad slot) slot, [])) else None
      | _ => None
      end
  end.

Definition exec (i : nat) (a : action) (c : config) : option (config * list event) :=
  match threads c !! i with
  | None => None
  | Some t =>
      match act a (set c) (version c) t with
      | None => None
      | Some (s, ver, (t', evs)) => Some (mkC s ver (<[i := t']> (threads c)), evs)
      end
  end.

Definition new_thread : thread := mkT Idle None 0 None 0.
Definition init (s : MpmcContainer) (n : nat) : config := mkC s 0 (replicate n new_thread).

(** ** The abstract container: the free slots, in order, and a finite map *)

Definition spec_step (st : list Z * gmap Z Z) (e : event) : option (list Z * gmap Z Z) :=
  let (free, m) := st in
  match e with
  | Reserved i => match free with x :: free => if i =? x then Some (free, m) else None | [] => None end
  | Full => match free with [] => Some st | _ => None end
  | Added i v => if decide (i ∈ free) then None
                 else match m !! i with None => Some (free, <[i := v]> m) | Some _ => None end
  | Removed i v => if decide (m !! i = Some v) then Some (free, delete i m) else None
  | NotThere i => match m !! i with None => Some st | Some _ => None end
  | Freed i => if decide (i ∈ free) then None
               else match m !! i with None => Some (i :: free, m) | Some _ => None end
  end.

Fixpoint spec_run (st : list Z * gmap Z Z) (evs : list event) : option (list Z * gmap Z Z) :=
  match evs with
  | [] => Some st
  | e :: evs => match spec_step st e with Some st => spec_run st evs | None => None end
  end.

Lemma mpmc_spec_run_app st evs1 evs2 :
  spec_run st (evs1 ++ evs2) =
  match spec_run st evs1 with Some st => spec_run st evs2 | None => None end.
Proof.
  revert st. induction evs1 as [|e evs1 IH]; intros st; cbn; [done|].
  destruct (spec_step st e); [apply IH|done].
Qed.

(** ** The container as an index set

    The free list of [s], and the threads as IndexSetConc.v sees them; one more
    thread owns the slots that are in the map. *)

Lemma extract_tag_same v : extract_tag v = U.extract_tag v.
Proof.
  unfold extract_tag, U.extract_tag, U.TAG_MASK. change 0xFFFFFFFF with (Z.ones 32).
  rewrite Z.land_ones by lia. symmetry. apply wrap_wrap. lia.
Qed.

Lemma pack_head_same h v :
  pack_head h (wrapping_add 32 (extract_tag v) 1)
  = U.pack h (wrapping_add 32 (U.extract_tag v) 1).
Proof.
  rewrite extract_tag_same. unfold pack_head, U.pack, U.TAG_MASK, U.HEAD_SHIFT.
  change 0xFFFFFFFF with (Z.ones 32). rewrite Z.land_ones by lia. f_equal.
  symmetry. apply wrap_small. auto with words.
Qed.

Definition free_part (s : MpmcContainer) (b : Z) : U.UniqueIndexSet :=
  U.mk (free_head s) (next s) (capacity s) b.

Definition abs_pc (p : pc) : I.pc :=
  match p with
  | AddLoad _ => I.AcqLoad
  | AddLoop _ old => I.AcqLoop old
  | AddCas _ old n => I.AcqCas old n
  | FreeLoad slot _ => I.RelLoad slot
  | FreeLoop slot _ old => I.RelLoop slot old
  | FreeCas slot _ old => I.RelCas slot old
  | _ => I.Idle
  end.

Definition abs_owned (p : pc) : list Z :=
  match p with
  | AddStore _ slot | SetLoad _ slot | SetCas _ slot _ | RemData slot => [slot]
  | _ => []
  end.

Definition abs_effect (p : pc) : option I.event :=
  match p with
  | AddLoop _ old => if extract_head old =? SENTINEL then Some I.FoundEmpty else None
  | _ => None
  end.

Definition abs (t : thread) : I.thread :=
  I.mkT (abs_pc (at_ t)) (abs_owned (at_ t)) None (seen t) (abs_effect (at_ t)).

Definition abs_event (e : event) : I.event :=
  match e with
  | Reserved i => I.Acquired i
  | Freed i => I.Released i
  | _ => I.FoundEmpty
  end.

Definition present (m : gmap Z Z) : I.thread :=
  I.mkT I.Idle (map_to_list m).*1 None 0 None.

Definition view (c : config) (m : gmap Z Z) : list I.thread :=
  present m :: (abs <$> threads c).

Definition base (c : config) (m : gmap Z Z) (free : list Z) : Prop :=
  exists b, I.inv (I.mkC (free_part (set c) b) (version c) (view c m)) free.

(** The invariant of the index set does not depend on how the owners of a slot
    are numbered, nor on the counter. *)
Lemma rebase s ver ths ths' free b :
  I.inv (I.mkC s ver ths) free ->
  concat (I.held <$> ths') ≡ₚ concat (I.held <$> ths) ->
  (forall j u, ths' !! j = Some u -> I.thread_ok s ver u) ->
  b = wrap 32 (zsum I.count ths') ->
  I.inv (I.mkC (U.mk (U.head s) (U.next s) (U.capacity s) b) ver ths') free.
Proof.
  intros Hi Hp Ht ->. destruct Hi. split; cbn in *; try done. by rewrite Hp.
Qed.

Section base_facts.
Context (c : config) (m : gmap Z Z) (free : list Z) (Hb : base c m free).

Lemma view_thread i t : threads c !! i = Some t -> view c m !! S i = Some (abs t).
Proof using.
  intros Hi. change ((abs <$> threads c) !! i = Some (abs t)). by rewrite list_lookup_fmap, Hi.
Qed.

Lemma view_insert s' ver' i t' m' :
  view (mkC s' ver' (<[i := t']> (threads c))) m' = present m' :: <[i := abs t']> (abs <$> threads c).
Proof using. unfold view. cbn [threads]. by rewrite list_fmap_insert. Qed.

Lemma present_held i : is_Some (m !! i) <-> i ∈ I.held (present m).
Proof using.
  cbn. rewrite list_elem_of_fmap. split.
  - intros [v Hv]. exists (i, v). split; [done|]. by apply elem_of_map_to_list.
  - intros ([j v] & -> & Hv%elem_of_map_to_list). eauto.
Qed.

Lemma present_valid i : is_Some (m !! i) -> 0 <= i < capacity (set c) /\ i ∉ free.
Proof using Hb.
  intros Hi%present_held. destruct Hb as [b Hinv].
  exact (I.held_valid _ _ Hinv 0 (present m) i eq_refl Hi).
Qed.

(** A slot that a thread holds is in range, neither free nor in the map ... *)
Lemma held_slot i t slot :
  threads c !! i = Some t -> slot ∈ I.held (abs t) ->
  0 <= slot < capacity (set c) /\ (slot ∉ free) /\ m !! slot = None.
Proof using Hb.
  intros Hi Hs. destruct Hb as [b Hinv].
  destruct (I.held_valid _ _ Hinv (S i) (abs t) slot (view_thread i t Hi) Hs) as [? ?].
  split; [done|]. split; [done|]. apply eq_None_not_Some. intros Hm%present_held.
  by apply (I.held_disjoint _ _ Hinv 0 (S i) (present m) (abs t) slot eq_refl (view_thread i t Hi)).
Qed.

(** ... and no other thread holds it. *)
Lemma mpmc_held_other i j t u x y :
  threads c !! i = Some t -> threads c !! j = Some u -> j <> i ->
  x ∈ I.held (abs t) -> y ∈ I.held (abs u) -> Z.to_nat x <> Z.to_nat y.
Proof using Hb.
  intros Hi Hj Hne Hx Hy He.
  destruct (held_slot i t x Hi Hx) as [? _]. destruct (held_slot j u y Hj Hy) as [? _].
  assert (x = y) as <- by lia. destruct Hb as [b Hinv].
  apply (I.held_disjoint _ _ Hinv (S i) (S j) (abs t) (abs u) x
           (view_thread i t Hi) (view_thread j u Hj)); [congruence|done|done].
Qed.

(** Slots move between the map and one thread; the free list stays. *)
Lemma base_move s' i t t' m' :
  threads c !! i = Some t ->
  free_head s' = free_head (set c) -> next s' = next (set c) -> capacity s' = capacity (set c) ->
  I.held (present m') ++ I.held (abs t') ≡ₚ I.held (present m) ++ I.held (abs t) ->
  I.thread_ok (free_part (set c) 0) (version c) (abs t') ->
  base (mkC s' (version c) (<[i := t']> (threads c))) m' free.
Proof using Hb.
  intros Hi Eh En Ec Hp Hok. destruct Hb as [b Hinv]. unfold base.
  eexists. unfold free_part in *. cbn [set version]. rewrite Eh, En, Ec.
  apply (rebase _ _ _ _ _ _ Hinv); [| |reflexivity].
  - rewrite view_insert. unfold view. rewrite !fmap_cons. cbn [concat].
    assert (Ha : (abs <$> threads c) !! i = Some (abs t)) by (by rewrite list_lookup_fmap, Hi).
    rewrite (concat_insert I.held _ _ _ _ Ha), (concat_lookup I.held _ _ _ Ha).
    by rewrite !app_assoc, Hp.
  - intros [|j] u Hj; [by cbn in Hj; simplify_eq|].
    change ((abs <$> <[i := t']> (threads c)) !! j = Some u) in Hj.
    rewrite list_lookup_fmap in Hj. apply fmap_Some in Hj as (w & Hw & ->).
    apply list_lookup_insert_Some in Hw as [(-> & <- & _)|(Hne & Hw)]; [done|].
    apply (I.inv_threads _ _ Hinv (S j) (abs w)). by apply view_thread.
Qed.

(** ... or a step of the index set by thread [i]. *)
Lemma base_index s' ver' b i t' u free' :
  I.inv (I.mkC (free_part s' b) ver' (<[S i := u]> (view c m))) free' ->
  is_Some (threads c !! i) -> I.held u = I.held (abs t') ->
  u = abs t' \/ I.at_ (abs t') = I.Idle ->
  base (mkC s' ver' (<[i := t']> (threads c))) m free'.
Proof using.
  intros Hinv [t Hi] Hh Hu. pose proof (view_thread i t Hi) as Hv. eexists.
  refine (rebase _ _ _ (view (mkC s' ver' (<[i := t']> (threads c))) m) _ _ Hinv _ _ eq_refl).
  - rewrite view_insert.
    change (present m :: <[i := abs t']> (abs <$> threads c))
      with (<[S i := abs t']> (view c m)).
    rewrite !(concat_insert I.held _ _ _ _ Hv). by rewrite Hh.
  - intros j w Hj. rewrite view_insert in Hj.
    change (present m :: <[i := abs t']> (abs <$> threads c))
      with (<[S i := abs t']> (view c m)) in Hj.
    apply list_lookup_insert_Some in Hj as [(<- & <- & _)|(Hne & Hj)].
    + destruct Hu as [->|Hu].
      * apply (I.inv_threads _ _ Hinv (S i)). apply list_lookup_insert_eq.
        by eapply lookup_lt_Some.
      * unfold I.thread_ok. by rewrite Hu.
    + apply (I.inv_threads _ _ Hinv j). cbn [I.threads]. by rewrite list_lookup_insert_ne.
Qed.
End base_facts.

(** ** The invariant *)

(** What a finished call answered is what took effect. *)
Definition answered (t : thread) : Prop :=
  match returned t with
  | Some (AddedAt (Some slot)) => effect t = Some (Added slot (arg t))
  | Some (AddedAt None) => effect t = Some Full
  | Some (RemovedIs (Some v)) => effect t = Some (Removed (arg t) v)
  | Some (RemovedIs None) => effect t = Some (NotThere (arg t))
  | Some (Got _) | None => True
  end.

Definition word_bit (w slot : Z) (b : bool) : Prop :=
  fits 64 w /\ Z.testbit w (slot mod 64) = b.

Definition ok (s : MpmcContainer) (t : thread) : Prop :=
  match at_ t with
  | Idle => answered t
  | AddLoad v | AddCas v _ _ | AddStore v _ => arg t = v
  | AddLoop v old => arg t = v /\ (extract_head old = SENTINEL -> effect t = Some Full)
  | SetLoad v slot => arg t = v /\ data s !! Z.to_nat slot = Some v
  | SetCas v slot w => arg t = v /\ data s !! Z.to_nat slot = Some v /\ word_bit w slot false
  | RemLoad slot | GetLoad slot => arg t = slot /\ 0 <= slot
  | RemCas slot w => arg t = slot /\ 0 <= slot < capacity s /\ word_bit w slot true
  | RemData slot =>
      arg t = slot /\ exists v, data s !! Z.to_nat slot = Some v /\ effect t = Some (Removed slot v)
  | FreeLoad slot v | FreeLoop slot v _ | FreeCas slot v _ =>
      arg t = slot /\ effect t = Some (Removed slot v)
  | GetData slot => 0 <= slot < capacity s
  | AddPanicked => False
  | Panicked => capacity s <= arg t
  end.

Record inv (c : config) (free : list Z) (m : gmap Z Z) : Prop := {
  v_base : base c m free;
  v_data : length (data (set c)) = Z.to_nat (capacity (set c));
  v_bits : B.wf (occupied (set c));
  v_bitcap : B.capacity (occupied (set c)) = capacity (set c);
  v_mem : forall i, 0 <= i -> B.mem (occupied (set c)) i = bool_decide (is_Some (m !! i));
  v_vals : forall i v, m !! i = Some v -> data (set c) !! Z.to_nat i = Some v;
  v_threads : forall i t, threads c !! i = Some t -> ok (set c) t;
}.

Definition in_window (c : config) : Prop :=
  forall i t v old n, threads c !! i = Some t -> at_ t = AddCas v old n ->
  version c - seen t < 2 ^ 32.

Lemma inv_intro c free m s' ver' i t' free' m' :
  inv c free m -> capacity s' = capacity (set c) ->
  base (mkC s' ver' (<[i := t']> (threads c))) m' free' ->
  length (data s') = length (data (set c)) ->
  B.wf (occupied s') -> B.capacity (occupied s') = capacity (set c) ->
  (forall j, 0 <= j -> B.mem (occupied s') j = bool_decide (is_Some (m' !! j))) ->
  (forall j v, m' !! j = Some v -> data s' !! Z.to_nat j = Some v) ->
  ok s' t' ->
  (forall j u, j <> i -> threads c !! j = Some u -> ok (set c) u -> ok s' u) ->
  inv (mkC s' ver' (<[i := t']> (threads c))) free' m'.
Proof.
  intros Hinv Ec Hb Hd Hw Hwc Hm Hv Hok Hoth. destruct Hinv.
  split; cbn [set version threads]; rewrite ?Ec; try done; [congruence|].
  intros j u [(<- & <- & _)|(Hne & Hj)]%list_lookup_insert_Some; [done|eauto].
Qed.

(** The values are untouched: every other thread's facts stay. *)
Lemma ok_same s s' u : data s' = data s -> capacity s' = capacity s -> ok s u -> ok s' u.
Proof. unfold ok. intros -> ->. done. Qed.

(** A step that leaves the words and the values alone. *)
Lemma inv_free_step c free m s' ver' i t' free' :
  inv c free m -> capacity s' = capacity (set c) -> data s' = data (set c) ->
  occupied s' = occupied (set c) ->
  base (mkC s' ver' (<[i := t']> (threads c))) m free' ->
  ok s' t' -> inv (mkC s' ver' (<[i := t']> (threads c))) free' m.
Proof.
  intros Hinv Ec Ed Eo Hb Hok. eapply inv_intro; eauto; rewrite ?Ed, ?Eo; try apply Hinv; try done.
  intros j u _ _. by apply ok_same.
Qed.

(** ** Simulation of the index set *)

Definition list_step (c : config) (s' : MpmcContainer) (ver' : Z) (t t' : thread)
    (evs : list event) (sp : bool) : Prop :=
  exists u, forall b,
    I.run_thread sp (free_part (set c) b) (version c) (abs t) =
      Some (free_part s' b, ver', (u, abs_event <$> evs)) /\
    I.held u = I.held (abs t') /\ (u = abs t' \/ I.at_ (abs t') = I.Idle) /\
    capacity s' = capacity (set c) /\ data s' = data (set c) /\ occupied s' = occupied (set c).

Lemma abs_observe v old ver t :
  abs_owned (at_ t) = [] ->
  I.observe old ver (abs t) =
    (abs (observe v old ver t).1, abs_event <$> (observe v old ver t).2).
Proof.
  intros Ho. unfold I.observe, observe. cbn [I.owned abs]. rewrite Ho.
  change (U.extract_head old) with (extract_head old).
  unfold abs, abs_effect. destruct (extract_head old =? SENTINEL) eqn:E; cbn; by rewrite E.
Qed.

Lemma alloc_step c sp t s' ver' t' evs :
  match at_ t with AddLoad _ | AddLoop _ _ | AddCas _ _ _ => True | _ => False end ->
  run_alloc sp (set c) (version c) t = Some (s', ver', (t', evs)) ->
  list_step c s' ver' t t' evs sp.
Proof.
  intros Hin Hr. unfold run_alloc in Hr. unfold list_step, I.run_thread. cbn [abs I.at_].
  destruct (at_ t) as [|v|v old|v old n| | | | | | | | | | | | |] eqn:Hpc; try done; cbn [abs_pc].
  - assert (Ho : abs_owned (at_ t) = []) by by rewrite Hpc.
    pose proof (abs_observe v (free_head (set c)) (version c) t Ho) as Hobs.
    destruct (observe _ _ _ _) as [t1 e1]. simplify_eq.
    exists (abs t'). intros b. cbn [U.head free_part]. rewrite Hobs. auto 10.
  - change (U.extract_head old) with (extract_head old). cbn [U.next free_part].
    destruct (extract_head old =? SENTINEL) eqn:E.
    + simplify_eq. eexists. intros b. split; [reflexivity|]. split; [|auto 10].
      unfold I.held. cbn. by rewrite Hpc.
    + destruct (next (set c) !! _) as [n|]; simplify_eq; eexists; intros b;
        (split; [reflexivity|]); unfold I.held, abs, I.goto; cbn; rewrite ?Hpc; cbn; rewrite ?E;
        auto 10.
  - rewrite pack_head_same in Hr. cbn [U.head free_part].
    destruct (compare_exchange_weak _ _ _ _) as [w|cur].
    + simplify_eq. eexists. intros b. split; [reflexivity|]. split; [|auto 10].
      unfold I.held. cbn. by rewrite Hpc.
    + assert (Ho : abs_owned (at_ t) = []) by by rewrite Hpc.
      pose proof (abs_observe v cur (version c) t Ho) as Hobs.
      destruct (observe _ _ _ _) as [t1 e1]. simplify_eq.
      exists (abs t'). intros b. rewrite Hobs. auto 10.
Qed.

Lemma free_step c sp t s' ver' t' evs :
  match at_ t with FreeLoad _ _ | FreeLoop _ _ _ | FreeCas _ _ _ => True | _ => False end ->
  run_free sp (set c) (version c) t = Some (s', ver', (t', evs)) ->
  list_step c s' ver' t t' evs sp.
Proof.
  intros Hin Hr. unfold run_free in Hr. unfold list_step, I.run_thread. cbn [abs I.at_].
  destruct (at_ t) as [| | | | | | | | | |slot v|slot v old|slot v old| | | |] eqn:Hpc;
    try done; cbn [abs_pc]; cbn [U.head U.next free_part].
  - simplify_eq. eexists. intros b. split; [reflexivity|].
    unfold I.held, abs, I.observe_rel. cbn. rewrite Hpc. auto 10.
  - destruct (next (set c) !! _) as [n|]; simplify_eq; eexists; intros b;
      (split; [reflexivity|]); unfold I.held, abs, I.goto; cbn; rewrite ?Hpc; auto 10.
  - rewrite pack_head_same in Hr. destruct (compare_exchange_weak _ _ _ _) as [w|cur]; simplify_eq;
      eexists; intros b; (split; [reflexivity|]);
      unfold I.held, abs, I.observe_rel; cbn; rewrite ?Hpc; auto 10.
Qed.

(** The events of the index set, read as events of the container. *)
Definition list_event (m : gmap Z Z) (e : event) : Prop :=
  match e with
  | Reserved _ | Full => True
  | Freed i => m !! i = None
  | _ => False
  end.

Lemma abs_spec_run free m evs free' :
  Forall (list_event m) evs -> I.spec_run free (abs_event <$> evs) = Some free' ->
  spec_run (free, m) evs = Some (free', m).
Proof.
  intros Hev. revert free. induction Hev as [|e evs He _ IH]; intros free Hr.
  { cbn in *. congruence. }
  cbn in Hr. destruct (I.spec_step free (abs_event e)) as [f|] eqn:E; [|done].
  specialize (IH f Hr). cbn [spec_run].
  destruct e as [j| | | | |j]; try done; cbn in *.
  - destruct free as [|x free]; [done|]. destruct (j =? x); [by simplify_eq|done].
  - destruct free; [by simplify_eq|done].
  - destruct (decide (j ∈ free)); [done|]. simplify_eq. by rewrite He.
Qed.

Section steps.
Context (c : config) (free : list Z) (m : gmap Z Z) (Hinv : inv c free m).
Implicit Types (i : nat) (t u : thread).

Definition goes (c' : config) (evs : list event) : Prop :=
  exists free' m', spec_run (free, m) evs = Some (free', m') /\ inv c' free' m'.

Lemma list_step_inv i sp t s' ver' t' evs :
  threads c !! i = Some t -> in_window c ->
  match abs_pc (at_ t) with I.Idle => False | _ => True end ->
  list_step c s' ver' t t' evs sp -> Forall (list_event m) evs ->
  ok (set c) t' ->
  goes (mkC s' ver' (<[i := t']> (threads c))) evs.
Proof using Hinv.
  intros Hi Hw Hpc (u & Hu) Hev Hok. destruct (v_base _ _ _ Hinv) as [b Hb].
  destruct (Hu b) as (Hr & Hh & Hab & Ec & Ed & Eo).
  pose proof (view_thread c m i t Hi) as Hv.
  assert (Hg : exists free', I.spec_run free (abs_event <$> evs) = Some free' /\
    I.inv (I.mkC (free_part s' b) ver' (<[S i := u]> (view c m))) free').
  { assert (Hw' : I.in_window (I.mkC (free_part (set c) b) (version c) (view c m))).
    { intros [|j] w old n Hj Hpw; cbn in Hj; [by simplify_eq|].
      change ((abs <$> threads c) !! j = Some w) in Hj. rewrite list_lookup_fmap in Hj.
      apply fmap_Some in Hj as (x & Hx & ->). cbn in Hpw |- *.
      destruct (at_ x) eqn:E; try done. cbn in Hpw. simplify_eq. by eapply Hw. }
    cbn [abs I.at_] in *. destruct (at_ t) eqn:E; try done.
    1-3: apply (I.run_acquire_inv _ _ Hb sp (S i) (abs t)); try done; cbn [abs I.at_]; by rewrite E.
    1-3: apply (I.run_release_inv _ _ Hb sp (S i) (abs t)); try done; cbn [abs I.at_]; by rewrite E. }
  destruct Hg as (free' & Hf & Hb'). exists free', m. split; [by apply abs_spec_run|].
  apply inv_free_step with free; try done; [|by eapply ok_same].
  by eapply base_index.
Qed.

Lemma next_length : length (next (set c)) = Z.to_nat (capacity (set c)).
Proof using Hinv. destruct (v_base _ _ _ Hinv) as [b Hb]. apply (I.inv_len _ _ Hb). Qed.

(** [alloc_slot] follows links inside the array. *)
Lemma add_loop_link i t v old :
  threads c !! i = Some t -> at_ t = AddLoop v old -> extract_head old <> SENTINEL ->
  is_Some (next (set c) !! Z.to_nat (extract_head old)).
Proof using Hinv.
  intros Hi Hpc Hne. destruct (v_base _ _ _ Hinv) as [b Hb].
  pose proof (I.inv_threads _ _ Hb (S i) _ (view_thread c m i t Hi)) as Hok.
  unfold I.thread_ok in Hok. cbn [abs I.at_] in Hok. rewrite Hpc in Hok.
  destruct Hok as ((_ & _ & [Hv|Hv]) & _); [done|]. cbn in Hv.
  apply lookup_lt_is_Some_2. rewrite next_length.
  change (U.extract_head old) with (extract_head old) in Hv. lia.
Qed.

Lemma observe_ok v old t :
  arg t = v -> ok (set c) (observe v old (version c) t).1 /\
  Forall (list_event m) (observe v old (version c) t).2.
Proof using.
  intros Ha. unfold observe, ok. destruct (_ =? SENTINEL) eqn:E; zbool; cbn;
    (split; [split; [done|]|repeat constructor]); [done|]. by intros.
Qed.

Lemma alloc_inv i sp t s' ver' t' evs :
  threads c !! i = Some t -> in_window c ->
  match at_ t with AddLoad _ | AddLoop _ _ | AddCas _ _ _ => True | _ => False end ->
  run_alloc sp (set c) (version c) t = Some (s', ver', (t', evs)) ->
  goes (mkC s' ver' (<[i := t']> (threads c))) evs.
Proof using Hinv.
  intros Hi Hw Hin Hr. pose proof (alloc_step _ _ _ _ _ _ _ Hin Hr) as Hst.
  pose proof (v_threads _ _ _ Hinv _ _ Hi) as Hok. unfold ok in Hok.
  assert (Hg : ok (set c) t' /\ Forall (list_event m) evs).
  { unfold run_alloc in Hr. destruct (at_ t) as [|v|v old|v old n| | | | | | | | | | | | |] eqn:Hpc;
      try done.
    - pose proof (observe_ok v (free_head (set c)) t Hok) as Ho.
      destruct (observe _ _ _ _). by simplify_eq.
    - destruct Hok as [Ha He]. destruct (_ =? SENTINEL) eqn:E; zbool.
      { simplify_eq. split; [|constructor]. cbn. unfold answered. cbn. auto. }
      destruct (add_loop_link i t v old Hi Hpc E) as [n Hn]. rewrite Hn in Hr. simplify_eq.
      by split; [|constructor].
    - destruct (compare_exchange_weak _ _ _ _) as [w|cur]; [simplify_eq; by repeat constructor|].
      pose proof (observe_ok v cur t Hok) as Ho. destruct (observe _ _ _ _). by simplify_eq. }
  destruct Hg as [Hok' Hev].
  apply (list_step_inv i sp t); try done. by destruct (at_ t).
Qed.

Lemma free_inv i sp t s' ver' t' evs :
  threads c !! i = Some t -> in_window c ->
  match at_ t with FreeLoad _ _ | FreeLoop _ _ _ | FreeCas _ _ _ => True | _ => False end ->
  run_free sp (set c) (version c) t = Some (s', ver', (t', evs)) ->
  goes (mkC s' ver' (<[i := t']> (threads c))) evs.
Proof using Hinv.
  intros Hi Hw Hin Hr. pose proof (free_step _ _ _ _ _ _ _ Hin Hr) as Hst.
  pose proof (v_threads _ _ _ Hinv _ _ Hi) as Hok. unfold ok in Hok.
  pose proof (held_slot c m free (v_base _ _ _ Hinv) i t) as Hs.
  unfold I.held in Hs. cbn [abs I.at_] in Hs.
  assert (Hg : ok (set c) t' /\ Forall (list_event m) evs).
  { unfold run_free in Hr.
    destruct (at_ t) as [| | | | | | | | | |slot v|slot v old|slot v old| | | |] eqn:Hpc; try done.
    all: destruct Hok as [Ha He];
      destruct (Hs slot Hi (list_elem_of_here _ _)) as (Hb & _ & Hm).
    - simplify_eq. by split; [|constructor].
    - destruct (index_ok (next (set c)) slot) as [n Hn]; [rewrite next_length; lia|].
      rewrite Hn in Hr. simplify_eq. by split; [|constructor].
    - destruct (compare_exchange_weak _ _ _ _) as [w|cur]; simplify_eq.
      + split; [|by repeat constructor]. cbn. unfold answered. cbn. congruence.
      + by split; [|constructor]. }
  destruct Hg as [Hok' Hev].
  apply (list_step_inv i sp t); try done. by destruct (at_ t).
Qed.

(** A step of a thread on its own state: the slots it holds stay the same. *)
Lemma local_inv i t t' evs :
  threads c !! i = Some t -> I.held (abs t') = I.held (abs t) ->
  I.thread_ok (free_part (set c) 0) (version c) (abs t') -> ok (set c) t' ->
  spec_run (free, m) evs = Some (free, m) ->
  goes (mkC (set c) (version c) (<[i := t']> (threads c))) evs.
Proof using Hinv.
  intros Hi Hh Hiok Hok Hev. exists free, m. split; [done|].
  apply inv_free_step with free; try done.
  eapply base_move; eauto; [apply Hinv|by rewrite Hh].
Qed.

(** The word of the bitset that holds a slot. *)
Lemma word_some slot w :
  word (set c) slot = Some w -> 0 <= slot ->
  word_bit w slot (bool_decide (is_Some (m !! slot))).
Proof using Hinv.
  intros Hw Hs. split.
  - apply (B.wf_words _ (v_bits _ _ _ Hinv)). by eapply list_elem_of_lookup_2.
  - rewrite <- (v_mem _ _ _ Hinv) by done. unfold B.mem. unfold word in Hw. by rewrite Hw.
Qed.

Lemma word_in_range slot : 0 <= slot < capacity (set c) -> exists w, word (set c) slot = Some w.
Proof using Hinv.
  intros Hs. apply (B.word_index _ (v_bits _ _ _ Hinv)). by rewrite (v_bitcap _ _ _ Hinv).
Qed.

Lemma word_test slot w b : word_bit w slot b -> negb (Z.land w (bit slot) =? 0) = b.
Proof using. intros [Hw Hb]. unfold bit. by rewrite test_bit by apply B.mod64. Qed.

Lemma data_in_range slot : 0 <= slot < capacity (set c) -> exists v, data (set c) !! Z.to_nat slot = Some v.
Proof using Hinv. intros. apply index_ok. rewrite (v_data _ _ _ Hinv). lia. Qed.

Lemma mem_range slot : is_Some (m !! slot) -> 0 <= slot < capacity (set c).
Proof using Hinv. intros Hs. by apply (present_valid c m free (v_base _ _ _ Hinv)). Qed.

(** The value is stored in a slot that only this thread holds. *)
Lemma store_inv i t v slot :
  threads c !! i = Some t -> at_ t = AddStore v slot ->
  goes (mkC (with_data (set c) (<[Z.to_nat slot := v]> (data (set c)))) (version c)
          (<[i := goto t (SetLoad v slot)]> (threads c))) [].
Proof using Hinv.
  intros Hi Hpc. pose proof (v_threads _ _ _ Hinv _ _ Hi) as Hok. unfold ok in Hok.
  rewrite Hpc in Hok.
  assert (Hheld : slot ∈ I.held (abs t)) by (unfold I.held, abs; cbn; rewrite Hpc; left).
  destruct (held_slot c m free (v_base _ _ _ Hinv) i t slot Hi Hheld) as (Hb & Hf & Hm).
  assert (Hlt : (Z.to_nat slot < length (data (set c)))%nat)
    by (rewrite (v_data _ _ _ Hinv); lia).
  exists free, m. split; [done|].
  apply inv_intro with free m; try done; try apply Hinv.
  - apply base_move with m t; try done; [apply Hinv|].
    unfold I.held, abs. cbn. by rewrite Hpc.
  - apply length_insert.
  - intros j u Hj. cbn [data with_data]. rewrite list_lookup_insert_ne; [by eapply v_vals|].
    assert (Hj' : is_Some (m !! j)) by eauto. pose proof (mem_range j Hj'). intros He.
    assert (j = slot) as -> by lia. congruence.
  - split; [done|]. by apply list_lookup_insert_eq.
  - intros j u Hne Hj Hu.
    pose proof (fun y => mpmc_held_other c m free (v_base _ _ _ Hinv) i j t u slot y Hi Hj Hne Hheld) as Ho.
    unfold I.held, abs in Ho. unfold ok in *. cbn in Ho.
    destruct (at_ u); try done; cbn [data with_data] in *;
      rewrite list_lookup_insert_ne; try done; apply Ho; left.
Qed.

(** One word of the bitset is replaced, and the slot changes hands. *)
Lemma word_step_inv i t t' slot w w' m' ev f :
  threads c !! i = Some t -> word (set c) slot = Some w -> 0 <= slot < capacity (set c) ->
  fits 64 w' ->
  (forall j, 0 <= j -> Z.testbit w' j = f (j =? slot mod 64) (Z.testbit w j)) ->
  (forall b, f false b = b) ->
  (forall j, bool_decide (is_Some (m' !! j)) = f (j =? slot) (bool_decide (is_Some (m !! j)))) ->
  (forall j v, m' !! j = Some v -> data (set c) !! Z.to_nat j = Some v) ->
  I.held (present m') ++ I.held (abs t') ≡ₚ I.held (present m) ++ I.held (abs t) ->
  I.at_ (abs t') = I.Idle -> ok (set c) t' ->
  spec_step (free, m) ev = Some (free, m') ->
  goes (mkC (store_word (set c) slot w') (version c) (<[i := t']> (threads c))) [ev].
Proof using Hinv.
  intros Hi Hw Hs Hfw Hbits Hf Hdom Hv Hp Hidle Hok Hev.
  exists free, m'. split; [cbn [spec_run]; by rewrite Hev|].
  assert (Hmem : forall j, 0 <= j ->
    B.mem (occupied (store_word (set c) slot w')) j = bool_decide (is_Some (m' !! j))).
  { intros j Hj. cbn. rewrite (B.store_mem (occupied (set c)) slot w w' f) by (done || lia).
    by rewrite Hdom, (v_mem _ _ _ Hinv). }
  apply inv_intro with free m; try done; try apply Hinv.
  - apply base_move with m t; try done; [apply Hinv|]. unfold I.thread_ok. by rewrite Hidle.
  - apply B.store_wf; [apply Hinv|lia|done|]. intros j Hj.
    rewrite (v_bitcap _ _ _ Hinv) in Hj.
    change (B.mem (occupied (store_word (set c) slot w')) j = false). rewrite Hmem by lia.
    rewrite Hdom. replace (j =? slot) with false by (symmetry; apply Z.eqb_neq; lia).
    rewrite Hf. apply bool_decide_eq_false. intros Hm%mem_range. lia.
Qed.

(** A step that only moves the thread on: [local_inv] with its trivial parts
    done. *)
Ltac local_step t Hpc :=
  apply (local_inv _ t); [done|unfold I.held, abs; cbn; by rewrite Hpc|done| |].

Lemma set_bit_inv i t v slot w :
  threads c !! i = Some t -> at_ t = SetCas v slot w -> word (set c) slot = Some w ->
  goes (mkC (store_word (set c) slot (Z.lor w (bit slot))) (version c)
    (<[i := mkT Idle (Some (AddedAt (Some slot))) (seen t) (Some (Added slot v)) (arg t)]>
       (threads c))) [Added slot v].
Proof using Hinv.
  intros Hi Hpc Hw. pose proof (v_threads _ _ _ Hinv _ _ Hi) as Hok. unfold ok in Hok.
  rewrite Hpc in Hok. destruct Hok as (Ha & Hd & Hfw & Hbit).
  assert (Hheld : slot ∈ I.held (abs t)) by (unfold I.held, abs; cbn; rewrite Hpc; left).
  destruct (held_slot c m free (v_base _ _ _ Hinv) i t slot Hi Hheld) as (Hb & Hf & Hm).
  apply word_step_inv with t w (<[slot := v]> m) orb; try done.
  - apply set_bit_fits; [done|apply B.mod64].
  - intros j Hj. apply set_bit_testbit; [apply B.mod64|done].
  - intros j. rewrite lookup_insert. destruct (decide (slot = j)) as [->|Hne].
    + by rewrite Z.eqb_refl.
    + by replace (j =? slot) with false by (symmetry; apply Z.eqb_neq; lia).
  - intros j x [[<- <-]|[_ Hx]]%lookup_insert_Some; [done|by eapply v_vals].
  - unfold I.held, abs. cbn. rewrite Hpc. cbn. rewrite map_to_list_insert by done. cbn.
    rewrite app_nil_r. apply Permutation_cons_append.
  - cbn. by subst v.
  - cbn. by rewrite decide_False, Hm.
Qed.

Lemma set_inv i sp t s' ver' t' evs :
  threads c !! i = Some t ->
  match at_ t with AddStore _ _ | SetLoad _ _ | SetCas _ _ _ => True | _ => False end ->
  run_set sp (set c) (version c) t = Some (s', ver', (t', evs)) ->
  goes (mkC s' ver' (<[i := t']> (threads c))) evs.
Proof using Hinv.
  intros Hi Hin Hr. pose proof (v_threads _ _ _ Hinv _ _ Hi) as Hok. unfold ok in Hok.
  pose proof (held_slot c m free (v_base _ _ _ Hinv) i t) as Hs.
  unfold I.held in Hs. cbn [abs I.at_ I.owned] in Hs. unfold run_set in Hr.
  destruct (at_ t) as [| | | |v slot|v slot|v slot old| | | | | | | | | |] eqn:Hpc; try done.
  all: destruct (Hs slot Hi (list_elem_of_here _ _)) as (Hb & _ & Hm).
  - destruct (data_in_range slot Hb) as [x Hx]. rewrite Hx in Hr. simplify_eq.
    by apply store_inv.
  - destruct (word_in_range slot Hb) as [w Hw]. rewrite Hw in Hr.
    pose proof (word_some slot w Hw ltac:(lia)) as Hbit.
    rewrite Hm, bool_decide_false in Hbit by by intros [].
    unfold observe_set in Hr. rewrite (word_test _ _ _ Hbit) in Hr. simplify_eq.
    local_step t Hpc; [by destruct Hok|done].
  - destruct (word_in_range slot Hb) as [w Hw]. rewrite Hw in Hr.
    pose proof (word_some slot w Hw ltac:(lia)) as Hbit.
    rewrite Hm, bool_decide_false in Hbit by by intros [].
    destruct (compare_exchange_weak _ _ _ _) as [w'|cur] eqn:Ec.
    + apply cas_ok in Ec as (-> & _ & ->). simplify_eq. by apply set_bit_inv.
    + apply cas_err in Ec as ->. unfold observe_set in Hr.
      rewrite (word_test _ _ _ Hbit) in Hr. simplify_eq.
      local_step t Hpc; [by destruct Hok as (? & ? & _)|done].
Qed.

Lemma clear_bit_inv i t slot w :
  threads c !! i = Some t -> at_ t = RemCas slot w -> word (set c) slot = Some w ->
  let e := Removed slot (default 0 (data (set c) !! Z.to_nat slot)) in
  goes (mkC (store_word (set c) slot (Z.land w (bnot 64 (bit slot)))) (version c)
    (<[i := mkT (RemData slot) None (seen t) (Some e) (arg t)]> (threads c))) [e].
Proof using Hinv.
  intros Hi Hpc Hw. pose proof (v_threads _ _ _ Hinv _ _ Hi) as Hok. unfold ok in Hok.
  rewrite Hpc in Hok. destruct Hok as (Ha & Hb & Hfw & Hbit).
  destruct (word_some slot w Hw ltac:(lia)) as [_ Hm]. rewrite Hbit in Hm.
  symmetry in Hm. apply bool_decide_eq_true in Hm as [v Hm].
  pose proof (v_vals _ _ _ Hinv _ _ Hm) as Hd. rewrite Hd. cbn [default from_option].
  apply word_step_inv with t w (delete slot m) (fun x b => b && negb x); try done.
  - apply clear_bit_fits; [done|apply B.mod64].
  - intros j Hj. apply clear_bit_testbit; [done|apply B.mod64|done].
  - intros b. apply andb_true_r.
  - intros j. rewrite lookup_delete. destruct (decide (slot = j)) as [->|Hne].
    + rewrite Z.eqb_refl, andb_false_r. apply bool_decide_eq_false. by intros [].
    + replace (j =? slot) with false by (symmetry; apply Z.eqb_neq; lia).
      by rewrite andb_true_r.
  - intros j x [_ Hx]%lookup_delete_Some. by eapply v_vals.
  - unfold I.held, abs. cbn. rewrite Hpc. cbn. rewrite <- (map_to_list_delete m slot v Hm). cbn.
    rewrite app_nil_r. symmetry. apply Permutation_cons_append.
  - split; [done|]. eauto.
  - cbn. by rewrite decide_True.
Qed.

Lemma observe_clear_inv i t slot w :
  threads c !! i = Some t -> abs_pc (at_ t) = I.Idle -> abs_owned (at_ t) = [] ->
  arg t = slot -> 0 <= slot -> word (set c) slot = Some w ->
  goes (mkC (set c) (version c) (<[i := (observe_clear slot w t).1]> (threads c)))
    (observe_clear slot w t).2.
Proof using Hinv.
  intros Hi Hpc Ho Ha Hs Hw. pose proof (word_some slot w Hw Hs) as Hbit.
  unfold observe_clear. pose proof (word_test _ _ _ Hbit) as Ht.
  destruct (Z.land w (bit slot) =? 0) eqn:E; cbn in Ht; cbn [fst snd];
    (apply (local_inv _ t); [done|unfold I.held, abs; cbn; by rewrite Hpc, Ho|done| |]).
  - cbn. unfold answered. cbn. by subst slot.
  - cbn. symmetry in Ht. apply bool_decide_eq_false in Ht.
    apply eq_None_not_Some in Ht. by rewrite Ht.
  - symmetry in Ht. rewrite Ht in Hbit. apply bool_decide_eq_true in Ht.
    split; [done|]. split; [by apply mem_range|done].
  - done.
Qed.

Lemma clear_inv i sp t s' ver' t' evs :
  threads c !! i = Some t ->
  match at_ t with RemLoad _ | RemCas _ _ | RemData _ => True | _ => False end ->
  run_clear sp (set c) (version c) t = Some (s', ver', (t', evs)) ->
  goes (mkC s' ver' (<[i := t']> (threads c))) evs.
Proof using Hinv.
  intros Hi Hin Hr. pose proof (v_threads _ _ _ Hinv _ _ Hi) as Hok. unfold ok in Hok.
  unfold run_clear in Hr.
  destruct (at_ t) as [| | | | | | |slot|slot old|slot| | | | | | |] eqn:Hpc; try done.
  - destruct Hok as [Ha Hs]. destruct (word (set c) slot) as [w|] eqn:Hw.
    + pose proof (observe_clear_inv i t slot w Hi) as Ho. rewrite Hpc in Ho.
      specialize (Ho eq_refl eq_refl Ha Hs Hw).
      destruct (observe_clear slot w t). by simplify_eq.
    + simplify_eq. local_step t Hpc; [|done]. cbn.
      destruct (decide (arg t < capacity (set c))) as [Hlt|]; [|lia].
      destruct (word_in_range (arg t)) as [w Hw']; [lia|congruence].
  - destruct Hok as (Ha & Hb & _). destruct (word_in_range slot Hb) as [w Hw].
    rewrite Hw in Hr. destruct (compare_exchange_weak _ _ _ _) as [w'|cur] eqn:Ec.
    + apply cas_ok in Ec as (-> & _ & ->). simplify_eq. by apply clear_bit_inv.
    + apply cas_err in Ec as ->.
      pose proof (observe_clear_inv i t slot w Hi) as Ho. rewrite Hpc in Ho.
      specialize (Ho eq_refl eq_refl Ha ltac:(lia) Hw).
      destruct (observe_clear slot w t). by simplify_eq.
  - destruct Hok as (Ha & v & Hd & He). rewrite Hd in Hr. simplify_eq.
    by local_step t Hpc.
Qed.

Lemma get_inv i t s' ver' t' evs :
  threads c !! i = Some t ->
  match at_ t with GetLoad _ | GetData _ => True | _ => False end ->
  run_get (set c) (version c) t = Some (s', ver', (t', evs)) ->
  goes (mkC s' ver' (<[i := t']> (threads c))) evs.
Proof using Hinv.
  intros Hi Hin Hr. pose proof (v_threads _ _ _ Hinv _ _ Hi) as Hok. unfold ok in Hok.
  unfold run_get in Hr.
  destruct (at_ t) as [| | | | | | | | | | | | |slot|slot| |] eqn:Hpc; try done.
  - destruct Hok as [Ha Hs]. destruct (word (set c) slot) as [w|] eqn:Hw.
    + pose proof (word_some slot w Hw Hs) as Hbit. rewrite (word_test _ _ _ Hbit) in Hr.
      case_bool_decide as Hm; simplify_eq; local_step t Hpc; try done. by apply mem_range.
    + simplify_eq. local_step t Hpc; [|done]. cbn.
      destruct (decide (arg t < capacity (set c))) as [Hlt|]; [|lia].
      destruct (word_in_range (arg t)) as [w Hw']; [lia|congruence].
  - destruct (data_in_range slot Hok) as [v Hv]. rewrite Hv in Hr. simplify_eq.
    by local_step t Hpc.
Qed.

Lemma mpmc_call_inv i a t s' ver' t' evs :
  threads c !! i = Some t -> (forall sp, a <> Run sp) ->
  act a (set c) (version c) t = Some (s', ver', (t', evs)) ->
  goes (mkC s' ver' (<[i := t']> (threads c))) evs.
Proof using Hinv.
  intros Hi Hr Ha. unfold act in Ha.
  destruct a as [v|slot|slot|sp]; [| | |by destruct (Hr sp)]; destruct (at_ t) eqn:Hpc; try done;
    try (case_decide as Hf; [|done]); simplify_eq; local_step t Hpc; try done;
    (split; [done|apply Hf]).
Qed.

(** Every step of every thread keeps the invariant, and its events are legal
    moves of the abstract container. *)
Lemma mpmc_exec_inv i a c' evs :
  in_window c -> exec i a c = Some (c', evs) -> goes c' evs.
Proof using Hinv.
  intros Hw He. unfold exec in He. destruct (threads c !! i) as [t|] eqn:Hi; [|done].
  destruct (act a (set c) (version c) t) as [[[s' ver'] [t' evs']]|] eqn:Ha; [|done].
  simplify_eq. destruct a as [v|slot|slot|sp];
    [by apply (mpmc_call_inv i (CallAdd v) t)|by apply (mpmc_call_inv i (CallRemove slot) t)
    |by apply (mpmc_call_inv i (CallGet slot) t)|].
  cbn in Ha. unfold run_thread in Ha. destruct (at_ t) eqn:Hpc; try done.
  1-3: apply (alloc_inv i sp t); try done; by rewrite Hpc.
  1-3: apply (set_inv i sp t); try done; by rewrite Hpc.
  1-3: apply (clear_inv i sp t); try done; by rewrite Hpc.
  1-3: apply (free_inv i sp t); try done; by rewrite Hpc.
  all: apply (get_inv i t); try done; by rewrite Hpc.
Qed.
End steps.

Lemma init_base cap s n :
  new cap = Ret s -> cap < SENTINEL -> base (init s n) ∅ (seqZ 0 cap).
Proof.
  intros Hn Hc. unfold new in Hn. destruct (0 <? cap) eqn:E; [|done]. simplify_eq. zbool.
  assert (Hu : U.new cap = Ret (U.mk (U.pack 0 0) (initial_next cap) cap 0)).
  { unfold U.new. rewrite (proj2 (Z.ltb_lt 0 cap)), (proj2 (Z.ltb_lt cap SENTINEL)) by lia. done. }
  pose proof (I.init_inv _ _ (S n) Hu) as Hi. exists 0.
  unfold view. cbn [init threads set version]. rewrite fmap_replicate.
  change (present ∅ :: replicate n (abs new_thread)) with (replicate (S n) I.new_thread).
  apply (rebase _ _ _ _ _ 0 Hi); [done|apply (I.inv_threads _ _ Hi)|].
  rewrite zsum_replicate. cbn. by rewrite Z.mul_0_r.
Qed.

Lemma mpmc_init_inv cap s n :
  new cap = Ret s -> cap < SENTINEL -> inv (init s n) (seqZ 0 cap) ∅.
Proof.
  intros Hn Hc. pose proof (init_base cap s n Hn Hc) as Hb.
  unfold new in Hn. destruct (0 <? cap) eqn:E; [|done]. simplify_eq. zbool.
  split; cbn [init set threads data occupied capacity]; try done.
  - apply length_replicate.
  - apply B.bitset_new_wf. unfold fits, SENTINEL in *. lia.
  - intros i _. rewrite B.bitset_new_mem. symmetry. apply bool_decide_eq_false. by intros [].
  - intros i t [-> _]%lookup_replicate. done.
Qed.

(** ** Reachable configurations *)

(** No thread sits between its load of the head and its compare-exchange in
    [alloc_slot] while [2^32] other compare-exchanges succeed. *)
Inductive reach (c0 : config) : config -> list event -> Prop :=
| reach_refl : reach c0 c0 []
| reach_step c evs i a c' e :
    reach c0 c evs -> in_window c -> exec i a c = Some (c', e) ->
    reach c0 c' (evs ++ e).

Lemma exec_capacity i a c c' e : exec i a c = Some (c', e) -> capacity (set c') = capacity (set c).
Proof.
  unfold exec. intros H. destruct (threads c !! i) as [t|]; [|done].
  destruct (act a _ _ t) as [[[s' ver'] [t' e']]|] eqn:Ha; [|done]. simplify_eq. cbn.
  unfold act, run_thread, run_alloc, run_set, run_clear, run_free, run_get in Ha.
  repeat case_match; by simplify_eq.
Qed.

Lemma mpmc_reachable_inv cap s n c evs :
  new cap = Ret s -> cap < SENTINEL -> reach (init s n) c evs ->
  exists free m, spec_run (seqZ 0 cap, ∅) evs = Some (free, m) /\ inv c free m /\
    capacity (set c) = cap.
Proof.
  intros Hn Hc. induction 1 as [|c evs i a c' e _ (f & m & Hf & Hi & Ec) Hw He].
  - exists (seqZ 0 cap), ∅. split; [done|]. split; [by apply mpmc_init_inv|].
    unfold new in Hn. case_match; by simplify_eq.
  - destruct (mpmc_exec_inv c f m Hi i a c' e Hw He) as (f' & m' & Hf' & Hi').
    exists f', m'. rewrite mpmc_spec_run_app, Hf. split; [done|]. split; [done|].
    by rewrite (exec_capacity _ _ _ _ _ He).
Qed.

(** ** Properties *)

(** C4: however the calls of [add], [remove] and [get] interleave in [n]
    threads, the events [evs] are legal moves, one at a time, of a free list
    that starts as [0, 1, ..., cap-1] and a finite map that starts empty; at
    every moment the free list is the one threaded from the head word, a slot
    is marked occupied exactly when it is in the map, and the value stored there
    is the map's; what a finished [add] or [remove] answers is its event; no
    [add] panics, and another call only when its slot is out of range.  The
    condition, part of [reach]: no thread waits between its load of the head and
    its compare-exchange while 2^32 other compare-exchanges succeed.
    (Sequentially consistent interleavings.) *)
Theorem mpmc_linearizable cap s n c evs :
  new cap = Ret s -> cap < SENTINEL -> reach (init s n) c evs ->
  exists free m,
    spec_run (seqZ 0 cap, ∅) evs = Some (free, m) /\
    chain (next (set c)) (extract_head (free_head (set c))) free /\
    (forall i, 0 <= i -> B.mem (occupied (set c)) i = bool_decide (is_Some (m !! i))) /\
    (forall i v, m !! i = Some v -> data (set c) !! Z.to_nat i = Some v) /\
    (forall i t, threads c !! i = Some t ->
       match at_ t with
       | Idle => answered t
       | AddPanicked => False
       | Panicked => cap <= arg t
       | _ => True
       end).
Proof.
  intros Hn Hc Hr. destruct (mpmc_reachable_inv _ _ _ _ _ Hn Hc Hr) as (f & m & Hf & Hi & Ec).
  exists f, m. split; [done|]. split; [|split; [apply Hi|split; [apply Hi|]]].
  - destruct (v_base _ _ _ Hi) as [b Hb]. apply (I.inv_chain _ _ Hb).
  - intros i t Ht. pose proof (v_threads _ _ _ Hi _ _ Ht) as Hok. unfold ok in Hok.
    destruct (at_ t); try done. lia.
Qed.

(** With no call in progress, every slot is on the free list or in the map. *)
Lemma quiescent_slots c free m :
  inv c free m -> Forall (fun t => at_ t = Idle) (threads c) ->
  free ++ (map_to_list m).*1 ≡ₚ seqZ 0 (capacity (set c)).
Proof.
  intros Hi Hidle. destruct (v_base _ _ _ Hi) as [b Hb].
  pose proof (I.inv_perm _ _ Hb) as Hp. cbn [I.threads I.set free_part U.capacity] in Hp.
  assert (Hz : concat (I.held <$> (abs <$> threads c)) = []).
  { clear -Hidle. induction Hidle as [|t l Ht _ IH]; [done|]. rewrite !fmap_cons. cbn [concat].
    rewrite IH, app_nil_r. unfold I.held, abs. cbn. by rewrite Ht. }
  unfold view in Hp. rewrite fmap_cons in Hp. cbn [concat] in Hp.
  by rewrite Hz, app_nil_r in Hp.
Qed.

(** ... and the container satisfies the invariant of the sequential proofs. *)
Lemma quiescent_holds c free m :
  inv c free m -> Forall (fun t => at_ t = Idle) (threads c) -> holds (set c) free m.
Proof.
  intros Hi Hidle. pose proof (quiescent_slots c free m Hi Hidle) as Hp.
  destruct (v_base _ _ _ Hi) as [b Hb]. pose proof (I.inv_cap _ _ Hb) as Hcap. cbn in Hcap.
  pose proof (NoDup_seqZ 0 (capacity (set c))) as Hnd. rewrite <- Hp in Hnd.
  apply NoDup_app in Hnd as (Hnf & Hdis & _).
  split; try apply Hi; try done; [lia|apply (I.inv_len _ _ Hb)| |apply (I.inv_chain _ _ Hb)| |].
  - intros x Hx. apply SENTINEL_fits. destruct (I.inv_next _ _ Hb x Hx) as [?|?]; [by left|].
    right. cbn in *. lia.
  - intros i. split.
    + intros Hf. assert (Hs : i ∈ free ++ (map_to_list m).*1) by (apply elem_of_app; by left).
      rewrite Hp in Hs. apply elem_of_seqZ in Hs. split; [lia|].
      rewrite (v_mem _ _ _ Hi) by lia. apply bool_decide_eq_false. intros Hm.
      apply (Hdis i Hf). by apply present_held in Hm.
    + intros [Hr Hm]. rewrite (v_mem _ _ _ Hi) in Hm by lia. apply bool_decide_eq_false in Hm.
      assert (Hs : i ∈ seqZ 0 (capacity (set c))) by (apply elem_of_seqZ; lia).
      rewrite <- Hp in Hs. apply elem_of_app in Hs as [?|Hs]; [done|].
      destruct Hm. by apply present_held.
  - intros i. destruct (0 <=? i) eqn:E; zbool; cbn.
    + rewrite (v_mem _ _ _ Hi) by done. case_bool_decide as Hm.
      * destruct Hm as [v Hv]. rewrite Hv. symmetry. by apply (v_vals _ _ _ Hi).
      * by apply eq_None_not_Some.
    + apply eq_None_not_Some. intros Hm.
      apply (mem_range c free m Hi) in Hm. lia.
Qed.

Lemma quiescent_len c free m :
  inv c free m -> Forall (fun t => at_ t = Idle) (threads c) -> len (set c) = Z.of_nat (size m).
Proof.
  intros Hi Hidle. unfold len. rewrite (B.count_set_members _ (v_bits _ _ _ Hi)).
  by rewrite (holds_size _ _ _ (quiescent_holds c free m Hi Hidle)).
Qed.

(** C30: no slot is ever lost: when no call is in progress, the container holds,
    in the sense of the sequential proofs of Mpmc.v, the map that the events
    build, and free and occupied slots add up to the capacity. *)
Theorem mpmc_quiescent cap s n c evs :
  new cap = Ret s -> cap < SENTINEL -> reach (init s n) c evs ->
  Forall (fun t => at_ t = Idle) (threads c) ->
  exists free m,
    spec_run (seqZ 0 cap, ∅) evs = Some (free, m) /\
    holds (set c) free m /\
    len (set c) = Z.of_nat (size m) /\
    len (set c) + Z.of_nat (length free) = cap.
Proof.
  intros Hn Hc Hr Hidle. destruct (mpmc_reachable_inv _ _ _ _ _ Hn Hc Hr) as (f & m & Hf & Hi & Ec).
  pose proof (quiescent_holds c f m Hi Hidle) as Hh. exists f, m. do 2 (split; [done|]).
  pose proof (Permutation_length (quiescent_slots c f m Hi Hidle)) as Hp.
  rewrite length_app, length_fmap, length_seqZ, Ec in Hp.
  pose proof (quiescent_len c f m Hi Hidle) as Hsz.
  split; [done|]. rewrite Hsz. rewrite length_map_to_list in Hp.
  pose proof (h_cap _ _ _ Hh). lia.
Qed.

(** ** Two runs *)

Definition window_ok (c : config) : bool :=
  forallb (fun t => match at_ t with
                    | AddCas _ _ _ => version c - seen t <? 2 ^ 32
                    | _ => true
                    end) (threads c).

Fixpoint run (sched : list (nat * action)) (c : config) : option (config * list event) :=
  match sched with
  | [] => Some (c, [])
  | (i, a) :: sched =>
      if window_ok c then
        match exec i a c with
        | None => None
        | Some (c1, e1) =>
            match run sched c1 with
            | None => None
            | Some (c2, e2) => Some (c2, e1 ++ e2)
            end
        end
      else None
  end.

Lemma window_ok_sound c : window_ok c = true -> in_window c.
Proof.
  unfold window_ok. rewrite forallb_forall. intros Hw i t v old n Hi Hpc.
  specialize (Hw t (proj1 (list_elem_of_In _ _) (list_elem_of_lookup_2 _ _ _ Hi))).
  rewrite Hpc in Hw. by apply Z.ltb_lt.
Qed.

Lemma run_reach sched c0 c c' evs0 evs :
  reach c0 c evs0 -> run sched c = Some (c', evs) -> reach c0 c' (evs0 ++ evs).
Proof.
  revert c evs0 evs. induction sched as [|[i a] sched IH]; intros c evs0 evs H0 Hr; cbn in Hr.
  - simplify_eq. by rewrite app_nil_r.
  - destruct (window_ok c) eqn:Hw; [|done].
    destruct (exec i a c) as [[c1 e1]|] eqn:He; [|done].
    destruct (run sched c1) as [[c2 e2]|] eqn:Hr2; [|done]. simplify_eq.
    rewrite app_assoc. apply (IH c1); [|done].
    econstructor; [done|by apply window_ok_sound|done].
Qed.

Definition set2 : MpmcContainer :=
  match new 2 with Ret s => s | _ => mk [] (B.new 0) 0 [] 0 end.

Definition race_end (sched : list (nat * action)) : config :=
  match run sched (init set2 2) with Some (c, _) => c | None => init set2 2 end.
Definition race_events (sched : list (nat * action)) : list event :=
  match run sched (init set2 2) with Some (_, e) => e | None => [] end.

(** Both threads add at the same time; thread 1 wins the head; thread 0 then
    removes what thread 1 added. *)
Definition race : list (nat * action) :=
  let r := Run false in
  [(0, CallAdd 7); (1, CallAdd 8); (0, r); (1, r); (0, r); (1, r); (1, r); (1, r); (0, r);
   (1, r); (0, r); (1, r); (0, r); (0, r); (0, r); (0, r);
   (0, CallRemove 0); (0, r); (0, r); (0, r); (0, r); (0, r); (0, r)]%nat.

Lemma mpmc_init_run_reach sched c evs :
  run sched (init set2 2) = Some (c, evs) -> reach (init set2 2) c evs.
Proof. intros Hr. exact (run_reach sched _ _ c [] evs (reach_refl _) Hr). Qed.

Lemma race_run : run race (init set2 2) = Some (race_end race, race_events race).
Proof. vm_compute. reflexivity. Qed.

Lemma mpmc_linearizable_witness :
  exists free m,
    spec_run (seqZ 0 2, ∅) (race_events race) = Some (free, m) /\
    forall i, 0 <= i ->
      B.mem (occupied (set (race_end race))) i = bool_decide (is_Some (m !! i)).
Proof.
  destruct (mpmc_linearizable 2 set2 2 (race_end race) (race_events race) eq_refl eq_refl
              (mpmc_init_run_reach race _ _ race_run)) as (free & m & H1 & _ & H2 & _).
  exists free, m. split; [exact H1|exact H2].
Defined.

Lemma mpmc_quiescent_witness :
  exists free : list Z,
    len (set (race_end race)) = 1 /\ 1 + Z.of_nat (length free) = 2.
Proof.
  destruct (mpmc_quiescent 2 set2 2 (race_end race) (race_events race) eq_refl eq_refl
              (mpmc_init_run_reach race _ _ race_run)) as (free & m & _ & _ & _ & H).
  - vm_compute. repeat constructor.
  - exists free. assert (E : len (set (race_end race)) = 1) by (vm_compute; reflexivity).
    rewrite E in H. split; [exact E|exact H].
Defined.

(** [get] reads the bit and the value at two instants.  Thread 0 has added 7 in
    slot 0 and calls [get]; it sees the bit; thread 1 removes the slot and adds
    9, which is stored in slot 0 but not in the map yet; thread 0 reads 9. *)
Definition get_race : list (nat * action) :=
  let r := Run false in
  [(0, CallAdd 7); (0, r); (0, r); (0, r); (0, r); (0, r); (0, r); (0, CallGet 0); (0, r);
   (1, CallRemove 0); (1, r); (1, r); (1, r); (1, r); (1, r); (1, r);
   (1, CallAdd 9); (1, r); (1, r); (1, r); (1, r); (0, r)]%nat.

(** What [get] returned was in the map at no time. *)
Example get_sees_unadded :
  (returned <$> threads (race_end get_race) !! 0%nat) = Some (Some (Got (Some 9))) /\
  forallb (fun k => match spec_run (seqZ 0 2, ∅) (take k (race_events get_race)) with
                    | Some st => negb (bool_decide (st.2 !! 0 = Some 9))
                    | None => false
                    end) (seq 0 (S (length (race_events get_race)))) = true.
Proof. vm_compute. split; reflexivity. Qed.
End MpmcThreads.
