(* ===== verification/MpmcLoop.v ===== *)
(** * The threaded tests of MpmcContainer
    (entangle-lockfree/src/mpmc_container.rs, concurrent_add_remove and
    concurrent_add_remove_loom)

    Any number of threads, each adding values and removing them again, as
    programs over the machine of MpmcConc.v.  However their turns fall the loops
    end, and then the container is empty and every slot is free. *)
From S2P Require Import Prelude Rounds Contracts FreeList IndexSet IndexSetConc Bitset Mpmc MpmcConc.
#[local] Open Scope Z_scope.

Module MpmcLoop.
Import MpmcContainer MpmcThreads.

(** [for v in vs { if let Some(slot) = c.add(v) { c.remove(slot); } }]: before
    the next [add], in it, before [remove] or in it, with the values that
    follow; [Failed] is a panic. *)
Inductive loop :=
| Next (vs : list Z)
| Adding (vs : list Z)
| Remove (slot : Z) (vs : list Z)
| Removing (vs : list Z)
| Failed.

Record sys := mkSys { cfg : config; loops : list loop }.

Definition after_add (vs : list Z) (t : thread) : loop :=
  match at_ t with
  | Idle => match returned t with Some (AddedAt (Some slot)) => Remove slot vs | _ => Next vs end
  | AddPanicked | Panicked => Failed
  | _ => Adding vs
  end.

(** The answer of [remove] is ignored. *)
Definition after_remove (vs : list Z) (t : thread) : loop :=
  match at_ t with Idle => Next vs | AddPanicked | Panicked => Failed | _ => Removing vs end.

Definition turn (l : loop) (spurious : bool) : option (action * (thread -> loop)) :=
  match l with
  | Next [] | Failed => None
  | Next (v :: vs) => Some (CallAdd v, after_add vs)
  | Adding vs => Some (Run spurious, after_add vs)
  | Remove slot vs => Some (CallRemove slot, after_remove vs)
  | Removing vs => Some (Run spurious, after_remove vs)
  end.

Definition step (i : nat) (spurious : bool) (s : sys) : sys :=
  match loops s !! i with
  | None => s
  | Some l =>
      match turn l spurious with
      | None => s
      | Some (a, next) =>
          match exec i a (cfg s) with
          | Some (c, _) =>
              let l' := match threads c !! i with Some t => next t | None => Failed end in
              mkSys c (<[i := l']> (loops s))
          | None => mkSys (cfg s) (<[i := Failed]> (loops s))
          end
      end
  end.

(** One thread per list of values. *)
Definition start (c : MpmcContainer) (jobs : list (list Z)) : sys :=
  mkSys (init c (length jobs)) (Next <$> jobs).

(** The values of the tests: four threads with 50 values each, on 64 slots; two
    threads with one value each, on three slots. *)
Definition concurrent_add_remove (c : MpmcContainer) : sys :=
  start c ((fun t => (fun i => t * 100 + i) <$> seqZ 0 50) <$> seqZ 0 4).
Definition concurrent_add_remove_loom (c : MpmcContainer) : sys := start c [[1]; [2]].

(** ** What a thread still has to do *)

(** The place of a thread in the body of its loop: whose step is next, and how
    many steps follow if no one interferes. *)
Definition in_add (p : pc) : bool :=
  match p with
  | AddLoad _ | AddLoop _ _ | AddCas _ _ _ | AddStore _ _ | SetLoad _ _ | SetCas _ _ _ => true
  | _ => false
  end.
Definition in_remove (p : pc) : bool :=
  match p with
  | RemLoad _ | RemCas _ _ | RemData _ | FreeLoad _ _ | FreeLoop _ _ _ | FreeCas _ _ _ => true
  | _ => false
  end.

Definition loop_ok (cap : Z) (t : thread) (l : loop) : Prop :=
  match l with
  | Next _ => at_ t = Idle
  | Adding _ => in_add (at_ t) = true
  | Remove slot _ => at_ t = Idle /\ 0 <= slot < cap
  | Removing _ => in_remove (at_ t) = true /\ 0 <= arg t < cap
  | Failed => False
  end.

(** Successful compare-exchanges on the head that are still to come ... *)
Definition heads_left (x : thread * loop) : Z :=
  match x.2 with
  | Next vs => 2 * Z.of_nat (length vs)
  | Adding vs => 2 * Z.of_nat (length vs) +
      match at_ x.1 with AddLoad _ | AddLoop _ _ | AddCas _ _ _ => 2 | _ => 1 end
  | Remove _ vs | Removing vs => 2 * Z.of_nat (length vs) + 1
  | Failed => 0
  end.

(** ... and on the words of the bitset. *)
Definition words_left (x : thread * loop) : Z :=
  match x.2 with
  | Next vs => 2 * Z.of_nat (length vs)
  | Adding vs => 2 * Z.of_nat (length vs) + 2
  | Remove _ vs => 2 * Z.of_nat (length vs) + 1
  | Removing vs => 2 * Z.of_nat (length vs) +
      match at_ x.1 with RemLoad _ | RemCas _ _ => 1 | _ => 0 end
  | Failed => 0
  end.

(** A thread that has read an old head, or an old word, turns its loop again. *)
Definition late_head (ver : Z) (t : thread) : Z := if seen t <? ver then 2 else 0.
Definition late_word (bs : B.AtomicBitSet) (slot w : Z) : Z :=
  if decide (B.words bs !! Z.to_nat (slot / 64) = Some w) then 0 else 1.

Definition steps_left (ver : Z) (bs : B.AtomicBitSet) (t : thread) : Z :=
  match at_ t with
  | AddLoad _ => 13
  | AddLoop _ _ => 12 + late_head ver t
  | AddCas _ _ _ => 11 + late_head ver t
  | AddStore _ _ => 10
  | SetLoad _ _ => 9
  | SetCas _ slot w => 8 + late_word bs slot w
  | RemLoad _ => 6
  | RemCas slot w => 5 + late_word bs slot w
  | RemData _ => 4
  | FreeLoad _ _ => 3
  | FreeLoop _ _ _ => 2 + late_head ver t
  | FreeCas _ _ _ => 1 + late_head ver t
  | _ => 0
  end.

Definition turns_left (ver : Z) (bs : B.AtomicBitSet) (x : thread * loop) : Z :=
  match x.2 with
  | Next vs => 14 * Z.of_nat (length vs)
  | Adding vs | Removing vs => 14 * Z.of_nat (length vs) + steps_left ver bs x.1
  | Remove _ vs => 14 * Z.of_nat (length vs) + 7
  | Failed => 0
  end.

Lemma late_head_bound ver t : 0 <= late_head ver t <= 2.
Proof. unfold late_head. destruct (_ <? _); lia. Qed.
Lemma late_word_bound bs slot w : 0 <= late_word bs slot w <= 1.
Proof. unfold late_word. case_decide; lia. Qed.
Lemma late_head_now ver t : seen t = ver -> late_head ver t = 0.
Proof. intros <-. unfold late_head. by rewrite Z.ltb_irrefl. Qed.
Lemma late_head_past ver t : seen t < ver -> late_head ver t = 2.
Proof. intros H. unfold late_head. by rewrite (proj2 (Z.ltb_lt _ _)). Qed.
Lemma late_head_goto ver t p : late_head ver (goto t p) = late_head ver t.
Proof. done. Qed.
Lemma late_word_now bs slot w : B.words bs !! Z.to_nat (slot / 64) = Some w -> late_word bs slot w = 0.
Proof. intros H. unfold late_word. by rewrite decide_True. Qed.

(** The slot that a thread has filled and not yet emptied. *)
Definition claims (x : thread * loop) : list Z :=
  match x.2 with
  | Remove slot _ => [slot]
  | Removing _ => match at_ x.1 with RemLoad _ | RemCas _ _ => [arg x.1] | _ => [] end
  | _ => []
  end.

(** What a turn does to thread and container: [dh] and [dw] count the changes of
    the head and of the bitset, which delay other threads. *)
Record closer (c : config) (st : list Z * gmap Z Z) (t : thread) (l : loop) (sp : bool)
    (s' : MpmcContainer) (ver : Z) (t' : thread) (evs : list event) (l' : loop) : Prop := {
  cl_ok : loop_ok (capacity (set c)) t' l';
  cl_version : version c <= ver <= version c + 1;
  cl_heads : heads_left (t', l') + (ver - version c) <= heads_left (t, l);
  cl_words : exists dw, 0 <= dw <= 1 /\ words_left (t', l') + dw <= words_left (t, l) /\
    (dw = 0 -> occupied s' = occupied (set c));
  cl_turns : turns_left ver (occupied s') (t', l') + 1
    <= turns_left (version c) (occupied (set c)) (t, l) + (if sp then 2 else 0);
  cl_claims : forall free' m' j, spec_run st evs = Some (free', m') -> is_Some (m' !! j) ->
    j ∈ claims (t', l') \/ is_Some (st.2 !! j) /\ j ∉ claims (t, l);
}.

Section one.
Context (c : config) (free : list Z) (m : gmap Z Z) (Hinv : inv c free m).
Context (i : nat) (t : thread) (Hi : threads c !! i = Some t) (sp : bool).
#[local] Abbreviation s := (set c).
#[local] Abbreviation ver := (version c).

(** A thread whose compare-exchange on the head fails has read an old head. *)
Lemma old_head old :
  match at_ t with AddCas _ o _ | FreeCas _ _ o => o = old | _ => False end ->
  free_head s <> old -> late_head ver t = 2.
Proof using Hinv Hi.
  intros Hpc Hne. apply late_head_past. destruct (v_base _ _ _ Hinv) as [b Hb].
  pose proof (I.inv_threads _ _ Hb (S i) _ (view_thread c m i t Hi)) as Hok.
  unfold I.thread_ok in Hok. cbn [abs I.at_ I.seen I.set I.version] in Hok.
  destruct (at_ t) as [| | |v o n| | | | | | | | |slot v o| | | |]; try done; subst o; cbn [abs_pc] in Hok.
  - destruct Hok as (((Hle & Hfr) & _) & _). cbn in Hfr. destruct (decide (seen t = ver)); [|lia].
    by destruct Hne; rewrite Hfr.
  - destruct Hok as (_ & _ & (Hle & Hfr) & _). cbn in Hfr. destruct (decide (seen t = ver)); [|lia].
    by destruct Hne; rewrite Hfr.
Qed.

Lemma old_word slot w cur : word s slot = Some cur -> cur <> w -> late_word (occupied s) slot w = 1.
Proof using Type. intros Hw Hne. unfold late_word, word in *. rewrite decide_False; [done|congruence]. Qed.

(** A failure of the compare-exchange costs nothing that was not counted. *)
Lemma late_or (late bound : Z) : sp = true \/ late = bound -> 0 <= late <= bound -> bound <= 2 ->
  bound <= late + (if sp then 2 else 0).
Proof using Type. intros [E| ->]; [rewrite E|destruct sp]; lia. Qed.

Lemma slot_range slot : slot ∈ I.held (abs t) -> 0 <= slot < capacity s.
Proof using Hinv Hi. intros Hs. by destruct (held_slot c m free (v_base _ _ _ Hinv) i t slot Hi Hs). Qed.

(** The fields of [closer] for one step, [dw] the changes of the bitset. *)
Ltac unfold_left :=
  unfold heads_left, words_left, turns_left; cbn -[Z.mul steps_left];
  unfold steps_left; cbn -[Z.mul]; rewrite ?late_head_goto, ?late_head_now by done.
Ltac measure Ea := unfold_left; rewrite ?Ea.
Ltac follow Ea :=
  let j := fresh "j" in let Hs := fresh "Hs" in let Hj := fresh "Hj" in
  intros ? ? j Hs Hj; unfold claims; cbn in Hs |- *; rewrite ?Ea;
  repeat (case_match; try discriminate Hs); simplify_eq;
  rewrite ?lookup_insert_is_Some', ?lookup_delete_is_Some in Hj;
  rewrite ?list_elem_of_singleton, ?elem_of_nil;
  first [clear -Hj; tauto
        |match goal with |- j = ?x \/ _ => destruct (decide (j = x)); tauto end
        |destruct Hj as [Hj|Hj]; [left; by symmetry|right; by split; [|intros []]]
        |right; split; [tauto|intros ->; destruct Hj; congruence]].
Ltac closes Ea dw :=
  split; [try done|cbn; lia|measure Ea; lia|exists dw; split; [lia|]; split; [measure Ea; lia|done]
         |measure Ea; first [lia|destruct sp; lia]
         |follow Ea].
#[local] Abbreviation runs r l next :=
  (exists s' ver' t' e, r = Some (s', ver', (t', e)) /\ (ok s' t' -> closer c (free, m) t l sp s' ver' t' e (next t'))).

(** ** One step of each loop *)

Lemma alloc_closer vs :
  match at_ t with AddLoad _ | AddLoop _ _ | AddCas _ _ _ => True | _ => False end ->
  runs (run_alloc sp s ver t) (Adding vs) (after_add vs).
Proof using Hinv Hi.
  intros Hpc. pose proof (late_head_bound ver t) as Hlate.
  assert (Hobs : forall v cur, heads_left (t, Adding vs) = 2 * Z.of_nat (length vs) + 2 ->
    14 * Z.of_nat (length vs) + 13 <= turns_left ver (occupied s) (t, Adding vs) + (if sp then 2 else 0) ->
    runs (Some (s, ver, observe v cur ver t)) (Adding vs) (after_add vs)).
  { intros v cur Hh Ht. unfold observe.
    destruct (_ =? SENTINEL); (do 4 eexists; split; [done|]); intros _;
      (split; [done|lia|rewrite Hh; unfold_left; lia|exists 0; split; [lia|]; split; [unfold_left; lia|done]
              |etrans; [|exact Ht]; unfold_left; lia|follow Hpc]). }
  unfold run_alloc. destruct (at_ t) as [|v|v old|v old n| | | | | | | | | | | | |] eqn:Ea; try done.
  - apply Hobs; measure Ea; destruct sp; lia.
  - destruct (_ =? SENTINEL); [do 4 eexists; split; [done|]; intros _; closes Ea 0|].
    destruct (next s !! _) as [n|]; (do 4 eexists; split; [done|]); [intros _|by intros []].
    closes Ea 0.
  - destruct (compare_exchange_weak _ _ _ _) as [w|cur] eqn:Ec.
    + do 4 eexists. split; [done|]. intros _. closes Ea 0.
    + apply cas_err_why in Ec. apply Hobs; measure Ea; [done|].
      pose proof (late_or (late_head ver t) 2). destruct Ec as [->|Ec]; [lia|].
      rewrite (old_head old) by (rewrite ?Ea; done). destruct sp; lia.
Qed.

Lemma set_closer vs :
  match at_ t with AddStore _ _ | SetLoad _ _ | SetCas _ _ _ => True | _ => False end ->
  runs (run_set sp s ver t) (Adding vs) (after_add vs).
Proof using Hinv Hi.
  intros Hpc. pose proof (slot_range) as Hr. unfold I.held, abs in Hr. cbn in Hr.
  assert (Hobs : forall v slot cur, word s slot = Some cur -> 0 <= slot < capacity s ->
    heads_left (t, Adding vs) = 2 * Z.of_nat (length vs) + 1 ->
    14 * Z.of_nat (length vs) + 9 <= turns_left ver (occupied s) (t, Adding vs) + (if sp then 2 else 0) ->
    runs (Some (s, ver, observe_set v slot cur t)) (Adding vs) (after_add vs)).
  { intros v slot cur Hw Hs Hh Ht. unfold observe_set.
    destruct (negb _); (do 4 eexists; split; [done|]); intros _;
      (split; [done|lia|rewrite Hh; unfold_left; lia|exists 0; split; [lia|]; split; [unfold_left; lia|done]
              |etrans; [|exact Ht]; unfold_left; rewrite ?late_word_now by done; lia|follow Hpc]). }
  unfold run_set. destruct (at_ t) as [| | | |v slot|v slot|v slot w| | | | | | | | | |] eqn:Ea; try done;
    cbn in Hr; pose proof (Hr slot ltac:(left)) as Hs.
  - destruct (data s !! _); (do 4 eexists; split; [done|]); [intros _; closes Ea 0|by intros []].
  - destruct (word_in_range c free m Hinv slot Hs) as [w Hw]. rewrite Hw.
    apply (Hobs v slot w Hw Hs); measure Ea; destruct sp; lia.
  - destruct (word_in_range c free m Hinv slot Hs) as [cur Hw]. rewrite Hw.
    pose proof (late_word_bound (occupied s) slot w) as Hlate.
    destruct (compare_exchange_weak _ _ _ _) as [w'|cur'] eqn:Ec.
    + do 4 eexists. split; [done|]. intros _. closes Ea 1.
    + pose proof (cas_err _ _ _ _ _ Ec) as ->. apply cas_err_why in Ec.
      apply (Hobs v slot cur Hw Hs); measure Ea; [done|].
      destruct Ec as [->|Ec]; [lia|]. rewrite (old_word slot w cur Hw Ec). destruct sp; lia.
Qed.

Lemma clear_closer vs :
  match at_ t with RemLoad _ | RemCas _ _ | RemData _ => True | _ => False end -> 0 <= arg t < capacity s ->
  runs (run_clear sp s ver t) (Removing vs) (after_remove vs).
Proof using Hinv Hi.
  intros Hpc Harg. pose proof (v_threads _ _ _ Hinv _ _ Hi) as Hok. unfold ok in Hok.
  assert (Hobs : forall cur, word s (arg t) = Some cur -> claims (t, Removing vs) = [arg t] ->
    words_left (t, Removing vs) = 2 * Z.of_nat (length vs) + 1 ->
    14 * Z.of_nat (length vs) + 6 <= turns_left ver (occupied s) (t, Removing vs) + (if sp then 2 else 0) ->
    runs (Some (s, ver, observe_clear (arg t) cur t)) (Removing vs) (after_remove vs)).
  { intros cur Hw Hcl Hh Ht. unfold observe_clear.
    destruct (Z.land _ _ =? 0); (do 4 eexists; split; [done|]); intros _;
      (split; [done|lia|unfold_left; lia|exists 0; split; [lia|]; split; [rewrite Hh; unfold_left; lia|done]
              |etrans; [|exact Ht]; unfold_left; rewrite ?late_word_now by done; lia
              |rewrite Hcl; follow Hpc]). }
  unfold run_clear. destruct (at_ t) as [| | | | | | |slot|slot w|slot| | | | | | |] eqn:Ea; try done;
    (assert (arg t = slot) as <- by tauto); clear Hok.
  - destruct (word_in_range c free m Hinv (arg t) Harg) as [w Hw]. rewrite Hw.
    apply (Hobs w Hw); [unfold claims; cbn; by rewrite Ea|measure Ea; destruct sp; lia..].
  - destruct (word_in_range c free m Hinv (arg t) Harg) as [cur Hw]. rewrite Hw.
    pose proof (late_word_bound (occupied s) (arg t) w) as Hlate.
    destruct (compare_exchange_weak _ _ _ _) as [w'|cur'] eqn:Ec.
    + do 4 eexists. split; [done|]. intros _. closes Ea 1.
    + pose proof (cas_err _ _ _ _ _ Ec) as ->. apply cas_err_why in Ec.
      apply (Hobs cur Hw); [unfold claims; cbn; by rewrite Ea|by measure Ea|measure Ea].
      destruct Ec as [->|Ec]; [lia|]. rewrite (old_word (arg t) w cur Hw Ec). destruct sp; lia.
  - destruct (data_in_range c free m Hinv (arg t) Harg) as [v Hv]. rewrite Hv.
    do 4 eexists. split; [done|]. intros _. closes Ea 0.
Qed.

Lemma free_closer vs :
  match at_ t with FreeLoad _ _ | FreeLoop _ _ _ | FreeCas _ _ _ => True | _ => False end -> 0 <= arg t < capacity s ->
  runs (run_free sp s ver t) (Removing vs) (after_remove vs).
Proof using Hinv Hi.
  intros Hpc Harg. pose proof (v_threads _ _ _ Hinv _ _ Hi) as Hok. unfold ok in Hok.
  pose proof (late_head_bound ver t) as Hlate. unfold run_free.
  destruct (at_ t) as [| | | | | | | | | |slot v|slot v old|slot v old| | | |] eqn:Ea; try done;
    (assert (arg t = slot) as <- by tauto); clear Hok.
  - do 4 eexists. split; [done|]. intros _. closes Ea 0.
  - destruct (index_ok (next s) (arg t)) as [n Hn]; [rewrite (next_length c free m Hinv); lia|].
    rewrite Hn. do 4 eexists. split; [done|]. intros _. closes Ea 0.
  - destruct (compare_exchange_weak _ _ _ _) as [w|cur] eqn:Ec;
      (do 4 eexists; split; [done|]); intros _; [closes Ea 0|].
    apply cas_err_why in Ec. split; try done; [cbn; lia|measure Ea; lia|exists 0; split; [lia|]; split; [measure Ea; lia|done]| |follow Ea].
    measure Ea. destruct Ec as [->|Ec]; [lia|]. rewrite (old_head old) by (rewrite ?Ea; done).
    destruct sp; lia.
Qed.

(** A thread that is not at its end can act. *)
Lemma mpmc_turn_acts l a next :
  loop_ok (capacity s) t l -> turn l sp = Some (a, next) -> runs (act a s ver t) l next.
Proof using Hinv Hi.
  intros Hl Ht. destruct l as [[|v vs]|vs|slot vs|vs|]; cbn in Ht; try done; injection Ht as <- <-; cbn in Hl.
  - cbn [act]. rewrite Hl. do 4 eexists. split; [done|]. intros _. closes Hl 0.
  - cbn [act]. unfold run_thread.
    pose proof (alloc_closer vs) as H1. pose proof (set_closer vs) as H2.
    destruct (at_ t); try done; first [by apply H1|by apply H2].
  - destruct Hl as [Hl Hs]. cbn [act]. rewrite Hl, decide_True.
    + do 4 eexists. split; [done|]. intros _. closes Hl 0.
    + destruct (v_base _ _ _ Hinv) as [b Hb]. pose proof (I.inv_cap _ _ Hb) as Hc. cbn in Hc.
      unfold fits, SENTINEL in *. lia.
  - destruct Hl as [Hl Hs]. cbn [act]. unfold run_thread.
    pose proof (clear_closer vs) as H1. pose proof (free_closer vs) as H2.
    destruct (at_ t); try done; first [by apply H1|by apply H2].
Qed.
End one.

(** ** All threads together *)

Definition views (s : sys) : list (thread * loop) := zip (threads (cfg s)) (loops s).

(** A change of the head costs every thread at most two turns, a change of the
    bitset one. *)
Definition work (s : sys) : Z :=
  zsum (turns_left (version (cfg s)) (occupied (set (cfg s)))) (views s) +
  Z.of_nat (length (loops s)) * (2 * zsum heads_left (views s) + zsum words_left (views s)).

Definition seen_nonneg (c : config) : Prop :=
  0 <= version c /\ forall i t, threads c !! i = Some t -> 0 <= seen t.

(** [limit] bounds the changes of the head in the whole run; the slots in use
    are those that threads are about to empty. *)
Record good (limit : Z) (s : sys) : Prop := {
  g_inv : exists free m, inv (cfg s) free m /\
    forall j, is_Some (m !! j) -> exists x, x ∈ views s /\ j ∈ claims x;
  g_seen : seen_nonneg (cfg s);
  g_loops : Forall2 (loop_ok (capacity (set (cfg s)))) (threads (cfg s)) (loops s);
  g_limit : version (cfg s) + zsum heads_left (views s) <= limit;
}.

Definition ended (l : loop) : Prop := l = Next [].
#[export] Instance ended_dec l : Decision (ended l).
Proof. unfold ended. destruct l as [[|v vs]|vs|slot vs|vs|]; first [by left|by right]. Defined.

#[local] Abbreviation moves := (moves loops ended).
#[local] Abbreviation run_loops := (run_loops step).

Lemma heads_left_nonneg x : 0 <= heads_left x.
Proof. unfold heads_left. repeat case_match; lia. Qed.
Lemma words_left_nonneg x : 0 <= words_left x.
Proof. unfold words_left. repeat case_match; lia. Qed.
Lemma steps_left_nonneg ver bs t : 0 <= steps_left ver bs t.
Proof.
  unfold steps_left. pose proof (late_head_bound ver t).
  destruct (at_ t) as [| | | | | |v slot w| |slot w| | | | | | | |]; try lia;
    pose proof (late_word_bound bs slot w); lia.
Qed.
Lemma mpmc_turns_left_nonneg ver bs x : 0 <= turns_left ver bs x.
Proof. unfold turns_left. pose proof (steps_left_nonneg ver bs x.1). repeat case_match; lia. Qed.

Lemma mpmc_work_nonneg s : 0 <= work s.
Proof.
  unfold work. pose proof (zsum_nonneg _ (views s) heads_left_nonneg).
  pose proof (zsum_nonneg _ (views s) words_left_nonneg).
  pose proof (zsum_nonneg _ (views s) (mpmc_turns_left_nonneg (version (cfg s)) (occupied (set (cfg s))))). nia.
Qed.

Lemma act_seen_nonneg a s ver t s' ver' t' e :
  act a s ver t = Some (s', ver', (t', e)) -> 0 <= ver -> 0 <= seen t -> 0 <= seen t'.
Proof.
  unfold act, run_thread, run_alloc, run_set, run_clear, run_free, run_get, observe, observe_set, observe_clear.
  intros H ??. destruct a as [v|slot|slot|sp]; destruct (at_ t); try done;
    repeat case_match; simplify_eq; cbn in *; lia.
Qed.

Lemma mpmc_in_window_good limit s : limit < 2 ^ 32 -> good limit s -> in_window (cfg s).
Proof.
  intros Hl [_ [Hv Hs] _ Hlim] i t v old n Hi _. specialize (Hs i t Hi).
  pose proof (zsum_nonneg _ (views s) heads_left_nonneg). lia.
Qed.

(** What changes of the head and of the bitset cost another thread. *)
Lemma mpmc_turns_left_later ver ver' bs bs' dw x :
  ver <= ver' <= ver + 1 -> 0 <= dw <= 1 -> (dw = 0 -> bs' = bs) ->
  turns_left ver' bs' x <= turns_left ver bs x + (2 * (ver' - ver) + dw).
Proof.
  intros Hv Hw He. assert (Hs : forall t, steps_left ver' bs' t <= steps_left ver bs t + (2 * (ver' - ver) + dw)).
  { intros t. assert (Hh : late_head ver' t <= late_head ver t + 2 * (ver' - ver)).
    { pose proof (late_head_bound ver t). pose proof (late_head_bound ver' t).
      destruct (decide (ver' = ver)) as [->|]; lia. }
    assert (Hb : forall slot w, late_word bs' slot w <= late_word bs slot w + dw).
    { intros slot w. pose proof (late_word_bound bs slot w). pose proof (late_word_bound bs' slot w).
      destruct (decide (dw = 0)) as [E|]; [rewrite (He E)|]; lia. }
    unfold steps_left. destruct (at_ t) as [| | | | | |v slot w| |slot w| | | | | | | |]; try lia;
      pose proof (Hb slot w); lia. }
  unfold turns_left. specialize (Hs x.1). repeat case_match; lia.
Qed.

(** A turn of thread [i], with what the machine and the invariant say of it. *)
Lemma mpmc_turn_exec limit s i sp t l a next :
  limit < 2 ^ 32 -> good limit s -> threads (cfg s) !! i = Some t ->
  loop_ok (capacity (set (cfg s))) t l -> turn l sp = Some (a, next) ->
  exists s' ver t' e, exec i a (cfg s) = Some (mkC s' ver (<[i := t']> (threads (cfg s))), e) /\
    capacity s' = capacity (set (cfg s)) /\ 0 <= seen t' /\
    exists free m free' m', (forall j, is_Some (m !! j) -> exists x, x ∈ views s /\ j ∈ claims x) /\
      spec_run (free, m) e = Some (free', m') /\
      inv (mkC s' ver (<[i := t']> (threads (cfg s)))) free' m' /\
      closer (cfg s) (free, m) t l sp s' ver t' e (next t').
Proof.
  intros Hlim Hg Hi Hl Ht. pose proof (mpmc_in_window_good _ _ Hlim Hg) as Hwin.
  destruct Hg as [(free & m & Hinv & Hcl) [Hv Hs] _ _].
  destruct (mpmc_turn_acts (cfg s) free m Hinv i t Hi sp l a next Hl Ht) as (s' & ver & t' & e & Ha & Hc).
  assert (He : exec i a (cfg s) = Some (mkC s' ver (<[i := t']> (threads (cfg s))), e))
    by (unfold exec; by rewrite Hi, Ha).
  exists s', ver, t', e. split; [done|]. split; [by apply (exec_capacity _ _ _ _ _ He)|].
  split; [eapply act_seen_nonneg; eauto|].
  destruct (mpmc_exec_inv _ _ _ Hinv _ _ _ _ Hwin He) as (free' & m' & Hsp & Hinv').
  exists free, m, free', m'. do 3 (split; [done|]). apply Hc.
  apply (v_threads _ _ _ Hinv' i). cbn. apply list_lookup_insert_eq. by eapply lookup_lt_Some.
Qed.

(** The measure after a turn. *)
Lemma mpmc_work_step s i sp st t l s' ver t' e l' :
  views s !! i = Some (t, l) -> length (views s) = length (loops s) ->
  closer (cfg s) st t l sp s' ver t' e l' ->
  let s2 := mkSys (mkC s' ver (<[i := t']> (threads (cfg s)))) (<[i := l']> (loops s)) in
  views s2 = <[i := (t', l')]> (views s) /\
  version (cfg s2) + zsum heads_left (views s2) <= version (cfg s) + zsum heads_left (views s) /\
  work s2 + 1 <= work s + (if sp then 2 else 0).
Proof.
  intros Hx Hlv [_ Hver Hh (dw & Hdw & Hw & Hsame) Ht _] s2.
  assert (Hviews : views s2 = <[i := (t', l')]> (views s)) by (unfold views, s2; cbn; by rewrite <- insert_zip_with).
  assert (Hhs : zsum heads_left (views s2) = zsum heads_left (views s) - heads_left (t, l) + heads_left (t', l'))
    by (rewrite Hviews; by rewrite (zsum_insert _ _ _ _ _ Hx)).
  assert (Hws : zsum words_left (views s2) = zsum words_left (views s) - words_left (t, l) + words_left (t', l'))
    by (rewrite Hviews; by rewrite (zsum_insert _ _ _ _ _ Hx)).
  split; [done|]. split; [cbn [cfg version]; unfold s2 in *; cbn [cfg version]; lia|].
  unfold work. rewrite Hhs, Hws, Hviews. change (version (cfg s2)) with ver.
  change (occupied (set (cfg s2))) with (occupied s').
  assert (length (loops s2) = length (loops s)) as -> by (unfold s2; cbn; by rewrite length_insert).
  pose proof (zsum_step (turns_left (version (cfg s)) (occupied (set (cfg s)))) (turns_left ver (occupied s'))
    (views s) i (t, l) (t', l') (2 * (ver - version (cfg s)) + dw) Hx ltac:(lia)
    ltac:(intros; by apply mpmc_turns_left_later)) as Hsum.
  rewrite Hlv in Hsum. nia.
Qed.

(** Every slot in use is still about to be emptied by some thread. *)
Lemma mpmc_claims_step (V : list (thread * loop)) i x y (m m' : gmap Z Z) :
  V !! i = Some x -> (forall j, is_Some (m !! j) -> exists x, x ∈ V /\ j ∈ claims x) ->
  (forall j, is_Some (m' !! j) -> j ∈ claims y \/ is_Some (m !! j) /\ j ∉ claims x) ->
  forall j, is_Some (m' !! j) -> exists z, z ∈ <[i := y]> V /\ j ∈ claims z.
Proof.
  intros Hx Hm Hm' j Hj. destruct (Hm' j Hj) as [Hy|[Hjm Hn]].
  - exists y. split; [|done]. apply list_elem_of_insert. by eapply lookup_lt_Some.
  - destruct (Hm j Hjm) as (z & Hz & Hjz). exists z. split; [|done].
    apply list_elem_of_lookup in Hz as [k Hk]. apply list_elem_of_lookup. exists k.
    rewrite list_lookup_insert_ne; [done|]. intros ->. congruence.
Qed.

(** One turn: nothing fails, and unless the thread is done the work shrinks. *)
Lemma mpmc_loop_step limit s i sp :
  limit < 2 ^ 32 -> good limit s -> moves (good limit) work 2 s i sp (step i sp s).
Proof.
  intros Hlim Hg. pose proof Hg as [_ [Hv Hs] Hall Hlimit].
  unfold step. destruct (loops s !! i) as [l|] eqn:El; [|by apply moves_still; [..|congruence]].
  destruct (Forall2_lookup_r _ _ _ _ _ Hall El) as (t & Et & Hl).
  destruct (turn l sp) as [[a next]|] eqn:Eturn.
  2: { apply moves_still; [done..|]. intros l' El'. rewrite El in El'. injection El' as <-.
       by destruct l as [[|v vs]|vs|slot vs|vs|]. }
  destruct (mpmc_turn_exec limit s i sp t l a next Hlim Hg Et Hl Eturn)
    as (s' & ver & t' & e & He & Hcap & Hseen & free & m & free' & m' & Hcl & Hsp & Hinv & Hc).
  rewrite He. cbn [threads]. rewrite list_lookup_insert_eq by (by eapply lookup_lt_Some).
  assert (Hx : views s !! i = Some (t, l)) by (unfold views; by rewrite lookup_zip_with, Et, El).
  assert (Hlv : length (views s) = length (loops s))
    by (unfold views; rewrite length_zip_with, (Forall2_length _ _ _ Hall); lia).
  destruct (mpmc_work_step s i sp _ t l s' ver t' e (next t') Hx Hlv Hc) as (Hviews & Hh & Hw).
  destruct Hc as [Hok Hver _ _ _ Hclaims]. set (s2 := mkSys _ _) in *.
  split; [split|..|lia|done].
  - exists free', m'. split; [done|]. rewrite Hviews. apply (mpmc_claims_step _ _ (t, l) _ m); [done..|].
    intros j. by apply (Hclaims free' m').
  - split; [cbn; lia|]. intros j u [(<- & <- & _)|[_ Hj]]%list_lookup_insert_Some; [done|by eapply Hs].
  - cbn. rewrite Hcap. by apply Forall2_insert.
  - lia.
  - unfold s2. cbn. by rewrite length_insert.
  - intros j Hj. unfold s2. cbn. by rewrite list_lookup_insert_ne.
Qed.

Lemma mpmc_ended_stays s i sp : finished loops ended s -> step i sp s = s.
Proof.
  unfold finished, step. rewrite Forall_forall. intros Hf. destruct (loops s !! i) as [l|] eqn:El; [|done].
  by rewrite (Hf l) by (by eapply list_elem_of_lookup_2).
Qed.

(** ** What the tests assert *)

Lemma mpmc_loops_start cap c jobs :
  new cap = Ret c -> cap < SENTINEL ->
  let s := start c jobs in let total := Z.of_nat (length (concat jobs)) in
  good (2 * total) s /\ length (loops s) = length jobs /\
  work s = (14 + 6 * Z.of_nat (length jobs)) * total.
Proof.
  intros Hnew Hcap s total.
  assert (Hz : views s = (fun vs => (new_thread, Next vs)) <$> jobs).
  { unfold views, s, start, init. cbn. clear. induction jobs as [|j jobs IH]; [done|]. cbn. by f_equal. }
  assert (Hsum : forall f k, (forall vs, f (new_thread, Next vs) = k * Z.of_nat (length vs)) ->
    zsum f (views s) = k * total).
  { intros f k Hf. rewrite Hz. unfold total. clear -Hf.
    induction jobs as [|vs jobs IH]; [cbn; lia|]. rewrite fmap_cons. cbn [zsum concat]. rewrite length_app, Hf. lia. }
  assert (Hlen : length (loops s) = length jobs) by (unfold s, start; cbn; apply length_fmap).
  split; [split|split; [done|]].
  - exists (seqZ 0 cap), ∅. split; [by apply mpmc_init_inv|]. by intros j [].
  - split; [done|]. by intros i t [-> _]%lookup_replicate.
  - unfold s, start, init. cbn. clear. induction jobs as [|j jobs IH]; constructor; done.
  - rewrite (Hsum heads_left 2) by done. unfold s. cbn. lia.
  - unfold work. rewrite (Hsum heads_left 2), (Hsum words_left 2), (Hsum _ 14), Hlen by done. lia.
Qed.

(** ([concurrent_add_remove] and [concurrent_add_remove_loom])  Threads that
    add values and remove them again, in whatever order they run: no thread
    panics and all loops end, within [14 + 6 n] rounds per value and two more for
    every spurious failure; at the end the container is empty and all its slots
    are on the free list. *)
Theorem concurrent_add_remove_ends cap c jobs rounds :
  new cap = Ret c -> cap < SENTINEL -> 2 * Z.of_nat (length (concat jobs)) < 2 ^ 32 ->
  Forall (round (length jobs)) rounds ->
  (14 + 6 * Z.of_nat (length jobs)) * Z.of_nat (length (concat jobs)) +
    2 * Z.of_nat (spurious_count (concat rounds)) < Z.of_nat (length rounds) ->
  let e := run_loops (concat rounds) (start c jobs) in
  Forall (fun l => l = Next []) (loops e) /\ len (set (cfg e)) = 0 /\
  exists free, free ≡ₚ seqZ 0 (capacity (set (cfg e))) /\
    chain (next (set (cfg e))) (extract_head (free_head (set (cfg e)))) free.
Proof.
  intros Hnew Hcap Hlim Hr Hlen e. destruct (mpmc_loops_start cap c jobs Hnew Hcap) as (Hg & Hl & Hw).
  pose proof (fun s i sp => mpmc_loop_step _ s i sp Hlim) as Hmoves.
  assert (Hf : finished loops ended e).
  { apply (rounds_end _ _ _ _ work 2 ltac:(lia) Hmoves mpmc_ended_stays _ _ mpmc_work_nonneg Hg); [by rewrite Hl|].
    rewrite Hw. lia. }
  destruct (run_loops_good _ _ _ _ _ _ Hmoves (concat rounds) _ Hg) as [(free & m & Hinv & Hcl) _ Hall _].
  fold e in Hinv, Hcl, Hall. split; [done|].
  assert (Hidle : Forall (fun t => at_ t = Idle) (threads (cfg e))).
  { apply Forall_lookup. intros i t Ht. destruct (Forall2_lookup_l _ _ _ _ _ Hall Ht) as (l & El & Hl').
    unfold finished in Hf. rewrite Forall_lookup in Hf. by rewrite (Hf i l El) in Hl'. }
  assert (Hm : m = ∅).
  { apply map_empty. intros j. apply eq_None_not_Some. intros Hj. destruct (Hcl j Hj) as ([t l] & Hin & Hjc).
    apply elem_of_zip_r in Hin. unfold finished in Hf. rewrite Forall_forall in Hf.
    specialize (Hf l Hin). unfold ended in Hf. subst l. by apply elem_of_nil in Hjc. }
  subst m. split; [by rewrite (quiescent_len _ _ _ Hinv Hidle), map_size_empty|].
  pose proof (quiescent_slots _ _ _ Hinv Hidle) as Hp. rewrite map_to_list_empty, app_nil_r in Hp.
  exists free. split; [done|]. destruct (v_base _ _ _ Hinv) as [b Hb]. apply (I.inv_chain _ _ Hb).
Qed.

(** The loom test, its threads in lock step, every tenth turn of the first with a
    spurious failure. *)
Definition loom_turns (spurious : bool) : list (nat * bool) := [(0, spurious); (1, false)]%nat.
Definition loom_schedule : list (list (nat * bool)) :=
  concat (replicate 8 (loom_turns true :: replicate 9 (loom_turns false))).
Definition container3 : MpmcContainer :=
  match new 3 with Ret c => c | _ => mk [] (B.new 0) 0 [] 0 end.

Lemma concurrent_add_remove_ends_witness :
  let e := run_loops (concat loom_schedule) (concurrent_add_remove_loom container3) in
  loops e = [Next []; Next []] /\ len (set (cfg e)) = 0.
Proof.
  destruct (concurrent_add_remove_ends 3 container3 [[1]; [2]] loom_schedule) as (_ & Hl & _).
  - vm_compute. reflexivity.
  - vm_compute. reflexivity.
  - vm_compute. reflexivity.
  - unfold loom_schedule. cbn.
    repeat (constructor; [intros [|[|i]] Hi; [vm_compute; left|vm_compute; right; left|lia]|]). constructor.
  - vm_compute. reflexivity.
  - split; [vm_compute; reflexivity|exact Hl].
Defined.
End MpmcLoop.
