(* ===== verification/PoolAlloc.v ===== *)
(** * PoolAllocator (crates/entangle-transport/src/pool_alloc.rs)

    Fixed-size chunks of a segment, addressed by [PointerOffset]s and handed
    out by an index allocator.  Everything is proved against the
    [IndexAllocator] interface of IndexSet.v; [pool_rep p free live] says that
    the chunks [live] are allocated and the chunks [free] are not. *)
From S2P Require Import Prelude Contracts FreeList IndexSet.
#[local] Open Scope Z_scope.
#[local] Open Scope rust_scope.

Module PoolAllocator.
Import PointerOffset.

Section pool.
Context {A E : Type} `{IndexAllocator A E}.

(** [pub struct PoolAllocator { index_set, chunk_size, segment_id, base_offset }]. *)
Record PoolAllocator := mk {
  index_set : A;
  chunk_size : Z;
  segment_id : Z;
  base_offset : Z;
}.

Definition with_index_set (p : PoolAllocator) (s : A) : PoolAllocator :=
  mk s (chunk_size p) (segment_id p) (base_offset p).

(** [PoolAllocator::new], given what [UniqueIndexSet::new(capacity)] does. *)
Definition new (index_set : outcome A) (chunk_size segment_id base_offset : Z)
    : outcome PoolAllocator :=
  if 0 <? chunk_size then
    let! s := index_set in Ret (mk s chunk_size segment_id base_offset)
  else Panic.

(** [self.base_offset + (index as usize) * self.chunk_size], as [PointerOffset]. *)
Definition chunk_offset (p : PoolAllocator) (idx : Z) : PointerOffset :=
  PointerOffset.new (segment_id p)
    (wrapping_add 64 (base_offset p) (wrapping_mul 64 idx (chunk_size p))).

Definition allocate (p : PoolAllocator) : outcome (result PointerOffset LoanError * PoolAllocator) :=
  let! (r, s) := ia_acquire (index_set p) in
  match r with
  | Err _ => Ret (Err OutOfMemory, with_index_set p s)
  | Ok idx => Ret (Ok (chunk_offset p idx), with_index_set p s)
  end.

Definition chunk_index (p : PoolAllocator) (off : PointerOffset) : Z :=
  let local := wrapping_sub 64 (PointerOffset.offset off) (base_offset p) in
  wrap 32 (local / chunk_size p).

Definition deallocate (p : PoolAllocator) (off : PointerOffset) : outcome PoolAllocator :=
  let! s := ia_release (index_set p) (chunk_index p off) in
  Ret (with_index_set p s).

Definition allocated_count (p : PoolAllocator) : Z := ia_borrowed (index_set p).
Definition capacity (p : PoolAllocator) : Z := ia_capacity (index_set p).
Definition available (p : PoolAllocator) : Z :=
  Z.max 0 (ia_capacity (index_set p) - ia_borrowed (index_set p)).
Definition resolve_offset (p : PoolAllocator) (off : PointerOffset) : Z :=
  PointerOffset.offset off.

(** The chunks fit below [2^48], the range of a [PointerOffset]'s offset. *)
Record geometry (p : PoolAllocator) : Prop := {
  geo_chunk : 0 < chunk_size p;
  geo_seg : fits 16 (segment_id p);
  geo_base : 0 <= base_offset p;
  geo_end : base_offset p + ia_capacity (index_set p) * chunk_size p <= 2 ^ 48;
}.

(** What a client relies on. *)
Record pool_rep (p : PoolAllocator) (free live : list Z) : Prop := {
  pr_rep : ia_rep (index_set p) free live;
  pr_geo : geometry p;
}.

Context `{!IndexAllocatorLaws A E}.

Section geometry.
Context (p : PoolAllocator) (Hg : geometry p).

Lemma chunk_fits i :
  0 <= i < ia_capacity (index_set p) -> fits 48 (base_offset p + i * chunk_size p).
Proof using Hg.
  intros Hi. destruct Hg. unfold fits. split; [nia|].
  assert (i * chunk_size p + chunk_size p <= ia_capacity (index_set p) * chunk_size p) by nia.
  lia.
Qed.

(** No arithmetic of [allocate] overflows or is truncated. *)
Lemma offset_chunk i :
  0 <= i < ia_capacity (index_set p) ->
  PointerOffset.offset (chunk_offset p i) = base_offset p + i * chunk_size p.
Proof using Hg.
  intros Hi. pose proof (chunk_fits i Hi) as Hf. destruct Hg. unfold chunk_offset.
  assert (fits 64 (base_offset p + i * chunk_size p)) by (unfold fits in *; lia).
  assert (0 <= i * chunk_size p) by nia.
  assert (fits 64 (i * chunk_size p)) by (unfold fits in *; lia).
  unfold wrapping_add, wrapping_mul. rewrite (wrap_small 64 (i * _)), wrap_small by done.
  by apply offset_new.
Qed.

Lemma segment_chunk i : PointerOffset.segment_id (chunk_offset p i) = segment_id p.
Proof using Hg.
  destruct Hg. unfold chunk_offset. apply segment_id_new; [done|]. by apply wrap_fits.
Qed.

(** [deallocate] finds the chunk that any byte of it belongs to. *)
Lemma chunk_index_inside off i :
  0 <= i < ia_capacity (index_set p) -> ia_capacity (index_set p) <= 2 ^ 32 ->
  base_offset p + i * chunk_size p <= PointerOffset.offset off
    < base_offset p + (i + 1) * chunk_size p ->
  chunk_index p off = i.
Proof using Hg.
  intros Hi Hc Ho. pose proof (chunk_fits i Hi). destruct Hg. unfold chunk_index, wrapping_sub.
  assert ((i + 1) * chunk_size p <= ia_capacity (index_set p) * chunk_size p) by nia.
  assert (0 <= i * chunk_size p) by nia.
  rewrite (wrap_small 64) by (unfold fits in *; lia).
  replace ((PointerOffset.offset off - base_offset p) / chunk_size p) with i.
  - apply wrap_small. unfold fits. lia.
  - apply (Z.div_unique _ _ _ (PointerOffset.offset off - base_offset p - i * chunk_size p)); nia.
Qed.

Lemma chunk_index_offset i :
  0 <= i < ia_capacity (index_set p) -> ia_capacity (index_set p) <= 2 ^ 32 ->
  chunk_index p (chunk_offset p i) = i.
Proof using Hg.
  intros Hi Hc. apply chunk_index_inside; [done|done|]. rewrite offset_chunk by done.
  destruct Hg. nia.
Qed.

(** Different chunks share no byte. *)
Lemma chunks_disjoint i j b :
  i <> j ->
  base_offset p + i * chunk_size p <= b < base_offset p + (i + 1) * chunk_size p ->
  ~ base_offset p + j * chunk_size p <= b < base_offset p + (j + 1) * chunk_size p.
Proof using Hg. destruct Hg. intros Hne Hi Hj. nia. Qed.
End geometry.

Section operations.
Context (p : PoolAllocator) (free live : list Z) (Hr : pool_rep p free live).

Lemma pool_capacity_bound : 0 < ia_capacity (index_set p) <= 2 ^ 32.
Proof using Hr IndexAllocatorLaws0.
  pose proof (ia_rep_capacity _ _ _ (pr_rep _ _ _ Hr)). unfold SENTINEL in *. lia.
Qed.

Lemma pool_index_bound i : i ∈ free ++ live -> 0 <= i < ia_capacity (index_set p).
Proof using Hr IndexAllocatorLaws0. apply ia_rep_bound, Hr. Qed.

Lemma pool_inj i j :
  i ∈ free ++ live -> j ∈ free ++ live -> chunk_offset p i = chunk_offset p j -> i = j.
Proof using Hr IndexAllocatorLaws0.
  intros Hi%pool_index_bound Hj%pool_index_bound He.
  pose proof pool_capacity_bound.
  rewrite <- (chunk_index_offset p (pr_geo _ _ _ Hr) i),
          <- (chunk_index_offset p (pr_geo _ _ _ Hr) j), He by (done || lia). done.
Qed.
End operations.

Lemma geometry_same p s :
  geometry p -> ia_capacity s = ia_capacity (index_set p) -> geometry (with_index_set p s).
Proof. intros [] Hc. split; cbn; try done. by rewrite Hc. Qed.

Lemma allocate_some p i free live :
  pool_rep p (i :: free) live ->
  exists p', allocate p = Ret (Ok (chunk_offset p i), p') /\ pool_rep p' free (i :: live)
    /\ (forall j, chunk_offset p' j = chunk_offset p j) /\ capacity p' = capacity p.
Proof using IndexAllocatorLaws0.
  intros [Hrep Hg]. destruct (ia_acquire_cons _ _ _ _ Hrep) as (s' & Ha & Hr' & Hc).
  unfold allocate. rewrite Ha. cbn. eexists. split; [done|].
  split; [split; [done|by apply geometry_same]|]. done.
Qed.

Lemma allocate_none p live :
  pool_rep p [] live -> allocate p = Ret (Err OutOfMemory, p).
Proof using IndexAllocatorLaws0.
  intros [Hrep Hg]. destruct (ia_acquire_nil _ _ Hrep) as (e & Ha).
  unfold allocate. rewrite Ha. cbn. by destruct p.
Qed.

Lemma deallocate_some p i free live :
  pool_rep p free (i :: live) ->
  exists p', deallocate p (chunk_offset p i) = Ret p' /\ pool_rep p' (i :: free) live
    /\ (forall j, chunk_offset p' j = chunk_offset p j) /\ capacity p' = capacity p.
Proof using IndexAllocatorLaws0.
  intros Hpr. pose proof (pool_capacity_bound _ _ _ Hpr).
  pose proof (pool_index_bound _ _ _ Hpr i ltac:(apply elem_of_app; right; left)).
  destruct Hpr as [Hrep Hg]. destruct (ia_release_held _ _ _ _ Hrep) as (s' & Ha & Hr' & Hc).
  unfold deallocate. rewrite chunk_index_offset by (done || lia). rewrite Ha. cbn.
  eexists. split; [done|]. split; [split; [done|by apply geometry_same]|]. done.
Qed.

Lemma pool_rep_perm p free live live' :
  pool_rep p free live -> live ≡ₚ live' -> pool_rep p free live'.
Proof using IndexAllocatorLaws0.
  intros [Hrep Hg] Hp. split; [|done]. by eapply ia_rep_held_perm.
Qed.

Lemma pool_counts p free live :
  pool_rep p free live ->
  allocated_count p = Z.of_nat (length live) /\ available p = Z.of_nat (length free).
Proof using IndexAllocatorLaws0.
  intros [Hrep Hg]. pose proof (ia_rep_length _ _ _ Hrep).
  unfold allocated_count, available. rewrite (ia_rep_borrowed _ _ _ Hrep). lia.
Qed.
End pool.
Arguments PoolAllocator A : clear implicits.
End PoolAllocator.
