(* ===== verification/Channel.v ===== *)
(** * ZeroCopyChannel (crates/entangle-transport/src/channel.rs, mock.rs)

    Two SPSC queues of raw pointer offsets and a connection state.  The
    channel is shown to implement two bounded FIFO queues; MockZeroCopyChannel
    is the unbounded version that the transport's tests use. *)
From S2P Require Import Prelude Contracts Spsc.
#[local] Open Scope Z_scope.
#[local] Open Scope rust_scope.

Module ZeroCopyChannel.
Import PointerOffset.

(** [pub struct ZeroCopyChannel]. *)
Record ZeroCopyChannel := mk {
  send_queue : SpscQueue.SpscQueue;
  return_queue : SpscQueue.SpscQueue;
  state_cell : Z;
  sender_id : Z;
  receiver_id : Z;
}.

Definition new (capacity sender_id receiver_id : Z) : ZeroCopyChannel :=
  mk (SpscQueue.new capacity) (SpscQueue.new capacity) (ChannelState_as_u8 Creating)
     sender_id receiver_id.

Definition with_send (c : ZeroCopyChannel) q :=
  mk q (return_queue c) (state_cell c) (sender_id c) (receiver_id c).
Definition with_return (c : ZeroCopyChannel) q :=
  mk (send_queue c) q (state_cell c) (sender_id c) (receiver_id c).
Definition with_state (c : ZeroCopyChannel) s :=
  mk (send_queue c) (return_queue c) s (sender_id c) (receiver_id c).

Definition connect (c : ZeroCopyChannel) := with_state c (ChannelState_as_u8 Connected).
Definition disconnect (c : ZeroCopyChannel) := with_state c (ChannelState_as_u8 Disconnected).

Definition state (c : ZeroCopyChannel) : ChannelState :=
  match state_cell c with
  | 0 => Creating
  | 1 => Connected
  | _ => Disconnected
  end.

Definition send (c : ZeroCopyChannel) (offset : PointerOffset)
    : outcome (result unit SendError * ZeroCopyChannel) :=
  if decide (state c = Disconnected) then Ret (Err SendConnectionBroken, c)
  else
    let! (ok, q) := SpscQueue.push (send_queue c) (raw offset) in
    let c := with_send c q in
    if negb ok then Ret (Err QueueFull, c) else Ret (Ok tt, c).

Definition receive (c : ZeroCopyChannel)
    : outcome (result PointerOffset ReceiveError * ZeroCopyChannel) :=
  if bool_decide (state c = Disconnected) && SpscQueue.is_empty (send_queue c)
  then Ret (Err RecvConnectionBroken, c)
  else
    let! (v, q) := SpscQueue.pop (send_queue c) in
    match v with
    | Some v => Ret (Ok (from_raw v), with_send c q)
    | None => Ret (Err Empty, with_send c q)
    end.

(** The loop of [return_offset] spins until the push succeeds. *)
Fixpoint return_offset (fuel : nat) (c : ZeroCopyChannel) (offset : PointerOffset)
    : outcome ZeroCopyChannel :=
  match fuel with
  | O => OutOfFuel
  | S fuel =>
      let! (ok, q) := SpscQueue.push (return_queue c) (raw offset) in
      let c := with_return c q in
      if ok then Ret c else return_offset fuel c offset
  end.

Definition reclaim (c : ZeroCopyChannel) : outcome (option PointerOffset * ZeroCopyChannel) :=
  let! (v, q) := SpscQueue.pop (return_queue c) in
  Ret (from_raw <$> v, with_return c q).

Definition pending_count (c : ZeroCopyChannel) : Z := SpscQueue.len (send_queue c).
Definition return_count (c : ZeroCopyChannel) : Z := SpscQueue.len (return_queue c).

(** ** The two FIFO queues a channel is

    [chan_rep c cap sent returned]: [sent] waits for the receiver, [returned]
    for the sender, each in order; both queues hold up to [cap] offsets. *)
Definition queue_rep (q : SpscQueue.SpscQueue) (cap : Z) (l : list PointerOffset) : Prop :=
  SpscQueue.capacity q = cap /\ exists n, SpscQueue.rep q n (raw <$> l).

Record chan_rep (c : ZeroCopyChannel) (cap : Z) (sent returned : list PointerOffset) : Prop := {
  cr_send : queue_rep (send_queue c) cap sent;
  cr_return : queue_rep (return_queue c) cap returned;
}.

Lemma from_raw_raw v : from_raw (raw v) = v.
Proof. by destruct v. Qed.

Section queue.
Context (q : SpscQueue.SpscQueue) (cap : Z) (l : list PointerOffset) (Hq : queue_rep q cap l).

Lemma queue_push v :
  SpscQueue.push q (raw v) = Ret (false, q) /\ Z.of_nat (length l) = cap \/
  exists q', SpscQueue.push q (raw v) = Ret (true, q') /\ queue_rep q' cap (l ++ [v]) /\
    Z.of_nat (length l) < cap.
Proof using Hq.
  destruct Hq as [<- [n Hr]]. pose proof (SpscQueue.rep_le _ _ _ Hr) as Hle.
  rewrite length_fmap in Hle.
  destruct (decide (Z.of_nat (length l) = SpscQueue.capacity q)) as [E|].
  - left. split; [|done]. eapply SpscQueue.push_full; [done|]. by rewrite length_fmap.
  - right. destruct (SpscQueue.push_rep q n _ (raw v) Hr) as (q' & -> & Hr' & Hc).
    { rewrite length_fmap. lia. }
    exists q'. split; [done|]. split; [|lia]. split; [done|]. exists n.
    by rewrite fmap_app.
Qed.

Lemma queue_pop :
  match l with
  | [] => SpscQueue.pop q = Ret (None, q)
  | x :: l => exists q', SpscQueue.pop q = Ret (Some (raw x), q') /\ queue_rep q' cap l
  end.
Proof using Hq.
  destruct Hq as [<- [n Hr]]. destruct l as [|x l'].
  - by eapply SpscQueue.pop_empty.
  - destruct (SpscQueue.pop_rep _ _ _ _ Hr) as (q' & -> & Hr' & Hc).
    exists q'. split; [done|]. split; [done|eauto].
Qed.

Lemma queue_is_empty : SpscQueue.is_empty q = bool_decide (l = []).
Proof using Hq.
  destruct Hq as [_ [n Hr]]. rewrite (SpscQueue.is_empty_rep _ _ _ Hr). by destruct l.
Qed.

Lemma queue_len : SpscQueue.len q = Z.of_nat (length l).
Proof using Hq.
  destruct Hq as [_ [n Hr]]. rewrite (SpscQueue.len_rep _ _ _ Hr). by rewrite length_fmap.
Qed.
End queue.

Lemma chan_new cap s r :
  0 <= cap <= 2 ^ 63 ->
  let c := new cap s r in
  let n := SpscQueue.capacity (send_queue c) in
  cap <= n /\ chan_rep c n [] [] /\ state c = Creating.
Proof.
  intros Hc. cbn zeta. pose proof (SpscQueue.new_capacity _ Hc) as [Hle _].
  split; [exact Hle|]. split; [|done].
  split; (split; [done|exists 0; by apply SpscQueue.new_rep]).
Qed.

Section operations.
Context (c : ZeroCopyChannel) (cap : Z) (sent returned : list PointerOffset).
Context (Hr : chan_rep c cap sent returned).

Lemma chan_send v :
  state c <> Disconnected ->
  (send c v = Ret (Err QueueFull, c) /\ Z.of_nat (length sent) = cap) \/
  exists c', send c v = Ret (Ok tt, c') /\ chan_rep c' cap (sent ++ [v]) returned /\
    state_cell c' = state_cell c /\ Z.of_nat (length sent) < cap.
Proof using Hr.
  intros Hs. unfold send. rewrite decide_False by done.
  destruct Hr as [Hq Hret]. destruct (queue_push _ _ _ Hq v) as [[-> He]|(q & -> & Hq' & Hlt)].
  - left. cbn. by destruct c.
  - right. cbn. eexists. split; [done|]. split; [by split|by split].
Qed.

Lemma chan_send_disconnected v :
  state c = Disconnected -> send c v = Ret (Err SendConnectionBroken, c).
Proof using. intros Hs. unfold send. by rewrite decide_True. Qed.

Lemma chan_receive :
  match sent with
  | v :: sent =>
      exists c', receive c = Ret (Ok v, c') /\ chan_rep c' cap sent returned /\
        state_cell c' = state_cell c
  | [] => receive c =
      Ret (Err (if decide (state c = Disconnected) then RecvConnectionBroken else Empty), c)
  end.
Proof using Hr.
  destruct Hr as [Hq Hret]. unfold receive. rewrite (queue_is_empty _ _ _ Hq).
  pose proof (queue_pop _ _ _ Hq) as Hp. destruct sent as [|v l].
  - case_decide as Hs; [by rewrite bool_decide_true|]. rewrite bool_decide_false by done.
    cbn. rewrite Hp. cbn. by destruct c.
  - rewrite andb_false_r. destruct Hp as (q & -> & Hq'). cbn.
    rewrite from_raw_raw. eexists. split; [done|]. split; [by split|done].
Qed.

Lemma chan_return fuel v :
  (0 < fuel)%nat -> Z.of_nat (length returned) < cap ->
  exists c', return_offset fuel c v = Ret c' /\ chan_rep c' cap sent (returned ++ [v]) /\
    state_cell c' = state_cell c.
Proof using Hr.
  intros Hf Hlt. destruct fuel as [|fuel]; [lia|]. cbn. destruct Hr as [Hq Hret].
  destruct (queue_push _ _ _ Hret v) as [[_ He]|(q & -> & Hq' & _)]; [lia|].
  cbn. eexists. split; [done|]. split; [by split|done].
Qed.

(** A full return queue makes [return_offset] spin for ever. *)
Lemma chan_return_spins fuel v :
  Z.of_nat (length returned) = cap -> return_offset fuel c v = OutOfFuel.
Proof using Hr.
  intros He. induction fuel as [|fuel IH]; [done|]. cbn.
  destruct (queue_push _ _ _ (cr_return _ _ _ _ Hr) v) as [[-> _]|(q & _ & _ & ?)]; [|lia].
  cbn. destruct c; apply IH.
Qed.

Lemma chan_reclaim :
  match returned with
  | v :: returned =>
      exists c', reclaim c = Ret (Some v, c') /\ chan_rep c' cap sent returned /\
        state_cell c' = state_cell c
  | [] => reclaim c = Ret (None, c)
  end.
Proof using Hr.
  destruct Hr as [Hq Hret]. unfold reclaim.
  pose proof (queue_pop _ _ _ Hret) as Hp. destruct returned as [|v l].
  - rewrite Hp. cbn. by destruct c.
  - destruct Hp as (q & -> & Hq'). cbn. rewrite from_raw_raw. eexists. split; [done|].
    split; [by split|done].
Qed.

Lemma chan_counts :
  pending_count c = Z.of_nat (length sent) /\ return_count c = Z.of_nat (length returned).
Proof using Hr.
  destruct Hr. split; by eapply queue_len.
Qed.
End operations.

(** ** The channel as a state machine

    One call each; what it answers; and the abstract channel. *)
Inductive call :=
| Connect | Disconnect | Send (off : PointerOffset) | Receive
| Return (off : PointerOffset) | Reclaim.

Inductive reply :=
| Done
| Sent (r : result unit SendError)
| Received (r : result PointerOffset ReceiveError)
| Reclaimed (r : option PointerOffset).

Definition do_call (fuel : nat) (c : ZeroCopyChannel) (o : call)
    : outcome (reply * ZeroCopyChannel) :=
  match o with
  | Connect => Ret (Done, connect c)
  | Disconnect => Ret (Done, disconnect c)
  | Send off => let! (r, c) := send c off in Ret (Sent r, c)
  | Receive => let! (r, c) := receive c in Ret (Received r, c)
  | Return off => let! c := return_offset fuel c off in Ret (Done, c)
  | Reclaim => let! (r, c) := reclaim c in Ret (Reclaimed r, c)
  end.

Record spec_channel := {
  sp_state : ChannelState;
  sp_sent : list PointerOffset;
  sp_returned : list PointerOffset;
}.

Definition spec_call (cap : Z) (m : spec_channel) (o : call) : option (reply * spec_channel) :=
  let '(Build_spec_channel st sent ret) := m in
  match o with
  | Connect => Some (Done, Build_spec_channel Connected sent ret)
  | Disconnect => Some (Done, Build_spec_channel Disconnected sent ret)
  | Send off =>
      Some (if decide (st = Disconnected) then (Sent (Err SendConnectionBroken), m)
            else if Z.of_nat (length sent) =? cap then (Sent (Err QueueFull), m)
            else (Sent (Ok tt), Build_spec_channel st (sent ++ [off]) ret))
  | Receive =>
      Some (match sent with
            | v :: sent => (Received (Ok v), Build_spec_channel st sent ret)
            | [] => (Received (Err (if decide (st = Disconnected) then RecvConnectionBroken
                                    else Empty)), m)
            end)
  | Return off =>
      if Z.of_nat (length ret) =? cap then None
      else Some (Done, Build_spec_channel st sent (ret ++ [off]))
  | Reclaim =>
      Some (match ret with
            | v :: ret => (Reclaimed (Some v), Build_spec_channel st sent ret)
            | [] => (Reclaimed None, m)
            end)
  end.

(** [None]: the call never comes back. *)
Fixpoint spec_calls (cap : Z) (m : spec_channel) (os : list call)
    : option (list reply * spec_channel) :=
  match os with
  | [] => Some ([], m)
  | o :: os =>
      p ← spec_call cap m o; q ← spec_calls cap p.2 os; Some (p.1 :: q.1, q.2)
  end.

Fixpoint do_calls (fuel : nat) (c : ZeroCopyChannel) (os : list call)
    : outcome (list reply * ZeroCopyChannel) :=
  match os with
  | [] => Ret ([], c)
  | o :: os =>
      let! (r, c) := do_call fuel c o in
      let! (rs, c) := do_calls fuel c os in Ret (r :: rs, c)
  end.

Definition implements (c : ZeroCopyChannel) (cap : Z) (m : spec_channel) : Prop :=
  state c = sp_state m /\ chan_rep c cap (sp_sent m) (sp_returned m).

Lemma chan_do_call_spec fuel c cap m o :
  (0 < fuel)%nat -> implements c cap m ->
  match spec_call cap m o with
  | Some (r, m') => exists c', do_call fuel c o = Ret (r, c') /\ implements c' cap m'
  | None => do_call fuel c o = OutOfFuel
  end.
Proof.
  intros Hf [Hst Hr]. destruct m as [st sent ret]. cbn in Hst, Hr. destruct o; cbn.
  - eexists. split; [done|]. split; [done|]. by destruct Hr.
  - eexists. split; [done|]. split; [done|]. by destruct Hr.
  - case_decide as Hd.
    + rewrite chan_send_disconnected by congruence. cbn. eexists. split; [done|]. by split.
    + destruct (chan_send _ _ _ _ Hr off) as [[-> He]|(c' & -> & Hr' & Hs & Hlt)]; [congruence|..].
      * rewrite (proj2 (Z.eqb_eq _ _) He). cbn. eexists. split; [done|]. by split.
      * destruct (_ =? _) eqn:E; zbool; [lia|]. cbn. eexists. split; [done|].
        split; [|done]. unfold state in *. by rewrite Hs.
  - pose proof (chan_receive _ _ _ _ Hr) as Hp. destruct sent as [|v sent].
    + rewrite Hp, Hst. cbn. eexists. split; [done|]. by split.
    + destruct Hp as (c' & -> & Hr' & Hs). cbn. eexists. split; [done|].
      split; [|done]. unfold state in *. by rewrite Hs.
  - destruct (_ =? _) eqn:E; zbool.
    + by rewrite (chan_return_spins _ _ _ _ Hr).
    + destruct (chan_return _ _ _ _ Hr fuel off Hf) as (c' & -> & Hr' & Hs).
      { destruct Hr as [_ [Hc [n Hq]]]. pose proof (SpscQueue.rep_le _ _ _ Hq).
        rewrite length_fmap in *. lia. }
      cbn. eexists. split; [done|]. split; [|done]. unfold state in *. by rewrite Hs.
  - pose proof (chan_reclaim _ _ _ _ Hr) as Hp. destruct ret as [|v ret].
    + rewrite Hp. cbn. eexists. split; [done|]. by split.
    + destruct Hp as (c' & -> & Hr' & Hs). cbn. eexists. split; [done|].
      split; [|done]. unfold state in *. by rewrite Hs.
Qed.

(** C26: A channel behaves, for every sequence of connect, disconnect, send,
    receive, return and reclaim calls, as two FIFO queues of at least the
    requested capacity with a connection state: a send fails exactly when the
    channel is disconnected or its queue is full, a disconnected channel still
    delivers what was sent before, and [return_offset] is the only call that
    may fail to come back, exactly when the return queue is full. *)
Theorem channel_refines_queues fuel cap s r os :
  (0 < fuel)%nat -> 0 <= cap <= 2 ^ 63 ->
  exists n, cap <= n /\
    match spec_calls n (Build_spec_channel Creating [] []) os with
    | Some (rs, m) => exists c', do_calls fuel (new cap s r) os = Ret (rs, c') /\ implements c' n m
    | None => do_calls fuel (new cap s r) os = OutOfFuel
    end.
Proof.
  intros Hf Hc. destruct (chan_new cap s r Hc) as (Hle & Hr & Hs).
  set (n := SpscQueue.capacity _) in *. exists n. split; [done|].
  assert (Hi : implements (new cap s r) n (Build_spec_channel Creating [] [])) by by split.
  revert Hi. generalize (new cap s r) as c, (Build_spec_channel Creating [] []) as m.
  clearbody n. clear -Hf. induction os as [|o os IH]; intros c m Hi; [by exists c|].
  pose proof (chan_do_call_spec fuel c n m o Hf Hi) as Hd. cbn [spec_calls do_calls].
  destruct (spec_call n m o) as [[r1 m1]|]; cbn [mbind option_bind].
  - destruct Hd as (c1 & -> & Hi1). specialize (IH c1 m1 Hi1). cbn. revert IH.
    destruct (spec_calls n m1 os) as [[rs m2]|]; intros IH; cbn.
    + destruct IH as (c2 & -> & Hi2). cbn. by exists c2.
    + by rewrite IH.
  - by rewrite Hd.
Qed.

Lemma channel_refines_queues_witness :
  exists n, 2 <= n /\
    let os := [Connect; Send (from_raw 7); Send (from_raw 8); Send (from_raw 9); Receive; Disconnect;
               Send (from_raw 5); Receive; Receive; Return (from_raw 7); Reclaim] in
    match spec_calls n (Build_spec_channel Creating [] []) os with
    | Some (rs, m) => exists c', do_calls 1 (new 2 1 2) os = Ret (rs, c') /\ implements c' n m
    | None => do_calls 1 (new 2 1 2) os = OutOfFuel
    end.
Proof. apply (channel_refines_queues 1 2 1 2); [lia|lia]. Defined.

Example channel_run :
  (let! (rs, _) := do_calls 1 (new 2 1 2)
     [Connect; Send (from_raw 7); Send (from_raw 8); Send (from_raw 9); Receive; Disconnect;
      Send (from_raw 5); Receive; Receive; Return (from_raw 7); Reclaim] in Ret rs)
  = Ret [Done; Sent (Ok tt); Sent (Ok tt); Sent (Err QueueFull); Received (Ok (from_raw 7)); Done;
         Sent (Err SendConnectionBroken); Received (Ok (from_raw 8));
         Received (Err RecvConnectionBroken); Done; Reclaimed (Some (from_raw 7))].
Proof. vm_compute. reflexivity. Qed.

End ZeroCopyChannel.

(** ** MockZeroCopyChannel (mock.rs) *)
Module MockZeroCopyChannel.

Record MockZeroCopyChannel := mk { send_queue : list Z; return_queue : list Z }.

Definition new : MockZeroCopyChannel := mk [] [].

Definition send (c : MockZeroCopyChannel) (offset : Z) : MockZeroCopyChannel :=
  mk (send_queue c ++ [offset]) (return_queue c).

Definition receive (c : MockZeroCopyChannel) : option Z * MockZeroCopyChannel :=
  match send_queue c with
  | [] => (None, c)
  | v :: l => (Some v, mk l (return_queue c))
  end.

Definition return_slot (c : MockZeroCopyChannel) (offset : Z) : MockZeroCopyChannel :=
  mk (send_queue c) (return_queue c ++ [offset]).

Definition reclaim (c : MockZeroCopyChannel) : option Z * MockZeroCopyChannel :=
  match return_queue c with
  | [] => (None, c)
  | v :: l => (Some v, mk (send_queue c) l)
  end.

End MockZeroCopyChannel.
