(* ===== verification/Shm.v ===== *)
(** * SharedMemory (crates/entangle-platform/src/shm.rs, error.rs)

    The RAII wrapper of POSIX shared memory.  The system calls (the nix crate
    and the kernel behind it) are the operations of the class [Posix]; the
    behaviour their manual pages document is the class [PosixSpec], in terms of
    the names of the objects, their sizes and contents, and the objects that
    descriptors and mappings refer to.  [ToyOs] is one system that has it. *)
From Stdlib Require Import Ascii.
From S2P Require Import Prelude.
#[local] Open Scope Z_scope.
#[local] Open Scope rust_scope.

(** [PlatformError] of error.rs; an [std::io::Error] is its message. *)
Inductive PlatformError :=
| SharedMemoryCreate (name reason : string)
| SharedMemoryOpen (name reason : string)
| SharedMemoryUnlink (name reason : string)
| Mmap (reason : string)
| FileLockError (reason : string)
| EventError (reason : string)
| SignalError (reason : string)
| ProcessMonitorError (reason : string)
| Io (reason : string).

#[global] Instance PlatformError_eq_dec : EqDecision PlatformError.
Proof. solve_decision. Defined.

(** [Display for PlatformError]. *)
Definition PlatformError_display (e : PlatformError) : string :=
  match e with
  | SharedMemoryCreate name reason =>
      "shared memory creation failed for '" ++ name ++ "': " ++ reason
  | SharedMemoryOpen name reason => "shared memory open failed for '" ++ name ++ "': " ++ reason
  | SharedMemoryUnlink name reason =>
      "shared memory unlink failed for '" ++ name ++ "': " ++ reason
  | Mmap reason => "mmap failed: " ++ reason
  | FileLockError reason => "file lock error: " ++ reason
  | EventError reason => "event notification error: " ++ reason
  | SignalError reason => "signal handling error: " ++ reason
  | ProcessMonitorError reason => "process monitor error: " ++ reason
  | Io reason => "IO error: " ++ reason
  end%string.

(** The system calls of shm.rs and the accesses to mapped memory; each takes
    the state of the system and gives the next one. *)
Class Posix := {
  Os : Type;
  Fd : Type;
  shm_open_excl : Os -> string -> result Fd string * Os;
  shm_open_rdwr : Os -> string -> result Fd string * Os;
  ftruncate : Os -> Fd -> Z -> result unit string * Os;
  fstat_size : Os -> Fd -> result Z string * Os;
  mmap : Os -> Fd -> Z -> result Z string * Os;
  munmap : Os -> Z -> Z -> result unit string * Os;
  shm_unlink : Os -> string -> result unit string * Os;
  zero_bytes : Os -> Z -> Z -> Os;
  store_u32 : Os -> Z -> Z -> Z -> Os;
  load_u32 : Os -> Z -> Z -> Z;
}.

(** What does not change: the contents, the sizes, the mappings, the names. *)
Class PosixView `{Posix} := {
  names : Os -> gmap string Z;
  size_of : Os -> Z -> Z;
  cell : Os -> Z -> Z -> Z;
  fd_object : Os -> Fd -> option Z;
  mapped : Os -> Z -> option Z;
}.

Section frames.
Context `{PosixView}.
Definition same_memory (os os' : Os) : Prop :=
  (forall o, size_of os' o = size_of os o) /\ (forall o b, cell os' o b = cell os o b).
Definition same_maps (os os' : Os) : Prop :=
  forall a o, mapped os a = Some o -> mapped os' a = Some o.
Definition same_fds (os os' : Os) : Prop :=
  forall fd o, fd_object os fd = Some o -> fd_object os' fd = Some o.
End frames.

(** The documented behaviour. *)
Class PosixSpec `{PosixView} := {
  open_excl_spec os n :
    match shm_open_excl os n with
    | (Ok fd, os') =>
        names os !! n = None /\ exists o,
          names os' = <[n := o]> (names os) /\ fd_object os' fd = Some o /\
          (forall m, names os !! m <> Some o) /\
          same_memory os os' /\ same_maps os os'
    | (Err _, os') => os' = os
    end;
  open_rdwr_spec os n :
    match shm_open_rdwr os n with
    | (Ok fd, os') =>
        exists o, names os !! n = Some o /\ fd_object os' fd = Some o /\
          names os' = names os /\ same_memory os os' /\ same_maps os os'
    | (Err _, os') => os' = os
    end;
  ftruncate_spec os fd o size :
    fd_object os fd = Some o ->
    match ftruncate os fd size with
    | (Ok _, os') =>
        size_of os' o = size /\ names os' = names os /\ same_maps os os' /\ same_fds os os'
    | (Err _, os') => os' = os
    end;
  fstat_spec os fd o :
    fd_object os fd = Some o ->
    match fstat_size os fd with
    | (Ok s, os') => s = size_of os o /\ os' = os
    | (Err _, os') => os' = os
    end;
  mmap_spec os fd o len :
    fd_object os fd = Some o ->
    match mmap os fd len with
    | (Ok a, os') =>
        mapped os' a = Some o /\ mapped os a = None /\ names os' = names os /\
        same_memory os os' /\ same_maps os os'
    | (Err _, os') => os' = os
    end;
  munmap_spec os a len :
    match munmap os a len with
    | (Ok _, os') => names os' = names os /\ same_memory os os'
    | (Err _, os') => os' = os
    end;
  unlink_spec os n :
    match shm_unlink os n with
    | (Ok _, os') =>
        names os' = delete n (names os) /\ same_memory os os' /\ same_maps os os'
    | (Err _, os') => os' = os
    end;
  zero_bytes_spec os a o len :
    mapped os a = Some o ->
    let os' := zero_bytes os a len in
    names os' = names os /\ (forall o, size_of os' o = size_of os o) /\ same_maps os os' /\
    (forall b, 0 <= b -> b + 4 <= len -> cell os' o b = 0);
  store_u32_spec os a o b v :
    mapped os a = Some o ->
    let os' := store_u32 os a b v in
    names os' = names os /\ (forall o, size_of os' o = size_of os o) /\ same_maps os os' /\
    cell os' o b = v /\ (forall b', b' + 4 <= b \/ b + 4 <= b' -> cell os' o b' = cell os o b');
  load_u32_spec os a o b :
    mapped os a = Some o -> load_u32 os a b = cell os o b;
}.

(** The lower-case hexadecimal digits of [{:016x}] and [{:032x}]. *)
Definition hex_digit (d : Z) : ascii :=
  ascii_of_nat (Z.to_nat (if d <? 10 then 48 + d else 87 + d)).

Fixpoint to_hex (width : nat) (x : Z) : string :=
  match width with
  | O => EmptyString
  | S w => to_hex w (x / 16) ++ String (hex_digit (x mod 16)) EmptyString
  end%string.

Module SharedMemory.

(** [pub struct SharedMemory { ptr, size, name, is_owner }]. *)
Record SharedMemory := mk {
  ptr : Z;
  size : Z;
  name : string;
  is_owner : bool;
}.

(** [normalize_name]; [macos] is [cfg!(target_os = "macos")] and [hash] the
    standard library's [DefaultHasher]. *)
Definition normalize_name (macos : bool) (hash : string -> Z) (name : string) : string :=
  let n := if String.prefix "/" name then name else String.append "/" name in
  if macos && (30 <? Z.of_nat (String.length n))
  then String.append "/e_" (to_hex 16 (hash n))
  else n.

Section shm.
Context `{Posix} (macos : bool) (hash : string -> Z).
#[local] Abbreviation normalize := (normalize_name macos hash).

Definition do_mmap (os : Os) (fd : Fd) (size : Z) (name : string) : result Z PlatformError * Os :=
  if size =? 0 then (Err (Mmap "size must be non-zero"), os)
  else
    match mmap os fd size with
    | (Err e, os) => (Err (Mmap ("mmap for '" ++ name ++ "': " ++ e)%string), os)
    | (Ok ptr, os) =>
        if ptr =? 0 then (Err (Mmap "mmap returned null"), os) else (Ok ptr, os)
    end.

Definition create (os : Os) (name : string) (size : Z)
    : result SharedMemory PlatformError * Os :=
  let shm_name := normalize name in
  match shm_open_excl os shm_name with
  | (Err e, os) => (Err (SharedMemoryCreate shm_name e), os)
  | (Ok fd, os) =>
      match ftruncate os fd size with
      | (Err e, os) => (Err (SharedMemoryCreate shm_name ("ftruncate: " ++ e)%string), os)
      | (Ok _, os) =>
          match do_mmap os fd size shm_name with
          | (Err e, os) => (Err e, os)
          | (Ok ptr, os) =>
              let os := zero_bytes os ptr size in
              (Ok (mk ptr size shm_name true), os)
          end
      end
  end.

Definition open (os : Os) (name : string) : result SharedMemory PlatformError * Os :=
  let shm_name := normalize name in
  match shm_open_rdwr os shm_name with
  | (Err e, os) => (Err (SharedMemoryOpen shm_name e), os)
  | (Ok fd, os) =>
      match fstat_size os fd with
      | (Err e, os) => (Err (SharedMemoryOpen shm_name ("fstat: " ++ e)%string), os)
      | (Ok size, os) =>
          match do_mmap os fd size shm_name with
          | (Err e, os) => (Err e, os)
          | (Ok ptr, os) => (Ok (mk ptr size shm_name false), os)
          end
      end
  end.

Definition unlink (os : Os) (name : string) : result unit PlatformError * Os :=
  let shm_name := normalize name in
  match shm_unlink os shm_name with
  | (Err e, os) => (Err (SharedMemoryUnlink shm_name e), os)
  | (Ok _, os) => (Ok tt, os)
  end.

(** [Drop for SharedMemory]: errors are only logged. *)
Definition drop (os : Os) (shm : SharedMemory) : Os :=
  let os := snd (munmap os (ptr shm) (size shm)) in
  if is_owner shm then snd (shm_unlink os (name shm)) else os.

(** The [debug_assert!]s of [get_ref], [get_mut]: bounds and alignment. *)
Definition access_debug_assert (shm : SharedMemory) (offset size_t align_t : Z) : bool :=
  (offset + size_t <=? size shm) && (offset mod align_t =? 0).

(** ** What the wrapper guarantees *)

Context {V : PosixView} {Sp : PosixSpec}.

(** [shm] is a mapping of object [o]. *)
Definition backed (os : Os) (shm : SharedMemory) (o : Z) : Prop :=
  mapped os (ptr shm) = Some o /\ size shm = size_of os o.

Lemma do_mmap_spec os fd o size nm :
  fd_object os fd = Some o ->
  match do_mmap os fd size nm with
  | (Ok a, os') =>
      size <> 0 /\ a <> 0 /\ mapped os' a = Some o /\ names os' = names os /\
      same_memory os os' /\ same_maps os os'
  | (Err _, os') => names os' = names os /\ same_memory os os' /\ same_maps os os'
  end.
Proof using Sp.
  intros Hfd. unfold do_mmap.
  assert (Hrefl : names os = names os /\ same_memory os os /\ same_maps os os)
    by (split; [done|]; split; [done|by intros ??]).
  destruct (size =? 0) eqn:E; [done|]. zbool.
  pose proof (mmap_spec os fd o size Hfd) as Hm.
  destruct (mmap os fd size) as [[a|e] os1]; [|by subst].
  destruct Hm as (H1 & _ & H2 & H3 & H4). destruct (a =? 0) eqn:Ea; zbool; done.
Qed.

(** What [create] does to the names and the memory. *)
Lemma shm_create_facts os nm sz :
  let n := normalize nm in
  match create os nm sz with
  | (Ok shm, os') =>
      names os !! n = None /\ sz <> 0 /\ is_owner shm = true /\ name shm = n /\ size shm = sz /\
      exists o, names os' = <[n := o]> (names os) /\ backed os' shm o /\
        (forall b, 0 <= b -> b + 4 <= sz -> cell os' o b = 0)
  | (Err (SharedMemoryCreate n' _), os') =>
      n' = n /\ (os' = os \/ names os !! n = None /\ is_Some (names os' !! n))
  | (Err _, os') => names os !! n = None /\ is_Some (names os' !! n)
  end.
Proof using Sp.
  cbn zeta. unfold create. set (n := normalize nm).
  pose proof (open_excl_spec os n) as Hop.
  destruct (shm_open_excl os n) as [[fd|e] os1]; [|by auto].
  destruct Hop as (Hn & o & Hn1 & Hfd & Hfresh & Hm1 & Hp1).
  pose proof (ftruncate_spec os1 fd o sz Hfd) as Ht.
  destruct (ftruncate os1 fd sz) as [[[]|e] os2].
  2: { subst os2. split; [done|]. right. rewrite Hn1, lookup_insert_eq. eauto. }
  destruct Ht as (Hsz & Hn2 & Hp2 & Hf2).
  pose proof (do_mmap_spec os2 fd o sz n (Hf2 _ _ Hfd)) as Hd.
  assert (Hsome : is_Some (names os2 !! n)) by (rewrite Hn2, Hn1, lookup_insert_eq; eauto).
  unfold do_mmap in Hd |- *. destruct (sz =? 0); [done|].
  destruct (mmap os2 fd sz) as [[a|e] os3].
  2: { destruct Hd as (Hn3 & _). by rewrite Hn3. }
  destruct (a =? 0).
  { destruct Hd as (Hn3 & _). by rewrite Hn3. }
  destruct Hd as (Hz & Ha & Hmap & Hn3 & [Hs3 _] & Hp3).
  destruct (zero_bytes_spec os3 a o sz Hmap) as (Hn4 & Hs4 & Hp4 & Hz4).
  split; [done|]. split; [done|]. do 3 (split; [done|]). exists o.
  split; [by rewrite Hn4, Hn3, Hn2, Hn1|]. split; [|done].
  split; cbn; [by apply Hp4|]. by rewrite Hs4, Hs3.
Qed.

(** [O_EXCL]: a name that is taken stays as it is. *)
Lemma shm_create_taken os nm sz :
  is_Some (names os !! normalize nm) ->
  exists e, create os nm sz = (Err (SharedMemoryCreate (normalize nm) e), os).
Proof using Sp.
  intros [o Ho]. unfold create. pose proof (open_excl_spec os (normalize nm)) as Hop.
  destruct (shm_open_excl os (normalize nm)) as [[fd|e] os1]; [|subst; eauto].
  destruct Hop as [Hn _]. congruence.
Qed.

(** C38: [create] gives an owner of a fresh, zero-filled object of the requested
    size under the normalised name.  When it fails, either nothing has changed
    or, when [ftruncate] or [mmap] failed after the object was made, the name
    stays behind.  Where the name is there afterwards, every further [create]
    of it fails and changes nothing. *)
Theorem shm_create_spec os nm sz :
  let n := normalize nm in
  let '(r, os') := create os nm sz in
  match r with
  | Ok shm =>
      names os !! n = None /\ sz <> 0 /\ is_owner shm = true /\ name shm = n /\ size shm = sz /\
      exists o, names os' = <[n := o]> (names os) /\ backed os' shm o /\
        (forall b, 0 <= b -> b + 4 <= sz -> cell os' o b = 0)
  | Err _ => os' = os \/ names os !! n = None /\ is_Some (names os' !! n)
  end /\
  (is_Some (names os' !! n) -> forall sz', exists e,
     create os' nm sz' = (Err (SharedMemoryCreate n e), os')).
Proof using Sp.
  cbn zeta. pose proof (shm_create_facts os nm sz) as Hf. cbn zeta in Hf.
  pose proof (fun os' sz' => shm_create_taken os' nm sz') as Ht.
  destruct (create os nm sz) as [[shm|e] os']; (split; [|auto]); [done|].
  destruct e; try (by right). apply Hf.
Qed.

(** No call takes a name away. *)
Lemma shm_create_names os nm sz : names os ⊆ names (snd (create os nm sz)).
Proof using Sp.
  unfold create. set (n := normalize nm). pose proof (open_excl_spec os n) as Hop.
  destruct (shm_open_excl os n) as [[fd|e] os1]; cbn; [|by subst].
  destruct Hop as (Hn & o & Hn1 & Hfd & _).
  assert (Hs1 : names os ⊆ names os1) by (rewrite Hn1; by apply insert_subseteq).
  pose proof (ftruncate_spec os1 fd o sz Hfd) as Ht.
  destruct (ftruncate os1 fd sz) as [[[]|e] os2]; cbn; [|by subst].
  destruct Ht as (_ & Hn2 & _ & Hf2).
  pose proof (do_mmap_spec os2 fd o sz n (Hf2 _ _ Hfd)) as Hd.
  destruct (do_mmap os2 fd sz n) as [[a|e] os3]; cbn.
  - destruct Hd as (_ & _ & Hmap & Hn3 & _).
    destruct (zero_bytes_spec os3 a o sz Hmap) as (Hn4 & _). by rewrite Hn4, Hn3, Hn2.
  - destruct Hd as (Hn3 & _). by rewrite Hn3, Hn2.
Qed.

(** [open] maps the object that has the name, at its full size, and does not
    own it; a missing name is an error. *)
Lemma shm_open_spec os nm :
  let n := normalize nm in
  match open os nm with
  | (Ok shm, os') =>
      is_owner shm = false /\ name shm = n /\ size shm <> 0 /\
      exists o, names os !! n = Some o /\ backed os' shm o /\ names os' = names os /\
        same_memory os os' /\ same_maps os os'
  | (Err _, os') => names os' = names os /\ same_memory os os'
  end.
Proof using Sp.
  cbn zeta. unfold open. set (n := normalize nm).
  pose proof (open_rdwr_spec os n) as Hop.
  destruct (shm_open_rdwr os n) as [[fd|e] os1]; [|by subst].
  destruct Hop as (o & Hn & Hfd & Hn1 & [Hs1 Hc1] & Hp1).
  pose proof (fstat_spec os1 fd o Hfd) as Hst.
  destruct (fstat_size os1 fd) as [[sz|e] os2]; [destruct Hst as [-> ->]|subst os2; done].
  pose proof (do_mmap_spec os1 fd o (size_of os1 o) n Hfd) as Hd.
  destruct (do_mmap os1 fd (size_of os1 o) n) as [[a|e] os3].
  - destruct Hd as (Hz & Ha & Hmap & Hn3 & [Hs3 Hc3] & Hp3).
    split; [done|]. split; [done|]. split; [done|]. exists o. split; [done|].
    split; [split; [done|by rewrite Hs3]|]. split; [congruence|].
    split; [split; intros; congruence|]. intros x y ?. eauto.
  - destruct Hd as (Hn3 & [Hs3 Hc3] & _). split; [congruence|]. split; congruence.
Qed.

(** The caller may remove the name: [shm_unlink] of an existing name works. *)
Definition may_unlink (n : string) : Prop :=
  forall os, is_Some (names os !! n) -> exists os', shm_unlink os n = (Ok tt, os').

(** Dropping an owner removes the name, dropping any other handle does not. *)
Lemma shm_drop_spec os shm :
  (is_owner shm = true -> may_unlink (name shm)) ->
  names (drop os shm)
  = if is_owner shm then delete (name shm) (names os) else names os.
Proof using Sp.
  intros Hmay. unfold drop. pose proof (munmap_spec os (ptr shm) (size shm)) as Hm.
  destruct (munmap os (ptr shm) (size shm)) as [r os1]; cbn.
  assert (Hn : names os1 = names os) by (destruct r; destruct_and?; congruence). clear Hm.
  destruct (is_owner shm); [|done]. specialize (Hmay eq_refl).
  pose proof (unlink_spec os1 (name shm)) as Hu. rewrite <- Hn.
  destruct (names os1 !! name shm) as [o|] eqn:Eo.
  - destruct (Hmay os1) as [os2 Ho]; [eauto|]. rewrite Ho in Hu |- *. apply Hu.
  - destruct (shm_unlink os1 (name shm)) as [[[]|e'] os2]; cbn; [by apply Hu|subst].
    by rewrite delete_id.
Qed.

(** The owner's life cycle: a segment that was created can be opened under
    the same name, at the same size and with the same contents, by any number
    of handles; dropping those leaves the name in place, dropping the owner
    removes it, and then the name can be created again. *)
Theorem shm_life_cycle os nm sz shm os1 shm2 os2 :
  may_unlink (normalize nm) ->
  create os nm sz = (Ok shm, os1) -> open os1 nm = (Ok shm2, os2) ->
  size shm2 = sz /\ name shm2 = name shm /\
  (exists o, backed os2 shm o /\ backed os2 shm2 o) /\
  names (drop os2 shm2) = names os1 /\
  names (drop (drop os2 shm2) shm) = names os.
Proof using Sp.
  intros Hmay Hc Ho. pose proof (shm_create_facts os nm sz) as Hcs. rewrite Hc in Hcs.
  destruct Hcs as (Hn & Hz & Hown & Hname & Hsize & o & Hnames & [Hb1 Hb2] & Hzero).
  pose proof (shm_open_spec os1 nm) as Hos. rewrite Ho in Hos.
  destruct Hos as (Hown2 & Hname2 & _ & o2 & Hn2 & [Hb3 Hb4] & Hnames2 & [Hs2 _] & Hp2).
  rewrite Hnames, lookup_insert_eq in Hn2. simplify_eq.
  assert (Hsz : size shm2 = size shm) by (rewrite Hb4, Hb2; apply Hs2).
  assert (Hd : names (drop os2 shm2) = names os1).
  { rewrite shm_drop_spec, Hown2; [done|congruence]. }
  split; [done|]. split; [congruence|].
  split. { exists o2. split; split; [by apply Hp2|by rewrite Hb2|done|done]. }
  split; [done|]. rewrite shm_drop_spec, Hown by (intros _; by rewrite Hname).
  rewrite Hd, Hnames, Hname. by rewrite delete_insert_id.
Qed.
End shm.
End SharedMemory.

(** ** A system with the documented behaviour

    Objects are numbers, descriptors are the objects they refer to; an object
    may not grow beyond [limit]. *)
Module ToyOs.

Record os := mk {
  t_names : gmap string Z;
  t_size : gmap Z Z;
  t_cell : gmap (Z * Z) Z;
  t_maps : gmap Z Z;
  limit : Z;
}.

Definition empty_os (limit : Z) : os := mk ∅ ∅ ∅ ∅ limit.

Definition fresh_object (s : os) : Z := above (map_to_list (t_names s)).*2.
Definition fresh_address (s : os) : Z := above (map_to_list (t_maps s)).*1.

#[export] Instance toy_posix : Posix := {
  Os := os;
  Fd := Z;
  shm_open_excl s n :=
    match t_names s !! n with
    | Some _ => (Err "EEXIST", s)
    | None => let o := fresh_object s in
        (Ok o, mk (<[n := o]> (t_names s)) (t_size s) (t_cell s) (t_maps s) (limit s))
    end;
  shm_open_rdwr s n :=
    match t_names s !! n with Some o => (Ok o, s) | None => (Err "ENOENT", s) end;
  ftruncate s fd size :=
    if size <=? limit s
    then (Ok tt, mk (t_names s) (<[fd := size]> (t_size s)) (t_cell s) (t_maps s) (limit s))
    else (Err "ENOMEM", s);
  fstat_size s fd := (Ok (default 0 (t_size s !! fd)), s);
  mmap s fd len :=
    let a := fresh_address s in
    (Ok a, mk (t_names s) (t_size s) (t_cell s) (<[a := fd]> (t_maps s)) (limit s));
  munmap s a len :=
    (Ok tt, mk (t_names s) (t_size s) (t_cell s) (delete a (t_maps s)) (limit s));
  shm_unlink s n :=
    match t_names s !! n with
    | Some _ => (Ok tt, mk (delete n (t_names s)) (t_size s) (t_cell s) (t_maps s) (limit s))
    | None => (Err "ENOENT", s)
    end;
  zero_bytes s a len :=
    mk (t_names s) (t_size s)
       (filter (fun kv : (Z * Z) * Z => Some kv.1.1 <> t_maps s !! a) (t_cell s))
       (t_maps s) (limit s);
  store_u32 s a b v :=
    match t_maps s !! a with
    | Some o => mk (t_names s) (t_size s) (<[(o, b) := v]> (t_cell s)) (t_maps s) (limit s)
    | None => s
    end;
  load_u32 s a b :=
    match t_maps s !! a with Some o => default 0 (t_cell s !! (o, b)) | None => 0 end;
}.

#[export] Instance toy_view : PosixView := {
  names := t_names : Os -> gmap string Z;
  size_of s o := default 0 (t_size s !! o);
  cell s o b := default 0 (t_cell s !! (o, b));
  fd_object s fd := Some fd;
  mapped s a := t_maps s !! a;
}.

#[export] Instance toy_spec : PosixSpec.
Proof.
  split; cbn.
  - intros s n. destruct (t_names s !! n) eqn:E; [done|]. split; [done|].
    exists (fresh_object s). split; [done|]. split; [done|]. split; [|split; [by split|by intros ??]].
    intros m Hm. enough (fresh_object s < fresh_object s) by lia.
    apply above_fresh, list_elem_of_fmap. exists (m, fresh_object s).
    split; [done|]. by apply elem_of_map_to_list.
  - intros s n. destruct (t_names s !! n) eqn:E; [|done].
    exists z. split; [done|]. split; [done|]. split; [done|]. split; [by split|by intros ??].
  - intros s fd o size [= ->]. destruct (size <=? limit s); cbn; [|done].
    split; [by rewrite lookup_insert_eq|]. split; [done|]. split; by intros ??.
  - intros s fd o [= ->]. done.
  - intros s fd o len [= ->]. split; [by rewrite lookup_insert_eq|].
    assert (Hf : t_maps s !! fresh_address s = None).
    { destruct (t_maps s !! _) as [x|] eqn:E; [|done].
      enough (fresh_address s < fresh_address s) by lia.
      apply above_fresh, list_elem_of_fmap. exists (fresh_address s, x).
      split; [done|]. by apply elem_of_map_to_list. }
    split; [done|]. split; [done|]. split; [done|].
    intros a x Hax. cbn in *. rewrite lookup_insert_ne; [done|]. congruence.
  - done.
  - intros s n. destruct (t_names s !! n) eqn:E; [|done].
    split; [done|]. split; [by split|by intros ??].
  - intros s a o len Ha. split; [done|]. split; [done|]. split; [by intros ??|].
    intros b _ _. rewrite map_lookup_filter_None_2; [done|]. right.
    intros v _ Hne. cbn in Hne. congruence.
  - intros s a o b v Ha. rewrite Ha. cbn. split; [done|]. split; [done|]. split; [by intros ??|].
    split; [by rewrite lookup_insert_eq|]. intros b' Hb.
    rewrite lookup_insert_ne; [done|]. intros [=]. lia.
  - intros s a o b Ha. by rewrite Ha.
Qed.

(** The file's theorems at work on this system. *)
Definition no_hash (_ : string) : Z := 0.
#[local] Abbreviation create := (SharedMemory.create (H := toy_posix) false no_hash).
#[local] Abbreviation open := (SharedMemory.open (H := toy_posix) false no_hash).

(** [create "a"] where the object cannot grow to the requested size. *)
Example failed_create_leaves_name :
  let os1 := snd (create (empty_os 100) "a" 4096) in
  fst (create (empty_os 100) "a" 4096)
    = Err (SharedMemoryCreate "/a" "ftruncate: ENOMEM") /\
  fst (create os1 "a" 64) = Err (SharedMemoryCreate "/a" "EEXIST").
Proof. vm_compute. split; reflexivity. Qed.

Lemma shm_create_spec_witness :
  exists shm os1,
    create (empty_os 100000) "seg" 4096 = (Ok shm, os1) /\
    SharedMemory.is_owner shm = true /\ SharedMemory.name shm = "/seg"%string /\
    exists e, create os1 "seg" 64 = (Err (SharedMemoryCreate "/seg" e), os1).
Proof.
  pose proof (SharedMemory.shm_create_spec false no_hash (empty_os 100000) "seg" 4096) as Hc.
  do 2 eexists. split; [reflexivity|]. destruct Hc as [(_ & _ & Ho & Hn & _) Ht].
  split; [exact Ho|]. split; [exact Hn|]. apply Ht. eexists. reflexivity.
Defined.

Lemma shm_life_cycle_witness :
  exists shm os1 shm2 os2,
    create (empty_os 100000) "seg" 4096 = (Ok shm, os1) /\ open os1 "seg" = (Ok shm2, os2) /\
    names (SharedMemory.drop (SharedMemory.drop os2 shm2) shm) = names (empty_os 100000).
Proof.
  pose proof (SharedMemory.shm_life_cycle false no_hash (empty_os 100000) "seg" 4096) as Hl.
  do 4 eexists. split; [reflexivity|]. split; [reflexivity|].
  eapply Hl; [|reflexivity|reflexivity].
  intros s [o Ho]. cbn in Ho |- *. rewrite Ho. eexists. reflexivity.
Defined.
End ToyOs.
