(* ===== verification/DataSegment.v ===== *)
(** * DataSegment (crates/entangle-transport/src/data_segment.rs)

    A shared-memory object with a 64-byte header and a pool of chunks behind
    it.  [ds_rep seg free live] is what the ports rely on: the chunks [live]
    are allocated, every chunk lies inside the mapping and is 8-byte aligned. *)
From S2P Require Import Prelude Contracts FreeList IndexSet PoolAlloc Shm.
#[local] Open Scope Z_scope.
#[local] Open Scope rust_scope.

(** [(n + 7) & !7] on [usize]. *)
Definition align8 (n : Z) : Z := Z.land (wrapping_add 64 n 7) (bnot 64 7).

Lemma align8_spec n :
  0 <= n -> n + 7 < 2 ^ 64 -> n <= align8 n < n + 8 /\ align8 n mod 8 = 0.
Proof.
  intros Hn Hb. unfold align8, wrapping_add, bnot. rewrite wrap_small by (unfold fits; lia).
  assert (He : Z.land (n + 7) (Z.lxor 7 (Z.ones 64)) = (n + 7) / 8 * 8).
  { apply Z.bits_inj'. intros k Hk. rewrite Z.land_spec, Z.lxor_spec.
    change 8 with (2 ^ 3). rewrite <- Z.shiftl_mul_pow2, <- Z.shiftr_div_pow2 by lia.
    change 7 with (Z.ones 3) at 2.
    destruct (decide (k < 3)).
    - rewrite !Z.ones_spec_low, Z.shiftl_spec_low by lia. by rewrite andb_false_r.
    - rewrite (Z.ones_spec_high 3) by lia. rewrite Z.shiftl_spec, Z.shiftr_spec by lia.
      replace (k - 3 + 3) with k by lia.
      destruct (decide (k < 64)); [rewrite Z.ones_spec_low by lia; by rewrite andb_true_r|].
      rewrite (fits_testbit 64) by (unfold fits; lia). done. }
  rewrite He. split; [|apply Z.mod_mul; lia].
  pose proof (Z.div_mod (n + 7) 8 ltac:(lia)). pose proof (Z.mod_pos_bound (n + 7) 8 ltac:(lia)).
  lia.
Qed.

Module DataSegment.
Import PointerOffset.

(** [size_of::<SegmentHeader>()]: two [u32]s and 56 reserved bytes. *)
Definition HEADER_SIZE : Z := 4 + 4 + 56.

(** [pub struct DataSegment { shm, allocator, chunk_size, chunk_count }]. *)
Record DataSegment := mk {
  shm : SharedMemory.SharedMemory;
  allocator : PoolAllocator.PoolAllocator UniqueIndexSet.UniqueIndexSet;
  chunk_size : Z;
  chunk_count : Z;
}.

Section segment.
Context {P : Posix} (macos : bool) (hash : string -> Z).

Definition create (os : Os) (name : string) (chunk_size chunk_count segment_id : Z)
    : outcome (result DataSegment PlatformError * Os) :=
  let aligned_chunk_size := align8 chunk_size in
  let total_size :=
    wrapping_add 64 HEADER_SIZE (wrapping_mul 64 aligned_chunk_size chunk_count) in
  match SharedMemory.create macos hash os name total_size with
  | (Err e, os) => Ret (Err e, os)
  | (Ok shm, os) =>
      let os := store_u32 os (SharedMemory.ptr shm) 0 (wrap 32 aligned_chunk_size) in
      let os := store_u32 os (SharedMemory.ptr shm) 4 chunk_count in
      let! allocator :=
        PoolAllocator.new (UniqueIndexSet.new chunk_count) aligned_chunk_size segment_id
          HEADER_SIZE in
      Ret (Ok (mk shm allocator aligned_chunk_size chunk_count), os)
  end.

Definition open (os : Os) (name : string) (segment_id : Z)
    : outcome (result DataSegment PlatformError * Os) :=
  match SharedMemory.open macos hash os name with
  | (Err e, os) => Ret (Err e, os)
  | (Ok shm, os) =>
      let chunk_size := load_u32 os (SharedMemory.ptr shm) 0 in
      let chunk_count := load_u32 os (SharedMemory.ptr shm) 4 in
      let! allocator :=
        PoolAllocator.new (UniqueIndexSet.new chunk_count) chunk_size segment_id HEADER_SIZE in
      Ret (Ok (mk shm allocator chunk_size chunk_count), os)
  end.
End segment.

Definition with_allocator (s : DataSegment) a : DataSegment :=
  mk (shm s) a (chunk_size s) (chunk_count s).

Definition allocate (s : DataSegment) : outcome (result PointerOffset LoanError * DataSegment) :=
  let! (r, a) := PoolAllocator.allocate (allocator s) in Ret (r, with_allocator s a).

Definition deallocate (s : DataSegment) (off : PointerOffset) : outcome DataSegment :=
  let! a := PoolAllocator.deallocate (allocator s) off in Ret (with_allocator s a).

(** The address that [resolve_ptr], [resolve_ref] and [resolve_mut] use. *)
Definition resolve_ptr (s : DataSegment) (off : PointerOffset) : Z :=
  SharedMemory.ptr (shm s) + PointerOffset.offset off.

(** The [debug_assert!]s of [resolve_ptr]. *)
Definition resolve_debug_assert (s : DataSegment) (off : PointerOffset) : bool :=
  (HEADER_SIZE <=? PointerOffset.offset off) &&
  (PointerOffset.offset off + chunk_size s <=? SharedMemory.size (shm s)).

Definition allocated_count (s : DataSegment) : Z := PoolAllocator.allocated_count (allocator s).
Definition available (s : DataSegment) : Z := PoolAllocator.available (allocator s).

(** The offset of chunk [i]. *)
Definition chunk (s : DataSegment) (i : Z) : PointerOffset :=
  PoolAllocator.chunk_offset (allocator s) i.

(** ** The chunks a segment hands out *)

(** Header and chunks fit the mapping and the 48 bits of a [PointerOffset]. *)
Record ds_rep (s : DataSegment) (free live : list Z) : Prop := {
  dr_pool : PoolAllocator.pool_rep (allocator s) free live;
  dr_base : PoolAllocator.base_offset (allocator s) = HEADER_SIZE;
  dr_chunk : PoolAllocator.chunk_size (allocator s) = chunk_size s;
  dr_align : chunk_size s mod 8 = 0;
  dr_count : PoolAllocator.capacity (allocator s) = chunk_count s;
  dr_size : SharedMemory.size (shm s) = HEADER_SIZE + chunk_size s * chunk_count s;
}.

Section operations.
Context (s : DataSegment) (free live : list Z) (Hr : ds_rep s free live).

Lemma ds_pool_capacity : ia_capacity (PoolAllocator.index_set (allocator s)) = chunk_count s.
Proof using Hr. apply Hr. Qed.

Lemma chunk_fields i :
  i ∈ free ++ live ->
  0 <= i < chunk_count s /\
  PointerOffset.offset (chunk s i) = HEADER_SIZE + i * chunk_size s /\
  PointerOffset.segment_id (chunk s i) = PoolAllocator.segment_id (allocator s).
Proof using Hr.
  intros Hi. destruct Hr. pose proof (PoolAllocator.pool_index_bound _ _ _ dr_pool0 i Hi) as Hb.
  unfold chunk. rewrite PoolAllocator.offset_chunk, PoolAllocator.segment_chunk;
    [|apply dr_pool0|apply dr_pool0|done].
  rewrite dr_base0, dr_chunk0. split; [|done]. unfold PoolAllocator.capacity in *. lia.
Qed.

Lemma chunk_inside i :
  i ∈ free ++ live ->
  resolve_debug_assert s (chunk s i) = true /\
  PointerOffset.offset (chunk s i) mod 8 = 0 /\
  SharedMemory.ptr (shm s) < resolve_ptr s (chunk s i) /\
  resolve_ptr s (chunk s i) + chunk_size s
    <= SharedMemory.ptr (shm s) + SharedMemory.size (shm s).
Proof using Hr.
  intros Hi. destruct (chunk_fields i Hi) as (Hb & Ho & _). destruct Hr.
  pose proof (PoolAllocator.geo_chunk _ (PoolAllocator.pr_geo _ _ _ dr_pool0)) as Hpos.
  unfold resolve_debug_assert, resolve_ptr. rewrite Ho, dr_size0. rewrite dr_chunk0 in Hpos.
  assert (i * chunk_size s + chunk_size s <= chunk_size s * chunk_count s) by nia.
  assert (0 <= i * chunk_size s) by nia. unfold HEADER_SIZE in *.
  split; [apply andb_true_intro; split; apply Z.leb_le; lia|]. split; [|lia].
  apply Z.mod_divide in dr_align0 as [k Hk]; [|lia]. rewrite Hk.
  apply Z.mod_divide; [lia|]. exists (8 + i * k). lia.
Qed.

Lemma chunk_inj i j :
  i ∈ free ++ live -> j ∈ free ++ live -> chunk s i = chunk s j -> i = j.
Proof using Hr. exact (PoolAllocator.pool_inj _ free live (dr_pool _ _ _ Hr) i j). Qed.
End operations.

Lemma ds_allocate_some s i free live :
  ds_rep s (i :: free) live ->
  exists s', allocate s = Ret (Ok (chunk s i), s') /\ ds_rep s' free (i :: live) /\
    (forall j, chunk s' j = chunk s j) /\ s' = with_allocator s (allocator s').
Proof.
  intros [Hp]. destruct (PoolAllocator.allocate_some _ _ _ _ Hp) as (a & Ha & Hp' & Hc & Hcap).
  unfold allocate. rewrite Ha. cbn. eexists. split; [done|].
  split; [|by split; [apply Hc|]].
  assert (Hb : PoolAllocator.base_offset a = PoolAllocator.base_offset (allocator s) /\
               PoolAllocator.chunk_size a = PoolAllocator.chunk_size (allocator s)).
  { unfold PoolAllocator.allocate in Ha. destruct (ia_acquire _) as [[[]?]| |]; cbn in Ha;
      by simplify_eq. }
  destruct Hb as [Hb1 Hb2]. split; cbn [shm allocator chunk_size chunk_count with_allocator]; first [done|congruence].
Qed.

Lemma ds_allocate_none s live : ds_rep s [] live -> allocate s = Ret (Err OutOfMemory, s).
Proof.
  intros [Hp]. unfold allocate. rewrite (PoolAllocator.allocate_none _ _ Hp). cbn.
  by destruct s.
Qed.

Lemma ds_deallocate_some s i free live :
  ds_rep s free (i :: live) ->
  exists s', deallocate s (chunk s i) = Ret s' /\ ds_rep s' (i :: free) live /\
    (forall j, chunk s' j = chunk s j) /\ s' = with_allocator s (allocator s').
Proof.
  intros [Hp]. destruct (PoolAllocator.deallocate_some _ _ _ _ Hp) as (a & Ha & Hp' & Hc & Hcap).
  unfold deallocate, chunk. rewrite Ha. cbn. eexists. split; [done|].
  split; [|by split; [apply Hc|]].
  assert (Hb : PoolAllocator.base_offset a = PoolAllocator.base_offset (allocator s) /\
               PoolAllocator.chunk_size a = PoolAllocator.chunk_size (allocator s)).
  { unfold PoolAllocator.deallocate in Ha. destruct (ia_release _ _); cbn in Ha;
      by simplify_eq. }
  destruct Hb as [Hb1 Hb2]. split; cbn [shm allocator chunk_size chunk_count with_allocator]; first [done|congruence].
Qed.

Lemma ds_rep_perm s free live live' :
  ds_rep s free live -> live ≡ₚ live' -> ds_rep s free live'.
Proof. intros [] Hp. split; try done. by eapply PoolAllocator.pool_rep_perm. Qed.

Lemma ds_counts s free live :
  ds_rep s free live ->
  allocated_count s = Z.of_nat (length live) /\ available s = Z.of_nat (length free).
Proof. intros []. by apply PoolAllocator.pool_counts. Qed.

Lemma ds_length s free live :
  ds_rep s free live -> Z.of_nat (length free) + Z.of_nat (length live) = chunk_count s.
Proof.
  intros Hr. rewrite <- (ds_pool_capacity _ _ _ Hr).
  apply ia_rep_length, PoolAllocator.pr_rep, Hr.
Qed.

Lemma ds_NoDup s free live : ds_rep s free live -> NoDup (free ++ live).
Proof. intros []. by eapply ia_rep_NoDup, PoolAllocator.pr_rep. Qed.

(** ** Creating and opening *)

(** What the caller of [create] asks for is within reach: the counts are those
    [UniqueIndexSet::new] accepts and all chunks have 48-bit offsets. *)
Definition fits_segment (cs count sid : Z) : Prop :=
  0 < cs /\ 0 < count < SENTINEL /\ fits 16 sid /\
  HEADER_SIZE + align8 cs * count <= 2 ^ 48.

Lemma fits_chunk_bound cs count sid :
  fits_segment cs count sid -> 0 < cs -> cs + 7 < 2 ^ 64 -> cs <= 2 ^ 48.
Proof.
  intros (Hc & Hn & _ & Hb) _ H. destruct (align8_spec cs ltac:(lia) H) as [Ha _].
  unfold HEADER_SIZE in Hb. nia.
Qed.

Lemma new_allocator cs count sid :
  fits_segment cs count sid -> cs mod 8 = 0 -> align8 cs = cs ->
  exists s a, PoolAllocator.new (UniqueIndexSet.new count) cs sid HEADER_SIZE = Ret a /\
    UniqueIndexSet.new count = Ret s /\ a = PoolAllocator.mk s cs sid HEADER_SIZE /\
    PoolAllocator.pool_rep a (seqZ 0 count) [] /\ PoolAllocator.capacity a = count.
Proof.
  intros (Hc & Hn & Hs & Hb) Hm Ha. unfold PoolAllocator.new.
  rewrite (proj2 (Z.ltb_lt 0 cs)) by done.
  assert (Hnew : exists s, UniqueIndexSet.new count = Ret s /\ UniqueIndexSet.capacity s = count).
  { unfold UniqueIndexSet.new. rewrite (proj2 (Z.ltb_lt 0 count)), (proj2 (Z.ltb_lt count SENTINEL)) by lia.
    eexists. split; [done|]. done. }
  destruct Hnew as (s & Hnew & Hcap). exists s. rewrite Hnew. eexists. split; [done|].
  split; [done|]. split; [done|]. split; [|done]. split; cbn.
  - by apply UniqueIndexSet.new_wf.
  - split; cbn; try done. rewrite Hcap. rewrite Ha in Hb. unfold HEADER_SIZE in *. lia.
Qed.

Section lifetime.
Context {P : Posix} (macos : bool) (hash : string -> Z) {V : PosixView} {Sp : PosixSpec}.

(** The header of object [o]. *)
Definition header (os : Os) (o chunk_size chunk_count : Z) : Prop :=
  cell os o 0 = chunk_size /\ cell os o 4 = chunk_count.

Lemma ds_create_spec os nm cs count sid :
  cs + 7 < 2 ^ 64 -> fits_segment cs count sid ->
  exists r os', create macos hash os nm cs count sid = Ret (r, os') /\
  match r with
  | Ok seg =>
      ds_rep seg (seqZ 0 count) [] /\ chunk_size seg = align8 cs /\ chunk_count seg = count /\
      PoolAllocator.segment_id (allocator seg) = sid /\
      names os !! SharedMemory.normalize_name macos hash nm = None /\
      exists o, names os' = <[SharedMemory.normalize_name macos hash nm := o]> (names os) /\
        SharedMemory.backed os' (shm seg) o /\ header os' o (wrap 32 (align8 cs)) count
  | Err _ => True
  end.
Proof using Sp.
  intros Hb Hf. pose proof (fits_chunk_bound _ _ _ Hf) as Hcs.
  pose proof Hf as (Hc & Hn & Hs & Hlim). specialize (Hcs Hc Hb).
  destruct (align8_spec cs ltac:(lia) Hb) as [Hal Hmod].
  assert (Hal2 : align8 (align8 cs) = align8 cs).
  { destruct (align8_spec (align8 cs)) as [H1 H2]; [lia|lia|].
    apply Z.mod_divide in Hmod as [k Hk]; [|lia]. apply Z.mod_divide in H2 as [j Hj]; lia. }
  assert (Hf2 : fits_segment (align8 cs) count sid).
  { split; [lia|]. split; [done|]. split; [done|]. by rewrite Hal2. }
  assert (Htot : wrapping_add 64 HEADER_SIZE (wrapping_mul 64 (align8 cs) count)
                 = HEADER_SIZE + align8 cs * count).
  { unfold wrapping_add, wrapping_mul. assert (0 <= align8 cs * count) by nia.
    unfold HEADER_SIZE in *.
    rewrite (wrap_small 64 (align8 cs * count)), wrap_small by (unfold fits; lia). done. }
  unfold create. rewrite Htot.
  pose proof (SharedMemory.shm_create_facts macos hash os nm (HEADER_SIZE + align8 cs * count)) as Hsc.
  cbn zeta in Hsc.
  destruct (SharedMemory.create macos hash os nm _) as [[m|e] os1]; [|by repeat eexists].
  destruct Hsc as (Hn1 & Hsz & Hown & Hname & Hsize & o & Hnames & [Hb1 Hb2] & _).
  destruct (new_allocator (align8 cs) count sid Hf2 Hmod Hal2) as (ix & a & Hna & _ & -> & Hpr & Hcap).
  cbn zeta. rewrite Hna. cbn [obind]. do 2 eexists. split; [done|].
  pose proof (store_u32_spec os1 (SharedMemory.ptr m) o 0 (wrap 32 (align8 cs)) Hb1)
    as (Hs1 & Hs2 & Hs3 & Hs4 & Hs5).
  set (os2 := store_u32 os1 _ 0 _) in *.
  pose proof (store_u32_spec os2 (SharedMemory.ptr m) o 4 count (Hs3 _ _ Hb1))
    as (Ht1 & Ht2 & Ht3 & Ht4 & Ht5).
  split; [split; cbn [shm allocator chunk_size chunk_count]; done|].
  split; [done|]. split; [done|]. split; [done|]. split; [done|]. exists o.
  split; [congruence|]. split; [split|split].
  - cbn. by apply Ht3, Hs3.
  - cbn. by rewrite Ht2, Hs2.
  - rewrite Ht5 by lia. done.
  - done.
Qed.

Lemma ds_create_names os nm cs count sid r os' :
  create macos hash os nm cs count sid = Ret (r, os') -> names os ⊆ names os'.
Proof using Sp.
  unfold create. set (sz := wrapping_add 64 _ _).
  pose proof (SharedMemory.shm_create_names macos hash os nm sz) as Hs.
  pose proof (SharedMemory.shm_create_facts macos hash os nm sz) as Hsc. cbn zeta in Hsc.
  destruct (SharedMemory.create macos hash os nm sz) as [[m|e] os1]; cbn in Hs |- *.
  - destruct (PoolAllocator.new _ _ _ _); cbn; try done. intros [= <- <-].
    destruct Hsc as (_ & _ & _ & _ & _ & o & _ & [Hb _] & _).
    destruct (store_u32_spec os1 (SharedMemory.ptr m) o 0 (wrap 32 (align8 cs)) Hb)
      as (Hs1 & _ & Hs3 & _).
    destruct (store_u32_spec _ (SharedMemory.ptr m) o 4 count (Hs3 _ _ Hb)) as (Ht1 & _).
    by rewrite Ht1, Hs1.
  - by intros [= <- <-].
Qed.

(** C28: A segment that [create] delivers has [chunk_count] free chunks; each
    lies inside the mapping behind the header, is 8-byte aligned within the
    mapping, holds the requested size, satisfies the debug assertions of
    [resolve_ptr], and shares no byte with another; [create] never panics on
    counts that fit. *)
Theorem ds_create_chunks os nm cs count sid :
  cs + 7 < 2 ^ 64 -> fits_segment cs count sid ->
  exists r os', create macos hash os nm cs count sid = Ret (r, os') /\
  match r with
  | Ok seg =>
      available seg = count /\ cs <= chunk_size seg /\
      (forall i, 0 <= i < count ->
        resolve_debug_assert seg (chunk seg i) = true /\
        PointerOffset.offset (chunk seg i) mod 8 = 0 /\
        SharedMemory.ptr (shm seg) + HEADER_SIZE <= resolve_ptr seg (chunk seg i) /\
        resolve_ptr seg (chunk seg i) + chunk_size seg
          <= SharedMemory.ptr (shm seg) + SharedMemory.size (shm seg)) /\
      (forall i j b, 0 <= i < count -> 0 <= j < count -> i <> j ->
        resolve_ptr seg (chunk seg i) <= b < resolve_ptr seg (chunk seg i) + chunk_size seg ->
        ~ resolve_ptr seg (chunk seg j) <= b < resolve_ptr seg (chunk seg j) + chunk_size seg)
  | Err _ => True
  end.
Proof using Sp.
  intros Hb Hf. destruct (ds_create_spec os nm cs count sid Hb Hf) as (r & os' & -> & Hr).
  exists r, os'. split; [done|]. destruct r as [seg|]; [|done].
  destruct Hr as (Hrep & Hsz & Hct & _). rewrite <- Hct in *.
  destruct (align8_spec cs ltac:(destruct Hf; lia) Hb) as [Hal _].
  assert (Hin : forall i, 0 <= i < chunk_count seg -> i ∈ seqZ 0 (chunk_count seg) ++ []).
  { intros i Hi. rewrite app_nil_r. apply elem_of_seqZ. lia. }
  split. { destruct (ds_counts _ _ _ Hrep) as [_ ->]. rewrite length_seqZ. destruct Hf. lia. }
  split; [lia|]. split.
  - intros i Hi%Hin. destruct (chunk_inside _ _ _ Hrep i Hi) as (H1 & H2 & _ & H4).
    split; [done|]. split; [done|]. split; [|done].
    unfold resolve_debug_assert in H1. zbool. unfold resolve_ptr. lia.
  - intros i j b Hi Hj Hne. unfold resolve_ptr.
    destruct (chunk_fields _ _ _ Hrep i (Hin _ Hi)) as (_ & -> & _).
    destruct (chunk_fields _ _ _ Hrep j (Hin _ Hj)) as (_ & -> & _).
    clear -Hi Hj Hne. intros Ha Hc. nia.
Qed.

(** A second handle opened under the name sees the creator's geometry when
    the chunk size fits the header's 32-bit field, and maps the same object;
    but its allocator starts with every chunk free, so the first allocation of
    each handle is the same chunk of the same object. *)
Theorem ds_open_shares os nm cs count sid seg os1 seg2 os2 :
  cs + 7 < 2 ^ 64 -> fits_segment cs count sid -> align8 cs < 2 ^ 32 ->
  create macos hash os nm cs count sid = Ret (Ok seg, os1) ->
  open macos hash os1 nm sid = Ret (Ok seg2, os2) ->
  chunk_size seg2 = chunk_size seg /\ chunk_count seg2 = chunk_count seg /\
  (exists o, SharedMemory.backed os2 (shm seg) o /\ SharedMemory.backed os2 (shm seg2) o) /\
  exists off seg' seg2', allocate seg = Ret (Ok off, seg') /\ allocate seg2 = Ret (Ok off, seg2').
Proof using Sp.
  intros Hb Hf Hsmall Hcr Hop.
  destruct (ds_create_spec os nm cs count sid Hb Hf) as (r & os' & Hcr' & Hr).
  rewrite Hcr' in Hcr. simplify_eq.
  destruct Hr as (Hrep & Hsz & Hct & Hsid & _ & o & Hnames & [Hb1 Hb2] & [Hh1 Hh2]).
  unfold open in Hop. pose proof (SharedMemory.shm_open_spec macos hash os1 nm) as Hos.
  destruct (SharedMemory.open macos hash os1 nm) as [[m|e] os3]; [|done].
  destruct Hos as (_ & _ & Hsz2 & o2 & Hn2 & [Hm1 Hm2] & Hn3 & [Hs3 Hc3] & Hp3).
  rewrite Hnames, lookup_insert_eq in Hn2. simplify_eq.
  destruct (align8_spec cs ltac:(destruct Hf; lia) Hb) as [Hal Hmod].
  rewrite !(load_u32_spec _ _ o2), !Hc3, Hh1, Hh2 in Hop by done.
  rewrite wrap_small in Hop by (unfold fits; destruct Hf; lia).
  assert (Hal2 : align8 (align8 cs) = align8 cs).
  { destruct (align8_spec (align8 cs)) as [H1 H2]; [destruct Hf; lia|lia|].
    apply Z.mod_divide in Hmod as [k Hk]; [|lia]. apply Z.mod_divide in H2 as [j Hj]; lia. }
  assert (Hf2 : fits_segment (align8 cs) (chunk_count seg)
                  (PoolAllocator.segment_id (allocator seg))).
  { destruct Hf as (? & ? & ? & ?). split; [lia|]. split; [done|]. split; [done|].
    by rewrite Hal2. }
  destruct (new_allocator _ _ _ Hf2 Hmod Hal2) as (ix & a & Hna & _ & -> & Hpr & Hcap).
  rewrite Hna in Hop. cbn [obind] in Hop. simplify_eq. cbn [chunk_size chunk_count shm].
  split; [done|]. split; [done|]. split.
  { exists o2. split; [|by split]. split; [by apply Hp3|]. by rewrite Hs3. }
  destruct Hf as (_ & Hn & _ & _).
  assert (Hcons : seqZ 0 (chunk_count seg) = 0 :: seqZ 1 (chunk_count seg - 1)).
  { rewrite seqZ_cons by lia. do 2 f_equal; lia. }
  rewrite Hcons in Hrep, Hpr.
  destruct (ds_allocate_some _ _ _ _ Hrep) as (seg' & Ha & _).
  destruct (PoolAllocator.allocate_some _ _ _ _ Hpr) as (a' & Ha2 & _).
  exists (chunk seg 0), seg'. unfold allocate at 2. cbn [allocator]. rewrite Ha2. cbn.
  eexists. split; [done|]. do 3 f_equal.
  unfold chunk, PoolAllocator.chunk_offset. cbn.
  by rewrite (dr_base _ _ _ Hrep), (dr_chunk _ _ _ Hrep), Hsz.
Qed.
End lifetime.

Section witnesses.
Import ToyOs.

Lemma fits_segment_example : fits_segment 12 4 0.
Proof. vm_compute. repeat split; congruence. Qed.

Lemma ds_create_chunks_witness :
  exists seg os', create (P := toy_posix) false no_hash (empty_os 100000) "d" 12 4 0 = Ret (Ok seg, os') /\
    available seg = 4 /\ 12 <= chunk_size seg.
Proof.
  destruct (ds_create_chunks (P := toy_posix) false no_hash (empty_os 100000) "d" 12 4 0)
    as (r & os' & Hr & Hs); [lia|apply fits_segment_example|].
  destruct r as [seg|e]; [|vm_compute in Hr; discriminate].
  exists seg, os'. split; [exact Hr|]. split; [apply Hs|apply Hs].
Defined.

Lemma ds_open_shares_witness :
  exists seg os1 seg2 os2,
    create (P := toy_posix) false no_hash (empty_os 100000) "d" 12 4 0 = Ret (Ok seg, os1) /\
    open (P := toy_posix) false no_hash os1 "d" 0 = Ret (Ok seg2, os2) /\
    exists off seg' seg2', allocate seg = Ret (Ok off, seg') /\ allocate seg2 = Ret (Ok off, seg2').
Proof.
  pose proof (ds_open_shares (P := toy_posix) false no_hash (empty_os 100000) "d" 12 4 0) as Ht.
  do 4 eexists. split; [reflexivity|]. split; [reflexivity|].
  eapply Ht; [lia|apply fits_segment_example|reflexivity|reflexivity|reflexivity].
Defined.
End witnesses.

End DataSegment.
