(* ===== verification/SegmentMgr.v ===== *)
(** * SegmentManager (crates/entangle-transport/src/segment_mgr.rs)

    A growing list of data segments; the index of a segment is the segment id
    in the offsets it hands out.  [rep os m live] says that [live] is the set
    of (raw) offsets handed out by the manager and not given back. *)
From stdpp Require Import pretty.
From S2P Require Import Prelude Contracts FreeList IndexSet PoolAlloc Shm DataSegment.
#[local] Open Scope Z_scope.
#[local] Open Scope rust_scope.

Module SegmentManager.
Import PointerOffset.

(** [pub struct SegmentManager]. *)
Record SegmentManager := mk {
  segments : list DataSegment.DataSegment;
  name_prefix : string;
  chunk_size : Z;
  chunks_per_segment : Z;
}.

Definition with_segments (m : SegmentManager) l :=
  mk l (name_prefix m) (chunk_size m) (chunks_per_segment m).

(** [format!("{}_seg_{seg_id}", name_prefix)]. *)
Definition seg_name (prefix : string) (seg_id : Z) : string :=
  (prefix ++ "_seg_" ++ pretty seg_id)%string.

Section manager.
Context {P : Posix} (macos : bool) (hash : string -> Z).

Definition create (os : Os) (prefix : string) (cs count : Z)
    : outcome (result SegmentManager PlatformError * Os) :=
  let! (r, os) := DataSegment.create macos hash os (seg_name prefix 0) cs count 0 in
  match r with
  | Err e => Ret (Err e, os)
  | Ok initial => Ret (Ok (mk [initial] prefix cs count), os)
  end.

(** The [for] loop over the existing segments. *)
Fixpoint try_segments (l : list DataSegment.DataSegment)
    : outcome (option PointerOffset * list DataSegment.DataSegment) :=
  match l with
  | [] => Ret (None, [])
  | seg :: l =>
      let! (r, seg) := DataSegment.allocate seg in
      match r with
      | Ok off => Ret (Some off, seg :: l)
      | Err _ => let! (r, l) := try_segments l in Ret (r, seg :: l)
      end
  end.

Definition allocate (os : Os) (m : SegmentManager)
    : outcome (result PointerOffset LoanError * SegmentManager * Os) :=
  let! (r, l) := try_segments (segments m) in
  let m := with_segments m l in
  match r with
  | Some off => Ret (Ok off, m, os)
  | None =>
      let seg_id := wrap 16 (Z.of_nat (length (segments m))) in
      let! (r, os) :=
        DataSegment.create macos hash os (seg_name (name_prefix m) seg_id)
          (chunk_size m) (chunks_per_segment m) seg_id in
      match r with
      | Err _ => Ret (Err OutOfMemory, m, os)
      | Ok new_seg =>
          let! (r, new_seg) := DataSegment.allocate new_seg in
          match r with
          | Err e => Ret (Err e, m, os)
          | Ok off => Ret (Ok off, with_segments m (segments m ++ [new_seg]), os)
          end
      end
  end.

Definition deallocate (m : SegmentManager) (off : PointerOffset) : outcome SegmentManager :=
  let seg_id := PointerOffset.segment_id off in
  if seg_id <? Z.of_nat (length (segments m)) then
    let! seg := index (segments m) seg_id in
    let! seg := DataSegment.deallocate seg off in
    Ret (with_segments m (<[Z.to_nat seg_id := seg]> (segments m)))
  else Ret m.

(** [resolve_ptr], [resolve_ref], [resolve_mut]: panics on a foreign id. *)
Definition resolve_ptr (m : SegmentManager) (off : PointerOffset) : outcome Z :=
  let! seg := index (segments m) (PointerOffset.segment_id off) in
  Ret (DataSegment.resolve_ptr seg off).

Definition segment_count (m : SegmentManager) : Z := Z.of_nat (length (segments m)).
Definition total_available (m : SegmentManager) : Z :=
  wrap 32 (zsum DataSegment.available (segments m)).
Definition total_allocated (m : SegmentManager) : Z :=
  wrap 32 (zsum DataSegment.allocated_count (segments m)).

(** ** The offsets that are out *)

Context {V : PosixView} {Sp : PosixSpec}.

(** What is known of segment [i], whose chunks [free] are not handed out. *)
Record seg_ok (m : SegmentManager) (i : nat) (seg : DataSegment.DataSegment)
    (free live : list Z) : Prop := {
  so_rep : DataSegment.ds_rep seg free live;
  so_id : PoolAllocator.segment_id (DataSegment.allocator seg) = Z.of_nat i;
}.

(** [parts] gives each segment's free and live chunks. *)
Record mrep (os : Os) (m : SegmentManager) (parts : list (list Z * list Z)) : Prop := {
  mr_fits : DataSegment.fits_segment (chunk_size m) (chunks_per_segment m) 0 /\
            chunk_size m + 7 < 2 ^ 64;
  mr_count : (0 < length (segments m))%nat /\ Z.of_nat (length (segments m)) <= 2 ^ 16;
  mr_parts : length parts = length (segments m);
  mr_seg : forall i seg fl, segments m !! i = Some seg -> parts !! i = Some fl ->
    seg_ok m i seg fl.1 fl.2;
  mr_names : forall i, 0 <= i < Z.of_nat (length (segments m)) ->
    is_Some (names os !! SharedMemory.normalize_name macos hash (seg_name (name_prefix m) i));
}.

Definition is_live (m : SegmentManager) (parts : list (list Z * list Z)) (off : PointerOffset) : Prop :=
  exists i seg fl k, segments m !! i = Some seg /\ parts !! i = Some fl /\
    k ∈ fl.2 /\ off = DataSegment.chunk seg k.

Lemma mrep_update os m parts i seg fl seg' fl' :
  mrep os m parts -> segments m !! i = Some seg -> parts !! i = Some fl ->
  seg_ok m i seg' fl'.1 fl'.2 ->
  mrep os (with_segments m (<[i := seg']> (segments m))) (<[i := fl']> parts).
Proof.
  intros [] Hi Hp Ho. split; cbn; rewrite ?length_insert; try done.
  - intros j s f Hj Hf.
    apply list_lookup_insert_Some in Hj as [(<- & <- & _)|(Hne & Hj)].
    + rewrite list_lookup_insert_eq in Hf by (by eapply lookup_lt_Some).
      simplify_eq. by destruct Ho.
    + rewrite list_lookup_insert_ne in Hf by done.
      by destruct (mr_seg0 j s f Hj Hf).
Qed.

(** The offsets of the other segments are untouched. *)
Lemma is_live_update m parts i seg fl seg' fl' off :
  segments m !! i = Some seg -> parts !! i = Some fl ->
  is_live (with_segments m (<[i := seg']> (segments m))) (<[i := fl']> parts) off <->
  (exists k, k ∈ fl'.2 /\ off = DataSegment.chunk seg' k) \/
  (exists j s f k, j <> i /\ segments m !! j = Some s /\ parts !! j = Some f /\
     k ∈ f.2 /\ off = DataSegment.chunk s k).
Proof.
  intros Hi Hp. split.
  - intros (j & s & f & k & Hj & Hf & Hk & ->). cbn in Hj.
    apply list_lookup_insert_Some in Hj as [(<- & <- & _)|(Hne & Hj)].
    + rewrite list_lookup_insert_eq in Hf by (by eapply lookup_lt_Some).
      simplify_eq. left. eauto.
    + rewrite list_lookup_insert_ne in Hf by done. right. exists j, s, f, k. eauto 10.
  - intros [(k & Hk & ->)|(j & s & f & k & Hne & Hj & Hf & Hk & ->)].
    + exists i, seg', fl', k. cbn.
      rewrite !list_lookup_insert_eq by (by eapply lookup_lt_Some). done.
    + exists j, s, f, k. cbn. rewrite !list_lookup_insert_ne by done. done.
Qed.

Lemma is_live_split m parts i seg fl off :
  segments m !! i = Some seg -> parts !! i = Some fl ->
  is_live m parts off <->
  (exists k, k ∈ fl.2 /\ off = DataSegment.chunk seg k) \/
  (exists j s f k, j <> i /\ segments m !! j = Some s /\ parts !! j = Some f /\
     k ∈ f.2 /\ off = DataSegment.chunk s k).
Proof.
  intros Hi Hp. rewrite <- (is_live_update m parts i seg fl seg fl off Hi Hp).
  rewrite !list_insert_id by done. by destruct m.
Qed.

(** The segment id of an offset is the index of its segment. *)
Lemma chunk_owner os m parts i seg fl k :
  mrep os m parts -> segments m !! i = Some seg -> parts !! i = Some fl -> k ∈ fl.1 ++ fl.2 ->
  PointerOffset.segment_id (DataSegment.chunk seg k) = Z.of_nat i.
Proof.
  intros Hm Hi Hp Hk. destruct (mr_seg _ _ _ Hm i seg fl Hi Hp) as [Hr <-].
  by destruct (DataSegment.chunk_fields _ _ _ Hr k Hk) as (_ & _ & ?).
Qed.

Lemma other_segment os m parts i seg fl k off :
  mrep os m parts -> segments m !! i = Some seg -> parts !! i = Some fl -> k ∈ fl.1 ++ fl.2 ->
  (exists j s f k', j <> i /\ segments m !! j = Some s /\ parts !! j = Some f /\
     k' ∈ f.2 /\ off = DataSegment.chunk s k') ->
  off <> DataSegment.chunk seg k.
Proof.
  intros Hm Hi Hp Hk (j & s & f & k' & Hne & Hj & Hf & Hk' & ->) He.
  pose proof (chunk_owner os m parts j s f k' Hm Hj Hf) as H1.
  rewrite He, (chunk_owner os m parts i seg fl k Hm Hi Hp Hk) in H1.
  apply Hne. rewrite elem_of_app in H1. specialize (H1 (or_intror Hk')). lia.
Qed.

(** The loop takes the first chunk of the first segment that has one. *)
Lemma try_segments_spec l parts :
  length parts = length l ->
  (forall i seg fl, l !! i = Some seg -> parts !! i = Some fl -> DataSegment.ds_rep seg fl.1 fl.2) ->
  (exists i seg k free live seg',
     l !! i = Some seg /\ parts !! i = Some (k :: free, live) /\
     try_segments l = Ret (Some (DataSegment.chunk seg k), <[i := seg']> l) /\
     DataSegment.ds_rep seg' free (k :: live) /\
     seg' = DataSegment.with_allocator seg (DataSegment.allocator seg') /\
     (forall j, DataSegment.chunk seg' j = DataSegment.chunk seg j)) \/
  (try_segments l = Ret (None, l) /\ Forall (fun fl => fl.1 = []) parts).
Proof.
  revert parts. induction l as [|seg l IH]; intros [|[free live] parts] Hlen Hok; try done.
  { right. by split. }
  pose proof (Hok 0%nat seg _ eq_refl eq_refl) as Hr. cbn in Hr. cbn [try_segments].
  destruct free as [|k free].
  - rewrite (DataSegment.ds_allocate_none _ _ Hr). cbn [obind].
    destruct (IH parts) as [(i & s & k & fr & lv & s' & H1 & H2 & H3 & H4)|[H1 H2]].
    + by injection Hlen.
    + intros i s fl Hi Hp. by apply (Hok (S i)).
    + left. exists (S i), s, k, fr, lv, s'. rewrite H3. done.
    + right. rewrite H1. split; [done|]. by constructor.
  - left. destruct (DataSegment.ds_allocate_some _ _ _ _ Hr) as (seg' & Ha & Hr' & Hc & He).
    exists 0%nat, seg, k, free, live, seg'. rewrite Ha. done.
Qed.

Lemma with_segments_id m : with_segments m (segments m) = m.
Proof. by destruct m. Qed.

Lemma mgr_new_segment os m parts :
  mrep os m parts ->
  exists r os',
  DataSegment.create macos hash os
    (seg_name (name_prefix m) (wrap 16 (Z.of_nat (length (segments m)))))
    (chunk_size m) (chunks_per_segment m) (wrap 16 (Z.of_nat (length (segments m))))
    = Ret (r, os') /\
  match r with
  | Err _ => mrep os' m parts
  | Ok seg =>
      DataSegment.ds_rep seg (seqZ 0 (chunks_per_segment m)) [] /\
      PoolAllocator.segment_id (DataSegment.allocator seg) = Z.of_nat (length (segments m)) /\
      Z.of_nat (length (segments m)) < 2 ^ 16 /\
      (forall i, 0 <= i <= Z.of_nat (length (segments m)) ->
        is_Some (names os' !! SharedMemory.normalize_name macos hash (seg_name (name_prefix m) i)))
  end.
Proof using Sp.
  intros Hm. destruct (mr_fits _ _ _ Hm) as [Hf Hb]. destruct (mr_count _ _ _ Hm) as [Hpos Hle].
  set (id := wrap 16 (Z.of_nat (length (segments m)))).
  assert (Hid : fits 16 id) by by apply wrap_fits.
  assert (Hf' : DataSegment.fits_segment (chunk_size m) (chunks_per_segment m) id)
    by (destruct Hf as (H1 & H2 & _ & H3); exact (conj H1 (conj H2 (conj Hid H3)))).
  destruct (DataSegment.ds_create_spec macos hash os (seg_name (name_prefix m) id) _ _ _ Hb Hf')
    as (r & os1 & Hc & Hr).
  pose proof (DataSegment.ds_create_names macos hash _ _ _ _ _ _ _ Hc) as Hsub.
  exists r, os1. split; [done|]. destruct r as [seg|e].
  - destruct Hr as (Hrep & _ & _ & Hsid & Hnone & o & Hnames & _).
    assert (Hlt : Z.of_nat (length (segments m)) < 2 ^ 16).
    { destruct (decide (Z.of_nat (length (segments m)) < 2 ^ 16)); [done|].
      destruct (mr_names _ _ _ Hm 0 ltac:(lia)) as [x Hx].
      assert (Hid0 : id = 0); [|rewrite Hid0 in Hnone; congruence].
      unfold id. by replace (Z.of_nat (length (segments m))) with (2 ^ 16) by lia. }
    assert (Hidl : id = Z.of_nat (length (segments m)))
      by (apply wrap_small; unfold fits; lia).
    rewrite Hidl in *. split; [done|]. split; [done|]. split; [done|]. intros i Hi.
    destruct (decide (i = Z.of_nat (length (segments m)))) as [->|].
    + rewrite Hnames, lookup_insert_eq. eauto.
    + destruct (mr_names _ _ _ Hm i ltac:(lia)) as [x Hx]. exists x.
      by eapply lookup_weaken.
  - destruct Hm. split; try done. intros i Hi. destruct (mr_names0 i Hi) as [x Hx].
    exists x. by eapply lookup_weaken.
Qed.

(** A segment whose chunks keep their offsets keeps its id. *)
Lemma seg_ok_chunks m i seg seg' k fl free' live' :
  seg_ok m i seg fl.1 fl.2 -> k ∈ fl.1 ++ fl.2 -> k ∈ free' ++ live' ->
  DataSegment.ds_rep seg' free' live' ->
  (forall j, DataSegment.chunk seg' j = DataSegment.chunk seg j) ->
  seg_ok m i seg' free' live'.
Proof.
  intros [Hrep Hid] Hk Hk' Hr' Hch. split; [done|]. rewrite <- Hid.
  destruct (DataSegment.chunk_fields _ _ _ Hrep k Hk) as (_ & _ & <-).
  destruct (DataSegment.chunk_fields _ _ _ Hr' k Hk') as (_ & _ & <-). by rewrite Hch.
Qed.

(** A new segment whose first chunk is handed out. *)
Lemma mgr_grow os' m parts os seg :
  mrep os m parts ->
  DataSegment.ds_rep seg (seqZ 0 (chunks_per_segment m)) [] /\
  PoolAllocator.segment_id (DataSegment.allocator seg) = Z.of_nat (length (segments m)) /\
  Z.of_nat (length (segments m)) < 2 ^ 16 /\
  (forall i, 0 <= i <= Z.of_nat (length (segments m)) ->
    is_Some (names os' !! SharedMemory.normalize_name macos hash (seg_name (name_prefix m) i))) ->
  let off := DataSegment.chunk seg 0 in
  let parts' := parts ++ [(seqZ 1 (chunks_per_segment m - 1), [0])] in
  exists seg', DataSegment.allocate seg = Ret (Ok off, seg') /\
    let m' := with_segments m (segments m ++ [seg']) in
    mrep os' m' parts' /\ ~ is_live m parts off /\
    forall o, is_live m' parts' o <-> o = off \/ is_live m parts o.
Proof using Sp.
  intros Hm (Hrep & Hid & Hlt & Hnm). cbn zeta.
  destruct (mr_fits _ _ _ Hm) as [Hf Hb]. destruct (mr_count _ _ _ Hm) as [Hpos Hle].
  assert (Hcons : seqZ 0 (chunks_per_segment m) = 0 :: seqZ 1 (chunks_per_segment m - 1)).
  { destruct Hf as (_ & ? & _). rewrite seqZ_cons by lia. do 2 f_equal; lia. }
  rewrite Hcons in Hrep. pose proof (mr_parts _ _ _ Hm) as Hlp.
  destruct (DataSegment.ds_allocate_some _ _ _ _ Hrep) as (seg' & Ha & Hr' & Hch & He).
  exists seg'. split; [done|]. split; [|split].
  - split; cbn; rewrite ?length_app; cbn; try done.
    + lia.
    + by rewrite Hlp.
    + intros i s fl Hi Hp. apply lookup_app_Some in Hi as [Hi|[Hge Hi]].
      * rewrite lookup_app_l in Hp by (rewrite Hlp; by eapply lookup_lt_Some).
        by destruct (mr_seg _ _ _ Hm i s fl Hi Hp).
      * rewrite lookup_app_r, Hlp in Hp by (rewrite Hlp; lia).
        destruct (i - length (segments m))%nat as [|?] eqn:E; [|done].
        cbn in Hi, Hp. simplify_eq. replace i with (length (segments m)) by lia.
        apply (seg_ok_chunks _ _ seg s 0 (0 :: seqZ 1 (chunks_per_segment m - 1), []));
          [by split|cbn; left|cbn; set_solver|done|done].
    + intros i Hi. apply Hnm. lia.
  - intros (i & s & fl & k & Hi & Hp & Hk & Heq). apply lookup_lt_Some in Hi as Hil.
    pose proof (chunk_owner _ _ _ _ _ _ k Hm Hi Hp ltac:(set_solver)) as Ho.
    rewrite <- Heq in Ho.
    destruct (DataSegment.chunk_fields _ _ _ Hrep 0 ltac:(left)) as (_ & _ & Hs).
    rewrite Ho, Hid in Hs. lia.
  - intros o. split.
    + intros (i & s & fl & k & Hi & Hp & Hk & ->). cbn in Hi.
      apply lookup_app_Some in Hi as [Hi|[Hge Hi]].
      * rewrite lookup_app_l in Hp by (rewrite Hlp; by eapply lookup_lt_Some).
        right. by exists i, s, fl, k.
      * rewrite lookup_app_r, Hlp in Hp by (rewrite Hlp; lia).
        destruct (i - length (segments m))%nat as [|?]; [|done].
        cbn in Hi, Hp. simplify_eq. left. cbn in Hk. apply list_elem_of_singleton in Hk as ->.
        apply Hch.
    + intros [->|(i & s & fl & k & Hi & Hp & Hk & ->)].
      * exists (length (segments m)), seg', (seqZ 1 (chunks_per_segment m - 1), [0]), 0. cbn.
        rewrite <- Hlp at 2. rewrite !list_lookup_middle by done. split; [done|].
        split; [done|]. split; [set_solver|]. by rewrite Hch.
      * exists i, s, fl, k. cbn. rewrite !lookup_app_l; [done|..].
        -- rewrite Hlp. by eapply lookup_lt_Some.
        -- by eapply lookup_lt_Some.
Qed.

Lemma mgr_allocate os m parts :
  mrep os m parts ->
  exists r m' os' parts', allocate os m = Ret (r, m', os') /\ mrep os' m' parts' /\
  match r with
  | Ok off => ~ is_live m parts off /\
      (forall o, is_live m' parts' o <-> o = off \/ is_live m parts o)
  | Err e => e = OutOfMemory /\ m' = m /\ parts' = parts /\ Forall (fun fl => fl.1 = []) parts
  end.
Proof using Sp.
  intros Hm. unfold allocate.
  destruct (try_segments_spec (segments m) parts (mr_parts _ _ _ Hm)) as
    [(i & seg & k & fr & lv & seg' & Hi & Hp & Ht & Hr' & He & Hch)|[Ht Hfull]].
  { intros i seg fl Hi Hp. apply (mr_seg _ _ _ Hm i seg fl Hi Hp). }
  - rewrite Ht. cbn [obind].
    exists (Ok (DataSegment.chunk seg k)), (with_segments m (<[i := seg']> (segments m))), os,
      (<[i := (fr, k :: lv)]> parts).
    pose proof (mr_seg _ _ _ Hm i seg _ Hi Hp) as Hso. pose proof Hso as [Hrep Hid]. cbn in Hrep.
    assert (Hk : k ∉ lv).
    { pose proof (DataSegment.ds_NoDup _ _ _ Hrep) as Hnd. cbn in Hnd.
      apply NoDup_cons in Hnd as [Hnd _]. set_solver. }
    split; [done|]. split.
    { apply (mrep_update os m parts i seg (k :: fr, lv)); try done.
      apply (seg_ok_chunks m i seg seg' k (k :: fr, lv)); [done|cbn; left|cbn; set_solver|done|done]. }
    assert (Hkin : k ∈ (k :: fr, lv).1 ++ (k :: fr, lv).2) by (cbn; left).
    split.
    + rewrite (is_live_split m parts i seg _ _ Hi Hp). intros [(j & Hj & He2)|Ho].
      * cbn in Hj. apply (DataSegment.chunk_inj _ _ _ Hrep) in He2;
          [by subst|left|cbn; right; apply elem_of_app; by right].
      * by apply (other_segment os m parts i seg _ k _ Hm Hi Hp Hkin Ho).
    + intros o. rewrite (is_live_update m parts i seg _ _ _ _ Hi Hp).
      rewrite (is_live_split m parts i seg _ o Hi Hp). cbn. split.
      * intros [(j & Hj & ->)|Ho]; [|by right; right]. rewrite Hch.
        apply elem_of_cons in Hj as [->|Hj]; [by left|]. right. left. eauto.
      * intros [->|[(j & Hj & ->)|Ho]]; [left|left|by right].
        -- exists k. rewrite Hch. split; [left|done].
        -- exists j. rewrite Hch. split; [by right|done].
  - rewrite Ht. cbn [obind]. rewrite with_segments_id.
    destruct (mgr_new_segment _ _ _ Hm) as (r & os1 & -> & Hr). cbn [obind].
    destruct r as [seg|e]; [|by exists (Err OutOfMemory), m, os1, parts].
    destruct (mgr_grow os1 m parts os seg Hm Hr) as (seg' & -> & Hm' & Hnew & Hall). cbn [obind].
    exists (Ok (DataSegment.chunk seg 0)). by do 3 eexists.
Qed.

Lemma mgr_deallocate os m parts off :
  mrep os m parts -> is_live m parts off ->
  exists m' parts', deallocate m off = Ret m' /\ mrep os m' parts' /\
    segments m' <> [] /\ forall o, is_live m' parts' o <-> is_live m parts o /\ o <> off.
Proof using Sp.
  intros Hm (i & seg & [fr lv] & k & Hi & Hp & Hk & ->). cbn in Hk.
  assert (Hkin : k ∈ (fr, lv).1 ++ (fr, lv).2) by (cbn; set_solver).
  unfold deallocate. rewrite (chunk_owner _ _ _ _ _ _ _ Hm Hi Hp Hkin).
  pose proof (lookup_lt_Some _ _ _ Hi) as Hlt.
  rewrite (proj2 (Z.ltb_lt _ _)) by lia. unfold index. rewrite Nat2Z.id, Hi. cbn [obind].
  pose proof (mr_seg _ _ _ Hm i seg _ Hi Hp) as Hso. pose proof Hso as [Hrep Hid]. cbn in Hrep.
  apply elem_of_Permutation in Hk as [lv' Hperm].
  pose proof (DataSegment.ds_rep_perm _ _ _ _ Hrep Hperm) as Hrep'.
  destruct (DataSegment.ds_deallocate_some _ _ _ _ Hrep') as (seg' & Hd & Hr' & Hch & _).
  rewrite Hd. cbn [obind].
  assert (Hknot : k ∉ lv').
  { pose proof (DataSegment.ds_NoDup _ _ _ Hrep') as Hnd. apply NoDup_app in Hnd as (_ & _ & Hnd).
    by apply NoDup_cons in Hnd as [? _]. }
  eexists _, (<[i := (k :: fr, lv')]> parts). split; [done|]. split; [|split].
  - apply (mrep_update os m parts i seg (fr, lv)); try done.
    apply (seg_ok_chunks m i seg seg' k (fr, lv)); try done. cbn. left.
  - intros He. apply (f_equal length) in He. cbn in He. rewrite length_insert in He. lia.
  - intros o. rewrite (is_live_update m parts i seg _ _ _ _ Hi Hp).
    rewrite (is_live_split m parts i seg _ o Hi Hp). cbn. split.
    + intros [(j & Hj & ->)|Ho].
      * rewrite Hch. split; [left; exists j; split; [|done]; rewrite Hperm; by right|].
        intros He. apply (DataSegment.chunk_inj _ _ _ Hrep') in He;
          [by subst|apply elem_of_app; right; by right|apply elem_of_app; right; left].
      * split; [by right|]. by apply (other_segment os m parts i seg _ k _ Hm Hi Hp Hkin Ho).
    + intros [[(j & Hj & ->)|Ho] Hne]; [|by right]. left. exists j. rewrite Hch.
      split; [|done]. rewrite Hperm in Hj. apply elem_of_cons in Hj as [->|]; [done|done].
Qed.

(** ** A manager in use

    The calls of a client that gives back only what it holds: [held] are the
    offsets it has been given and not given back. *)
Record client := { c_os : Os; c_mgr : SegmentManager; held : list PointerOffset }.

Inductive step : client -> client -> Prop :=
| step_alloc os m L off m' os' :
    allocate os m = Ret (Ok off, m', os') ->
    step (Build_client os m L) (Build_client os' m' (off :: L))
| step_alloc_err os m L e m' os' :
    allocate os m = Ret (Err e, m', os') ->
    step (Build_client os m L) (Build_client os' m' L)
| step_free os m L1 off L2 m' :
    deallocate m off = Ret m' ->
    step (Build_client os m (L1 ++ off :: L2)) (Build_client os m' (L1 ++ L2)).

Definition started (prefix : string) (cs count : Z) (c : client) : Prop :=
  exists os0, create os0 prefix cs count = Ret (Ok (c_mgr c), c_os c) /\ held c = [].

Definition inv (c : client) : Prop :=
  exists parts, mrep (c_os c) (c_mgr c) parts /\ NoDup (held c) /\
    forall o, o ∈ held c <-> is_live (c_mgr c) parts o.

Lemma started_inv prefix cs count c :
  cs + 7 < 2 ^ 64 -> DataSegment.fits_segment cs count 0 -> started prefix cs count c -> inv c.
Proof using Sp.
  intros Hb Hf (os0 & Hc & Hheld). destruct c as [os m L]. cbn in *. subst L.
  unfold create in Hc.
  destruct (DataSegment.ds_create_spec macos hash os0 (seg_name prefix 0) cs count 0 Hb Hf)
    as (r & os1 & Hd & Hr). rewrite Hd in Hc. cbn [obind] in Hc.
  destruct r as [seg|]; [|done]. simplify_eq.
  destruct Hr as (Hrep & _ & _ & Hid & _ & o & Hnames & _).
  exists [(seqZ 0 count, [])]. split; [split; cbn; try done|split; [constructor|]].
  - split; lia.
  - intros [|i] s fl Hi Hp; [|done]. cbn in *. by simplify_eq.
  - intros i Hi. replace i with 0 by lia. rewrite Hnames, lookup_insert_eq. eauto.
  - intros x. split; [by intros ?%elem_of_nil|].
    intros ([|i] & s & fl & k & Hi & Hp & Hk & _); [|done]. cbn in *. simplify_eq.
    by apply elem_of_nil in Hk.
Qed.

Lemma step_inv c c' : inv c -> step c c' -> inv c'.
Proof using Sp.
  intros (parts & Hm & Hnd & Hl) Hs. destruct Hs as [os m L off m' os' Ha|os m L e m' os' Ha|os m L1 off L2 m' Hd]; cbn in *.
  - destruct (mgr_allocate _ _ _ Hm) as (r & m1 & os1 & parts' & Ha' & Hm' & Hr).
    rewrite Ha' in Ha. simplify_eq. destruct Hr as [Hnew Hall]. exists parts'. split; [done|].
    cbn. split; [apply NoDup_cons; split; [by rewrite Hl|done]|].
    intros o. rewrite elem_of_cons, Hl. by rewrite Hall.
  - destruct (mgr_allocate _ _ _ Hm) as (r & m1 & os1 & parts' & Ha' & Hm' & Hr).
    rewrite Ha' in Ha. simplify_eq. destruct Hr as (_ & -> & -> & _). by exists parts.
  - assert (Hlive : is_live m parts off) by (apply Hl; apply elem_of_app; right; left).
    destruct (mgr_deallocate _ _ _ _ Hm Hlive) as (m1 & parts' & Hd' & Hm' & _ & Hall).
    rewrite Hd' in Hd. simplify_eq. exists parts'. split; [done|]. cbn.
    rewrite <- Permutation_middle in Hnd. apply NoDup_cons in Hnd as [Hnin Hnd].
    split; [done|]. intros o. rewrite Hall, <- Hl, <- Permutation_middle, elem_of_cons.
    split; [intros Ho; split; [by right|by intros ->]|by intros [[->|?] ?]].
Qed.

(** C27: However a client uses a manager, the offsets it holds are pairwise
    different; each resolves, without panic and within the bounds its debug
    assertions state, in the segment its id names; giving one back succeeds;
    and the manager never holds more than 65536 segments, so that the 16-bit
    segment ids stay unique although [allocate] truncates them. *)
Theorem segment_manager_safe prefix cs count c c' :
  cs + 7 < 2 ^ 64 -> DataSegment.fits_segment cs count 0 ->
  started prefix cs count c -> rtc step c c' ->
  NoDup (held c') /\
  Z.of_nat (length (segments (c_mgr c'))) <= 2 ^ 16 /\
  (exists r m os, allocate (c_os c') (c_mgr c') = Ret (r, m, os)) /\
  (forall off, off ∈ held c' ->
    (exists a, resolve_ptr (c_mgr c') off = Ret a) /\
    (exists m, deallocate (c_mgr c') off = Ret m) /\
    exists seg, segments (c_mgr c') !! Z.to_nat (PointerOffset.segment_id off) = Some seg /\
      PoolAllocator.segment_id (DataSegment.allocator seg) = PointerOffset.segment_id off /\
      DataSegment.resolve_debug_assert seg off = true).
Proof using Sp.
  intros Hb Hf Hs Hr.
  assert (Hinv : inv c').
  { apply (invariant_rtc step (started prefix cs count) inv c c'); [|done|done].
    split; [intros x; by apply started_inv|intros x y; apply step_inv]. }
  destruct Hinv as (parts & Hm & Hnd & Hl). split; [done|].
  split; [apply (mr_count _ _ _ Hm)|].
  split. { destruct (mgr_allocate _ _ _ Hm) as (r & m & os & _ & Ha & _). eauto. }
  intros off Hoff%Hl. split; [|split].
  - destruct Hoff as (i & seg & fl & k & Hi & Hp & Hk & ->).
    unfold resolve_ptr, index. rewrite (chunk_owner _ _ _ _ _ _ _ Hm Hi Hp)
      by (apply elem_of_app; by right). rewrite Nat2Z.id, Hi. cbn. eauto.
  - destruct (mgr_deallocate _ _ _ _ Hm Hoff) as (m & _ & Hd & _). eauto.
  - destruct Hoff as (i & seg & fl & k & Hi & Hp & Hk & ->).
    assert (Hk2 : k ∈ fl.1 ++ fl.2) by (apply elem_of_app; by right).
    rewrite (chunk_owner _ _ _ _ _ _ _ Hm Hi Hp Hk2), Nat2Z.id.
    destruct (mr_seg _ _ _ Hm i seg fl Hi Hp) as [Hrep Hid]. exists seg.
    split; [done|]. split; [done|]. by destruct (DataSegment.chunk_inside _ _ _ Hrep k Hk2) as [? _].
Qed.
End manager.

Section witness.
Import ToyOs.
#[local] Abbreviation create' := (create (P := toy_posix) false no_hash).
#[local] Abbreviation allocate' := (allocate (P := toy_posix) false no_hash).

(** One-chunk segments: the second allocation creates a second segment. *)
Definition two_allocations : outcome client :=
  let! (r, os) := create' (empty_os 100000) "m" 16 1 in
  match r with
  | Err _ => Panic
  | Ok m =>
      let! (r1, m, os) := allocate' os m in
      let! (r2, m, os) := allocate' os m in
      match r1, r2 with
      | Ok a, Ok b => Ret (Build_client (P := toy_posix) os m [b; a])
      | _, _ => Panic
      end
  end.

Lemma two_allocations_ids :
  match two_allocations with
  | Ret c => PointerOffset.segment_id <$> held c
  | _ => []
  end = [1; 0].
Proof. vm_compute. reflexivity. Qed.

Lemma segment_manager_safe_witness :
  exists c : client (P := toy_posix), two_allocations = Ret c /\
    (PointerOffset.segment_id <$> held c) = [1; 0] /\ NoDup (held c).
Proof.
  pose proof two_allocations_ids as Hids.
  destruct two_allocations as [c| |] eqn:E; [|discriminate Hids..].
  exists c. split; [reflexivity|]. split; [exact Hids|]. clear Hids.
  unfold two_allocations in E.
  destruct (create' _ _ _ _) as [[[m|e] os]| |] eqn:E0; cbn [obind] in E; try discriminate.
  destruct (allocate' os m) as [[[r1 m1] os1]| |] eqn:E1; cbn [obind] in E; try discriminate.
  destruct (allocate' os1 m1) as [[[r2 m2] os2]| |] eqn:E2; cbn [obind] in E; try discriminate.
  destruct r1 as [a|]; [|discriminate]. destruct r2 as [b|]; [|discriminate].
  injection E as <-.
  apply (segment_manager_safe false no_hash "m" 16 1
           (Build_client (P := toy_posix) os m [])).
  - lia.
  - vm_compute. repeat split; congruence.
  - exists (empty_os 100000). split; [exact E0|reflexivity].
  - eapply rtc_l; [apply step_alloc; exact E1|].
    eapply rtc_l; [apply step_alloc; exact E2|]. apply rtc_refl.
Defined.
End witness.
End SegmentManager.
