(* ===== verification/Config.v ===== *)
(** * Data of the public API
    (crates/entangle/src/contracts.rs, config.rs, error.rs)

    Service names and their validation, quality-of-service settings with
    their defaults, the configuration file, and the error types of the
    service and port layers with their [From] conversions. *)
From Stdlib Require Import Ascii.
From S2P Require Import Prelude Contracts Shm.
#[local] Open Scope Z_scope.

(** ** Strings as lists of bytes *)

(** [str::replace] of one character by another. *)
Fixpoint replace_char (a b : ascii) (s : string) : string :=
  match s with
  | EmptyString => EmptyString
  | String c s => String (if Ascii.eqb c a then b else c) (replace_char a b s)
  end.

Fixpoint all_bytes (p : ascii -> bool) (s : string) : bool :=
  match s with
  | EmptyString => true
  | String c s => p c && all_bytes p s
  end.

Definition byte_of (c : ascii) : Z := Z.of_nat (nat_of_ascii c).

Definition slash : ascii := "/"%char.
Definition underscore : ascii := "_"%char.

(** [name.replace('/', "_")], used for file and segment names. *)
Definition safe_name (name : string) : string := replace_char slash underscore name.

(** [u8::is_ascii_alphanumeric]. *)
Definition is_ascii_alphanumeric (c : ascii) : bool :=
  let b := byte_of c in
  ((48 <=? b) && (b <=? 57)) || ((65 <=? b) && (b <=? 90)) || ((97 <=? b) && (b <=? 122)).

Lemma all_bytes_replace a b p s :
  p b = true -> all_bytes (fun c => Ascii.eqb c a || p c) s = true ->
  all_bytes p (replace_char a b s) = true.
Proof.
  intros Hb. induction s as [|c s IH]; [done|]. cbn. intros [Hc Hs]%andb_prop.
  rewrite IH by done. destruct (Ascii.eqb c a); cbn in *; by rewrite ?Hb, ?Hc.
Qed.

Lemma all_bytes_impl (p q : ascii -> bool) s :
  (forall c, p c = true -> q c = true) -> all_bytes p s = true -> all_bytes q s = true.
Proof.
  intros Hpq. induction s as [|c s IH]; [done|]. cbn. intros [Hc Hs]%andb_prop.
  by rewrite Hpq, IH.
Qed.

Lemma length_replace a b s : String.length (replace_char a b s) = String.length s.
Proof. induction s as [|c s IH]; [done|]. cbn. by rewrite IH. Qed.

(** Names that do not contain the replacement come back from it. *)
Lemma replace_char_inj a b s t :
  all_bytes (fun c => negb (Ascii.eqb c b)) s = true ->
  all_bytes (fun c => negb (Ascii.eqb c b)) t = true ->
  replace_char a b s = replace_char a b t -> s = t.
Proof.
  revert t. induction s as [|c s IH]; intros [|d t]; try done; cbn.
  intros [Hc Hs]%andb_prop [Hd Ht]%andb_prop. intros [= He Hst].
  rewrite (IH t) by done. f_equal. apply negb_true_iff, Ascii.eqb_neq in Hc, Hd.
  destruct (Ascii.eqb_spec c a), (Ascii.eqb_spec d a); congruence.
Qed.

(** ** contracts.rs *)

(** [pub struct NodeId(pub u128)]. *)
Definition NodeId : Type := Z.

Module ServiceName.

Definition is_name_byte (c : ascii) : bool :=
  is_ascii_alphanumeric c ||
  (Ascii.eqb c "/" || Ascii.eqb c "-" || Ascii.eqb c "_" || Ascii.eqb c ".")%char.

Definition new (name : string) : result string string :=
  if (Z.of_nat (String.length name) =? 0) || (255 <? Z.of_nat (String.length name))
  then Err "service name must be 1-255 bytes"%string
  else if negb (all_bytes is_name_byte name)
  then Err "service name contains invalid characters"%string
  else Ok name.

(** A file name: not empty and without a path separator. *)
Definition is_file_name (s : string) : Prop :=
  s <> EmptyString /\ all_bytes (fun c => negb (Ascii.eqb c slash)) s = true.

Lemma safe_name_no_slash s :
  all_bytes (fun c => negb (Ascii.eqb c slash)) (safe_name s) = true.
Proof.
  unfold safe_name. apply all_bytes_replace; [done|]. induction s as [|c s IH]; [done|]. cbn.
  rewrite IH. destruct (Ascii.eqb c slash); done.
Qed.

(** [ServiceName::new] accepts exactly the names of 1 to 255 bytes made of
    ASCII letters, digits, slash, dash, underscore and dot, unchanged; the
    segment and file names derived from an accepted name have the same length
    and contain no path separator, but names that differ only in a slash and
    an underscore are mapped to the same one. *)
Theorem service_name_new name :
  match new name with
  | Ok n =>
      n = name /\ 1 <= Z.of_nat (String.length name) <= 255 /\
      all_bytes is_name_byte name = true /\ is_file_name (safe_name n) /\
      String.length (safe_name n) = String.length name
  | Err e =>
      (e = "service name must be 1-255 bytes"%string /\
       (name = EmptyString \/ 255 < Z.of_nat (String.length name))) \/
      (e = "service name contains invalid characters"%string /\
       1 <= Z.of_nat (String.length name) <= 255 /\ all_bytes is_name_byte name = false)
  end /\
  (exists a b, a <> b /\ new a = Ok a /\ new b = Ok b /\ safe_name a = safe_name b).
Proof.
  split.
  - unfold new. destruct (Z.of_nat (String.length name) =? 0) eqn:E0; cbn [orb]; zbool.
    { left. split; [done|]. left. by destruct name. }
    destruct (255 <? _) eqn:E1; zbool; [left; auto|].
    destruct (all_bytes is_name_byte name) eqn:Ea; cbn [negb]; [|right; repeat split; auto; lia].
    split; [done|]. split; [lia|]. split; [done|].
    split; [split; [|apply safe_name_no_slash]|apply length_replace].
    intros He. apply (f_equal String.length) in He. unfold safe_name in He.
    rewrite length_replace in He. cbn in He. lia.
  - exists "a/b"%string, "a_b"%string. repeat split; [congruence|..]; reflexivity.
Qed.
End ServiceName.

Inductive OverflowStrategy := Overwrite | DropNewest | Block.

Inductive PatternType := PubSub | Event | ReqRes | Blackboard.

#[global] Instance PatternType_eq_dec : EqDecision PatternType.
Proof. solve_decision. Defined.

(** The discriminants of [#[repr(u32)] enum PatternType]. *)
Definition PatternType_as_u32 (p : PatternType) : Z :=
  match p with PubSub => 1 | Event => 2 | ReqRes => 3 | Blackboard => 4 end.

Record PubSubQos := {
  history_size : Z;
  max_publishers : Z;
  max_subscribers : Z;
  subscriber_overflow : OverflowStrategy;
  max_loaned_samples : Z;
  buffer_size : Z;
}.

Record EventQos := { max_notifiers : Z; max_listeners : Z }.

Record ReqResQos := { max_clients : Z; max_servers : Z; max_pending_requests : Z }.

Definition MAGIC_NUMBER : Z := 0x5A4349500001.

(** ** config.rs *)

Record EntangleConfig := {
  shm_root : string;
  node_name : option string;
  default_pubsub_qos : PubSubQos;
  default_event_qos : EventQos;
}.

Definition PubSubQos_default : PubSubQos := {|
  history_size := 1;
  max_publishers := 8;
  max_subscribers := 16;
  subscriber_overflow := Overwrite;
  max_loaned_samples := 4;
  buffer_size := 64;
|}.

Definition EventQos_default : EventQos := {| max_notifiers := 8; max_listeners := 16 |}.

Definition EntangleConfig_default : EntangleConfig := {|
  shm_root := "/tmp/entangle/";
  node_name := None;
  default_pubsub_qos := PubSubQos_default;
  default_event_qos := EventQos_default;
|}.

(** [EntangleConfig::load]: [read] is the file system, [parse] is the ron crate. *)
Definition load (read : string -> option string) (parse : string -> option EntangleConfig)
    (path : string) : EntangleConfig :=
  default EntangleConfig_default (read path ≫= parse).

(** ** error.rs *)

Inductive ServiceError :=
| AlreadyExists (name : string)
| NotFound (name : string)
| IncompatibleQos (reason : string)
| Corrupted (reason : string)
| VersionMismatch (expected found : Z)
| ServicePlatform (e : PlatformError).

Inductive PortError :=
| Loan (e : LoanError)
| Send (e : SendError)
| Receive (e : ReceiveError)
| ConnectionLost (peer_id : Z).

Inductive IpcError :=
| Service (e : ServiceError)
| Port (e : PortError)
| Platform (e : PlatformError).

#[global] Instance ServiceError_eq_dec : EqDecision ServiceError.
Proof. solve_decision. Defined.
#[global] Instance PortError_eq_dec : EqDecision PortError.
Proof. solve_decision. Defined.
#[global] Instance IpcError_eq_dec : EqDecision IpcError.
Proof. solve_decision. Defined.

(** The conversions that [?] uses. *)
Class From (A B : Type) := from : A -> B.
#[global] Instance IpcError_from_service : From ServiceError IpcError := Service.
#[global] Instance IpcError_from_port : From PortError IpcError := Port.
#[global] Instance IpcError_from_platform : From PlatformError IpcError := Platform.
#[global] Instance ServiceError_from_platform : From PlatformError ServiceError := ServicePlatform.
#[global] Instance PortError_from_loan : From LoanError PortError := Loan.
#[global] Instance PortError_from_send : From SendError PortError := Send.
#[global] Instance PortError_from_receive : From ReceiveError PortError := Receive.
