(* ===== verification/Paths.v ===== *)
(** * Paths (std's [Path::join] and [Path::parent])

    Paths are strings; a component is joined with one separator. *)
From Stdlib Require Import Ascii.
From S2P Require Import Prelude.

Fixpoint ends_with_slash (s : string) : bool :=
  match s with
  | EmptyString => false
  | String c EmptyString => Ascii.eqb c "/"
  | String _ s => ends_with_slash s
  end.

(** [Path::join] of a relative component. *)
Definition join (a b : string) : string :=
  match a with
  | EmptyString => b
  | _ => if ends_with_slash a then String.append a b
         else String.append a (String.append "/" b)
  end.

(** [Path::parent], on the reversed characters: trailing separators do not
    count; the root and the empty path have no parent. *)
Fixpoint strip_slashes (l : list ascii) : list ascii :=
  match l with
  | c :: l' => if Ascii.eqb c "/" then strip_slashes l' else l
  | [] => []
  end.

Fixpoint drop_name (l : list ascii) : option (list ascii) :=
  match l with
  | c :: l' => if Ascii.eqb c "/" then Some l else drop_name l'
  | [] => None
  end.

Definition parent (s : string) : option string :=
  match strip_slashes (rev (String.list_ascii_of_string s)) with
  | [] => None
  | l =>
      match drop_name l with
      | None => Some EmptyString
      | Some l =>
          match strip_slashes l with
          | [] => Some "/"%string
          | l => Some (String.string_of_list_ascii (rev l))
          end
      end
  end.

Example parent_examples :
  parent "/tmp/entangle/nodes/2a" = Some "/tmp/entangle/nodes"%string /\
  parent "/a" = Some "/"%string /\ parent "a" = Some EmptyString /\ parent "/" = None /\
  parent "a//b/" = Some "a"%string.
Proof. vm_compute. auto. Qed.

Lemma join_inj a b c : join a b = join a c -> b = c.
Proof.
  destruct a as [|x a]; cbn [join]; [done|].
  assert (Happ : forall s t u, String.append s t = String.append s u -> t = u).
  { intros s t u. induction s as [|y s IH]; [done|].
    change (String.append (String y s) t) with (String y (String.append s t)).
    change (String.append (String y s) u) with (String y (String.append s u)).
    intros [= ?]. auto. }
  destruct (ends_with_slash _); intros H; apply Happ in H; [done|]. by apply Happ in H.
Qed.

(** The names below a directory: what follows its path and the separator. *)
Fixpoint strip_prefix (p s : string) : option string :=
  match p, s with
  | EmptyString, _ => Some s
  | String c p, String d s => if Ascii.eqb c d then strip_prefix p s else None
  | _, _ => None
  end.

Definition below (d s : string) : option string :=
  match d with
  | EmptyString => Some s
  | _ => strip_prefix (if ends_with_slash d then d else String.append d "/") s
  end.

Lemma strip_prefix_append p s : strip_prefix p (String.append p s) = Some s.
Proof.
  induction p as [|c p IH]; [done|]. change (String.append (String c p) s) with (String c (String.append p s)).
  cbn. by rewrite Ascii.eqb_refl.
Qed.

Lemma append_assoc a b c : String.append a (String.append b c) = String.append (String.append a b) c.
Proof.
  induction a as [|x a IH]; [done|].
  change (String x (String.append a (String.append b c)) = String x (String.append (String.append a b) c)).
  by rewrite IH.
Qed.

Lemma below_join d nm : below d (join d nm) = Some nm.
Proof.
  destruct d as [|c d]; [done|]. unfold below, join.
  destruct (ends_with_slash _); [apply strip_prefix_append|].
  rewrite append_assoc. apply strip_prefix_append.
Qed.

(** The name of a directory entry: one component, not [.] or [..]. *)
Fixpoint no_slash (s : string) : bool :=
  match s with
  | EmptyString => true
  | String c s => negb (Ascii.eqb c "/") && no_slash s
  end.

Definition is_name (s : string) : bool :=
  negb (String.eqb s "") && negb (String.eqb s ".") && negb (String.eqb s "..") && no_slash s.

Lemma no_slash_append s t : no_slash (String.append s t) = no_slash s && no_slash t.
Proof.
  induction s as [|c s IH]; [done|]. change (String.append (String c s) t) with (String c (String.append s t)).
  cbn [no_slash]. by rewrite IH, andb_assoc.
Qed.

(** A longer name is none of the special ones. *)
Lemma is_name_long s : (2 < String.length s)%nat -> no_slash s = true -> is_name s = true.
Proof.
  intros Hl Hs. unfold is_name. rewrite Hs, andb_true_r.
  destruct (String.eqb_spec s ""), (String.eqb_spec s "."), (String.eqb_spec s ".."); subst; cbn in Hl; done || lia.
Qed.

Lemma strip_prefix_some p s t : strip_prefix p s = Some t -> s = String.append p t.
Proof.
  revert s. induction p as [|c p IH]; intros s; cbn; [by intros [= ->]|]. destruct s as [|d s]; [done|].
  destruct (Ascii.eqb_spec c d) as [->|]; [|done]. intros ->%IH. done.
Qed.

Lemma below_some d s t : below d s = Some t -> s = join d t.
Proof.
  unfold below, join. destruct d as [|c d]; [by intros [= ->]|]. intros H%strip_prefix_some. rewrite H.
  destruct (ends_with_slash _); [done|]. by rewrite <- append_assoc.
Qed.

(** [q] is [p] or one of the directories on the way to it. *)
Definition leads_to (q p : string) : Prop := q = p \/ is_Some (below q p).

Lemma strip_prefix_length p s t : strip_prefix p s = Some t -> (String.length p <= String.length s)%nat.
Proof.
  revert s. induction p as [|c p IH]; intros s; cbn; [lia|]. destruct s as [|d s]; [done|].
  destruct (Ascii.eqb c d); [|done]. intros H%IH. cbn. lia.
Qed.

Lemma length_append s t : String.length (String.append s t) = (String.length s + String.length t)%nat.
Proof.
  induction s as [|c s IH]; [done|]. change (String.append (String c s) t) with (String c (String.append s t)).
  cbn. by rewrite IH.
Qed.

Lemma leads_to_length q p : leads_to q p -> (String.length q <= String.length p)%nat.
Proof.
  intros [->|[t Ht]]; [done|]. unfold below in Ht. destruct q as [|c q]; [cbn; lia|].
  apply strip_prefix_length in Ht. destruct (ends_with_slash (String c q)); [done|].
  rewrite length_append in Ht. lia.
Qed.

(** An entry of a directory is not on the way to the directory. *)
Lemma entry_not_on_the_way d nm : nm <> EmptyString -> ~ leads_to (join d nm) d.
Proof.
  intros Hn Hl%leads_to_length. assert (0 < String.length nm)%nat by (destruct nm; [done|cbn; lia]).
  unfold join in Hl. destruct d as [|c d]; [cbn in Hl; lia|].
  destruct (ends_with_slash _); rewrite ?length_append in Hl; cbn in Hl; lia.
Qed.
