(* ===== verification/Service.v ===== *)
(** * Services: static configuration, registry, lifecycle
    (crates/entangle/src/service/config.rs, registry.rs, lifecycle.rs)

    A service is registered by a file that holds its [StaticConfig] in RON.
    The ron crate is the pair of functions of the class [Ron]; the file
    operations of the standard library are those of the class [FileSystem],
    whose documented behaviour is [FileSystemSpec], in terms of the files and
    directories that exist and the contents of the files. *)
From Stdlib Require Import Ascii.
From stdpp Require Import pretty.
From S2P Require Import Prelude Paths Contracts Shm Config.
#[local] Open Scope Z_scope.
#[local] Open Scope rust_scope.

(** ** StaticConfig *)
Module StaticConfig.

Record StaticConfig := mk {
  magic : Z;
  version : Z;
  pattern : PatternType;
  service_name : string;
  payload_type_name : string;
  payload_size : Z;
  payload_align : Z;
}.

#[global] Instance StaticConfig_eq_dec : EqDecision StaticConfig.
Proof. solve_decision. Defined.

Definition new (pattern : PatternType) (service_name payload_type_name : string)
    (payload_size payload_align : Z) : StaticConfig :=
  mk MAGIC_NUMBER 1 pattern service_name payload_type_name payload_size payload_align.

(** [{:?}] of a pattern and the two messages of [validate_compatibility]. *)
Definition pattern_name (p : PatternType) : string :=
  match p with
  | PubSub => "PubSub" | Event => "Event" | ReqRes => "ReqRes" | Blackboard => "Blackboard"
  end.

Definition pattern_mismatch (self other : StaticConfig) : string :=
  ("pattern mismatch: expected " ++ pattern_name (pattern self) ++ ", found "
   ++ pattern_name (pattern other))%string.

Definition layout_mismatch (self other : StaticConfig) : string :=
  ("payload layout mismatch: " ++ pretty (payload_size self) ++ "B/" ++ pretty (payload_align self)
   ++ " vs " ++ pretty (payload_size other) ++ "B/" ++ pretty (payload_align other))%string.

Definition validate_compatibility (self other : StaticConfig) : result unit ServiceError :=
  if negb (magic self =? magic other) then Err (Corrupted "invalid magic number")
  else if negb (version self =? version other)
  then Err (VersionMismatch (version self) (version other))
  else if negb (bool_decide (pattern self = pattern other))
  then Err (IncompatibleQos (pattern_mismatch self other))
  else if negb (payload_size self =? payload_size other)
       || negb (payload_align self =? payload_align other)
  then Err (IncompatibleQos (layout_mismatch self other))
  else Ok tt.

(** What two processes must agree on. *)
Definition layout (c : StaticConfig) : Z * Z * PatternType * Z * Z :=
  (magic c, version c, pattern c, payload_size c, payload_align c).

Lemma validate_Ok a b : validate_compatibility a b = Ok tt <-> layout a = layout b.
Proof.
  unfold validate_compatibility, layout.
  destruct (magic a =? magic b) eqn:E1; zbool; cbn; [|split; [done|congruence]].
  destruct (version a =? version b) eqn:E2; zbool; cbn; [|split; [done|congruence]].
  case_bool_decide as E3; cbn; [|split; [done|congruence]].
  destruct (payload_size a =? payload_size b) eqn:E4; zbool; cbn; [|split; [done|congruence]].
  destruct (payload_align a =? payload_align b) eqn:E5; zbool; cbn; [|split; [done|congruence]].
  split; [congruence|done].
Qed.
End StaticConfig.
Import StaticConfig (StaticConfig).

(** ** The file system and the RON format *)

(** [std::io::Error]: what the code asks of it is whether its kind is
    [AlreadyExists]. *)
Record IoError := { io_already_exists : bool; io_message : string }.

Class FileSystem := {
  Fs : Type;
  create_dir_all : Fs -> string -> result unit IoError * Fs;
  create_new : Fs -> string -> result unit IoError * Fs;
  write_all : Fs -> string -> string -> result unit IoError * Fs;
  read_to_string : Fs -> string -> result string IoError;
  path_exists : Fs -> string -> bool;
  remove_file : Fs -> string -> result unit IoError * Fs;
  read_dir : Fs -> string -> result (list string) IoError;
}.

(** Paths lead to files, to directories or to nothing; they are in one spelling
    (without links, [.], [..] or doubled separators). *)
Class FileSystemView `{FileSystem} := {
  files : Fs -> gmap string string;
  is_dir : Fs -> string -> bool;
}.

Definition same_dirs `{FileSystemView} (fs fs' : Fs) : Prop := forall q, is_dir fs' q = is_dir fs q.

(** Any call may fail; what an error says is only relied on where it is
    documented.  [exists] answers no when it cannot tell. *)
Class FileSystemSpec `{FileSystemView} := {
  create_dir_all_spec fs p :
    let '(r, fs') := create_dir_all fs p in
    files fs' = files fs /\
    (forall q, is_dir fs q = true -> is_dir fs' q = true) /\
    (forall q, is_dir fs' q = true -> is_dir fs q = true \/ leads_to q p) /\
    (r = Ok tt -> is_dir fs' p = true);
  create_new_spec fs p :
    match create_new fs p with
    | (Ok _, fs') =>
        files fs !! p = None /\ is_dir fs p = false /\
        files fs' = <[p := EmptyString]> (files fs) /\ same_dirs fs fs'
    | (Err e, fs') =>
        files fs' = files fs /\ same_dirs fs fs' /\
        (io_already_exists e = true -> is_Some (files fs !! p) \/ is_dir fs p = true)
    end;
  write_all_spec fs p s d :
    files fs !! p = Some s ->
    match write_all fs p d with
    | (Ok _, fs') => files fs' = <[p := String.append s d]> (files fs) /\ same_dirs fs fs'
    | (Err _, fs') => same_dirs fs fs' /\ exists d1 d2, d = String.append d1 d2 /\
        files fs' = <[p := String.append s d1]> (files fs)
    end;
  read_spec fs p :
    match read_to_string fs p with
    | Ok s => files fs !! p = Some s
    | Err e => True
    end;
  path_exists_spec fs p : path_exists fs p = true -> is_Some (files fs !! p) \/ is_dir fs p = true;
  remove_spec fs p :
    match remove_file fs p with
    | (Ok _, fs') => is_Some (files fs !! p) /\ files fs' = delete p (files fs) /\ same_dirs fs fs'
    | (Err _, fs') => files fs' = files fs /\ same_dirs fs fs'
    end;
  (** The entries of a directory that could be read: those directly in it. *)
  read_dir_spec fs d l p :
    read_dir fs d = Ok l -> p ∈ l ->
    exists nm, is_name nm = true /\ p = join d nm /\ (is_Some (files fs !! p) \/ is_dir fs p = true);
}.

Lemma create_dir_all_files `{FileSystemSpec} fs p : files (snd (create_dir_all fs p)) = files fs.
Proof. pose proof (create_dir_all_spec fs p). destruct (create_dir_all fs p). tauto. Qed.

(** No call fails for want of space or of a permission, and what is read is
    text.  This is an assumption,
    not a law: the theorems that make it have it as a hypothesis. *)
Class FileSystemReady `{FileSystemView} := {
  create_dir_ready fs p : (forall q, leads_to q p -> files fs !! q = None) ->
    exists fs', create_dir_all fs p = (Ok tt, fs');
  read_ready fs p s : files fs !! p = Some s -> read_to_string fs p = Ok s;
  create_new_ready fs d nm :
    is_dir fs d = true -> is_name nm = true ->
    files fs !! join d nm = None -> is_dir fs (join d nm) = false ->
    exists fs', create_new fs (join d nm) = (Ok tt, fs');
  create_taken_ready fs p : is_Some (files fs !! p) ->
    exists e fs', create_new fs p = (Err e, fs') /\ io_already_exists e = true;
  write_ready fs p s d : files fs !! p = Some s -> exists fs', write_all fs p d = (Ok tt, fs');
  path_exists_ready fs p : is_dir fs p = true -> path_exists fs p = true;
  read_dir_ready fs d : is_dir fs d = true ->
    exists l, read_dir fs d = Ok l /\
      forall nm, is_name nm = true -> is_Some (files fs !! join d nm) -> join d nm ∈ l;
}.

Class Ron := {
  to_ron : StaticConfig -> result string string;
  from_ron : string -> result StaticConfig string;
}.

(** What was serialised is read back. *)
Class RonSpec `{Ron} := {
  from_to_ron c s : to_ron c = Ok s -> from_ron s = Ok c;
}.

Definition io_error (e : IoError) : ServiceError := ServicePlatform (Io (io_message e)).

(** ** ServiceRegistry *)
Module ServiceRegistry.

Record ServiceRegistry := mk { root : string }.

Definition new (shm_root : string) : ServiceRegistry := mk (join shm_root "services").

Definition service_path (r : ServiceRegistry) (name : string) : string :=
  join (root r) (String.append (safe_name name) ".ron").

Section registry.
Context `{FileSystem, Ron} (r : ServiceRegistry).

Definition register (fs : Fs) (config : StaticConfig) : result string ServiceError * Fs :=
  match create_dir_all fs (root r) with
  | (Err e, fs) => (Err (io_error e), fs)
  | (Ok _, fs) =>
      let path := service_path r (StaticConfig.service_name config) in
      match to_ron config with
      | Err e => (Err (Corrupted (String.append "serialization failed: " e)), fs)
      | Ok serialized =>
          match create_new fs path with
          | (Err e, fs) =>
              (Err (if io_already_exists e
                    then AlreadyExists (StaticConfig.service_name config) else io_error e), fs)
          | (Ok _, fs) =>
              match write_all fs path serialized with
              | (Err e, fs) => (Err (io_error e), fs)
              | (Ok _, fs) => (Ok path, fs)
              end
          end
      end
  end.

Definition lookup (fs : Fs) (name : string) : result StaticConfig ServiceError :=
  match read_to_string fs (service_path r name) with
  | Err _ => Err (NotFound name)
  | Ok data =>
      map_err (fun e => Corrupted (String.append "deserialization failed: " e)) (from_ron data)
  end.

Definition unregister (fs : Fs) (name : string) : result unit ServiceError * Fs :=
  let path := service_path r name in
  if path_exists fs path then
    match remove_file fs path with
    | (Err e, fs) => (Err (io_error e), fs)
    | (Ok _, fs) => (Ok tt, fs)
    end
  else (Ok tt, fs).

(** The entries that can be read and parsed. *)
Fixpoint collect (fs : Fs) (entries : list string) : list StaticConfig :=
  match entries with
  | [] => []
  | p :: entries =>
      match read_to_string fs p with
      | Ok data =>
          match from_ron data with
          | Ok config => config :: collect fs entries
          | Err _ => collect fs entries
          end
      | Err _ => collect fs entries
      end
  end.

Definition list_services (fs : Fs) : result (list StaticConfig) ServiceError :=
  if negb (path_exists fs (root r)) then Ok []
  else
    match read_dir fs (root r) with
    | Err e => Err (io_error e)
    | Ok entries => Ok (collect fs entries)
    end.
End registry.
End ServiceRegistry.
Import ServiceRegistry (ServiceRegistry).

(** ** ServiceLifecycle *)
Module ServiceLifecycle.

Record ServiceLifecycle := mk { registry : ServiceRegistry }.

Definition new (shm_root : string) : ServiceLifecycle := mk (ServiceRegistry.new shm_root).

Section lifecycle.
Context `{FileSystem, Ron} (l : ServiceLifecycle).

Definition create (fs : Fs) (config : StaticConfig) : result unit ServiceError * Fs :=
  match ServiceRegistry.register (registry l) fs config with
  | (Err e, fs) => (Err e, fs)
  | (Ok _, fs) => (Ok tt, fs)
  end.

Definition open (fs : Fs) (expected : StaticConfig) : result StaticConfig ServiceError :=
  let? existing := ServiceRegistry.lookup (registry l) fs (StaticConfig.service_name expected) in
  let? _ := StaticConfig.validate_compatibility expected existing in
  Ok existing.

Definition open_or_create (fs : Fs) (config : StaticConfig) : result StaticConfig ServiceError * Fs :=
  match open fs config with
  | Ok existing => (Ok existing, fs)
  | Err (NotFound _) =>
      match create fs config with
      | (Err e, fs) => (Err e, fs)
      | (Ok _, fs) => (Ok config, fs)
      end
  | Err e => (Err e, fs)
  end.

Definition destroy (fs : Fs) (name : string) : result unit ServiceError * Fs :=
  ServiceRegistry.unregister (registry l) fs name.
End lifecycle.
End ServiceLifecycle.

(** ** What the registry guarantees *)

Section guarantees.
Context {F : FileSystem} {W : FileSystemView} {FS : FileSystemSpec} {R : Ron} {RS : RonSpec}.
Import StaticConfig ServiceRegistry ServiceLifecycle.

(** A file that exists can be read. *)
Definition readable (fs : Fs) (p : string) : Prop :=
  forall s, files fs !! p = Some s -> read_to_string fs p = Ok s.

Lemma register_spec r fs c :
  match register r fs c with
  | (Ok p, fs') =>
      p = service_path r (service_name c) /\ files fs !! p = None /\
      is_dir fs' (root r) = true /\
      exists s, to_ron c = Ok s /\ files fs' = <[p := s]> (files fs)
  | (Err (AlreadyExists n), fs') =>
      n = service_name c /\ files fs' = files fs /\
      (is_Some (files fs !! service_path r (service_name c)) \/
       is_dir fs' (service_path r (service_name c)) = true)
  | (Err _, fs') =>
      forall q, q <> service_path r (service_name c) -> files fs' !! q = files fs !! q
  end.
Proof using FS.
  unfold register. set (p := service_path _ _).
  pose proof (create_dir_all_spec fs (root r)) as Hd.
  destruct (create_dir_all fs (root r)) as [[[]|e] fs1]; destruct Hd as (Hd & _ & _ & Hdir); cycle 1.
  { intros q _. by rewrite Hd. }
  specialize (Hdir eq_refl).
  destruct (to_ron c) as [s|e] eqn:Es; [|intros q _; by rewrite Hd].
  pose proof (create_new_spec fs1 p) as Hc.
  destruct (create_new fs1 p) as [[[]|e] fs2]; cycle 1.
  { destruct Hc as (Hc1 & Hc2 & Hc3). destruct (io_already_exists e).
    - rewrite Hc1, Hd in *. split; [done|]. split; [done|]. rewrite Hc2. by apply Hc3.
    - intros q _. by rewrite Hc1, Hd. }
  destruct Hc as (Hnone & _ & Hc & Hcd). pose proof (write_all_spec fs2 p EmptyString s) as Hw.
  rewrite Hc, lookup_insert_eq in Hw. specialize (Hw eq_refl).
  destruct (write_all fs2 p s) as [[[]|e] fs3].
  - destruct Hw as [Hw Hwd]. rewrite Hd in *. split; [done|]. split; [done|]. split; [by rewrite Hwd, Hcd|].
    exists s. split; [done|]. rewrite Hw. cbn. by rewrite insert_insert_eq.
  - destruct Hw as (_ & d1 & d2 & _ & Hw). intros q Hq. rewrite Hw, insert_insert_eq.
    by rewrite lookup_insert_ne, Hd.
Qed.

(** What a registration left is what every lookup of its file name finds. *)
Lemma register_lookup r fs c p fs' nm :
  register r fs c = (Ok p, fs') -> readable fs' p ->
  safe_name nm = safe_name (service_name c) -> lookup r fs' nm = Ok c.
Proof using FS RS.
  intros Hr Hrd Hn. pose proof (register_spec r fs c) as Hs. rewrite Hr in Hs.
  destruct Hs as (-> & _ & _ & s & Hs & Hf). unfold lookup, service_path at 1.
  rewrite Hn. fold (service_path r (service_name c)).
  rewrite (Hrd s) by (by rewrite Hf, lookup_insert_eq).
  by rewrite (from_to_ron c s Hs).
Qed.

(** The errors of a registration; where the file exists, nothing changes. *)
Lemma register_taken r fs c :
  match register r fs c with
  | (Ok _, _) => True
  | (Err (AlreadyExists _ | Corrupted _ | ServicePlatform _), fs') =>
      is_Some (files fs !! service_path r (service_name c)) -> files fs' = files fs
  | (Err _, _) => False
  end.
Proof using FS.
  unfold register. set (p := service_path _ _).
  pose proof (create_dir_all_files fs (root r)) as Hd.
  destruct (create_dir_all fs (root r)) as [[[]|e] fs1]; cbn in Hd; [|cbn; congruence].
  destruct (to_ron c) as [s|e]; [|cbn; congruence].
  pose proof (create_new_spec fs1 p) as Hc.
  destruct (create_new fs1 p) as [[[]|e] fs2].
  - destruct Hc as [Hnone _]. rewrite Hd in Hnone.
    destruct (write_all fs2 p s) as [[[]|e] fs3]; [done|]. intros [x Hx]. cbn. congruence.
  - destruct Hc as [Hc _]. destruct (io_already_exists e); cbn; congruence.
Qed.

Lemma lookup_errors r fs nm e :
  lookup r fs nm = Err e -> e = NotFound nm \/ exists m, e = Corrupted m.
Proof using.
  unfold lookup. destruct (read_to_string _ _) as [d|]; [|intros [= <-]; by left].
  destruct (from_ron d); [done|]. intros [= <-]. right. eauto.
Qed.

(** Opening under another name with the same file name is the same lookup. *)
Lemma open_same_file l fs c d :
  safe_name (service_name d) = safe_name (service_name c) -> layout d = layout c ->
  forall c', open l fs c = Ok c' -> open l fs d = Ok c'.
Proof using.
  intros Hn Hd c'. unfold open, lookup, service_path. rewrite Hn.
  destruct (read_to_string _ _); [|done]. destruct (from_ron a) as [c1|]; [|done]. cbn.
  destruct (validate_compatibility c c1) as [[]|] eqn:Ev; [|done]. intros [= <-].
  apply validate_Ok in Ev. by rewrite (proj2 (validate_Ok d c1)) by congruence.
Qed.

Lemma open_layout l fs c c' :
  open l fs c = Ok c' ->
  layout c' = layout c /\ lookup (registry l) fs (service_name c) = Ok c'.
Proof using.
  unfold open. destruct (lookup _ _ _) as [c1|]; [|done]. cbn.
  destruct (validate_compatibility c c1) as [[]|] eqn:Ev; [|done]. intros [= <-].
  apply validate_Ok in Ev. done.
Qed.

Lemma open_mismatch l fs c e :
  open l fs c = Err e -> (exists n, e = NotFound n) \/ (exists m, e = Corrupted m) \/
  ((exists m, e = IncompatibleQos m) \/ exists v w, e = VersionMismatch v w) /\
  exists c', lookup (registry l) fs (service_name c) = Ok c' /\ layout c' <> layout c.
Proof using.
  unfold open. destruct (lookup _ _ _) as [c1|e1] eqn:El; cbn.
  - destruct (validate_compatibility c c1) as [[]|] eqn:Ev; [done|]. intros [= <-].
    assert (Hl : layout c1 <> layout c).
    { intros Hl. apply eq_sym, validate_Ok in Hl. congruence. }
    unfold validate_compatibility in Ev.
    repeat (case_match; [injection Ev as <-; eauto 10|]). done.
  - intros [= <-]. apply lookup_errors in El as [->|[m ->]]; eauto.
Qed.

(** C34: A service that was registered is found under its name, and under every
    name with the same file name, with exactly the configuration that was
    registered; no further registration of that file name succeeds or changes
    anything, and other services' files are untouched. *)
Theorem registry_roundtrip r fs c p fs' :
  register r fs c = (Ok p, fs') -> readable fs' p ->
  (forall nm, safe_name nm = safe_name (service_name c) -> lookup r fs' nm = Ok c) /\
  (forall d, safe_name (service_name d) = safe_name (service_name c) ->
     exists e fs'', register r fs' d = (Err e, fs'') /\ files fs'' = files fs') /\
  (forall q, q <> p -> files fs' !! q = files fs !! q).
Proof using FS RS.
  intros Hr Hrd. split; [intros nm; by eapply register_lookup|].
  pose proof (register_spec r fs c) as Hs. rewrite Hr in Hs.
  destruct Hs as (-> & Hnone & _ & s & Hs & Hf). split.
  - intros d Hd.
    assert (Hx : is_Some (files fs' !! service_path r (service_name d))).
    { unfold service_path. rewrite Hd. fold (service_path r (service_name c)).
      rewrite Hf, lookup_insert_eq. eauto. }
    pose proof (register_spec r fs' d) as Hsd. pose proof (register_taken r fs' d) as Htk.
    destruct (register r fs' d) as [[q|e] fs''].
    + destruct Hsd as (-> & Hn & _). destruct Hx as [x Hx]. congruence.
    + exists e, fs''. split; [done|]. by destruct e; try done; apply Htk.
  - intros q Hq. by rewrite Hf, lookup_insert_ne.
Qed.

(** [open_or_create], whatever the state of the directory: it either opens
    the service that is registered, whose layout is the caller's, or registers
    the caller's configuration where no file was, so that a second call by a
    process with the same layout opens the same service without writing; and
    it fails with the error of the validation, without writing, when the
    registered layout differs. *)
Theorem open_or_create_spec l fs c :
  let p := service_path (registry l) (service_name c) in
  match open_or_create l fs c with
  | (Ok c', fs') =>
      layout c' = layout c /\
      (fs' = fs /\ lookup (registry l) fs (service_name c) = Ok c' \/
       c' = c /\ files fs !! p = None /\ is_Some (files fs' !! p)) /\
      (forall d, readable fs' p -> safe_name (service_name d) = safe_name (service_name c) ->
         layout d = layout c -> open_or_create l fs' d = (Ok c', fs'))
  | (Err (IncompatibleQos _ | VersionMismatch _ _), fs') =>
      fs' = fs /\ exists c', lookup (registry l) fs (service_name c) = Ok c' /\ layout c' <> layout c
  | (Err _, _) => True
  end.
Proof using FS RS.
  cbn zeta. set (p := service_path (registry l) (service_name c)).
  unfold open_or_create. destruct (open l fs c) as [c'|e] eqn:Eo.
  - destruct (open_layout _ _ _ _ Eo) as [Hlay Hl]. split; [done|].
    split; [by left|]. intros d _ Hn Hd. by rewrite (open_same_file l fs c d Hn Hd c' Eo).
  - apply open_mismatch in Eo as [[n ->]|[[m ->]|[[[m ->]|(v & w & ->)] Hm]]]; [|done..].
    unfold create.
    pose proof (register_spec (registry l) fs c) as Hs.
    pose proof (register_taken (registry l) fs c) as Ht.
    destruct (register (registry l) fs c) as [[q|e] fs'] eqn:Er; [|by destruct e].
    destruct Hs as (-> & Hnone & _ & s & Hs & Hf). split; [done|]. split.
    { right. split; [done|]. split; [done|]. rewrite Hf. unfold p. rewrite lookup_insert_eq. eauto. }
    intros d Hrd Hn Hd.
    assert (Hop : open l fs' d = Ok c); [|by rewrite Hop].
    unfold open. rewrite (register_lookup _ _ _ _ _ _ Er Hrd Hn). cbn.
    by rewrite (proj2 (validate_Ok d c)).
Qed.

(** Two different service names can have the same file: the second service
    is then taken for the first. *)
Lemma name_collision l fs c p fs' d :
  register (registry l) fs c = (Ok p, fs') -> readable fs' p ->
  service_name c = "a/b"%string -> service_name d = "a_b"%string -> layout d = layout c ->
  open_or_create l fs' d = (Ok c, fs').
Proof using FS RS.
  intros Hr Hrd Hc Hd Hl.
  assert (Hn : safe_name (service_name d) = safe_name (service_name c)) by (by rewrite Hc, Hd).
  unfold open_or_create, open. rewrite (register_lookup _ _ _ _ _ _ Hr Hrd Hn). cbn.
  by rewrite (proj2 (validate_Ok d c)).
Qed.

(** Unregistering makes the name free again, when [exists] sees the file. *)
Lemma unregister_spec r fs nm :
  match unregister r fs nm with
  | (Ok _, fs') =>
      files fs' = if path_exists fs (service_path r nm) then delete (service_path r nm) (files fs) else files fs
  | (Err _, fs') => files fs' = files fs
  end.
Proof using FS.
  unfold unregister. set (p := service_path r nm).
  destruct (path_exists fs p) eqn:E; [|done].
  pose proof (remove_spec fs p) as Hr. destruct (remove_file fs p) as [[[]|e] fs']; apply Hr.
Qed.

(** *** Listing *)

Lemma collect_elem fs l c :
  c ∈ collect fs l <-> exists p d, p ∈ l /\ read_to_string fs p = Ok d /\ from_ron d = Ok c.
Proof using.
  induction l as [|p l IH]; cbn.
  - split; [by intros ?%elem_of_nil|]. by intros (p & d & ?%elem_of_nil & _).
  - assert (Hskip : (forall d, read_to_string fs p = Ok d -> from_ron d <> Ok c) ->
      (exists p' d, p' ∈ l /\ read_to_string fs p' = Ok d /\ from_ron d = Ok c) <->
      exists p' d, p' ∈ p :: l /\ read_to_string fs p' = Ok d /\ from_ron d = Ok c).
    { intros Hno. split; intros (p' & d & Hp & Hd & Hc); exists p', d; (split; [|done]); [by right|].
      apply elem_of_cons in Hp as [->|]; [|done]. by destruct (Hno d Hd). }
    destruct (read_to_string fs p) as [d|e] eqn:Ed; [|rewrite IH; by apply Hskip].
    destruct (from_ron d) as [c'|e] eqn:Ec; [|rewrite IH; apply Hskip; intros d' [= <-]; by rewrite Ec].
    rewrite elem_of_cons, IH. split.
    + intros [->|(p' & d' & Hp & Hd)]; [by exists p, d; split; [left|]|]. exists p', d'. split; [by right|done].
    + intros (p' & d' & [->|Hp]%elem_of_cons & Hd & Hc); [left; congruence|right; by exists p', d'].
Qed.

(** The name of the file of a service is that of an entry of the directory. *)
Lemma all_bytes_slash s : all_bytes (fun c => negb (Ascii.eqb c slash)) s = no_slash s.
Proof using. induction s as [|c s IH]; [done|]. cbn. by rewrite IH. Qed.

Lemma service_file_name nm : is_name (String.append (safe_name nm) ".ron") = true.
Proof using.
  apply is_name_long; [rewrite length_append; cbn; lia|].
  rewrite no_slash_append. by rewrite <- all_bytes_slash, ServiceName.safe_name_no_slash.
Qed.

(** C35: ([ServiceRegistry::list])  Whatever the state of the directory, a listing
    that succeeds contains only configurations that are the contents of a file
    directly in the directory of the services.  And where no file operation
    fails for want of space or of a permission ([FileSystemReady]), a service
    that has just been registered is listed, as it was registered. *)
Theorem registry_list r fs :
  (forall cs c, list_services r fs = Ok cs -> c ∈ cs ->
     exists nm d, is_name nm = true /\ files fs !! join (root r) nm = Some d /\ from_ron d = Ok c) /\
  (FileSystemReady -> forall fs0 c p, register r fs0 c = (Ok p, fs) ->
     exists cs, list_services r fs = Ok cs /\ c ∈ cs).
Proof using FS RS.
  unfold list_services. split.
  - intros cs c Hl Hc. destruct (negb _); [by injection Hl as <-; apply elem_of_nil in Hc|].
    destruct (read_dir fs (root r)) as [l|e] eqn:Er; [|done]. injection Hl as <-.
    apply collect_elem in Hc as (p & d & Hp & Hd & Hc).
    destruct (read_dir_spec _ _ _ _ Er Hp) as (nm & Hnm & -> & _). exists nm, d.
    pose proof (read_spec fs (join (root r) nm)) as Hs. by rewrite Hd in Hs.
  - intros Hready fs0 c p Hr. pose proof (register_spec r fs0 c) as Hs. rewrite Hr in Hs.
    destruct Hs as (-> & _ & Hdir & s & Hs & Hf). rewrite (path_exists_ready _ _ Hdir). cbn.
    destruct (read_dir_ready _ _ Hdir) as (l & -> & Hl). eexists. split; [done|]. apply collect_elem.
    assert (Hfile : files fs !! service_path r (service_name c) = Some s) by (by rewrite Hf, lookup_insert_eq).
    exists (service_path r (service_name c)), s. split; [apply Hl; [apply service_file_name|by eexists]|].
    split; [by apply read_ready|by apply from_to_ron].
Qed.
End guarantees.

(** ** A file system and a format with the documented behaviour *)
Module ToyFs.

Definition exists_error : IoError := {| io_already_exists := true; io_message := "EEXIST" |}.
Definition missing_error : IoError := {| io_already_exists := false; io_message := "ENOENT" |}.

(** Files with their contents, and directories. *)
Record toy_disk := mk_disk { d_files : gmap string string; d_dirs : gset string }.

(** [p] is directly in a directory. *)
Definition has_parent (s : toy_disk) (p : string) : bool :=
  existsb (fun d => match below d p with Some nm => is_name nm | None => false end) (elements (d_dirs s)).

Definition in_dir (d p : string) : bool :=
  match below d p with Some nm => is_name nm | None => false end.

#[export] Instance toy_fs : FileSystem := {
  Fs := toy_disk;
  create_dir_all s p :=
    match d_files s !! p with
    | Some _ => (Err exists_error, s)
    | None => (Ok tt, mk_disk (d_files s) ({[p]} ∪ d_dirs s))
    end;
  create_new s p :=
    match d_files s !! p with
    | Some _ => (Err exists_error, s)
    | None =>
        if bool_decide (p ∈ d_dirs s) then (Err exists_error, s)
        else if has_parent s p then (Ok tt, mk_disk (<[p := EmptyString]> (d_files s)) (d_dirs s))
        else (Err missing_error, s)
    end;
  write_all s p d :=
    (Ok tt, mk_disk (<[p := String.append (default EmptyString (d_files s !! p)) d]> (d_files s)) (d_dirs s));
  read_to_string s p :=
    match d_files s !! p with Some d => Ok d | None => Err missing_error end;
  path_exists s p := bool_decide (is_Some (d_files s !! p)) || bool_decide (p ∈ d_dirs s);
  remove_file s p :=
    match d_files s !! p with
    | Some _ => (Ok tt, mk_disk (delete p (d_files s)) (d_dirs s))
    | None => (Err missing_error, s)
    end;
  read_dir s d :=
    if bool_decide (d ∈ d_dirs s)
    then Ok (List.filter (in_dir d) ((map_to_list (d_files s)).*1 ++ elements (d_dirs s)))
    else Err missing_error;
}.

#[export] Instance toy_fs_view : FileSystemView := {
  files := d_files : Fs -> gmap string string;
  is_dir s p := bool_decide (p ∈ d_dirs s);
}.

Lemma entry_elem (s : toy_disk) p :
  p ∈ (map_to_list (d_files s)).*1 ++ elements (d_dirs s) <-> is_Some (d_files s !! p) \/ p ∈ d_dirs s.
Proof.
  rewrite elem_of_app, elem_of_elements, list_elem_of_fmap. split; (intros [Hp|]; [left|by right]).
  - destruct Hp as ([q x] & -> & Hq%elem_of_map_to_list). by eexists.
  - destruct Hp as [x Hx]. exists (p, x). split; [done|]. by apply elem_of_map_to_list.
Qed.

#[export] Instance toy_fs_spec : FileSystemSpec.
Proof.
  split; cbn -[has_parent].
  - intros s p. destruct (d_files s !! p); cbn.
    + split; [done|]. split; [done|]. split; [by left|done].
    + split; [done|]. split; [|split].
      * intros q. rewrite !bool_decide_eq_true. set_solver.
      * intros q. rewrite !bool_decide_eq_true. intros [->%elem_of_singleton|]%elem_of_union; [by right; left|by left].
      * intros _. apply bool_decide_eq_true. set_solver.
  - intros s p. destruct (d_files s !! p) eqn:E; [split; [done|]; split; [done|]; left; by eexists|].
    case_bool_decide as Ed; [split; [done|]; split; [done|]; by right|].
    destruct (has_parent s p); [|done]. by split; [|split].
  - intros s p x d Hp. by rewrite Hp.
  - intros s p. by destruct (d_files s !! p).
  - intros s p [H%bool_decide_eq_true|H]%orb_true_iff; [by left|by right].
  - intros s p. destruct (d_files s !! p); [|done]. split; [by eexists|done].
  - intros s d l p. case_bool_decide; [|done]. intros [= <-] [Hin Hf]%list_elem_of_In%filter_In.
    apply list_elem_of_In, entry_elem in Hin. unfold in_dir in Hf. destruct (below d p) as [nm|] eqn:Eb; [|done].
    exists nm. split; [done|]. split; [by apply below_some|]. rewrite bool_decide_eq_true. exact Hin.
Qed.

#[export] Instance toy_fs_ready : FileSystemReady.
Proof.
  split; cbn -[has_parent].
  - intros s p Hp. rewrite Hp by by left. by eexists.
  - intros s p x Hx. by rewrite Hx.
  - intros s d nm Hd Hn Hf Hnd. rewrite Hf, Hnd.
    assert (has_parent s (join d nm) = true) as ->; [|by eexists].
    apply existsb_exists. exists d. rewrite below_join. split; [|done].
    apply list_elem_of_In, elem_of_elements. by apply bool_decide_eq_true in Hd.
  - intros s p [x Hx]. rewrite Hx. by do 2 eexists.
  - by eexists.
  - intros s p Hp. by rewrite Hp, orb_true_r.
  - intros s d Hd. rewrite Hd. eexists. split; [done|]. intros nm Hn Hf.
    apply list_elem_of_In, filter_In. split; [|unfold in_dir; by rewrite below_join].
    apply list_elem_of_In, entry_elem. by left.
Qed.

(** A format for the layouts of the examples: the service name and, after the
    separator, one of a few known configurations. *)
Definition example_config (nm : string) : StaticConfig :=
  StaticConfig.new PubSub nm "u64" 8 8.

#[export] Instance toy_ron : Ron := {
  to_ron c :=
    if decide (c = example_config (StaticConfig.service_name c))
    then Ok (StaticConfig.service_name c) else Err "unknown";
  from_ron s := Ok (example_config s);
}.

#[export] Instance toy_ron_spec : RonSpec.
Proof.
  split. intros c s. cbn. case_decide as Hc; [|done]. intros [= <-]. by rewrite <- Hc.
Qed.

Definition empty_fs : Fs := (mk_disk ∅ ∅ : @Fs toy_fs).

Lemma empty_no_dir p : is_dir empty_fs p = false.
Proof. apply bool_decide_eq_false_2, not_elem_of_empty. Qed.

Lemma toy_readable (fs : Fs) p : readable fs p.
Proof. intros s Hs. cbn in *. by rewrite Hs. Qed.

Lemma registry_roundtrip_witness :
  let r := ServiceRegistry.new "/tmp/entangle/" in
  let c := example_config "a/b" in
  exists p fs', ServiceRegistry.register r empty_fs c = (Ok p, fs') /\
    p = "/tmp/entangle/services/a_b.ron"%string /\
    ServiceRegistry.lookup r fs' "a/b" = Ok c /\ ServiceRegistry.lookup r fs' "a_b" = Ok c.
Proof.
  cbn zeta. set (r := ServiceRegistry.new "/tmp/entangle/"). set (c := example_config "a/b").
  assert (Er : fst (ServiceRegistry.register r empty_fs c) = Ok "/tmp/entangle/services/a_b.ron"%string)
    by (vm_compute; reflexivity).
  destruct (ServiceRegistry.register r empty_fs c) as [o fs'] eqn:E. cbn [fst] in Er. subst o.
  eexists _, fs'. split; [reflexivity|].
  destruct (registry_roundtrip r empty_fs c _ fs' E (toy_readable fs' _)) as (Hl & _ & _).
  split; [reflexivity|]. split; apply Hl; reflexivity.
Defined.

Lemma registry_list_witness :
  let r := ServiceRegistry.new "/tmp/entangle/" in
  let c := example_config "a/b" in
  let fs := snd (ServiceRegistry.register r empty_fs c) in
  exists cs, ServiceRegistry.list_services r fs = Ok cs /\ c ∈ cs.
Proof.
  cbn zeta. set (r := ServiceRegistry.new "/tmp/entangle/"). set (c := example_config "a/b").
  destruct (registry_list r (snd (ServiceRegistry.register r empty_fs c))) as [_ Hl].
  apply (Hl toy_fs_ready empty_fs c "/tmp/entangle/services/a_b.ron"%string). vm_compute. reflexivity.
Defined.

Lemma open_or_create_spec_witness :
  let l := ServiceLifecycle.new "/tmp/entangle/" in
  let c := example_config "x" in
  exists fs', ServiceLifecycle.open_or_create l empty_fs c = (Ok c, fs') /\
    ServiceLifecycle.open_or_create l fs' c = (Ok c, fs').
Proof.
  cbn zeta. set (l := ServiceLifecycle.new "/tmp/entangle/"). set (c := example_config "x").
  pose proof (open_or_create_spec l empty_fs c) as Hs. cbn zeta in Hs.
  assert (Er : fst (ServiceLifecycle.open_or_create l empty_fs c) = Ok c) by (vm_compute; reflexivity).
  destruct (ServiceLifecycle.open_or_create l empty_fs c) as [o fs']. cbn [fst] in Er. subst o.
  destruct Hs as (_ & _ & Hagain).
  exists fs'. split; [reflexivity|]. apply Hagain; [apply toy_readable|reflexivity|reflexivity].
Defined.

End ToyFs.
