(* ===== verification/RegistryConc.v ===== *)
(** * The service registry under concurrency
    (crates/entangle/src/service/lifecycle.rs, registry.rs)

    Any number of processes call [open_or_create]; each call is cut at the file
    operations it makes (the read of [lookup], [create_dir_all], [create_new],
    [write_all]), and the processes' steps interleave. *)
From stdpp Require Import pretty.
From S2P Require Import Prelude Paths Contracts Shm Config Service.
#[local] Open Scope Z_scope.
#[local] Open Scope rust_scope.
Import StaticConfig (StaticConfig).

(** A text that was not written to its end does not parse. *)
Class RonPrefix `{Ron} := {
  ron_prefix c s d1 d2 : to_ron c = Ok s -> s = String.append d1 d2 -> d2 <> EmptyString ->
    exists e, from_ron d1 = Err e;
}.

Module RegistryProcesses.
Import ServiceRegistry ServiceLifecycle.

(** Where a call stands; the texts are what it has serialised. *)
Inductive pc :=
| Opening
| MakingDir
| Creating (serialized : string)
| Writing (serialized : string)
| Done (r : result StaticConfig ServiceError).

(** One process: its argument, where it is and (ghost) whether it made the file. *)
Record process := Proc { config : StaticConfig; at_ : pc; created : bool }.

Section processes.
Context `{FileSystem, Ron} (l : ServiceLifecycle).

Definition path_of (c : StaticConfig) : string :=
  service_path (registry l) (StaticConfig.service_name c).

(** The next file operation of a process. *)
Definition run_process (fs : Fs) (p : process) : option (Fs * process) :=
  let c := config p in
  match at_ p with
  | Opening =>
      Some (fs, Proc c (match open l fs c with
                        | Ok existing => Done (Ok existing)
                        | Err (NotFound _) => MakingDir
                        | Err e => Done (Err e)
                        end) (created p))
  | MakingDir =>
      match create_dir_all fs (root (registry l)) with
      | (Err e, fs) => Some (fs, Proc c (Done (Err (io_error e))) (created p))
      | (Ok _, fs) =>
          Some (fs, Proc c (match to_ron c with
                            | Err e => Done (Err (Corrupted (String.append "serialization failed: " e)))
                            | Ok serialized => Creating serialized
                            end) (created p))
      end
  | Creating serialized =>
      match create_new fs (path_of c) with
      | (Err e, fs) =>
          Some (fs, Proc c (Done (Err (if io_already_exists e
                                       then AlreadyExists (StaticConfig.service_name c)
                                       else io_error e))) (created p))
      | (Ok _, fs) => Some (fs, Proc c (Writing serialized) true)
      end
  | Writing serialized =>
      match write_all fs (path_of c) serialized with
      | (Err e, fs) => Some (fs, Proc c (Done (Err (io_error e))) (created p))
      | (Ok _, fs) => Some (fs, Proc c (Done (Ok c)) (created p))
      end
  | Done _ => None
  end.

Record state := St { disk : Fs; procs : list process }.

Inductive step : state -> state -> Prop :=
| step_process fs ps i p fs' p' :
    ps !! i = Some p -> run_process fs p = Some (fs', p') ->
    step (St fs ps) (St fs' (<[i := p']> ps)).

(** The calls are about to be made. *)
Definition start (fs : Fs) (cs : list StaticConfig) : state :=
  St fs ((fun c => Proc c Opening false) <$> cs).

(** A process alone, up to its end: at most four operations. *)
Fixpoint run_alone (fuel : nat) (fs : Fs) (p : process)
    : outcome (result StaticConfig ServiceError * Fs) :=
  match at_ p with
  | Done r => Ret (r, fs)
  | _ =>
      match fuel with
      | O => OutOfFuel
      | S fuel =>
          match run_process fs p with
          | Some (fs', p') => run_alone fuel fs' p'
          | None => OutOfFuel
          end
      end
  end.

(** The cut is that of the source: a process alone does what [open_or_create] does. *)
Lemma run_alone_open_or_create fs c :
  run_alone 4 fs (Proc c Opening false) = Ret (open_or_create l fs c).
Proof.
  cbn. unfold open_or_create, create, register, path_of.
  destruct (open l fs c) as [c'|[]]; cbn; try done.
  destruct (create_dir_all fs _) as [[[]|e] fs1]; cbn; [|done].
  destruct (to_ron c) as [s|e]; cbn; [|done].
  destruct (create_new fs1 _) as [[[]|e] fs2]; cbn; [|done].
  by destruct (write_all fs2 _ s) as [[[]|e] fs3].
Qed.
End processes.

Section facts.
Context {F : FileSystem} {W : FileSystemView} {FS : FileSystemSpec} {R : Ron} {RS : RonSpec} {RP : RonPrefix}.
Context (l : ServiceLifecycle) (fs0 : Fs).

(** What is known of a process: a finished call that succeeded has what the
    file held from the beginning, or what its creator was called with. *)
Definition creator (ps : list process) (p : string) (c : StaticConfig) : Prop :=
  exists j q, ps !! j = Some q /\ created q = true /\ path_of l (config q) = p /\ config q = c.

Definition agreed (ps : list process) (p : string) (c : StaticConfig) : Prop :=
  (exists d, files fs0 !! p = Some d /\ from_ron d = Ok c) \/
  (files fs0 !! p = None /\ creator ps p c).

Definition proc_ok (fs : Fs) (ps : list process) (p : process) : Prop :=
  match at_ p with
  | Opening | MakingDir => created p = false
  | Creating s => created p = false /\ to_ron (config p) = Ok s
  | Writing s => created p = true /\ to_ron (config p) = Ok s /\
      files fs !! path_of l (config p) = Some EmptyString
  | Done (Ok c) => agreed ps (path_of l (config p)) c /\ StaticConfig.layout c = StaticConfig.layout (config p)
  | Done (Err _) => True
  end.

Record inv (st : state) : Prop := {
  inv_procs : forall i p, procs st !! i = Some p -> proc_ok (disk st) (procs st) p;
  (** A file is as it was, or is being written by the one process that made it. *)
  inv_files : forall p, files (disk st) !! p = files fs0 !! p \/
    files fs0 !! p = None /\ exists c s d1 d2, creator (procs st) p c /\ to_ron c = Ok s /\
      s = String.append d1 d2 /\ files (disk st) !! p = Some d1;
  inv_made : forall j q, procs st !! j = Some q -> created q = true ->
    files fs0 !! path_of l (config q) = None /\ is_Some (files (disk st) !! path_of l (config q));
  inv_one : forall i j p q, procs st !! i = Some p -> procs st !! j = Some q ->
    created p = true -> created q = true -> path_of l (config p) = path_of l (config q) -> i = j;
}.
Lemma creator_mono ps i p p' x c :
  ps !! i = Some p -> config p' = config p -> (created p = true -> created p' = true) ->
  creator ps x c -> creator (<[i := p']> ps) x c.
Proof.
  intros Hi Hc Hcr (j & q & Hj & Hq & Hx & Hqc). destruct (decide (j = i)) as [->|Hne].
  - exists i, p'. rewrite list_lookup_insert_eq by (by eapply lookup_lt_Some).
    assert (q = p) as -> by congruence. rewrite Hc. auto.
  - exists j, q. by rewrite list_lookup_insert_ne.
Qed.

Lemma agreed_mono ps i p p' x c :
  ps !! i = Some p -> config p' = config p -> (created p = true -> created p' = true) ->
  agreed ps x c -> agreed (<[i := p']> ps) x c.
Proof. intros Hi Hc Hcr [Ha|[Hn Ha]]; [by left|right]. split; [done|]. by eapply creator_mono. Qed.

(** The other processes do not notice a step, unless it is about their file
    while they write it. *)
Lemma proc_ok_other fs fs' ps i p p' q :
  ps !! i = Some p -> config p' = config p -> (created p = true -> created p' = true) ->
  proc_ok fs ps q ->
  (created q = true -> files fs' !! path_of l (config q) = files fs !! path_of l (config q)) ->
  proc_ok fs' (<[i := p']> ps) q.
Proof.
  unfold proc_ok. intros Hi Hc Hcr Hq Hf. destruct (at_ q) as [| |s|s|[c|e]]; try done.
  - destruct Hq as (H1 & H2 & H3). by rewrite Hf.
  - destruct Hq as [Ha Hl]. split; [|done]. by eapply agreed_mono.
Qed.

(** A step that leaves the files as they are. *)
Lemma inv_quiet fs ps i p p' fs' :
  inv (St fs ps) -> ps !! i = Some p -> files fs' = files fs -> config p' = config p ->
  created p' = created p -> proc_ok fs' (<[i := p']> ps) p' -> inv (St fs' (<[i := p']> ps)).
Proof.
  intros [I1 I2 I3 I4] Hi Hf Hc Hcr Hok. cbn in *.
  assert (Hcr' : created p = true -> created p' = true) by congruence.
  assert (Hold : forall j q, <[i := p']> ps !! j = Some q ->
    exists q0, ps !! j = Some q0 /\ config q = config q0 /\ created q = created q0).
  { intros j q [(-> & <- & _)|[_ Hj]]%list_lookup_insert_Some; eauto. }
  split; cbn.
  - intros j q [(-> & <- & _)|[_ Hj]]%list_lookup_insert_Some; [done|].
    eapply proc_ok_other; [done|done|done|by eapply I1|]. by rewrite Hf.
  - intros x. rewrite Hf. destruct (I2 x) as [Hx|(Hn & c & s & d1 & d2 & Hx & Hs)]; [by left|right].
    split; [done|]. exists c, s, d1, d2. split; [by eapply creator_mono|done].
  - intros j q (q0 & Hj & Hqc & Hqcr)%Hold Hcq. rewrite Hqc, Hf. apply (I3 j q0); [done|congruence].
  - intros j1 j2 q1 q2 (r1 & H1 & E1 & F1)%Hold (r2 & H2 & E2 & F2)%Hold.
    rewrite E1, E2, F1, F2. by apply I4.
Qed.

Lemma append_nil_r s : String.append s EmptyString = s.
Proof.
  induction s as [|c s IH]; [done|].
  change (String.append (String c s) EmptyString) with (String c (String.append s EmptyString)).
  by rewrite IH.
Qed.

(** What a reader finds under a name. *)
Lemma open_agreed st i p c' :
  inv st -> procs st !! i = Some p -> open l (disk st) (config p) = Ok c' ->
  agreed (procs st) (path_of l (config p)) c'.
Proof.
  intros Hi Hp Ho. apply open_layout in Ho as [_ Hl]. unfold lookup in Hl.
  fold (path_of l (config p)) in Hl. pose proof (read_spec (disk st) (path_of l (config p))) as Hr.
  destruct (read_to_string _ _) as [d|e]; [|done].
  destruct (from_ron d) as [c|e] eqn:Ed; cbn in Hl; [|done]. injection Hl as ->.
  destruct (inv_files _ Hi (path_of l (config p))) as [Hx|(Hn & c & s & d1 & d2 & Hx & Hs & Hd & Hf)].
  - left. exists d. by rewrite <- Hx.
  - right. split; [done|]. assert (d1 = d) as -> by congruence.
    destruct (decide (d2 = EmptyString)) as [->|Hne].
    + rewrite append_nil_r in Hd. subst s. rewrite (from_to_ron _ _ Hs) in Ed. congruence.
    + destruct (ron_prefix c s d d2 Hs Hd Hne) as [e He]. congruence.
Qed.

(** The two steps that write. *)
Lemma inv_create st i p s fs' :
  inv st -> procs st !! i = Some p -> at_ p = Creating s ->
  files (disk st) !! path_of l (config p) = None ->
  files fs' = <[path_of l (config p) := EmptyString]> (files (disk st)) ->
  inv (St fs' (<[i := Proc (config p) (Writing s) true]> (procs st))).
Proof.
  intros Hi Hp Hat Hnone Hf. pose proof (inv_procs _ Hi i p Hp) as Hok. unfold proc_ok in Hok.
  rewrite Hat in Hok. destruct Hok as [Hcr Hs]. pose proof (lookup_lt_Some _ _ _ Hp) as Hlt.
  assert (H0 : files fs0 !! path_of l (config p) = None).
  { destruct (inv_files _ Hi (path_of l (config p))) as [Hx|[Hn _]]; congruence. }
  assert (Hother : forall j q, procs st !! j = Some q -> created q = true ->
    path_of l (config q) <> path_of l (config p)).
  { intros j q Hj Hq He. destruct (inv_made _ Hi j q Hj Hq) as [_ [x Hx]]. congruence. }
  set (p' := Proc (config p) (Writing s) true).
  split; cbn.
  - intros j q [(-> & <- & _)|[Hne Hj]]%list_lookup_insert_Some.
    + split; [done|]. split; [done|]. cbn. by rewrite Hf, lookup_insert_eq.
    + eapply proc_ok_other; [done|done|done|by eapply inv_procs|].
      intros Hq. rewrite Hf, lookup_insert_ne; [done|]. intros He. by apply (Hother j q).
  - intros x. destruct (decide (x = path_of l (config p))) as [->|Hne].
    + right. split; [done|]. exists (config p), s, EmptyString, s. split; [|split; [done|split; [done|]]].
      * exists i, p'. by rewrite list_lookup_insert_eq.
      * by rewrite Hf, lookup_insert_eq.
    + rewrite Hf, lookup_insert_ne by done.
      destruct (inv_files _ Hi x) as [Hx|(Hn & c & s' & d1 & d2 & Hx & Hs')]; [by left|right].
      split; [done|]. exists c, s', d1, d2. split; [|done]. by eapply creator_mono.
  - intros j q [(-> & <- & _)|[Hne Hj]]%list_lookup_insert_Some Hq.
    + cbn. by rewrite Hf, lookup_insert_eq.
    + rewrite Hf, lookup_insert_ne; [by apply (inv_made _ Hi j)|]. intros He. by apply (Hother j q).
  - intros j1 j2 q1 q2 [(-> & <- & _)|[Hn1 H1]]%list_lookup_insert_Some
      [(-> & <- & _)|[Hn2 H2]]%list_lookup_insert_Some Hc1 Hc2 He; [done| | |].
    + exfalso. by apply (Hother j2 q2).
    + exfalso. by apply (Hother j1 q1).
    + by apply (inv_one _ Hi j1 j2 q1 q2).
Qed.

Lemma inv_write st i p s d1 d2 fs' r :
  inv st -> procs st !! i = Some p -> at_ p = Writing s -> s = String.append d1 d2 ->
  files fs' = <[path_of l (config p) := d1]> (files (disk st)) ->
  r = Ok (config p) \/ (exists e, r = Err e) ->
  inv (St fs' (<[i := Proc (config p) (Done r) (created p)]> (procs st))).
Proof.
  intros Hi Hp Hat Hd Hf Hr. pose proof (inv_procs _ Hi i p Hp) as Hok. unfold proc_ok in Hok.
  rewrite Hat in Hok. destruct Hok as (Hcr & Hs & Hx0). pose proof (lookup_lt_Some _ _ _ Hp) as Hlt.
  destruct (inv_made _ Hi i p Hp Hcr) as [H0 _].
  assert (Hother : forall j q, j <> i -> procs st !! j = Some q -> created q = true ->
    path_of l (config q) <> path_of l (config p)).
  { intros j q Hne Hj Hq He. by apply Hne, (inv_one _ Hi j i q p). }
  set (p' := Proc (config p) (Done r) (created p)).
  assert (Hself : creator (<[i := p']> (procs st)) (path_of l (config p)) (config p)).
  { exists i, p'. by rewrite list_lookup_insert_eq. }
  split; cbn.
  - intros j q [(-> & <- & _)|[Hne Hj]]%list_lookup_insert_Some.
    + destruct Hr as [->|[e ->]]; [|done]. split; [|done]. right. split; done.
    + eapply proc_ok_other; [done|done|done|by eapply inv_procs|].
      intros Hq. rewrite Hf, lookup_insert_ne; [done|]. intros He. by apply (Hother j q).
  - intros x. destruct (decide (x = path_of l (config p))) as [->|Hne].
    + right. split; [done|]. exists (config p), s, d1, d2. by rewrite Hf, lookup_insert_eq.
    + rewrite Hf, lookup_insert_ne by done.
      destruct (inv_files _ Hi x) as [Hx|(Hn & c & s' & e1 & e2 & Hx & Hs')]; [by left|right].
      split; [done|]. exists c, s', e1, e2. split; [|done]. by eapply creator_mono.
  - intros j q [(-> & <- & _)|[Hne Hj]]%list_lookup_insert_Some Hq.
    + cbn. by rewrite Hf, lookup_insert_eq.
    + rewrite Hf, lookup_insert_ne; [by apply (inv_made _ Hi j)|]. intros He. by apply (Hother j q).
  - intros j1 j2 q1 q2 [(-> & <- & _)|[Hn1 H1]]%list_lookup_insert_Some
      [(-> & <- & _)|[Hn2 H2]]%list_lookup_insert_Some Hc1 Hc2 He; [done| | |].
    + exfalso. by apply (Hother j2 q2).
    + exfalso. by apply (Hother j1 q1).
    + by apply (inv_one _ Hi j1 j2 q1 q2).
Qed.

Lemma process_step_inv st st' : inv st -> step l st st' -> inv st'.
Proof.
  intros Hi Hs. destruct Hs as [fs ps i p fs' p' Hp Hr].
  pose proof (inv_procs _ Hi i p Hp) as Hok. unfold proc_ok in Hok. cbn in Hp, Hok.
  unfold run_process in Hr. destruct (at_ p) as [| |s|s|r] eqn:Hat; [| | | |done].
  - injection Hr as <- <-. apply (inv_quiet fs ps i p); try done. unfold proc_ok. cbn.
    destruct (open l fs (config p)) as [c'|e] eqn:Eo.
    + split; [|by apply (open_layout l fs (config p))].
      eapply agreed_mono; [done|done|done|]. by apply (open_agreed (St fs ps) i p).
    + by destruct e.
  - pose proof (create_dir_all_files fs (root (registry l))) as Hd.
    destruct (create_dir_all _ _) as [[[]|e] fs1]; injection Hr as <- <-;
      apply (inv_quiet fs ps i p); try done.
    unfold proc_ok. cbn. by destruct (to_ron (config p)) eqn:Es.
  - pose proof (create_new_spec fs (path_of l (config p))) as Hc.
    destruct (create_new _ _) as [[[]|e] fs1]; injection Hr as <- <-.
    + destruct Hc as (Hn & _ & Hf & _). by apply (inv_create (St fs ps) i p s).
    + apply (inv_quiet fs ps i p); try done. apply Hc.
  - destruct Hok as (Hcr & Hs & Hx). pose proof (write_all_spec fs (path_of l (config p)) _ s Hx) as Hw.
    destruct (write_all _ _ _) as [[[]|e] fs1]; injection Hr as <- <-.
    + apply (inv_write (St fs ps) i p s s EmptyString); [done..|by rewrite append_nil_r|apply Hw|by left].
    + destruct Hw as (_ & d1 & d2 & Hd & Hf).
      apply (inv_write (St fs ps) i p s d1 d2); [done..|right; by eexists].
Qed.

Lemma processes_start cs : inv (start fs0 cs).
Proof.
  split; cbn.
  - intros i p (c & -> & _)%list_lookup_fmap_Some. done.
  - intros p. by left.
  - intros j q (c & -> & _)%list_lookup_fmap_Some. done.
  - intros i j p q (c & -> & _)%list_lookup_fmap_Some. done.
Qed.

Lemma processes_inv cs st : rtc (step l) (start fs0 cs) st -> inv st.
Proof.
  apply (invariant_rtc (step l) (fun s => s = start fs0 cs)); [|done].
  split; [intros ? ->; apply processes_start|intros; by eapply process_step_inv].
Qed.

(** C19: (concurrent [open_or_create])  However the file operations of any number
    of calls interleave, and whichever of them fail: all calls that succeed for
    one file return the same configuration, whose layout is the caller's; at
    most one call makes the file; and a file that was there before the calls is
    never changed. *)
Theorem open_or_create_agreement cs st :
  rtc (step l) (start fs0 cs) st ->
  (forall i j p q c1 c2, procs st !! i = Some p -> procs st !! j = Some q ->
     at_ p = Done (Ok c1) -> at_ q = Done (Ok c2) -> path_of l (config p) = path_of l (config q) ->
     c1 = c2 /\ StaticConfig.layout c1 = StaticConfig.layout (config p)) /\
  (forall i j p q, procs st !! i = Some p -> procs st !! j = Some q -> created p = true ->
     created q = true -> path_of l (config p) = path_of l (config q) -> i = j) /\
  (forall x d, files fs0 !! x = Some d -> files (disk st) !! x = Some d).
Proof using FS RS RP.
  intros Hi%processes_inv. split; [|split].
  - intros i j p q c1 c2 Hp Hq Hat1 Hat2 He.
    pose proof (inv_procs _ Hi i p Hp) as H1. pose proof (inv_procs _ Hi j q Hq) as H2.
    unfold proc_ok in H1, H2. rewrite Hat1 in H1. rewrite Hat2 in H2.
    destruct H1 as [H1 Hlay]. destruct H2 as [H2 _]. split; [|done]. rewrite <- He in H2.
    destruct H1 as [(d1 & E1 & F1)|[E1 (i1 & r1 & G1 & G2 & G3 & <-)]],
      H2 as [(d2 & E2 & F2)|[E2 (i2 & r2 & K1 & K2 & K3 & <-)]]; try congruence.
    assert (i1 = i2) as -> by (apply (inv_one _ Hi i1 i2 r1 r2); congruence). congruence.
  - apply (inv_one _ Hi).
  - intros x d Hx. destruct (inv_files _ Hi x) as [E|[E _]]; congruence.
Qed.

(** *** When the file operations do not fail *)
Section ready.
Context {Rd : FileSystemReady} (cs : list StaticConfig).
Context (Hron : forall c, c ∈ cs -> exists s, to_ron c = Ok s).

(** At the start no file is in the way of the directory of the services, and
    no directory in the way of a file of a service. *)
Context (Hroot : forall q, leads_to q (root (registry l)) -> files fs0 !! q = None).
Context (Hdirs : forall c, c ∈ cs -> is_dir fs0 (path_of l c) = false).

Lemma path_of_entry c : ~ leads_to (path_of l c) (root (registry l)).
Proof using. apply entry_not_on_the_way. by destruct (safe_name (StaticConfig.service_name c)). Qed.

Definition clear_way (fs : Fs) : Prop :=
  (forall q, leads_to q (root (registry l)) -> files fs !! q = None) /\
  (forall c, c ∈ cs -> is_dir fs (path_of l c) = false).

Lemma files_clear st : inv st -> forall q, leads_to q (root (registry l)) -> files (disk st) !! q = None.
Proof using Hroot.
  intros Hi q Hq. destruct (inv_files _ Hi q) as [->|(_ & c & _ & _ & _ & Hc & _)]; [by apply Hroot|].
  destruct Hc as (_ & p & _ & _ & <- & _). by apply path_of_entry in Hq.
Qed.

(** The step of a process makes no directory but those on the way to that of
    the services, and removes none. *)
Lemma run_process_dirs fs p fs' p' :
  run_process l fs p = Some (fs', p') ->
  (match at_ p with Writing _ => is_Some (files fs !! path_of l (config p)) | _ => True end) ->
  (forall q, is_dir fs q = true -> is_dir fs' q = true) /\
  (forall q, is_dir fs' q = true -> is_dir fs q = true \/ leads_to q (root (registry l))).
Proof using FS.
  assert (Hsame : forall fs1, same_dirs fs fs1 -> (forall q, is_dir fs q = true -> is_dir fs1 q = true) /\
    (forall q, is_dir fs1 q = true -> is_dir fs q = true \/ leads_to q (root (registry l)))).
  { intros fs1 H1. split; intros q; rewrite H1; auto. }
  unfold run_process. intros Hr Hfile. destruct (at_ p) as [| |s|s|r]; [| | | |done].
  - injection Hr as <- <-. split; [done|]. by left.
  - pose proof (create_dir_all_spec fs (root (registry l))) as Hd.
    destruct (create_dir_all _ _) as [[[]|e] fs1]; destruct Hd as (_ & H1 & H2 & _); by injection Hr as <- <-.
  - pose proof (create_new_spec fs (path_of l (config p))) as Hc.
    destruct (create_new _ _) as [[[]|e] fs1]; injection Hr as <- <-.
    + by apply Hsame, Hc.
    + by apply Hsame, Hc.
  - destruct Hfile as [x Hx]. pose proof (write_all_spec fs (path_of l (config p)) _ s Hx) as Hw.
    destruct (write_all _ _ _) as [[[]|e] fs1]; injection Hr as <- <-.
    + by apply Hsame, Hw.
    + by apply Hsame, Hw.
Qed.

(** A call that fails has found a file; the one that made the file is writing
    it or has succeeded. *)
Definition outcome_ok (fs : Fs) (p : process) : Prop :=
  config p ∈ cs /\
  (created p = true -> match at_ p with Writing _ | Done (Ok _) => True | _ => False end) /\
  match at_ p with
  | Done (Err (AlreadyExists _ | Corrupted _ | IncompatibleQos _ | VersionMismatch _ _)) =>
      is_Some (files fs !! path_of l (config p))
  | Done (Err _) => False
  | Creating _ => is_dir fs (root (registry l)) = true
  | _ => True
  end.

Lemma outcome_ok_mono fs fs' p :
  (forall x, is_Some (files fs !! x) -> is_Some (files fs' !! x)) ->
  (forall q, is_dir fs q = true -> is_dir fs' q = true) -> outcome_ok fs p -> outcome_ok fs' p.
Proof using.
  unfold outcome_ok. intros Hm Hd (H1 & H2 & H3). split_and!; [done|done|]. repeat case_match; auto.
Qed.

Lemma insert_grows fs fs' x d :
  files fs' = <[x := d]> (files fs) -> forall y, is_Some (files fs !! y) -> is_Some (files fs' !! y).
Proof using. intros -> y Hy. rewrite lookup_insert. by case_decide. Qed.

Lemma run_process_ok fs ps p fs' p' :
  clear_way fs -> proc_ok fs ps p -> outcome_ok fs p -> run_process l fs p = Some (fs', p') ->
  outcome_ok fs' p' /\ forall x, is_Some (files fs !! x) -> is_Some (files fs' !! x).
Proof using FS Rd Hron.
  intros [Hwf Hwd] Hok (Hin & Hcr & Hat) Hr.
  unfold proc_ok in Hok. unfold run_process in Hr. destruct (at_ p) as [| |s|s|r]; [| | | |done].
  - injection Hr as <- <-. split; [|done]. split; [done|]. cbn. split; [by rewrite Hok|].
    destruct (open l fs (config p)) as [c|e] eqn:Eo; [done|].
    unfold open, lookup in Eo. fold (path_of l (config p)) in Eo.
    pose proof (read_spec fs (path_of l (config p))) as Hrd.
    destruct (read_to_string fs _) as [d|e'] eqn:Er; cbn in Eo; [|by simplify_eq].
    destruct (from_ron d) as [c|e']; cbn in Eo; [|simplify_eq; by eexists].
    unfold StaticConfig.validate_compatibility in Eo.
    repeat (case_match; cbn in Eo; [simplify_eq; by eexists|]). done.
  - pose proof (create_dir_all_spec fs (root (registry l))) as Hd.
    destruct (create_dir_ready fs (root (registry l)) Hwf) as [fs1 E]. rewrite E in Hr, Hd.
    destruct Hd as (Hd & _ & _ & Hdir).
    destruct (Hron _ Hin) as [s Es]. rewrite Es in Hr. injection Hr as <- <-. rewrite Hd.
    split; [|done]. split; [done|]. cbn. rewrite Hok. split; [done|by apply Hdir].
  - destruct Hok as [Hc0 Hs]. pose proof (create_new_spec fs (path_of l (config p))) as Hc.
    destruct (create_new fs (path_of l (config p))) as [[[]|e] fs1] eqn:E; injection Hr as <- <-.
    + destruct Hc as (_ & _ & Hf & _). split; [split; done|]. by eapply insert_grows.
    + destruct Hc as (Hf & _ & _). split; [|by rewrite Hf]. split; [done|]. cbn. rewrite Hc0. split; [done|].
      rewrite Hf. destruct (files fs !! path_of l (config p)) as [d|] eqn:Ex.
      * destruct (create_taken_ready fs (path_of l (config p))) as (e2 & fs2 & E2 & He2); [by eexists|].
        rewrite E in E2. injection E2 as <- <-. rewrite He2. by eexists.
      * destruct (create_new_ready fs (root (registry l)) (String.append (safe_name (StaticConfig.service_name (config p))) ".ron"))
          as [fs2 E2]; [done|apply service_file_name|done|by apply Hwd|].
        unfold path_of, service_path in E. congruence.
  - destruct Hok as (Hc0 & Hs & Hx). pose proof (write_all_spec fs (path_of l (config p)) _ s Hx) as Hw.
    destruct (write_ready fs _ _ s Hx) as [fs1 E]. rewrite E in Hr, Hw. injection Hr as <- <-.
    destruct Hw as [Hw _]. split; [split; [done|split; done]|]. by eapply insert_grows.
Qed.

Lemma reach_outcomes st :
  rtc (step l) (start fs0 cs) st -> forall i p, procs st !! i = Some p -> outcome_ok (disk st) p.
Proof using FS RS RP Rd Hron Hroot Hdirs.
  pose (good := fun st => inv st /\ (forall c, c ∈ cs -> is_dir (disk st) (path_of l c) = false) /\
    forall i p, procs st !! i = Some p -> outcome_ok (disk st) p).
  intros Hr. enough (good st) as (_ & _ & ?) by done.
  revert Hr. apply (invariant_rtc (step l) (fun s => s = start fs0 cs) good); [|done].
  split.
  - intros ? ->. split; [apply processes_start|]. split; [done|]. cbn. intros i p (c & -> & Hc)%list_lookup_fmap_Some.
    split; [by eapply list_elem_of_lookup_2|done].
  - intros s s' (Hi & Hd & Ho) Hs. split; [by eapply process_step_inv|].
    pose proof (files_clear _ Hi) as Hf. destruct Hs as [fs ps i p fs' p' Hp Hrun]. cbn in Hd, Ho, Hf.
    pose proof (inv_procs _ Hi i p Hp) as Hok.
    destruct (run_process_dirs _ _ _ _ Hrun) as [Hd1 Hd2].
    { unfold proc_ok in Hok. destruct (at_ p); try done. destruct Hok as (_ & _ & Hx). by eexists. }
    destruct (run_process_ok fs ps p fs' p' (conj Hf Hd) Hok (Ho i p Hp) Hrun) as [Hp' Hm].
    split; cbn.
    + intros c Hc. apply not_true_iff_false. intros [Ht|Ht]%Hd2; [by rewrite (Hd c Hc) in Ht|].
      by apply path_of_entry in Ht.
    + intros j q [(-> & <- & _)|[_ Hj]]%list_lookup_insert_Some; [done|].
      eapply outcome_ok_mono; [done|done|]. by eapply Ho.
Qed.

(** C33: (concurrent [open_or_create], file operations that do not fail:
    [FileSystemReady], and at the start no file stands where the directory of the
    services goes and no directory where a file of a service goes)  A call fails only because the file is there already, complete or not: with
    [AlreadyExists], [Corrupted] or a mismatch.  When every call for a file that
    was not there has returned, exactly one of them made it, and that one
    succeeded with its own configuration. *)
Theorem open_or_create_winner st :
  rtc (step l) (start fs0 cs) st ->
  (forall i p e, procs st !! i = Some p -> at_ p = Done (Err e) ->
     is_Some (files (disk st) !! path_of l (config p)) /\
     match e with AlreadyExists _ | Corrupted _ | IncompatibleQos _ | VersionMismatch _ _ => True | _ => False end) /\
  (forall x, files fs0 !! x = None ->
     (exists i p, procs st !! i = Some p /\ path_of l (config p) = x) ->
     (forall i p, procs st !! i = Some p -> path_of l (config p) = x -> exists r, at_ p = Done r) ->
     exists i p c, procs st !! i = Some p /\ path_of l (config p) = x /\ created p = true /\
       at_ p = Done (Ok c) /\ c = config p).
Proof using FS RS RP Rd Hron Hroot Hdirs.
  intros Hr. pose proof (processes_inv cs st Hr) as Hi. pose proof (reach_outcomes st Hr) as Ho. split.
  - intros i p e Hp Hat. destruct (Ho i p Hp) as (_ & _ & H). rewrite Hat in H. by destruct e.
  - intros x Hx (i & p & Hp & Hpx) Hdone.
    assert (Hcr : exists c, creator (procs st) x c).
    { destruct (Hdone i p Hp Hpx) as [r Hat].
      pose proof (inv_procs _ Hi i p Hp) as Hok. unfold proc_ok in Hok. rewrite Hat in Hok.
      destruct r as [c|e].
      - destruct Hok as [[(d & Hd & _)|[_ Hc]] _]; rewrite Hpx in *; [congruence|by eexists].
      - destruct (Ho i p Hp) as (_ & _ & H). rewrite Hat, Hpx in H.
        assert (Hs : is_Some (files (disk st) !! x)) by by destruct e. destruct Hs as [d Hd].
        destruct (inv_files _ Hi x) as [E|(_ & c & _ & _ & _ & Hc & _)]; [congruence|by eexists]. }
    destruct Hcr as (_ & j & q & Hj & Hq & Hqx & _). destruct (Hdone j q Hj Hqx) as [r Hat].
    destruct (Ho j q Hj) as (_ & H & _). rewrite Hat in H. destruct r as [c|e]; [|by destruct (H Hq)].
    exists j, q, c. split_and!; try done.
    pose proof (inv_procs _ Hi j q Hj) as Hok. unfold proc_ok in Hok. rewrite Hat, Hqx in Hok.
    destruct Hok as [[(d & Hd & _)|[_ (k & u & Hk & Hu & Hux & <-)]] _]; [congruence|].
    assert (k = j) as -> by (apply (inv_one _ Hi k j u q); congruence). congruence.
Qed.
End ready.
End facts.

(** ** Two processes of the example system *)
Section examples.
Import StaticConfig ToyFs.

Definition config_x : StaticConfig := example_config "x".
Definition config_y : StaticConfig := example_config "y".

(** A format for two configurations. *)
#[local] Instance two_configs : Ron := {
  to_ron c := if decide (c = config_x) then Ok "(x)"%string
              else if decide (c = config_y) then Ok "(y)"%string else Err "unknown"%string;
  from_ron s := if String.eqb s "(x)" then Ok config_x
                else if String.eqb s "(y)" then Ok config_y else Err "expected a struct"%string;
}.

#[local] Instance two_configs_spec : RonSpec.
Proof.
  split. intros c s. cbn [to_ron two_configs]. case_decide as E1; [intros [= <-]; by rewrite E1|].
  case_decide as E2; [intros [= <-]; by rewrite E2|done].
Qed.

#[local] Instance two_configs_prefix : RonPrefix.
Proof.
  split. intros c s d1 d2 Hs Hd Hne. cbn [from_ron two_configs].
  assert (Ht : s = "(x)"%string \/ s = "(y)"%string).
  { cbn [to_ron two_configs] in Hs. repeat case_decide; simplify_eq; auto. }
  destruct (String.eqb_spec d1 "(x)") as [->|_].
  { exfalso. destruct Ht as [->| ->]; cbv in Hd; congruence. }
  destruct (String.eqb_spec d1 "(y)") as [->|_]; [|by eexists].
  exfalso. destruct Ht as [->| ->]; cbv in Hd; congruence.
Qed.

Definition life : ServiceLifecycle := ServiceLifecycle.new "/tmp/entangle".
Definition two_calls : state := start empty_fs [config_x; config_x].

(** A schedule as a list of processes. *)
Fixpoint run_sched (sched : list nat) (st : state) : option state :=
  match sched with
  | [] => Some st
  | i :: sched =>
      match procs st !! i with
      | Some p =>
          match run_process life (disk st) p with
          | Some (fs', p') => run_sched sched (St fs' (<[i := p']> (procs st)))
          | None => None
          end
      | None => None
      end
  end.

Lemma run_sched_steps sched st st' : run_sched sched st = Some st' -> rtc (step life) st st'.
Proof.
  revert st. induction sched as [|i sched IH]; intros st; cbn; [by intros [= ->]|].
  destruct (procs st !! i) as [p|] eqn:Hp; [|done].
  destruct (run_process life (disk st) p) as [[fs' p']|] eqn:Hr; [|done]. intros Hs%IH.
  destruct st as [fs ps]. eapply rtc_l; [by econstructor|done].
Qed.

(** The second call reads the file between the creation and the write of the
    first one; or it reads before the creation, and creates after it. *)
Definition reads_empty : list nat := [0; 0; 0; 1; 0]%nat.
Definition creates_late : list nat := [1; 0; 0; 0; 0; 1; 1]%nat.
Definition in_turn : list nat := [0; 0; 0; 0; 1]%nat.

Definition results (sched : list nat) : option (list pc) :=
  match run_sched sched two_calls with Some st => Some (at_ <$> procs st) | None => None end.

Example open_or_create_losers :
  results in_turn = Some [Done (Ok config_x); Done (Ok config_x)] /\
  results reads_empty = Some [Done (Ok config_x);
    Done (Err (Corrupted "deserialization failed: expected a struct"))] /\
  results creates_late = Some [Done (Ok config_x); Done (Err (AlreadyExists "x"))].
Proof. split; [|split]; vm_compute; reflexivity. Qed.

Lemma in_turn_reach :
  exists st, rtc (step life) two_calls st /\ at_ <$> procs st = [Done (Ok config_x); Done (Ok config_x)].
Proof.
  destruct open_or_create_losers as (Ht & _). unfold results in Ht.
  destruct (run_sched in_turn two_calls) as [st|] eqn:E; [|discriminate].
  exists st. split; [by eapply run_sched_steps|]. by injection Ht.
Qed.

Lemma open_or_create_agreement_witness :
  exists st p q, rtc (step life) two_calls st /\
    procs st !! 0%nat = Some p /\ procs st !! 1%nat = Some q /\ at_ p = Done (Ok config_x) /\
    exists c, at_ q = Done (Ok c) /\ c = config_x.
Proof.
  destruct in_turn_reach as (st & Hr & Hat). exists st.
  destruct (procs st) as [|p [|q [|]]] eqn:Ep; try discriminate. injection Hat as Hp Hq.
  exists p, q. split; [done|]. split; [done|]. split; [done|]. split; [done|].
  exists config_x. split; [done|].
  destruct (open_or_create_agreement life empty_fs [config_x; config_x] st Hr) as (Ha & _ & _).
  rewrite Ep in Ha. refine (proj1 (Ha 1%nat 1%nat q q config_x config_x _ _ Hq Hq _)); reflexivity.
Defined.

Lemma open_or_create_winner_witness :
  exists st i p c, rtc (step life) two_calls st /\ procs st !! i = Some p /\ created p = true /\
    at_ p = Done (Ok c) /\ c = config p.
Proof.
  destruct in_turn_reach as (st & Hr & Hat). exists st.
  assert (Hron : forall c, c ∈ [config_x; config_x] -> exists s, to_ron c = Ok s).
  { intros c Hc. exists "(x)"%string. rewrite !elem_of_cons, elem_of_nil in Hc.
    destruct_or?; subst; vm_compute; reflexivity. }
  destruct (open_or_create_winner life empty_fs [config_x; config_x] Hron
    (fun q _ => lookup_empty q) (fun c _ => empty_no_dir _) st Hr) as (_ & Hw).
  destruct (procs st) as [|p [|q [|]]] eqn:Ep; try discriminate. injection Hat as Hp Hq.
  destruct (Hw (path_of life (config p))) as (i & u & c & Hi & _ & Hc & Hu & Huc).
  - reflexivity.
  - exists 0%nat, p. done.
  - intros i u Hi _. destruct i as [|[|]]; cbn in Hi; simplify_eq; eauto.
  - exists i, u, c. done.
Defined.
End examples.
End RegistryProcesses.
