(* ===== verification/PubSub.v ===== *)
(** * Publish-subscribe
    (crates/entangle/src/service/pubsub.rs, port/publisher.rs,
    port/subscriber.rs, sample.rs)

    The state that the handles of one [PubSubService] share, with every call on
    them.  An [Arc] is the index of what it points to: a [PublisherCell] holds
    what a publisher, its registration and the closures of its samples share
    (segment, channel list, loan counter), [chans] holds the channels.  [T] is
    the payload type and [memory] the payloads in the segment, by byte offset.
    PubSubSafe.v proves what the calls guarantee. *)
From stdpp Require Import pretty.
From S2P Require Import Prelude Contracts FreeList IndexSet Spsc PoolAlloc Channel Shm DataSegment.
From S2P Require Import Config Service.
#[local] Open Scope Z_scope.
#[local] Open Scope rust_scope.

Module PubSubPorts.
Import PointerOffset.

(** What [Arc] sharing makes reachable. *)
Record PublisherCell (T : Type) := mk_cell {
  node_id : NodeId;
  segment : DataSegment.DataSegment;
  memory : gmap Z T;
  channels : list nat;
  active_loans : Z;
}.
Arguments mk_cell {T} node_id segment memory channels active_loans.
Arguments node_id {T} p.
Arguments segment {T} p.
Arguments memory {T} p.
Arguments channels {T} p.
Arguments active_loans {T} p.

(** [PubSubShared] of service/pubsub.rs and the objects it leads to. *)
Record World `{Posix} (T : Type) := mk_world {
  kernel : Os;
  publishers : list (PublisherCell T);
  chans : list ZeroCopyChannel.ZeroCopyChannel;
  publisher_counter : Z;
}.
Arguments mk_world {H T} kernel publishers chans publisher_counter.
Arguments kernel {H T} w.
Arguments publishers {H T} w.
Arguments chans {H T} w.
Arguments publisher_counter {H T} w.

(** [Publisher<T>], [Subscriber<T>], [SampleMut<T>] and [Sample<T>]. *)
Record Publisher := mk_publisher {
  p_service_name : string;
  p_node_id : NodeId;
  p_cell : nat;
  max_loaned : Z;
}.

Record Subscriber := mk_subscriber {
  s_service_name : string;
  s_node_id : NodeId;
  connections : list (nat * nat);
}.

Record SampleMut := mk_sample_mut { m_cell : nat; m_offset : PointerOffset }.

Record Sample := mk_sample { r_cell : nat; r_chan : nat; r_offset : PointerOffset }.

#[global] Instance SampleMut_eq_dec : EqDecision SampleMut.
Proof. solve_decision. Defined.
#[global] Instance Sample_eq_dec : EqDecision Sample.
Proof. solve_decision. Defined.

(** Following a reference; it never dangles, which the theorems show. *)
Definition deref {A} (l : list A) (i : nat) : outcome A :=
  match l !! i with Some a => Ret a | None => Panic end.

Section ports.
Context {P : Posix} {T : Type} (zero : T).
#[local] Abbreviation World := (World T).
#[local] Abbreviation PublisherCell := (PublisherCell T).

Definition with_segment (c : PublisherCell) s : PublisherCell :=
  mk_cell (node_id c) s (memory c) (channels c) (active_loans c).
Definition with_memory (c : PublisherCell) m : PublisherCell :=
  mk_cell (node_id c) (segment c) m (channels c) (active_loans c).
Definition with_channels (c : PublisherCell) l : PublisherCell :=
  mk_cell (node_id c) (segment c) (memory c) l (active_loans c).
Definition with_loans (c : PublisherCell) n : PublisherCell :=
  mk_cell (node_id c) (segment c) (memory c) (channels c) n.
Definition with_cell (w : World) (i : nat) (c : PublisherCell) : World :=
  mk_world (kernel w) (<[i := c]> (publishers w)) (chans w) (publisher_counter w).
Definition with_chan (w : World) (i : nat) (c : ZeroCopyChannel.ZeroCopyChannel) : World :=
  mk_world (kernel w) (publishers w) (<[i := c]> (chans w)) (publisher_counter w).

(** ** Publisher *)

(** The fields of [PublisherBuilder] and [SubscriberBuilder]. *)
Record PortBuilder := mk_builder {
  b_service_name : string;
  b_node_id : NodeId;
  b_qos : PubSubQos;
}.

Definition seg_name (service_name : string) (pub_idx : Z) (node : NodeId) : string :=
  ("entangle_" ++ safe_name service_name ++ "_p" ++ pretty pub_idx ++ "_"
   ++ to_hex 16 (wrap 64 node))%string.

(** [PublisherBuilder::create]; [size_of] is [size_of::<T>()]. *)
Definition create_publisher (macos : bool) (hash : string -> Z) (size_of : Z)
    (b : PortBuilder) (w : World) : outcome (result Publisher IpcError * World) :=
  let chunk_size := Z.max size_of 8 in
  let chunk_count := wrap 32 (buffer_size (b_qos b)) in
  let pub_idx := publisher_counter w in
  let name := seg_name (b_service_name b) pub_idx (b_node_id b) in
  let! (r, os) := DataSegment.create macos hash (kernel w) name chunk_size chunk_count 0 in
  let counter := wrapping_add 32 pub_idx 1 in
  match r with
  | Err e => Ret (Err (from e), mk_world os (publishers w) (chans w) counter)
  | Ok seg =>
      let cell := mk_cell (b_node_id b) seg ∅ [] 0 in
      Ret (Ok (mk_publisher (b_service_name b) (b_node_id b) (length (publishers w))
                 (max_loaned_samples (b_qos b))),
           mk_world os (publishers w ++ [cell]) (chans w) counter)
  end.

(** [Publisher::loan]: a zeroed chunk, unless too many are out. *)
Definition loan (w : World) (p : Publisher) : outcome (result SampleMut PortError * World) :=
  let! c := deref (publishers w) (p_cell p) in
  let current := active_loans c in
  if current >=? max_loaned p
  then Ret (Err (from (ExceedsMaxLoans (max_loaned p))), w)
  else
    let! (r, seg) := DataSegment.allocate (segment c) in
    let c := with_segment c seg in
    match r with
    | Err e => Ret (Err (from e), with_cell w (p_cell p) c)
    | Ok off =>
        let c := with_loans c (wrapping_add 64 (active_loans c) 1) in
        let c := with_memory c (<[PointerOffset.offset off := zero]> (memory c)) in
        Ret (Ok (mk_sample_mut (p_cell p) off), with_cell w (p_cell p) c)
    end.

(** The [while let] of [Publisher::reclaim] on one channel. *)
Fixpoint reclaim_channel (fuel : nat) (w : World) (cell chan : nat) : outcome World :=
  match fuel with
  | O => OutOfFuel
  | S fuel =>
      let! ch := deref (chans w) chan in
      let! (r, ch) := ZeroCopyChannel.reclaim ch in
      let w := with_chan w chan ch in
      match r with
      | None => Ret w
      | Some off =>
          let! c := deref (publishers w) cell in
          let! seg := DataSegment.deallocate (segment c) off in
          let c := with_segment c seg in
          let c := with_loans c (wrapping_sub 64 (active_loans c) 1) in
          reclaim_channel fuel (with_cell w cell c) cell chan
      end
  end.

Fixpoint reclaim_channels (fuel : nat) (w : World) (cell : nat) (l : list nat) : outcome World :=
  match l with
  | [] => Ret w
  | chan :: l => let! w := reclaim_channel fuel w cell chan in reclaim_channels fuel w cell l
  end.

Definition reclaim (fuel : nat) (w : World) (p : Publisher) : outcome World :=
  let! c := deref (publishers w) (p_cell p) in
  reclaim_channels fuel w (p_cell p) (channels c).

(** ** SampleMut: the closures of [loan] *)

(** A write through [DerefMut]. *)
Definition write (w : World) (m : SampleMut) (v : T) : outcome World :=
  let! c := deref (publishers w) (m_cell m) in
  Ret (with_cell w (m_cell m)
         (with_memory c (<[PointerOffset.offset (m_offset m) := v]> (memory c)))).

(** The send closure: the offset goes to every channel, up to the first error. *)
Fixpoint send_all (w : World) (l : list nat) (off : PointerOffset)
    : outcome (result unit PortError * World) :=
  match l with
  | [] => Ret (Ok tt, w)
  | chan :: l =>
      let! ch := deref (chans w) chan in
      let! (r, ch) := ZeroCopyChannel.send ch off in
      let w := with_chan w chan ch in
      match r with
      | Err e => Ret (Err (Config.Send e), w)
      | Ok _ => send_all w l off
      end
  end.

(** [SampleMut::send]: the drop closure is taken first, whatever happens next. *)
Definition send (w : World) (m : SampleMut) : outcome (result unit PortError * World) :=
  let! c := deref (publishers w) (m_cell m) in
  send_all w (channels c) (m_offset m).

(** [Drop for SampleMut] when [send] was not called. *)
Definition drop_mut (w : World) (m : SampleMut) : outcome World :=
  let! c := deref (publishers w) (m_cell m) in
  let! seg := DataSegment.deallocate (segment c) (m_offset m) in
  let c := with_segment c seg in
  Ret (with_cell w (m_cell m) (with_loans c (wrapping_sub 64 (active_loans c) 1))).

(** ** Subscriber *)

(** The loop of [SubscriberBuilder::create]: [i] is the publisher's index. *)
Fixpoint connect_all (buffer_size : Z) (node : NodeId) (i : nat) (l : list PublisherCell)
    (chans : list ZeroCopyChannel.ZeroCopyChannel)
    : list PublisherCell * list ZeroCopyChannel.ZeroCopyChannel * list (nat * nat) :=
  match l with
  | [] => ([], chans, [])
  | c :: l =>
      let channel :=
        ZeroCopyChannel.connect (ZeroCopyChannel.new buffer_size (node_id c) node) in
      let chan := length chans in
      let '(l', chans', conns) := connect_all buffer_size node (S i) l (chans ++ [channel]) in
      (with_channels c (channels c ++ [chan]) :: l', chans', (i, chan) :: conns)
  end.

Definition create_subscriber (b : PortBuilder) (w : World) : Subscriber * World :=
  let '(l, cs, conns) :=
    connect_all (buffer_size (b_qos b)) (b_node_id b) 0 (publishers w) (chans w) in
  (mk_subscriber (b_service_name b) (b_node_id b) conns,
   mk_world (kernel w) l cs (publisher_counter w)).

(** [Subscriber::receive]: the first connection that has something. *)
Fixpoint receive_from (w : World) (l : list (nat * nat))
    : outcome (result (option Sample) PortError * World) :=
  match l with
  | [] => Ret (Ok None, w)
  | (cell, chan) :: l =>
      let! ch := deref (chans w) chan in
      let! (r, ch) := ZeroCopyChannel.receive ch in
      let w := with_chan w chan ch in
      match r with
      | Ok off => Ret (Ok (Some (mk_sample cell chan off)), w)
      | Err Empty => receive_from w l
      | Err e => Ret (Err (from e), w)
      end
  end.

Definition receive (w : World) (s : Subscriber) := receive_from w (connections s).

(** [Deref for Sample]: the payload it points to. *)
Definition read (w : World) (s : Sample) : outcome T :=
  let! c := deref (publishers w) (r_cell s) in
  match memory c !! PointerOffset.offset (r_offset s) with Some v => Ret v | None => Panic end.

(** [Drop for Sample]: the offset goes back to the publisher. *)
Definition drop_sample (fuel : nat) (w : World) (s : Sample) : outcome World :=
  let! ch := deref (chans w) (r_chan s) in
  let! ch := ZeroCopyChannel.return_offset fuel ch (r_offset s) in
  Ret (with_chan w (r_chan s) ch).

Definition publisher_count (s : Subscriber) : Z := Z.of_nat (length (connections s)).
End ports.

(** ** The service and its builder *)

Module PubSubBuilder.
(** [PubSubBuilder<T>]. *)
Record PubSubBuilder := mk {
  service_name : string;
  config : EntangleConfig;
  node : NodeId;
  qos : PubSubQos;
}.

Definition new (service_name : string) (config : EntangleConfig) (node : NodeId) : PubSubBuilder :=
  mk service_name config node (default_pubsub_qos config).

Definition with_qos (b : PubSubBuilder) (q : PubSubQos) : PubSubBuilder :=
  mk (service_name b) (config b) (node b) q.

Definition history_size (b : PubSubBuilder) (n : Z) : PubSubBuilder :=
  let q := qos b in
  with_qos b {| Config.history_size := n; Config.max_publishers := Config.max_publishers q;
    Config.max_subscribers := Config.max_subscribers q;
    Config.subscriber_overflow := Config.subscriber_overflow q;
    Config.max_loaned_samples := Config.max_loaned_samples q;
    Config.buffer_size := Config.buffer_size q |}.

Definition max_publishers (b : PubSubBuilder) (n : Z) : PubSubBuilder :=
  let q := qos b in
  with_qos b {| Config.history_size := Config.history_size q; Config.max_publishers := n;
    Config.max_subscribers := Config.max_subscribers q;
    Config.subscriber_overflow := Config.subscriber_overflow q;
    Config.max_loaned_samples := Config.max_loaned_samples q;
    Config.buffer_size := Config.buffer_size q |}.

Definition max_subscribers (b : PubSubBuilder) (n : Z) : PubSubBuilder :=
  let q := qos b in
  with_qos b {| Config.history_size := Config.history_size q;
    Config.max_publishers := Config.max_publishers q; Config.max_subscribers := n;
    Config.subscriber_overflow := Config.subscriber_overflow q;
    Config.max_loaned_samples := Config.max_loaned_samples q;
    Config.buffer_size := Config.buffer_size q |}.

Definition subscriber_overflow (b : PubSubBuilder) (s : OverflowStrategy) : PubSubBuilder :=
  let q := qos b in
  with_qos b {| Config.history_size := Config.history_size q;
    Config.max_publishers := Config.max_publishers q;
    Config.max_subscribers := Config.max_subscribers q; Config.subscriber_overflow := s;
    Config.max_loaned_samples := Config.max_loaned_samples q;
    Config.buffer_size := Config.buffer_size q |}.

Definition max_loaned_samples (b : PubSubBuilder) (n : Z) : PubSubBuilder :=
  let q := qos b in
  with_qos b {| Config.history_size := Config.history_size q;
    Config.max_publishers := Config.max_publishers q;
    Config.max_subscribers := Config.max_subscribers q;
    Config.subscriber_overflow := Config.subscriber_overflow q; Config.max_loaned_samples := n;
    Config.buffer_size := Config.buffer_size q |}.

(** [PubSubService<T>]; what it shares is a [World]. *)
Record PubSubService := mk_service {
  sv_service_name : string;
  sv_config : EntangleConfig;
  sv_node : NodeId;
  sv_qos : PubSubQos;
}.

Section builder.
Context {P : Posix} `{FileSystem, Ron} {T : Type}.
(** [std::any::type_name::<T>()] and the layout of [T]. *)
Context (type_name : string) (size_of align_of : Z).

Definition static_config (b : PubSubBuilder) : StaticConfig.StaticConfig :=
  StaticConfig.new PubSub (service_name b) type_name size_of align_of.

Definition lifecycle (b : PubSubBuilder) : ServiceLifecycle.ServiceLifecycle :=
  ServiceLifecycle.new (shm_root (config b)).

(** The handle all three calls end with: it shares nothing with the handles
    that other calls made. *)
Definition ready (b : PubSubBuilder) (os : Os) : PubSubService * World T :=
  (mk_service (service_name b) (config b) (node b) (qos b), mk_world os [] [] 0).

Definition open_or_create (b : PubSubBuilder) (fs : Fs) (os : Os)
    : result (PubSubService * World T) IpcError * Fs :=
  match ServiceLifecycle.open_or_create (lifecycle b) fs (static_config b) with
  | (Err e, fs) => (Err (from e), fs)
  | (Ok _, fs) => (Ok (ready b os), fs)
  end.

Definition create (b : PubSubBuilder) (fs : Fs) (os : Os)
    : result (PubSubService * World T) IpcError * Fs :=
  match ServiceLifecycle.create (lifecycle b) fs (static_config b) with
  | (Err e, fs) => (Err (from e), fs)
  | (Ok _, fs) => (Ok (ready b os), fs)
  end.

Definition open (b : PubSubBuilder) (fs : Fs) (os : Os)
    : result (PubSubService * World T) IpcError :=
  match ServiceLifecycle.open (lifecycle b) fs (static_config b) with
  | Err e => Err (from e)
  | Ok _ => Ok (ready b os)
  end.

(** [publisher()] and [subscriber()]. *)
Definition port_builder (s : PubSubService) : PortBuilder :=
  mk_builder (sv_service_name s) (sv_node s) (sv_qos s).
End builder.
End PubSubBuilder.
End PubSubPorts.
