(* ===== verification/PubSubSafe.v ===== *)
(** * What publish-subscribe guarantees

    Programs that use one [PubSubService]: [system] is the shared world with
    the handles the programs own, [step] one call on one of them; the last
    four fields record history for the theorems.  The calls are atomic steps:
    IndexSetConc.v and SpscConc.v show that the lock-free operations they are
    made of take effect at one point each, channel lists are locked.

    The main invariant [cell_inv] accounts for every chunk of every publisher
    that has at most one subscriber; what happens with two is shown on a run. *)
From S2P Require Import Prelude Contracts FreeList IndexSet Spsc PoolAlloc Channel Shm DataSegment.
From S2P Require Import Config Service PubSub.
#[local] Open Scope Z_scope.
#[local] Open Scope rust_scope.

Module PubSubSafe.
Import PointerOffset PubSubPorts.

Section safe.
Context {P : Posix} {T : Type} (zero : T).
Context (macos : bool) (hash : string -> Z) (size_of : Z) (b : PortBuilder).
#[local] Abbreviation World := (World T).
#[local] Abbreviation PublisherCell := (PublisherCell T).

Record system := Sys {
  world : World;
  pubs : list Publisher;
  subs : list Subscriber;
  muts : list SampleMut;
  samples : list (Sample * T);
  sent : list (nat * T);
  received : list (nat * T);
  lost : list SampleMut;
}.

Inductive step : system -> system -> Prop :=
| st_publisher w ps ss ms xs hs hr hl p w' :
    create_publisher macos hash size_of b w = Ret (Ok p, w') ->
    step (Sys w ps ss ms xs hs hr hl) (Sys w' (p :: ps) ss ms xs hs hr hl)
| st_publisher_err w ps ss ms xs hs hr hl e w' :
    create_publisher macos hash size_of b w = Ret (Err e, w') ->
    step (Sys w ps ss ms xs hs hr hl) (Sys w' ps ss ms xs hs hr hl)
| st_subscriber w ps ss ms xs hs hr hl s w' :
    create_subscriber b w = (s, w') ->
    step (Sys w ps ss ms xs hs hr hl) (Sys w' ps (s :: ss) ms xs hs hr hl)
| st_loan w ps ss ms xs hs hr hl p m w' :
    p ∈ ps -> loan zero w p = Ret (Ok m, w') ->
    step (Sys w ps ss ms xs hs hr hl) (Sys w' ps ss (m :: ms) xs hs hr hl)
| st_loan_err w ps ss ms xs hs hr hl p e w' :
    p ∈ ps -> loan zero w p = Ret (Err e, w') ->
    step (Sys w ps ss ms xs hs hr hl) (Sys w' ps ss ms xs hs hr hl)
| st_write w ps ss ms xs hs hr hl m v w' :
    m ∈ ms -> write w m v = Ret w' ->
    step (Sys w ps ss ms xs hs hr hl) (Sys w' ps ss ms xs hs hr hl)
| st_send w ps ss ms1 m ms2 xs hs hr hl w' c v :
    publishers w !! m_cell m = Some c -> channels c <> [] ->
    memory c !! PointerOffset.offset (m_offset m) = Some v ->
    send w m = Ret (Ok tt, w') ->
    step (Sys w ps ss (ms1 ++ m :: ms2) xs hs hr hl)
         (Sys w' ps ss (ms1 ++ ms2) xs (hs ++ [(m_cell m, v)]) hr hl)
| st_send_nobody w ps ss ms1 m ms2 xs hs hr hl w' c :
    publishers w !! m_cell m = Some c -> channels c = [] ->
    send w m = Ret (Ok tt, w') ->
    step (Sys w ps ss (ms1 ++ m :: ms2) xs hs hr hl)
         (Sys w' ps ss (ms1 ++ ms2) xs hs hr (m :: hl))
| st_send_err w ps ss ms1 m ms2 xs hs hr hl e w' :
    send w m = Ret (Err e, w') ->
    step (Sys w ps ss (ms1 ++ m :: ms2) xs hs hr hl)
         (Sys w' ps ss (ms1 ++ ms2) xs hs hr (m :: hl))
| st_drop_mut w ps ss ms1 m ms2 xs hs hr hl w' :
    drop_mut w m = Ret w' ->
    step (Sys w ps ss (ms1 ++ m :: ms2) xs hs hr hl) (Sys w' ps ss (ms1 ++ ms2) xs hs hr hl)
| st_receive w ps ss ms xs hs hr hl s x v w' :
    s ∈ ss -> receive w s = Ret (Ok (Some x), w') -> read w' x = Ret v ->
    step (Sys w ps ss ms xs hs hr hl)
         (Sys w' ps ss ms ((x, v) :: xs) hs (hr ++ [(r_cell x, v)]) hl)
| st_receive_none w ps ss ms xs hs hr hl s w' :
    s ∈ ss -> receive w s = Ret (Ok None, w') ->
    step (Sys w ps ss ms xs hs hr hl) (Sys w' ps ss ms xs hs hr hl)
| st_receive_err w ps ss ms xs hs hr hl s e w' :
    s ∈ ss -> receive w s = Ret (Err e, w') ->
    step (Sys w ps ss ms xs hs hr hl) (Sys w' ps ss ms xs hs hr hl)
| st_drop_sample w ps ss ms xs1 x v xs2 hs hr hl fuel w' :
    drop_sample fuel w x = Ret w' ->
    step (Sys w ps ss ms (xs1 ++ (x, v) :: xs2) hs hr hl) (Sys w' ps ss ms (xs1 ++ xs2) hs hr hl)
| st_reclaim w ps ss ms xs hs hr hl p fuel w' :
    p ∈ ps -> reclaim fuel w p = Ret w' ->
    step (Sys w ps ss ms xs hs hr hl) (Sys w' ps ss ms xs hs hr hl).

Definition start (os : Os) : system := Sys (mk_world os [] [] 0) [] [] [] [] [] [] [].

(** Every publisher has at most one subscriber. *)
Definition one_channel (s : system) : Prop :=
  forall i c, publishers (world s) !! i = Some c -> (length (channels c) <= 1)%nat.

(** ** The chunks of one publisher

    [mo]: offsets in [SampleMut]s, [so]: samples with the value received, [lo]:
    offsets sent while nobody was subscribed; [q] and [r]: the contents of the
    channel's queues; [vs]: the values in flight. *)
Record cell_ok (chs : list ZeroCopyChannel.ZeroCopyChannel) (c : PublisherCell)
    (mo lo : list PointerOffset) (so : list (Sample * T)) (sv rv : list T)
    (free live : list Z) (q r : list PointerOffset) (vs : list T) : Prop := {
  ck_rep : DataSegment.ds_rep (segment c) free live;
  ck_perm : DataSegment.chunk (segment c) <$> live
            ≡ₚ mo ++ q ++ ((fun x => r_offset x.1) <$> so) ++ r ++ lo;
  ck_loans : active_loans c = Z.of_nat (length live);
  ck_muts : forall o, o ∈ mo -> is_Some (memory c !! PointerOffset.offset o);
  ck_samples : forall x v, (x, v) ∈ so -> memory c !! PointerOffset.offset (r_offset x) = Some v;
  ck_values : sv = rv ++ vs /\
    Forall2 (fun o v => memory c !! PointerOffset.offset o = Some v) q vs;
  ck_chan :
    match channels c with
    | [] => q = [] /\ r = [] /\ so = [] /\ sv = [] /\ rv = []
    | [k] => exists ch cap, chs !! k = Some ch /\ ZeroCopyChannel.chan_rep ch cap q r /\
        DataSegment.chunk_count (segment c) <= cap /\
        ZeroCopyChannel.state ch = Connected /\
        forall x v, (x, v) ∈ so -> r_chan x = k
    | _ => False
    end;
}.

Definition cell_inv chs c mo lo so sv rv : Prop :=
  exists free live q r vs, cell_ok chs c mo lo so sv rv free live q r vs.

Lemma chunk_fmap s1 s2 (l : list Z) :
  (forall j, DataSegment.chunk s1 j = DataSegment.chunk s2 j) ->
  DataSegment.chunk s1 <$> l = DataSegment.chunk s2 <$> l.
Proof. intros Hc. apply list_fmap_ext. intros. apply Hc. Qed.

Section cell.
Context (chs : list ZeroCopyChannel.ZeroCopyChannel) (c : PublisherCell).
Context (mo lo : list PointerOffset) (so : list (Sample * T)) (sv rv : list T).
Context (free live : list Z) (q r : list PointerOffset) (vs : list T).
Context (Hok : cell_ok chs c mo lo so sv rv free live q r vs).

Lemma ck_NoDup : NoDup (DataSegment.chunk (segment c) <$> live).
Proof using Hok.
  apply NoDup_fmap_2_strong.
  - intros x y Hx Hy. apply (DataSegment.chunk_inj _ _ _ (ck_rep _ _ _ _ _ _ _ _ _ _ _ _ Hok));
      apply elem_of_app; by right.
  - pose proof (DataSegment.ds_NoDup _ _ _ (ck_rep _ _ _ _ _ _ _ _ _ _ _ _ Hok)) as Hn.
    by apply NoDup_app in Hn as (_ & _ & ?).
Qed.

Lemma ck_small : 0 <= Z.of_nat (length live) <= DataSegment.chunk_count (segment c) /\
  DataSegment.chunk_count (segment c) < SENTINEL.
Proof using Hok.
  pose proof (DataSegment.ds_length _ _ _ (ck_rep _ _ _ _ _ _ _ _ _ _ _ _ Hok)).
  pose proof (ia_rep_capacity _ _ _ (PoolAllocator.pr_rep _ _ _
    (DataSegment.dr_pool _ _ _ (ck_rep _ _ _ _ _ _ _ _ _ _ _ _ Hok)))) as Hc.
  rewrite (DataSegment.ds_pool_capacity _ _ _ (ck_rep _ _ _ _ _ _ _ _ _ _ _ _ Hok)) in Hc. lia.
Qed.

(** An offset of the publisher is a live chunk, and no two have the same bytes. *)
Lemma ck_chunk o :
  o ∈ mo ++ q ++ ((fun x => r_offset x.1) <$> so) ++ r ++ lo ->
  exists i, i ∈ live /\ o = DataSegment.chunk (segment c) i.
Proof using Hok.
  rewrite <- (ck_perm _ _ _ _ _ _ _ _ _ _ _ _ Hok), list_elem_of_fmap.
  intros (i & -> & Hi). eauto.
Qed.

Lemma ck_offset_inj o1 o2 :
  o1 ∈ mo ++ q ++ ((fun x => r_offset x.1) <$> so) ++ r ++ lo ->
  o2 ∈ mo ++ q ++ ((fun x => r_offset x.1) <$> so) ++ r ++ lo ->
  PointerOffset.offset o1 = PointerOffset.offset o2 -> o1 = o2.
Proof using Hok.
  intros (i & Hi & ->)%ck_chunk (j & Hj & ->)%ck_chunk He.
  pose proof (ck_rep _ _ _ _ _ _ _ _ _ _ _ _ Hok) as Hr.
  destruct (DataSegment.chunk_fields _ _ _ Hr i) as (Hb & Ho & _); [apply elem_of_app; by right|].
  destruct (DataSegment.chunk_fields _ _ _ Hr j) as (Hb2 & Ho2 & _); [apply elem_of_app; by right|].
  pose proof (PoolAllocator.geo_chunk _ (PoolAllocator.pr_geo _ _ _ (DataSegment.dr_pool _ _ _ Hr))).
  pose proof (DataSegment.dr_chunk _ _ _ Hr). f_equal. nia.
Qed.

Lemma ck_all_NoDup : NoDup (mo ++ q ++ ((fun x => r_offset x.1) <$> so) ++ r ++ lo).
Proof using Hok. rewrite <- (ck_perm _ _ _ _ _ _ _ _ _ _ _ _ Hok). apply ck_NoDup. Qed.

Lemma ck_length :
  (length mo + (length q + (length so + (length r + length lo))) = length live)%nat.
Proof using Hok.
  pose proof (Permutation_length (ck_perm _ _ _ _ _ _ _ _ _ _ _ _ Hok)) as Hl.
  rewrite !length_app, !length_fmap in Hl. lia.
Qed.

(** A free chunk shares its offset with no chunk in use. *)
Lemma ck_free i o :
  i ∈ free -> o ∈ mo ++ q ++ ((fun x => r_offset x.1) <$> so) ++ r ++ lo ->
  PointerOffset.offset o <> PointerOffset.offset (DataSegment.chunk (segment c) i).
Proof using Hok.
  intros Hi (j & Hj & ->)%ck_chunk He.
  pose proof (ck_rep _ _ _ _ _ _ _ _ _ _ _ _ Hok) as Hr.
  destruct (DataSegment.chunk_fields _ _ _ Hr i) as (Hb & Ho & _); [apply elem_of_app; by left|].
  destruct (DataSegment.chunk_fields _ _ _ Hr j) as (Hb2 & Ho2 & _); [apply elem_of_app; by right|].
  pose proof (PoolAllocator.geo_chunk _ (PoolAllocator.pr_geo _ _ _ (DataSegment.dr_pool _ _ _ Hr))).
  pose proof (DataSegment.dr_chunk _ _ _ Hr).
  assert (i = j) as -> by nia.
  pose proof (DataSegment.ds_NoDup _ _ _ Hr) as Hn. apply NoDup_app in Hn as (_ & Hn & _).
  by apply (Hn j).
Qed.

(** Writing where neither a queued nor a received payload is. *)
Lemma ck_values_insert bt w :
  (forall o, o ∈ q ++ ((fun x => r_offset x.1) <$> so) -> PointerOffset.offset o <> bt) ->
  (forall x v, (x, v) ∈ so -> <[bt := w]> (memory c) !! PointerOffset.offset (r_offset x) = Some v) /\
  Forall2 (fun o v => <[bt := w]> (memory c) !! PointerOffset.offset o = Some v) q vs.
Proof using Hok.
  intros Hne. split.
  - intros x v Hx. rewrite lookup_insert_ne; [by apply (ck_samples _ _ _ _ _ _ _ _ _ _ _ _ Hok)|].
    apply not_eq_sym, Hne, elem_of_app. right. apply list_elem_of_fmap. by exists (x, v).
  - destruct (ck_values _ _ _ _ _ _ _ _ _ _ _ _ Hok) as [_ Hv].
    assert (Hq : forall o, o ∈ q -> PointerOffset.offset o <> bt)
      by (intros o Ho; apply Hne, elem_of_app; by left).
    clear -Hv Hq. induction Hv as [|o v q vs Ho Hv IH]; constructor.
    + rewrite lookup_insert_ne; [done|]. apply not_eq_sym, Hq. by left.
    + apply IH. intros; apply Hq. by right.
Qed.

Lemma ck_mo_perm mo' :
  mo ≡ₚ mo' -> cell_ok chs c mo' lo so sv rv free live q r vs.
Proof using Hok.
  intros Hp. destruct Hok. split; try done.
  - by rewrite <- Hp.
  - intros o Ho. apply ck_muts0. by rewrite Hp.
Qed.

Lemma ck_so_perm so' :
  so ≡ₚ so' -> cell_ok chs c mo lo so' sv rv free live q r vs.
Proof using Hok.
  intros Hp. destruct Hok. split; try done.
  - by rewrite <- Hp.
  - intros x v Hx. apply ck_samples0. by rewrite Hp.
  - destruct (channels c) as [|k [|]]; [| |done].
    + destruct ck_chan0 as (? & ? & Hs & ? & ?). rewrite Hs in Hp.
      apply Permutation_nil_l in Hp as ->. done.
    + destruct ck_chan0 as (ch & cap & ? & ? & ? & ? & Hs). exists ch, cap.
      do 4 (split; [done|]). intros x v Hx. apply (Hs x v). by rewrite Hp.
Qed.

Lemma ck_frame chs' :
  (forall k, k ∈ channels c -> chs' !! k = chs !! k) ->
  cell_ok chs' c mo lo so sv rv free live q r vs.
Proof using Hok.
  intros Hk. destruct Hok. split; try done.
  destruct (channels c) as [|k [|]]; [done| |done].
  by rewrite (Hk k) by left.
Qed.

(** [loan] on a publisher with a free chunk. *)
Lemma ck_loan i free' seg' :
  free = i :: free' -> DataSegment.ds_rep seg' free' (i :: live) ->
  (forall j, DataSegment.chunk seg' j = DataSegment.chunk (segment c) j) ->
  DataSegment.chunk_count seg' = DataSegment.chunk_count (segment c) ->
  let off := DataSegment.chunk (segment c) i in
  cell_ok chs (mk_cell (node_id c) seg' (<[PointerOffset.offset off := zero]> (memory c))
                 (channels c) (wrapping_add 64 (active_loans c) 1))
    (off :: mo) lo so sv rv free' (i :: live) q r vs.
Proof using Hok.
  intros Hfree Hr' Hch Hcc. cbn zeta. set (off := DataSegment.chunk (segment c) i).
  destruct (ck_values_insert (PointerOffset.offset off) zero) as [H1 H2].
  { intros o Ho. apply (ck_free i o); [rewrite Hfree; left|].
    apply elem_of_app. right. rewrite app_assoc. apply elem_of_app. by left. }
  pose proof ck_small as Hsm. destruct Hok. split; cbn; try done.
  - rewrite Hch, (chunk_fmap _ _ live Hch). by rewrite ck_perm0.
  - rewrite ck_loans0. unfold wrapping_add. rewrite wrap_small; [lia|].
    unfold fits, SENTINEL in *. lia.
  - intros o [->|Ho]%elem_of_cons; [by rewrite lookup_insert_eq; eauto|].
    destruct (decide (PointerOffset.offset o = PointerOffset.offset off)) as [->|].
    + rewrite lookup_insert_eq. eauto.
    + rewrite lookup_insert_ne by done. by apply ck_muts0.
  - split; [apply ck_values0|done].
  - by rewrite Hcc.
Qed.

(** Writing through a [SampleMut]. *)
Lemma ck_write o mo' v :
  mo ≡ₚ o :: mo' ->
  cell_ok chs (with_memory c (<[PointerOffset.offset o := v]> (memory c)))
    mo lo so sv rv free live q r vs.
Proof using Hok.
  intros Hmo. pose proof ck_all_NoDup as Hnd. rewrite Hmo in Hnd. cbn in Hnd.
  apply NoDup_cons in Hnd as [Hnin _].
  assert (Ho : o ∈ mo) by (rewrite Hmo; left).
  destruct (ck_values_insert (PointerOffset.offset o) v) as [H1 H2].
  { intros o' Ho' He. apply ck_offset_inj in He.
    - subst o'. apply Hnin. apply elem_of_app. right. rewrite app_assoc. apply elem_of_app. by left.
    - apply elem_of_app. right. rewrite app_assoc. apply elem_of_app. by left.
    - apply elem_of_app. by left. }
  destruct Hok. split; cbn; try done.
  - intros x Hx. destruct (decide (PointerOffset.offset x = PointerOffset.offset o)) as [->|].
    + rewrite lookup_insert_eq. eauto.
    + rewrite lookup_insert_ne by done. by apply ck_muts0.
  - split; [apply ck_values0|done].
Qed.

(** Giving back a chunk that is not in the hands of the subscriber: a dropped
    [SampleMut], or a returned offset that [reclaim] takes. *)
Lemma ck_give_back o i free' live' seg' mo' r' lo' chs' :
  live ≡ₚ i :: live' -> o = DataSegment.chunk (segment c) i ->
  mo ++ q ++ ((fun x => r_offset x.1) <$> so) ++ r ++ lo
    ≡ₚ o :: mo' ++ q ++ ((fun x => r_offset x.1) <$> so) ++ r' ++ lo' ->
  (forall x, x ∈ mo' -> x ∈ mo) ->
  DataSegment.ds_rep seg' free' live' ->
  (forall j, DataSegment.chunk seg' j = DataSegment.chunk (segment c) j) ->
  DataSegment.chunk_count seg' = DataSegment.chunk_count (segment c) ->
  match channels c with
  | [] => r' = []
  | [k] => exists ch cap, chs' !! k = Some ch /\ ZeroCopyChannel.chan_rep ch cap q r' /\
        DataSegment.chunk_count (segment c) <= cap /\ ZeroCopyChannel.state ch = Connected
  | _ => True
  end ->
  cell_ok chs' (with_loans (with_segment c seg') (wrapping_sub 64 (active_loans c) 1))
    mo' lo' so sv rv free' live' q r' vs.
Proof using Hok.
  intros Hlive Ho Hperm Hmo Hr' Hch Hcc Hchan. pose proof ck_small as Hsm. destruct Hok.
  split; cbn; try done.
  - rewrite (chunk_fmap _ _ live' Hch). apply (Permutation_cons_inv (a := o)).
    rewrite <- Hperm, <- ck_perm0, Hlive. cbn. by rewrite Ho.
  - rewrite ck_loans0. apply Permutation_length in Hlive. cbn in Hlive.
    unfold wrapping_sub. rewrite wrap_small; [lia|]. unfold fits, SENTINEL in *. lia.
  - intros x Hx. by apply ck_muts0, Hmo.
  - destruct (channels c) as [|k [|]]; [|rewrite Hcc|done].
    + destruct_and? ck_chan0. done.
    + destruct ck_chan0 as (? & ? & _ & _ & _ & _ & Hs).
      destruct Hchan as (ch & cap & ? & ? & ? & ?). exists ch, cap. done.
Qed.

(** The channel's queues changed, to [q'] and [r']. *)
Lemma ck_rewire k ch' cap q' r' :
  channels c = [k] -> ZeroCopyChannel.chan_rep ch' cap q' r' ->
  DataSegment.chunk_count (segment c) <= cap -> ZeroCopyChannel.state ch' = Connected ->
  exists ch cap, <[k := ch']> chs !! k = Some ch /\ ZeroCopyChannel.chan_rep ch cap q' r' /\
    DataSegment.chunk_count (segment c) <= cap /\ ZeroCopyChannel.state ch = Connected /\
    forall x v, (x, v) ∈ so -> r_chan x = k.
Proof using Hok.
  intros Hc Hrep Hcap Hst. destruct Hok. rewrite Hc in ck_chan0.
  destruct ck_chan0 as (ch & cap0 & Hk & _ & _ & _ & Hs). exists ch', cap.
  rewrite list_lookup_insert_eq by (by eapply lookup_lt_Some). done.
Qed.

Lemma ck_rewired k ch' cap :
  channels c = [k] -> ZeroCopyChannel.chan_rep ch' cap q r ->
  DataSegment.chunk_count (segment c) <= cap -> ZeroCopyChannel.state ch' = Connected ->
  cell_ok (<[k := ch']> chs) c mo lo so sv rv free live q r vs.
Proof using Hok.
  intros Hc Hrep Hcap Hst. pose proof (ck_rewire k ch' cap _ _ Hc Hrep Hcap Hst).
  destruct Hok. split; try done. by rewrite Hc.
Qed.

(** The send queue took an offset that a [SampleMut] held. *)
Lemma ck_sent k ch' cap o mo' v :
  channels c = [k] -> ZeroCopyChannel.chan_rep ch' cap (q ++ [o]) r ->
  DataSegment.chunk_count (segment c) <= cap -> ZeroCopyChannel.state ch' = Connected ->
  mo ≡ₚ o :: mo' -> memory c !! PointerOffset.offset o = Some v ->
  cell_ok (<[k := ch']> chs) c mo' lo so (sv ++ [v]) rv free live (q ++ [o]) r (vs ++ [v]).
Proof using Hok.
  intros Hc Hrep Hcap Hst Hmo Hv. pose proof (ck_rewire k ch' cap _ _ Hc Hrep Hcap Hst).
  destruct Hok. split; try done.
  - rewrite ck_perm0, Hmo. cbn. rewrite <- !app_assoc. cbn.
    by rewrite <- !Permutation_middle.
  - intros x Hx. apply ck_muts0. rewrite Hmo. by right.
  - destruct ck_values0 as [-> Hf]. split; [by rewrite app_assoc|].
    apply Forall2_app; [done|]. by constructor.
  - by rewrite Hc.
Qed.

(** Sending: with a subscriber the channel takes the offset ... *)
Lemma ck_send k ch o mo' v :
  channels c = [k] -> chs !! k = Some ch -> mo ≡ₚ o :: mo' ->
  memory c !! PointerOffset.offset o = Some v ->
  exists ch', ZeroCopyChannel.send ch o = Ret (Ok tt, ch') /\
    cell_ok (<[k := ch']> chs) c mo' lo so (sv ++ [v]) rv free live (q ++ [o]) r (vs ++ [v]).
Proof using Hok.
  intros Hc Hk Hmo Hv. pose proof ck_length as Hlen. pose proof ck_small as Hsm.
  apply Permutation_length in Hmo as Hml. cbn in Hml.
  pose proof (ck_chan _ _ _ _ _ _ _ _ _ _ _ _ Hok) as Hch. rewrite Hc in Hch.
  destruct Hch as (ch0 & cap & Hk0 & Hrep & Hcap & Hst & Hs). rewrite Hk in Hk0. simplify_eq.
  destruct (ZeroCopyChannel.chan_send _ _ _ _ Hrep o) as [[_ He]|(ch' & Hsend & Hrep' & Hst' & _)];
    [by rewrite Hst|lia|].
  exists ch'. split; [done|]. apply (ck_sent k ch' cap o mo' v); try done.
  unfold ZeroCopyChannel.state in *. by rewrite Hst'.
Qed.

(** ... and without one the chunk is lost. *)
Lemma ck_send_nobody o mo' :
  channels c = [] -> mo ≡ₚ o :: mo' ->
  cell_ok chs c mo' (o :: lo) so sv rv free live q r vs.
Proof using Hok.
  intros Hc Hmo. destruct Hok. split; try done.
  - rewrite ck_perm0, Hmo. cbn. rewrite !app_assoc. by rewrite <- Permutation_middle.
  - intros x Hx. apply ck_muts0. rewrite Hmo. by right.
Qed.

(** The send queue yielded the oldest offset in flight: a sample. *)
Lemma ck_received k ch' cap i o q' :
  channels c = [k] -> q = o :: q' -> ZeroCopyChannel.chan_rep ch' cap q' r ->
  DataSegment.chunk_count (segment c) <= cap -> ZeroCopyChannel.state ch' = Connected ->
  exists v vs', memory c !! PointerOffset.offset o = Some v /\
    cell_ok (<[k := ch']> chs) c mo lo ((mk_sample i k o, v) :: so) sv (rv ++ [v])
      free live q' r vs'.
Proof using Hok.
  intros Hc Hq Hrep Hcap Hst.
  destruct (ck_rewire k ch' cap _ _ Hc Hrep Hcap Hst) as (ch & cap0 & ? & ? & ? & ? & Hs).
  destruct Hok. destruct ck_values0 as [Hsv Hf]. rewrite Hq in Hf.
  apply Forall2_cons_inv_l in Hf as (v & vs' & Hv & Hf & ->).
  exists v, vs'. split; [done|]. split; try done.
  - rewrite ck_perm0, Hq. cbn. by rewrite (Permutation_middle q').
  - intros x w [[= -> ->]|Hx]%elem_of_cons; [done|]. by apply ck_samples0.
  - split; [|done]. by rewrite Hsv, <- app_assoc.
  - rewrite Hc. exists ch, cap0. do 4 (split; [done|]).
    intros x w [[= -> ->]|Hx]%elem_of_cons; [done|]. by apply (Hs x w).
Qed.

(** Receiving takes the oldest offset in flight; its payload is the value that
    was sent. *)
Lemma ck_receive k ch i :
  channels c = [k] -> chs !! k = Some ch ->
  match q with
  | o :: q' => exists ch' v vs', ZeroCopyChannel.receive ch = Ret (Ok o, ch') /\
      memory c !! PointerOffset.offset o = Some v /\
      cell_ok (<[k := ch']> chs) c mo lo ((mk_sample i k o, v) :: so) sv (rv ++ [v])
        free live q' r vs'
  | [] => ZeroCopyChannel.receive ch = Ret (Err Empty, ch)
  end.
Proof using Hok.
  intros Hc Hk. pose proof (ck_chan _ _ _ _ _ _ _ _ _ _ _ _ Hok) as Hch. rewrite Hc in Hch.
  destruct Hch as (ch0 & cap & Hk0 & Hrep & Hcap & Hst & Hs). rewrite Hk in Hk0. simplify_eq.
  pose proof (ZeroCopyChannel.chan_receive _ _ _ _ Hrep) as Hrc.
  pose proof (fun ch' o q' => ck_received k ch' cap i o q' Hc) as Hrecv.
  destruct q as [|o q']; [by rewrite Hst in Hrc|].
  destruct Hrc as (ch' & Hrc & Hrep' & Hst').
  destruct (Hrecv ch' o q') as (v & vs' & Hv & Hok'); try done.
  { unfold ZeroCopyChannel.state in *. by rewrite Hst'. }
  by exists ch', v, vs'.
Qed.

(** A sample or a returned offset that a call is busy with counts as neither
    held nor queued: it is among [lo] until the call hands it on. *)
Lemma ck_unhold x v so' :
  so ≡ₚ (x, v) :: so' ->
  cell_ok chs c mo (r_offset x :: lo) so' sv rv free live q r vs.
Proof using Hok.
  intros Hso. assert (Hin : forall y w, (y, w) ∈ so' -> (y, w) ∈ so)
    by (intros; rewrite Hso; by right).
  destruct Hok. split; try done.
  - rewrite ck_perm0, Hso. cbn. by rewrite <- !Permutation_middle.
  - intros y w Hy. by apply ck_samples0, Hin.
  - destruct (channels c) as [|k [|]]; [|..|done].
    + destruct ck_chan0 as (? & ? & -> & ? & ?). by apply Permutation_nil_cons in Hso.
    + destruct ck_chan0 as (ch & cap & ? & ? & ? & ? & Hs). exists ch, cap.
      do 4 (split; [done|]). intros y w Hy. by apply (Hs y w), Hin.
Qed.

Lemma ck_returned k ch' cap o lo' :
  channels c = [k] -> ZeroCopyChannel.chan_rep ch' cap q (r ++ [o]) ->
  DataSegment.chunk_count (segment c) <= cap -> ZeroCopyChannel.state ch' = Connected ->
  lo ≡ₚ o :: lo' ->
  cell_ok (<[k := ch']> chs) c mo lo' so sv rv free live q (r ++ [o]) vs.
Proof using Hok.
  intros Hc Hrep Hcap Hst Hlo. pose proof (ck_rewire k ch' cap _ _ Hc Hrep Hcap Hst).
  destruct Hok. split; try done; [|by rewrite Hc].
  rewrite ck_perm0, Hlo. by rewrite <- !app_assoc.
Qed.

Lemma ck_taken_back k ch' cap o r' :
  channels c = [k] -> r = o :: r' -> ZeroCopyChannel.chan_rep ch' cap q r' ->
  DataSegment.chunk_count (segment c) <= cap -> ZeroCopyChannel.state ch' = Connected ->
  cell_ok (<[k := ch']> chs) c mo (o :: lo) so sv rv free live q r' vs.
Proof using Hok.
  intros Hc Hr Hrep Hcap Hst. pose proof (ck_rewire k ch' cap _ _ Hc Hrep Hcap Hst).
  destruct Hok. split; try done; [|by rewrite Hc].
  rewrite ck_perm0, Hr. cbn. by rewrite <- !Permutation_middle.
Qed.

(** Dropping a sample: the return queue has room. *)
Lemma ck_drop_sample x v so' fuel :
  so ≡ₚ (x, v) :: so' -> (0 < fuel)%nat ->
  exists k ch ch', channels c = [k] /\ r_chan x = k /\ chs !! k = Some ch /\
    ZeroCopyChannel.return_offset fuel ch (r_offset x) = Ret ch' /\
    cell_ok (<[k := ch']> chs) c mo lo so' sv rv free live q (r ++ [r_offset x]) vs.
Proof using Hok.
  intros Hso Hf. pose proof ck_length as Hlen. pose proof ck_small as Hsm.
  apply Permutation_length in Hso as Hsl. cbn in Hsl.
  assert (Hx : (x, v) ∈ so) by (rewrite Hso; left).
  destruct Hok. destruct (channels c) as [|k [|]] eqn:Hc; [|..|done].
  { destruct ck_chan0 as (_ & _ & -> & _). by apply elem_of_nil in Hx. }
  destruct ck_chan0 as (ch & cap & Hk & Hrep & Hcap & Hst & Hs).
  destruct (ZeroCopyChannel.chan_return _ _ _ _ Hrep fuel (r_offset x) Hf) as (ch' & Hr & Hrep' & Hst');
    [lia|].
  exists k, ch, ch'. split; [done|]. split; [by apply (Hs x v)|]. split; [done|]. split; [done|].
  split; try done.
  - rewrite ck_perm0, Hso. cbn. rewrite <- !app_assoc. cbn. rewrite <- !Permutation_middle.
    by rewrite !Permutation_middle.
  - intros y w Hy. apply ck_samples0. rewrite Hso. by right.
  - rewrite Hc. exists ch', cap. rewrite list_lookup_insert_eq by (by eapply lookup_lt_Some).
    split; [done|]. split; [done|]. split; [done|]. split.
    { unfold ZeroCopyChannel.state in *. by rewrite Hst'. }
    intros y w Hy. apply (Hs y w). rewrite Hso. by right.
Qed.

(** A subscriber connects to a publisher that has none. *)
Lemma ck_connect k ch cap :
  channels c = [] -> ZeroCopyChannel.chan_rep ch cap [] [] ->
  DataSegment.chunk_count (segment c) <= cap -> ZeroCopyChannel.state ch = Connected ->
  forall chs', chs' !! k = Some ch ->
  cell_ok chs' (with_channels c (channels c ++ [k])) mo lo so sv rv free live q r vs.
Proof using Hok.
  intros Hc Hrep Hcap Hst chs' Hk. destruct Hok. rewrite Hc in ck_chan0.
  destruct ck_chan0 as (-> & -> & -> & _). split; cbn; try done.
  rewrite Hc. cbn. exists ch, cap. do 4 (split; [done|]). by intros x v ?%elem_of_nil.
Qed.
End cell.

(** ** The invariant of a system *)

(** What a history or a list of handles holds for publisher [i]. *)
Definition offsets_of (i : nat) (ms : list SampleMut) : list PointerOffset :=
  m_offset <$> filter (fun m => m_cell m = i) ms.
Definition samples_of (i : nat) (xs : list (Sample * T)) : list (Sample * T) :=
  filter (fun x => r_cell x.1 = i) xs.

#[local] Arguments offsets_of : simpl never.
#[local] Arguments samples_of : simpl never.

Lemma offsets_of_app i l1 l2 : offsets_of i (l1 ++ l2) = offsets_of i l1 ++ offsets_of i l2.
Proof. unfold offsets_of. by rewrite filter_app, fmap_app. Qed.
Lemma offsets_of_here i m l :
  m_cell m = i -> offsets_of i (m :: l) = m_offset m :: offsets_of i l.
Proof. intros. unfold offsets_of. by rewrite filter_cons_True. Qed.
Lemma offsets_of_other i m l : i <> m_cell m -> offsets_of i (m :: l) = offsets_of i l.
Proof. intros. unfold offsets_of. by rewrite filter_cons_False. Qed.
Lemma offsets_of_elem m l : m ∈ l -> m_offset m ∈ offsets_of (m_cell m) l.
Proof.
  intros. unfold offsets_of. apply list_elem_of_fmap. exists m. split; [done|].
  by apply list_elem_of_filter.
Qed.
Record inv (s : system) : Prop := {
  i_cell i c : publishers (world s) !! i = Some c ->
    cell_inv (chans (world s)) c (offsets_of i (muts s)) (offsets_of i (lost s))
      (samples_of i (samples s)) (values_of i (sent s)) (values_of i (received s));
  i_count i c : publishers (world s) !! i = Some c ->
    DataSegment.chunk_count (segment c) = buffer_size (b_qos b) /\
    active_loans c <= max_loaned_samples (b_qos b);
  i_disj i j c d k : publishers (world s) !! i = Some c -> publishers (world s) !! j = Some d ->
    k ∈ channels c -> k ∈ channels d -> i = j;
  i_pubs p : p ∈ pubs s -> is_Some (publishers (world s) !! p_cell p) /\
    max_loaned p = max_loaned_samples (b_qos b);
  i_subs x i k : x ∈ subs s -> (i, k) ∈ connections x ->
    exists c, publishers (world s) !! i = Some c /\ k ∈ channels c;
  i_muts m : m ∈ muts s ++ lost s -> is_Some (publishers (world s) !! m_cell m);
  i_samples x v : (x, v) ∈ samples s -> is_Some (publishers (world s) !! r_cell x);
  i_history i v : (i, v) ∈ sent s ++ received s -> is_Some (publishers (world s) !! i);
}.

(** Steps that touch one publisher and channels of its own. *)
Lemma ps_inv_update s s' i c c' :
  inv s -> publishers (world s) !! i = Some c ->
  publishers (world s') = <[i := c']> (publishers (world s)) ->
  channels c' = channels c ->
  (forall k, k ∉ channels c -> chans (world s') !! k = chans (world s) !! k) ->
  DataSegment.chunk_count (segment c') = DataSegment.chunk_count (segment c) ->
  active_loans c' <= max_loaned_samples (b_qos b) ->
  cell_inv (chans (world s')) c' (offsets_of i (muts s')) (offsets_of i (lost s'))
    (samples_of i (samples s')) (values_of i (sent s')) (values_of i (received s')) ->
  (forall j, j <> i ->
     offsets_of j (muts s') = offsets_of j (muts s) /\
     offsets_of j (lost s') = offsets_of j (lost s) /\
     samples_of j (samples s') = samples_of j (samples s) /\
     values_of j (sent s') = values_of j (sent s) /\
     values_of j (received s') = values_of j (received s)) ->
  pubs s' = pubs s -> subs s' = subs s ->
  (forall m, m ∈ muts s' ++ lost s' -> m_cell m = i \/ m ∈ muts s ++ lost s) ->
  (forall x v, (x, v) ∈ samples s' -> r_cell x = i \/ (x, v) ∈ samples s) ->
  (forall j v, (j, v) ∈ sent s' ++ received s' -> j = i \/ (j, v) ∈ sent s ++ received s) ->
  inv s'.
Proof.
  intros Hinv Hi Hp Hc Hk Hcc Hal Hcell Hother Hpubs Hsubs Hms Hxs Hhs.
  pose proof (lookup_lt_Some _ _ _ Hi) as Hlt.
  assert (Hsome : forall j, is_Some (publishers (world s) !! j) ->
                  is_Some (publishers (world s') !! j)).
  { intros j Hj. rewrite Hp. apply lookup_lt_is_Some. rewrite length_insert.
    by apply lookup_lt_is_Some. }
  assert (Hi' : is_Some (publishers (world s') !! i)) by (apply Hsome; eauto).
  assert (Hback : forall j d, publishers (world s') !! j = Some d ->
            exists d0, publishers (world s) !! j = Some d0 /\ channels d = channels d0 /\
              (j = i /\ d = c' /\ d0 = c \/ j <> i /\ d = d0)).
  { intros j d Hj. rewrite Hp in Hj.
    apply list_lookup_insert_Some in Hj as [(<- & <- & _)|(Hne & Hj)]; eauto 10. }
  destruct Hinv. split.
  - intros j d Hj. destruct (Hback j d Hj) as (d0 & Hj0 & Hch & [(-> & -> & ->)|(Hne & ->)]); [done|].
    destruct (Hother j Hne) as (-> & -> & -> & -> & ->).
    destruct (i_cell0 j d0 Hj0) as (fr & lv & q & r & vs & Hok).
    exists fr, lv, q, r, vs. eapply ck_frame; [done|]. intros k Hkd. apply Hk. intros Hkc.
    by apply Hne, (i_disj0 j i d0 c k).
  - intros j d Hj. destruct (Hback j d Hj) as (d0 & Hj0 & Hch & [(-> & -> & ->)|(Hne & ->)]); [|eauto].
    rewrite Hcc. split; [|done]. by apply (i_count0 i c).
  - intros j1 j2 d1 d2 k H1 H2 Hk1 Hk2.
    destruct (Hback j1 d1 H1) as (e1 & H1' & Hc1 & _).
    destruct (Hback j2 d2 H2) as (e2 & H2' & Hc2 & _).
    rewrite Hc1 in Hk1. rewrite Hc2 in Hk2. eauto.
  - intros p Hpin. rewrite Hpubs in Hpin. destruct (i_pubs0 p Hpin). eauto.
  - intros x j k Hx Hjk. rewrite Hsubs in Hx. destruct (i_subs0 x j k Hx Hjk) as (d & Hd & Hkd).
    destruct (decide (j = i)) as [->|Hne].
    + exists c'. rewrite Hp, list_lookup_insert_eq by done. split; [done|]. simplify_eq. by rewrite Hc.
    + exists d. by rewrite Hp, list_lookup_insert_ne.
  - intros m [->|Hm]%Hms; eauto.
  - intros x v [->|Hx]%Hxs; eauto.
  - intros j v [->|Hx]%Hhs; eauto.
Qed.

(** ** Each call keeps the invariant and comes back *)

Lemma deref_Some {A} (l : list A) i a : l !! i = Some a -> deref l i = Ret a.
Proof. unfold deref. by intros ->. Qed.

Lemma with_cell_same (w : World) i c : publishers w !! i = Some c -> with_cell w i c = w.
Proof. intros. unfold with_cell. rewrite list_insert_id by done. by destruct w. Qed.

Lemma mo_split i ms1 m ms2 :
  m_cell m = i ->
  offsets_of i (ms1 ++ m :: ms2) ≡ₚ m_offset m :: offsets_of i (ms1 ++ ms2).
Proof.
  intros Hm. rewrite !offsets_of_app, offsets_of_here by done. by rewrite <- Permutation_middle.
Qed.

Lemma mo_split_other j ms1 m ms2 :
  j <> m_cell m -> offsets_of j (ms1 ++ m :: ms2) = offsets_of j (ms1 ++ ms2).
Proof. intros. by rewrite !offsets_of_app, offsets_of_other. Qed.

Lemma so_split i xs1 x v xs2 :
  r_cell x = i -> samples_of i (xs1 ++ (x, v) :: xs2) ≡ₚ (x, v) :: samples_of i (xs1 ++ xs2).
Proof.
  intros <-. unfold samples_of. rewrite !filter_app, filter_cons_True by done.
  by rewrite <- Permutation_middle.
Qed.

Lemma so_split_other j xs1 x v xs2 :
  j <> r_cell x -> samples_of j (xs1 ++ (x, v) :: xs2) = samples_of j (xs1 ++ xs2).
Proof.
  intros. unfold samples_of. rewrite !filter_app, filter_cons_False; [done|]. cbn. congruence.
Qed.

Section calls.
Context (w : World) (ps : list Publisher) (ss : list Subscriber) (ms : list SampleMut).
Context (xs : list (Sample * T)) (hs hr : list (nat * T)) (hl : list SampleMut).
#[local] Abbreviation sys := (Sys w ps ss ms xs hs hr hl).
Context (Hinv : inv sys).

Lemma loan_ok p :
  p ∈ ps ->
  exists r w', loan zero w p = Ret (r, w') /\
  match r with
  | Ok m => inv (Sys w' ps ss (m :: ms) xs hs hr hl)
  | Err e => w' = w /\ exists c, publishers w !! p_cell p = Some c /\
      (e = Loan (ExceedsMaxLoans (max_loaned p)) /\ max_loaned p <= active_loans c \/
       e = Loan OutOfMemory /\ active_loans c = DataSegment.chunk_count (segment c))
  end.
Proof using Hinv.
  intros Hp. destruct (i_pubs _ Hinv p Hp) as [[c Hc] Hmax]. cbn in Hc.
  unfold loan. rewrite (deref_Some _ _ _ Hc). cbn [obind].
  destruct (active_loans c >=? max_loaned p) eqn:E; rewrite Z.geb_leb in E; zbool.
  { do 2 eexists. split; [done|]. split; [done|]. exists c. split; [done|]. by left. }
  destruct (i_cell _ Hinv _ _ Hc) as (free & live & q & r & vs & Hok). cbn in Hok.
  pose proof (ck_rep _ _ _ _ _ _ _ _ _ _ _ _ Hok) as Hrep.
  pose proof (ck_small _ _ _ _ _ _ _ _ _ _ _ _ Hok) as Hsm.
  destruct free as [|i free].
  - rewrite (DataSegment.ds_allocate_none _ _ Hrep). cbn [obind].
    do 2 eexists. split; [done|]. split.
    { destruct c. by apply with_cell_same. }
    exists c. split; [done|]. right. split; [done|].
    pose proof (DataSegment.ds_length _ _ _ Hrep) as Hl. cbn in Hl.
    rewrite (ck_loans _ _ _ _ _ _ _ _ _ _ _ _ Hok). lia.
  - destruct (DataSegment.ds_allocate_some _ _ _ _ Hrep) as (seg' & Ha & Hr' & Hch & He).
    rewrite Ha. cbn [obind]. do 2 eexists. split; [done|].
    assert (Hcc : DataSegment.chunk_count seg' = DataSegment.chunk_count (segment c))
      by (by rewrite He).
    pose proof (ck_loan _ _ _ _ _ _ _ _ _ _ _ _ Hok i free seg' eq_refl Hr' Hch Hcc) as Hnew.
    eapply (ps_inv_update sys _ (p_cell p) c _ Hinv Hc); cbn; [reflexivity|try done..].
    + rewrite (ck_loans _ _ _ _ _ _ _ _ _ _ _ _ Hok) in E |- *.
      unfold wrapping_add. rewrite wrap_small by (unfold fits, SENTINEL in *; lia). cbn. lia.
    + rewrite offsets_of_here by done. exists free, (i :: live), q, r, vs. exact Hnew.
    + intros j Hj. split; [|done]. by rewrite offsets_of_other.
    + intros m [->|Hm]%elem_of_cons; [by left|by right].
    + by right.
    + by right.
Qed.

Lemma write_ok m v :
  m ∈ ms -> exists w', write w m v = Ret w' /\ inv (Sys w' ps ss ms xs hs hr hl).
Proof using Hinv.
  intros Hm. destruct (i_muts _ Hinv m) as [c Hc]; [cbn; apply elem_of_app; by left|]. cbn in Hc.
  unfold write. rewrite (deref_Some _ _ _ Hc). cbn [obind]. eexists. split; [done|].
  destruct (i_cell _ Hinv _ _ Hc) as (free & live & q & r & vs & Hok). cbn in Hok.
  apply offsets_of_elem in Hm as Ho. apply elem_of_Permutation in Ho as [mo' Hmo].
  pose proof (ck_write _ _ _ _ _ _ _ _ _ _ _ _ Hok (m_offset m) mo' v Hmo) as Hnew.
  eapply (ps_inv_update sys _ (m_cell m) c _ Hinv Hc); cbn; [reflexivity|try done; try (by right)..].
  - by apply (i_count _ Hinv _ _ Hc).
  - exists free, live, q, r, vs. exact Hnew.
Qed.

(** The cell, and the way its channel is seen, when a sample names it. *)
Lemma chan_of i c k :
  publishers w !! i = Some c -> k ∈ channels c -> channels c = [k].
Proof using Hinv.
  intros Hc Hk. destruct (i_cell _ Hinv _ _ Hc) as (free & live & q & r & vs & Hok).
  destruct Hok as [_ _ _ _ _ _ Hch]. destruct (channels c) as [|k' [|]]; [|..|done].
  - by apply elem_of_nil in Hk.
  - by apply list_elem_of_singleton in Hk as ->.
Qed.

(** [receive] on a connection: the oldest payload, if any. *)
Lemma receive_from_ok l :
  (forall i k, (i, k) ∈ l -> exists c, publishers w !! i = Some c /\ k ∈ channels c) ->
  exists r w', receive_from w l = Ret (r, w') /\
  match r with
  | Ok (Some x) => exists v, read w' x = Ret v /\
      inv (Sys w' ps ss ms ((x, v) :: xs) hs (hr ++ [(r_cell x, v)]) hl)
  | Ok None => w' = w /\ forall i k, (i, k) ∈ l -> values_of i hr = values_of i hs
  | Err _ => False
  end.
Proof using Hinv.
  induction l as [|[i k] l IH]; intros Hl.
  { exists (Ok None), w. split; [done|]. split; [done|]. by intros i k ?%elem_of_nil. }
  destruct (Hl i k ltac:(left)) as (c & Hc & Hk).
  pose proof (chan_of i c k Hc Hk) as Hck.
  destruct (i_cell _ Hinv _ _ Hc) as (free & live & q & r & vs & Hok). cbn in Hok.
  pose proof (ck_chan _ _ _ _ _ _ _ _ _ _ _ _ Hok) as Hch. rewrite Hck in Hch.
  destruct Hch as (ch & cap & Hchk & _).
  cbn [receive_from]. rewrite (deref_Some _ _ _ Hchk). cbn [obind].
  pose proof (ck_receive _ _ _ _ _ _ _ _ _ _ _ _ Hok k ch i Hck Hchk) as Hrc.
  destruct q as [|o q].
  - rewrite Hrc. cbn [obind].
    assert (Hsame : with_chan w k ch = w).
    { unfold with_chan. rewrite list_insert_id by done. by destruct w. }
    rewrite Hsame. destruct IH as (r0 & w' & -> & Hr0).
    { intros i' k' Hin. apply Hl. by right. }
    exists r0, w'. split; [done|]. destruct r0 as [[x|]|]; [done| |done].
    destruct Hr0 as [-> Hall]. split; [done|]. intros i' k' [[= -> ->]|Hin]%elem_of_cons; [|eauto].
    destruct (ck_values _ _ _ _ _ _ _ _ _ _ _ _ Hok) as [Hsv Hf].
    apply Forall2_nil_inv_l in Hf as ->. by rewrite Hsv, app_nil_r.
  - destruct Hrc as (ch' & v & vs' & Hrc & Hv & Hnew). rewrite Hrc. cbn [obind].
    do 2 eexists. split; [done|]. exists v. split.
    { unfold read, with_chan. cbn. rewrite (deref_Some _ _ _ Hc). cbn. by rewrite Hv. }
    eapply (ps_inv_update sys _ i c c Hinv Hc); cbn; [by rewrite list_insert_id|try done; try (by right)..].
    + intros k' Hk'. rewrite list_lookup_insert_ne; [done|]. intros <-. done.
    + by apply (i_count _ Hinv _ _ Hc).
    + exists free, live, q, r, vs'. unfold samples_of. rewrite filter_cons_True by done.
      rewrite values_of_here. exact Hnew.
    + intros j Hj. rewrite values_of_other by done. unfold samples_of.
      rewrite filter_cons_False by (cbn; congruence). done.
    + intros x w0 [[= -> ->]|Hx]%elem_of_cons; [by left|by right].
    + intros j w0. rewrite app_assoc. intros [Hx|Hx]%elem_of_app; [by right|].
      apply list_elem_of_singleton in Hx as [= -> ->]. by left.
Qed.

Lemma receive_ok s :
  s ∈ ss ->
  exists r w', receive w s = Ret (r, w') /\
  match r with
  | Ok (Some x) => exists v, read w' x = Ret v /\
      inv (Sys w' ps ss ms ((x, v) :: xs) hs (hr ++ [(r_cell x, v)]) hl)
  | Ok None => w' = w /\ forall i k, (i, k) ∈ connections s -> values_of i hr = values_of i hs
  | Err _ => False
  end.
Proof using Hinv.
  intros Hs. apply receive_from_ok. intros i k Hik. by apply (i_subs _ Hinv s).
Qed.

End calls.

Section mut_calls.
Context (w : World) (ps : list Publisher) (ss : list Subscriber) (ms1 ms2 : list SampleMut).
Context (m : SampleMut).
Context (xs : list (Sample * T)) (hs hr : list (nat * T)) (hl : list SampleMut).
#[local] Abbreviation sys := (Sys w ps ss (ms1 ++ m :: ms2) xs hs hr hl).
Context (Hinv : inv sys).

Lemma mut_cell : exists c, publishers w !! m_cell m = Some c.
Proof using Hinv.
  destruct (i_muts _ Hinv m) as [c Hc]; [|by eauto].
  cbn. apply elem_of_app. left. apply elem_of_app. right. left.
Qed.

Lemma mut_in x : x ∈ (ms1 ++ ms2) ++ hl -> x ∈ (ms1 ++ m :: ms2) ++ hl.
Proof using. rewrite !elem_of_app, elem_of_cons. tauto. Qed.

Lemma send_ok :
  exists c, publishers w !! m_cell m = Some c /\
  match channels c with
  | [] => send w m = Ret (Ok tt, w) /\ inv (Sys w ps ss (ms1 ++ ms2) xs hs hr (m :: hl))
  | _ => exists v w', memory c !! PointerOffset.offset (m_offset m) = Some v /\
      send w m = Ret (Ok tt, w') /\
      inv (Sys w' ps ss (ms1 ++ ms2) xs (hs ++ [(m_cell m, v)]) hr hl)
  end.
Proof using Hinv.
  destruct mut_cell as [c Hc]. exists c. split; [done|].
  destruct (i_cell _ Hinv _ _ Hc) as (free & live & q & r & vs & Hok). cbn in Hok.
  pose proof (mo_split (m_cell m) ms1 m ms2 eq_refl) as Hmo.
  unfold send. rewrite (deref_Some _ _ _ Hc). cbn [obind].
  destruct (channels c) as [|k l] eqn:Hck.
  - split; [done|].
    pose proof (ck_send_nobody _ _ _ _ _ _ _ _ _ _ _ _ Hok _ _ Hck Hmo) as Hnew.
    eapply (ps_inv_update sys _ (m_cell m) c c Hinv Hc); cbn;
      [by rewrite list_insert_id|try done; try (by right)..].
    + by apply (i_count _ Hinv _ _ Hc).
    + rewrite (offsets_of_here (m_cell m)) by done. exists free, live, q, r, vs. exact Hnew.
    + intros j Hj. rewrite mo_split_other, offsets_of_other by done. done.
    + intros x. rewrite !elem_of_app, !elem_of_cons. tauto.
  - assert (Hl : l = []).
    { pose proof (chan_of _ _ _ _ _ _ _ _ Hinv _ _ k Hc) as Hx. rewrite Hck in Hx.
      by injection (Hx ltac:(left)). }
    subst l. destruct (ck_muts _ _ _ _ _ _ _ _ _ _ _ _ Hok (m_offset m)) as [v Hv];
      [rewrite Hmo; left|].
    pose proof (ck_chan _ _ _ _ _ _ _ _ _ _ _ _ Hok) as Hch. rewrite Hck in Hch.
    destruct Hch as (ch & cap & Hchk & _).
    destruct (ck_send _ _ _ _ _ _ _ _ _ _ _ _ Hok k ch _ _ v Hck Hchk Hmo Hv) as (ch' & Hs & Hnew).
    exists v. cbn [send_all]. rewrite (deref_Some _ _ _ Hchk). cbn [obind]. rewrite Hs. cbn [obind send_all].
    eexists. split; [done|]. split; [done|].
    eapply (ps_inv_update sys _ (m_cell m) c c Hinv Hc); cbn;
      [by rewrite list_insert_id|try done; try (by right)..].
    + intros k' Hk'. rewrite list_lookup_insert_ne; [done|]. intros <-. apply Hk'.
      rewrite Hck. left.
    + by apply (i_count _ Hinv _ _ Hc).
    + rewrite values_of_here. exists free, live, (q ++ [m_offset m]), r, (vs ++ [v]). exact Hnew.
    + intros j Hj. rewrite mo_split_other, values_of_other by done. done.
    + intros x Hx. right. by apply mut_in.
    + intros j u. rewrite !elem_of_app, list_elem_of_singleton. intros [[Hx|[= -> ->]]|Hx]; tauto.
Qed.

Lemma drop_mut_ok :
  exists w', drop_mut w m = Ret w' /\ inv (Sys w' ps ss (ms1 ++ ms2) xs hs hr hl).
Proof using Hinv.
  destruct mut_cell as [c Hc].
  destruct (i_cell _ Hinv _ _ Hc) as (free & live & q & r & vs & Hok). cbn in Hok.
  pose proof (mo_split (m_cell m) ms1 m ms2 eq_refl) as Hmo.
  unfold drop_mut. rewrite (deref_Some _ _ _ Hc). cbn [obind].
  destruct (ck_chunk _ _ _ _ _ _ _ _ _ _ _ _ Hok (m_offset m)) as (i & Hi & Ho).
  { apply elem_of_app. left. rewrite Hmo. left. }
  apply elem_of_Permutation in Hi as [live' Hlive].
  pose proof (DataSegment.ds_rep_perm _ _ _ _ (ck_rep _ _ _ _ _ _ _ _ _ _ _ _ Hok) Hlive) as Hrep.
  destruct (DataSegment.ds_deallocate_some _ _ _ _ Hrep) as (seg' & Hd & Hr' & Hch & He).
  rewrite Ho, Hd. cbn [obind]. eexists. split; [done|].
  assert (Hcc : DataSegment.chunk_count seg' = DataSegment.chunk_count (segment c)) by (by rewrite He).
  assert (Hnew : cell_ok (chans w) (with_loans (with_segment c seg') (wrapping_sub 64 (active_loans c) 1))
    (offsets_of (m_cell m) (ms1 ++ ms2)) (offsets_of (m_cell m) hl) (samples_of (m_cell m) xs)
    (values_of (m_cell m) hs) (values_of (m_cell m) hr) (i :: free) live' q r vs).
  { eapply (ck_give_back _ _ _ _ _ _ _ _ _ _ _ _ Hok (m_offset m) i); try done.
    - by rewrite Hmo.
    - intros x Hx. rewrite Hmo. by right.
    - pose proof (ck_chan _ _ _ _ _ _ _ _ _ _ _ _ Hok) as Hchan.
      destruct (channels c) as [|k [|]]; [by destruct_and?| |done].
      destruct Hchan as (ch & cap & ? & ? & ? & ? & _). by exists ch, cap. }
  pose proof (ck_small _ _ _ _ _ _ _ _ _ _ _ _ Hnew) as Hsm.
  eapply (ps_inv_update sys _ (m_cell m) c _ Hinv Hc); cbn; [reflexivity|try done; try (by right)..].
  - destruct (i_count _ Hinv _ _ Hc) as [_ Hmax].
    pose proof (ck_loans _ _ _ _ _ _ _ _ _ _ _ _ Hnew) as Hl. cbn in Hl. rewrite Hl.
    rewrite (ck_loans _ _ _ _ _ _ _ _ _ _ _ _ Hok) in Hmax.
    apply Permutation_length in Hlive. cbn in Hlive |- *. lia.
  - by exists (i :: free), live', q, r, vs.
  - intros j Hj. by rewrite mo_split_other.
  - intros x Hx. right. by apply mut_in.
Qed.
End mut_calls.

Section sample_calls.
Context (w : World) (ps : list Publisher) (ss : list Subscriber) (ms : list SampleMut).
Context (xs1 xs2 : list (Sample * T)) (x : Sample) (v : T).
Context (hs hr : list (nat * T)) (hl : list SampleMut).
#[local] Abbreviation sys := (Sys w ps ss ms (xs1 ++ (x, v) :: xs2) hs hr hl).
Context (Hinv : inv sys).

(** A sample reads what was received, however long it is kept. *)
Lemma read_ok : read w x = Ret v.
Proof using Hinv.
  destruct (i_samples _ Hinv x v) as [c Hc]; [cbn; apply elem_of_app; right; left|]. cbn in Hc.
  destruct (i_cell _ Hinv _ _ Hc) as (free & live & q & r & vs & Hok). cbn in Hok.
  unfold read. rewrite (deref_Some _ _ _ Hc). cbn [obind].
  rewrite (ck_samples _ _ _ _ _ _ _ _ _ _ _ _ Hok x v); [done|].
  rewrite so_split by done. left.
Qed.

Lemma drop_sample_ok fuel :
  (0 < fuel)%nat ->
  exists w', drop_sample fuel w x = Ret w' /\ inv (Sys w' ps ss ms (xs1 ++ xs2) hs hr hl).
Proof using Hinv.
  intros Hf. destruct (i_samples _ Hinv x v) as [c Hc]; [cbn; apply elem_of_app; right; left|].
  cbn in Hc. destruct (i_cell _ Hinv _ _ Hc) as (free & live & q & r & vs & Hok). cbn in Hok.
  destruct (ck_drop_sample _ _ _ _ _ _ _ _ _ _ _ _ Hok x v _ fuel
    (so_split _ xs1 x v xs2 eq_refl) Hf) as (k & ch & ch' & Hck & Hxk & Hchk & Hret & Hnew).
  unfold drop_sample. rewrite Hxk, (deref_Some _ _ _ Hchk). cbn [obind]. rewrite Hret. cbn [obind].
  eexists. split; [done|].
  eapply (ps_inv_update sys _ (r_cell x) c c Hinv Hc); cbn;
    [by rewrite list_insert_id|try done; try (by right)..].
  - intros k' Hk'. rewrite list_lookup_insert_ne; [done|]. intros <-. apply Hk'. rewrite Hck. left.
  - by apply (i_count _ Hinv _ _ Hc).
  - exists free, live, q, (r ++ [r_offset x]), vs. exact Hnew.
  - intros j Hj. by rewrite so_split_other.
  - intros y u Hy. right. rewrite elem_of_app, elem_of_cons. apply elem_of_app in Hy. tauto.
Qed.
End sample_calls.

(** ** Reclaiming *)

Section reclaim_calls.
Context (ps : list Publisher) (ss : list Subscriber) (ms : list SampleMut).
Context (xs : list (Sample * T)) (hs hr : list (nat * T)) (hl : list SampleMut).
#[local] Abbreviation sys w := (Sys w ps ss ms xs hs hr hl).

(** One turn: either the queue is empty or one chunk comes back. *)
Lemma reclaim_turn w i c k :
  inv (sys w) -> publishers w !! i = Some c -> channels c = [k] ->
  exists ch, chans w !! k = Some ch /\
  (ZeroCopyChannel.return_count ch = 0 /\ ZeroCopyChannel.reclaim ch = Ret (None, ch) \/
   exists off ch' seg' c', ZeroCopyChannel.reclaim ch = Ret (Some off, ch') /\
     ZeroCopyChannel.return_count ch' = ZeroCopyChannel.return_count ch - 1 /\
     DataSegment.deallocate (segment c) off = Ret seg' /\
     c' = with_loans (with_segment c seg') (wrapping_sub 64 (active_loans c) 1) /\
     inv (sys (with_cell (with_chan w k ch') i c'))).
Proof.
  intros Hinv Hc Hck. destruct (i_cell _ Hinv _ _ Hc) as (free & live & q & r & vs & Hok).
  cbn in Hok. pose proof (ck_chan _ _ _ _ _ _ _ _ _ _ _ _ Hok) as Hchan. rewrite Hck in Hchan.
  destruct Hchan as (ch & cap & Hchk & Hrep & Hcap & Hst & Hs). exists ch. split; [done|].
  pose proof (ZeroCopyChannel.chan_reclaim _ _ _ _ Hrep) as Hrc.
  destruct (ZeroCopyChannel.chan_counts _ _ _ _ Hrep) as [_ Hcnt].
  destruct r as [|off r]; [left; by rewrite Hcnt, Hrc|]. right.
  destruct Hrc as (ch' & Hrc & Hrep' & Hst').
  destruct (ZeroCopyChannel.chan_counts _ _ _ _ Hrep') as [_ Hcnt'].
  destruct (ck_chunk _ _ _ _ _ _ _ _ _ _ _ _ Hok off) as (j & Hj & Ho).
  { rewrite !elem_of_app. right. right. right. left. left. }
  apply elem_of_Permutation in Hj as [live' Hlive].
  pose proof (DataSegment.ds_rep_perm _ _ _ _ (ck_rep _ _ _ _ _ _ _ _ _ _ _ _ Hok) Hlive) as Hdr.
  destruct (DataSegment.ds_deallocate_some _ _ _ _ Hdr) as (seg' & Hd & Hr' & Hch & He).
  assert (Hcc : DataSegment.chunk_count seg' = DataSegment.chunk_count (segment c)) by (by rewrite He).
  exists off, ch', seg'. eexists. split; [done|].
  split; [rewrite Hcnt, Hcnt'; cbn [length]; lia|].
  split; [by rewrite Ho|]. split; [done|].
  assert (Hnew : cell_ok (<[k := ch']> (chans w))
    (with_loans (with_segment c seg') (wrapping_sub 64 (active_loans c) 1))
    (offsets_of i ms) (offsets_of i hl) (samples_of i xs) (values_of i hs) (values_of i hr)
    (j :: free) live' q r vs).
  { eapply (ck_give_back _ _ _ _ _ _ _ _ _ _ _ _ Hok off j); try done.
    - cbn. rewrite !app_assoc. rewrite <- Permutation_middle. by rewrite !app_assoc.
    - rewrite Hck. exists ch', cap. rewrite list_lookup_insert_eq by (by eapply lookup_lt_Some).
      split; [done|]. split; [done|]. split; [done|].
      unfold ZeroCopyChannel.state in *. by rewrite Hst'. }
  eapply (ps_inv_update (sys w) _ i c _ Hinv Hc); cbn; [reflexivity|try done; try (by right)..].
  - intros k' Hk'. rewrite list_lookup_insert_ne; [done|]. intros <-. apply Hk'. rewrite Hck. left.
  - destruct (i_count _ Hinv _ _ Hc) as [_ Hmax].
    pose proof (ck_loans _ _ _ _ _ _ _ _ _ _ _ _ Hnew) as Hl. cbn in Hl. rewrite Hl.
    rewrite (ck_loans _ _ _ _ _ _ _ _ _ _ _ _ Hok) in Hmax.
    apply Permutation_length in Hlive. cbn in Hlive |- *. lia.
  - by exists (j :: free), live', q, r, vs.
Qed.

(** The loop: with more fuel than returned offsets it empties the queue. *)
Lemma reclaim_channel_ok fuel w i c k :
  inv (sys w) -> publishers w !! i = Some c -> channels c = [k] ->
  exists ch, chans w !! k = Some ch /\
  (Z.of_nat fuel <= ZeroCopyChannel.return_count ch /\ reclaim_channel fuel w i k = OutOfFuel \/
   exists w' ch', reclaim_channel fuel w i k = Ret w' /\ inv (sys w') /\
     chans w' !! k = Some ch' /\ ZeroCopyChannel.return_count ch' = 0).
Proof.
  revert w c. induction fuel as [|fuel IH]; intros w c Hinv Hc Hck;
    destruct (reclaim_turn w i c k Hinv Hc Hck) as (ch & Hchk & Hturn);
    exists ch; (split; [done|]).
  - left. split; [|done]. pose proof (wrap_fits 64). unfold ZeroCopyChannel.return_count, SpscQueue.len.
    pose proof (wrapping_sub_fits 64 (SpscQueue.write_pos (ZeroCopyChannel.return_queue ch))
      (SpscQueue.read_pos (ZeroCopyChannel.return_queue ch)) ltac:(lia)) as Hf.
    unfold fits in Hf. lia.
  - cbn [reclaim_channel]. rewrite (deref_Some _ _ _ Hchk). cbn [obind].
    destruct Hturn as [[H0 Hr]|(off & ch' & seg' & c' & Hr & Hcnt & Hd & -> & Hinv')].
    + right. rewrite Hr. cbn [obind]. exists (with_chan w k ch), ch.
      assert (Hsame : with_chan w k ch = w).
      { unfold with_chan. rewrite list_insert_id by done. by destruct w. }
      by rewrite Hsame.
    + rewrite Hr. cbn [obind]. change (publishers (with_chan w k ch')) with (publishers w).
      rewrite (deref_Some _ _ _ Hc). cbn [obind]. rewrite Hd. cbn [obind].
      destruct (IH _ (with_loans (with_segment c seg') (wrapping_sub 64 (active_loans c) 1)) Hinv')
        as (ch2 & Hch2 & Hcase); [|done|].
      { cbn. apply list_lookup_insert_eq. by eapply lookup_lt_Some. }
      cbn in Hch2. rewrite list_lookup_insert_eq in Hch2 by (by eapply lookup_lt_Some).
      simplify_eq. destruct Hcase as [[Hle Hof]|Hret]; [left|by right].
      split; [lia|exact Hof].
Qed.

Lemma reclaim_ok w p fuel :
  inv (sys w) -> p ∈ ps ->
  (exists w', reclaim fuel w p = Ret w' /\ inv (sys w')) \/
  reclaim fuel w p = OutOfFuel /\
  exists c k ch, publishers w !! p_cell p = Some c /\ channels c = [k] /\ chans w !! k = Some ch /\
    Z.of_nat fuel <= ZeroCopyChannel.return_count ch.
Proof.
  intros Hinv Hp. destruct (i_pubs _ Hinv p Hp) as [[c Hc] _]. cbn in Hc.
  unfold reclaim. rewrite (deref_Some _ _ _ Hc). cbn [obind].
  destruct (i_cell _ Hinv _ _ Hc) as (free & live & q & r & vs & [_ _ _ _ _ _ Hchan]).
  destruct (channels c) as [|k [|]] eqn:Hck; [left; by exists w| |done].
  destruct (reclaim_channel_ok fuel w _ c k Hinv Hc Hck) as (ch & Hchk & [[Hle Hof]|(w' & ch' & Hr & Hi & _)]).
  - right. cbn. rewrite Hof. split; [done|]. by exists c, k, ch.
  - left. exists w'. cbn. by rewrite Hr.
Qed.
End reclaim_calls.

(** ** Creating ports *)

Lemma filter_nobody (n : nat) :
  (forall ms, (forall m, m ∈ ms -> (m_cell m < n)%nat) -> offsets_of n ms = []) /\
  (forall xs, (forall x v, (x, v) ∈ xs -> (r_cell x < n)%nat) -> samples_of n xs = []) /\
  (forall h : list (nat * T), (forall j v, (j, v) ∈ h -> (j < n)%nat) -> values_of n h = []).
Proof.
  split; [|split].
  - intros ms Hm. unfold offsets_of. rewrite filter_none_in; [done|].
    intros m Hin He. specialize (Hm m Hin). lia.
  - intros xs Hx. unfold samples_of. apply filter_none_in.
    intros [x v] Hin He. cbn in He. specialize (Hx x v Hin). lia.
  - intros h Hh. apply values_of_none. intros v Hin. specialize (Hh n v Hin). lia.
Qed.

(** What the service must ask for: at least one chunk, and all of them within
    the reach of a [PointerOffset]. *)
Definition qos_ok : Prop :=
  Z.max size_of 8 + 7 < 2 ^ 64 /\
  DataSegment.fits_segment (Z.max size_of 8) (buffer_size (b_qos b)) 0 /\
  0 <= max_loaned_samples (b_qos b).

Section create_calls.
Context {V : PosixView} {Sp : PosixSpec} (Hqos : qos_ok).
Context (w : World) (ps : list Publisher) (ss : list Subscriber) (ms : list SampleMut).
Context (xs : list (Sample * T)) (hs hr : list (nat * T)) (hl : list SampleMut).
#[local] Abbreviation sys := (Sys w ps ss ms xs hs hr hl).
Context (Hinv : inv sys).

Lemma new_cell_ok seg node :
  DataSegment.ds_rep seg (seqZ 0 (buffer_size (b_qos b))) [] ->
  cell_inv (chans w) (mk_cell node seg ∅ [] 0) [] [] [] [] [].
Proof using.
  intros Hrep. exists (seqZ 0 (buffer_size (b_qos b))), [], [], [], []. split; cbn; try done.
  - by intros o ?%elem_of_nil.
  - by intros x v ?%elem_of_nil.
Qed.

Lemma create_publisher_ok :
  exists r w', create_publisher macos hash size_of b w = Ret (r, w') /\
  inv (Sys w' (match r with Ok p => p :: ps | Err _ => ps end) ss ms xs hs hr hl).
Proof using Hinv Hqos Sp.
  destruct Hqos as (Hsz & Hfit & Hmax). unfold create_publisher. cbn zeta.
  assert (Hcount : wrap 32 (buffer_size (b_qos b)) = buffer_size (b_qos b)).
  { apply wrap_small. destruct Hfit as (_ & Hn & _). unfold fits, SENTINEL in *. lia. }
  rewrite Hcount.
  destruct (DataSegment.ds_create_spec macos hash (kernel w)
    (seg_name (b_service_name b) (publisher_counter w) (b_node_id b)) _ _ _ Hsz Hfit)
    as (r & os & -> & Hr). cbn [obind].
  destruct r as [seg|e].
  2: { do 2 eexists. split; [done|]. destruct Hinv. by split. }
  destruct Hr as (Hrep & _ & Hct & _). do 2 eexists. split; [done|].
  assert (Hold : forall j c, publishers w !! j = Some c ->
    (publishers w ++ [mk_cell (b_node_id b) seg ∅ [] 0]) !! j = Some c)
    by (intros j c Hj; by apply lookup_app_l_Some).
  assert (Hsome : forall j, is_Some (publishers w !! j) ->
    is_Some ((publishers w ++ [mk_cell (b_node_id b) seg ∅ [] 0]) !! j))
    by (intros j [c Hj]; eauto).
  assert (Hnew : forall j c, (publishers w ++ [mk_cell (b_node_id b) seg ∅ [] 0]) !! j = Some c ->
    publishers w !! j = Some c \/ j = length (publishers w) /\ c = mk_cell (b_node_id b) seg ∅ [] 0).
  { intros j c Hj. apply lookup_app_Some in Hj as [Hj|[Hge Hj]]; [by left|]. right.
    apply list_lookup_singleton_Some in Hj as [Hj <-]. split; [lia|done]. }
  destruct (filter_nobody (length (publishers w))) as (F1 & F2 & F3).
  pose proof Hinv as [Hcell Hcnt Hdisj Hpubs Hsubs Hms Hxs Hhs]. cbn in *. split; cbn.
  - intros j c Hj. destruct (Hnew j c Hj) as [Hj'|[-> ->]]; [by apply Hcell|].
    rewrite !F1, F2, !F3; [by apply new_cell_ok|..].
    + intros j v Hv. apply lookup_lt_is_Some, (Hhs j v), elem_of_app. by right.
    + intros j v Hv. apply lookup_lt_is_Some, (Hhs j v), elem_of_app. by left.
    + intros x v Hx. by apply lookup_lt_is_Some, (Hxs x v).
    + intros m Hm. apply lookup_lt_is_Some, Hms, elem_of_app. by right.
    + intros m Hm. apply lookup_lt_is_Some, Hms, elem_of_app. by left.
  - intros j c Hj. destruct (Hnew j c Hj) as [Hj'|[-> ->]]; [by apply (Hcnt j)|].
    cbn. rewrite Hct. lia.
  - intros i j c d k Hi Hj Hkc Hkd.
    destruct (Hnew i c Hi) as [Hi'|[-> ->]]; [|by apply elem_of_nil in Hkc].
    destruct (Hnew j d Hj) as [Hj'|[-> ->]]; [|by apply elem_of_nil in Hkd]. by eapply Hdisj.
  - intros p [->|Hp]%elem_of_cons; cbn.
    + split; [|done]. apply lookup_lt_is_Some. rewrite length_app. cbn. lia.
    + destruct (Hpubs p Hp). auto.
  - intros x i k Hx Hik. destruct (Hsubs x i k Hx Hik) as (c & Hc & Hk). eauto.
  - auto.
  - eauto.
  - eauto.
Qed.

Lemma conj_rep ch cap :
  ZeroCopyChannel.chan_rep ch cap [] [] ->
  ZeroCopyChannel.chan_rep (ZeroCopyChannel.connect ch) cap [] [].
Proof using. by intros []. Qed.

(** What the loop of [create_subscriber] makes of a list of publishers. *)
Lemma connect_all_spec bs node i l chs :
  let '(l', chs', conns) := connect_all (T := T) bs node i l chs in
  length l' = length l /\
  (forall j c, l !! j = Some c ->
     l' !! j = Some (with_channels c (channels c ++ [(length chs + j)%nat])) /\
     chs' !! (length chs + j)%nat
       = Some (ZeroCopyChannel.connect (ZeroCopyChannel.new bs (node_id c) node))) /\
  (forall j, (j < length chs)%nat -> chs' !! j = chs !! j) /\
  (forall p, p ∈ conns -> exists j, (j < length l)%nat /\ p = ((i + j)%nat, (length chs + j)%nat)).
Proof using.
  revert i chs. induction l as [|c l IH]; intros i chs; cbn.
  - split; [done|]. split; [done|]. split; [done|]. by intros p ?%elem_of_nil.
  - specialize (IH (S i) (chs ++ [ZeroCopyChannel.connect (ZeroCopyChannel.new bs (node_id c) node)])).
    destruct (connect_all bs node (S i) l _) as [[l' chs'] conns].
    rewrite length_app in IH. cbn in IH. destruct IH as (Hl & Hnew & Hold & Hconn).
    split; [cbn; by rewrite Hl|]. split; [|split].
    + intros [|j] d Hj; cbn in Hj.
      * injection Hj as <-. rewrite Nat.add_0_r. split; [done|].
        rewrite Hold by lia. by rewrite list_lookup_middle.
      * destruct (Hnew j d Hj) as [H1 H2]. cbn.
        replace (length chs + S j)%nat with (length chs + 1 + j)%nat by lia. done.
    + intros j Hj. rewrite Hold by lia. by rewrite lookup_app_l.
    + intros p [->|Hp]%elem_of_cons.
      * exists 0%nat. rewrite !Nat.add_0_r. split; [lia|done].
      * destruct (Hconn p Hp) as (j & Hj & ->). exists (S j). split; [lia|].
        f_equal; lia.
Qed.

Lemma create_subscriber_ok s w' :
  create_subscriber b w = (s, w') ->
  (forall i c, publishers w' !! i = Some c -> (length (channels c) <= 1)%nat) ->
  inv (Sys w' ps (s :: ss) ms xs hs hr hl).
Proof using Hinv Hqos.
  intros Hc Hone. unfold create_subscriber in Hc.
  pose proof (connect_all_spec (buffer_size (b_qos b)) (b_node_id b) 0 (publishers w) (chans w)) as Hspec.
  destruct (connect_all _ _ _ _ _) as [[l cs] conns]. injection Hc as <- <-. cbn in Hone.
  destruct Hspec as (Hlen & Hnew & Hold & Hconn).
  assert (Hback : forall j c', l !! j = Some c' -> exists c, publishers w !! j = Some c /\
    channels c = [] /\ c' = with_channels c [(length (chans w) + j)%nat] /\
    cs !! (length (chans w) + j)%nat = Some (ZeroCopyChannel.connect
      (ZeroCopyChannel.new (buffer_size (b_qos b)) (node_id c) (b_node_id b)))).
  { intros j c' Hj. destruct (lookup_lt_is_Some_2 (publishers w) j) as [c Hcj].
    { rewrite <- Hlen. by eapply lookup_lt_Some. }
    destruct (Hnew j c Hcj) as [H1 H2]. rewrite H1 in Hj. injection Hj as <-.
    specialize (Hone j _ H1). cbn in Hone. rewrite length_app in Hone. cbn in Hone.
    assert (He : channels c = []) by (destruct (channels c); [done|cbn in Hone; lia]).
    exists c. rewrite He. done. }
  assert (Hsome : forall j, is_Some (publishers w !! j) -> is_Some (l !! j)).
  { intros j Hj. apply lookup_lt_is_Some. rewrite Hlen. by apply lookup_lt_is_Some. }
  destruct Hqos as (_ & (_ & Hn & _) & _).
  pose proof Hinv as [Hcell Hcnt Hdisj Hpubs Hsubs Hms Hxs Hhs]. cbn in *. split; cbn.
  - intros j c' Hj. destruct (Hback j c' Hj) as (c & Hcj & He & -> & Hch).
    destruct (Hcell j c Hcj) as (free & live & q & r & vs & Hok). exists free, live, q, r, vs.
    destruct (ZeroCopyChannel.chan_new (buffer_size (b_qos b)) (node_id c) (b_node_id b))
      as (Hcap & Hrep & _); [unfold SENTINEL in Hn; lia|].
    pose proof (ck_connect _ _ _ _ _ _ _ _ _ _ _ _ Hok (length (chans w) + j)%nat _
      _ He (conj_rep _ _ Hrep) (Z.le_trans _ _ _ (Z.eq_le_incl _ _ (proj1 (Hcnt j c Hcj))) Hcap) eq_refl cs Hch) as Hnc.
    by rewrite He in Hnc.
  - intros j c' Hj. destruct (Hback j c' Hj) as (c & Hcj & _ & -> & _). cbn. by apply (Hcnt j c).
  - intros i j c d k Hi Hj Hkc Hkd. destruct (Hback i c Hi) as (c0 & _ & _ & -> & _).
    destruct (Hback j d Hj) as (d0 & _ & _ & -> & _). cbn in Hkc, Hkd.
    apply list_elem_of_singleton in Hkc, Hkd. lia.
  - intros p Hp. destruct (Hpubs p Hp). auto.
  - intros x i k [->|Hx]%elem_of_cons Hik; cbn in Hik.
    + destruct (Hconn _ Hik) as (j & Hj & [= -> ->]).
      destruct (lookup_lt_is_Some_2 l j) as [c' Hj']; [lia|].
      exists c'. split; [done|]. destruct (Hback j c' Hj') as (c & _ & _ & -> & _). cbn. left.
    + destruct (Hsubs x i k Hx Hik) as (c & Hc & Hk).
      destruct (Hsome i) as [c' Hc']; [eauto|].
      destruct (Hback i c' Hc') as (c0 & Hc0 & He & _). simplify_eq. rewrite He in Hk.
      by apply elem_of_nil in Hk.
  - auto.
  - eauto.
  - eauto.
Qed.
End create_calls.

(** ** Runs *)

Section runs.
Context {V : PosixView} {Sp : PosixSpec} (Hqos : qos_ok).

Lemma ps_start_inv os : inv (start os).
Proof using.
  split; cbn; intros; first [done | by match goal with H : _ ∈ [] |- _ => apply elem_of_nil in H end].
Qed.

Lemma ps_step_inv s s' : inv s -> step s s' -> one_channel s' -> inv s'.
Proof using Hqos Sp.
  intros Hinv Hs Hone. destruct Hs.
  - destruct (create_publisher_ok Hqos _ _ _ _ _ _ _ _ Hinv) as (r & w1 & He & Hi).
    rewrite He in H. by simplify_eq.
  - destruct (create_publisher_ok Hqos _ _ _ _ _ _ _ _ Hinv) as (r & w1 & He & Hi).
    rewrite He in H. by simplify_eq.
  - by apply (create_subscriber_ok Hqos _ _ _ _ _ _ _ _ Hinv s w').
  - destruct (loan_ok _ _ _ _ _ _ _ _ Hinv p H) as (r & w1 & He & Hi). rewrite He in H0.
    by simplify_eq.
  - destruct (loan_ok _ _ _ _ _ _ _ _ Hinv p H) as (r & w1 & He & Hi). rewrite He in H0.
    simplify_eq. by destruct Hi as [-> _].
  - destruct (write_ok _ _ _ _ _ _ _ _ Hinv m v H) as (w1 & He & Hi). rewrite He in H0.
    by simplify_eq.
  - destruct (send_ok _ _ _ _ _ _ _ _ _ _ Hinv) as (c0 & Hc & Hi). simplify_eq.
    destruct (channels c); [done|]. destruct Hi as (v1 & w1 & Hv & He & Hi).
    rewrite He in H2. by simplify_eq.
  - destruct (send_ok _ _ _ _ _ _ _ _ _ _ Hinv) as (c0 & Hc & Hi). simplify_eq.
    rewrite H0 in Hi. destruct Hi as [He Hi]. rewrite He in H1. by simplify_eq.
  - destruct (send_ok _ _ _ _ _ _ _ _ _ _ Hinv) as (c0 & Hc & Hi).
    destruct (channels c0); [destruct Hi as [He _]|destruct Hi as (? & ? & _ & He & _)];
      rewrite He in H; by simplify_eq.
  - destruct (drop_mut_ok _ _ _ _ _ _ _ _ _ _ Hinv) as (w1 & He & Hi). rewrite He in H.
    by simplify_eq.
  - destruct (receive_ok _ _ _ _ _ _ _ _ Hinv s H) as (r & w1 & He & Hi). rewrite He in H0.
    simplify_eq. destruct Hi as (v1 & Hv & Hi). rewrite Hv in H1. by simplify_eq.
  - destruct (receive_ok _ _ _ _ _ _ _ _ Hinv s H) as (r & w1 & He & Hi). rewrite He in H0.
    simplify_eq. by destruct Hi as [-> _].
  - destruct (receive_ok _ _ _ _ _ _ _ _ Hinv s H) as (r & w1 & He & Hi). rewrite He in H0.
    by simplify_eq.
  - destruct fuel as [|fuel].
    + exfalso. unfold drop_sample in H. by destruct (deref _ _).
    + destruct (drop_sample_ok _ _ _ _ _ _ _ _ _ _ _ Hinv (S fuel) ltac:(lia)) as (w1 & He & Hi).
      rewrite He in H. by simplify_eq.
  - destruct (reclaim_ok _ _ _ _ _ _ _ _ p fuel Hinv H) as [(w1 & He & Hi)|[He _]];
      rewrite He in H0; by simplify_eq.
Qed.

(** Runs in which no publisher ever has a second subscriber. *)
Definition run1 : system -> system -> Prop := rtc (fun s s' => step s s' /\ one_channel s').

Lemma ps_run_inv os s : run1 (start os) s -> inv s.
Proof using Hqos Sp.
  intros Hr. apply (invariant_rtc (fun s s' => step s s' /\ one_channel s')
    (fun s => s = start os) inv (start os) s); [|done|done].
  split; [intros ? ->; apply ps_start_inv|]. intros x y Hi [Hs Ho]. by eapply ps_step_inv.
Qed.

(** C1: While no publisher has more than one subscriber, every allocated
    chunk of a publisher is in exactly one place: a [SampleMut] a program
    holds, the send queue, a received [Sample], the return queue, or lost by
    a send to nobody.  No two of these name the same chunk, so no chunk is
    ever handed out while in use or freed twice; their number is what
    [active_loans] counts, it never exceeds [max_loaned_samples], and the rest
    of the [buffer_size] chunks are available. *)
Theorem pubsub_conservation os s i c :
  run1 (start os) s -> publishers (world s) !! i = Some c ->
  exists queued returned,
    let used := offsets_of i (muts s) ++ queued ++
      ((fun x => r_offset x.1) <$> samples_of i (samples s)) ++ returned ++ offsets_of i (lost s) in
    match channels c with
    | [] => queued = [] /\ returned = []
    | [k] => exists ch cap, chans (world s) !! k = Some ch /\
        ZeroCopyChannel.chan_rep ch cap queued returned
    | _ => False
    end /\
    NoDup (PointerOffset.offset <$> used) /\
    DataSegment.allocated_count (segment c) = Z.of_nat (length used) /\
    active_loans c = Z.of_nat (length used) /\
    active_loans c <= max_loaned_samples (b_qos b) /\
    DataSegment.available (segment c) = buffer_size (b_qos b) - Z.of_nat (length used).
Proof using Hqos Sp.
  intros Hr%ps_run_inv Hc. destruct (i_cell _ Hr _ _ Hc) as (free & live & q & r & vs & Hok).
  exists q, r. cbn zeta.
  pose proof (ck_all_NoDup _ _ _ _ _ _ _ _ _ _ _ _ Hok) as Hnd.
  pose proof (Permutation_length (ck_perm _ _ _ _ _ _ _ _ _ _ _ _ Hok)) as Hlen.
  rewrite length_fmap in Hlen.
  destruct (DataSegment.ds_counts _ _ _ (ck_rep _ _ _ _ _ _ _ _ _ _ _ _ Hok)) as [Ha Hv].
  pose proof (DataSegment.ds_length _ _ _ (ck_rep _ _ _ _ _ _ _ _ _ _ _ _ Hok)) as Hl.
  pose proof (ck_loans _ _ _ _ _ _ _ _ _ _ _ _ Hok) as Hloans.
  split; [|split; [|split; [|split; [|split]]]].
  - pose proof (ck_chan _ _ _ _ _ _ _ _ _ _ _ _ Hok) as Hch.
    destruct (channels c) as [|k [|]]; [by destruct_and?| |done].
    destruct Hch as (ch & cap & ? & ? & _). by exists ch, cap.
  - apply NoDup_fmap_2_strong; [|done]. intros x y Hx Hy.
    by apply (ck_offset_inj _ _ _ _ _ _ _ _ _ _ _ _ Hok).
  - rewrite Ha. by rewrite Hlen.
  - rewrite Hloans. by rewrite Hlen.
  - apply (i_count _ Hr _ _ Hc).
  - rewrite Hv, <- Hlen. destruct (i_count _ Hr _ _ Hc). lia.
Qed.

(** C11: Under the same condition every call on a handle comes back without
    panic: [loan] fails only when [max_loaned_samples] chunks are out or all
    chunks are in use; [send] always succeeds (its queue cannot be full);
    dropping a [SampleMut] and writing to it succeed; [receive] never reports
    an error; dropping a [Sample] never spins, its return queue has room; and
    [reclaim] terminates once its fuel exceeds the number of returned offsets. *)
Theorem pubsub_progress os s :
  run1 (start os) s ->
  (forall p, p ∈ pubs s -> exists r w', loan zero (world s) p = Ret (r, w') /\
     match r with
     | Ok _ => True
     | Err e => exists c, publishers (world s) !! p_cell p = Some c /\
         (e = Loan (ExceedsMaxLoans (max_loaned p)) /\ max_loaned p <= active_loans c \/
          e = Loan OutOfMemory /\ active_loans c = DataSegment.chunk_count (segment c))
     end) /\
  (forall m, m ∈ muts s ->
     (forall v, exists w', write (world s) m v = Ret w') /\
     (exists w', send (world s) m = Ret (Ok tt, w')) /\
     (exists w', drop_mut (world s) m = Ret w')) /\
  (forall x, x ∈ subs s -> exists r w', receive (world s) x = Ret (Ok r, w')) /\
  (forall x v, (x, v) ∈ samples s -> exists w', drop_sample 1 (world s) x = Ret w') /\
  (forall p, p ∈ pubs s -> exists n, forall fuel, (n < fuel)%nat ->
     exists w', reclaim fuel (world s) p = Ret w').
Proof using Hqos Sp.
  intros Hi%ps_run_inv. destruct s as [w ps ss ms xs hs hr hl]. cbn.
  split; [|split; [|split; [|split]]].
  - intros p Hp. destruct (loan_ok _ _ _ _ _ _ _ _ Hi p Hp) as (r & w' & He & Hr).
    exists r, w'. split; [done|]. destruct r; [done|]. by destruct Hr.
  - intros m Hm. split; [|apply list_elem_of_split in Hm as (ms1 & ms2 & ->); split].
    + intros v. destruct (write_ok _ _ _ _ _ _ _ _ Hi m v Hm) as (w' & He & _). eauto.
    + destruct (send_ok _ _ _ _ _ _ _ _ _ _ Hi) as (c & _ & Hs).
      destruct (channels c); [destruct Hs as [He _]|destruct Hs as (? & ? & _ & He & _)]; eauto.
    + destruct (drop_mut_ok _ _ _ _ _ _ _ _ _ _ Hi) as (w' & He & _). eauto.
  - intros x Hx. destruct (receive_ok _ _ _ _ _ _ _ _ Hi x Hx) as (r & w' & He & Hr).
    destruct r as [r|e]; [|done]. eauto.
  - intros x v Hx. apply list_elem_of_split in Hx as (xs1 & xs2 & ->).
    destruct (drop_sample_ok _ _ _ _ _ _ _ _ _ _ _ Hi 1 ltac:(lia)) as (w' & He & _). eauto.
  - intros p Hp.
    destruct (i_pubs _ Hi p Hp) as [[c Hc] _]. cbn in Hc.
    destruct (i_cell _ Hi _ _ Hc) as (free & live & q & r & vs & Hok). cbn in Hok.
    exists (length r). intros fuel Hf.
    destruct (reclaim_ok _ _ _ _ _ _ _ _ p fuel Hi Hp) as [(w' & He & _)|(_ & Hx)]; [eauto|].
    destruct Hx as (c' & k & ch & Hc' & Hck & Hchk & Hle). simplify_eq.
    pose proof (ck_chan _ _ _ _ _ _ _ _ _ _ _ _ Hok) as Hch. rewrite Hck in Hch.
    destruct Hch as (ch' & cap & Hchk' & Hrep & _). simplify_eq.
    destruct (ZeroCopyChannel.chan_counts _ _ _ _ Hrep) as [_ Hcnt]. lia.
Qed.

(** C10: Delivery under the same condition: the values received from a
    publisher are, in order and without gap or repetition, the first of those
    it sent to its subscriber; when [receive] finds nothing, all of them; and
    as long as a program keeps a [Sample], it reads the value that was sent,
    whatever is loaned, written, sent or reclaimed meanwhile. *)
Theorem pubsub_delivery os s :
  run1 (start os) s ->
  (forall i c, publishers (world s) !! i = Some c ->
     exists pending, values_of i (sent s) = values_of i (received s) ++ pending) /\
  (forall x w', x ∈ subs s -> receive (world s) x = Ret (Ok None, w') ->
     forall i k, (i, k) ∈ connections x -> values_of i (received s) = values_of i (sent s)) /\
  (forall x v, (x, v) ∈ samples s -> read (world s) x = Ret v).
Proof using Hqos Sp.
  intros Hi%ps_run_inv. destruct s as [w ps ss ms xs hs hr hl]. cbn. split; [|split].
  - intros i c Hc. destruct (i_cell _ Hi _ _ Hc) as (free & live & q & r & vs & Hok).
    exists vs. by destruct (ck_values _ _ _ _ _ _ _ _ _ _ _ _ Hok).
  - intros x w' Hx He. destruct (receive_ok _ _ _ _ _ _ _ _ Hi x Hx) as (r & w1 & He' & Hr).
    rewrite He' in He. simplify_eq. by destruct Hr.
  - intros x v Hx. apply list_elem_of_split in Hx as (xs1 & xs2 & ->). by eapply read_ok.
Qed.
End runs.

(** ** Executing runs

    A command is a call on the [n]-th handle of its kind, newest first. *)
Inductive command :=
| CPublisher | CSubscriber
| CLoan (p : nat) | CWrite (m : nat) (v : T) | CSend (m : nat) | CDropMut (m : nat)
| CReceive (x : nat) | CDropSample (x : nat) | CReclaim (p : nat).

Definition exec (s : system) (o : command) : outcome system :=
  let '(Sys w ps ss ms xs hs hr hl) := s in
  match o with
  | CPublisher =>
      let! (r, w') := create_publisher macos hash size_of b w in
      Ret (Sys w' (match r with Ok p => p :: ps | Err _ => ps end) ss ms xs hs hr hl)
  | CSubscriber =>
      let '(x, w') := create_subscriber b w in Ret (Sys w' ps (x :: ss) ms xs hs hr hl)
  | CLoan n =>
      let! p := deref ps n in
      let! (r, w') := loan zero w p in
      Ret (Sys w' ps ss (match r with Ok m => m :: ms | Err _ => ms end) xs hs hr hl)
  | CWrite n v =>
      let! m := deref ms n in
      let! w' := write w m v in Ret (Sys w' ps ss ms xs hs hr hl)
  | CSend n =>
      let! m := deref ms n in
      let! c := deref (publishers w) (m_cell m) in
      let ms' := take n ms ++ drop (S n) ms in
      let! (r, w') := send w m in
      match r, channels c, memory c !! PointerOffset.offset (m_offset m) with
      | Err _, _, _ | Ok _, [], _ => Ret (Sys w' ps ss ms' xs hs hr (m :: hl))
      | Ok _, _, Some v => Ret (Sys w' ps ss ms' xs (hs ++ [(m_cell m, v)]) hr hl)
      | Ok _, _, None => Panic
      end
  | CDropMut n =>
      let! m := deref ms n in
      let! w' := drop_mut w m in
      Ret (Sys w' ps ss (take n ms ++ drop (S n) ms) xs hs hr hl)
  | CReceive n =>
      let! x := deref ss n in
      let! (r, w') := receive w x in
      match r with
      | Ok (Some y) =>
          let! v := read w' y in
          Ret (Sys w' ps ss ms ((y, v) :: xs) hs (hr ++ [(r_cell y, v)]) hl)
      | _ => Ret (Sys w' ps ss ms xs hs hr hl)
      end
  | CDropSample n =>
      let! y := deref xs n in
      let! w' := drop_sample 1 w y.1 in
      Ret (Sys w' ps ss ms (take n xs ++ drop (S n) xs) hs hr hl)
  | CReclaim n =>
      let! p := deref ps n in
      let! w' := reclaim 100 w p in Ret (Sys w' ps ss ms xs hs hr hl)
  end.

Fixpoint exec_all (s : system) (l : list command) : outcome system :=
  match l with
  | [] => Ret s
  | o :: l => let! s := exec s o in exec_all s l
  end.

Lemma deref_Ret {A} (l : list A) n a :
  deref l n = Ret a -> l !! n = Some a.
Proof using. unfold deref. destruct (l !! n); congruence. Qed.

Lemma obind_Ret {A B} (m : outcome A) (k : A -> outcome B) v :
  obind m k = Ret v -> exists a, m = Ret a /\ k a = Ret v.
Proof using. destruct m; cbn; [eauto|done|done]. Qed.

(** Every executed command is a step. *)
Lemma exec_step s o s' : exec s o = Ret s' -> step s s'.
Proof using.
  destruct s as [w ps ss ms xs hs hr hl]. destruct o as [| |n|n v|n|n|n|n|n]; cbn.
  - intros ([r w'] & He & [= <-])%obind_Ret. destruct r; [by apply st_publisher|].
    by eapply st_publisher_err.
  - destruct (create_subscriber b w) as [x w'] eqn:E. intros [= <-]. by apply st_subscriber.
  - intros (p & Hp%deref_Ret & ([r w'] & He & [= <-])%obind_Ret)%obind_Ret.
    apply list_elem_of_lookup_2 in Hp. destruct r; [by eapply st_loan|by eapply st_loan_err].
  - intros (m & Hm%deref_Ret & (w' & He & [= <-])%obind_Ret)%obind_Ret.
    apply list_elem_of_lookup_2 in Hm. by eapply st_write.
  - intros (m & Hm%deref_Ret & (c & Hc%deref_Ret & ([r w'] & He & Hr)%obind_Ret)%obind_Ret)%obind_Ret.
    rewrite <- (take_drop_middle ms n m Hm) at 1. destruct r as [[]|e].
    + destruct (channels c) eqn:Hch.
      * injection Hr as <-. by eapply st_send_nobody.
      * destruct (memory c !! _) eqn:Hv; [|done]. injection Hr as <-.
        eapply st_send; [done|congruence|done|done].
    + injection Hr as <-. by eapply st_send_err.
  - intros (m & Hm%deref_Ret & (w' & He & [= <-])%obind_Ret)%obind_Ret.
    rewrite <- (take_drop_middle ms n m Hm) at 1. by apply st_drop_mut.
  - intros (x & Hx%deref_Ret & ([r w'] & He & Hr)%obind_Ret)%obind_Ret.
    apply list_elem_of_lookup_2 in Hx. destruct r as [[y|]|e].
    + apply obind_Ret in Hr as (v & Hv & [= <-]). by eapply st_receive.
    + injection Hr as <-. by eapply st_receive_none.
    + injection Hr as <-. by eapply st_receive_err.
  - intros ([y v] & Hy%deref_Ret & (w' & He & [= <-])%obind_Ret)%obind_Ret.
    rewrite <- (take_drop_middle xs n (y, v) Hy) at 1. by eapply st_drop_sample.
  - intros (p & Hp%deref_Ret & (w' & He & [= <-])%obind_Ret)%obind_Ret.
    apply list_elem_of_lookup_2 in Hp. by eapply st_reclaim.
Qed.

Definition single (s : system) : bool :=
  forallb (fun c => (length (channels c) <=? 1)%nat) (publishers (world s)).

Lemma single_one_channel s : single s = true -> one_channel s.
Proof using.
  intros Hs i c Hc. unfold single in Hs. rewrite forallb_forall in Hs.
  apply Nat.leb_le, Hs. rewrite <- list_elem_of_In. by eapply list_elem_of_lookup_2.
Qed.

Fixpoint exec_single (s : system) (l : list command) : outcome system :=
  match l with
  | [] => Ret s
  | o :: l => let! s := exec s o in if single s then exec_single s l else Panic
  end.

Lemma exec_single_run s l s' : exec_single s l = Ret s' -> run1 s s'.
Proof using.
  revert s. induction l as [|o l IH]; intros s; cbn.
  - intros [= <-]. apply rtc_refl.
  - intros (s1 & He & Hs)%obind_Ret. destruct (single s1) eqn:E1; [|done].
    eapply rtc_l; [|by apply IH]. split; [by eapply exec_step|by apply single_one_channel].
Qed.
End safe.

(** ** Runs of a concrete service: payload [Z], four chunks, at most two out *)
Section example.
Import ToyOs.

Definition example_qos : PubSubQos := {|
  history_size := 1; max_publishers := 8; max_subscribers := 16;
  subscriber_overflow := Overwrite; max_loaned_samples := 2; buffer_size := 4 |}.
Definition example_builder : PortBuilder := mk_builder "s" 1 example_qos.
Definition example_start : system := start (P := toy_posix) (T := Z) (empty_os 100000).
Definition example_exec := exec_all (P := toy_posix) 0 false no_hash 8 example_builder example_start.
Definition example_exec1 := exec_single (P := toy_posix) 0 false no_hash 8 example_builder example_start.

Lemma ps_example_qos_ok : qos_ok 8 example_builder.
Proof. vm_compute. repeat split; congruence. Qed.

(** Two values are published, one is received and kept, one is in flight. *)
Definition two_values : list (command (T := Z)) :=
  [CPublisher; CSubscriber; CLoan 0; CWrite 0 11; CSend 0; CLoan 0; CWrite 0 22; CSend 0; CReceive 0].

Lemma two_values_run :
  match example_exec1 two_values with
  | Ret s => (sent s, received s, length (samples s), length (pubs s))
  | _ => ([], [], 0%nat, 0%nat)
  end = ([(0%nat, 11); (0%nat, 22)], [(0%nat, 11)], 1%nat, 1%nat).
Proof. vm_compute. reflexivity. Qed.

Lemma pubsub_conservation_witness :
  exists s c, example_exec1 two_values = Ret s /\ publishers (world s) !! 0%nat = Some c /\
    active_loans c <= 2.
Proof.
  pose proof two_values_run as Hv.
  destruct (example_exec1 two_values) as [s| |] eqn:E; [|discriminate Hv..].
  assert (Hc : match example_exec1 two_values with
               | Ret s => length (publishers (world s)) | _ => 0%nat end = 1%nat)
    by (vm_compute; reflexivity).
  rewrite E in Hc.
  destruct (publishers (world s)) as [|c [|]] eqn:Ep; [discriminate Hc| |discriminate Hc].
  exists s, c. split; [reflexivity|]. split; [by rewrite Ep|].
  assert (Hl : publishers (world s) !! 0%nat = Some c) by (by rewrite Ep).
  destruct (pubsub_conservation (P := toy_posix) 0 false no_hash 8 example_builder ps_example_qos_ok
    (empty_os 100000) s 0 c (exec_single_run _ _ _ _ _ _ _ _ E) Hl)
    as (q & r & _ & _ & _ & _ & Hmax & _).
  exact Hmax.
Defined.

Lemma pubsub_progress_witness :
  exists s p, example_exec1 two_values = Ret s /\ p ∈ pubs s /\
    exists r w', loan 0 (world s) p = Ret (r, w').
Proof.
  pose proof two_values_run as Hv.
  destruct (example_exec1 two_values) as [s| |] eqn:E; [|discriminate Hv..].
  destruct (pubs s) as [|p ps] eqn:Ep; [discriminate Hv|].
  exists s, p. split; [reflexivity|]. split; [rewrite Ep; left|].
  destruct (pubsub_progress (P := toy_posix) 0 false no_hash 8 example_builder ps_example_qos_ok
    (empty_os 100000) s (exec_single_run _ _ _ _ _ _ _ _ E)) as (Hloan & _).
  destruct (Hloan p) as (r & w' & Hl & _); [rewrite Ep; left|]. exists r, w'. exact Hl.
Defined.

Lemma pubsub_delivery_witness :
  exists s x v, example_exec1 two_values = Ret s /\ (x, v) ∈ samples s /\ read (world s) x = Ret v.
Proof.
  pose proof two_values_run as Hv.
  destruct (example_exec1 two_values) as [s| |] eqn:E; [|discriminate Hv..].
  destruct (samples s) as [|[x v] xs] eqn:Ex; [discriminate Hv|].
  exists s, x, v. split; [reflexivity|]. split; [rewrite Ex; left|].
  destruct (pubsub_delivery (P := toy_posix) 0 false no_hash 8 example_builder ps_example_qos_ok
    (empty_os 100000) s (exec_single_run _ _ _ _ _ _ _ _ E)) as (_ & _ & Hread).
  apply Hread. rewrite Ex. left.
Defined.

(** What two runs end with: the [SampleMut]s that are out; and, for the
    second, the loan counters and what the next [loan] answers. *)
Definition run_muts (l : list (command (T := Z))) : option (list SampleMut) :=
  match example_exec l with Ret s => Some (muts s) | _ => None end.

Definition run_next_loan (l : list (command (T := Z))) : option (list Z * result SampleMut PortError) :=
  match example_exec l with
  | Ret s =>
      match pubs s with
      | p :: _ =>
          match loan 0 (world s) p with
          | Ret (r, _) => Some (active_loans <$> publishers (world s), r)
          | _ => None
          end
      | [] => None
      end
  | _ => None
  end.

(** With two subscribers [reclaim] frees a chunk once per channel: two
    [SampleMut]s that are out at the same time then share one chunk.  And when
    no other chunk is out, the counter of loans wraps below zero, after which
    [loan] fails for ever although no chunk is in use. *)
Theorem pubsub_two_subscribers :
  (exists m m0, run_muts [CPublisher; CSubscriber; CSubscriber; CLoan 0; CLoan 0; CSend 0;
      CReceive 0; CReceive 1; CDropSample 0; CDropSample 0; CReclaim 0; CLoan 0; CLoan 0]
    = Some [m; m; m0]) /\
  run_next_loan [CPublisher; CSubscriber; CSubscriber; CLoan 0; CSend 0;
      CReceive 0; CReceive 1; CDropSample 0; CDropSample 0; CReclaim 0]
    = Some ([2 ^ 64 - 1], Err (Loan (ExceedsMaxLoans 2))).
Proof.
  split.
  - exists (mk_sample_mut 0 (PointerOffset.from_raw 72)), (mk_sample_mut 0 (PointerOffset.from_raw 64)).
    vm_compute. reflexivity.
  - vm_compute. reflexivity.
Qed.

(** Without a subscriber every send loses its chunk for good: after
    [max_loaned_samples] of them the publisher can loan nothing, and
    [reclaim] does not help. *)
Example pubsub_nobody_listens :
  run_next_loan [CPublisher; CLoan 0; CSend 0; CLoan 0; CSend 0; CReclaim 0]
  = Some ([2], Err (Loan (ExceedsMaxLoans 2))).
Proof. vm_compute. reflexivity. Qed.
End example.
End PubSubSafe.
