(* ===== verification/PubSubConc.v ===== *)
(** * Publish-subscribe under concurrency
    (crates/entangle/src/port/publisher.rs, port/subscriber.rs, sample.rs, with
    channel.rs and spsc_queue.rs under them)

    The thread that owns a [Publisher] and the thread that owns a [Subscriber],
    with every call cut at its accesses to the queues and the state of a
    channel.  What only one thread touches (the allocator of the segment, the
    loan counter, the channel list) changes in one step.  [muts] and [samples]
    are what the threads hold; [sent] and [received] record values for the
    theorems, in the order in which the send queue takes and yields them. *)
From S2P Require Import Prelude Contracts FreeList IndexSet Spsc SpscConc PoolAlloc Channel Shm.
From S2P Require Import DataSegment Config Service PubSub PubSubSafe.
#[local] Open Scope Z_scope.
#[local] Open Scope rust_scope.

Module PubSubThreads.
Import PointerOffset PubSubPorts SpscThreads.

(** What the last call of a thread returned. *)
Inductive pub_result :=
| PubNew
| Loaned (r : result unit PortError)
| Written
| Sent (r : result unit PortError)
| DroppedMut
| Reclaimed.

Inductive sub_result :=
| SubNew
| Received (r : result (option Sample) PortError)
| DroppedSample.

(** The publisher's thread: between calls; in [send], before the state of
    channel [k] is read and inside [push], with the channels still to serve;
    in [reclaim], inside [pop] and before the chunk is given back. *)
Inductive pub_pc :=
| PubIdle (last : pub_result)
| PubState (off : PointerOffset) (k : nat) (rest : list nat)
| PubPush (off : PointerOffset) (k : nat) (rest : list nat) (p : push_pc)
| PubReclaim (k : nat) (rest : list nat) (p : pop_pc)
| PubFree (off : PointerOffset) (k : nat) (rest : list nat)
| PubPanic.

(** The subscriber's thread: in [receive], before the state is read, between
    the two loads of [is_empty], and inside [pop]; dropping a sample. *)
Inductive sub_pc :=
| SubIdle (last : sub_result)
| SubState (conn : nat * nat) (rest : list (nat * nat))
| SubEmptyRead (conn : nat * nat) (rest : list (nat * nat))
| SubEmptyWrite (conn : nat * nat) (rest : list (nat * nat)) (read : Z)
| SubPop (conn : nat * nat) (rest : list (nat * nat)) (p : pop_pc)
| SubReturn (x : Sample) (p : push_pc)
| SubPanic.

Inductive action (T : Type) :=
| CallLoan
| CallWrite (i : nat) (v : T)
| CallSend (i : nat)
| CallDropMut (i : nat)
| CallReclaim
| RunPub
| CallReceive
| CallDrop (i : nat)
| RunSub.
Arguments CallLoan {T}.
Arguments CallWrite {T} i v.
Arguments CallSend {T} i.
Arguments CallDropMut {T} i.
Arguments CallReclaim {T}.
Arguments RunPub {T}.
Arguments CallReceive {T}.
Arguments CallDrop {T} i.
Arguments RunSub {T}.

Section machine.
Context {P : Posix} {T : Type} (zero : T).
Context (pub : Publisher) (sub : Subscriber).
#[local] Abbreviation World := (World T).

Record config := mkC {
  world : World;
  muts : list SampleMut;
  samples : list (Sample * T);
  publisher : pub_pc;
  subscriber : sub_pc;
  sent : list T;
  received : list T;
}.

Definition set_pub (c : config) (w : World) (p : pub_pc) : config :=
  mkC w (muts c) (samples c) p (subscriber c) (sent c) (received c).
Definition set_sub (c : config) (w : World) (s : sub_pc) : config :=
  mkC w (muts c) (samples c) (publisher c) s (sent c) (received c).
Definition set_muts (c : config) (l : list SampleMut) : config :=
  mkC (world c) l (samples c) (publisher c) (subscriber c) (sent c) (received c).
Definition set_samples (c : config) (l : list (Sample * T)) : config :=
  mkC (world c) (muts c) l (publisher c) (subscriber c) (sent c) (received c).
Definition log_sent (c : config) (v : T) : config :=
  mkC (world c) (muts c) (samples c) (publisher c) (subscriber c) (sent c ++ [v]) (received c).
Definition log_received (c : config) (v : T) : config :=
  mkC (world c) (muts c) (samples c) (publisher c) (subscriber c) (sent c) (received c ++ [v]).

(** The payload behind an offset of the publisher's segment. *)
Definition payload_at (w : World) (cell : nat) (off : PointerOffset) : option T :=
  match publishers w !! cell with
  | Some cl => memory cl !! PointerOffset.offset off
  | None => None
  end.

(** What [Publisher::active_loans] and [return_count] of channel [k] read. *)
Definition loan_count (w : World) (cell : nat) : Z :=
  match publishers w !! cell with Some cl => active_loans cl | None => 0 end.
Definition returned_count (w : World) (k : nat) : Z :=
  match chans w !! k with Some ch => ZeroCopyChannel.return_count ch | None => 0 end.

(** The [for] loops over the channels and over the connections. *)
Definition next_send (off : PointerOffset) (l : list nat) : pub_pc :=
  match l with [] => PubIdle (Sent (Ok tt)) | k :: rest => PubState off k rest end.
Definition next_reclaim (l : list nat) : pub_pc :=
  match l with [] => PubIdle Reclaimed | k :: rest => PubReclaim k rest PopStart end.
Definition next_receive (l : list (nat * nat)) : sub_pc :=
  match l with [] => SubIdle (Received (Ok None)) | conn :: rest => SubState conn rest end.

(** One step inside [send] or [reclaim]. *)
Definition run_pub (c : config) : option config :=
  let w := world c in
  match publisher c with
  | PubIdle _ | PubPanic => None
  | PubState off k rest =>
      match chans w !! k with
      | None => Some (set_pub c w PubPanic)
      | Some ch =>
          if decide (ZeroCopyChannel.state ch = Disconnected)
          then Some (set_pub c w (PubIdle (Sent (Err (Config.Send SendConnectionBroken)))))
          else Some (set_pub c w (PubPush off k rest (PushStart (raw off))))
      end
  | PubPush off k rest p =>
      match chans w !! k with
      | None => Some (set_pub c w PubPanic)
      | Some ch =>
          match step_push (ZeroCopyChannel.send_queue ch) p with
          | None => Some (set_pub c w PubPanic)
          | Some (q, p, _) =>
              let w := with_chan w k (ZeroCopyChannel.with_send ch q) in
              match p with
              | PushIdle (Some true) =>
                  let c := set_pub c w (next_send off rest) in
                  Some match payload_at w (p_cell pub) off with
                       | Some v => log_sent c v
                       | None => c
                       end
              | PushIdle _ => Some (set_pub c w (PubIdle (Sent (Err (Config.Send QueueFull)))))
              | PushPanic => Some (set_pub c w PubPanic)
              | p => Some (set_pub c w (PubPush off k rest p))
              end
          end
      end
  | PubReclaim k rest p =>
      match chans w !! k with
      | None => Some (set_pub c w PubPanic)
      | Some ch =>
          match step_pop (ZeroCopyChannel.return_queue ch) p with
          | None => Some (set_pub c w PubPanic)
          | Some (q, p, _) =>
              let w := with_chan w k (ZeroCopyChannel.with_return ch q) in
              match p with
              | PopIdle (Some (Some v)) => Some (set_pub c w (PubFree (from_raw v) k rest))
              | PopIdle _ => Some (set_pub c w (next_reclaim rest))
              | PopPanic => Some (set_pub c w PubPanic)
              | p => Some (set_pub c w (PubReclaim k rest p))
              end
          end
      end
  | PubFree off k rest =>
      match publishers w !! p_cell pub with
      | None => Some (set_pub c w PubPanic)
      | Some cl =>
          match DataSegment.deallocate (segment cl) off with
          | Ret seg =>
              let cl := with_segment cl seg in
              let cl := with_loans cl (wrapping_sub 64 (active_loans cl) 1) in
              Some (set_pub c (with_cell w (p_cell pub) cl) (PubReclaim k rest PopStart))
          | _ => Some (set_pub c w PubPanic)
          end
      end
  end.

(** One step inside [receive] or the drop of a sample. *)
Definition run_sub (c : config) : option config :=
  let w := world c in
  match subscriber c with
  | SubIdle _ | SubPanic => None
  | SubState (cell, k) rest =>
      match chans w !! k with
      | None => Some (set_sub c w SubPanic)
      | Some ch =>
          if decide (ZeroCopyChannel.state ch = Disconnected)
          then Some (set_sub c w (SubEmptyRead (cell, k) rest))
          else Some (set_sub c w (SubPop (cell, k) rest PopStart))
      end
  | SubEmptyRead (cell, k) rest =>
      match chans w !! k with
      | None => Some (set_sub c w SubPanic)
      | Some ch =>
          let read := SpscQueue.read_pos (ZeroCopyChannel.send_queue ch) in
          Some (set_sub c w (SubEmptyWrite (cell, k) rest read))
      end
  | SubEmptyWrite (cell, k) rest read =>
      match chans w !! k with
      | None => Some (set_sub c w SubPanic)
      | Some ch =>
          if read =? SpscQueue.write_pos (ZeroCopyChannel.send_queue ch)
          then Some (set_sub c w (SubIdle (Received (Err (from RecvConnectionBroken)))))
          else Some (set_sub c w (SubPop (cell, k) rest PopStart))
      end
  | SubPop (cell, k) rest p =>
      match chans w !! k with
      | None => Some (set_sub c w SubPanic)
      | Some ch =>
          match step_pop (ZeroCopyChannel.send_queue ch) p with
          | None => Some (set_sub c w SubPanic)
          | Some (q, p, _) =>
              let w := with_chan w k (ZeroCopyChannel.with_send ch q) in
              match p with
              | PopIdle (Some (Some raw)) =>
                  let x := mk_sample cell k (from_raw raw) in
                  match payload_at w cell (r_offset x) with
                  | Some v =>
                      let c := set_sub c w (SubIdle (Received (Ok (Some x)))) in
                      Some (log_received (set_samples c ((x, v) :: samples c)) v)
                  | None => Some (set_sub c w SubPanic)
                  end
              | PopIdle _ => Some (set_sub c w (next_receive rest))
              | PopPanic => Some (set_sub c w SubPanic)
              | p => Some (set_sub c w (SubPop (cell, k) rest p))
              end
          end
      end
  | SubReturn x p =>
      match chans w !! r_chan x with
      | None => Some (set_sub c w SubPanic)
      | Some ch =>
          match step_push (ZeroCopyChannel.return_queue ch) p with
          | None => Some (set_sub c w SubPanic)
          | Some (q, p, _) =>
              let w := with_chan w (r_chan x) (ZeroCopyChannel.with_return ch q) in
              match p with
              | PushIdle (Some true) => Some (set_sub c w (SubIdle DroppedSample))
              | PushIdle _ => Some (set_sub c w (SubReturn x (PushStart (raw (r_offset x)))))
              | PushPanic => Some (set_sub c w SubPanic)
              | p => Some (set_sub c w (SubReturn x p))
              end
          end
      end
  end.

(** Calls start when their thread is idle; [loan], writes and the drop of a
    [SampleMut] touch nothing that the other thread does, but the payloads. *)
Definition exec (a : action T) (c : config) : option config :=
  let w := world c in
  match a, publisher c, subscriber c with
  | CallLoan, PubIdle _, _ =>
      match loan zero w pub with
      | Ret (Ok m, w) => Some (set_muts (set_pub c w (PubIdle (Loaned (Ok tt)))) (m :: muts c))
      | Ret (Err e, w) => Some (set_pub c w (PubIdle (Loaned (Err e))))
      | _ => Some (set_pub c w PubPanic)
      end
  | CallWrite i v, PubIdle _, _ =>
      match muts c !! i with
      | None => None
      | Some m =>
          match write w m v with
          | Ret w => Some (set_pub c w (PubIdle Written))
          | _ => Some (set_pub c w PubPanic)
          end
      end
  | CallSend i, PubIdle _, _ =>
      match muts c !! i with
      | None => None
      | Some m =>
          let c := set_muts c (delete i (muts c)) in
          match publishers w !! m_cell m with
          | Some cl => Some (set_pub c w (next_send (m_offset m) (channels cl)))
          | None => Some (set_pub c w PubPanic)
          end
      end
  | CallDropMut i, PubIdle _, _ =>
      match muts c !! i with
      | None => None
      | Some m =>
          let c := set_muts c (delete i (muts c)) in
          match drop_mut w m with
          | Ret w => Some (set_pub c w (PubIdle DroppedMut))
          | _ => Some (set_pub c w PubPanic)
          end
      end
  | CallReclaim, PubIdle _, _ =>
      match publishers w !! p_cell pub with
      | Some cl => Some (set_pub c w (next_reclaim (channels cl)))
      | None => Some (set_pub c w PubPanic)
      end
  | RunPub, _, _ => run_pub c
  | CallReceive, _, SubIdle _ => Some (set_sub c w (next_receive (connections sub)))
  | CallDrop i, _, SubIdle _ =>
      match samples c !! i with
      | None => None
      | Some (x, _) =>
          Some (set_sub (set_samples c (delete i (samples c))) w
                  (SubReturn x (PushStart (raw (r_offset x)))))
      end
  | RunSub, _, _ => run_sub c
  | _, _, _ => None
  end.

Fixpoint run (sched : list (action T)) (c : config) : option config :=
  match sched with
  | [] => Some c
  | a :: sched => match exec a c with Some c => run sched c | None => None end
  end.

Definition init (w : World) : config := mkC w [] [] (PubIdle PubNew) (SubIdle SubNew) [] [].

(** ** The invariant of one connection

    [k] is the channel between the two, [cap] the capacity of its queues.  A
    chunk is in the hands of a [SampleMut], of a call, of a queue, or of a
    sample; the calls under way agree with the queues they work on. *)
Section invariant.
Context (k : nat) (cap : Z).

Definition sending (p : pub_pc) : list PointerOffset :=
  match p with PubState off _ _ | PubPush off _ _ _ => [off] | _ => [] end.
Definition freeing (p : pub_pc) : list PointerOffset :=
  match p with PubFree off _ _ => [off] | _ => [] end.
Definition returning (s : sub_pc) : list PointerOffset :=
  match s with SubReturn x _ => [r_offset x] | _ => [] end.

(** The call on each end of each queue. *)
Definition send_push (p : pub_pc) : push_pc :=
  match p with PubPush _ _ _ p => p | _ => PushIdle None end.
Definition return_pop (p : pub_pc) : pop_pc :=
  match p with PubReclaim _ _ p => p | _ => PopIdle None end.
Definition send_pop (s : sub_pc) : pop_pc :=
  match s with SubPop _ _ p => p | _ => PopIdle None end.
Definition return_push (s : sub_pc) : push_pc :=
  match s with SubReturn _ p => p | _ => PushIdle None end.

Definition pub_ok (p : pub_pc) : Prop :=
  match p with
  | PubIdle last => forall e, last <> Sent (Err e)
  | PubState _ j rest | PubFree _ j rest => j = k /\ rest = []
  | PubPush off j rest p => j = k /\ rest = [] /\ push_val p = Some (raw off)
  | PubReclaim j rest p => j = k /\ rest = [] /\ pop_busy p = true
  | PubPanic => False
  end.

Definition sub_ok (s : sub_pc) : Prop :=
  match s with
  | SubIdle last => forall e, last <> Received (Err e)
  | SubState conn rest => conn = (p_cell pub, k) /\ rest = []
  | SubPop conn rest p => conn = (p_cell pub, k) /\ rest = [] /\ pop_busy p = true
  | SubReturn x p => r_chan x = k /\ push_val p = Some (raw (r_offset x))
  | SubEmptyRead _ _ | SubEmptyWrite _ _ _ | SubPanic => False
  end.

Record inv_at (c : config) (cl : PublisherCell T) (ch : ZeroCopyChannel.ZeroCopyChannel)
    (n1 n2 : Z) (free live : list Z) (q r : list PointerOffset) (vs : list T) : Prop := {
  a_cell : publishers (world c) !! p_cell pub = Some cl;
  a_channels : channels cl = [k];
  a_chan : chans (world c) !! k = Some ch;
  a_state : ZeroCopyChannel.state ch = Connected;
  a_ok : PubSubSafe.cell_ok (chans (world c)) cl
           ((m_offset <$> muts c) ++ sending (publisher c))
           (freeing (publisher c) ++ returning (subscriber c))
           (samples c) (sent c) (received c) free live q r vs;
  a_count : DataSegment.chunk_count (segment cl) <= cap;
  a_send_cap : SpscQueue.capacity (ZeroCopyChannel.send_queue ch) = cap;
  a_return_cap : SpscQueue.capacity (ZeroCopyChannel.return_queue ch) = cap;
  a_send : SpscQueue.rep (ZeroCopyChannel.send_queue ch) n1 (raw <$> q);
  a_return : SpscQueue.rep (ZeroCopyChannel.return_queue ch) n2 (raw <$> r);
  a_send_push : push_ok (ZeroCopyChannel.send_queue ch) n1 (raw <$> q) (send_push (publisher c));
  a_send_pop : pop_ok (ZeroCopyChannel.send_queue ch) (raw <$> q) (send_pop (subscriber c));
  a_return_push :
    push_ok (ZeroCopyChannel.return_queue ch) n2 (raw <$> r) (return_push (subscriber c));
  a_return_pop : pop_ok (ZeroCopyChannel.return_queue ch) (raw <$> r) (return_pop (publisher c));
  a_muts m : m ∈ muts c -> m_cell m = p_cell pub;
  a_samples x v : (x, v) ∈ samples c -> r_cell x = p_cell pub;
  a_pub : pub_ok (publisher c);
  a_sub : sub_ok (subscriber c);
}.

Definition inv (c : config) : Prop :=
  exists cl ch n1 n2 free live q r vs, inv_at c cl ch n1 n2 free live q r vs.

Context (Hconn : connections sub = [(p_cell pub, k)]).

(** A step of the publisher's thread that leaves the channel alone. *)
Lemma pt_inv_local c cl ch n1 n2 free live q r vs cl' ms' p' free' live' :
  inv_at c cl ch n1 n2 free live q r vs ->
  channels cl' = channels cl ->
  DataSegment.chunk_count (segment cl') = DataSegment.chunk_count (segment cl) ->
  PubSubSafe.cell_ok (chans (world c)) cl' ((m_offset <$> ms') ++ sending p')
    (freeing p' ++ returning (subscriber c)) (samples c) (sent c) (received c)
    free' live' q r vs ->
  (forall m, m ∈ ms' -> m_cell m = p_cell pub) -> pub_ok p' ->
  send_push p' = PushIdle None ->
  pop_ok (ZeroCopyChannel.return_queue ch) (raw <$> r) (return_pop p') ->
  inv (mkC (with_cell (world c) (p_cell pub) cl') ms' (samples c) p' (subscriber c)
         (sent c) (received c)).
Proof using Type.
  intros [] Hc Hcc Hok Hms Hp Hs Hr. exists cl', ch, n1, n2, free', live', q, r, vs.
  split; cbn; try done.
  - apply list_lookup_insert_eq. by eapply lookup_lt_Some.
  - by rewrite Hc.
  - by rewrite Hcc.
  - by rewrite Hs.
Qed.

Lemma pt_inv_same c cl ch n1 n2 free live q r vs p' :
  inv_at c cl ch n1 n2 free live q r vs ->
  sending p' = sending (publisher c) -> freeing p' = freeing (publisher c) -> pub_ok p' ->
  send_push p' = PushIdle None \/ (exists v, send_push p' = PushStart v) ->
  return_pop p' = PopIdle None \/ return_pop p' = PopStart ->
  inv (set_pub c (world c) p').
Proof using Type.
  intros [] Hs Hf Hp Hq Hr. exists cl, ch, n1, n2, free, live, q, r, vs.
  split; cbn; rewrite ?Hs, ?Hf; try done.
  - by destruct Hq as [->|[v ->]].
  - by destruct Hr as [->| ->].
Qed.

(** [loan]: a free chunk comes into the hands of a [SampleMut], unless too many
    are out or none is free. *)
Lemma pt_loan_ok c cl ch n1 n2 free live q r vs last :
  inv_at c cl ch n1 n2 free live q r vs -> publisher c = PubIdle last ->
  exists w c', exec CallLoan c = Some c' /\ inv c' /\ chans w = chans (world c) /\
  ((exists m, c' = set_muts (set_pub c w (PubIdle (Loaned (Ok tt)))) (m :: muts c)) \/
   (exists e, c' = set_pub c w (PubIdle (Loaned (Err e))) /\
      loan_count w (p_cell pub) = active_loans cl /\
      (max_loaned pub <= active_loans cl \/ free = []))).
Proof using Type.
  intros Hi Hp. cbn. rewrite Hp.
  pose proof (a_ok _ _ _ _ _ _ _ _ _ _ Hi) as Hok. rewrite Hp in Hok. cbn in Hok.
  rewrite app_nil_r in Hok. pose proof (PubSubSafe.ck_rep _ _ _ _ _ _ _ _ _ _ _ _ Hok) as Hrep.
  pose proof (a_cell _ _ _ _ _ _ _ _ _ _ Hi) as Hcell.
  unfold loan, deref. rewrite Hcell. cbn. rewrite Z.geb_leb. destruct (_ <=? active_loans cl) eqn:Hmax; zbool.
  { cbn. do 2 eexists. split; [done|]. split; [|split; [done|right; eexists; split; [done|]];
      split; [unfold loan_count; by rewrite Hcell|by left]].
    eapply pt_inv_same; [done|rewrite ?Hp..]; cbn; try done; by left. }
  destruct free as [|i free].
  - rewrite (DataSegment.ds_allocate_none _ _ Hrep). cbn.
    assert (Hcount : loan_count (with_cell (world c) (p_cell pub) (with_segment cl (segment cl)))
                       (p_cell pub) = active_loans cl).
    { unfold loan_count. cbn. by rewrite list_lookup_insert_eq by (by eapply lookup_lt_Some). }
    eexists (with_cell (world c) (p_cell pub) (with_segment cl (segment cl))), _.
    split; [done|]. split; [|split; [done|right]].
    2: { eexists. split; [done|]. split; [exact Hcount|by right]. }
    apply (pt_inv_local _ _ _ _ _ _ _ _ _ _ _ (muts c) _ [] live Hi); cbn; rewrite ?app_nil_r; try done.
    + destruct Hok. by split.
    + apply Hi.
  - destruct (DataSegment.ds_allocate_some _ _ _ _ Hrep) as (seg & Ha & Hrep' & Hch & Hseg).
    rewrite Ha. cbn. eexists _, _. split; [done|]. split; [|split; [|left; by eauto]; done].
    assert (Hcc : DataSegment.chunk_count seg = DataSegment.chunk_count (segment cl))
      by (by rewrite Hseg).
    eapply (pt_inv_local _ _ _ _ _ _ _ _ _ _ _ (_ :: muts c) _ free (i :: live) Hi);
      cbn; rewrite ?app_nil_r; try done.
    + by apply (PubSubSafe.ck_loan zero _ _ _ _ _ _ _ _ _ _ _ _ Hok).
    + intros m [->|Hm]%elem_of_cons; [done|]. by apply (a_muts _ _ _ _ _ _ _ _ _ _ Hi).
Qed.

(** A [SampleMut] in the hands of the program, and the others. *)
Lemma delete_muts c cl ch n1 n2 free live q r vs i m :
  inv_at c cl ch n1 n2 free live q r vs -> muts c !! i = Some m ->
  m_cell m = p_cell pub /\ m_offset <$> muts c ≡ₚ m_offset m :: (m_offset <$> delete i (muts c)) /\
  forall m', m' ∈ delete i (muts c) -> m_cell m' = p_cell pub.
Proof using Type.
  intros Hi Hm. pose proof (delete_Permutation _ _ _ Hm) as Hperm. split; [|split].
  - apply (a_muts _ _ _ _ _ _ _ _ _ _ Hi). by eapply list_elem_of_lookup_2.
  - by rewrite Hperm at 1.
  - intros m' Hm'. apply (a_muts _ _ _ _ _ _ _ _ _ _ Hi). rewrite Hperm. by right.
Qed.

(** Writes go to a chunk that no queued or received sample is. *)
Lemma pt_write_ok c cl ch n1 n2 free live q r vs last i m v :
  inv_at c cl ch n1 n2 free live q r vs -> publisher c = PubIdle last -> muts c !! i = Some m ->
  exists w, let c' := set_pub c w (PubIdle Written) in
  exec (CallWrite i v) c = Some c' /\ inv c' /\ chans w = chans (world c) /\
  payload_at w (p_cell pub) (m_offset m) = Some v.
Proof using Type.
  intros Hi Hp Hm. cbn. rewrite Hp, Hm.
  pose proof (a_ok _ _ _ _ _ _ _ _ _ _ Hi) as Hok. rewrite Hp in Hok. cbn in Hok.
  rewrite app_nil_r in Hok.
  destruct (delete_muts _ _ _ _ _ _ _ _ _ _ _ _ Hi Hm) as (Hmc & Hperm & _).
  unfold write, deref. rewrite Hmc, (a_cell _ _ _ _ _ _ _ _ _ _ Hi). cbn.
  eexists. split; [done|]. split; [|split; [done|]].
  - eapply (pt_inv_local _ _ _ _ _ _ _ _ _ _ _ (muts c) _ free live Hi);
      cbn; rewrite ?app_nil_r; try done; [|apply Hi].
    exact (PubSubSafe.ck_write _ _ _ _ _ _ _ _ _ _ _ _ Hok _ _ v Hperm).
  - unfold payload_at. cbn. rewrite list_lookup_insert_eq
      by (eapply lookup_lt_Some, (a_cell _ _ _ _ _ _ _ _ _ _ Hi)). cbn. apply lookup_insert_eq.
Qed.

(** [send] and the drop of a [SampleMut] consume it. *)
Lemma pt_send_ok c cl ch n1 n2 free live q r vs last i m :
  inv_at c cl ch n1 n2 free live q r vs -> publisher c = PubIdle last -> muts c !! i = Some m ->
  let c' := set_pub (set_muts c (delete i (muts c))) (world c) (PubState (m_offset m) k []) in
  exec (CallSend i) c = Some c' /\ inv c'.
Proof using Type.
  intros Hi Hp Hm. cbn. rewrite Hp, Hm.
  destruct (delete_muts _ _ _ _ _ _ _ _ _ _ _ _ Hi Hm) as (Hmc & Hperm & Hms).
  pose proof Hi as []. rewrite Hmc, a_cell0, a_channels0. cbn. split; [done|].
  rewrite Hp in *. exists cl, ch, n1, n2, free, live, q, r, vs. split; cbn; try done.
  eapply PubSubSafe.ck_mo_perm; [exact a_ok0|]. cbn. rewrite app_nil_r, Hperm.
  by rewrite <- Permutation_cons_append.
Qed.

(** Giving a chunk back to the segment: a dropped [SampleMut], or an offset
    that [reclaim] took. *)
Lemma give_back c cl ch n1 n2 free live q r vs o ms' p' :
  inv_at c cl ch n1 n2 free live q r vs ->
  let mo := (m_offset <$> muts c) ++ sending (publisher c) in
  let lo := freeing (publisher c) ++ returning (subscriber c) in
  let mo' := (m_offset <$> ms') ++ sending p' in
  let lo' := freeing p' ++ returning (subscriber c) in
  mo ++ lo ≡ₚ o :: mo' ++ lo' -> (forall x, x ∈ mo' -> x ∈ mo) ->
  (forall m, m ∈ ms' -> m_cell m = p_cell pub) -> pub_ok p' ->
  send_push p' = PushIdle None ->
  pop_ok (ZeroCopyChannel.return_queue ch) (raw <$> r) (return_pop p') ->
  exists seg, DataSegment.deallocate (segment cl) o = Ret seg /\
    inv (mkC (with_cell (world c) (p_cell pub)
                (with_loans (with_segment cl seg) (wrapping_sub 64 (active_loans cl) 1)))
           ms' (samples c) p' (subscriber c) (sent c) (received c)).
Proof using Type.
  intros Hi. cbn zeta. intros Hperm Hmo Hms Hp Hs Hr. pose proof (a_ok _ _ _ _ _ _ _ _ _ _ Hi) as Hok.
  set (so := (fun x : Sample * T => r_offset x.1) <$> samples c).
  assert (Hperm' : forall A B : list PointerOffset,
            A ++ q ++ so ++ r ++ B ≡ₚ (A ++ B) ++ q ++ so ++ r).
  { intros A B. rewrite <- (app_assoc A B), (Permutation_app_comm B).
    by rewrite <- !app_assoc. }
  assert (Hp2 : ((m_offset <$> muts c) ++ sending (publisher c)) ++ q ++ so ++ r ++
      (freeing (publisher c) ++ returning (subscriber c)) ≡ₚ
      o :: ((m_offset <$> ms') ++ sending p') ++ q ++ so ++ r ++
      (freeing p' ++ returning (subscriber c))).
  { rewrite !Hperm', Hperm. done. }
  destruct (PubSubSafe.ck_chunk _ _ _ _ _ _ _ _ _ _ _ _ Hok o) as (i & Hin & Ho).
  { unfold so in Hp2. rewrite Hp2. left. }
  apply elem_of_Permutation in Hin as [live' Hlive].
  pose proof (DataSegment.ds_rep_perm _ _ _ _ (PubSubSafe.ck_rep _ _ _ _ _ _ _ _ _ _ _ _ Hok) Hlive) as Hrep.
  destruct (DataSegment.ds_deallocate_some _ _ _ _ Hrep) as (seg & Hd & Hrep' & Hch & Hseg).
  rewrite Ho. exists seg. split; [done|].
  assert (Hcc : DataSegment.chunk_count seg = DataSegment.chunk_count (segment cl))
    by (by rewrite Hseg).
  apply (pt_inv_local _ _ _ _ _ _ _ _ _ _ _ ms' p' (i :: free) live' Hi); try done.
  eapply (PubSubSafe.ck_give_back _ _ _ _ _ _ _ _ _ _ _ _ Hok o i); try done.
  rewrite (a_channels _ _ _ _ _ _ _ _ _ _ Hi).
  pose proof (PubSubSafe.ck_chan _ _ _ _ _ _ _ _ _ _ _ _ Hok) as Hck.
  rewrite (a_channels _ _ _ _ _ _ _ _ _ _ Hi) in Hck.
  destruct Hck as (ch' & cap' & ? & ? & ? & ? & _). by exists ch', cap'.
Qed.

Lemma drop_mut_inv c c' i : inv c -> exec (CallDropMut i) c = Some c' -> inv c'.
Proof using Type.
  intros (cl & ch & n1 & n2 & free & live & q & r & vs & Hi) He. cbn in He.
  destruct (publisher c) as [last| | | | |] eqn:Hp; try done.
  destruct (muts c !! i) as [m|] eqn:Hm; [|done].
  destruct (delete_muts _ _ _ _ _ _ _ _ _ _ _ _ Hi Hm) as (Hmc & Hperm & Hms).
  unfold drop_mut, deref in He. rewrite Hmc, (a_cell _ _ _ _ _ _ _ _ _ _ Hi) in He. cbn in He.
  destruct (give_back _ _ _ _ _ _ _ _ _ _ (m_offset m) (delete i (muts c)) (PubIdle DroppedMut) Hi)
    as (seg & Hd & Hi'); try (cbn; rewrite ?Hp; cbn; rewrite ?app_nil_r; done).
  - rewrite Hp. cbn. by rewrite !app_nil_r, Hperm.
  - cbn. intros x. rewrite app_nil_r. intros Hx. apply elem_of_app. left. rewrite Hperm. by right.
  - rewrite Hd in He. cbn in He. simplify_eq. exact Hi'.
Qed.

Lemma pt_reclaim_ok c cl ch n1 n2 free live q r vs last :
  inv_at c cl ch n1 n2 free live q r vs -> publisher c = PubIdle last ->
  let c' := set_pub c (world c) (PubReclaim k [] PopStart) in
  exec CallReclaim c = Some c' /\ inv c'.
Proof using Type.
  intros Hi Hp. cbn. rewrite Hp.
  rewrite (a_cell _ _ _ _ _ _ _ _ _ _ Hi), (a_channels _ _ _ _ _ _ _ _ _ _ Hi). split; [done|].
  eapply pt_inv_same; [done|rewrite ?Hp..]; cbn; try done; [by left|by right].
Qed.

(** A call that holds a chunk finds room for it in either queue. *)
Lemma room c cl ch n1 n2 free live q r vs :
  inv_at c cl ch n1 n2 free live q r vs ->
  Z.of_nat (length q + length (sending (publisher c)) + length r +
            length (returning (subscriber c))) <= cap.
Proof using Type.
  intros [].
  pose proof (PubSubSafe.ck_length _ _ _ _ _ _ _ _ _ _ _ _ a_ok0) as Hl.
  pose proof (PubSubSafe.ck_small _ _ _ _ _ _ _ _ _ _ _ _ a_ok0) as Hs.
  rewrite !length_app in Hl. lia.
Qed.

(** A step on the channel. *)
Lemma inv_chan c cl ch n1 n2 free live q r vs ch' n1' n2' q' r' vs' xs' p' s' st' rc' :
  inv_at c cl ch n1 n2 free live q r vs ->
  ZeroCopyChannel.state ch' = Connected ->
  PubSubSafe.cell_ok (<[k := ch']> (chans (world c))) cl ((m_offset <$> muts c) ++ sending p')
    (freeing p' ++ returning s') xs' st' rc' free live q' r' vs' ->
  SpscQueue.capacity (ZeroCopyChannel.send_queue ch') = cap ->
  SpscQueue.capacity (ZeroCopyChannel.return_queue ch') = cap ->
  SpscQueue.rep (ZeroCopyChannel.send_queue ch') n1' (raw <$> q') ->
  SpscQueue.rep (ZeroCopyChannel.return_queue ch') n2' (raw <$> r') ->
  push_ok (ZeroCopyChannel.send_queue ch') n1' (raw <$> q') (send_push p') ->
  pop_ok (ZeroCopyChannel.send_queue ch') (raw <$> q') (send_pop s') ->
  push_ok (ZeroCopyChannel.return_queue ch') n2' (raw <$> r') (return_push s') ->
  pop_ok (ZeroCopyChannel.return_queue ch') (raw <$> r') (return_pop p') ->
  (forall x v, (x, v) ∈ xs' -> r_cell x = p_cell pub) -> pub_ok p' -> sub_ok s' ->
  inv (mkC (with_chan (world c) k ch') (muts c) xs' p' s' st' rc').
Proof using Type.
  intros []. intros. exists cl, ch', n1', n2', free, live, q', r', vs'. split; cbn; try done.
  apply list_lookup_insert_eq. by eapply lookup_lt_Some.
Qed.

Lemma chan_rep_of ch n1 n2 q r :
  SpscQueue.capacity (ZeroCopyChannel.send_queue ch) = cap ->
  SpscQueue.capacity (ZeroCopyChannel.return_queue ch) = cap ->
  SpscQueue.rep (ZeroCopyChannel.send_queue ch) n1 (raw <$> q) ->
  SpscQueue.rep (ZeroCopyChannel.return_queue ch) n2 (raw <$> r) ->
  ZeroCopyChannel.chan_rep ch cap q r.
Proof using Type. intros H1 H2 H3 H4. split; (split; [done|by eexists]). Qed.

(** A step of [push] in [send]: it goes on, or the send queue has the offset. *)
Lemma run_push_ok c cl ch n1 n2 free live q r vs off j rest p :
  inv_at c cl ch n1 n2 free live q r vs -> publisher c = PubPush off j rest p ->
  exists q' c', run_pub c = Some c' /\ inv c' /\
  let w := with_chan (world c) k (ZeroCopyChannel.with_send ch q') in
  ((exists p', push_rank p' = push_rank p + 1 /\ c' = set_pub c w (PubPush off k [] p')) \/
   (exists v, push_rank p = 3 /\ memory cl !! PointerOffset.offset off = Some v /\
      c' = log_sent (set_pub c w (PubIdle (Sent (Ok tt)))) v)).
Proof using Type.
  intros Hi Hp. pose proof (room _ _ _ _ _ _ _ _ _ _ Hi) as Hroom.
  pose proof Hi as []. rewrite Hp in *. cbn in *. destruct a_pub0 as (-> & -> & Hv).
  unfold run_pub. rewrite Hp, a_chan0.
  destruct (step_push_cases _ n1 (raw <$> q) p _ _ a_send0 a_send_push0 a_send_pop0 Hv)
    as (q' & p' & e & Hs & Hc & Hcases); [rewrite length_fmap; lia|].
  rewrite Hs. set (ch' := ZeroCopyChannel.with_send ch q') in *.
  assert (Hst : ZeroCopyChannel.state ch' = Connected) by exact a_state0.
  exists q'. destruct Hcases as [(Hv' & Hrk & H1 & H2 & H3)|(-> & Hrk & H1 & H2)].
  - exists (set_pub c (with_chan (world c) k ch') (PubPush off k [] p')).
    split; [destruct p'; by cbn in Hv'|]. split; [|left; by exists p'].
    eapply (inv_chan _ _ _ _ _ _ _ _ _ _ ch' n1 n2 q r vs _ _ _ _ _ Hi);
      cbn; try done; [|congruence].
    eapply PubSubSafe.ck_rewired; try done. eapply chan_rep_of; try done. cbn. congruence.
  - assert (Hmem : exists v, memory cl !! PointerOffset.offset off = Some v).
    { apply (PubSubSafe.ck_muts _ _ _ _ _ _ _ _ _ _ _ _ a_ok0), elem_of_app. right. by left. }
    destruct Hmem as [v Hm].
    exists (log_sent (set_pub c (with_chan (world c) k ch') (PubIdle (Sent (Ok tt)))) v).
    split; [|split; [|right; by exists v]].
    { unfold payload_at. cbn. by rewrite a_cell0, Hm. }
    eapply (inv_chan _ _ _ _ _ _ _ _ _ _ ch' n1 n2 (q ++ [off]) r (vs ++ [v]) _ _ _ _ _ Hi);
      cbn; rewrite ?app_nil_r; try done; [| |by rewrite fmap_app..].
    + eapply PubSubSafe.ck_sent; try done; [|by rewrite <- Permutation_cons_append].
      eapply chan_rep_of; try done; [cbn; congruence|by rewrite fmap_app].
    + cbn. congruence.
Qed.

(** A step of [pop] in [reclaim]: it goes on, finds nothing, or has a chunk to
    give back. *)
Lemma run_reclaim_ok c cl ch n1 n2 free live q r vs j rest p :
  inv_at c cl ch n1 n2 free live q r vs -> publisher c = PubReclaim j rest p ->
  exists q' c', run_pub c = Some c' /\ inv c' /\
  let w := with_chan (world c) k (ZeroCopyChannel.with_return ch q') in
  ((exists p', pop_rank p' = pop_rank p + 1 /\ SpscQueue.len q' = Z.of_nat (length r) /\
      c' = set_pub c w (PubReclaim k [] p')) \/
   (pop_rank p = 1 /\ r = [] /\ SpscQueue.len q' = 0 /\ c' = set_pub c w (PubIdle Reclaimed)) \/
   (exists o, pop_rank p = 3 /\ Z.of_nat (length r) = SpscQueue.len q' + 1 /\
      c' = set_pub c w (PubFree o k []))).
Proof using Type.
  intros Hi Hp. pose proof Hi as []. rewrite Hp in *. cbn in *. destruct a_pub0 as (-> & -> & Hv).
  unfold run_pub. rewrite Hp, a_chan0.
  destruct (step_pop_cases _ n2 (raw <$> r) p _ a_return0 a_return_pop0 a_return_push0 Hv)
    as (q' & p' & e & Hs & Hc & Hcases).
  rewrite Hs. set (ch' := ZeroCopyChannel.with_return ch q') in *.
  assert (Hst : ZeroCopyChannel.state ch' = Connected) by exact a_state0. exists q'.
  destruct Hcases as [(Hv' & Hrk & H1 & H2 & H3)|[(-> & Hrk & Hr & ->)|(v & l & -> & Hrk & Hr & H1 & H2)]].
  - exists (set_pub c (with_chan (world c) k ch') (PubReclaim k [] p')).
    split; [destruct p'; by cbn in Hv'|]. split; [|left; exists p'; split; [done|]; split; [|done];
      by rewrite (SpscQueue.len_rep _ _ _ H1), length_fmap].
    eapply (inv_chan _ _ _ _ _ _ _ _ _ _ ch' n1 n2 q r vs _ _ _ _ _ Hi);
      cbn; try done; [|congruence].
    eapply PubSubSafe.ck_rewired; try done. eapply chan_rep_of; try done. cbn. congruence.
  - exists (set_pub c (with_chan (world c) k ch') (PubIdle Reclaimed)).
    apply fmap_nil_inv in Hr as ->. split; [done|]. split; [|right; left; split; [done|]; split; [done|];
      split; [by rewrite (SpscQueue.len_rep _ _ _ a_return0)|done]].
    eapply (inv_chan _ _ _ _ _ _ _ _ _ _ ch' n1 n2 q [] vs _ _ _ _ _ Hi); cbn; try done.
    eapply PubSubSafe.ck_rewired; try done. by eapply chan_rep_of.
  - destruct r as [|o r]; [done|]. cbn in Hr. simplify_eq.
    exists (set_pub c (with_chan (world c) k ch') (PubFree o k [])).
    rewrite ZeroCopyChannel.from_raw_raw. split; [done|]. split; [|right; right; exists o].
    + eapply (inv_chan _ _ _ _ _ _ _ _ _ _ ch' n1 (n2 + 1) q r vs _ _ _ _ _ Hi);
        cbn; try done; [|congruence].
      eapply PubSubSafe.ck_taken_back; try done.
      eapply chan_rep_of; try done. cbn. congruence.
    + split; [done|]. split; [|done]. rewrite (SpscQueue.len_rep _ _ _ H1), length_fmap. cbn. lia.
Qed.

(** [deallocate] and the decrement of the counter. *)
Lemma run_free_ok c cl ch n1 n2 free live q r vs off j rest :
  inv_at c cl ch n1 n2 free live q r vs -> publisher c = PubFree off j rest ->
  exists cl' c', run_pub c = Some c' /\ inv c' /\
    memory cl' = memory cl /\
    c' = set_pub c (with_cell (world c) (p_cell pub) cl') (PubReclaim k [] PopStart).
Proof using Type.
  intros Hi Hp. unfold run_pub. rewrite Hp, (a_cell _ _ _ _ _ _ _ _ _ _ Hi).
  pose proof (a_pub _ _ _ _ _ _ _ _ _ _ Hi) as Hok. rewrite Hp in Hok. destruct Hok as [-> ->].
  destruct (give_back _ _ _ _ _ _ _ _ _ _ off (muts c) (PubReclaim k [] PopStart) Hi)
    as (seg & Hd & Hi'); try (cbn; rewrite ?Hp; cbn; done).
  - rewrite Hp. cbn. rewrite !app_nil_r. by rewrite Permutation_middle.
  - apply (a_muts _ _ _ _ _ _ _ _ _ _ Hi).
  - rewrite Hd. exists (with_loans (with_segment cl seg) (wrapping_sub 64 (active_loans cl) 1)).
    eexists. split; [done|]. split; [exact Hi'|]. split; done.
Qed.

(** The state of the channel is read: it is not disconnected. *)
Lemma run_state_ok c cl ch n1 n2 free live q r vs off j rest :
  inv_at c cl ch n1 n2 free live q r vs -> publisher c = PubState off j rest ->
  let c' := set_pub c (world c) (PubPush off k [] (PushStart (raw off))) in
  run_pub c = Some c' /\ inv c'.
Proof using Type.
  intros Hi Hp. cbn zeta. unfold run_pub. rewrite Hp.
  pose proof (a_pub _ _ _ _ _ _ _ _ _ _ Hi) as Hok. rewrite Hp in Hok. destruct Hok as [-> ->].
  rewrite (a_chan _ _ _ _ _ _ _ _ _ _ Hi).
  rewrite decide_False by (by rewrite (a_state _ _ _ _ _ _ _ _ _ _ Hi)). split; [done|].
  eapply pt_inv_same; [done|rewrite ?Hp..]; cbn; try done; [by right; eexists|by left].
Qed.

Lemma run_pub_inv c c' : inv c -> run_pub c = Some c' -> inv c'.
Proof using Type.
  intros (cl & ch & n1 & n2 & free & live & q & r & vs & Hi) He.
  destruct (publisher c) as [last|off j rest|off j rest p|j rest p|off j rest|] eqn:Hp;
    [unfold run_pub in He; by rewrite Hp in He| | | | |unfold run_pub in He; by rewrite Hp in He].
  - destruct (run_state_ok _ _ _ _ _ _ _ _ _ _ _ _ _ Hi Hp) as [Hr Hi']. congruence.
  - destruct (run_push_ok _ _ _ _ _ _ _ _ _ _ _ _ _ _ Hi Hp) as (? & ? & Hr & Hi' & _). congruence.
  - destruct (run_reclaim_ok _ _ _ _ _ _ _ _ _ _ _ _ _ Hi Hp) as (? & ? & Hr & Hi' & _). congruence.
  - destruct (run_free_ok _ _ _ _ _ _ _ _ _ _ _ _ _ Hi Hp) as (? & ? & Hr & Hi' & _). congruence.
Qed.

(** The subscriber's side: a step of [pop] in [receive] goes on, finds nothing,
    or yields a sample ... *)
Lemma run_receive_ok c cl ch n1 n2 free live q r vs conn rest p :
  inv_at c cl ch n1 n2 free live q r vs -> subscriber c = SubPop conn rest p ->
  exists q' c', run_sub c = Some c' /\ inv c' /\
  let w := with_chan (world c) k (ZeroCopyChannel.with_send ch q') in
  ((exists p', pop_rank p' = pop_rank p + 1 /\ c' = set_sub c w (SubPop (p_cell pub, k) [] p')) \/
   (pop_rank p = 1 /\ q = [] /\ c' = set_sub c w (SubIdle (Received (Ok None)))) \/
   (exists x v, pop_rank p = 3 /\
      c' = log_received (set_samples (set_sub c w (SubIdle (Received (Ok (Some x)))))
                           ((x, v) :: samples c)) v)).
Proof using Type.
  intros Hi Hp. pose proof Hi as []. rewrite Hp in *. cbn in *. destruct a_sub0 as (-> & -> & Hv).
  unfold run_sub. rewrite Hp, a_chan0.
  destruct (step_pop_cases _ n1 (raw <$> q) p _ a_send0 a_send_pop0 a_send_push0 Hv)
    as (q' & p' & e & Hs & Hc & Hcases).
  rewrite Hs. set (ch' := ZeroCopyChannel.with_send ch q') in *.
  assert (Hst : ZeroCopyChannel.state ch' = Connected) by exact a_state0. exists q'.
  destruct Hcases as [(Hv' & Hrk & H1 & H2 & H3)|[(-> & Hrk & Hr & ->)|(v & l & -> & Hrk & Hr & H1 & H2)]].
  - exists (set_sub c (with_chan (world c) k ch') (SubPop (p_cell pub, k) [] p')).
    split; [destruct p'; by cbn in Hv'|]. split; [|left; by exists p'].
    eapply (inv_chan _ _ _ _ _ _ _ _ _ _ ch' n1 n2 q r vs _ _ _ _ _ Hi);
      cbn; try done; [|congruence].
    eapply PubSubSafe.ck_rewired; try done. eapply chan_rep_of; try done. cbn. congruence.
  - exists (set_sub c (with_chan (world c) k ch') (SubIdle (Received (Ok None)))).
    apply fmap_nil_inv in Hr as ->. split; [done|]. split; [|by right; left].
    eapply (inv_chan _ _ _ _ _ _ _ _ _ _ ch' n1 n2 [] r vs _ _ _ _ _ Hi); cbn; try done.
    eapply PubSubSafe.ck_rewired; try done. by eapply chan_rep_of.
  - destruct q as [|o q]; [done|]. cbn in Hr. simplify_eq. rewrite ZeroCopyChannel.from_raw_raw.
    destruct (PubSubSafe.ck_received _ _ _ _ _ _ _ _ _ _ _ _ a_ok0 k ch' cap (p_cell pub) o q)
      as (v & vs' & Hm & Hok); try done.
    { eapply chan_rep_of; try done. cbn. congruence. }
    unfold payload_at. cbn. rewrite a_cell0, Hm. eexists. split; [done|].
    split; [|right; right; by exists (mk_sample (p_cell pub) k o), v].
    eapply (inv_chan _ _ _ _ _ _ _ _ _ _ ch' (n1 + 1) n2 q r vs' _ _ _ _ _ Hi);
      cbn; try done; [congruence|].
    intros x w' [[= -> ->]|Hx]%elem_of_cons; [done|]. by apply (a_samples0 x w').
Qed.

(** ... and of [push] in [return_offset] goes on or has returned the offset. *)
Lemma run_return_ok c cl ch n1 n2 free live q r vs x p :
  inv_at c cl ch n1 n2 free live q r vs -> subscriber c = SubReturn x p ->
  exists q' c', run_sub c = Some c' /\ inv c' /\
  let w := with_chan (world c) k (ZeroCopyChannel.with_return ch q') in
  ((exists p', push_rank p' = push_rank p + 1 /\ SpscQueue.len q' = Z.of_nat (length r) /\
      c' = set_sub c w (SubReturn x p')) \/
   (push_rank p = 3 /\ SpscQueue.len q' = Z.of_nat (length r) + 1 /\
      c' = set_sub c w (SubIdle DroppedSample))).
Proof using Type.
  intros Hi Hp. pose proof (room _ _ _ _ _ _ _ _ _ _ Hi) as Hroom.
  pose proof Hi as []. rewrite Hp in *. cbn in *. destruct a_sub0 as (Hx & Hv).
  unfold run_sub. rewrite Hp, Hx, a_chan0.
  destruct (step_push_cases _ n2 (raw <$> r) p _ _ a_return0 a_return_push0 a_return_pop0 Hv)
    as (q' & p' & e & Hs & Hc & Hcases); [rewrite length_fmap; lia|].
  rewrite Hs. set (ch' := ZeroCopyChannel.with_return ch q') in *.
  assert (Hst : ZeroCopyChannel.state ch' = Connected) by exact a_state0. exists q'.
  destruct Hcases as [(Hv' & Hrk & H1 & H2 & H3)|(-> & Hrk & H1 & H2)].
  - exists (set_sub c (with_chan (world c) k ch') (SubReturn x p')).
    split; [destruct p'; by cbn in Hv'|]. split; [|left; exists p'; split; [done|]; split; [|done];
      by rewrite (SpscQueue.len_rep _ _ _ H1), length_fmap].
    eapply (inv_chan _ _ _ _ _ _ _ _ _ _ ch' n1 n2 q r vs _ _ _ _ _ Hi);
      cbn; try done; [|congruence].
    eapply PubSubSafe.ck_rewired; try done. eapply chan_rep_of; try done. cbn. congruence.
  - eexists. split; [done|]. split.
    + eapply (inv_chan _ _ _ _ _ _ _ _ _ _ ch' n1 n2 q (r ++ [r_offset x]) vs _ _ _ _ _ Hi);
        cbn; try done; [| |by rewrite fmap_app..].
      * eapply PubSubSafe.ck_returned; try done.
        -- eapply chan_rep_of; try done; [cbn; congruence|by rewrite fmap_app].
        -- by rewrite app_nil_r, <- Permutation_cons_append.
      * cbn. congruence.
    + right. split; [done|]. split; [|done]. rewrite (SpscQueue.len_rep _ _ _ H1).
      rewrite length_app, length_fmap. cbn. lia.
Qed.

Lemma inv_same_sub c cl ch n1 n2 free live q r vs s' :
  inv_at c cl ch n1 n2 free live q r vs ->
  returning s' = returning (subscriber c) -> sub_ok s' ->
  send_pop s' = PopIdle None \/ send_pop s' = PopStart ->
  return_push s' = PushIdle None -> inv (set_sub c (world c) s').
Proof using Type.
  intros [] Hf Hp Hr Hq. exists cl, ch, n1, n2, free, live, q, r, vs.
  split; cbn; rewrite ?Hf, ?Hq; try done. by destruct Hr as [->| ->].
Qed.

Lemma run_sub_state_ok c cl ch n1 n2 free live q r vs conn rest :
  inv_at c cl ch n1 n2 free live q r vs -> subscriber c = SubState conn rest ->
  let c' := set_sub c (world c) (SubPop (p_cell pub, k) [] PopStart) in
  run_sub c = Some c' /\ inv c'.
Proof using Type.
  intros Hi Hp. cbn zeta. pose proof (a_sub _ _ _ _ _ _ _ _ _ _ Hi) as Hok. rewrite Hp in Hok.
  destruct Hok as [-> ->]. unfold run_sub. rewrite Hp, (a_chan _ _ _ _ _ _ _ _ _ _ Hi).
  rewrite decide_False by (by rewrite (a_state _ _ _ _ _ _ _ _ _ _ Hi)). split; [done|].
  eapply inv_same_sub; [done|rewrite ?Hp..]; cbn; try done. by right.
Qed.

Lemma run_sub_inv c c' : inv c -> run_sub c = Some c' -> inv c'.
Proof using Type.
  intros (cl & ch & n1 & n2 & free & live & q & r & vs & Hi) He.
  destruct (subscriber c) as [last|conn rest| | |conn rest p|x p|] eqn:Hp;
    [unfold run_sub in He; by rewrite Hp in He| | | | | |unfold run_sub in He; by rewrite Hp in He].
  - destruct (run_sub_state_ok _ _ _ _ _ _ _ _ _ _ _ _ Hi Hp) as [Hr Hi']. congruence.
  - destruct Hi. by rewrite Hp in *.
  - destruct Hi. by rewrite Hp in *.
  - destruct (run_receive_ok _ _ _ _ _ _ _ _ _ _ _ _ _ Hi Hp) as (? & ? & Hr & Hi' & _). congruence.
  - destruct (run_return_ok _ _ _ _ _ _ _ _ _ _ _ _ Hi Hp) as (? & ? & Hr & Hi' & _). congruence.
Qed.

Lemma pt_receive_ok c cl ch n1 n2 free live q r vs last :
  inv_at c cl ch n1 n2 free live q r vs -> subscriber c = SubIdle last ->
  let c' := set_sub c (world c) (SubState (p_cell pub, k) []) in
  exec CallReceive c = Some c' /\ inv c'.
Proof using Hconn.
  intros Hi Hp. cbn. rewrite Hp, Hconn. split; [by destruct (publisher c)|].
  eapply inv_same_sub; [done|rewrite ?Hp..]; cbn; try done. by left.
Qed.

Lemma drop_ok c cl ch n1 n2 free live q r vs last i x v :
  inv_at c cl ch n1 n2 free live q r vs -> subscriber c = SubIdle last ->
  samples c !! i = Some (x, v) ->
  let c' := set_sub (set_samples c (delete i (samples c))) (world c)
              (SubReturn x (PushStart (raw (r_offset x)))) in
  exec (CallDrop i) c = Some c' /\ inv c'.
Proof using Type.
  intros Hi Hp Hx. cbn. rewrite Hp, Hx. split; [by destruct (publisher c)|].
  pose proof (delete_Permutation _ _ _ Hx) as Hperm.
  pose proof Hi as []. rewrite Hp in *. cbn in *.
  pose proof (PubSubSafe.ck_unhold _ _ _ _ _ _ _ _ _ _ _ _ a_ok0 x v _ Hperm) as Hok.
  exists cl, ch, n1, n2, free, live, q, r, vs. split; cbn; try done.
  - rewrite app_nil_r in Hok. destruct Hok. split; try done.
    by rewrite <- (Permutation_cons_append (freeing _)).
  - intros y w Hy. apply (a_samples0 y w). rewrite Hperm. by right.
  - split; [|done]. pose proof (PubSubSafe.ck_chan _ _ _ _ _ _ _ _ _ _ _ _ a_ok0) as Hc.
    rewrite a_channels0 in Hc. destruct Hc as (_ & _ & _ & _ & _ & _ & Hs).
    apply (Hs x v). by eapply list_elem_of_lookup_2.
Qed.

(** Calls start only on idle threads. *)
Lemma exec_idle_pub a c c' :
  exec a c = Some c' ->
  match a with
  | RunPub | RunSub | CallReceive | CallDrop _ => True
  | _ => exists last, publisher c = PubIdle last
  end.
Proof using Type.
  destruct a; cbn; try done; intros He; destruct (publisher c); try done; eauto.
Qed.

Lemma exec_idle_sub a c c' :
  exec a c = Some c' ->
  match a with CallReceive | CallDrop _ => exists last, subscriber c = SubIdle last | _ => True end.
Proof using Type.
  destruct a; cbn; try done; intros He; destruct (publisher c), (subscriber c); try done; eauto.
Qed.

Lemma ps_exec_inv a c c' : inv c -> exec a c = Some c' -> inv c'.
Proof using Hconn.
  intros Hinv He. pose proof Hinv as (cl & ch & n1 & n2 & free & live & q & r & vs & Hi).
  pose proof (exec_idle_pub _ _ _ He) as Hp. pose proof (exec_idle_sub _ _ _ He) as Hs.
  destruct a as [|i v|i|i| | | |i|]; cbn in Hp, Hs.
  - destruct Hp as [last Hp]. destruct (pt_loan_ok _ _ _ _ _ _ _ _ _ _ _ Hi Hp) as (? & ? & ? & ? & _). congruence.
  - destruct Hp as [last Hp]. destruct (muts c !! i) as [m|] eqn:Hm; [|cbn in He; by rewrite Hp, Hm in He].
    destruct (pt_write_ok _ _ _ _ _ _ _ _ _ _ _ _ _ v Hi Hp Hm) as (? & ? & ? & _). congruence.
  - destruct Hp as [last Hp]. destruct (muts c !! i) as [m|] eqn:Hm; [|cbn in He; by rewrite Hp, Hm in He].
    destruct (pt_send_ok _ _ _ _ _ _ _ _ _ _ _ _ _ Hi Hp Hm) as [? ?]. congruence.
  - by eapply drop_mut_inv.
  - destruct Hp as [last Hp]. destruct (pt_reclaim_ok _ _ _ _ _ _ _ _ _ _ _ Hi Hp) as [? ?]. congruence.
  - by eapply run_pub_inv.
  - destruct Hs as [last Hs]. destruct (pt_receive_ok _ _ _ _ _ _ _ _ _ _ _ Hi Hs) as [? ?]. congruence.
  - destruct Hs as [last Hs]. destruct (samples c !! i) as [[x v]|] eqn:Hx;
      [|cbn in He; rewrite Hs, Hx in He; by destruct (publisher c)].
    destruct (drop_ok _ _ _ _ _ _ _ _ _ _ _ _ _ _ Hi Hs Hx) as [? ?]. congruence.
  - by eapply run_sub_inv.
Qed.

Lemma pt_run_inv sched c c' : inv c -> run sched c = Some c' -> inv c'.
Proof using Hconn.
  revert c. induction sched as [|a sched IH]; intros c Hi Hr; cbn in Hr; [by simplify_eq|].
  destruct (exec a c) as [c1|] eqn:E; [|done]. by eapply IH, Hr; eapply ps_exec_inv, E.
Qed.
End invariant.
End machine.

(** ** Ports of one service *)
Section connected.
Context {P : Posix} {T : Type} (zero : T).
Context (macos : bool) (hash : string -> Z) (size_of : Z) (b : PortBuilder).
Context {V : PosixView} {Sp : PosixSpec} (Hqos : PubSubSafe.qos_ok size_of b).

(** A publisher, then a subscriber, of a new service, and the world they share. *)
Definition connected (os : Os) (p : Publisher) (s : Subscriber) (w : World T) : Prop :=
  exists w1, create_publisher macos hash size_of b (mk_world os [] [] 0) = Ret (Ok p, w1) /\
    create_subscriber b w1 = (s, w).

Lemma connected_inv os p s w :
  connected os p s w ->
  connections s = [(p_cell p, 0%nat)] /\ p_cell p = 0%nat /\
  max_loaned p = max_loaned_samples (b_qos b) /\
  exists cap cl, publishers w = [cl] /\ inv p 0 cap (init w) /\
    DataSegment.chunk_count (segment cl) = buffer_size (b_qos b).
Proof using Hqos Sp.
  intros (w1 & Hp & Hs). destruct Hqos as (Hsz & Hfit & _).
  assert (Hn : 0 < buffer_size (b_qos b) < SENTINEL) by apply Hfit.
  unfold create_publisher in Hp. cbn zeta in Hp.
  rewrite (wrap_small 32 (buffer_size _)) in Hp by (unfold fits, SENTINEL in *; lia).
  destruct (DataSegment.ds_create_spec macos hash os
    (seg_name (b_service_name b) 0 (b_node_id b)) _ _ _ Hsz Hfit) as (r & os' & Hc & Hr).
  cbn [kernel publisher_counter] in Hp. rewrite Hc in Hp. cbn [obind] in Hp.
  destruct r as [seg|e]; [|done]. destruct Hr as (Hrep & _ & Hct & _). simplify_eq.
  unfold create_subscriber in Hs. cbn in Hs. simplify_eq. cbn. do 3 (split; [done|]).
  set (ch := ZeroCopyChannel.new (buffer_size (b_qos b)) (b_node_id b) (b_node_id b)).
  destruct (ZeroCopyChannel.chan_new (buffer_size (b_qos b)) (b_node_id b) (b_node_id b))
    as (Hcap & Hcr & _); [unfold SENTINEL in Hn; lia|]. fold ch in Hcap, Hcr.
  set (cap := SpscQueue.capacity (ZeroCopyChannel.send_queue ch)) in *.
  exists cap. eexists. split; [done|]. split; [|done].
  assert (Hrep0 : SpscQueue.rep (SpscQueue.new (buffer_size (b_qos b))) 0 [])
    by (apply SpscQueue.new_rep; unfold SENTINEL in Hn; lia).
  eexists _, (ZeroCopyChannel.connect ch), 0, 0, _, [], [], [], [].
  split; cbn; try done;
    [|cbn [segment with_channels]; rewrite Hct; exact Hcap|by intros ? ?%elem_of_nil|by intros ? ? ?%elem_of_nil].
  split; cbn; try done.
  - by intros o ?%elem_of_nil.
  - by intros x v ?%elem_of_nil.
  - exists (ZeroCopyChannel.connect ch), cap. split; [done|]. split; [by apply PubSubSafe.conj_rep|].
    split; [cbn [segment]; rewrite Hct; exact Hcap|]. split; [done|]. by intros x v ?%elem_of_nil.
Qed.

(** C12: whatever two programs do with a publisher and a subscriber on two
    threads, in every interleaving of the accesses to the queues: no call
    panics, [send] and [receive] never fail, the chunks that [SampleMut]s and
    samples point to are pairwise different (so that no write of one thread
    races with a read of the other), each sample reads the value that was
    sent, the values received are those sent, in order, up to those in the
    queue, and the loan counter counts the chunks in use. *)
Theorem pubsub_threads_safe os p s w sched c :
  connected os p s w -> run zero p s sched (init w) = Some c ->
  (forall r, publisher c = PubIdle (Sent r) -> r = Ok tt) /\
  (forall r, subscriber c = SubIdle (Received r) -> exists x, r = Ok x) /\
  publisher c <> PubPanic /\ subscriber c <> SubPanic /\
  NoDup (((fun m => PointerOffset.offset (m_offset m)) <$> muts c) ++
         ((fun x => PointerOffset.offset (r_offset x.1)) <$> samples c)) /\
  (forall x v, (x, v) ∈ samples c -> read (world c) x = Ret v) /\
  exists cl ch flight, publishers (world c) !! p_cell p = Some cl /\
    chans (world c) !! 0%nat = Some ch /\
    sent c = received c ++ flight /\
    ZeroCopyChannel.pending_count ch = Z.of_nat (length flight) /\
    active_loans cl = DataSegment.allocated_count (segment cl) /\
    active_loans cl = ZeroCopyChannel.pending_count ch + ZeroCopyChannel.return_count ch +
      Z.of_nat (length (muts c) + length (samples c) + length (sending (publisher c)) +
                length (freeing (publisher c)) + length (returning (subscriber c))).
Proof using Hqos Sp.
  intros Hc Hr. destruct (connected_inv _ _ _ _ Hc) as (Hconn & _ & _ & cap & cl0 & _ & Hi & _).
  pose proof (pt_run_inv zero p s 0 cap Hconn _ _ _ Hi Hr)
    as (cl & ch & n1 & n2 & free & live & q & r & vs & []).
  split; [intros [[]|e] Hp; [done|rewrite Hp in a_pub0; by destruct (a_pub0 e)]|].
  split; [intros [x|e] Hp; [by eexists|rewrite Hp in a_sub0; by destruct (a_sub0 e)]|].
  split; [intros Hp; by rewrite Hp in a_pub0|].
  split; [intros Hp; by rewrite Hp in a_sub0|]. split; [|split].
  - pose proof (PubSubSafe.ck_all_NoDup _ _ _ _ _ _ _ _ _ _ _ _ a_ok0) as Hnd.
    assert (Hsub : forall o, o ∈ (m_offset <$> muts c) ++ ((fun x => r_offset x.1) <$> samples c) ->
      o ∈ ((m_offset <$> muts c) ++ sending (publisher c)) ++ q ++
          ((fun x => r_offset x.1) <$> samples c) ++ r ++
          freeing (publisher c) ++ returning (subscriber c)).
    { intros o. rewrite !elem_of_app. tauto. }
    rewrite (list_fmap_compose m_offset PointerOffset.offset),
      (list_fmap_compose (fun x : Sample * T => r_offset x.1) PointerOffset.offset), <- fmap_app.
    apply NoDup_fmap_2_strong.
    + intros x y Hx%Hsub Hy%Hsub. by apply (PubSubSafe.ck_offset_inj _ _ _ _ _ _ _ _ _ _ _ _ a_ok0).
    + rewrite <- app_assoc in Hnd. apply NoDup_app in Hnd as (H1 & H2 & H3).
      apply NoDup_app in H3 as (_ & _ & H3). apply NoDup_app in H3 as (_ & _ & H3).
      apply NoDup_app in H3 as (H3 & _ & _). apply NoDup_app. split; [done|]. split; [|done].
      intros o Ho Ho2. apply (H2 o Ho). rewrite !elem_of_app. tauto.
  - intros x v Hx. unfold read, deref. rewrite (a_samples0 x v Hx), a_cell0. cbn.
    by rewrite (PubSubSafe.ck_samples _ _ _ _ _ _ _ _ _ _ _ _ a_ok0 x v Hx).
  - exists cl, ch, vs. split; [done|]. split; [done|].
    destruct (PubSubSafe.ck_values _ _ _ _ _ _ _ _ _ _ _ _ a_ok0) as [Hsent Hf].
    split; [done|]. apply Forall2_length in Hf.
    unfold ZeroCopyChannel.pending_count, ZeroCopyChannel.return_count.
    rewrite (SpscQueue.len_rep _ _ _ a_send0), (SpscQueue.len_rep _ _ _ a_return0), !length_fmap.
    split; [by rewrite Hf|].
    destruct (DataSegment.ds_counts _ _ _ (PubSubSafe.ck_rep _ _ _ _ _ _ _ _ _ _ _ _ a_ok0)) as [-> _].
    pose proof (PubSubSafe.ck_length _ _ _ _ _ _ _ _ _ _ _ _ a_ok0) as Hl.
    rewrite !length_app, length_fmap in Hl.
    rewrite (PubSubSafe.ck_loans _ _ _ _ _ _ _ _ _ _ _ _ a_ok0). split; [done|]. lia.
Qed.
End connected.

(** ** A concrete pair of ports, and a run in which the calls overlap *)
Section example.
Import ToyOs.

Definition example_ports : option (Publisher * Subscriber * World (H := toy_posix) Z) :=
  match create_publisher (P := toy_posix) false no_hash 8 PubSubSafe.example_builder
          (mk_world (empty_os 100000) [] [] 0) with
  | Ret (Ok p, w1) => let '(s, w) := create_subscriber PubSubSafe.example_builder w1 in Some (p, s, w)
  | _ => None
  end.

Lemma example_ports_some : match example_ports with Some _ => true | None => false end = true.
Proof. vm_compute. reflexivity. Qed.

Lemma example_connected p s w :
  example_ports = Some (p, s, w) ->
  connected (P := toy_posix) false no_hash 8 PubSubSafe.example_builder (empty_os 100000) p s w.
Proof.
  unfold example_ports, connected. intros He.
  destruct (create_publisher _ _ _ _ _) as [[[p'|] w1]| |]; try discriminate.
  exists w1. destruct (create_subscriber PubSubSafe.example_builder w1) as [s' w'] eqn:E. by simplify_eq.
Qed.

(** The first value is sent while the subscriber is in [receive]; the second
    while it drops the first; the publisher reclaims at the end. *)
Definition overlap : list (action Z) :=
  [CallLoan; CallReceive; CallWrite 0 11; RunSub; CallSend 0; RunPub; RunSub; RunPub; RunPub;
   RunPub; RunPub; RunSub; RunSub; RunSub; CallLoan; CallWrite 0 22; CallSend 0; CallDrop 0;
   RunPub; RunSub; RunPub; RunSub; RunPub; RunSub; RunPub; RunPub; RunSub; CallReclaim; RunPub;
   RunPub; CallReceive; RunPub; RunSub; RunPub; RunPub; RunPub; RunPub; RunSub; RunSub].

Definition overlap_run : option (config (P := toy_posix) (T := Z)) :=
  match example_ports with
  | Some (p, s, w) => run 0 p s overlap (init w)
  | None => None
  end.

Lemma overlap_result :
  match overlap_run with
  | Some c => (sent c, received c, length (muts c), length (samples c), loan_count (world c) 0)
  | None => ([], [], 0%nat, 0%nat, 0)
  end = ([11; 22], [11], 0%nat, 0%nat, 1).
Proof. vm_compute. reflexivity. Qed.

Lemma pubsub_threads_safe_witness :
  exists p s w c, example_ports = Some (p, s, w) /\ run 0 p s overlap (init w) = Some c /\
    sent c = [11; 22] /\ publisher c <> PubPanic.
Proof.
  pose proof overlap_result as Hv. unfold overlap_run in Hv.
  destruct example_ports as [[[p s] w]|] eqn:E; [|discriminate Hv].
  destruct (run 0 p s overlap (init w)) as [c|] eqn:Er; [|discriminate Hv].
  exists p, s, w, c. split; [reflexivity|]. split; [exact Er|]. split; [by injection Hv|].
  destruct (pubsub_threads_safe (P := toy_posix) 0 false no_hash 8 PubSubSafe.example_builder PubSubSafe.ps_example_qos_ok
    (empty_os 100000) p s w overlap c (example_connected p s w E) Er) as (_ & _ & H & _).
  exact H.
Defined.
End example.
End PubSubThreads.
