(* ===== verification/PubSubLoop.v ===== *)
(** * A producer and a consumer
    (crates/entangle/examples/multi_process.rs, and the test
    pubsub_concurrent_producer_consumer of crates/entangle/tests/integration.rs)

    The loops of the two threads as programs over the machine of PubSubConc.v:
    the producer loans, writes and sends [n] values and reclaims when no loan
    is to be had; the consumer receives until it has [n] values.  In every
    interleaving what has been received is a prefix of what was sent, and under
    every fair schedule both loops end with all values received. *)
From S2P Require Import Prelude Contracts FreeList IndexSet Spsc SpscConc PoolAlloc Channel Shm.
From S2P Require Import DataSegment Config Service PubSub PubSubSafe PubSubConc.
#[local] Open Scope Z_scope.
#[local] Open Scope rust_scope.

Module PubSubLoop.
Import PointerOffset PubSubPorts SpscThreads PubSubThreads.

(** Where the producer is with value [i]: at the top of the inner loop, with a
    loaned sample, with a written one, in [send], about to reclaim, in
    [reclaim]; [ProdFailed] is an [unwrap] of an error or a panic. *)
Inductive producer :=
| PLoan (i : nat)
| PWrite (i : nat)
| PSend (i : nat)
| PSending (i : nat)
| PReclaim (i : nat)
| PReclaiming (i : nat)
| ProdFailed.

(** The consumer with the values it has: at the head of [while], in [receive],
    with a sample to read, with a sample to drop, in its drop. *)
Inductive consumer (T : Type) :=
| CLoop (acc : list T)
| CReceiving (acc : list T)
| CRead (acc : list T) (x : Sample)
| CDrop (acc : list T)
| CDropping (acc : list T)
| ConsFailed.
Arguments CLoop {T} acc.
Arguments CReceiving {T} acc.
Arguments CRead {T} acc x.
Arguments CDrop {T} acc.
Arguments CDropping {T} acc.
Arguments ConsFailed {T}.

Inductive thread := Producer | Consumer.

#[global] Instance thread_eq_dec : EqDecision thread.
Proof. solve_decision. Defined.

(** Computes the work before and after a step. *)
Ltac work_cbn := cbn -[Z.mul Z.add Z.sub Z.of_nat Z.max push_rank pop_rank length app].
Ltac work_tac := cbn -[Z.mul Z.add Z.sub Z.of_nat Z.max]; lia.

Section loops.
Context {P : Posix} {T : Type} (zero : T) (pub : Publisher) (sub : Subscriber).
(** The number of values, and the values. *)
Context (n : nat) (f : nat -> T).

Record sys := mkSys {
  cfg : config (T := T);
  prod : producer;
  cons : consumer T;
}.

Definition exec1 (a : action T) (c : config) : option config := exec zero pub sub a c.

(** The [match publisher.loan()]. *)
Definition after_loan (i : nat) (c : config (T := T)) : producer :=
  match publisher c with
  | PubIdle (Loaned (Ok _)) => PWrite i
  | PubIdle (Loaned (Err _)) => PReclaim i
  | _ => ProdFailed
  end.

(** [sample.send().unwrap(); break;] *)
Definition after_send (i : nat) (c : config (T := T)) : producer :=
  match publisher c with
  | PubIdle (Sent (Ok _)) => PLoan (S i)
  | PubIdle _ | PubPanic => ProdFailed
  | _ => PSending i
  end.

(** [publisher.reclaim()], after which the inner loop turns. *)
Definition after_reclaim (i : nat) (c : config (T := T)) : producer :=
  match publisher c with
  | PubIdle _ => PLoan i
  | PubPanic => ProdFailed
  | _ => PReclaiming i
  end.

Definition step_producer (s : sys) : sys :=
  let act a next :=
    match exec1 a (cfg s) with
    | Some c => mkSys c (next c) (cons s)
    | None => mkSys (cfg s) ProdFailed (cons s)
    end in
  match prod s with
  | PLoan i => if (i <? n)%nat then act CallLoan (after_loan i) else s
  | PWrite i => act (CallWrite 0 (f i)) (fun _ => PSend i)
  | PSend i => act (CallSend 0) (after_send i)
  | PSending i => act RunPub (after_send i)
  | PReclaim i => act CallReclaim (after_reclaim i)
  | PReclaiming i => act RunPub (after_reclaim i)
  | ProdFailed => s
  end.

(** [if let Ok(Some(sample)) = subscriber.receive()]. *)
Definition after_receive (acc : list T) (c : config (T := T)) : consumer T :=
  match subscriber c with
  | SubIdle (Received (Ok (Some x))) => CRead acc x
  | SubIdle _ => CLoop acc
  | SubPanic => ConsFailed
  | _ => CReceiving acc
  end.

Definition after_drop (acc : list T) (c : config (T := T)) : consumer T :=
  match subscriber c with
  | SubIdle _ => CLoop acc
  | SubPanic => ConsFailed
  | _ => CDropping acc
  end.

Definition step_consumer (s : sys) : sys :=
  let act a next :=
    match exec1 a (cfg s) with
    | Some c => mkSys c (prod s) (next c)
    | None => mkSys (cfg s) (prod s) ConsFailed
    end in
  match cons s with
  | CLoop acc => if (length acc <? n)%nat then act CallReceive (after_receive acc) else s
  | CReceiving acc => act RunSub (after_receive acc)
  | CRead acc x =>
      match read (world (cfg s)) x with
      | Ret v => mkSys (cfg s) (prod s) (CDrop (acc ++ [v]))
      | _ => mkSys (cfg s) (prod s) ConsFailed
      end
  | CDrop acc => act (CallDrop 0) (after_drop acc)
  | CDropping acc => act RunSub (after_drop acc)
  | ConsFailed => s
  end.

Definition step (t : thread) (s : sys) : sys :=
  match t with Producer => step_producer s | Consumer => step_consumer s end.

Definition run (sched : list thread) (s : sys) : sys := foldl (fun s t => step t s) s sched.

Definition start (w : World T) : sys := mkSys (init w) (PLoan 0) (CLoop []).

(** The values so far, in order. *)
Definition values (i : nat) : list T := f <$> seq 0 i.

Lemma values_S i : values (S i) = values i ++ [f i].
Proof. unfold values. by rewrite seq_S, fmap_app. Qed.

Lemma length_values i : length (values i) = i.
Proof. unfold values. by rewrite length_fmap, length_seq. Qed.

(** ** The invariant of the loops *)
Section invariant.
Context (k : nat) (cap : Z) (Hconn : connections sub = [(p_cell pub, k)]).
Context (Hmax : 0 < max_loaned pub).

Definition idle (c : config (T := T)) : Prop := exists last, publisher c = PubIdle last.
Definition sub_idle (c : config (T := T)) : Prop := exists last, subscriber c = SubIdle last.

(** The producer's thread and what it holds, at each place of the loop. *)
Definition prod_ok (p : producer) (c : config (T := T)) : Prop :=
  match p with
  | PLoan i => (i <= n)%nat /\ sent c = values i /\ idle c /\ muts c = []
  | PWrite i => (i < n)%nat /\ sent c = values i /\ idle c /\ exists m, muts c = [m]
  | PSend i => (i < n)%nat /\ sent c = values i /\ idle c /\
      exists m, muts c = [m] /\ payload_at (world c) (p_cell pub) (m_offset m) = Some (f i)
  | PSending i => (i < n)%nat /\ sent c = values i /\ muts c = [] /\
      exists off, payload_at (world c) (p_cell pub) off = Some (f i) /\
        match publisher c with
        | PubState off' _ _ | PubPush off' _ _ _ => off' = off
        | _ => False
        end
  | PReclaim i => (i < n)%nat /\ sent c = values i /\ idle c /\ muts c = []
  | PReclaiming i => (i < n)%nat /\ sent c = values i /\ muts c = [] /\
      match publisher c with PubReclaim _ _ _ | PubFree _ _ _ => True | _ => False end
  | ProdFailed => False
  end.

(** The same for the consumer. *)
Definition cons_ok (p : consumer T) (c : config (T := T)) : Prop :=
  match p with
  | CLoop acc => (length acc <= n)%nat /\ received c = acc /\ sub_idle c /\ samples c = []
  | CReceiving acc => (length acc < n)%nat /\ received c = acc /\ samples c = [] /\
      match subscriber c with SubState _ _ | SubPop _ _ _ => True | _ => False end
  | CRead acc x => (length acc < n)%nat /\ sub_idle c /\
      exists v, received c = acc ++ [v] /\ samples c = [(x, v)]
  | CDrop acc => (length acc <= n)%nat /\ received c = acc /\ sub_idle c /\
      exists x v, samples c = [(x, v)]
  | CDropping acc => (length acc <= n)%nat /\ received c = acc /\ samples c = [] /\
      match subscriber c with SubReturn _ _ => True | _ => False end
  | ConsFailed => False
  end.

Record good (s : sys) : Prop := {
  g_inv : inv pub k cap (cfg s);
  g_prod : prod_ok (prod s) (cfg s);
  g_cons : cons_ok (cons s) (cfg s);
}.

(** ** The work that is left

    It falls with every step, but for those of a loop that waits. *)
Definition loans (c : config (T := T)) : Z := loan_count (world c) (p_cell pub).
Definition returned (c : config (T := T)) : Z := returned_count (world c) k.

Definition prod_work (p : producer) (c : config (T := T)) : Z :=
  let left i := 40 * (Z.of_nat n - Z.of_nat i) in
  match p with
  | PLoan i | PReclaim i => left i
  | PWrite i => left i - 1
  | PSend i => left i - 2
  | PSending i =>
      left i - 3 - match publisher c with PubPush _ _ _ q => 1 + push_rank q | _ => 0 end
  | PReclaiming i =>
      left i + match publisher c with
               | PubReclaim _ _ q => - Z.max 0 (pop_rank q - 1)
               | PubFree _ _ _ => 5
               | _ => 0
               end
  | ProdFailed => 0
  end.

Definition cons_work (p : consumer T) (c : config (T := T)) : Z :=
  match p with
  | CLoop _ | ConsFailed => 0
  | CReceiving _ =>
      match subscriber c with SubPop _ _ q => - Z.max 0 (pop_rank q - 1) | _ => 0 end
  | CRead _ _ => 20
  | CDrop _ => 19
  | CDropping _ => 18 - match subscriber c with SubReturn _ q => push_rank q | _ => 0 end
  end.

Definition work (s : sys) : Z :=
  let c := cfg s in
  prod_work (prod s) c + cons_work (cons s) c +
  30 * (Z.of_nat (length (sent c)) - Z.of_nat (length (received c))) + 10 * returned c.

(** Turns until the producer has seen the return queue empty, until it has
    seen a [loan] fail, and until the consumer has seen the send queue empty. *)
Definition to_empty (s : sys) : nat :=
  match prod s with
  | PLoan _ => 4
  | PReclaim _ => 3
  | PReclaiming _ => match publisher (cfg s) with PubReclaim _ _ PopStart => 2 | _ => 1 end
  | _ => 1
  end.
Definition to_loan (s : sys) : nat :=
  match prod s with
  | PReclaim _ => 4
  | PReclaiming _ => match publisher (cfg s) with PubReclaim _ _ PopStart => 3 | _ => 2 end
  | _ => 1
  end.
Definition to_pop (s : sys) : nat :=
  match cons s with
  | CLoop _ => 4
  | CReceiving _ =>
      match subscriber (cfg s) with SubState _ _ => 3 | SubPop _ _ PopStart => 2 | _ => 1 end
  | _ => 1
  end.

(** What a waiting thread does not change. *)
Definition same (c c' : config (T := T)) : Prop :=
  loans c' = loans c /\ returned c' = returned c /\
  length (sent c') = length (sent c) /\ length (received c') = length (received c).

Definition no_muts (c : config (T := T)) : Prop :=
  muts c = [] /\ sending (publisher c) = [] /\ freeing (publisher c) = [].
Definition no_samples (c : config (T := T)) : Prop :=
  samples c = [] /\ returning (subscriber c) = [].

Definition prod_waits (s s' : sys) : Prop :=
  no_muts (cfg s) /\ no_muts (cfg s') /\ same (cfg s) (cfg s') /\ prod s' <> PLoan n /\
  (to_empty s = 1%nat -> returned (cfg s) = 0) /\ to_empty s' = match to_empty s with 1 => 4 | S m => m | 0 => 0 end%nat /\
  (to_loan s = 1%nat -> 0 < loans (cfg s)) /\ to_loan s' = match to_loan s with 1 => 4 | S m => m | 0 => 0 end%nat.

Definition prod_frame (s s' : sys) : Prop :=
  cons s' = cons s /\ subscriber (cfg s') = subscriber (cfg s) /\
  samples (cfg s') = samples (cfg s) /\ received (cfg s') = received (cfg s).

Lemma cons_ok_frame p c c' :
  subscriber c' = subscriber c -> samples c' = samples c -> received c' = received c ->
  cons_ok p c -> cons_ok p c'.
Proof using Type.
  intros H1 H2 H3. destruct p; cbn; unfold sub_idle; by rewrite ?H1, ?H2, ?H3.
Qed.

Lemma cons_work_frame p c c' : subscriber c' = subscriber c -> cons_work p c' = cons_work p c.
Proof using Type. intros H. destruct p; cbn; by rewrite ?H. Qed.

Lemma returned_at c cl ch n1 n2 free live q r vs :
  inv_at pub k cap c cl ch n1 n2 free live q r vs -> returned c = Z.of_nat (length r).
Proof using Type.
  intros []. unfold returned, returned_count. rewrite a_chan0. unfold ZeroCopyChannel.return_count.
  by rewrite (SpscQueue.len_rep _ _ _ a_return0), length_fmap.
Qed.

(** A step that lowers the work, or that waits. *)
Definition prod_step_ok (s s' : sys) : Prop :=
  good s' /\ prod_frame s s' /\
  (work s' < work s \/ work s' = work s /\ (s' = s /\ prod s = PLoan n \/ prod_waits s s')).

Lemma prod_step_intro s c' p' :
  good s -> inv pub k cap c' -> prod_ok p' c' ->
  subscriber c' = subscriber (cfg s) -> samples c' = samples (cfg s) ->
  received c' = received (cfg s) ->
  (let s' := mkSys c' p' (cons s) in
   let d := prod_work p' c' - prod_work (prod s) (cfg s) +
            30 * (Z.of_nat (length (sent c')) - Z.of_nat (length (sent (cfg s)))) +
            10 * (returned c' - returned (cfg s)) in
   d < 0 \/ d = 0 /\ prod_waits s s') ->
  prod_step_ok s (mkSys c' p' (cons s)).
Proof using Type.
  intros [Hi Hp Hc] Hi' Hp' Hs Hx Hr Hw. split; [split; cbn; try done|].
  - by eapply cons_ok_frame.
  - split; [done|]. unfold work. cbn [cfg prod cons] in *. rewrite (cons_work_frame _ _ _ Hs), Hr.
    destruct Hw as [Hw|[Hw Hp2]]; [left; lia|right]. split; [lia|by right].
Qed.

(** A failed [loan] means that some chunk is in use. *)
Lemma loans_positive c cl ch n1 n2 free live q r vs :
  inv_at pub k cap c cl ch n1 n2 free live q r vs ->
  max_loaned pub <= active_loans (T := T) cl \/ free = [] -> 0 < active_loans cl.
Proof using Hmax.
  intros [] [Hc|Hc]; [lia|].
  pose proof (PubSubSafe.ck_rep _ _ _ _ _ _ _ _ _ _ _ _ a_ok0) as Hr.
  rewrite (PubSubSafe.ck_loans _ _ _ _ _ _ _ _ _ _ _ _ a_ok0).
  pose proof (DataSegment.ds_length _ _ _ Hr) as Hl. rewrite Hc in Hl. cbn in Hl.
  pose proof (ia_rep_capacity _ _ _ (PoolAllocator.pr_rep _ _ _ (DataSegment.dr_pool _ _ _ Hr))) as Hcap.
  rewrite (DataSegment.ds_pool_capacity _ _ _ Hr) in Hcap. lia.
Qed.

Lemma loans_at c cl ch n1 n2 free live q r vs :
  inv_at pub k cap c cl ch n1 n2 free live q r vs ->
  loans c = active_loans (T := T) cl.
Proof using Type. intros []. unfold loans, loan_count. by rewrite a_cell0. Qed.

Lemma step_loan_ok s i : good s -> prod s = PLoan i -> prod_step_ok s (step_producer s).
Proof using Hmax.
  intros Hg Hp. pose proof Hg as [(cl & ch & n1 & n2 & free & live & q & r & vs & Hi) Hpo _].
  rewrite Hp in Hpo. destruct Hpo as (Hle & Hsent & [last Hidle] & Hmuts).
  unfold step_producer. rewrite Hp. destruct (Nat.ltb_spec i n) as [Hlt|Hlt].
  2: { assert (i = n) as -> by lia. split; [done|]. split; [done|]. right. split; [done|by left]. }
  destruct (pt_loan_ok zero pub sub k cap _ _ _ _ _ _ _ _ _ _ _ Hi Hidle)
    as (w & c' & He & Hi' & Hw & Hcase). unfold exec1. rewrite He.
  assert (Hret : returned c' = returned (cfg s)).
  { unfold returned, returned_count. by destruct Hcase as [[m ->]|(e & -> & _)]; cbn; rewrite Hw. }
  destruct Hcase as [[m ->]|(e & -> & Hcount & Hnone)]; apply prod_step_intro; try done; cbn zeta.
  - cbn. rewrite Hmuts. split; [done|]. split; [done|]. split; by eexists.
  - left. rewrite Hret, Hp. work_tac.
  - cbn. split; [done|]. split; [done|]. split; [by eexists|done].
  - right. rewrite Hret, Hp. split; [work_tac|].
    pose proof (loans_positive _ _ _ _ _ _ _ _ _ _ Hi Hnone) as Hpos.
    unfold prod_waits, no_muts, same, to_empty, to_loan. cbn. rewrite Hp, Hidle, Hret.
    rewrite (loans_at _ _ _ _ _ _ _ _ _ _ Hi). unfold loans at 1. cbn. rewrite Hcount.
    repeat split; try done.
Qed.


Lemma step_write_ok s i : good s -> prod s = PWrite i -> prod_step_ok s (step_producer s).
Proof using Type.
  intros Hg Hp. pose proof Hg as [(cl & ch & n1 & n2 & free & live & q & r & vs & Hi) Hpo _].
  rewrite Hp in Hpo. destruct Hpo as (Hlt & Hsent & [last Hidle] & [m Hmuts]).
  unfold step_producer. rewrite Hp.
  destruct (pt_write_ok zero pub sub k cap _ _ _ _ _ _ _ _ _ _ _ 0 m (f i) Hi Hidle)
    as (w & He & Hi' & Hw & Hpay); [by rewrite Hmuts|]. unfold exec1. rewrite He.
  apply prod_step_intro; try done.
  - split; [done|]. split; [done|]. split; [by eexists|by exists m].
  - left. rewrite Hp. unfold returned, returned_count. cbn [world set_pub]. rewrite Hw. work_tac.
Qed.

Lemma step_psend_ok s i : good s -> prod s = PSend i -> prod_step_ok s (step_producer s).
Proof using Type.
  intros Hg Hp. pose proof Hg as [(cl & ch & n1 & n2 & free & live & q & r & vs & Hi) Hpo _].
  rewrite Hp in Hpo. destruct Hpo as (Hlt & Hsent & [last Hidle] & m & Hmuts & Hpay).
  unfold step_producer. rewrite Hp.
  destruct (pt_send_ok zero pub sub k cap _ _ _ _ _ _ _ _ _ _ _ 0 m Hi Hidle) as [He Hi'];
    [by rewrite Hmuts|]. unfold exec1. rewrite He. rewrite Hmuts in *.
  apply prod_step_intro; try done.
  - split; [done|]. split; [done|]. split; [done|]. by exists (m_offset m).
  - left. rewrite Hp. change (returned _) with (returned (cfg s)) at 1. work_tac.
Qed.

Lemma step_sending_ok s i : good s -> prod s = PSending i -> prod_step_ok s (step_producer s).
Proof using Type.
  intros Hg Hp. pose proof Hg as [(cl & ch & n1 & n2 & free & live & q & r & vs & Hi) Hpo _].
  rewrite Hp in Hpo. destruct Hpo as (Hlt & Hsent & Hmuts & off & Hpay & Hpc).
  unfold step_producer. rewrite Hp. unfold exec1. cbn [exec].
  destruct (publisher (cfg s)) as [|off' j rest|off' j rest p| | |] eqn:Hpub; try done; subst off'.
  - destruct (run_state_ok pub k cap _ _ _ _ _ _ _ _ _ _ _ _ _ Hi Hpub) as [He Hi']. rewrite He.
    apply prod_step_intro; try done.
    + split; [done|]. split; [done|]. split; [done|]. by exists off.
    + left. rewrite Hp. change (returned _) with (returned (cfg s)) at 1. work_cbn. rewrite Hpub. work_tac.
  - destruct (run_push_ok pub k cap _ _ _ _ _ _ _ _ _ _ _ _ _ _ Hi Hpub)
      as (q' & c' & He & Hi' & Hcase). rewrite He. cbn zeta in Hcase.
    assert (Hret : returned c' = returned (cfg s)).
    { unfold returned, returned_count. rewrite (a_chan _ _ _ _ _ _ _ _ _ _ _ _ _ Hi).
      destruct Hcase as [(p' & _ & ->)|(v & _ & _ & ->)]; cbn;
        by rewrite list_lookup_insert_eq by (eapply lookup_lt_Some, (a_chan _ _ _ _ _ _ _ _ _ _ _ _ _ Hi)). }
    destruct Hcase as [(p' & Hrk & ->)|(v & Hrk & Hm & ->)]; apply prod_step_intro; try done.
    + split; [done|]. split; [done|]. split; [done|]. by exists off.
    + left. rewrite Hp, Hret. work_cbn. rewrite Hpub, Hrk. work_tac.
    + unfold payload_at in Hpay. rewrite (a_cell _ _ _ _ _ _ _ _ _ _ _ _ _ Hi), Hm in Hpay.
      simplify_eq. split; [lia|]. split; [|split; [by eexists|done]].
      by rewrite values_S, <- Hsent.
    + left. rewrite Hp, Hret. work_cbn. rewrite Hpub, Hrk, length_app. work_tac.
Qed.

Lemma step_preclaim_ok s i : good s -> prod s = PReclaim i -> prod_step_ok s (step_producer s).
Proof using Type.
  intros Hg Hp. pose proof Hg as [(cl & ch & n1 & n2 & free & live & q & r & vs & Hi) Hpo _].
  rewrite Hp in Hpo. destruct Hpo as (Hlt & Hsent & [last Hidle] & Hmuts).
  unfold step_producer. rewrite Hp.
  destruct (pt_reclaim_ok zero pub sub k cap _ _ _ _ _ _ _ _ _ _ _ Hi Hidle) as [He Hi'].
  unfold exec1. rewrite He. apply prod_step_intro; try done.
  right. rewrite Hp. change (returned (set_pub _ _ _)) with (returned (cfg s)). split; [work_tac|].
  unfold prod_waits, no_muts, same, to_empty, to_loan. cbn. rewrite Hp, Hidle.
  repeat split; try done.
Qed.

Lemma step_reclaiming_ok s i : good s -> prod s = PReclaiming i -> prod_step_ok s (step_producer s).
Proof using Type.
  intros Hg Hp. pose proof Hg as [(cl & ch & n1 & n2 & free & live & q & r & vs & Hi) Hpo _].
  rewrite Hp in Hpo. destruct Hpo as (Hlt & Hsent & Hmuts & Hpc).
  unfold step_producer. rewrite Hp. unfold exec1. cbn [exec].
  pose proof (a_chan _ _ _ _ _ _ _ _ _ _ _ _ _ Hi) as Hch.
  pose proof (returned_at _ _ _ _ _ _ _ _ _ _ Hi) as Hret0.
  destruct (publisher (cfg s)) as [| | |j rest p|off j rest|] eqn:Hpub; try done.
  - destruct (run_reclaim_ok pub k cap _ _ _ _ _ _ _ _ _ _ _ _ _ Hi Hpub)
      as (q' & c' & He & Hi' & Hcase). rewrite He. cbn zeta in Hcase.
    assert (Hret : returned c' = SpscQueue.len q').
    { unfold returned, returned_count.
      destruct Hcase as [(p' & _ & _ & ->)|[(_ & _ & _ & ->)|(o & _ & _ & ->)]]; cbn;
        by rewrite list_lookup_insert_eq by (by eapply lookup_lt_Some). }
    pose proof (a_pub _ _ _ _ _ _ _ _ _ _ _ _ _ Hi) as Hbusy. rewrite Hpub in Hbusy.
    destruct Hbusy as (_ & _ & Hbusy).
    destruct Hcase as [(p' & Hrk & Hlen & ->)|[(Hrk & -> & Hlen & ->)|(o & Hrk & Hlen & ->)]];
      apply prod_step_intro; try done.
    + rewrite Hp, Hret, Hret0, Hlen. destruct (decide (pop_rank p = 0)) as [H0|Hne].
      * right. split; [work_cbn; rewrite Hpub, Hrk, H0; work_tac|].
        destruct p; try done. destruct p'; cbn in Hrk; try lia.
        unfold prod_waits, no_muts, same, to_empty, to_loan. cbn [cfg]. rewrite Hret, Hret0, Hlen. cbn.
        rewrite Hp, Hpub. repeat split; done.
      * left. work_cbn. rewrite Hpub, Hrk. assert (0 <= pop_rank p) by (by destruct p). work_tac.
    + split; [lia|]. split; [done|]. split; [by eexists|done].
    + rewrite Hp, Hret, Hret0, Hlen. right. split; [work_cbn; rewrite Hpub, Hrk; work_tac|].
      destruct p; cbn in Hrk; try lia.
      unfold prod_waits, no_muts, same, to_empty, to_loan. cbn [cfg]. rewrite Hret, Hret0, Hlen. cbn.
      rewrite Hp, Hpub. repeat split; try done. intros [= ->]. lia.
    + left. rewrite Hp, Hret, Hret0. work_cbn. rewrite Hpub. work_tac.
  - destruct (run_free_ok pub k cap _ _ _ _ _ _ _ _ _ _ _ _ _ Hi Hpub)
      as (cl' & c' & He & Hi' & _ & ->). rewrite He. apply prod_step_intro; try done.
    left. rewrite Hp. change (returned (set_pub _ _ _)) with (returned (cfg s)). work_cbn. rewrite Hpub. work_tac.
Qed.

Lemma step_producer_ok s : good s -> prod_step_ok s (step_producer s).
Proof using Hmax.
  intros Hg. destruct (prod s) eqn:Hp.
  - by eapply step_loan_ok.
  - by eapply step_write_ok.
  - by eapply step_psend_ok.
  - by eapply step_sending_ok.
  - by eapply step_preclaim_ok.
  - by eapply step_reclaiming_ok.
  - destruct Hg. by rewrite Hp in *.
Qed.

(** *** The consumer *)

Definition cons_done (s : sys) : Prop := exists acc, cons s = CLoop acc /\ length acc = n.

Definition cons_waits (s s' : sys) : Prop :=
  no_samples (cfg s) /\ no_samples (cfg s') /\ same (cfg s) (cfg s') /\ ~ cons_done s' /\
  (to_pop s = 1%nat -> length (sent (cfg s)) = length (received (cfg s))) /\
  to_pop s' = match to_pop s with 1 => 4 | S m => m | 0 => 0 end%nat.

Definition cons_frame (s s' : sys) : Prop :=
  prod s' = prod s /\ publisher (cfg s') = publisher (cfg s) /\
  muts (cfg s') = muts (cfg s) /\ sent (cfg s') = sent (cfg s) /\
  publishers (world (cfg s')) = publishers (world (cfg s)).

Lemma prod_ok_frame p c c' :
  publisher c' = publisher c -> muts c' = muts c -> sent c' = sent c ->
  publishers (world c') = publishers (world c) -> prod_ok p c -> prod_ok p c'.
Proof using Type.
  intros H1 H2 H3 H4. destruct p; cbn; unfold idle, payload_at; by rewrite ?H1, ?H2, ?H3, ?H4.
Qed.

Lemma prod_work_frame p c c' : publisher c' = publisher c -> prod_work p c' = prod_work p c.
Proof using Type. intros H. destruct p; cbn; by rewrite ?H. Qed.

Definition cons_step_ok (s s' : sys) : Prop :=
  good s' /\ cons_frame s s' /\
  (work s' < work s \/ work s' = work s /\ (s' = s /\ cons_done s \/ cons_waits s s')).

Lemma cons_step_intro s c' p' :
  good s -> inv pub k cap c' -> cons_ok p' c' ->
  publisher c' = publisher (cfg s) -> muts c' = muts (cfg s) -> sent c' = sent (cfg s) ->
  publishers (world c') = publishers (world (cfg s)) ->
  (let s' := mkSys c' (prod s) p' in
   let d := cons_work p' c' - cons_work (cons s) (cfg s) -
            30 * (Z.of_nat (length (received c')) - Z.of_nat (length (received (cfg s)))) +
            10 * (returned c' - returned (cfg s)) in
   d < 0 \/ d = 0 /\ cons_waits s s') ->
  cons_step_ok s (mkSys c' (prod s) p').
Proof using Type.
  intros [Hi Hp Hc] Hi' Hp' Hs Hm Hx Hr Hw. split; [split; cbn; try done|].
  - by eapply prod_ok_frame.
  - split; [done|]. unfold work. cbn [cfg prod cons] in *. rewrite (prod_work_frame _ _ _ Hs), Hx.
    destruct Hw as [Hw|[Hw Hp2]]; [left; lia|right]. split; [lia|by right].
Qed.

Lemma step_loop_ok s acc : good s -> cons s = CLoop acc -> cons_step_ok s (step_consumer s).
Proof using Hconn.
  intros Hg Hp. pose proof Hg as [(cl & ch & n1 & n2 & free & live & q & r & vs & Hi) _ Hco].
  rewrite Hp in Hco. destruct Hco as (Hle & Hrecv & [last Hidle] & Hsam).
  unfold step_consumer. rewrite Hp. destruct (Nat.ltb_spec (length acc) n) as [Hlt|Hge].
  2: { split; [done|]. split; [done|]. right. split; [done|left]. split; [done|].
       exists acc. split; [done|lia]. }
  destruct (pt_receive_ok zero pub sub k cap Hconn _ _ _ _ _ _ _ _ _ _ _ Hi Hidle) as [He Hi'].
  unfold exec1. rewrite He. apply cons_step_intro; try done.
  right. rewrite Hp. change (returned (set_sub _ _ _)) with (returned (cfg s)). split; [work_tac|].
  unfold cons_waits, no_samples, same, to_pop. cbn. rewrite Hp, Hidle.
  repeat split; try done. by intros (? & ? & ?).
Qed.

Lemma step_receiving_ok s acc : good s -> cons s = CReceiving acc -> cons_step_ok s (step_consumer s).
Proof using Type.
  intros Hg Hp. pose proof Hg as [(cl & ch & n1 & n2 & free & live & q & r & vs & Hi) _ Hco].
  rewrite Hp in Hco. destruct Hco as (Hlt & Hrecv & Hsam & Hpc).
  unfold step_consumer. rewrite Hp. unfold exec1. cbn [exec].
  pose proof (a_chan _ _ _ _ _ _ _ _ _ _ _ _ _ Hi) as Hch.
  destruct (subscriber (cfg s)) as [|conn rest| | |conn rest p| |] eqn:Hsub; try done.
  - destruct (run_sub_state_ok pub k cap _ _ _ _ _ _ _ _ _ _ _ _ Hi Hsub) as [He Hi']. rewrite He.
    apply cons_step_intro; try done.
    right. rewrite Hp. change (returned (set_sub _ _ _)) with (returned (cfg s)).
    split; [work_cbn; rewrite Hsub; work_tac|].
    unfold cons_waits, no_samples, same, to_pop. cbn. rewrite Hp, Hsub.
    repeat split; try done. by intros (? & ? & ?).
  - destruct (run_receive_ok pub k cap _ _ _ _ _ _ _ _ _ _ _ _ _ Hi Hsub)
      as (q' & c' & He & Hi' & Hcase). rewrite He. cbn zeta in Hcase.
    assert (Hret : returned c' = returned (cfg s)).
    { unfold returned, returned_count. rewrite Hch.
      destruct Hcase as [(p' & _ & ->)|[(_ & _ & ->)|(x & v & _ & ->)]]; cbn;
        by rewrite list_lookup_insert_eq by (by eapply lookup_lt_Some). }
    pose proof (a_sub _ _ _ _ _ _ _ _ _ _ _ _ _ Hi) as Hbusy. rewrite Hsub in Hbusy.
    destruct Hbusy as (_ & _ & Hbusy).
    destruct Hcase as [(p' & Hrk & ->)|[(Hrk & -> & ->)|(x & v & Hrk & ->)]];
      apply cons_step_intro; try done.
    + rewrite Hp, Hret. destruct (decide (pop_rank p = 0)) as [H0|Hne].
      * right. split; [work_cbn; rewrite Hsub, Hrk, H0; work_tac|].
        destruct p; try done. destruct p'; cbn in Hrk; try lia.
        unfold cons_waits, no_samples, same, to_pop. cbn [cfg]. rewrite Hret. cbn.
        rewrite Hp, Hsub. repeat split; try done. by intros (? & ? & ?).
      * left. work_cbn. rewrite Hsub, Hrk. assert (0 <= pop_rank p) by (by destruct p). work_tac.
    + split; [lia|]. split; [done|]. split; [by eexists|done].
    + rewrite Hp, Hret. right. split; [work_cbn; rewrite Hsub, Hrk; work_tac|].
      destruct p; cbn in Hrk; try lia.
      destruct (PubSubSafe.ck_values _ _ _ _ _ _ _ _ _ _ _ _ (a_ok _ _ _ _ _ _ _ _ _ _ _ _ _ Hi))
        as [Hsent Hf]. apply Forall2_nil_inv_l in Hf. rewrite Hf, app_nil_r in Hsent.
      unfold cons_waits, no_samples, same, to_pop. cbn [cfg]. rewrite Hret. cbn.
      rewrite Hp, Hsub, Hsent. repeat split; try done. intros (acc' & [= <-] & Hacc). lia.
    + split; [done|]. split; [by eexists|]. exists v. cbn. by rewrite Hrecv, Hsam.
    + left. rewrite Hp, Hret. work_cbn. rewrite Hsub, Hrk, length_app. work_tac.
Qed.

Lemma step_read_ok s acc x : good s -> cons s = CRead acc x -> cons_step_ok s (step_consumer s).
Proof using Type.
  intros Hg Hp. pose proof Hg as [Hinv Hpo Hco].
  destruct Hinv as (cl & ch & n1 & n2 & free & live & q & r & vs & Hi).
  rewrite Hp in Hco. destruct Hco as (Hlt & Hidle & v & Hrecv & Hsam).
  assert (Hin : (x, v) ∈ samples (cfg s)) by (rewrite Hsam; left).
  assert (Hread : read (world (cfg s)) x = Ret v).
  { unfold read, deref. rewrite (a_samples _ _ _ _ _ _ _ _ _ _ _ _ _ Hi x v Hin).
    rewrite (a_cell _ _ _ _ _ _ _ _ _ _ _ _ _ Hi). cbn.
    by rewrite (PubSubSafe.ck_samples _ _ _ _ _ _ _ _ _ _ _ _ (a_ok _ _ _ _ _ _ _ _ _ _ _ _ _ Hi) x v Hin). }
  unfold step_consumer. rewrite Hp, Hread. apply cons_step_intro; try done.
  - apply Hg.
  - split; [rewrite length_app; cbn; lia|]. split; [done|]. split; [done|]. by exists x, v.
  - left. rewrite Hp. work_tac.
Qed.

Lemma step_cdrop_ok s acc : good s -> cons s = CDrop acc -> cons_step_ok s (step_consumer s).
Proof using Type.
  intros Hg Hp. pose proof Hg as [(cl & ch & n1 & n2 & free & live & q & r & vs & Hi) _ Hco].
  rewrite Hp in Hco. destruct Hco as (Hle & Hrecv & [last Hidle] & x & v & Hsam).
  unfold step_consumer. rewrite Hp.
  destruct (drop_ok zero pub sub k cap _ _ _ _ _ _ _ _ _ _ _ 0 x v Hi Hidle) as [He Hi'];
    [by rewrite Hsam|]. unfold exec1. rewrite He. rewrite Hsam in *. apply cons_step_intro; try done.
  left. rewrite Hp. change (returned (set_sub _ _ _)) with (returned (cfg s)). work_tac.
Qed.

Lemma step_cdropping_ok s acc : good s -> cons s = CDropping acc -> cons_step_ok s (step_consumer s).
Proof using Type.
  intros Hg Hp. pose proof Hg as [(cl & ch & n1 & n2 & free & live & q & r & vs & Hi) _ Hco].
  rewrite Hp in Hco. destruct Hco as (Hle & Hrecv & Hsam & Hpc).
  unfold step_consumer. rewrite Hp. unfold exec1. cbn [exec].
  pose proof (a_chan _ _ _ _ _ _ _ _ _ _ _ _ _ Hi) as Hch.
  pose proof (returned_at _ _ _ _ _ _ _ _ _ _ Hi) as Hret0.
  destruct (subscriber (cfg s)) as [| | | | |x p|] eqn:Hsub; try done.
  destruct (run_return_ok pub k cap _ _ _ _ _ _ _ _ _ _ _ _ Hi Hsub)
    as (q' & c' & He & Hi' & Hcase). rewrite He. cbn zeta in Hcase.
  assert (Hret : returned c' = SpscQueue.len q').
  { unfold returned, returned_count.
    destruct Hcase as [(p' & _ & _ & ->)|(_ & _ & ->)]; cbn;
      by rewrite list_lookup_insert_eq by (by eapply lookup_lt_Some). }
  destruct Hcase as [(p' & Hrk & Hlen & ->)|(Hrk & Hlen & ->)]; apply cons_step_intro; try done.
  - left. rewrite Hp, Hret, Hret0, Hlen. work_cbn. rewrite Hsub, Hrk. work_tac.
  - split; [done|]. split; [done|]. split; [by eexists|done].
  - left. rewrite Hp, Hret, Hret0, Hlen. work_cbn. rewrite Hsub, Hrk. work_tac.
Qed.

Lemma step_consumer_ok s : good s -> cons_step_ok s (step_consumer s).
Proof using Hconn.
  intros Hg. destruct (cons s) eqn:Hp.
  - by eapply step_loop_ok.
  - by eapply step_receiving_ok.
  - by eapply step_read_ok.
  - by eapply step_cdrop_ok.
  - by eapply step_cdropping_ok.
  - destruct Hg. by rewrite Hp in *.
Qed.

(** ** Fair schedules *)

Lemma good_step t s : good s -> good (step t s) /\ work (step t s) <= work s.
Proof using Hconn Hmax.
  intros Hg. destruct t; cbn [step].
  - destruct (step_producer_ok s Hg) as (H1 & _ & H2). split; [done|lia].
  - destruct (step_consumer_ok s Hg) as (H1 & _ & H2). split; [done|lia].
Qed.

Lemma good_run sched s : good s -> good (run sched s) /\ work (run sched s) <= work s.
Proof using Hconn Hmax.
  revert s. induction sched as [|t sched IH]; intros s Hg; [split; [done|cbn; lia]|].
  destruct (good_step t s Hg) as [Hg1 Hw]. destruct (IH _ Hg1) as [Hg2 Hw2].
  split; [exact Hg2|]. change (run (t :: sched) s) with (run sched (step t s)). lia.
Qed.

Lemma sent_received s : good s ->
  exists flight, sent (cfg s) = received (cfg s) ++ flight.
Proof using Type.
  intros [(cl & ch & n1 & n2 & free & live & q & r & vs & []) _ _]. exists vs.
  by destruct (PubSubSafe.ck_values _ _ _ _ _ _ _ _ _ _ _ _ a_ok0).
Qed.

Lemma loops_work_nonneg s : good s -> 0 <= work s.
Proof using Type.
  intros Hg. pose proof Hg as [(cl & ch & n1 & n2 & free & live & q & r & vs & Hi) Hp Hc].
  pose proof (returned_at _ _ _ _ _ _ _ _ _ _ Hi) as Hret. pose proof Hi as [].
  destruct (PubSubSafe.ck_values _ _ _ _ _ _ _ _ _ _ _ _ a_ok0) as [Hsent Hf].
  apply Forall2_length in Hf.
  assert (Hlen : Z.of_nat (length (sent (cfg s))) - Z.of_nat (length (received (cfg s))) =
                 Z.of_nat (length q)) by (rewrite Hsent, length_app; lia).
  unfold work. rewrite Hret, Hlen.
  pose proof (push_rank_bound (send_push (publisher (cfg s)))).
  pose proof (pop_rank_bound (return_pop (publisher (cfg s)))).
  pose proof (push_rank_bound (return_push (subscriber (cfg s)))).
  pose proof (pop_rank_bound (send_pop (subscriber (cfg s)))).
  assert (Hpw : 0 <= prod_work (prod s) (cfg s)).
  { destruct (prod s); cbn -[Z.mul Z.sub Z.add Z.of_nat Z.max push_rank pop_rank] in Hp |- *;
      destruct_and?; try lia; destruct (publisher (cfg s)); cbn [send_push return_pop] in *;
      try done; lia. }
  assert (Hcw : 0 <= cons_work (cons s) (cfg s) + 30 * Z.of_nat (length q)).
  { pose proof (pop_ok_nonempty _ _ _ a_send_pop0) as Hne. rewrite length_fmap in Hne.
    destruct (cons s); cbn -[Z.mul Z.sub Z.add Z.of_nat Z.max push_rank pop_rank] in Hc |- *;
      try lia; destruct (subscriber (cfg s)); cbn [send_pop return_push] in *; try lia. }
  lia.
Qed.

(** A condition that a waiting thread comes to see within [d s] turns holds
    from the start, when the work does not fall meanwhile. *)
Definition turns (t : thread) (sched : list thread) : nat :=
  length (filter (fun t' => t' = t) sched).

Lemma waits_for t (d : sys -> nat) (C : sys -> Prop) :
  (forall s, (1 <= d s)%nat) ->
  (forall s, good s -> work (step t s) = work s -> C s \/ (d (step t s) < d s)%nat) ->
  (forall s t', t' <> t -> good s -> work (step t' s) = work s -> d (step t' s) = d s) ->
  (forall s t', good s -> work (step t' s) = work s -> C (step t' s) -> C s) ->
  forall sched s, good s -> work (run sched s) = work s -> (d s <= turns t sched)%nat -> C s.
Proof using Hconn Hmax.
  intros H0 H1 H2 H3 sched. induction sched as [|t' sched IH]; intros s Hg Hw Hd.
  { specialize (H0 s). unfold turns in Hd. cbn in Hd. lia. }
  change (run (t' :: sched) s) with (run sched (step t' s)) in Hw.
  destruct (good_step t' s Hg) as [Hg1 Hw1]. destruct (good_run sched _ Hg1) as [_ Hw2].
  assert (Hc : work (step t' s) = work s) by lia.
  unfold turns in *. rewrite filter_cons in Hd. case_decide as Ht.
  - subst t'. destruct (H1 s Hg Hc) as [|Hlt]; [done|]. apply (H3 s t Hg Hc), IH; [done|lia|].
    cbn in Hd. lia.
  - apply (H3 s t' Hg Hc), IH; [done|lia|]. by rewrite (H2 s t' Ht Hg Hc).
Qed.

Definition prod_done (s : sys) : Prop := prod s = PLoan n.
Definition finished (s : sys) : Prop := prod_done s /\ cons_done s.

(** What the loops see while they wait. *)
Definition sees_empty (s : sys) : Prop := prod_done s \/ no_muts (cfg s) /\ returned (cfg s) = 0.
Definition sees_loans (s : sys) : Prop := prod_done s \/ no_muts (cfg s) /\ 0 < loans (cfg s).
Definition sees_none (s : sys) : Prop :=
  cons_done s \/
  no_samples (cfg s) /\ length (sent (cfg s)) = length (received (cfg s)).

Lemma wait_same t s : good s -> work (step t s) = work s -> same (cfg s) (cfg (step t s)).
Proof using Hconn Hmax.
  intros Hg Hw. destruct t; cbn [step] in *.
  - destruct (step_producer_ok s Hg) as (_ & _ & [|(_ & [[-> _]|(_ & _ & ? & _)])]); [lia|done|done].
  - destruct (step_consumer_ok s Hg) as (_ & _ & [|(_ & [[-> _]|(_ & _ & ? & _)])]); [lia|done|done].
Qed.

Lemma wait_prod_done t s :
  good s -> work (step t s) = work s -> prod_done (step t s) -> prod_done s.
Proof using Hconn Hmax.
  intros Hg Hw. unfold prod_done. destruct t; cbn [step] in *.
  - destruct (step_producer_ok s Hg) as (_ & _ & [|(_ & [[_ ?]|(_ & _ & _ & ? & _)])]); [lia|done|done].
  - destruct (step_consumer_ok s Hg) as (_ & (-> & _) & _). done.
Qed.

Lemma wait_cons_done t s :
  good s -> work (step t s) = work s -> cons_done (step t s) -> cons_done s.
Proof using Hconn Hmax.
  intros Hg Hw. unfold cons_done. destruct t; cbn [step] in *.
  - destruct (step_producer_ok s Hg) as (_ & (-> & _) & _). done.
  - destruct (step_consumer_ok s Hg) as (_ & _ & [|(_ & [[_ ?]|(_ & _ & _ & ? & _)])]); [lia|done|done].
Qed.

Lemma wait_no_muts t s :
  good s -> work (step t s) = work s -> no_muts (cfg (step t s)) -> prod_done s \/ no_muts (cfg s).
Proof using Hconn Hmax.
  intros Hg Hw. destruct t; cbn [step] in *.
  - destruct (step_producer_ok s Hg) as (_ & _ & [|(_ & [[_ ?]|(? & _)])]); [lia|by left|by right].
  - destruct (step_consumer_ok s Hg) as (_ & (_ & H1 & H2 & _) & _). unfold no_muts.
    rewrite H1, H2. by right.
Qed.

Lemma wait_no_samples t s :
  good s -> work (step t s) = work s -> no_samples (cfg (step t s)) ->
  cons_done s \/ no_samples (cfg s).
Proof using Hconn Hmax.
  intros Hg Hw. destruct t; cbn [step] in *.
  - destruct (step_producer_ok s Hg) as (_ & (_ & H1 & H2 & _) & _). unfold no_samples.
    rewrite H1, H2. by right.
  - destruct (step_consumer_ok s Hg) as (_ & _ & [|(_ & [[_ ?]|(? & _)])]); [lia|by left|by right].
Qed.

Lemma to_pos s : (1 <= to_empty s /\ 1 <= to_loan s /\ 1 <= to_pop s)%nat.
Proof using Type.
  unfold to_empty, to_loan, to_pop.
  destruct (prod s), (cons s), (publisher (cfg s)), (subscriber (cfg s));
    repeat (case_match; try lia); lia.
Qed.

Lemma producer_sees_empty s sched :
  good s -> work (run sched s) = work s -> (4 <= turns Producer sched)%nat -> sees_empty s.
Proof using Hconn Hmax.
  intros Hg Hw Ht. apply (waits_for Producer to_empty sees_empty) with sched; try done.
  - intros s'. apply to_pos.
  - intros s' Hg' Hw'. cbn [step] in *.
    destruct (step_producer_ok s' Hg') as (_ & _ & [Hlt|(_ & [[_ Hd]|Hwait])]); [lia|by left; left|].
    destruct Hwait as (Hn & _ & _ & _ & He & He' & _). rewrite He'.
    pose proof (to_pos s') as [Hpos _].
    destruct (to_empty s') as [|[|m]]; [lia|left; right; auto|right; lia].
  - intros s' [] Hne Hg' _; [done|]. cbn [step].
    destruct (step_consumer_ok s' Hg') as (_ & (Hp & Hpub & _) & _). unfold to_empty. by rewrite Hp, Hpub.
  - intros s' t' Hg' Hw' [Hd|[Hn Hr]]; [left; by eapply wait_prod_done|].
    destruct (wait_no_muts _ _ Hg' Hw' Hn) as [|Hn']; [by left|right]. split; [done|].
    destruct (wait_same _ _ Hg' Hw') as (_ & <- & _). done.
  - unfold to_empty. destruct (prod s); try lia. case_match; try lia. case_match; lia.
Qed.

Lemma producer_sees_loans s sched :
  good s -> work (run sched s) = work s -> (4 <= turns Producer sched)%nat -> sees_loans s.
Proof using Hconn Hmax.
  intros Hg Hw Ht. apply (waits_for Producer to_loan sees_loans) with sched; try done.
  - intros s'. apply to_pos.
  - intros s' Hg' Hw'. cbn [step] in *.
    destruct (step_producer_ok s' Hg') as (_ & _ & [Hlt|(_ & [[_ Hd]|Hwait])]); [lia|by left; left|].
    destruct Hwait as (Hn & _ & _ & _ & _ & _ & He & He'). rewrite He'.
    pose proof (to_pos s') as (_ & Hpos & _).
    destruct (to_loan s') as [|[|m]]; [lia|left; right; auto|right; lia].
  - intros s' [] Hne Hg' _; [done|]. cbn [step].
    destruct (step_consumer_ok s' Hg') as (_ & (Hp & Hpub & _) & _). unfold to_loan. by rewrite Hp, Hpub.
  - intros s' t' Hg' Hw' [Hd|[Hn Hr]]; [left; by eapply wait_prod_done|].
    destruct (wait_no_muts _ _ Hg' Hw' Hn) as [|Hn']; [by left|right]. split; [done|].
    destruct (wait_same _ _ Hg' Hw') as (<- & _). done.
  - unfold to_loan. destruct (prod s); try lia. case_match; try lia. case_match; lia.
Qed.

Lemma consumer_sees_none s sched :
  good s -> work (run sched s) = work s -> (4 <= turns Consumer sched)%nat -> sees_none s.
Proof using Hconn Hmax.
  intros Hg Hw Ht. apply (waits_for Consumer to_pop sees_none) with sched; try done.
  - intros s'. apply to_pos.
  - intros s' Hg' Hw'. cbn [step] in *.
    destruct (step_consumer_ok s' Hg') as (_ & _ & [Hlt|(_ & [[_ Hd]|Hwait])]); [lia|by left; left|].
    destruct Hwait as (Hn & _ & _ & _ & He & He'). rewrite He'.
    pose proof (to_pos s') as (_ & _ & Hpos).
    destruct (to_pop s') as [|[|m]]; [lia|left; right; auto|right; lia].
  - intros s' [] Hne Hg' _; [|done]. cbn [step].
    destruct (step_producer_ok s' Hg') as (_ & (Hp & Hpub & _) & _). unfold to_pop. by rewrite Hp, Hpub.
  - intros s' t' Hg' Hw' [Hd|[Hn Hr]]; [left; by eapply wait_cons_done|].
    destruct (wait_no_samples _ _ Hg' Hw' Hn) as [|Hn']; [by left|right]. split; [done|].
    destruct (wait_same _ _ Hg' Hw') as (_ & _ & <- & <-). done.
  - unfold to_pop. destruct (cons s); try lia. case_match; try lia. case_match; lia.
Qed.

(** How many values each side has handled. *)
Lemma prod_ok_sent p c :
  prod_ok p c -> (length (sent c) <= n)%nat /\ (p = PLoan n \/ (length (sent c) < n)%nat).
Proof using Type.
  destruct p as [i|i|i|i|i|i|]; cbn; try done; intros (Hi & -> & _); rewrite length_values;
    (split; [lia|]); try (right; lia).
  destruct (decide (i = n)) as [->|]; [by left|right; lia].
Qed.

Lemma cons_ok_received p c :
  cons_ok p c ->
  (exists acc, p = CLoop acc /\ length acc = n) \/ (length (received c) < n)%nat \/
  samples c <> [] \/ returning (subscriber c) <> [].
Proof using Type.
  destruct p as [acc|acc|acc x|acc|acc|]; cbn; try done.
  - intros (Hl & -> & _). destruct (decide (length acc = n)); [left; eauto|right; left; lia].
  - intros (Hl & -> & _). right; by left.
  - intros (_ & _ & v & _ & ->). by right; right; left.
  - intros (_ & _ & _ & x & v & ->). by right; right; left.
  - intros (_ & _ & _ & Hs). destruct (subscriber c); try done. by right; right; right.
Qed.

(** In a round that gives each thread four turns something gets done: both
    loops cannot wait, since the chunk that the producer waits for would be on
    its way to the consumer or back. *)
Lemma round_progress s sched :
  good s -> (4 <= turns Producer sched)%nat -> (4 <= turns Consumer sched)%nat ->
  work (run sched s) < work s \/ finished s.
Proof using Hconn Hmax.
  intros Hg Hp Hc. destruct (good_run sched s Hg) as [_ Hw].
  destruct (decide (work (run sched s) = work s)) as [He|]; [right|left; lia].
  pose proof (producer_sees_empty _ _ Hg He Hp) as Hempty.
  pose proof (producer_sees_loans _ _ Hg He Hp) as Hpos.
  pose proof (consumer_sees_none _ _ Hg He Hc) as Hnone.
  destruct Hg as [(cl & ch & n1 & n2 & free & live & q & r & vs & Hi) Hpo Hco].
  pose proof (returned_at _ _ _ _ _ _ _ _ _ _ Hi) as Hret.
  pose proof (loans_at _ _ _ _ _ _ _ _ _ _ Hi) as Hloans. pose proof Hi as [].
  destruct (PubSubSafe.ck_values _ _ _ _ _ _ _ _ _ _ _ _ a_ok0) as [Hsent Hf].
  apply Forall2_length in Hf. apply (f_equal length) in Hsent. rewrite length_app in Hsent.
  pose proof (prod_ok_sent _ _ Hpo) as [Hle Hdone].
  pose proof (cons_ok_received _ _ Hco) as Hrecv.
  destruct Hnone as [Hcd|[[Hx Hr] Hlen]].
  - split; [|done]. destruct Hdone as [|Hlt]; [done|]. destruct Hcd as (acc & Hcs & Hacc).
    rewrite Hcs in Hco. destruct Hco as (_ & Hrv & _). rewrite Hrv in Hsent. lia.
  - destruct Hempty as [Hd|[(Hm1 & Hm2 & Hm3) Hr0]], Hpos as [Hd'|[_ Hpos]]; [split; [done|]..|].
    1-3: destruct Hrecv as [Hcd|[Hlt|Hne]]; [done| |by destruct Hne as [Hne|Hne]; [rewrite Hx in Hne|rewrite Hr in Hne]].
    1-3: exfalso; (rewrite Hd in Hpo || rewrite Hd' in Hpo); destruct Hpo as (_ & Hse & _);
      rewrite Hse, length_values in Hlen; lia.
    exfalso. pose proof (PubSubSafe.ck_length _ _ _ _ _ _ _ _ _ _ _ _ a_ok0) as Hl.
    rewrite (PubSubSafe.ck_loans _ _ _ _ _ _ _ _ _ _ _ _ a_ok0) in Hloans.
    rewrite !length_app, length_fmap, Hm1, Hm2, Hm3, Hx, Hr in Hl. cbn in Hl. lia.
Qed.

Lemma finished_step t s : finished s -> step t s = s.
Proof using Type.
  intros [Hp (acc & Hc & Hl)]. destruct t; cbn [step].
  - unfold step_producer. rewrite Hp. by rewrite (proj2 (Nat.ltb_ge n n)).
  - unfold step_consumer. rewrite Hc. by rewrite (proj2 (Nat.ltb_ge _ n)) by lia.
Qed.

Lemma loops_finished_run sched s : finished s -> run sched s = s.
Proof using Type.
  intros Hf. induction sched as [|t sched IH]; [done|].
  change (run (t :: sched) s) with (run sched (step t s)). by rewrite finished_step.
Qed.

Definition fair (sched : list thread) : Prop :=
  (4 <= turns Producer sched)%nat /\ (4 <= turns Consumer sched)%nat.

Lemma rounds_finish rounds s :
  good s -> Forall fair rounds -> work s < Z.of_nat (length rounds) ->
  finished (run (concat rounds) s).
Proof using Hconn Hmax.
  intros Hg Hf. revert s Hg. induction Hf as [|r rounds [Hp Hc] _ IH]; intros s Hg Hw; cbn in Hw.
  { pose proof (loops_work_nonneg s Hg). lia. }
  cbn [concat]. unfold run. rewrite foldl_app. fold (run r s). destruct (good_run r s Hg) as [Hg' _].
  destruct (round_progress s r Hg Hp Hc) as [Hlt|Hfin].
  - apply IH; [done|lia].
  - rewrite (loops_finished_run r s Hfin). fold (run (concat rounds) s). by rewrite (loops_finished_run _ s Hfin).
Qed.
End invariant.

(** ** [reclaim] when nothing is out but what was returned *)
Lemma reclaim_returned fuel (w : World T) cl k sv rv free live r vs :
  publishers w !! p_cell pub = Some cl -> channels cl = [k] ->
  PubSubSafe.cell_ok (chans w) cl [] [] [] sv rv free live [] r vs -> (length r < fuel)%nat ->
  exists w' cl', reclaim_channel fuel w (p_cell pub) k = Ret w' /\
    publishers w' !! p_cell pub = Some cl' /\ active_loans cl' = 0 /\
    DataSegment.available (segment cl') = DataSegment.chunk_count (segment cl').
Proof.
  revert fuel w cl free live. induction r as [|o r IH]; intros [|fuel] w cl free live Hcl Hck Hok Hf;
    try (cbn in Hf; lia);
    pose proof (PubSubSafe.ck_chan _ _ _ _ _ _ _ _ _ _ _ _ Hok) as Hchan; rewrite Hck in Hchan;
    destruct Hchan as (ch & cap & Hch & Hrep & Hcap & Hst & _);
    pose proof (ZeroCopyChannel.chan_reclaim _ _ _ _ Hrep) as Hrc;
    cbn [reclaim_channel]; unfold deref at 1; rewrite Hch; cbn [obind].
  - rewrite Hrc. cbn. eexists _, cl. split; [done|]. split; [exact Hcl|].
    pose proof (PubSubSafe.ck_rep _ _ _ _ _ _ _ _ _ _ _ _ Hok) as Hr.
    pose proof (PubSubSafe.ck_length _ _ _ _ _ _ _ _ _ _ _ _ Hok) as Hl. cbn in Hl.
    pose proof (DataSegment.ds_length _ _ _ Hr).
    rewrite (PubSubSafe.ck_loans _ _ _ _ _ _ _ _ _ _ _ _ Hok). split; [lia|].
    destruct (DataSegment.ds_counts _ _ _ Hr) as [_ ->]. lia.
  - destruct Hrc as (ch' & Hrc & Hrep' & Hst'). rewrite Hrc. cbn [obind].
    assert (Hst2 : ZeroCopyChannel.state ch' = Connected)
      by (unfold ZeroCopyChannel.state in *; by rewrite Hst').
    pose proof (PubSubSafe.ck_taken_back _ _ _ _ _ _ _ _ _ _ _ _ Hok k ch' cap o r Hck eq_refl
      Hrep' Hcap Hst2) as Hok1.
    change (publishers (with_chan w k ch')) with (publishers w).
    unfold deref. rewrite Hcl. cbn [obind].
    destruct (PubSubSafe.ck_chunk _ _ _ _ _ _ _ _ _ _ _ _ Hok1 o) as (j & Hj & Ho).
    { cbn. rewrite elem_of_app. right. by left. }
    apply elem_of_Permutation in Hj as [live' Hlive].
    pose proof (DataSegment.ds_rep_perm _ _ _ _ (PubSubSafe.ck_rep _ _ _ _ _ _ _ _ _ _ _ _ Hok1) Hlive) as Hr.
    destruct (DataSegment.ds_deallocate_some _ _ _ _ Hr) as (seg & Hd & Hr' & Hcs & Hseg).
    rewrite Ho, Hd. cbn [obind].
    assert (Hcc : DataSegment.chunk_count seg = DataSegment.chunk_count (segment cl))
      by (by rewrite Hseg).
    eapply (IH _ _ (with_loans (with_segment cl seg) (wrapping_sub 64 (active_loans cl) 1)));
      [|exact Hck| |cbn in Hf; lia].
    + cbn. apply list_lookup_insert_eq. by eapply lookup_lt_Some.
    + eapply (PubSubSafe.ck_give_back _ _ _ _ _ _ _ _ _ _ _ _ Hok1 o j); try done.
      * cbn. by rewrite app_nil_r, <- Permutation_cons_append.
      * rewrite Hck. exists ch', cap. split; [|done].
        apply list_lookup_insert_eq. by eapply lookup_lt_Some.
Qed.
End loops.

(** ** The two threads of one service *)
Section connected.
Context {P : Posix} {T : Type} (zero : T) (n : nat) (f : nat -> T).
Context (macos : bool) (hash : string -> Z) (size_of : Z) (b : PortBuilder).
Context {V : PosixView} {Sp : PosixSpec} (Hqos : PubSubSafe.qos_ok size_of b).
Context (Hmax : 0 < max_loaned_samples (b_qos b)).
#[local] Abbreviation connected := (connected macos hash size_of b).

Lemma start_good os p s w :
  connected os p s w -> exists cap, connections s = [(p_cell p, 0%nat)] /\ 0 < max_loaned p /\
    good p n f 0 cap (start w) /\ work n 0 (start w) = 40 * Z.of_nat n.
Proof using Hmax Hqos Sp.
  intros Hc. destruct (connected_inv _ _ _ _ Hqos _ _ _ _ Hc) as (Hs & _ & Hm & cap & cl & Hcl & Hi & _).
  exists cap. split; [done|]. split; [lia|].
  assert (Hret : returned_count w 0 = 0).
  { destruct Hc as (w1 & Hp & Hcs). unfold create_subscriber in Hcs.
    unfold create_publisher in Hp. destruct (DataSegment.create _ _ _ _ _ _ _) as [[[]?]| |]; cbn in Hp;
      simplify_eq. cbn in Hcs. by simplify_eq. }
  split; [split|].
  - exact Hi.
  - cbn. split; [lia|]. split; [done|]. split; [by eexists|done].
  - cbn. split; [lia|]. split; [done|]. split; [by eexists|done].
  - unfold work, returned. cbn -[Z.mul Z.of_nat]. rewrite Hret. lia.
Qed.

(** In every interleaving of the two loops nothing panics and no [unwrap]
    meets an error; what has been sent is a prefix of the values, in order, and
    what has been received a prefix of what has been sent. *)
Theorem loops_safe os p s w sched :
  connected os p s w ->
  let st := run zero p s n f sched (start w) in
  prod st <> ProdFailed /\ cons st <> ConsFailed /\
  (forall acc, cons st = CLoop acc -> acc = received (cfg st)) /\
  sent (cfg st) `prefix_of` values f n /\ received (cfg st) `prefix_of` sent (cfg st).
Proof using Hmax Hqos Sp.
  intros Hc. cbn zeta. destruct (start_good _ _ _ _ Hc) as (cap & Hconn & Hm & Hg & _).
  destruct (good_run zero p s n f 0 cap Hconn Hm sched _ Hg) as [Hg' _].
  set (st := run _ _ _ _ _ _ _) in *. pose proof Hg' as [_ Hp Hcs].
  split; [intros E; by rewrite E in Hp|]. split; [intros E; by rewrite E in Hcs|].
  split; [intros acc E; rewrite E in Hcs; by destruct Hcs as (_ & -> & _)|].
  destruct (sent_received _ _ _ _ _ _ Hg') as [fl Hfl]. split; [|by exists fl].
  assert (Hs : exists i, (i <= n)%nat /\ sent (cfg st) = values f i).
  { destruct (prod st) as [i|i|i|i|i|i|]; cbn in Hp; try done; exists i; destruct_and?;
      (split; [lia|done]). }
  destruct Hs as (i & Hi & ->). exists (f <$> seq i (n - i)). unfold values.
  rewrite <- fmap_app. f_equal. replace n with (i + (n - i))%nat at 1 by lia. apply seq_app.
Qed.

(** C13: under every fair schedule (40 rounds per value suffice, a round being
    any run with at least four turns of each thread) both loops end: all [n]
    values have been received in order, and a last [reclaim] returns with every
    chunk free and no loan out. *)
Theorem loops_finish os p s w rounds :
  connected os p s w -> Forall fair rounds -> (40 * n < length rounds)%nat ->
  let st := run zero p s n f (concat rounds) (start w) in
  prod st = PLoan n /\ cons st = CLoop (values f n) /\
  forall fuel, returned_count (world (cfg st)) 0 < Z.of_nat fuel ->
  exists w' cl, reclaim fuel (world (cfg st)) p = Ret w' /\
    publishers w' !! p_cell p = Some cl /\ active_loans cl = 0 /\
    DataSegment.available (segment cl) = DataSegment.chunk_count (segment cl).
Proof using Hmax Hqos Sp.
  intros Hc Hf Hn. cbn zeta. destruct (start_good _ _ _ _ Hc) as (cap & Hconn & Hm & Hg & Hw).
  pose proof (rounds_finish zero p s n f 0 cap Hconn Hm rounds _ Hg Hf ltac:(rewrite Hw; lia)) as Hfin.
  destruct (good_run zero p s n f 0 cap Hconn Hm (concat rounds) _ Hg) as [Hg' _].
  set (st := run _ _ _ _ _ _ _) in *. destruct Hfin as [Hp (acc & Hcs & Hacc)].
  destruct Hg' as [(cl & ch & n1 & n2 & free & live & q & r & vs & Hi) Hpo Hco].
  unfold prod_done in Hp. rewrite Hp in Hpo. destruct Hpo as (_ & Hs & [last Hidle] & Hmuts).
  rewrite Hcs in Hco. destruct Hco as (_ & Hr & [last' Hidle'] & Hsam).
  pose proof (a_ok _ _ _ _ _ _ _ _ _ _ _ _ _ Hi) as Hok.
  rewrite Hidle, Hidle', Hmuts, Hsam in Hok. cbn in Hok.
  destruct (PubSubSafe.ck_values _ _ _ _ _ _ _ _ _ _ _ _ Hok) as [Hsent Hfl].
  assert (vs = []) as ->.
  { apply (f_equal length) in Hsent. rewrite Hs, Hr, length_app, length_values in Hsent.
    destruct vs; [done|cbn in Hsent; lia]. }
  apply Forall2_nil_inv_r in Hfl as ->. rewrite app_nil_r in Hsent.
  split; [done|]. split; [by rewrite Hcs, <- Hr, <- Hsent, Hs|]. intros fuel Hfuel.
  destruct (reclaim_returned p fuel (world (cfg st)) cl 0 (sent (cfg st)) (received (cfg st)) free live r [])
    as (w' & cl' & H1 & H2).
  - apply Hi.
  - apply Hi.
  - exact Hok.
  - pose proof (returned_at _ _ _ _ _ _ _ _ _ _ _ _ _ Hi) as Hret. unfold returned in Hret. lia.
  - exists w', cl'. split; [|done]. unfold reclaim, deref.
    rewrite (a_cell _ _ _ _ _ _ _ _ _ _ _ _ _ Hi). cbn.
    rewrite (a_channels _ _ _ _ _ _ _ _ _ _ _ _ _ Hi). cbn. by rewrite H1.
Qed.
End connected.

(** ** Two concrete schedules *)
Section example.
Import ToyOs.

Definition turn : list thread := [Producer; Consumer].
Definition round : list thread := turn ++ turn ++ turn ++ turn.
Definition example_values (i : nat) : Z := Z.of_nat i + 10.

Lemma round_fair : fair round.
Proof. split; vm_compute; lia. Qed.

(** Strict alternation: three values, of which at most two are out at a time. *)
Definition alternate (m : nat) : option (list Z * list Z * bool) :=
  match example_ports with
  | Some (p, s, w) =>
      let st := run 0 p s 3 example_values (concat (replicate m turn)) (start w) in
      Some (sent (cfg st), received (cfg st),
            match cons st with CLoop acc => (length acc =? 3)%nat | _ => false end)
  | None => None
  end.

Example alternate_half : alternate 20 = Some ([10; 11], [10], false).
Proof. vm_compute. reflexivity. Qed.

Example alternate_all : alternate 60 = Some ([10; 11; 12], [10; 11; 12], true).
Proof. vm_compute. reflexivity. Qed.

Lemma loops_safe_witness :
  exists p s w, example_ports = Some (p, s, w) /\
    let st := run 0 p s 3 example_values (concat (replicate 20 turn)) (start w) in
    prod st <> ProdFailed /\ received (cfg st) `prefix_of` sent (cfg st).
Proof.
  pose proof example_ports_some as Hv.
  destruct example_ports as [[[p s] w]|] eqn:E; [|discriminate Hv].
  exists p, s, w. split; [reflexivity|].
  destruct (loops_safe (P := toy_posix) 0 3 example_values false no_hash 8 PubSubSafe.example_builder
    PubSubSafe.ps_example_qos_ok ltac:(vm_compute; reflexivity) (empty_os 100000) p s w
    (concat (replicate 20 turn)) (example_connected p s w E)) as (H1 & _ & _ & _ & H2).
  split; [exact H1|exact H2].
Defined.

Lemma loops_finish_witness :
  exists p s w, example_ports = Some (p, s, w) /\
    let st := run 0 p s 3 example_values (concat (replicate 121 round)) (start w) in
    prod st = PLoan 3 /\ cons st = CLoop [10; 11; 12].
Proof.
  pose proof example_ports_some as Hv.
  destruct example_ports as [[[p s] w]|] eqn:E; [|discriminate Hv].
  exists p, s, w. split; [reflexivity|].
  destruct (loops_finish (P := toy_posix) 0 3 example_values false no_hash 8 PubSubSafe.example_builder
    PubSubSafe.ps_example_qos_ok ltac:(vm_compute; reflexivity) (empty_os 100000) p s w
    (replicate 121 round) (example_connected p s w E)) as (H1 & H2 & _).
  - apply Forall_replicate, round_fair.
  - rewrite length_replicate. lia.
  - split; [exact H1|exact H2].
Defined.
End example.
End PubSubLoop.
