(* ===== verification/ReqRes.v ===== *)
(** * Request-response
    (crates/entangle/src/service/reqres.rs, port/client.rs, port/server.rs)

    The state shared by the handles of one [ReqResService] and every call on
    them.  As in PubSub.v an [Arc] is an index: [chans] holds all channels,
    [ServerCell] what the server, its registration and its clients share.  The
    segment holds requests and responses: a payload in [memory] is one or the
    other, and reading it at the wrong type is the cast [as_req] or [as_res]. *)
From S2P Require Import Prelude Contracts FreeList IndexSet Spsc PoolAlloc Channel Shm DataSegment.
From S2P Require Import Config Service.
#[local] Open Scope Z_scope.
#[local] Open Scope rust_scope.

Module ReqResPorts.
Import PointerOffset.

(** [ClientWire]. *)
Record ClientWire := mk_wire {
  client_id : NodeId;
  request_channel : nat;
  response_channel : nat;
}.

(** [ServerRegistration] with the contents of its segment. *)
Record ServerCell (Req Res : Type) := mk_server {
  node_id : NodeId;
  segment : DataSegment.DataSegment;
  memory : gmap Z (Req + Res);
  clients : list ClientWire;
}.
Arguments mk_server {Req Res} node_id segment memory clients.
Arguments node_id {Req Res} s.
Arguments segment {Req Res} s.
Arguments memory {Req Res} s.
Arguments clients {Req Res} s.

(** [ReqResWiring] and what it leads to. *)
Record World `{Posix} (Req Res : Type) := mk_world {
  kernel : Os;
  server : option (ServerCell Req Res);
  chans : list ZeroCopyChannel.ZeroCopyChannel;
}.
Arguments mk_world {H Req Res} kernel server chans.
Arguments kernel {H Req Res} w.
Arguments server {H Req Res} w.
Arguments chans {H Req Res} w.

(** [Client], [PendingResponse] and [ActiveRequest]; a [Server] has nothing
    but the registration's references. *)
Record Client := mk_client { c_request : nat; c_response : nat }.
Record PendingResponse := mk_pending { p_response : nat }.
Record ActiveRequest (Req : Type) := mk_active { a_request : Req; a_response : nat }.
Arguments mk_active {Req} a_request a_response.
Arguments a_request {Req} a.
Arguments a_response {Req} a.

(** The fields of [ServerBuilder] and [ClientBuilder]. *)
Record PortBuilder := mk_builder {
  b_service_name : string;
  b_node_id : NodeId;
  b_qos : ReqResQos;
}.

Definition seg_name (service_name : string) (node : NodeId) : string :=
  ("entangle_" ++ safe_name service_name ++ "_reqres_" ++ to_hex 32 node)%string.

Definition chan_at (l : list ZeroCopyChannel.ZeroCopyChannel) (i : nat)
    : outcome ZeroCopyChannel.ZeroCopyChannel :=
  match l !! i with Some c => Ret c | None => Panic end.

Section ports.
Context {P : Posix} {Req Res : Type}.
(** Reading the bytes of the other type. *)
Context (cast_req : Res -> Req) (cast_res : Req -> Res).
#[local] Abbreviation World := (World Req Res).
#[local] Abbreviation ServerCell := (ServerCell Req Res).

Definition as_req (p : Req + Res) : Req := match p with inl r => r | inr x => cast_req x end.
Definition as_res (p : Req + Res) : Res := match p with inl r => cast_res r | inr x => x end.

Definition with_chan (w : World) (k : nat) (c : ZeroCopyChannel.ZeroCopyChannel) : World :=
  mk_world (kernel w) (server w) (<[k := c]> (chans w)).
Definition with_server (w : World) (s : ServerCell) : World :=
  mk_world (kernel w) (Some s) (chans w).
Definition with_segment (s : ServerCell) (g : DataSegment.DataSegment) : ServerCell :=
  mk_server (node_id s) g (memory s) (clients s).
Definition with_memory (s : ServerCell) m : ServerCell :=
  mk_server (node_id s) (segment s) m (clients s).

(** [ServerBuilder::create]: the segment is made before the check that there
    is no server yet. *)
Definition create_server (macos : bool) (hash : string -> Z) (size_req size_res : Z)
    (b : PortBuilder) (w : World) : outcome (result unit IpcError * World) :=
  let chunk_size := Z.max (Z.max size_req size_res) 8 in
  let chunk_count := wrap 32 (Z.max (wrapping_mul 64 (max_pending_requests (b_qos b)) 2) 16) in
  let name := seg_name (b_service_name b) (b_node_id b) in
  let! (r, os) := DataSegment.create macos hash (kernel w) name chunk_size chunk_count 0 in
  match r with
  | Err e => Ret (Err (from e), mk_world os (server w) (chans w))
  | Ok seg =>
      match server w with
      | Some _ =>
          let os := SharedMemory.drop os (DataSegment.shm seg) in
          Ret (Err (from (AlreadyExists (b_service_name b))), mk_world os (server w) (chans w))
      | None =>
          Ret (Ok tt, mk_world os (Some (mk_server (b_node_id b) seg ∅ [])) (chans w))
      end
  end.

(** [ClientBuilder::create]. *)
Definition create_client (b : PortBuilder) (w : World) : result Client IpcError * World :=
  match server w with
  | None => (Err (from (NotFound (b_service_name b))), w)
  | Some s =>
      let capacity := max_pending_requests (b_qos b) in
      let request := ZeroCopyChannel.connect
        (ZeroCopyChannel.new capacity (b_node_id b) (node_id s)) in
      let response := ZeroCopyChannel.connect
        (ZeroCopyChannel.new capacity (node_id s) (b_node_id b)) in
      let n := length (chans w) in
      let wire := mk_wire (b_node_id b) n (S n) in
      let s := mk_server (node_id s) (segment s) (memory s) (clients s ++ [wire]) in
      (Ok (mk_client n (S n)), mk_world (kernel w) (Some s) (chans w ++ [request; response]))
  end.

(** Allocate, write, send: the body of [Client::send] and of [respond].  The
    chunk is not given back when the send fails. *)
Definition post (w : World) (chan : nat) (payload : Req + Res)
    : outcome (result unit PortError * World) :=
  match server w with
  | None => Panic
  | Some s =>
      let! (r, seg) := DataSegment.allocate (segment s) in
      let s := with_segment s seg in
      match r with
      | Err e => Ret (Err (from e), with_server w s)
      | Ok off =>
          let s := with_memory s (<[PointerOffset.offset off := payload]> (memory s)) in
          let w := with_server w s in
          let! ch := chan_at (chans w) chan in
          let! (r, ch) := ZeroCopyChannel.send ch off in
          Ret (map_err Send r, with_chan w chan ch)
      end
  end.

(** [Client::send]. *)
Definition client_send (w : World) (c : Client) (request : Req)
    : outcome (result PendingResponse PortError * World) :=
  let! (r, w) := post w (c_request c) (inl request) in
  Ret (let? _ := r in Ok (mk_pending (c_response c)), w).

(** [ActiveRequest::respond]. *)
Definition respond (w : World) (a : ActiveRequest Req) (response : Res)
    : outcome (result unit PortError * World) :=
  post w (a_response a) (inr response).

(** Receive, copy the payload out, deallocate: the body of [try_receive] and
    of the server's loop. *)
Definition fetch (w : World) (chan : nat)
    : outcome (result (Req + Res) ReceiveError * World) :=
  let! ch := chan_at (chans w) chan in
  let! (r, ch) := ZeroCopyChannel.receive ch in
  let w := with_chan w chan ch in
  match r with
  | Err e => Ret (Err e, w)
  | Ok off =>
      match server w with
      | None => Panic
      | Some s =>
          match memory s !! PointerOffset.offset off with
          | None => Panic
          | Some payload =>
              let! seg := DataSegment.deallocate (segment s) off in
              Ret (Ok payload, with_server w (with_segment s seg))
          end
      end
  end.

(** [PendingResponse::try_receive]. *)
Definition try_receive (w : World) (p : PendingResponse)
    : outcome (result (option Res) PortError * World) :=
  let! (r, w) := fetch w (p_response p) in
  match r with
  | Ok payload => Ret (Ok (Some (as_res payload)), w)
  | Err Empty => Ret (Ok None, w)
  | Err e => Ret (Err (from e), w)
  end.

(** [PendingResponse::receive]: the spinning loop, [fuel] turns of it. *)
Fixpoint receive_response (fuel : nat) (w : World) (p : PendingResponse)
    : outcome (result Res PortError * World) :=
  match fuel with
  | O => OutOfFuel
  | S fuel =>
      let! (r, w) := try_receive w p in
      match r with
      | Ok (Some v) => Ret (Ok v, w)
      | Ok None => receive_response fuel w p
      | Err e => Ret (Err e, w)
      end
  end.

(** [Server::receive]: the first client that has a request. *)
Fixpoint receive_request (w : World) (l : list ClientWire)
    : outcome (result (option (ActiveRequest Req)) PortError * World) :=
  match l with
  | [] => Ret (Ok None, w)
  | wire :: l =>
      let! (r, w) := fetch w (request_channel wire) in
      match r with
      | Ok payload =>
          Ret (Ok (Some (mk_active (as_req payload) (response_channel wire))), w)
      | Err Empty => receive_request w l
      | Err e => Ret (Err (from e), w)
      end
  end.

Definition server_receive (w : World)
    : outcome (result (option (ActiveRequest Req)) PortError * World) :=
  match server w with
  | None => Panic
  | Some s => receive_request w (clients s)
  end.
End ports.

(** ** The service *)
Module ReqResBuilder.

(** [ReqResBuilder<Req, Res>]. *)
Record ReqResBuilder := mk {
  service_name : string;
  config : EntangleConfig;
  node : NodeId;
  qos : ReqResQos;
}.

Definition new (service_name : string) (config : EntangleConfig) (node : NodeId) : ReqResBuilder :=
  mk service_name config node
    {| max_clients := 8; max_servers := 1; max_pending_requests := 16 |}.

Definition with_qos (b : ReqResBuilder) (q : ReqResQos) := mk (service_name b) (config b) (node b) q.
Definition max_clients (b : ReqResBuilder) (n : Z) : ReqResBuilder :=
  with_qos b {| Config.max_clients := n; Config.max_servers := Config.max_servers (qos b);
    Config.max_pending_requests := Config.max_pending_requests (qos b) |}.
Definition max_servers (b : ReqResBuilder) (n : Z) : ReqResBuilder :=
  with_qos b {| Config.max_clients := Config.max_clients (qos b); Config.max_servers := n;
    Config.max_pending_requests := Config.max_pending_requests (qos b) |}.
Definition max_pending_requests (b : ReqResBuilder) (n : Z) : ReqResBuilder :=
  with_qos b {| Config.max_clients := Config.max_clients (qos b);
    Config.max_servers := Config.max_servers (qos b); Config.max_pending_requests := n |}.

Definition static_config (b : ReqResBuilder) (name_req name_res : string)
    (size_req size_res align_req align_res : Z) : StaticConfig.StaticConfig :=
  StaticConfig.new ReqRes (service_name b) (name_req ++ ":" ++ name_res)%string
    (Z.max size_req size_res) (Z.max align_req align_res).

Definition open_or_create {P : Posix} `{FileSystem, Ron} {Req Res : Type}
    (name_req name_res : string) (size_req size_res align_req align_res : Z)
    (b : ReqResBuilder) (fs : Fs) (os : Os)
    : result (PortBuilder * World Req Res) IpcError * Fs :=
  match ServiceLifecycle.open_or_create (ServiceLifecycle.new (shm_root (config b))) fs
          (static_config b name_req name_res size_req size_res align_req align_res) with
  | (Err e, fs) => (Err (from e), fs)
  | (Ok _, fs) => (Ok (mk_builder (service_name b) (node b) (qos b), mk_world os None []), fs)
  end.
End ReqResBuilder.
End ReqResPorts.
