(* ===== verification/ReqResSafe.v ===== *)
(** * What request-response guarantees

    Any number of clients of one service and their server: [system] is the
    shared world with the handles the programs own, [step] one call.  Requests
    and responses travel the same way, so the invariant [links_ok] speaks of
    every channel alike. *)
From S2P Require Import Prelude Contracts FreeList IndexSet Spsc PoolAlloc Channel Shm DataSegment.
From S2P Require Import Config Service ReqRes.
#[local] Open Scope Z_scope.
#[local] Open Scope rust_scope.

Module ReqResSafe.
Import PointerOffset ReqResPorts.

Section safe.
Context {P : Posix} {Req Res : Type} (cast_req : Res -> Req) (cast_res : Req -> Res).
Context (macos : bool) (hash : string -> Z) (size_req size_res : Z) (b : PortBuilder).
#[local] Abbreviation World := (World Req Res).
#[local] Abbreviation ServerCell := (ServerCell Req Res).
#[local] Abbreviation payload := (Req + Res)%type.

(** ** All channels of the service

    [qs] are the offsets in flight on each channel, [lost] those whose send
    failed; [sent] and [got] are the payloads sent and received, by channel. *)
Record links_ok (s : ServerCell) (chs : list ZeroCopyChannel.ZeroCopyChannel)
    (sent got : list (nat * payload)) (lost : list PointerOffset)
    (free live : list Z) (qs : list (list PointerOffset)) : Prop := {
  lk_rep : DataSegment.ds_rep (segment s) free live;
  lk_perm : DataSegment.chunk (segment s) <$> live ≡ₚ concat (id <$> qs) ++ lost;
  lk_length : length qs = length chs;
  lk_chan k ch q : chs !! k = Some ch -> qs !! k = Some q ->
    exists cap vs, ZeroCopyChannel.chan_rep ch cap q [] /\
      ZeroCopyChannel.state ch = Connected /\
      values_of k sent = values_of k got ++ vs /\
      Forall2 (fun o p => memory s !! PointerOffset.offset o = Some p) q vs;
}.

Section links.
Context (s : ServerCell) (chs : list ZeroCopyChannel.ZeroCopyChannel).
Context (sent got : list (nat * payload)) (lost : list PointerOffset).
Context (free live : list Z) (qs : list (list PointerOffset)).
Context (Hok : links_ok s chs sent got lost free live qs).

Lemma lk_chunk o :
  o ∈ concat (id <$> qs) ++ lost -> exists i, i ∈ live /\ o = DataSegment.chunk (segment s) i.
Proof using Hok.
  rewrite <- (lk_perm _ _ _ _ _ _ _ _ Hok), list_elem_of_fmap. intros (i & -> & Hi). eauto.
Qed.

Lemma lk_offset_inj i j :
  i ∈ free ++ live -> j ∈ free ++ live ->
  PointerOffset.offset (DataSegment.chunk (segment s) i)
    = PointerOffset.offset (DataSegment.chunk (segment s) j) -> i = j.
Proof using Hok.
  intros Hi Hj He. pose proof (lk_rep _ _ _ _ _ _ _ _ Hok) as Hr.
  destruct (DataSegment.chunk_fields _ _ _ Hr i Hi) as (Hb & Ho & _).
  destruct (DataSegment.chunk_fields _ _ _ Hr j Hj) as (Hb2 & Ho2 & _).
  pose proof (PoolAllocator.geo_chunk _ (PoolAllocator.pr_geo _ _ _ (DataSegment.dr_pool _ _ _ Hr))).
  pose proof (DataSegment.dr_chunk _ _ _ Hr). nia.
Qed.

Lemma lk_NoDup : NoDup (PointerOffset.offset <$> concat (id <$> qs) ++ lost).
Proof using Hok.
  rewrite <- (lk_perm _ _ _ _ _ _ _ _ Hok), <- list_fmap_compose.
  pose proof (DataSegment.ds_NoDup _ _ _ (lk_rep _ _ _ _ _ _ _ _ Hok)) as Hn.
  apply NoDup_app in Hn as (_ & _ & Hn). apply NoDup_fmap_2_strong; [|done].
  intros i j Hi Hj. apply lk_offset_inj; apply elem_of_app; by right.
Qed.

(** A payload in flight is not at the offset of a free chunk. *)
Lemma lk_free i k q o :
  i ∈ free -> qs !! k = Some q -> o ∈ q ->
  PointerOffset.offset o <> PointerOffset.offset (DataSegment.chunk (segment s) i).
Proof using Hok.
  intros Hi Hk Ho He.
  destruct (lk_chunk o) as (j & Hj & ->).
  { apply elem_of_app. left. by apply (elem_of_concat id qs k q). }
  apply lk_offset_inj in He; [|apply elem_of_app; by right|apply elem_of_app; by left]. subst j.
  pose proof (DataSegment.ds_NoDup _ _ _ (lk_rep _ _ _ _ _ _ _ _ Hok)) as Hn.
  apply NoDup_app in Hn as (_ & Hn & _). by apply (Hn i).
Qed.

(** [post]: allocate, write and send on channel [k]. *)
Lemma lk_post k p i free' seg' ch :
  free = i :: free' -> chs !! k = Some ch ->
  DataSegment.allocate (segment s) = Ret (Ok (DataSegment.chunk (segment s) i), seg') ->
  DataSegment.ds_rep seg' free' (i :: live) ->
  (forall j, DataSegment.chunk seg' j = DataSegment.chunk (segment s) j) ->
  let off := DataSegment.chunk (segment s) i in
  let s' := with_memory (with_segment s seg') (<[PointerOffset.offset off := p]> (memory s)) in
  (exists ch', ZeroCopyChannel.send ch off = Ret (Ok tt, ch') /\
     exists qs', links_ok s' (<[k := ch']> chs) (sent ++ [(k, p)]) got lost free' (i :: live) qs') \/
  (ZeroCopyChannel.send ch off = Ret (Err QueueFull, ch) /\
     links_ok s' chs sent got (off :: lost) free' (i :: live) qs).
Proof using Hok.
  intros Hfree Hk Ha Hr' Hch. cbn zeta. set (off := DataSegment.chunk (segment s) i).
  assert (Hif : i ∈ free) by (rewrite Hfree; left).
  assert (Hkeep : forall k q vs, qs !! k = Some q ->
    Forall2 (fun o p => memory s !! PointerOffset.offset o = Some p) q vs ->
    Forall2 (fun o v => <[PointerOffset.offset off := p]> (memory s) !! PointerOffset.offset o
                        = Some v) q vs).
  { intros k0 q vs Hq Hf. apply Forall2_same_length_lookup. split; [by eapply Forall2_length|].
    intros n o v Ho Hv. rewrite lookup_insert_ne.
    - by eapply (Forall2_lookup_lr _ _ _ n) in Hf.
    - apply not_eq_sym, (lk_free i k0 q o Hif Hq). by eapply list_elem_of_lookup_2. }
  destruct (lookup_lt_is_Some_2 qs k) as [q Hq].
  { rewrite (lk_length _ _ _ _ _ _ _ _ Hok). by eapply lookup_lt_Some. }
  destruct (lk_chan _ _ _ _ _ _ _ _ Hok k ch q Hk Hq) as (cap & vs & Hrep & Hst & Hv & Hf).
  assert (Hchunks : DataSegment.chunk seg' <$> live = DataSegment.chunk (segment s) <$> live)
    by (apply list_fmap_ext; intros; apply Hch).
  destruct (ZeroCopyChannel.chan_send _ _ _ _ Hrep off) as [[Hs Hfull]|(ch' & Hs & Hrep' & Hst' & Hlt)];
    [by rewrite Hst|right|left].
  - split; [done|]. destruct Hok. split; cbn; try done.
    + rewrite Hch, Hchunks, lk_perm0. by rewrite Permutation_middle.
    + intros k0 ch0 q0 Hk0 Hq0. destruct (lk_chan0 k0 ch0 q0 Hk0 Hq0) as (c0 & v0 & ? & ? & ? & ?).
      exists c0, v0. eauto.
  - exists ch'. split; [done|]. exists (<[k := q ++ [off]]> qs). destruct Hok. split; cbn; try done.
    + rewrite Hch, Hchunks, lk_perm0, (concat_insert id qs k q) by done.
      rewrite (concat_lookup id qs k q) by done. cbn.
      rewrite <- !app_assoc. cbn. by rewrite Permutation_middle.
    + by rewrite !length_insert.
    + intros k0 ch0 q0 Hk0 Hq0. destruct (decide (k0 = k)) as [->|Hne].
      * rewrite list_lookup_insert_eq in Hk0 by (by eapply lookup_lt_Some).
        rewrite list_lookup_insert_eq in Hq0 by (by eapply lookup_lt_Some). simplify_eq.
        exists cap, (vs ++ [p]). split; [done|].
        split; [unfold ZeroCopyChannel.state in *; by rewrite Hst'|].
        split; [by rewrite values_of_here, Hv, app_assoc|].
        apply Forall2_app; [by eapply Hkeep|]. constructor; [|constructor].
        by rewrite lookup_insert_eq.
      * rewrite list_lookup_insert_ne in Hk0 by done. rewrite list_lookup_insert_ne in Hq0 by done.
        destruct (lk_chan0 k0 ch0 q0 Hk0 Hq0) as (c0 & v0 & ? & ? & ? & ?).
        exists c0, v0. rewrite values_of_other by done. eauto.
Qed.

(** [fetch]: receive on channel [k], copy out and deallocate. *)
Lemma lk_fetch k ch :
  chs !! k = Some ch ->
  (ZeroCopyChannel.receive ch = Ret (Err Empty, ch) /\ values_of k sent = values_of k got) \/
  exists off p ch' seg', ZeroCopyChannel.receive ch = Ret (Ok off, ch') /\
    memory s !! PointerOffset.offset off = Some p /\
    DataSegment.deallocate (segment s) off = Ret seg' /\
    (k, p) ∈ sent /\
    exists free' live' qs',
      links_ok (with_segment s seg') (<[k := ch']> chs) sent (got ++ [(k, p)]) lost free' live' qs'.
Proof using Hok.
  intros Hk. destruct (lookup_lt_is_Some_2 qs k) as [q Hq].
  { rewrite (lk_length _ _ _ _ _ _ _ _ Hok). by eapply lookup_lt_Some. }
  destruct (lk_chan _ _ _ _ _ _ _ _ Hok k ch q Hk Hq) as (cap & vs & Hrep & Hst & Hv & Hf).
  pose proof (ZeroCopyChannel.chan_receive _ _ _ _ Hrep) as Hrc.
  destruct q as [|off q].
  { left. rewrite Hrc, Hst. split; [done|]. apply Forall2_nil_inv_l in Hf as ->.
    by rewrite Hv, app_nil_r. }
  right. destruct Hrc as (ch' & Hrc & Hrep' & Hst').
  apply Forall2_cons_inv_l in Hf as (p & vs' & Hp & Hf & ->).
  assert (Hin : off ∈ concat (id <$> qs) ++ lost).
  { apply elem_of_app. left. apply (elem_of_concat id qs k (off :: q)); [done|left]. }
  destruct (lk_chunk off Hin) as (i & Hi & Ho). apply elem_of_Permutation in Hi as [live' Hlive].
  pose proof (DataSegment.ds_rep_perm _ _ _ _ (lk_rep _ _ _ _ _ _ _ _ Hok) Hlive) as Hrl.
  destruct (DataSegment.ds_deallocate_some _ _ _ _ Hrl) as (seg' & Hd & Hr' & Hch & _).
  exists off, p, ch', seg'. split; [done|]. split; [done|]. split; [by rewrite Ho|].
  split. { apply elem_of_values. rewrite Hv. apply elem_of_app. right. left. }
  exists (i :: free), live', (<[k := q]> qs). destruct Hok. split; cbn; try done.
  - assert (Hchunks : DataSegment.chunk seg' <$> live' = DataSegment.chunk (segment s) <$> live')
      by (apply list_fmap_ext; intros; apply Hch).
    rewrite Hchunks. apply (Permutation_cons_inv (a := off)).
    rewrite (concat_insert id qs k (off :: q)) by done.
    rewrite (concat_lookup id qs k (off :: q)) in lk_perm0 by done.
    rewrite Hlive in lk_perm0. cbn in lk_perm0 |- *. by rewrite Ho in *.
  - by rewrite !length_insert.
  - intros k0 ch0 q0 Hk0 Hq0. destruct (decide (k0 = k)) as [->|Hne].
    + rewrite list_lookup_insert_eq in Hk0 by (by eapply lookup_lt_Some).
      rewrite list_lookup_insert_eq in Hq0 by (by eapply lookup_lt_Some). simplify_eq.
      exists cap, vs'. split; [done|].
      split; [unfold ZeroCopyChannel.state in *; by rewrite Hst'|].
      split; [by rewrite values_of_here, Hv, <- app_assoc|done].
    + rewrite list_lookup_insert_ne in Hk0 by done. rewrite list_lookup_insert_ne in Hq0 by done.
      destruct (lk_chan0 k0 ch0 q0 Hk0 Hq0) as (c0 & v0 & ? & ? & ? & ?).
      exists c0, v0. rewrite values_of_other by done. eauto.
Qed.
End links.

(** ** The shared world

    Channels are made in pairs: even numbers carry requests, odd ones
    responses. *)
Record core (w : World) (sent got : list (nat * payload)) (lost : list PointerOffset) : Prop := {
  co_cell :
    match server w with
    | None => chans w = [] /\ sent = [] /\ got = [] /\ lost = []
    | Some s => exists free live qs, links_ok s (chans w) sent got lost free live qs
    end;
  co_even : Nat.Even (length (chans w));
  co_kind k p : (k, p) ∈ sent ->
    (k < length (chans w))%nat /\ match p with inl _ => Nat.Even k | inr _ => Nat.Odd k end;
  co_got k p : (k, p) ∈ got -> (k < length (chans w))%nat;
  co_wires s wire : server w = Some s -> wire ∈ clients s ->
    Nat.Even (request_channel wire) /\ response_channel wire = S (request_channel wire) /\
    (response_channel wire < length (chans w))%nat;
}.

(** The chunk that the next allocation gives. *)
Definition next_chunk (w : World) : option PointerOffset :=
  match server w with
  | Some s => match DataSegment.allocate (segment s) with Ret (Ok off, _) => Some off | _ => None end
  | None => None
  end.

Definition same_shape (w w' : World) : Prop :=
  length (chans w') = length (chans w) /\ (is_Some (server w) -> is_Some (server w')).

Section core.
Context (w : World) (sent got : list (nat * payload)) (lost : list PointerOffset).
Context (Hcore : core w sent got lost).

Lemma chan_server k : (k < length (chans w))%nat -> exists s ch, server w = Some s /\ chans w !! k = Some ch.
Proof using Hcore.
  intros Hk. destruct Hcore as [Hc _ _ _ _]. destruct (lookup_lt_is_Some_2 (chans w) k Hk) as [ch Hch].
  destruct (server w) as [s|]; [eauto|]. destruct Hc as [Hc _]. by rewrite Hc in Hch.
Qed.

Lemma post_ok k p :
  (k < length (chans w))%nat ->
  match p with inl _ => Nat.Even k | inr _ => Nat.Odd k end ->
  exists r w', post w k p = Ret (r, w') /\ same_shape w w' /\
  match r with
  | Ok _ => core w' (sent ++ [(k, p)]) got lost
  | Err (Loan OutOfMemory) => core w' sent got lost /\
      exists s, server w = Some s /\ DataSegment.available (segment s) = 0
  | Err (Config.Send QueueFull) => exists off, next_chunk w = Some off /\ core w' sent got (off :: lost)
  | Err _ => False
  end.
Proof using Hcore.
  intros Hk Hkind. destruct (chan_server k Hk) as (s & ch & Hs & Hch).
  pose proof Hcore as [Hc Heven Hkinds Hgot Hwires]. rewrite Hs in Hc.
  destruct Hc as (free & live & qs & Hok). pose proof (lk_rep _ _ _ _ _ _ _ _ Hok) as Hrep.
  unfold post. rewrite Hs. destruct free as [|i free].
  - rewrite (DataSegment.ds_allocate_none _ _ Hrep). cbn [obind]. do 2 eexists. split; [done|].
    assert (Hsame : with_server w (with_segment s (segment s)) = w)
      by (unfold with_server, with_segment; destruct s, w; cbn in *; congruence).
    rewrite Hsame. split; [by split|]. split; [done|]. exists s. split; [done|].
    by destruct (DataSegment.ds_counts _ _ _ Hrep) as [_ ->].
  - destruct (DataSegment.ds_allocate_some _ _ _ _ Hrep) as (seg' & Ha & Hr' & Hchk & _).
    rewrite Ha. cbn [obind chans with_server]. unfold chan_at. rewrite Hch. cbn [obind].
    destruct (lk_post _ _ _ _ _ _ _ _ Hok k p i free seg' ch eq_refl Hch Ha Hr' Hchk)
      as [(ch' & Hsend & qs' & Hok')|[Hsend Hok']]; rewrite Hsend; cbn [obind map_err];
      (do 2 eexists); (split; [done|]).
    + split; [split; cbn; [by rewrite length_insert|by intros _]|]. split; cbn; rewrite ?length_insert; try done.
      * by exists free, (i :: live), qs'.
      * intros j x [Hx|Hx]%elem_of_app; [by apply Hkinds|].
        apply list_elem_of_singleton in Hx as [= -> ->]. done.
      * intros s' wire [= <-]. by apply (Hwires s).
    + split; [split; cbn; [by rewrite length_insert|by intros _]|].
      exists (DataSegment.chunk (segment s) i). split; [unfold next_chunk; by rewrite Hs, Ha|].
      split; cbn; rewrite ?length_insert; try done.
      * rewrite list_insert_id by done. by exists free, (i :: live), qs.
      * intros s' wire [= <-]. by apply (Hwires s).
Qed.

Lemma fetch_ok k :
  (k < length (chans w))%nat ->
  exists r w', fetch w k = Ret (r, w') /\ same_shape w w' /\
  match r with
  | Ok p => (k, p) ∈ sent /\ core w' sent (got ++ [(k, p)]) lost
  | Err Empty => w' = w /\ values_of k sent = values_of k got
  | Err _ => False
  end.
Proof using Hcore.
  intros Hk. destruct (chan_server k Hk) as (s & ch & Hs & Hch).
  pose proof Hcore as [Hc Heven Hkinds Hgot Hwires]. rewrite Hs in Hc.
  destruct Hc as (free & live & qs & Hok).
  unfold fetch, chan_at. rewrite Hch. cbn [obind].
  destruct (lk_fetch _ _ _ _ _ _ _ _ Hok k ch Hch)
    as [[Hr Hv]|(off & p & ch' & seg' & Hr & Hp & Hd & Hin & fr' & lv' & qs' & Hok')];
    rewrite Hr; cbn [obind].
  - assert (Hsame : with_chan w k ch = w).
    { unfold with_chan. rewrite list_insert_id by done. by destruct w. }
    rewrite Hsame. do 2 eexists. split; [done|]. split; [by split|done].
  - cbn [server with_chan]. rewrite Hs, Hp, Hd. cbn [obind]. do 2 eexists. split; [done|].
    split; [split; cbn; [by rewrite length_insert|by intros _]|]. split; [done|].
    split; cbn; rewrite ?length_insert; try done.
    + by exists fr', lv', qs'.
    + intros j x [Hx|Hx]%elem_of_app; [by eapply Hgot|].
      apply list_elem_of_singleton in Hx as [= -> ->]. done.
    + intros s' wire [= <-]. by apply (Hwires s).
Qed.

(** [Server::receive]: which request it is. *)
Lemma receive_request_ok l :
  (forall wire, wire ∈ l -> Nat.Even (request_channel wire) /\
     response_channel wire = S (request_channel wire) /\
     (response_channel wire < length (chans w))%nat) ->
  exists r w', receive_request cast_req w l = Ret (r, w') /\ same_shape w w' /\
  match r with
  | Ok (Some a) => exists k, a_response a = S k /\ (S k < length (chans w))%nat /\ Nat.Even k /\
      (k, inl (a_request a)) ∈ sent /\ core w' sent (got ++ [(k, inl (a_request a))]) lost
  | Ok None => w' = w /\
      forall wire, wire ∈ l -> values_of (request_channel wire) sent = values_of (request_channel wire) got
  | Err _ => False
  end.
Proof using Hcore.
  induction l as [|wire l IH]; intros Hl.
  - exists (Ok None), w. split; [done|]. split; [by split|]. split; [done|].
    by intros wire ?%elem_of_nil.
  - destruct (Hl wire ltac:(left)) as (He & Hresp & Hlt). cbn [receive_request].
    destruct (fetch_ok (request_channel wire)) as (r & w' & -> & Hsh & Hr); [lia|]. cbn [obind].
    destruct r as [p|[|]]; [| |done].
    + destruct Hr as [Hin Hcore']. do 2 eexists. split; [done|]. split; [done|].
      exists (request_channel wire). cbn.
      destruct (co_kind _ _ _ _ Hcore _ _ Hin) as [_ Hkind]. destruct p as [r|x]; cbn.
      * split; [done|]. split; [lia|]. split; [done|]. done.
      * exfalso. by apply (Nat.Even_Odd_False (request_channel wire)).
    + destruct Hr as [-> Hv].
      destruct IH as (r & w1 & -> & Hsh1 & Hr1); [intros; apply Hl; by right|].
      exists r, w1. split; [done|]. split; [done|].
      destruct r as [[a|]|]; [done| |done]. destruct Hr1 as [-> Hall]. split; [done|].
      intros x [->|Hx]%elem_of_cons; [done|eauto].
Qed.
End core.

(** ** Creating ports *)

(** What the service must ask for. *)
Definition qos_ok : Prop :=
  let mp := max_pending_requests (b_qos b) in
  Z.max (Z.max size_req size_res) 8 + 7 < 2 ^ 64 /\ 0 <= mp /\ 2 * mp < 2 ^ 32 /\
  DataSegment.fits_segment (Z.max (Z.max size_req size_res) 8) (Z.max (2 * mp) 16) 0.

Section create.
Context {V : PosixView} {Sp : PosixSpec} (Hqos : qos_ok).
Context (w : World) (sent got : list (nat * payload)) (lost : list PointerOffset).
Context (Hcore : core w sent got lost).

Lemma core_kernel os : core (mk_world os (server w) (chans w)) sent got lost.
Proof using Hcore. by destruct Hcore. Qed.

Lemma create_server_ok :
  exists r w', create_server macos hash size_req size_res b w = Ret (r, w') /\
    core w' sent got lost /\ same_shape w w' /\
    (is_Some (server w) -> exists e, r = Err e) /\ (r = Ok tt -> is_Some (server w')).
Proof using Hcore Hqos Sp.
  destruct Hqos as (Hsz & Hmp & Hmp2 & Hfit). unfold create_server. cbn zeta.
  set (mp := max_pending_requests (b_qos b)) in *.
  assert (Hcount : wrap 32 (Z.max (wrapping_mul 64 mp 2) 16) = Z.max (2 * mp) 16).
  { unfold wrapping_mul. rewrite (wrap_small 64) by (unfold fits; lia).
    rewrite wrap_small by (unfold fits; lia). lia. }
  rewrite Hcount.
  destruct (DataSegment.ds_create_spec macos hash (kernel w)
    (seg_name (b_service_name b) (b_node_id b)) _ _ _ Hsz Hfit) as (r & os & -> & Hr).
  cbn [obind]. destruct r as [seg|e].
  2: { do 2 eexists. split; [done|]. split; [apply core_kernel|]. split; [by split|].
       split; [eauto|done]. }
  destruct Hr as (Hrep & _). destruct (server w) as [s|] eqn:Hs.
  - do 2 eexists. split; [done|]. rewrite <- Hs. split; [apply core_kernel|]. split; [by split|].
    split; [eauto|done].
  - do 2 eexists. split; [done|]. destruct Hcore as [Hc Heven Hkind Hgot Hwires].
    rewrite Hs in Hc. destruct Hc as (Hch & -> & -> & ->). split; [|split; [|split]].
    + split; cbn; try done.
      * exists (seqZ 0 (Z.max (2 * mp) 16)), [], []. split; cbn; try done. by rewrite Hch.
      * intros s wire [= <-] Hw. by apply elem_of_nil in Hw.
    + split; [done|]. by eexists.
    + by intros [].
    + by eexists.
Qed.

Lemma create_client_ok :
  match create_client b w with
  | (Err _, w') => w' = w
  | (Ok c, w') => core w' sent got lost /\ (length (chans w) <= length (chans w'))%nat /\
      is_Some (server w') /\
      Nat.Even (c_request c) /\ c_response c = S (c_request c) /\
      (c_response c < length (chans w'))%nat
  end.
Proof using Hcore Hqos.
  destruct Hqos as (_ & Hmp & Hmp2 & _). unfold create_client.
  destruct (server w) as [s|] eqn:Hs; [|done].
  destruct Hcore as [Hc Heven Hkind Hgot Hwires]. rewrite Hs in Hc.
  destruct Hc as (free & live & qs & Hok). cbn [chans server c_request c_response].
  rewrite length_app. cbn [length].
  split; [|split; [lia|split; [by eexists|split; [done|split; [done|lia]]]]].
  assert (Hnone : forall k, (length (chans w) <= k)%nat ->
    values_of k sent = [] /\ values_of k got = []).
  { intros k Hk. split; apply values_of_none; intros v Hin.
    - apply Hkind in Hin. lia.
    - apply Hgot in Hin. lia. }
  split; cbn; rewrite ?length_app; cbn.
  - exists free, live, (qs ++ [[]; []]). destruct Hok. split; cbn; try done.
    + rewrite fmap_app, concat_app. cbn. by rewrite app_nil_r.
    + rewrite !length_app. cbn. by rewrite lk_length0.
    + intros k ch q Hk Hq. apply lookup_app_Some in Hk as [Hk|[Hge Hk]].
      * rewrite lookup_app_l in Hq by (rewrite lk_length0; by eapply lookup_lt_Some). eauto.
      * rewrite lookup_app_r in Hq by (rewrite lk_length0; lia). rewrite lk_length0 in Hq.
        destruct (Hnone k Hge) as [-> ->].
        destruct (k - length (chans w))%nat as [|[|n]]; cbn in Hk, Hq; [| |by destruct n];
          simplify_eq.
        -- destruct (ZeroCopyChannel.chan_new (max_pending_requests (b_qos b)) (b_node_id b) (node_id s))
             as (_ & [] & _); [lia|]. by eexists _, [].
        -- destruct (ZeroCopyChannel.chan_new (max_pending_requests (b_qos b)) (node_id s) (b_node_id b))
             as (_ & [] & _); [lia|]. by eexists _, [].
  - destruct Heven as [n Hn]. exists (S n). lia.
  - intros k p Hin. destruct (Hkind k p Hin). split; [lia|done].
  - intros k p Hin. specialize (Hgot k p Hin). lia.
  - intros s' wire [= <-]. cbn. intros [Hw|Hw]%elem_of_app.
    + destruct (Hwires s wire Hs Hw) as (? & ? & ?). split; [done|]. split; [done|]. lia.
    + apply list_elem_of_singleton in Hw as ->. cbn. split; [done|]. split; [done|]. lia.
Qed.
End create.

(** ** Runs *)

Record system := Sys {
  world : World;
  conns : list Client;
  pendings : list PendingResponse;
  actives : list (ActiveRequest Req);
  sent : list (nat * payload);
  got : list (nat * payload);
  lost : list PointerOffset;
}.

(** One call; [sent] and [got] record the payloads that calls accepted and
    returned, [lost] the chunks of sends that failed on a full queue. *)
Inductive step : system -> system -> Prop :=
| st_server w cs ps al hs hg hl r w' :
    create_server macos hash size_req size_res b w = Ret (r, w') ->
    step (Sys w cs ps al hs hg hl) (Sys w' cs ps al hs hg hl)
| st_client w cs ps al hs hg hl c w' :
    create_client b w = (Ok c, w') ->
    step (Sys w cs ps al hs hg hl) (Sys w' (c :: cs) ps al hs hg hl)
| st_send w cs ps al hs hg hl c x p w' :
    c ∈ cs -> client_send w c x = Ret (Ok p, w') ->
    step (Sys w cs ps al hs hg hl) (Sys w' cs (p :: ps) al (hs ++ [(c_request c, inl x)]) hg hl)
| st_send_full w cs ps al hs hg hl c x off w' :
    c ∈ cs -> client_send w c x = Ret (Err (Config.Send QueueFull), w') ->
    next_chunk w = Some off ->
    step (Sys w cs ps al hs hg hl) (Sys w' cs ps al hs hg (off :: hl))
| st_send_oom w cs ps al hs hg hl c x w' :
    c ∈ cs -> client_send w c x = Ret (Err (Loan OutOfMemory), w') ->
    step (Sys w cs ps al hs hg hl) (Sys w' cs ps al hs hg hl)
| st_respond w cs ps al1 a al2 hs hg hl x w' :
    respond w a x = Ret (Ok tt, w') ->
    step (Sys w cs ps (al1 ++ a :: al2) hs hg hl)
         (Sys w' cs ps (al1 ++ al2) (hs ++ [(a_response a, inr x)]) hg hl)
| st_respond_full w cs ps al1 a al2 hs hg hl x off w' :
    respond w a x = Ret (Err (Config.Send QueueFull), w') -> next_chunk w = Some off ->
    step (Sys w cs ps (al1 ++ a :: al2) hs hg hl) (Sys w' cs ps (al1 ++ al2) hs hg (off :: hl))
| st_respond_oom w cs ps al1 a al2 hs hg hl x w' :
    respond w a x = Ret (Err (Loan OutOfMemory), w') ->
    step (Sys w cs ps (al1 ++ a :: al2) hs hg hl) (Sys w' cs ps (al1 ++ al2) hs hg hl)
| st_try w cs ps al hs hg hl p v w' :
    p ∈ ps -> try_receive cast_res w p = Ret (Ok (Some v), w') ->
    step (Sys w cs ps al hs hg hl) (Sys w' cs ps al hs (hg ++ [(p_response p, inr v)]) hl)
| st_receive w cs ps al hs hg hl a w' :
    server_receive cast_req w = Ret (Ok (Some a), w') ->
    step (Sys w cs ps al hs hg hl)
         (Sys w' cs ps (a :: al) hs (hg ++ [(pred (a_response a), inl (a_request a))]) hl).

Definition start (os : Os) : system := Sys (mk_world os None []) [] [] [] [] [] [].

Record inv (s : system) : Prop := {
  iv_core : core (world s) (sent s) (got s) (lost s);
  iv_conns c : c ∈ conns s -> Nat.Even (c_request c) /\ c_response c = S (c_request c) /\
    (c_response c < length (chans (world s)))%nat;
  iv_pend p : p ∈ pendings s -> Nat.Odd (p_response p) /\
    (p_response p < length (chans (world s)))%nat;
  iv_act a : a ∈ actives s -> Nat.Odd (a_response a) /\
    (a_response a < length (chans (world s)))%nat;
}.

Lemma odd_S k : Nat.Even k -> Nat.Odd (S k).
Proof using. intros [n ->]. exists n. lia. Qed.

(** The calls in terms of [post] and [fetch]. *)
Lemma try_receive_ok s p :
  inv s -> p ∈ pendings s ->
  exists r w', try_receive cast_res (world s) p = Ret (r, w') /\ same_shape (world s) w' /\
  match r with
  | Ok (Some v) => core w' (sent s) (got s ++ [(p_response p, inr v)]) (lost s)
  | Ok None => w' = world s /\ values_of (p_response p) (sent s) = values_of (p_response p) (got s)
  | Err _ => False
  end.
Proof using.
  intros Hinv Hp. destruct (iv_pend _ Hinv p Hp) as [Hodd Hlt].
  destruct (fetch_ok _ _ _ _ (iv_core _ Hinv) (p_response p) Hlt) as (r & w' & Hf & Hsh & Hr).
  unfold try_receive. rewrite Hf. cbn [obind].
  destruct r as [[x|v]|[|]]; [| | |done]; (do 2 eexists); (split; [done|]); (split; [done|]).
  - exfalso. destruct Hr as [Hin _].
    apply (co_kind _ _ _ _ (iv_core _ Hinv)) in Hin as [_ Hev].
    by apply (Nat.Even_Odd_False (p_response p)).
  - cbn. by destruct Hr.
  - done.
Qed.

Lemma server_receive_ok s :
  inv s -> is_Some (server (world s)) ->
  exists r w', server_receive cast_req (world s) = Ret (r, w') /\ same_shape (world s) w' /\
  match r with
  | Ok (Some a) => Nat.Odd (a_response a) /\ (a_response a < length (chans (world s)))%nat /\
      core w' (sent s) (got s ++ [(pred (a_response a), inl (a_request a))]) (lost s)
  | Ok None => w' = world s /\ forall sv wire, server (world s) = Some sv -> wire ∈ clients sv ->
      values_of (request_channel wire) (sent s) = values_of (request_channel wire) (got s)
  | Err _ => False
  end.
Proof using.
  intros Hinv [sv Hs]. unfold server_receive. rewrite Hs.
  destruct (receive_request_ok _ _ _ _ (iv_core _ Hinv) (clients sv)) as (r & w' & Hr & Hsh & Hcase).
  { intros wire. by apply (co_wires _ _ _ _ (iv_core _ Hinv)). }
  exists r, w'. split; [done|]. split; [done|]. destruct r as [[a|]|]; [| |done].
  - destruct Hcase as (k & Hk & Hlt & Hev & _ & Hc). rewrite Hk. cbn.
    split; [by apply odd_S|done].
  - destruct Hcase as [-> Hall]. split; [done|]. intros sv' wire [= <-]. apply Hall.
Qed.

(** A handle stays valid when the world keeps its shape or grows. *)
Lemma inv_core w cs ps al hs hg hl w' cs' ps' al' hs' hg' hl' :
  inv (Sys w cs ps al hs hg hl) ->
  core w' hs' hg' hl' -> (length (chans w) <= length (chans w'))%nat ->
  (forall c, c ∈ cs' -> c ∈ cs \/ Nat.Even (c_request c) /\ c_response c = S (c_request c) /\
     (c_response c < length (chans w'))%nat) ->
  (forall p, p ∈ ps' -> p ∈ ps \/ Nat.Odd (p_response p) /\ (p_response p < length (chans w'))%nat) ->
  (forall a, a ∈ al' -> a ∈ al \/ Nat.Odd (a_response a) /\ (a_response a < length (chans w'))%nat) ->
  inv (Sys w' cs' ps' al' hs' hg' hl').
Proof using.
  intros [Hc Hcs Hps Hal] Hc' Hlen H1 H2 H3. cbn in *. split; cbn; [done|..].
  - intros c [Hin|?]%H1; [|done]. destruct (Hcs c Hin) as (? & ? & ?). split; [done|]. split; [done|]. lia.
  - intros p [Hin|?]%H2; [|done]. destruct (Hps p Hin). split; [done|lia].
  - intros a [Hin|?]%H3; [|done]. destruct (Hal a Hin). split; [done|lia].
Qed.

Section runs.
Context {V : PosixView} {Sp : PosixSpec} (Hqos : qos_ok).

Lemma rr_start_inv os : inv (start os).
Proof using.
  split; cbn; [split; cbn; try done|..]; intros;
    try match goal with H : _ ∈ [] |- _ => by apply elem_of_nil in H end.
  by exists 0%nat.
Qed.

Lemma rr_step_inv s s' : inv s -> step s s' -> inv s'.
Proof using Hqos Sp.
  intros Hinv Hs. destruct Hs as
    [w cs ps al hs hg hl r w' He|w cs ps al hs hg hl c w' He|w cs ps al hs hg hl c x p w' Hc He
    |w cs ps al hs hg hl c x off w' Hc He Hn|w cs ps al hs hg hl c x w' Hc He
    |w cs ps al1 a al2 hs hg hl x w' He|w cs ps al1 a al2 hs hg hl x off w' He Hn
    |w cs ps al1 a al2 hs hg hl x w' He|w cs ps al hs hg hl p v w' Hp He|w cs ps al hs hg hl a w' He].
  - destruct (create_server_ok Hqos _ _ _ _ (iv_core _ Hinv)) as (r1 & w1 & He1 & Hc1 & [Hl _] & _).
    cbn in *. rewrite He1 in He. simplify_eq. eapply inv_core; eauto. by rewrite Hl.
  - pose proof (create_client_ok Hqos _ _ _ _ (iv_core _ Hinv)) as Hc. cbn in Hc.
    rewrite He in Hc. destruct Hc as (Hc & Hl & _ & H1 & H2 & H3).
    eapply inv_core; eauto. intros c' [->|Hin]%elem_of_cons; auto.
  - destruct (iv_conns _ Hinv c Hc) as (H1 & H2 & H3). cbn in *.
    destruct (post_ok _ _ _ _ (iv_core _ Hinv) (c_request c) (inl x)) as (r & w1 & Hp & [Hl _] & Hr);
      cbn in *; [lia|done|]. unfold client_send in He. rewrite Hp in He. cbn in He.
    destruct r as [[]|]; cbn in He; simplify_eq. eapply inv_core; eauto; [by rewrite Hl|].
    intros p' [->|Hin]%elem_of_cons; [right|by left]. cbn. rewrite H2, Hl.
    split; [by apply odd_S|lia].
  - destruct (iv_conns _ Hinv c Hc) as (H1 & H2 & H3). cbn in *.
    destruct (post_ok _ _ _ _ (iv_core _ Hinv) (c_request c) (inl x)) as (r & w1 & Hp & [Hl _] & Hr);
      cbn in *; [lia|done|]. unfold client_send in He. rewrite Hp in He. cbn in He.
    destruct r as [[]|]; cbn in He; simplify_eq. destruct Hr as (off' & Hn' & Hr).
    simplify_eq. eapply inv_core; eauto. by rewrite Hl.
  - destruct (iv_conns _ Hinv c Hc) as (H1 & H2 & H3). cbn in *.
    destruct (post_ok _ _ _ _ (iv_core _ Hinv) (c_request c) (inl x)) as (r & w1 & Hp & [Hl _] & Hr);
      cbn in *; [lia|done|]. unfold client_send in He. rewrite Hp in He. cbn in He.
    destruct r as [[]|]; cbn in He; simplify_eq. destruct Hr as (Hr & _).
    eapply inv_core; eauto. by rewrite Hl.
  - destruct (iv_act _ Hinv a) as [H1 H2]; [cbn; apply elem_of_app; right; left|]. cbn in *.
    destruct (post_ok _ _ _ _ (iv_core _ Hinv) (a_response a) (inr x)) as (r & w1 & Hp & [Hl _] & Hr);
      cbn in *; [lia|done|]. unfold respond in He. rewrite Hp in He. simplify_eq.
    eapply inv_core; eauto; [by rewrite Hl|]. intros a'. rewrite !elem_of_app, elem_of_cons. tauto.
  - destruct (iv_act _ Hinv a) as [H1 H2]; [cbn; apply elem_of_app; right; left|]. cbn in *.
    destruct (post_ok _ _ _ _ (iv_core _ Hinv) (a_response a) (inr x)) as (r & w1 & Hp & [Hl _] & Hr);
      cbn in *; [lia|done|]. unfold respond in He. rewrite Hp in He. simplify_eq.
    destruct Hr as (off' & Hn' & Hr). simplify_eq.
    eapply inv_core; eauto; [by rewrite Hl|]. intros a'. rewrite !elem_of_app, elem_of_cons. tauto.
  - destruct (iv_act _ Hinv a) as [H1 H2]; [cbn; apply elem_of_app; right; left|]. cbn in *.
    destruct (post_ok _ _ _ _ (iv_core _ Hinv) (a_response a) (inr x)) as (r & w1 & Hp & [Hl _] & Hr);
      cbn in *; [lia|done|]. unfold respond in He. rewrite Hp in He. simplify_eq.
    destruct Hr as (Hr & _).
    eapply inv_core; eauto; [by rewrite Hl|]. intros a'. rewrite !elem_of_app, elem_of_cons. tauto.
  - destruct (try_receive_ok _ p Hinv Hp) as (r & w1 & He1 & [Hl _] & Hr). cbn in *.
    rewrite He1 in He. simplify_eq. eapply inv_core; eauto. by rewrite Hl.
  - destruct (server w) as [sv|] eqn:Hs; [|unfold server_receive in He; by rewrite Hs in He].
    destruct (server_receive_ok _ Hinv) as (r & w1 & He1 & [Hl _] & Hr); [cbn; eauto|]. cbn in *.
    rewrite He1 in He. simplify_eq. destruct Hr as (H1 & H2 & Hr).
    eapply inv_core; eauto; [by rewrite Hl|].
    intros a' [->|Hin]%elem_of_cons; [right; by rewrite Hl|by left].
Qed.

Lemma rr_reach_inv os s : rtc step (start os) s -> inv s.
Proof using Hqos Sp.
  intros Hr. apply (invariant_rtc step (fun s => s = start os) inv (start os) s); [|done|done].
  split; [intros ? ->; apply rr_start_inv|]. intros x y. apply rr_step_inv.
Qed.

(** C14: However many clients use the service, every allocated chunk of its
    segment is in exactly one place: in flight on one request or response
    channel, or lost by a send that found its queue full.  No two of these
    share a chunk, so a request or response is never overwritten in flight and
    no chunk is freed twice. *)
Theorem reqres_conservation os s sv :
  rtc step (start os) s -> server (world s) = Some sv ->
  exists qs : list (list PointerOffset), length qs = length (chans (world s)) /\
    (forall k ch q, chans (world s) !! k = Some ch -> qs !! k = Some q ->
       exists cap, ZeroCopyChannel.chan_rep ch cap q []) /\
    let used := concat (id <$> qs) ++ lost s in
    NoDup (PointerOffset.offset <$> used) /\
    DataSegment.allocated_count (segment sv) = Z.of_nat (length used) /\
    DataSegment.available (segment sv)
      = DataSegment.chunk_count (segment sv) - Z.of_nat (length used).
Proof using Hqos Sp.
  intros Hr%rr_reach_inv Hs. destruct Hr as [[Hc _ _ _ _] _ _ _]. rewrite Hs in Hc.
  destruct Hc as (free & live & qs & Hok). exists qs.
  split; [apply Hok|]. split.
  { intros k ch q Hk Hq. destruct (lk_chan _ _ _ _ _ _ _ _ Hok k ch q Hk Hq) as (cap & _ & ? & _).
    by exists cap. }
  cbn zeta. pose proof (Permutation_length (lk_perm _ _ _ _ _ _ _ _ Hok)) as Hlen.
  rewrite length_fmap in Hlen. split; [by eapply lk_NoDup|].
  destruct (DataSegment.ds_counts _ _ _ (lk_rep _ _ _ _ _ _ _ _ Hok)) as [-> ->].
  pose proof (DataSegment.ds_length _ _ _ (lk_rep _ _ _ _ _ _ _ _ Hok)).
  rewrite <- Hlen. lia.
Qed.

(** C15: On every channel of the service the payloads received are, in order
    and without gap or repetition, the first of those sent: the server gets
    each client's requests, and a client's handles the responses to it, as
    they were written.  No call panics; sends fail only when the queue or the
    segment is full; receiving reports no error, and when it finds nothing,
    everything sent on the channels it looks at has been received. *)
Theorem reqres_delivery os s :
  rtc step (start os) s ->
  (forall k, (k < length (chans (world s)))%nat ->
     exists pending, values_of k (sent s) = values_of k (got s) ++ pending) /\
  (forall c x, c ∈ conns s -> exists r w', client_send (world s) c x = Ret (r, w') /\
     match r with Ok _ | Err (Loan OutOfMemory) | Err (Config.Send QueueFull) => True | _ => False end) /\
  (forall a x, a ∈ actives s -> exists r w', respond (world s) a x = Ret (r, w') /\
     match r with Ok _ | Err (Loan OutOfMemory) | Err (Config.Send QueueFull) => True | _ => False end) /\
  (forall p, p ∈ pendings s -> exists r w', try_receive cast_res (world s) p = Ret (Ok r, w') /\
     (r = None -> values_of (p_response p) (got s) = values_of (p_response p) (sent s))) /\
  (forall sv, server (world s) = Some sv ->
     exists r w', server_receive cast_req (world s) = Ret (Ok r, w') /\
     (r = None -> forall wire, wire ∈ clients sv ->
        values_of (request_channel wire) (got s) = values_of (request_channel wire) (sent s))).
Proof using Hqos Sp.
  intros Hi%rr_reach_inv. split; [|split; [|split; [|split]]].
  - intros k Hk. destruct (chan_server _ _ _ _ (iv_core _ Hi) k Hk) as (sv & ch & Hs & Hch).
    destruct Hi as [[Hc _ _ _ _] _ _ _]. rewrite Hs in Hc. destruct Hc as (free & live & qs & Hok).
    destruct (lookup_lt_is_Some_2 qs k) as [q Hq]; [by rewrite (lk_length _ _ _ _ _ _ _ _ Hok)|].
    destruct (lk_chan _ _ _ _ _ _ _ _ Hok k ch q Hch Hq) as (_ & vs & _ & _ & Hv & _). eauto.
  - intros c x Hc. destruct (iv_conns _ Hi c Hc) as (H1 & H2 & H3).
    destruct (post_ok _ _ _ _ (iv_core _ Hi) (c_request c) (inl x)) as (r & w' & Hp & _ & Hr);
      [lia|done|]. unfold client_send. rewrite Hp. cbn [obind]. do 2 eexists. split; [done|].
    by destruct r as [[]|[[]|[]| |]].
  - intros a x Ha. destruct (iv_act _ Hi a Ha) as [H1 H2].
    destruct (post_ok _ _ _ _ (iv_core _ Hi) (a_response a) (inr x)) as (r & w' & Hp & _ & Hr);
      [lia|done|]. unfold respond. exists r, w'. split; [done|]. by destruct r as [[]|[[]|[]| |]].
  - intros p Hp. destruct (try_receive_ok _ p Hi Hp) as (r & w' & He & _ & Hr).
    destruct r as [r|]; [|done]. exists r, w'. split; [done|]. intros ->. by destruct Hr.
  - intros sv Hs. destruct (server_receive_ok _ Hi) as (r & w' & He & _ & Hr); [by eexists|].
    destruct r as [r|]; [|done]. exists r, w'. split; [done|]. intros ->. destruct Hr as [_ Hr].
    intros wire Hw. by rewrite (Hr sv wire).
Qed.
End runs.
End safe.

(** ** Runs of a concrete service: requests and responses are integers *)
Section example.
Import ToyOs.

Definition example_builder (max_pending : Z) : PortBuilder :=
  mk_builder "s" 1 {| max_clients := 8; max_servers := 1; max_pending_requests := max_pending |}.
Definition example_world : World Z Z := mk_world (empty_os 100000 : Os (Posix := toy_posix)) None [].
Definition example_start : system (P := toy_posix) (Req := Z) (Res := Z) :=
  start (P := toy_posix) (empty_os 100000).

Lemma rr_example_qos_ok : qos_ok 8 8 (example_builder 4).
Proof. vm_compute. repeat split; congruence. Qed.

(** A server and one of its clients. *)
Definition connected (max_pending : Z) : outcome (Client * World Z Z) :=
  let! (r, w) := create_server (P := toy_posix) false no_hash 8 8 (example_builder max_pending)
                   example_world in
  match create_client (example_builder max_pending) w with
  | (Ok c, w) => Ret (c, w)
  | (Err _, _) => Panic
  end.

(** One request and its response, with the history of the run. *)
Definition round_trip : outcome (system (P := toy_posix) (Req := Z) (Res := Z)) :=
  let! (r, w) := create_server (P := toy_posix) false no_hash 8 8 (example_builder 4) example_world in
  match create_client (example_builder 4) w with
  | (Err _, _) => Panic
  | (Ok c, w) =>
    let! (r, w) := client_send w c 7 in
    match r with
    | Err _ => Panic
    | Ok p =>
      let! (r, w) := server_receive (fun x => x) w in
      match r with
      | Ok (Some a) =>
        let! (r, w) := respond w a 8 in
        match r with
        | Err _ => Panic
        | Ok _ =>
          let! (r, w) := try_receive (fun x => x) w p in
          match r with
          | Ok (Some v) =>
              Ret (Sys w [c] [p] [] (([] ++ [(c_request c, inl 7)]) ++ [(a_response a, inr 8)])
                (([] ++ [(pred (a_response a), inl (a_request a))]) ++ [(p_response p, inr v)]) [])
          | _ => Panic
          end
        end
      | _ => Panic
      end
    end
  end.

Lemma round_trip_history :
  match round_trip with Ret s => (sent s, got s, length (chans (world s))) | _ => ([], [], 0%nat) end
  = ([(0%nat, inl 7); (1%nat, inr 8)], [(0%nat, inl 7); (1%nat, inr 8)], 2%nat).
Proof. vm_compute. reflexivity. Qed.

Lemma round_trip_steps s :
  round_trip = Ret s ->
  rtc (step (P := toy_posix) (fun x => x) (fun x => x) false no_hash 8 8 (example_builder 4))
    example_start s.
Proof.
  unfold round_trip. intros E.
  destruct (create_server _ _ _ _ _ _) as [[r1 w1]| |] eqn:E1; cbn [obind] in E; try discriminate.
  destruct (create_client _ w1) as [[c|] w2] eqn:E2; try discriminate.
  destruct (client_send w2 c 7) as [[[p|] w3]| |] eqn:E3; cbn [obind] in E; try discriminate.
  destruct (server_receive _ w3) as [[[[a|]|] w4]| |] eqn:E4; cbn [obind] in E; try discriminate.
  destruct (respond w4 a 8) as [[[[]|] w5]| |] eqn:E5; cbn [obind] in E; try discriminate.
  destruct (try_receive _ w5 p) as [[[[v|]|] w6]| |] eqn:E6; cbn [obind] in E; try discriminate.
  injection E as <-.
  eapply rtc_l; [by eapply st_server|]. eapply rtc_l; [by eapply st_client|].
  eapply rtc_l; [by eapply st_send; [left|]|]. eapply rtc_l; [by eapply st_receive|].
  eapply rtc_l; [by apply (st_respond _ _ _ _ _ _ _ _ _ _ [] a [])|].
  eapply rtc_l; [by eapply st_try; [left|]|]. apply rtc_refl.
Qed.

Lemma reqres_conservation_witness :
  exists s sv, round_trip = Ret s /\ server (world s) = Some sv /\
    exists qs : list (list PointerOffset.PointerOffset), length qs = length (chans (world s)).
Proof.
  pose proof round_trip_history as Hh.
  destruct round_trip as [s| |] eqn:E; [|discriminate Hh..].
  pose proof (round_trip_steps s E) as Hs.
  assert (Hsv : match round_trip with
    | Ret s => match server (world s) with Some _ => true | None => false end
    | _ => false end = true) by (vm_compute; reflexivity).
  rewrite E in Hsv. destruct (server (world s)) as [sv|] eqn:Es; [|discriminate Hsv].
  exists s, sv. split; [reflexivity|]. split; [exact Es|].
  destruct (reqres_conservation (P := toy_posix) (fun x => x) (fun x => x) false no_hash 8 8
    (example_builder 4) rr_example_qos_ok (empty_os 100000) s sv Hs Es) as (qs & Hqs & _).
  exists qs. exact Hqs.
Defined.

Lemma reqres_delivery_witness :
  exists s, round_trip = Ret s /\
    exists pending, values_of 0 (sent s) = values_of 0 (got s) ++ pending.
Proof.
  pose proof round_trip_history as Hh.
  destruct round_trip as [s| |] eqn:E; [|discriminate Hh..].
  pose proof (round_trip_steps s E) as Hs. exists s. split; [reflexivity|].
  destruct (reqres_delivery (P := toy_posix) (fun x => x) (fun x => x) false no_hash 8 8
    (example_builder 4) rr_example_qos_ok (empty_os 100000) s Hs) as (Hd & _).
  apply (Hd 0%nat). injection Hh as _ _ Hl. rewrite Hl. apply Nat.lt_0_succ.
Defined.

(** The handle of the second request, asked first, gets the response to the
    first one: nothing ties a response to its request. *)
Example responses_not_correlated :
  (let! (c, w) := connected 4 in
   let! (r1, w) := client_send w c 1 in
   let! (r2, w) := client_send w c 2 in
   let! (q1, w) := server_receive (fun x => x) w in
   let! (q2, w) := server_receive (fun x => x) w in
   match r2, q1, q2 with
   | Ok p2, Ok (Some a1), Ok (Some a2) =>
       let! (_, w) := respond w a1 (a_request a1 * 10) in
       let! (_, w) := respond w a2 (a_request a2 * 10) in
       let! (v, _) := try_receive (fun x => x) w p2 in Ret v
   | _, _, _ => Panic
   end) = Ret (Ok (Some 10)).
Proof. vm_compute. reflexivity. Qed.

(** Sends that fail on a full queue use up the segment: with room for two
    requests and sixteen chunks, sixteen sends leave nothing to allocate, and
    draining the queue gives back only the two chunks that were queued. *)
Fixpoint send_many (n : nat) (w : World Z Z) (c : Client) : outcome (World Z Z) :=
  match n with O => Ret w | S n => let! (_, w) := client_send w c 0 in send_many n w c end.

Definition available_now (w : World Z Z) : Z :=
  match server w with Some s => DataSegment.available (segment s) | None => 0 end.

Example full_queue_loses_chunks :
  (let! (c, w) := connected 2 in
   let! w := send_many 16 w c in
   let! (r, w) := client_send w c 0 in
   let! (_, w) := server_receive (fun x => x) w in
   let! (_, w) := server_receive (fun x => x) w in
   let! (q, w) := server_receive (fun x => x) w in
   Ret (match r with Err e => bool_decide (e = Loan OutOfMemory) | Ok _ => false end,
        match q with Ok None => true | _ => false end, available_now w))
  = Ret (true, true, 2).
Proof. vm_compute. reflexivity. Qed.
End example.
End ReqResSafe.
