(* ===== verification/ReqResConc.v ===== *)
(** * Request-response under concurrency
    (crates/entangle/src/port/client.rs, port/server.rs, with channel.rs and
    spsc_queue.rs under them)

    A thread for the server and one for each client, with every call cut at its
    accesses to what the threads share: the allocator of the segment (one step
    per call: IndexSetConc.v shows it to be atomic), the chunks, the state of a
    channel and the positions and slots of its queue.  The server's thread holds
    the lock on the list of clients during [receive], and the clients have been
    created before; each client's handles stay in its thread. *)
From S2P Require Import Prelude Contracts FreeList IndexSet Spsc SpscConc PoolAlloc Channel Shm.
From S2P Require Import DataSegment Config Service ReqRes ReqResSafe.
#[local] Open Scope Z_scope.
#[local] Open Scope rust_scope.

Module ReqResThreads.
Import PointerOffset ReqResPorts SpscThreads.

Section machine.
Context {P : Posix} {Req Res : Type}.
Context (cast_req : Res -> Req) (cast_res : Req -> Res).
#[local] Abbreviation World := (World Req Res).
#[local] Abbreviation payload := (Req + Res)%type.

(** What a thread's last call returned. *)
Inductive answer :=
| New
| Sent (r : result unit PortError)
| Responded (r : result unit PortError)
| Tried (r : result (option Res) PortError)
| Received (r : result (option (ActiveRequest Req)) PortError).

(** Where a receiving call takes an offset from: [try_receive] from one channel,
    [Server::receive] from the requests of [wire], then of the [rest]. *)
Inductive source :=
| Response (k : nat)
| Request (wire : ClientWire) (rest : list ClientWire).

Definition channel_of (src : source) : nat :=
  match src with Response k => k | Request wire _ => request_channel wire end.

(** Between calls; in [send] or [respond] on channel [k], before the chunk is
    allocated, written, before the channel's state is read and inside [push]; in
    a receiving call, before the state is read, between the two loads of
    [is_empty], inside [pop], before the payload is copied and before the chunk
    is given back. *)
Inductive pc :=
| Idle (last : answer)
| PostAlloc (k : nat) (x : payload)
| PostWrite (k : nat) (x : payload) (off : PointerOffset)
| PostState (k : nat) (x : payload) (off : PointerOffset)
| PostPush (k : nat) (x : payload) (off : PointerOffset) (p : push_pc)
| FetchState (src : source)
| FetchRead (src : source)
| FetchWrite (src : source) (read : Z)
| FetchPop (src : source) (p : pop_pc)
| FetchCopy (src : source) (off : PointerOffset)
| FetchFree (src : source) (off : PointerOffset) (x : payload)
| Panicked.

(** A payload accepted by a channel or copied from one; a chunk that nobody will
    give back. *)
Inductive event :=
| Posted (k : nat) (x : payload)
| Fetched (k : nat) (x : payload)
| Lost (off : PointerOffset).

(** What the call returns. *)
Definition posted (x : payload) (r : result unit PortError) : pc :=
  Idle (match x with inl _ => Sent r | inr _ => Responded r end).

Definition next_wire (l : list ClientWire) : pc :=
  match l with [] => Idle (Received (Ok None)) | wire :: rest => FetchState (Request wire rest) end.

Definition nothing (src : source) : pc :=
  match src with Response _ => Idle (Tried (Ok None)) | Request _ rest => next_wire rest end.

Definition broken (src : source) (e : ReceiveError) : pc :=
  Idle (match src with Response _ => Tried (Err (from e)) | Request _ _ => Received (Err (from e)) end).

Definition fetched (src : source) (x : payload) : pc :=
  Idle (match src with
        | Response _ => Tried (Ok (Some (as_res cast_res x)))
        | Request wire _ => Received (Ok (Some (mk_active (as_req cast_req x) (response_channel wire))))
        end).

(** One step of a call. *)
Definition run_thread (w : World) (p : pc) : option (World * pc * list event) :=
  match p with
  | Idle _ | Panicked => None
  | PostAlloc k x =>
      match server w with
      | None => Some (w, Panicked, [])
      | Some s =>
          match DataSegment.allocate (segment s) with
          | Ret (Ok off, seg) => Some (with_server w (with_segment s seg), PostWrite k x off, [])
          | Ret (Err e, seg) => Some (with_server w (with_segment s seg), posted x (Err (from e)), [])
          | _ => Some (w, Panicked, [])
          end
      end
  | PostWrite k x off =>
      match server w with
      | None => Some (w, Panicked, [])
      | Some s =>
          Some (with_server w (with_memory s (<[PointerOffset.offset off := x]> (memory s))), PostState k x off, [])
      end
  | PostState k x off =>
      match chans w !! k with
      | None => Some (w, Panicked, [])
      | Some ch =>
          if decide (ZeroCopyChannel.state ch = Disconnected)
          then Some (w, posted x (Err (Config.Send SendConnectionBroken)), [Lost off])
          else Some (w, PostPush k x off (PushStart (raw off)), [])
      end
  | PostPush k x off p =>
      match chans w !! k with
      | None => Some (w, Panicked, [])
      | Some ch =>
          match step_push (ZeroCopyChannel.send_queue ch) p with
          | None => Some (w, Panicked, [])
          | Some (q, p, _) =>
              let w := with_chan w k (ZeroCopyChannel.with_send ch q) in
              match p with
              | PushIdle (Some true) => Some (w, posted x (Ok tt), [Posted k x])
              | PushIdle _ => Some (w, posted x (Err (Config.Send QueueFull)), [Lost off])
              | PushPanic => Some (w, Panicked, [])
              | p => Some (w, PostPush k x off p, [])
              end
          end
      end
  | FetchState src =>
      match chans w !! channel_of src with
      | None => Some (w, Panicked, [])
      | Some ch =>
          if decide (ZeroCopyChannel.state ch = Disconnected)
          then Some (w, FetchRead src, []) else Some (w, FetchPop src PopStart, [])
      end
  | FetchRead src =>
      match chans w !! channel_of src with
      | None => Some (w, Panicked, [])
      | Some ch => Some (w, FetchWrite src (SpscQueue.read_pos (ZeroCopyChannel.send_queue ch)), [])
      end
  | FetchWrite src read =>
      match chans w !! channel_of src with
      | None => Some (w, Panicked, [])
      | Some ch =>
          if read =? SpscQueue.write_pos (ZeroCopyChannel.send_queue ch)
          then Some (w, broken src RecvConnectionBroken, []) else Some (w, FetchPop src PopStart, [])
      end
  | FetchPop src p =>
      match chans w !! channel_of src with
      | None => Some (w, Panicked, [])
      | Some ch =>
          match step_pop (ZeroCopyChannel.send_queue ch) p with
          | None => Some (w, Panicked, [])
          | Some (q, p, _) =>
              let w := with_chan w (channel_of src) (ZeroCopyChannel.with_send ch q) in
              match p with
              | PopIdle (Some (Some v)) => Some (w, FetchCopy src (from_raw v), [])
              | PopIdle _ => Some (w, nothing src, [])
              | PopPanic => Some (w, Panicked, [])
              | p => Some (w, FetchPop src p, [])
              end
          end
      end
  | FetchCopy src off =>
      match server w with
      | None => Some (w, Panicked, [])
      | Some s =>
          match memory s !! PointerOffset.offset off with
          | Some x => Some (w, FetchFree src off x, [Fetched (channel_of src) x])
          | None => Some (w, Panicked, [])
          end
      end
  | FetchFree src off x =>
      match server w with
      | None => Some (w, Panicked, [])
      | Some s =>
          match DataSegment.deallocate (segment s) off with
          | Ret seg => Some (with_server w (with_segment s seg), fetched src x, [])
          | _ => Some (w, Panicked, [])
          end
      end
  end.

(** A client's thread has its [Client] and the [PendingResponse]s of its sends;
    the server's has the [ActiveRequest]s it has not answered. *)
Record client_thread := mkT { handle : Client; pendings : list PendingResponse; at_ : pc }.

Record config := mkC {
  world : World;
  server_at : pc;
  actives : list (ActiveRequest Req);
  clients : list client_thread;
}.

Inductive action :=
| CallSend (j : nat) (x : Req)
| CallTry (j i : nat)
| RunClient (j : nat)
| CallReceive
| CallRespond (i : nat) (x : Res)
| RunServer.

Definition exec (a : action) (c : config) : option (config * list event) :=
  match a with
  | CallSend j x =>
      match clients c !! j with
      | Some (mkT h ps (Idle _)) =>
          Some (mkC (world c) (server_at c) (actives c)
                  (<[j := mkT h ps (PostAlloc (c_request h) (inl x))]> (clients c)), [])
      | _ => None
      end
  | CallTry j i =>
      match clients c !! j with
      | Some (mkT h ps (Idle _)) =>
          match ps !! i with
          | Some p =>
              Some (mkC (world c) (server_at c) (actives c)
                      (<[j := mkT h ps (FetchState (Response (p_response p)))]> (clients c)), [])
          | None => None
          end
      | _ => None
      end
  | RunClient j =>
      match clients c !! j with
      | Some (mkT h ps p) =>
          match run_thread (world c) p with
          | Some (w, p, e) =>
              let ps := match p with Idle (Sent (Ok _)) => mk_pending (c_response h) :: ps | _ => ps end in
              Some (mkC w (server_at c) (actives c) (<[j := mkT h ps p]> (clients c)), e)
          | None => None
          end
      | None => None
      end
  | CallReceive =>
      match server_at c, server (world c) with
      | Idle _, Some s => Some (mkC (world c) (next_wire (ReqResPorts.clients s)) (actives c) (clients c), [])
      | _, _ => None
      end
  | CallRespond i x =>
      match server_at c, actives c !! i with
      | Idle _, Some a =>
          Some (mkC (world c) (PostAlloc (a_response a) (inr x)) (delete i (actives c)) (clients c), [])
      | _, _ => None
      end
  | RunServer =>
      match run_thread (world c) (server_at c) with
      | Some (w, p, e) =>
          let l := match p with Idle (Received (Ok (Some a))) => a :: actives c | _ => actives c end in
          Some (mkC w p l (clients c), e)
      | None => None
      end
  end.

Fixpoint run (sched : list action) (c : config) : option (config * list event) :=
  match sched with
  | [] => Some (c, [])
  | a :: sched =>
      match exec a c with
      | None => None
      | Some (c1, e1) =>
          match run sched c1 with None => None | Some (c2, e2) => Some (c2, e1 ++ e2) end
      end
  end.

(** The clients, created one after the other once there is a server. *)
Fixpoint connect (bs : list PortBuilder) (w : World) : result (list Client) IpcError * World :=
  match bs with
  | [] => (Ok [], w)
  | b :: bs =>
      match create_client b w with
      | (Ok c, w) => match connect bs w with (Ok l, w) => (Ok (c :: l), w) | r => r end
      | (Err e, w) => (Err e, w)
      end
  end.

Definition init (w : World) (l : list Client) : config :=
  mkC w (Idle New) [] ((fun h => mkT h [] (Idle New)) <$> l).

(** The payloads of channel [k], and the lost chunks, in the order of events. *)
Definition posts (k : nat) (evs : list event) : list payload :=
  omap (fun e => match e with Posted j x => if decide (j = k) then Some x else None | _ => None end) evs.
Definition fetches (k : nat) (evs : list event) : list payload :=
  omap (fun e => match e with Fetched j x => if decide (j = k) then Some x else None | _ => None end) evs.
Definition losses (evs : list event) : list PointerOffset :=
  omap (fun e => match e with Lost o => Some o | _ => None end) evs.

(** ** Chunks in use

    [used]: the chunks that the segment has handed out, in any order. *)
Definition pool (s : DataSegment.DataSegment) (used : list PointerOffset) : Prop :=
  exists free live, DataSegment.ds_rep s free live /\ DataSegment.chunk s <$> live ≡ₚ used.

Lemma pool_perm s used used' : used ≡ₚ used' -> pool s used -> pool s used'.
Proof using Type. intros Hp (free & live & Hr & Hl). exists free, live. split; [done|by rewrite Hl]. Qed.

Lemma pool_NoDup s used : pool s used -> NoDup (PointerOffset.offset <$> used).
Proof using Type.
  intros (free & live & Hr & Hl). rewrite <- Hl, <- list_fmap_compose.
  pose proof (DataSegment.ds_NoDup _ _ _ Hr) as Hn. apply NoDup_app in Hn as (_ & _ & Hn).
  apply NoDup_fmap_2_strong; [|done]. intros i j Hi Hj He.
  destruct (DataSegment.chunk_fields _ _ _ Hr i) as (Hb & Ho & _); [apply elem_of_app; by right|].
  destruct (DataSegment.chunk_fields _ _ _ Hr j) as (Hb2 & Ho2 & _); [apply elem_of_app; by right|].
  pose proof (PoolAllocator.geo_chunk _ (PoolAllocator.pr_geo _ _ _ (DataSegment.dr_pool _ _ _ Hr))).
  pose proof (DataSegment.dr_chunk _ _ _ Hr). cbn in He. nia.
Qed.

Lemma pool_alloc s used : pool s used ->
  (DataSegment.allocate s = Ret (Err OutOfMemory, s) /\ DataSegment.available s = 0) \/
  exists off s', DataSegment.allocate s = Ret (Ok off, s') /\ pool s' (off :: used).
Proof using Type.
  intros (free & live & Hr & Hl). destruct free as [|i free].
  - left. split; [by apply (DataSegment.ds_allocate_none _ live)|].
    by destruct (DataSegment.ds_counts _ _ _ Hr) as [_ ->].
  - right. destruct (DataSegment.ds_allocate_some _ _ _ _ Hr) as (s' & Ha & Hr' & Hch & _).
    exists (DataSegment.chunk s i), s'. split; [done|]. exists free, (i :: live). split; [done|].
    cbn. rewrite Hch. constructor. rewrite <- Hl. by rewrite (list_fmap_ext _ (DataSegment.chunk s)) by (intros; apply Hch).
Qed.

Lemma pool_dealloc s off used : pool s (off :: used) ->
  exists s', DataSegment.deallocate s off = Ret s' /\ pool s' used.
Proof using Type.
  intros (free & live & Hr & Hl).
  assert (Hin : off ∈ DataSegment.chunk s <$> live) by (rewrite Hl; left).
  apply list_elem_of_fmap in Hin as (i & -> & Hi). apply elem_of_Permutation in Hi as [live' Hlive].
  pose proof (DataSegment.ds_rep_perm _ _ _ _ Hr Hlive) as Hr1.
  destruct (DataSegment.ds_deallocate_some _ _ _ _ Hr1) as (s' & Hd & Hr' & Hch & _).
  exists s'. split; [done|]. exists (i :: free), live'. split; [done|].
  rewrite (list_fmap_ext _ (DataSegment.chunk s)) by (intros; apply Hch).
  rewrite Hlive in Hl. cbn in Hl. by apply (Permutation_cons_inv (a := DataSegment.chunk s i)).
Qed.

Lemma pool_used_counts s used : pool s used ->
  DataSegment.allocated_count s = Z.of_nat (length used) /\
  DataSegment.available s = DataSegment.chunk_count s - Z.of_nat (length used).
Proof using Type.
  intros (free & live & Hr & Hl). destruct (DataSegment.ds_counts _ _ _ Hr) as [-> ->].
  pose proof (DataSegment.ds_length _ _ _ Hr). rewrite <- (Permutation_length Hl), length_fmap. lia.
Qed.

(** ** The invariant *)

(** The threads: 0 is the server, [S j] the client [j].  Channels are made in
    pairs: [2 * j] has the requests of client [j], [2 * j + 1] the responses. *)
Definition producer (k : nat) : nat := if Nat.even k then S (Nat.div2 k) else 0.
Definition consumer (k : nat) : nat := if Nat.even k then 0 else S (Nat.div2 k).

Definition push_at (k : nat) (p : pc) : push_pc :=
  match p with PostPush j _ _ q => if decide (j = k) then q else PushIdle None | _ => PushIdle None end.
Definition pop_at (k : nat) (p : pc) : pop_pc :=
  match p with FetchPop src q => if decide (channel_of src = k) then q else PopIdle None | _ => PopIdle None end.

(** The payload that was taken from channel [k] and is still to be copied. *)
Definition reading (mem : gmap Z payload) (k : nat) (p : pc) : list payload :=
  match p with
  | FetchCopy src off =>
      if decide (channel_of src = k) then option_list (mem !! PointerOffset.offset off) else []
  | _ => []
  end.

(** The chunk in the hands of a call. *)
Definition holds (p : pc) : list PointerOffset :=
  match p with
  | PostWrite _ _ off | PostState _ _ off | PostPush _ _ off _ | FetchCopy _ off | FetchFree _ off _ => [off]
  | _ => []
  end.

Definition thread_at (pcs : list pc) (i : nat) : pc := default (Idle New) (pcs !! i).

(** Requests travel on even channels, responses on odd ones. *)
Definition kind (k : nat) (x : payload) : Prop :=
  match x with inl _ => Nat.Even k | inr _ => Nat.Odd k end.

Definition wire_ok (nch : nat) (wire : ClientWire) : Prop :=
  Nat.Even (request_channel wire) /\ response_channel wire = S (request_channel wire) /\
  (response_channel wire < nch)%nat.

Definition post_ok (nch i k : nat) (x : payload) : Prop := (k < nch)%nat /\ producer k = i /\ kind k x.

Definition source_ok (nch i : nat) (src : source) : Prop :=
  (channel_of src < nch)%nat /\ consumer (channel_of src) = i /\
  match src with
  | Response k => Nat.Odd k
  | Request wire rest => i = 0%nat /\ Forall (wire_ok nch) (wire :: rest)
  end.

(** Calls only fail when the queue or the segment is full. *)
Definition answer_ok (nch : nat) (a : answer) : Prop :=
  match a with
  | New | Sent (Ok _) | Responded (Ok _) | Tried (Ok _) | Received (Ok None) => True
  | Sent (Err e) | Responded (Err e) => e = Config.Send QueueFull \/ e = Loan OutOfMemory
  | Tried (Err _) | Received (Err _) => False
  | Received (Ok (Some a)) => Nat.Odd (a_response a) /\ (a_response a < nch)%nat
  end.

Definition pc_ok (mem : gmap Z payload) (nch i : nat) (p : pc) : Prop :=
  match p with
  | Idle a => answer_ok nch a
  | PostAlloc k x | PostWrite k x _ => post_ok nch i k x
  | PostState k x off => post_ok nch i k x /\ mem !! PointerOffset.offset off = Some x
  | PostPush k x off q =>
      post_ok nch i k x /\ mem !! PointerOffset.offset off = Some x /\ push_val q = Some (raw off)
  | FetchState src => source_ok nch i src
  | FetchPop src q => source_ok nch i src /\ pop_busy q = true
  | FetchCopy src off => source_ok nch i src /\ is_Some (mem !! PointerOffset.offset off)
  | FetchFree src _ x => source_ok nch i src /\ kind (channel_of src) x
  | FetchRead _ | FetchWrite _ _ | Panicked => False
  end.

Record chan_ok (mem : gmap Z payload) (k : nat) (ch : ZeroCopyChannel.ZeroCopyChannel)
    (q : list PointerOffset) (pcs : list pc) (evs : list event) : Prop := {
  c_state : ZeroCopyChannel.state ch = Connected;
  c_queue : exists n, SpscQueue.rep (ZeroCopyChannel.send_queue ch) n (raw <$> q) /\
    push_ok (ZeroCopyChannel.send_queue ch) n (raw <$> q) (push_at k (thread_at pcs (producer k))) /\
    pop_ok (ZeroCopyChannel.send_queue ch) (raw <$> q) (pop_at k (thread_at pcs (consumer k)));
  c_values : exists vs,
    posts k evs = fetches k evs ++ reading mem k (thread_at pcs (consumer k)) ++ vs /\
    Forall2 (fun o x => mem !! PointerOffset.offset o = Some x) q vs;
}.

Record inv (w : World) (pcs : list pc) (evs : list event) (s : ServerCell Req Res)
    (qs : list (list PointerOffset)) : Prop := {
  v_server : server w = Some s;
  v_pool : pool (segment s) (concat (id <$> qs) ++ losses evs ++ concat (holds <$> pcs));
  v_length : length qs = length (chans w);
  v_chan k ch q : chans w !! k = Some ch -> qs !! k = Some q -> chan_ok (memory s) k ch q pcs evs;
  v_pc i p : pcs !! i = Some p -> pc_ok (memory s) (length (chans w)) i p;
  v_kind k x : x ∈ posts k evs -> kind k x;
  v_wires : Forall (wire_ok (length (chans w))) (ReqResPorts.clients s);
}.

(** ** Moves of one thread *)

Lemma posts_app k e1 e2 : posts k (e1 ++ e2) = posts k e1 ++ posts k e2.
Proof using Type. apply omap_app. Qed.
Lemma fetches_app k e1 e2 : fetches k (e1 ++ e2) = fetches k e1 ++ fetches k e2.
Proof using Type. apply omap_app. Qed.
Lemma losses_app e1 e2 : losses (e1 ++ e2) = losses e1 ++ losses e2.
Proof using Type. apply omap_app. Qed.

Lemma thread_at_insert pcs i p j : (i < length pcs)%nat ->
  thread_at (<[i := p]> pcs) j = if decide (j = i) then p else thread_at pcs j.
Proof using Type.
  intros Hi. unfold thread_at. case_decide as E; [subst; by rewrite list_lookup_insert_eq|].
  by rewrite list_lookup_insert_ne.
Qed.

Lemma thread_at_lookup pcs i p : pcs !! i = Some p -> thread_at pcs i = p.
Proof using Type. unfold thread_at. by intros ->. Qed.

(** A call works on one channel, at its own end. *)
Lemma push_at_other mem nch i k p : pc_ok mem nch i p -> producer k <> i -> push_at k p = PushIdle None.
Proof using Type.
  intros Hp Hk. destruct p; try done. cbn in *. case_decide as E; [|done]. subst. by destruct Hp as [(_ & <- & _) _].
Qed.

Lemma source_chan nch i src : source_ok nch i src -> consumer (channel_of src) = i.
Proof using Type. by intros (_ & ? & _). Qed.

Lemma pop_at_other mem nch i k p : pc_ok mem nch i p -> consumer k <> i -> pop_at k p = PopIdle None.
Proof using Type.
  intros Hp Hk. destruct p; try done. cbn in *. case_decide as E; [|done]. subst.
  destruct Hp as [Hs _]. by apply source_chan in Hs.
Qed.

Lemma reading_other mem mem' nch i k p : pc_ok mem nch i p -> consumer k <> i -> reading mem' k p = [].
Proof using Type.
  intros Hp Hk. destruct p; try done. cbn in *. case_decide as E; [|done]. subst.
  destruct Hp as [Hs _]. by apply source_chan in Hs.
Qed.

Lemma pc_ok_mem mem mem' nch i p :
  (forall o, o ∈ holds p -> mem' !! PointerOffset.offset o = mem !! PointerOffset.offset o) ->
  pc_ok mem nch i p -> pc_ok mem' nch i p.
Proof using Type. intros Hm. destruct p; cbn in *; rewrite ?Hm by left; done. Qed.

Lemma reading_mem mem mem' k p :
  (forall o, o ∈ holds p -> mem' !! PointerOffset.offset o = mem !! PointerOffset.offset o) ->
  reading mem' k p = reading mem k p.
Proof using Type. intros Hm. destruct p; cbn in *; try done. by rewrite Hm by left. Qed.

Lemma payloads_mem (mem mem' : gmap Z payload) q vs :
  (forall o, o ∈ q -> mem' !! PointerOffset.offset o = mem !! PointerOffset.offset o) ->
  Forall2 (fun o x => mem !! PointerOffset.offset o = Some x) q vs ->
  Forall2 (fun o x => mem' !! PointerOffset.offset o = Some x) q vs.
Proof using Type.
  intros Hm Hf. induction Hf as [|o x q vs Ho Hf IH]; constructor.
  - rewrite Hm; [done|left].
  - apply IH. intros y Hy. apply Hm. by right.
Qed.

Section moves.
Context (w : World) (pcs : list pc) (evs : list event) (s : ServerCell Req Res) (qs : list (list PointerOffset)).
Context (Hinv : inv w pcs evs s qs).

(** The chunks that thread [i] does not hold. *)
Definition others (i : nat) : list PointerOffset :=
  concat (id <$> qs) ++ losses evs ++ concat (holds <$> delete i pcs).

Lemma used_split i p : pcs !! i = Some p ->
  concat (id <$> qs) ++ losses evs ++ concat (holds <$> pcs) ≡ₚ holds p ++ others i.
Proof using Type.
  intros Hi. unfold others. rewrite (concat_lookup holds pcs i p Hi). solve_Permutation.
Qed.

Lemma used_insert i p e : (i < length pcs)%nat ->
  concat (id <$> qs) ++ losses (evs ++ e) ++ concat (holds <$> <[i := p]> pcs) ≡ₚ
  holds p ++ losses e ++ others i.
Proof using Type.
  intros Hi. destruct (lookup_lt_is_Some_2 pcs i Hi) as [p0 Hp0]. unfold others.
  rewrite losses_app, (concat_insert holds pcs i p0 p Hp0). solve_Permutation.
Qed.

Lemma queue_others i k q o : qs !! k = Some q -> o ∈ q -> o ∈ others i.
Proof using Type. intros Hq Ho. apply elem_of_app. left. by apply (elem_of_concat id qs k q). Qed.

Lemma holds_others i j u o : pcs !! j = Some u -> j <> i -> o ∈ holds u -> o ∈ others i.
Proof using Type.
  intros Hj Hne Ho. apply elem_of_app. right. apply elem_of_app. right.
  destruct (decide (j < i)%nat).
  - apply (elem_of_concat holds _ j u); [by rewrite list_lookup_delete_lt|done].
  - apply (elem_of_concat holds _ (pred j) u); [|done].
    rewrite list_lookup_delete_ge by lia. by replace (S (pred j)) with j by lia.
Qed.

Lemma thread_others i j o : thread_at pcs j <> Idle New -> j <> i -> o ∈ holds (thread_at pcs j) -> o ∈ others i.
Proof using Type.
  intros Hn Hne Ho. unfold thread_at in *. destruct (pcs !! j) as [u|] eqn:Hj; [|done]. by apply (holds_others i j u).
Qed.

Lemma thread_ok j : pc_ok (memory s) (length (chans w)) j (thread_at pcs j).
Proof using Hinv.
  unfold thread_at. destruct (pcs !! j) as [u|] eqn:Hj; [by apply (v_pc _ _ _ _ _ Hinv)|done].
Qed.

(** A step that leaves the channels alone. *)
Lemma inv_move i p p' s' w' e :
  pcs !! i = Some p -> server w' = Some s' -> chans w' = chans w -> ReqResPorts.clients s' = ReqResPorts.clients s ->
  (forall o, o ∈ others i -> memory s' !! PointerOffset.offset o = memory s !! PointerOffset.offset o) ->
  pool (segment s') (holds p' ++ losses e ++ others i) ->
  (forall k, push_at k p' = PushIdle None \/ exists v, push_at k p' = PushStart v) ->
  (forall k, pop_at k p' = PopIdle None \/ pop_at k p' = PopStart) ->
  (forall k, posts k e = []) ->
  (forall k, fetches k e ++ reading (memory s') k p' = reading (memory s) k p) ->
  pc_ok (memory s') (length (chans w)) i p' ->
  inv w' (<[i := p']> pcs) (evs ++ e) s' qs.
Proof using Hinv.
  intros Hi Hs Hch Hcl Hmem Hpool Hpush Hpop Hposts Hfetch Hp'.
  pose proof (lookup_lt_Some _ _ _ Hi) as Hlt. pose proof (v_pc _ _ _ _ _ Hinv i p Hi) as Hp.
  split; rewrite ?Hch, ?Hcl; try done; try apply Hinv.
  - apply (pool_perm _ _ _ (Permutation_sym (used_insert i p' e Hlt)) Hpool).
  - intros k ch q Hk Hq. destruct (v_chan _ _ _ _ _ Hinv k ch q Hk Hq) as [Hst (n & Hr & Hpu & Hpo) (vs & Hv & Hf)].
    split; [done| |].
    + exists n. rewrite !thread_at_insert by done. split; [done|]. split; case_decide; try done.
      * by destruct (Hpush k) as [->|[v ->]].
      * by destruct (Hpop k) as [->| ->].
    + exists vs. rewrite posts_app, fetches_app, Hposts, app_nil_r, thread_at_insert by done. split.
      * rewrite Hv, <- app_assoc. f_equal. case_decide as E.
        -- rewrite (app_assoc (fetches k e)), Hfetch, E, (thread_at_lookup _ _ _ Hi). done.
        -- specialize (Hfetch k). rewrite (reading_other (memory s) _ _ i k p Hp E) in Hfetch.
           apply app_eq_nil in Hfetch as [-> _]. cbn. rewrite (reading_mem (memory s) (memory s')); [done|].
           intros o Ho. apply Hmem. eapply (thread_others i (consumer k)); [|done|done].
           intros E'. rewrite E' in Ho. by apply elem_of_nil in Ho.
      * apply (payloads_mem (memory s)); [|done]. intros o Ho. by apply Hmem, (queue_others i k q).
  - intros j u Hj. apply list_lookup_insert_Some in Hj as [(-> & <- & _)|(Hne & Hj)]; [done|].
    apply (pc_ok_mem (memory s)); [|by apply (v_pc _ _ _ _ _ Hinv)]. intros o Ho. apply Hmem.
    by apply (holds_others i j u).
  - intros k x. rewrite posts_app, Hposts, app_nil_r. apply Hinv.
Qed.

(** A step on the queue of channel [k]. *)
Lemma inv_queue i p p' k ch ch' q q' e :
  pcs !! i = Some p -> chans w !! k = Some ch -> qs !! k = Some q ->
  q' ++ losses e ++ holds p' ≡ₚ q ++ holds p ->
  (forall j, j <> k -> push_at j p' = push_at j p /\ pop_at j p' = pop_at j p /\
     reading (memory s) j p' = reading (memory s) j p /\ posts j e = [] /\ fetches j e = []) ->
  chan_ok (memory s) k ch' q' (<[i := p']> pcs) (evs ++ e) ->
  (forall x, x ∈ posts k e -> kind k x) ->
  pc_ok (memory s) (length (chans w)) i p' ->
  inv (with_chan w k ch') (<[i := p']> pcs) (evs ++ e) s (<[k := q']> qs).
Proof using Hinv.
  intros Hi Hch Hq Hperm Hother Hok Hkind Hp'. pose proof (lookup_lt_Some _ _ _ Hi) as Hlt.
  pose proof (v_pc _ _ _ _ _ Hinv i p Hi) as Hp.
  split; cbn [server chans with_chan]; rewrite ?length_insert; try apply Hinv; try done.
  - eapply pool_perm; [|apply (v_pool _ _ _ _ _ Hinv)].
    rewrite losses_app, (concat_insert holds pcs i p p' Hi), (concat_lookup holds pcs i p Hi).
    rewrite (concat_insert id qs k q q' Hq), (concat_lookup id qs k q Hq). cbn.
    transitivity ((q ++ holds p) ++ concat (id <$> delete k qs) ++ losses evs ++ concat (holds <$> delete i pcs));
      [solve_Permutation|]. rewrite <- Hperm. solve_Permutation.
  - intros j cj qj Hj Hqj. destruct (decide (j = k)) as [->|Hne].
    + rewrite list_lookup_insert_eq in Hj by (by eapply lookup_lt_Some).
      rewrite list_lookup_insert_eq in Hqj by (by eapply lookup_lt_Some). by simplify_eq.
    + rewrite list_lookup_insert_ne in Hj by done. rewrite list_lookup_insert_ne in Hqj by done.
      destruct (Hother j Hne) as (H1 & H2 & H3 & H4 & H5).
      destruct (v_chan _ _ _ _ _ Hinv j cj qj Hj Hqj) as [Hst (n & Hr & Hpu & Hpo) (vs & Hv & Hf)].
      assert (Hat : forall A (f : pc -> A) m, f p' = f p -> f (thread_at (<[i := p']> pcs) m) = f (thread_at pcs m)).
      { intros A f m Hf'. rewrite thread_at_insert by done. case_decide as E; [|done].
        subst m. by rewrite (thread_at_lookup _ _ _ Hi). }
      split; [done| |].
      * exists n. by rewrite (Hat _ (push_at j)), (Hat _ (pop_at j)).
      * exists vs. by rewrite posts_app, fetches_app, H4, H5, !app_nil_r, (Hat _ (reading (memory s) j)).
  - intros j u Hj. apply list_lookup_insert_Some in Hj as [(-> & <- & _)|(Hne & Hj)]; [done|].
    by apply (v_pc _ _ _ _ _ Hinv).
  - intros j x. rewrite posts_app. intros [Hx|Hx]%elem_of_app; [by apply (v_kind _ _ _ _ _ Hinv)|].
    destruct (decide (j = k)) as [->|Hne]; [by apply Hkind|].
    destruct (Hother j Hne) as (_ & _ & _ & H4 & _). rewrite H4 in Hx. by apply elem_of_nil in Hx.
Qed.

(** The server's loop over the clients. *)
Definition turns (src : source) : Z :=
  match src with Response _ => 0 | Request _ rest => 9 * Z.of_nat (length rest) end.

(** The steps that a call has still to take, at most. *)
Definition steps_left (p : pc) : Z :=
  match p with
  | Idle _ | Panicked => 0
  | PostAlloc _ _ => 7
  | PostWrite _ _ _ => 6
  | PostState _ _ _ => 5
  | PostPush _ _ _ q => 4 - push_rank q
  | FetchState src => 9 + turns src
  | FetchRead src => 8 + turns src
  | FetchWrite src _ => 7 + turns src
  | FetchPop src q => 6 - pop_rank q + turns src
  | FetchCopy _ _ => 2
  | FetchFree _ _ _ => 1
  end.

(** A step of thread [i] that can be taken and keeps the invariant; its call
    comes closer to its end. *)
Definition goes_on (i : nat) (p : pc) : Prop :=
  exists w' p' e s' qs', run_thread w p = Some (w', p', e) /\
    inv w' (<[i := p']> pcs) (evs ++ e) s' qs' /\
    length (chans w') = length (chans w) /\ 0 <= steps_left p' < steps_left p.

Context (i : nat).

Lemma pool_at p : pcs !! i = Some p -> pool (segment s) (holds p ++ others i).
Proof using Hinv.
  intros Hi. eapply pool_perm; [|apply (v_pool _ _ _ _ _ Hinv)]. by apply used_split.
Qed.

Lemma chan_at_index k : (k < length (chans w))%nat ->
  exists ch q, chans w !! k = Some ch /\ qs !! k = Some q /\ chan_ok (memory s) k ch q pcs evs.
Proof using Hinv.
  intros Hk. destruct (lookup_lt_is_Some_2 (chans w) k Hk) as [ch Hch].
  destruct (lookup_lt_is_Some_2 qs k) as [q Hq]; [by rewrite (v_length _ _ _ _ _ Hinv)|].
  exists ch, q. split; [done|]. split; [done|]. by apply (v_chan _ _ _ _ _ Hinv).
Qed.

Lemma posted_ok mem nch x r : answer_ok nch (Sent r) -> pc_ok mem nch i (posted x r).
Proof using Type. unfold posted. by destruct x, r. Qed.

Lemma posted_idle x r : holds (posted x r) = [] /\ steps_left (posted x r) = 0.
Proof using Type. done. Qed.

Lemma alloc_goes_on k x : pcs !! i = Some (PostAlloc k x) -> goes_on i (PostAlloc k x).
Proof using Hinv.
  intros Hi. pose proof (v_pc _ _ _ _ _ Hinv i _ Hi) as Hok. pose proof (pool_at _ Hi) as Hpool.
  cbn in Hpool. unfold goes_on. cbn. rewrite (v_server _ _ _ _ _ Hinv).
  destruct (pool_alloc _ _ Hpool) as [[Ha Hav]|(off & seg & Ha & Hp')]; rewrite Ha.
  - do 5 eexists. split; [done|]. split; [|by split].
    eapply (inv_move i _ _ (with_segment s (segment s))); try done; try (by left).
    apply posted_ok. by right.
  - do 5 eexists. split; [done|]. split; [|by split].
    eapply (inv_move i _ _ (with_segment s seg)); try done; by left.
Qed.

Lemma write_goes_on k x off : pcs !! i = Some (PostWrite k x off) -> goes_on i (PostWrite k x off).
Proof using Hinv.
  intros Hi. pose proof (v_pc _ _ _ _ _ Hinv i _ Hi) as Hok. pose proof (pool_at _ Hi) as Hpool.
  unfold goes_on. cbn. rewrite (v_server _ _ _ _ _ Hinv).
  do 5 eexists. split; [done|]. split; [|by split].
  eapply (inv_move i _ _ (with_memory s _)); try done; try (by left).
  - intros o Ho. cbn. apply lookup_insert_ne. intros E.
    apply pool_NoDup in Hpool. cbn in Hpool. apply NoDup_cons in Hpool as [Hn _]. apply Hn.
    rewrite E. by apply list_elem_of_fmap_2.
  - split; [done|]. cbn. apply lookup_insert_eq.
Qed.

Lemma state_goes_on k x off : pcs !! i = Some (PostState k x off) -> goes_on i (PostState k x off).
Proof using Hinv.
  intros Hi. pose proof (v_pc _ _ _ _ _ Hinv i _ Hi) as [Hok Hm]. pose proof (pool_at _ Hi) as Hpool.
  destruct (chan_at_index k (proj1 Hok)) as (ch & q & Hch & _ & [Hst _ _]).
  unfold goes_on. cbn. rewrite Hch, decide_False by (by rewrite Hst).
  do 5 eexists. split; [done|]. split; [|by split].
  eapply (inv_move i _ _ s); try done; try (by left); [by apply Hinv|].
  intros j. cbn. case_decide; [right; by eexists|by left].
Qed.

Lemma fetch_state_goes_on src : pcs !! i = Some (FetchState src) -> goes_on i (FetchState src).
Proof using Hinv.
  intros Hi. pose proof (v_pc _ _ _ _ _ Hinv i _ Hi) as Hok. pose proof (pool_at _ Hi) as Hpool.
  destruct (chan_at_index _ (proj1 Hok)) as (ch & q & Hch & _ & [Hst _ _]).
  unfold goes_on. cbn [run_thread]. rewrite Hch, decide_False by (by rewrite Hst).
  do 5 eexists. split; [done|]. split; [|split; [done|]].
  - eapply (inv_move i _ _ s); try done; try (by left); [by apply Hinv|].
    intros j. cbn. case_decide; [by right|by left].
  - cbn. unfold turns. destruct src; lia.
Qed.

Lemma copy_goes_on src off : pcs !! i = Some (FetchCopy src off) -> goes_on i (FetchCopy src off).
Proof using Hinv.
  intros Hi. pose proof (v_pc _ _ _ _ _ Hinv i _ Hi) as [Hok [x Hx]]. pose proof (pool_at _ Hi) as Hpool.
  destruct (chan_at_index _ (proj1 Hok)) as (ch & q & Hch & _ & [_ _ (vs & Hv & _)]).
  unfold goes_on. cbn [run_thread]. rewrite (v_server _ _ _ _ _ Hinv), Hx.
  do 5 eexists. split; [done|]. split; [|by split].
  eapply (inv_move i _ _ s); try done; try (by left); [by apply Hinv| |].
  - intros k. cbn. rewrite app_nil_r, Hx. by case_decide.
  - split; [done|]. apply (v_kind _ _ _ _ _ Hinv). rewrite Hv.
    rewrite (source_chan _ _ _ Hok), (thread_at_lookup _ _ _ Hi). cbn. rewrite decide_True, Hx by done.
    apply elem_of_app. right. left.
Qed.

Lemma free_goes_on src off x : pcs !! i = Some (FetchFree src off x) -> goes_on i (FetchFree src off x).
Proof using Hinv.
  intros Hi. pose proof (v_pc _ _ _ _ _ Hinv i _ Hi) as [Hok _]. pose proof (pool_at _ Hi) as Hpool.
  unfold goes_on. cbn [run_thread]. rewrite (v_server _ _ _ _ _ Hinv).
  destruct (pool_dealloc _ _ _ Hpool) as (seg & -> & Hp').
  do 5 eexists. split; [done|]. split; [|by split].
  eapply (inv_move i _ _ (with_segment s seg)); try done; try (by left).
  destruct Hok as (_ & _ & Hsrc). destruct src as [k|wire rest]; [done|]. destruct Hsrc as (_ & Hw).
  apply Forall_cons in Hw as [(He & Hr & Hlt) _]. cbn. split; [|done]. rewrite Hr. destruct He as [n ->]. exists n. lia.
Qed.

(** [push] on a queue that may be full. *)
Lemma step_push_any q n l p k v :
  SpscQueue.rep q n l -> push_ok q n l p -> pop_ok q l k -> push_val p = Some v ->
  exists q' p' e, step_push q p = Some (q', p', e) /\
    (push_val p' = Some v /\ push_rank p' = push_rank p + 1 /\
     SpscQueue.rep q' n l /\ push_ok q' n l p' /\ pop_ok q' l k \/
     p' = PushIdle (Some true) /\ SpscQueue.rep q' n (l ++ [v]) /\ pop_ok q' (l ++ [v]) k \/
     p' = PushIdle (Some false) /\ q' = q).
Proof using Type.
  intros Hr Hp Hk Hv. destruct (decide (Z.of_nat (length l) < SpscQueue.capacity q)) as [Hlt|Hge].
  - destruct (step_push_cases _ _ _ _ _ _ Hr Hp Hk Hv Hlt) as (q' & p' & e & Hs & _ & Hc).
    exists q', p', e. split; [done|]. destruct Hc as [Hc|(? & _ & ? & ?)]; [by left|right; left; by split_and!].
  - pose proof (SpscQueue.rep_le _ _ _ Hr).
    destruct p as [|u|u z|u z|u z|]; cbn in *; try done; simplify_eq; try lia.
    + do 3 eexists. split; [done|]. left. by split_and!.
    + rewrite (SpscQueue.rep_no_space _ _ _ Hr), (proj2 (Z.eqb_eq _ _)) by lia.
      do 3 eexists. split; [done|]. by right; right.
Qed.

(** The ends of a channel belong to two threads. *)
Lemma ends_apart k : producer k <> consumer k.
Proof using Type. unfold producer, consumer. by destruct (Nat.even k). Qed.

Lemma chan_ok_push k ch q u e n vs :
  (i < length pcs)%nat -> producer k = i -> ZeroCopyChannel.state ch = Connected ->
  SpscQueue.rep (ZeroCopyChannel.send_queue ch) n (raw <$> q) ->
  push_ok (ZeroCopyChannel.send_queue ch) n (raw <$> q) (push_at k u) ->
  pop_ok (ZeroCopyChannel.send_queue ch) (raw <$> q) (pop_at k (thread_at pcs (consumer k))) ->
  posts k evs = fetches k evs ++ reading (memory s) k (thread_at pcs (consumer k)) ++ vs -> fetches k e = [] ->
  Forall2 (fun o x => memory s !! PointerOffset.offset o = Some x) q (vs ++ posts k e) ->
  chan_ok (memory s) k ch q (<[i := u]> pcs) (evs ++ e).
Proof using Type.
  intros Hlt Hpr Hst Hr Hpu Hpo Hv Hfe Hf.
  assert (Hci : consumer k <> i) by (rewrite <- Hpr; apply not_eq_sym, ends_apart).
  split; [done| |].
  - exists n. rewrite !thread_at_insert, decide_True, decide_False by done. done.
  - exists (vs ++ posts k e). split; [|done].
    by rewrite posts_app, fetches_app, Hfe, app_nil_r, Hv, thread_at_insert, decide_False, <- !app_assoc by done.
Qed.

Lemma push_goes_on k x off p : pcs !! i = Some (PostPush k x off p) -> goes_on i (PostPush k x off p).
Proof using Hinv.
  intros Hi. pose proof (lookup_lt_Some _ _ _ Hi) as Hlt.
  pose proof (v_pc _ _ _ _ _ Hinv i _ Hi) as (Hpost & Hmem & Hval). pose proof Hpost as (Hk & Hpr & Hkind).
  destruct (chan_at_index k Hk) as (ch & q & Hch & Hq & [Hst (n & Hr & Hpu & Hpo) (vs & Hv & Hf)]).
  rewrite Hpr, (thread_at_lookup _ _ _ Hi) in Hpu. cbn in Hpu. rewrite decide_True in Hpu by done.
  destruct (step_push_any _ _ _ _ _ _ Hr Hpu Hpo Hval) as (sq & p' & e & Hs & Hcases).
  unfold goes_on. cbn [run_thread]. rewrite Hch, Hs. set (ch' := ZeroCopyChannel.with_send ch sq).
  pose proof (push_rank_bound p).
  destruct Hcases as [(Hv' & Hrk & H1 & H2 & H3)|[(-> & H1 & H3)|(-> & ->)]].
  - exists (with_chan w k ch'), (PostPush k x off p'), [], s, (<[k := q]> qs).
    split; [by destruct p'|]. pose proof (push_rank_bound p'). split; [|split; [cbn; by rewrite length_insert|cbn; lia]].
    apply (inv_queue i _ _ k ch ch' q q [] Hi Hch Hq); try done.
    + intros j Hne. cbn. by rewrite !decide_False by done.
    + apply (chan_ok_push k ch' q _ [] n vs); try done; cbn; [by rewrite decide_True|by rewrite app_nil_r].
    + by intros y ?%elem_of_nil.
  - exists (with_chan w k ch'), (posted x (Ok tt)), [Posted k x], s, (<[k := q ++ [off]]> qs).
    split; [done|]. split; [|split; [cbn; by rewrite length_insert|cbn; lia]].
    apply (inv_queue i _ _ k ch ch' q (q ++ [off]) _ Hi Hch Hq).
    + cbn. by rewrite app_nil_r.
    + intros j Hne. cbn. by rewrite !decide_False by done.
    + apply (chan_ok_push k ch' _ _ _ n vs); try done; [by rewrite fmap_app|by rewrite fmap_app|].
      cbn. rewrite decide_True by done. by apply Forall2_app; [|repeat constructor].
    + cbn. rewrite decide_True by done. by intros y ->%list_elem_of_singleton.
    + by apply posted_ok.
  - exists (with_chan w k ch'), (posted x (Err (Config.Send QueueFull))), [Lost off], s, (<[k := q]> qs).
    split; [done|]. split; [|split; [cbn; by rewrite length_insert|cbn; lia]].
    apply (inv_queue i _ _ k ch ch' q q _ Hi Hch Hq); try done.
    + intros j Hne. cbn. by rewrite !decide_False by done.
    + apply (chan_ok_push k ch' _ _ _ n vs); try done. cbn. by rewrite app_nil_r.
    + by intros y ?%elem_of_nil.
    + apply posted_ok. by left.
Qed.

Lemma next_wire_ok nch l : i = 0%nat -> Forall (wire_ok nch) l ->
  (forall mem, pc_ok mem nch i (next_wire l)) /\ 0 <= steps_left (next_wire l) <= 9 * Z.of_nat (length l).
Proof using Type.
  intros Hi0 Hl. destruct l as [|wire l]; [by split|]. split; [|cbn [next_wire steps_left turns length]; lia].
  intros mem. pose proof Hl as [(He & Hr & Hlt) _]%Forall_cons. cbn [next_wire pc_ok]. unfold source_ok. cbn [channel_of].
  split; [lia|]. split; [|done]. unfold consumer. destruct He as [m ->]. by rewrite Nat.even_even.
Qed.

Lemma nothing_ok mem src : source_ok (length (chans w)) i src ->
  pc_ok mem (length (chans w)) i (nothing src) /\ holds (nothing src) = [] /\
  (forall j, push_at j (nothing src) = PushIdle None /\ pop_at j (nothing src) = PopIdle None) /\
  (forall m j, reading m j (nothing src) = []) /\ 0 <= steps_left (nothing src) <= turns src.
Proof using Type.
  intros (_ & _ & Hsrc). destruct src as [k|wire rest]; [cbn; split_and!; done || lia|].
  destruct Hsrc as (Hi0 & [_ Hw]%Forall_cons). destruct (next_wire_ok _ rest Hi0 Hw) as [H1 H2].
  cbn [nothing turns]. split; [done|]. by destruct rest.
Qed.

Lemma chan_ok_pop k ch q u n vs :
  (i < length pcs)%nat -> consumer k = i -> ZeroCopyChannel.state ch = Connected ->
  SpscQueue.rep (ZeroCopyChannel.send_queue ch) n (raw <$> q) ->
  push_ok (ZeroCopyChannel.send_queue ch) n (raw <$> q) (push_at k (thread_at pcs (producer k))) ->
  pop_ok (ZeroCopyChannel.send_queue ch) (raw <$> q) (pop_at k u) ->
  posts k evs = fetches k evs ++ reading (memory s) k u ++ vs ->
  Forall2 (fun o x => memory s !! PointerOffset.offset o = Some x) q vs ->
  chan_ok (memory s) k ch q (<[i := u]> pcs) (evs ++ []).
Proof using Type.
  intros Hlt Hco Hst Hr Hpu Hpo Hv Hf.
  assert (Hpi : producer k <> i) by (rewrite <- Hco; apply ends_apart).
  rewrite app_nil_r. split; [done| |].
  - exists n. rewrite !thread_at_insert, decide_False, decide_True by done. done.
  - exists vs. by rewrite thread_at_insert, decide_True by done.
Qed.

Lemma pop_goes_on src p : pcs !! i = Some (FetchPop src p) -> goes_on i (FetchPop src p).
Proof using Hinv.
  intros Hi. pose proof (lookup_lt_Some _ _ _ Hi) as Hlt. set (k := channel_of src).
  pose proof (v_pc _ _ _ _ _ Hinv i _ Hi) as (Hsrc & Hbusy). pose proof Hsrc as (Hk & Hco & _). fold k in Hk, Hco.
  destruct (chan_at_index k Hk) as (ch & q & Hch & Hq & [Hst (n & Hr & Hpu & Hpo) (vs & Hv & Hf)]).
  rewrite Hco, (thread_at_lookup _ _ _ Hi) in Hpo, Hv. cbn in Hpo, Hv. rewrite decide_True in Hpo by done.
  destruct (step_pop_cases _ _ _ _ _ Hr Hpo Hpu Hbusy) as (sq & p' & e & Hs & _ & Hcases).
  unfold goes_on. cbn [run_thread]. fold k. rewrite Hch, Hs. set (ch' := ZeroCopyChannel.with_send ch sq).
  pose proof (pop_rank_bound p). assert (Ht : 0 <= turns src) by (unfold turns; destruct src; lia).
  destruct Hcases as [(Hb & Hrk & H1 & H2 & H3)|[(-> & Hrk & Hnil & ->)|(v & l & -> & Hrk & Hl & H1 & H2)]].
  - exists (with_chan w k ch'), (FetchPop src p'), [], s, (<[k := q]> qs).
    split; [by destruct p'|]. pose proof (pop_rank_bound p'). split; [|split; [cbn; by rewrite length_insert|cbn; lia]].
    apply (inv_queue i _ _ k ch ch' q q [] Hi Hch Hq); try done.
    + intros j Hne. cbn. fold k. by rewrite !decide_False by done.
    + apply (chan_ok_pop k ch' q _ n vs); try done. cbn. by rewrite decide_True.
    + by intros y ?%elem_of_nil.
  - destruct (nothing_ok (memory s) src Hsrc) as (Hok & Hho & Hat & Hrd & Hle).
    exists (with_chan w k ch'), (nothing src), [], s, (<[k := q]> qs).
    split; [done|]. split; [|split; [cbn; by rewrite length_insert|cbn [steps_left]; lia]].
    apply (inv_queue i _ _ k ch ch' q q [] Hi Hch Hq); try done.
    + by rewrite Hho.
    + intros j Hne. destruct (Hat j) as [-> ->]. rewrite Hrd. cbn. fold k. by rewrite decide_False by done.
    + apply (chan_ok_pop k ch' q _ n vs); try done; [by destruct (Hat k) as [_ ->]|by rewrite Hrd].
    + by intros y ?%elem_of_nil.
  - destruct q as [|off q]; [done|]. cbn in Hl. injection Hl as <- <-.
    apply Forall2_cons_inv_l in Hf as (x & vs' & Hx & Hf & ->).
    exists (with_chan w k ch'), (FetchCopy src off), [], s, (<[k := q]> qs).
    split; [by rewrite ZeroCopyChannel.from_raw_raw|]. split; [|split; [cbn; by rewrite length_insert|cbn; lia]].
    apply (inv_queue i _ _ k ch ch' (off :: q) q [] Hi Hch Hq).
    + cbn. rewrite app_nil_r. apply Permutation_sym, Permutation_cons_append.
    + intros j Hne. cbn. fold k. by rewrite !decide_False by done.
    + apply (chan_ok_pop k ch' q _ (n + 1) vs'); try done. cbn. fold k. by rewrite decide_True, Hx by done.
    + by intros y ?%elem_of_nil.
    + split; [done|]. by eexists.
Qed.

(** Every step of a call under way can be taken, and keeps the invariant. *)
Lemma thread_goes_on p : pcs !! i = Some p -> match p with Idle _ => False | _ => True end -> goes_on i p.
Proof using Hinv.
  intros Hi Hp. pose proof (v_pc _ _ _ _ _ Hinv i p Hi) as Hok. destruct p; try done.
  - by apply alloc_goes_on.
  - by apply write_goes_on.
  - by apply state_goes_on.
  - by apply push_goes_on.
  - by apply fetch_state_goes_on.
  - by apply pop_goes_on.
  - by apply copy_goes_on.
  - by apply free_goes_on.
Qed.
End moves.

(** ** The machine *)

Definition pcs_of (c : config) : list pc := server_at c :: (at_ <$> clients c).

Record machine_ok (c : config) (evs : list event) (s : ServerCell Req Res) (qs : list (list PointerOffset)) : Prop := {
  m_inv : inv (world c) (pcs_of c) evs s qs;
  m_clients j t : clients c !! j = Some t ->
    handle t = mk_client (2 * j) (S (2 * j)) /\ (S (2 * j) < length (chans (world c)))%nat /\
    forall p, p ∈ pendings t -> p_response p = S (2 * j);
  m_actives a : a ∈ actives c -> Nat.Odd (a_response a) /\ (a_response a < length (chans (world c)))%nat;
}.

Lemma producer_even j : producer (2 * j) = S j.
Proof using Type. unfold producer. by rewrite Nat.even_even, Nat.div2_double. Qed.
Lemma consumer_odd j : consumer (S (2 * j)) = S j.
Proof using Type.
  unfold consumer. replace (S (2 * j)) with (2 * j + 1)%nat by lia.
  by rewrite Nat.even_odd, Nat.add_1_r, Nat.div2_succ_double.
Qed.
Lemma producer_odd k : Nat.Odd k -> producer k = 0%nat.
Proof using Type. unfold producer. intros [m ->]. by rewrite Nat.even_odd. Qed.

(** A call begins. *)
Lemma call_begins w pcs evs s qs i last p :
  inv w pcs evs s qs -> pcs !! i = Some (Idle last) -> holds p = [] ->
  (forall k, push_at k p = PushIdle None /\ pop_at k p = PopIdle None) -> (forall m k, reading m k p = []) ->
  pc_ok (memory s) (length (chans w)) i p -> inv w (<[i := p]> pcs) evs s qs.
Proof using Type.
  intros Hinv Hi Hh Hat Hrd Hok. rewrite <- (app_nil_r evs).
  apply (inv_move w pcs evs s qs Hinv i (Idle last) p s w []); try done.
  - apply Hinv.
  - rewrite Hh. apply (pool_at w pcs evs s qs Hinv i _ Hi).
  - intros k. left. apply Hat.
  - intros k. left. apply Hat.
  - intros k. by rewrite Hrd.
Qed.

(** A step of a client's thread, or of the server's. *)
Lemma client_pcs c j t p : clients c !! j = Some t ->
  pcs_of c !! S j = Some (at_ t) /\
  forall w l h ps, pcs_of (mkC w (server_at c) l (<[j := mkT h ps p]> (clients c))) = <[S j := p]> (pcs_of c).
Proof using Type.
  intros Hj. split.
  { change ((at_ <$> clients c) !! j = Some (at_ t)). by rewrite list_lookup_fmap, Hj. } intros. unfold pcs_of. cbn. by rewrite list_fmap_insert.
Qed.

Lemma client_moves c evs e s' qs' j t h ps p w' :
  (exists s qs, machine_ok c evs s qs) -> clients c !! j = Some t ->
  inv w' (<[S j := p]> (pcs_of c)) (evs ++ e) s' qs' -> length (chans w') = length (chans (world c)) ->
  h = handle t -> (forall x, x ∈ ps -> x ∈ pendings t \/ x = mk_pending (c_response h)) ->
  machine_ok (mkC w' (server_at c) (actives c) (<[j := mkT h ps p]> (clients c))) (evs ++ e) s' qs'.
Proof using Type.
  intros (s & qs & Hm) Hj Hinv Hlen -> Hps. destruct (client_pcs c j t p Hj) as [_ Hpcs].
  split; [by rewrite Hpcs| |]; cbn [clients actives world]; rewrite ?Hlen; [|apply Hm].
  intros m u Hu. apply list_lookup_insert_Some in Hu as [(<- & <- & _)|(_ & Hu)]; [|by apply (m_clients _ _ _ _ Hm)].
  destruct (m_clients _ _ _ _ Hm j t Hj) as (Hh & Hlt & Hp). cbn [handle pendings]. split; [done|]. split; [done|].
  intros x [Hx| ->]%Hps; [by apply Hp|]. by rewrite Hh.
Qed.

Lemma server_moves c evs e s' qs' p l w' :
  (exists s qs, machine_ok c evs s qs) ->
  inv w' (<[0%nat := p]> (pcs_of c)) (evs ++ e) s' qs' -> length (chans w') = length (chans (world c)) ->
  (forall a, a ∈ l -> a ∈ actives c \/ Nat.Odd (a_response a) /\ (a_response a < length (chans w'))%nat) ->
  machine_ok (mkC w' p l (clients c)) (evs ++ e) s' qs'.
Proof using Type.
  intros (s & qs & Hm) Hinv Hlen Hl. split; cbn [clients actives world]; rewrite ?Hlen; [done|apply Hm|].
  intros a [Ha|Ha]%Hl; [by apply (m_actives _ _ _ _ Hm)|by rewrite <- Hlen].
Qed.

Lemma exec_machine a c c' evs e :
  (exists s qs, machine_ok c evs s qs) -> exec a c = Some (c', e) ->
  exists s' qs', machine_ok c' (evs ++ e) s' qs'.
Proof using Type.
  intros Hex He. pose proof Hex as (s & qs & Hm). pose proof (m_inv _ _ _ _ Hm) as Hinv.
  destruct a as [j x|j i|j| |i x|]; cbn in He.
  - destruct (clients c !! j) as [[h ps p]|] eqn:Hj; [|done]. destruct p as [last| | | | | | | | | | |]; try done.
    injection He as <- <-. destruct (m_clients _ _ _ _ Hm j _ Hj) as (Hh & Hlt & _). cbn [handle] in Hh. subst h.
    destruct (client_pcs c j _ (Idle New) Hj) as [Hi0 _].
    exists s, qs. eapply client_moves; try done; [|by left]. rewrite app_nil_r.
    eapply (call_begins _ _ _ _ _ _ _ _ Hinv Hi0); try done.
    split; [cbn in *; lia|]. split; [apply producer_even|]. by exists j.
  - destruct (clients c !! j) as [[h ps p]|] eqn:Hj; [|done]. destruct p as [last| | | | | | | | | | |]; try done.
    destruct (ps !! i) as [p|] eqn:Hi; [|done]. injection He as <- <-.
    destruct (m_clients _ _ _ _ Hm j _ Hj) as (Hh & Hlt & Hp). cbn [handle] in Hh. subst h.
    destruct (client_pcs c j _ (Idle New) Hj) as [Hi0 _].
    apply list_elem_of_lookup_2 in Hi. rewrite (Hp p Hi).
    exists s, qs. eapply client_moves; try done; [|by left]. rewrite app_nil_r.
    eapply (call_begins _ _ _ _ _ _ _ _ Hinv Hi0); try done.
    split; [done|]. split; [apply consumer_odd|]. by exists j; lia.
  - destruct (clients c !! j) as [[h ps p]|] eqn:Hj; [|done].
    destruct (client_pcs c j _ (Idle New) Hj) as [Hi _]. cbn in Hi.
    destruct (run_thread (world c) p) as [[[w p'] e']|] eqn:Hr; [|done]. injection He as <- <-.
    destruct (thread_goes_on _ _ _ _ _ Hinv (S j) p Hi) as (w1 & p1 & e1 & s' & qs' & Hr1 & Hinv' & Hlen & _); [by destruct p|].
    rewrite Hr in Hr1. injection Hr1 as <- <- <-. exists s', qs'. eapply client_moves; try done. cbn [handle pendings].
    intros y. destruct p' as [[]| | | | | | | | | | |]; try (by left). repeat case_match; try (by left).
    intros [->|Hy]%elem_of_cons; [by right|by left].
  - destruct (server_at c) as [last| | | | | | | | | | |] eqn:Hs; try done.
    rewrite (v_server _ _ _ _ _ Hinv) in He. injection He as <- <-. exists s, qs.
    eapply server_moves; try done; [|by left]. rewrite app_nil_r.
    destruct (next_wire_ok 0 (length (chans (world c))) (ReqResPorts.clients s) eq_refl (v_wires _ _ _ _ _ Hinv)) as [H _].
    eapply call_begins; try done; [cbn; by rewrite Hs|..]; destruct (ReqResPorts.clients s); done.
  - destruct (server_at c) as [last| | | | | | | | | | |] eqn:Hs; try done.
    destruct (actives c !! i) as [a|] eqn:Ha; [|done]. injection He as <- <-. exists s, qs.
    destruct (m_actives _ _ _ _ Hm a) as [Hodd Hlt]; [by eapply list_elem_of_lookup_2|].
    eapply server_moves; try done.
    + rewrite app_nil_r. eapply call_begins; try done; [cbn; by rewrite Hs|].
      split; [done|]. split; [by apply producer_odd|done].
    + intros b Hb. left. rewrite (delete_Permutation _ _ _ Ha). by right.
  - destruct (run_thread (world c) (server_at c)) as [[[w p'] e']|] eqn:Hr; [|done]. injection He as <- <-.
    destruct (thread_goes_on _ _ _ _ _ Hinv 0 (server_at c) eq_refl) as (w1 & p1 & e1 & s' & qs' & Hr1 & Hinv' & Hlen & _);
      [by destruct (server_at c)|].
    rewrite Hr in Hr1. injection Hr1 as <- <- <-. exists s', qs'. eapply server_moves; try done.
    pose proof (v_pc _ _ _ _ _ Hinv' 0 p' eq_refl) as Hok.
    destruct p' as [[]| | | | | | | | | | |]; try (by left). cbn in Hok. repeat case_match; try (by left).
    intros b [->|Hb]%elem_of_cons; [by right|by left].
Qed.

Lemma run_machine sched c c' evs e :
  (exists s qs, machine_ok c evs s qs) -> run sched c = Some (c', e) -> exists s' qs', machine_ok c' (evs ++ e) s' qs'.
Proof using Type.
  revert c evs e. induction sched as [|a sched IH]; intros c evs e Hm Hr; cbn in Hr.
  - simplify_eq. by rewrite app_nil_r.
  - destruct (exec a c) as [[c1 e1]|] eqn:He; [|done].
    destruct (run sched c1) as [[c2 e2]|] eqn:Hr2; [|done]. simplify_eq. rewrite app_assoc.
    eapply IH; [|done]. by eapply exec_machine.
Qed.

(** ** Starting *)

(** Nothing has been sent yet. *)
Definition fresh (w : World) (hs : list Client) : Prop :=
  ReqResSafe.core w [] [] [] /\ is_Some (server w) /\
  forall j h, hs !! j = Some h -> h = mk_client (2 * j) (S (2 * j)) /\ (S (2 * j) < length (chans w))%nat.

Lemma connect_fresh size_req size_res bs w hs0 :
  Forall (ReqResSafe.qos_ok size_req size_res) bs -> fresh w hs0 -> length (chans w) = (2 * length hs0)%nat ->
  exists hs w', connect bs w = (Ok hs, w') /\ fresh w' (hs0 ++ hs).
Proof using Type.
  revert w hs0. induction bs as [|b bs IH]; intros w hs0 Hb Hf Hlen; cbn [connect].
  - exists [], w. by rewrite app_nil_r.
  - apply Forall_cons in Hb as [Hb Hbs]. destruct Hf as (Hc & [s Hs] & Hh).
    pose proof (ReqResSafe.create_client_ok size_req size_res b Hb w [] [] [] Hc) as Hcc.
    unfold create_client in *. rewrite Hs in *. destruct Hcc as (Hc' & Hle & Hsv & _).
    match type of Hc' with ReqResSafe.core ?w' _ _ _ => set (w1 := w') in * end.
    assert (Hl1 : length (chans w1) = (2 * S (length hs0))%nat) by (cbn; rewrite length_app; cbn; lia).
    destruct (IH w1 (hs0 ++ [mk_client (length (chans w)) (S (length (chans w)))]) Hbs) as (hs & w' & -> & Hf').
    + split; [done|]. split; [done|]. intros j h Hj. rewrite Hl1.
      apply lookup_app_Some in Hj as [Hj|[Hge Hj]].
      * destruct (Hh j h Hj) as [-> Hlt]. split; [done|lia].
      * apply list_lookup_singleton_Some in Hj as [Hj <-]. rewrite Hlen.
        replace j with (length hs0) by lia. split; [done|lia].
    + rewrite Hl1, length_app. cbn. lia.
    + exists (mk_client (length (chans w)) (S (length (chans w))) :: hs), w'. split; [done|].
      by rewrite <- app_assoc in Hf'.
Qed.

Lemma idle_threads (hs : list Client) f : f (Idle New) = ([] : list PointerOffset) ->
  concat (f <$> (at_ <$> ((fun h => mkT h [] (Idle New)) <$> hs))) = [].
Proof using Type. intros Hf. induction hs; cbn; [done|]. by rewrite Hf. Qed.

Lemma idle_thread w hs i : thread_at (pcs_of (init w hs)) i = Idle New.
Proof using Type.
  destruct i as [|i]; [done|].
  change (default (Idle New) ((at_ <$> ((fun h => mkT h [] (Idle New)) <$> hs)) !! i) = Idle New).
  rewrite !list_lookup_fmap. by destruct (hs !! i).
Qed.

Lemma init_machine w hs : fresh w hs -> exists s qs, machine_ok (init w hs) [] s qs.
Proof using Type.
  intros ([Hc _ _ _ Hw] & [s Hs] & Hh). rewrite Hs in Hc. destruct Hc as (free & live & qs & Hl).
  exists s, qs. split; [split|..].
  - done.
  - exists free, live. split; [apply Hl|]. rewrite (ReqResSafe.lk_perm _ _ _ _ _ _ _ _ Hl).
    unfold pcs_of. cbn. by rewrite idle_threads.
  - apply Hl.
  - intros k ch q Hch Hq. cbn in Hch.
    destruct (ReqResSafe.lk_chan _ _ _ _ _ _ _ _ Hl k ch q Hch Hq) as (cap & vs & Hr & Hst & Hv & Hf).
    change ([] = vs) in Hv. subst vs. apply Forall2_nil_inv_r in Hf as ->.
    split; [done| |exists []; by rewrite idle_thread]. rewrite !idle_thread.
    destruct Hr as [[_ [n Hr]] _]. by exists n.
  - intros i p Hp. pose proof (idle_thread w hs i) as Hi. by rewrite (thread_at_lookup _ _ _ Hp) in Hi; subst p.
  - intros k x Hx. by apply elem_of_nil in Hx.
  - apply Forall_forall. intros wire Hwi. by apply (Hw s).
  - intros j t Hj. cbn in Hj. rewrite list_lookup_fmap in Hj.
    destruct (hs !! j) as [h|] eqn:Hhj; [|done]. injection Hj as <-. destruct (Hh j h Hhj) as [-> Hlt].
    split; [done|]. split; [done|]. by intros p ?%elem_of_nil.
  - intros a Ha. by apply elem_of_nil in Ha.
Qed.

(** ** What the threads can rely on *)

(** A server, then its clients. *)
Definition started (macos : bool) (hash : string -> Z) (size_req size_res : Z) (b : PortBuilder)
    (bs : list PortBuilder) (os : Os) : outcome (result (list Client) IpcError * World) :=
  let! (r, w) := create_server macos hash size_req size_res b (mk_world os None []) in
  match r with Ok _ => Ret (connect bs w) | Err e => Ret (Err e, w) end.

(** Whose call an action is, and the most steps that the call can take. *)
Definition thread_of (a : action) : nat :=
  match a with CallSend j _ | CallTry j _ | RunClient j => S j | CallReceive | CallRespond _ _ | RunServer => 0 end.

Definition begins (a : action) : bool := match a with RunClient _ | RunServer => false | _ => true end.

Definition budget (a : action) (c : config) : Z :=
  match a with
  | CallSend _ _ | CallRespond _ _ => 7
  | CallTry _ _ => 9
  | CallReceive =>
      match server (world c) with Some s => 9 * Z.of_nat (length (ReqResPorts.clients s)) | None => 0 end
  | RunClient _ | RunServer => 0
  end.

(** The steps of thread [i] in a schedule, and whether it starts no call there. *)
Definition own_steps (i : nat) (sched : list action) : Z :=
  Z.of_nat (length (filter (fun a => thread_of a = i /\ begins a = false) sched)).
Definition no_call (i : nat) (a : action) : Prop := thread_of a = i -> begins a = false.

Definition run_of (i : nat) : action := match i with O => RunServer | S j => RunClient j end.

Lemma call_steps_nonneg p : 0 <= steps_left p.
Proof using Type.
  assert (Ht : forall src, 0 <= turns src) by (intros []; unfold turns; lia).
  destruct p as [|k x|k x off|k x off|k x off q|src|src|src r|src q|src off|src off x|]; cbn; try lia;
    try (pose proof (Ht src)); try lia.
  - pose proof (push_rank_bound q). lia.
  - pose proof (pop_rank_bound q). lia.
Qed.

(** The beginning of a call. *)
Definition first_pc (p : pc) : Prop :=
  match p with PostAlloc _ _ | FetchState _ | Idle (Received (Ok None)) => True | _ => False end.

(** One action, seen from thread [i]. *)
Lemma exec_pc a c c' e i p : exec a c = Some (c', e) -> pcs_of c !! i = Some p ->
  exists p', pcs_of c' !! i = Some p' /\
    if decide (thread_of a = i)
    then if begins a then first_pc p' /\ steps_left p' <= budget a c
         else exists w', run_thread (world c) p = Some (w', p', e)
    else p' = p.
Proof using Type.
  intros He Hi.
  assert (Hset : forall l j t h ps p1 w, clients c !! j = Some t ->
    pcs_of (mkC w (server_at c) l (<[j := mkT h ps p1]> (clients c))) !! i
      = Some (if decide (S j = i) then p1 else p)).
  { intros l j t h ps p1 w Hj. destruct (client_pcs c j t p1 Hj) as [Hp ->]. case_decide as E; [subst i|].
    - rewrite list_lookup_insert_eq; [done|by eapply lookup_lt_Some].
    - by rewrite list_lookup_insert_ne. }
  assert (Hsrv : forall w p1 l, pcs_of (mkC w p1 l (clients c)) !! i = Some (if decide (0%nat = i) then p1 else p)).
  { intros w p1 l. by destruct i. }
  destruct a as [j x|j k|j| |k x|]; cbn [exec] in He; cbn [thread_of begins budget].
  - destruct (clients c !! j) as [[h ps []]|] eqn:Hj; try done. injection He as <- <-.
    eexists. split; [by eapply Hset|]. by destruct (decide (S j = i)).
  - destruct (clients c !! j) as [[h ps []]|] eqn:Hj; try done. destruct (ps !! k); [|done]. injection He as <- <-.
    eexists. split; [by eapply Hset|]. by destruct (decide (S j = i)).
  - destruct (clients c !! j) as [[h ps q]|] eqn:Hj; [|done].
    destruct (run_thread (world c) q) as [[[w q'] e']|] eqn:Hr; [|done]. injection He as <- <-.
    eexists. split; [by eapply Hset|]. destruct (decide (S j = i)) as [<-|]; [|done].
    destruct (client_pcs c j _ q' Hj) as [Hq _]. cbn [at_] in Hq. rewrite Hi in Hq. injection Hq as ->. eauto.
  - destruct (server_at c); try done. destruct (server (world c)) as [s|]; [|done]. injection He as <- <-.
    eexists. split; [by apply Hsrv|]. destruct (decide (0%nat = i)); [|done].
    destruct (ReqResPorts.clients s); cbn [next_wire first_pc steps_left turns length]; split; done || lia.
  - destruct (server_at c); try done. destruct (actives c !! k); [|done]. injection He as <- <-.
    eexists. split; [by apply Hsrv|]. by destruct (decide (0%nat = i)).
  - destruct (run_thread (world c) (server_at c)) as [[[w q'] e']|] eqn:Hr; [|done]. injection He as <- <-.
    eexists. split; [by apply Hsrv|]. destruct (decide (0%nat = i)) as [<-|]; [|done]. injection Hi as <-. eauto.
Qed.

Lemma exec_thread a c c' e i p evs s qs :
  machine_ok c evs s qs -> exec a c = Some (c', e) -> pcs_of c !! i = Some p -> no_call i a ->
  exists p', pcs_of c' !! i = Some p' /\
    if decide (thread_of a = i) then steps_left p' < steps_left p else p' = p.
Proof using Type.
  intros Hm He Hi Hn. destruct (exec_pc _ _ _ _ _ _ He Hi) as (p' & Hi' & Hp'). exists p'. split; [done|].
  case_decide as E; [|done]. rewrite (Hn E) in Hp'. destruct Hp' as [w' Hr].
  destruct (thread_goes_on _ _ _ _ _ (m_inv _ _ _ _ Hm) i p Hi) as (w1 & p1 & e1 & s' & qs' & Hr1 & _ & _ & Hlt);
    [by destruct p|].
  rewrite Hr in Hr1. injection Hr1 as <- <- <-. lia.
Qed.

Lemma own_steps_cons i a sched : no_call i a ->
  own_steps i (a :: sched) = (if decide (thread_of a = i) then 1 else 0) + own_steps i sched.
Proof using Type.
  intros Hn. unfold own_steps. rewrite filter_cons. destruct (decide (thread_of a = i)) as [E2|E2]; case_decide as E; cbn [length]; try lia.
  by destruct E; split; [|apply Hn].
Qed.

Lemma own_steps_bound i sched c c' e p evs :
  (exists s qs, machine_ok c evs s qs) -> run sched c = Some (c', e) -> pcs_of c !! i = Some p ->
  Forall (no_call i) sched -> own_steps i sched <= steps_left p.
Proof using Type.
  revert c e p evs. induction sched as [|a sched IH]; intros c e p evs Hm Hr Hi Hn; [apply call_steps_nonneg|].
  apply Forall_cons in Hn as [Hn1 Hn2]. cbn in Hr.
  destruct (exec a c) as [[c1 e1]|] eqn:He; [|done]. destruct (run sched c1) as [[c2 e2]|] eqn:Hr2; [|done]. injection Hr as -> _.
  destruct Hm as (s & qs & Hm). destruct (exec_thread _ _ _ _ _ _ _ _ _ Hm He Hi Hn1) as (p' & Hi' & Hp').
  rewrite own_steps_cons by done.
  assert (own_steps i sched <= steps_left p').
  { apply (IH c1 e2 p' (evs ++ e1)); try done.
    apply (exec_machine a c); [by exists s, qs|done]. }
  case_decide; [lia|]. subst p'. lia.
Qed.

(** What a thread has been told was fetched before. *)
Definition heard (i : nat) (evs : list event) (p : pc) : Prop :=
  match p with
  | FetchFree src _ x => Fetched (channel_of src) x ∈ evs
  | Idle (Tried (Ok (Some v))) => Fetched (2 * i - 1) (inr v) ∈ evs
  | Idle (Received (Ok (Some a))) => Fetched (pred (a_response a)) (inl (a_request a)) ∈ evs
  | _ => True
  end.

Lemma heard_app i evs e p : heard i evs p -> heard i (evs ++ e) p.
Proof using Type.
  destruct p; cbn; try done; [|intros; apply elem_of_app; by left].
  repeat case_match; try done; intros; apply elem_of_app; by left.
Qed.

Lemma consumer_response i k : Nat.Odd k -> consumer k = i -> k = (2 * i - 1)%nat.
Proof using Type.
  intros [m ->] <-. unfold consumer. rewrite Nat.even_odd, Nat.add_1_r, Nat.div2_succ_double. lia.
Qed.

Lemma thread_heard w w' i evs mem nch p p' e :
  pc_ok mem nch i p -> run_thread w p = Some (w', p', e) -> heard i evs p -> heard i (evs ++ e) p'.
Proof using Type.
  intros Hok Hr Hh.
  destruct p as [|k x|k x off|k x off|k x off q|src|src|src r|src q|src off|src off x|]; cbn [run_thread] in Hr; try done;
    try (repeat case_match; simplify_eq; try done; destruct src as [|? []]; done);
    try (unfold posted in Hr; repeat case_match; simplify_eq; done).
  - repeat case_match; simplify_eq; [|done..]. apply elem_of_app. right. left.
  - destruct (server w) as [s|]; [|by simplify_eq]. destruct (DataSegment.deallocate (segment s) off); simplify_eq; try done.
    destruct Hok as [(_ & Hc & Hs) Hk]. rewrite app_nil_r. destruct src as [k|wire rest]; cbn in *.
    + destruct x as [x|x]; cbn; [by apply (Nat.Even_Odd_False k) in Hk|].
      change (Fetched (2 * i - 1) (inr x) ∈ evs). by rewrite <- (consumer_response i k).
    + destruct Hs as (_ & [(He & -> & _) _]%Forall_cons).
      destruct x as [x|x]; cbn; [done|by apply (Nat.Even_Odd_False (request_channel wire)) in Hk].
Qed.

Definition all_heard (c : config) (evs : list event) : Prop :=
  forall i p, pcs_of c !! i = Some p -> heard i evs p.

Lemma exec_heard a c c' evs e s qs :
  machine_ok c evs s qs -> exec a c = Some (c', e) -> all_heard c evs -> all_heard c' (evs ++ e).
Proof using Type.
  intros Hm He Hh i p' Hi'.
  assert (Hl : length (pcs_of c') = length (pcs_of c)).
  { destruct a; cbn [exec] in He; repeat case_match; simplify_eq; unfold pcs_of; cbn; by rewrite ?length_fmap, ?length_insert. }
  destruct (lookup_lt_is_Some_2 (pcs_of c) i) as [p Hi]; [rewrite <- Hl; by eapply lookup_lt_Some|].
  destruct (exec_pc _ _ _ _ _ _ He Hi) as (p1 & Hi1 & Hp1). rewrite Hi' in Hi1. injection Hi1 as <-.
  case_decide as E; [|subst p'; by apply heard_app, Hh]. destruct (begins a).
  - destruct Hp1 as [Hp1 _]. destruct p' as [[]| | | | | | | | | | |]; cbn in Hp1 |- *; repeat case_match; done.
  - destruct Hp1 as [w' Hr]. eapply thread_heard; [|done|by apply Hh].
    apply (v_pc _ _ _ _ _ (m_inv _ _ _ _ Hm) i p Hi).
Qed.

Lemma run_heard sched c c' evs e :
  (exists s qs, machine_ok c evs s qs) -> run sched c = Some (c', e) -> all_heard c evs -> all_heard c' (evs ++ e).
Proof using Type.
  revert c evs e. induction sched as [|a sched IH]; intros c evs e Hm Hr Hh; cbn in Hr.
  - simplify_eq. by rewrite app_nil_r.
  - destruct (exec a c) as [[c1 e1]|] eqn:He; [|done].
    destruct (run sched c1) as [[c2 e2]|] eqn:Hr2; [|done]. simplify_eq. rewrite app_assoc.
    eapply IH; [by eapply exec_machine|done|]. destruct Hm as (s & qs & Hm). by eapply exec_heard.
Qed.

Section theorems.
Context {V : PosixView} {Sp : PosixSpec} (macos : bool) (hash : string -> Z) (size_req size_res : Z).
Context (b : PortBuilder) (bs : list PortBuilder) (os : Os) (hs : list Client) (w : World).
Context (Hb : ReqResSafe.qos_ok size_req size_res b) (Hbs : Forall (ReqResSafe.qos_ok size_req size_res) bs).
Context (Hw : started macos hash size_req size_res b bs os = Ret (Ok hs, w)).
Context (sched : list action) (c : config) (evs : list event).
Context (Hrun : run sched (init w hs) = Some (c, evs)).

Lemma started_fresh : fresh w hs.
Proof using Hb Hbs Hw Sp.
  unfold started in Hw.
  assert (Hc : ReqResSafe.core (mk_world os None [] : World) [] [] []).
  { split; cbn; try done; [by exists 0%nat|..]; intros; by match goal with H : _ ∈ [] |- _ => apply elem_of_nil in H end. }
  destruct (ReqResSafe.create_server_ok macos hash size_req size_res b Hb _ _ _ _ Hc)
    as (r & w0 & He & Hc0 & [Hl _] & _ & Hs).
  rewrite He in Hw. cbn [obind] in Hw. destruct r as [[]|]; [|done].
  destruct (connect_fresh size_req size_res bs w0 [] Hbs) as (hs' & w' & Hcn & Hf);
    [split; [done|split; [by apply Hs|done]]|by rewrite Hl|].
  rewrite Hcn in Hw. by simplify_eq.
Qed.

Lemma threads_machine : exists s qs, machine_ok c evs s qs.
Proof using Hb Hbs Hw Sp Hrun.
  change evs with ([] ++ evs). eapply run_machine; [|exact Hrun]. apply init_machine, started_fresh.
Qed.

(** C16: A server and any number of clients that call at once, under every
    interleaving of their steps: no call panics; a call fails only because
    the queue or the segment was full; every chunk handed out is in exactly
    one place (in flight on one channel, in the hands of one call, or lost by
    a send that found the queue full).  So nobody writes a chunk that another
    thread reads or writes, and no chunk is given back twice. *)
Theorem reqres_threads_safe :
  (forall i p, pcs_of c !! i = Some p -> p <> Panicked /\
     match p with
     | Idle (Sent (Err e)) | Idle (Responded (Err e)) => e = Config.Send QueueFull \/ e = Loan OutOfMemory
     | Idle (Tried (Err _)) | Idle (Received (Err _)) => False
     | _ => True
     end) /\
  exists s qs, server (world c) = Some s /\ length qs = length (chans (world c)) /\
    (forall k ch q, chans (world c) !! k = Some ch -> qs !! k = Some q ->
       exists n, SpscQueue.rep (ZeroCopyChannel.send_queue ch) n (raw <$> q)) /\
    let used := concat (id <$> qs) ++ losses evs ++ concat (holds <$> pcs_of c) in
    NoDup (PointerOffset.offset <$> used) /\
    DataSegment.allocated_count (segment s) = Z.of_nat (length used) /\
    DataSegment.available (segment s) = DataSegment.chunk_count (segment s) - Z.of_nat (length used).
Proof using Hb Hbs Hw Sp Hrun.
  destruct threads_machine as (s & qs & [Hinv _ _]). split.
  - intros i p Hi. pose proof (v_pc _ _ _ _ _ Hinv i p Hi) as Hok. split; [by intros ->|].
    destruct p as [[|[[]|e]|[[]|e]|[]|[]]| | | | | | | | | | |]; done.
  - exists s, qs. split; [apply Hinv|]. split; [apply Hinv|]. split.
    { intros k ch q Hk Hq. destruct (v_chan _ _ _ _ _ Hinv k ch q Hk Hq) as [_ (n & Hr & _) _]. by exists n. }
    pose proof (v_pool _ _ _ _ _ Hinv) as Hp. split; [by eapply pool_NoDup|]. by apply pool_used_counts.
Qed.

(** C17: Under every interleaving, each channel delivers the payloads that it
    accepted in order, without gap, repetition or change: those copied out are
    the first of those accepted, followed by the one being copied and those in
    the queue, which still lie in their chunks.  What [try_receive] returned
    was copied from the channel of its client's responses and is a response;
    what [Server::receive] returned is a request, copied from the channel of
    the client that [respond] will answer. *)
Theorem reqres_threads_delivery :
  (exists s, server (world c) = Some s /\
   forall k ch, chans (world c) !! k = Some ch ->
     ZeroCopyChannel.state ch = Connected /\
     exists q n vs, SpscQueue.rep (ZeroCopyChannel.send_queue ch) n (raw <$> q) /\
       posts k evs = fetches k evs ++ reading (memory s) k (thread_at (pcs_of c) (consumer k)) ++ vs /\
       Forall2 (fun o x => memory s !! PointerOffset.offset o = Some x) q vs /\
       forall x, x ∈ posts k evs -> match x with inl _ => Nat.Even k | inr _ => Nat.Odd k end) /\
  (forall j t, clients c !! j = Some t -> c_response (handle t) = S (2 * j) /\
     match at_ t with
     | Idle (Tried (Ok (Some v))) => Fetched (c_response (handle t)) (inr v) ∈ evs
     | _ => True
     end) /\
  match server_at c with
  | Idle (Received (Ok (Some a))) =>
      exists j, a_response a = S (2 * j) /\ Fetched (2 * j) (inl (a_request a)) ∈ evs
  | _ => True
  end.
Proof using Hb Hbs Hw Sp Hrun.
  destruct threads_machine as (s & qs & Hm). pose proof (m_inv _ _ _ _ Hm) as Hinv.
  assert (Hh : all_heard c evs).
  { change evs with ([] ++ evs). eapply run_heard; [|exact Hrun|]; [apply init_machine, started_fresh|].
    intros i p Hi. pose proof (idle_thread w hs i) as Ht. by rewrite (thread_at_lookup _ _ _ Hi) in Ht; subst p. }
  split; [|split].
  - exists s. split; [apply Hinv|]. intros k ch Hk.
    destruct (lookup_lt_is_Some_2 qs k) as [q Hq]; [rewrite (v_length _ _ _ _ _ Hinv); by eapply lookup_lt_Some|].
    destruct (v_chan _ _ _ _ _ Hinv k ch q Hk Hq) as [Hst (n & Hr & _) (vs & Hv & Hf)].
    split; [done|]. exists q, n, vs. split; [done|]. split; [done|]. split; [done|]. apply (v_kind _ _ _ _ _ Hinv).
  - intros j t Hj. destruct (m_clients _ _ _ _ Hm j t Hj) as (-> & _). split; [done|].
    destruct (client_pcs c j t (at_ t) Hj) as [Hi _]. specialize (Hh _ _ Hi).
    destruct (at_ t) as [[]| | | | | | | | | | |]; try done. repeat case_match; try done. unfold heard in Hh.
    by replace (2 * S j - 1)%nat with (S (2 * j)) in Hh by lia.
  - specialize (Hh 0%nat _ eq_refl). pose proof (v_pc _ _ _ _ _ Hinv 0 _ eq_refl) as Hok.
    destruct (server_at c) as [[]| | | | | | | | | | |]; try done. repeat case_match; try done.
    destruct Hok as [[j Hj] _]. exists j. rewrite Nat.add_1_r in Hj. unfold heard in Hh. by rewrite Hj in Hh.
Qed.

(** Apart from the allocator no call waits for another thread: a call under way
    can always take its next step, and from its beginning it takes at most 7
    steps to send or respond, 9 to try to receive, and 9 for each client to
    receive a request.  Here a call on the allocator counts as one step; in the
    program its compare-exchange loop turns again when another thread succeeds,
    which [index_set_lock_free] bounds. *)
Theorem reqres_threads_wait_free :
  (forall i p, pcs_of c !! i = Some p -> match p with Idle _ => False | _ => True end ->
     exists c' e, exec (run_of i) c = Some (c', e)) /\
  (forall a c1 e1 more c2 e2, begins a = true -> exec a c = Some (c1, e1) -> run more c1 = Some (c2, e2) ->
     Forall (no_call (thread_of a)) more -> own_steps (thread_of a) more <= budget a c).
Proof using Hb Hbs Hw Sp Hrun.
  pose proof threads_machine as Hex. pose proof Hex as (s & qs & Hm). split.
  - intros i p Hi Hp.
    destruct (thread_goes_on _ _ _ _ _ (m_inv _ _ _ _ Hm) i p Hi Hp) as (w' & p' & e & s' & qs' & Hr & _).
    destruct i as [|j]; cbn [run_of exec].
    + injection Hi as ->. rewrite Hr. eauto.
    + change ((at_ <$> clients c) !! j = Some p) in Hi. rewrite list_lookup_fmap in Hi.
      destruct (clients c !! j) as [[h ps q]|]; [|done]. injection Hi as ->. rewrite Hr. eauto.
  - intros a c1 e1 more c2 e2 Hb1 He Hr Hn.
    assert (Hlt : exists p, pcs_of c !! thread_of a = Some p).
    { destruct a as [j x|j k|j| |k x|]; cbn [exec thread_of] in *; try done; try (by eexists);
        (destruct (clients c !! j) as [t|] eqn:Hj; [|done]); destruct (client_pcs c j t (at_ t) Hj) as [Hq _]; by eexists. }
    destruct Hlt as [p Hi]. destruct (exec_pc _ _ _ _ _ _ He Hi) as (p' & Hi' & Hp').
    rewrite decide_True, Hb1 in Hp' by done. destruct Hp' as [_ Hle].
    etrans; [|exact Hle]. apply (own_steps_bound _ more c1 c2 e2 p' (evs ++ e1)); try done. by apply (exec_machine a c).
Qed.
End theorems.
End machine.

(** ** Two clients and their server, interleaved

    Both clients send at once; the server takes a request and answers it while
    the second client looks for its response, too early, and again. *)
Section example.
Import ToyOs.

Definition example_pings (n j : nat) : list (action (Req := Z) (Res := Z)) := repeat (RunClient j) n.

Definition example_sched : list (action (Req := Z) (Res := Z)) :=
  [CallSend 0 7; CallSend 1 8; RunClient 0; RunClient 1; RunClient 1; RunClient 0; CallReceive; RunServer; RunServer;
   RunClient 0; RunClient 1; RunServer; RunServer; RunClient 0; RunServer] ++
  example_pings 4 1 ++ example_pings 3 0 ++ repeat RunServer 5 ++
  [CallRespond 0 80; CallTry 1 0; RunClient 1; RunClient 1; RunServer; RunServer; RunClient 1] ++ repeat RunServer 5 ++
  [CallTry 1 0] ++ example_pings 7 1 ++ [CallReceive; RunServer; RunServer; RunServer].

Definition example_started :=
  started (P := toy_posix) (Req := Z) (Res := Z) false no_hash 8 8 (ReqResSafe.example_builder 4)
    [ReqResSafe.example_builder 4; ReqResSafe.example_builder 4] (empty_os 100000).

Definition example_run : option (config (P := toy_posix) * list event) :=
  match example_started with
  | Ret (Ok hs, w) => run (fun x => x) (fun x => x) example_sched (init w hs)
  | _ => None
  end.

(** What one sees at the end: the server has found client 0's queue empty and
    answered client 1, whose second look found the response. *)
Lemma example_view :
  match example_run with Some (c, evs) => (evs, at_ <$> clients c) | None => ([], []) end
  = ([Posted 2 (inl 8); Posted 0 (inl 7); Fetched 2 (inl 8); Posted 3 (inr 80); Fetched 3 (inr 80)],
     [Idle (Sent (Ok tt)); Idle (Tried (Ok (Some 80)))]).
Proof. vm_compute. reflexivity. Qed.

Lemma example_builders_ok :
  Forall (ReqResSafe.qos_ok 8 8) [ReqResSafe.example_builder 4; ReqResSafe.example_builder 4].
Proof. repeat constructor; apply ReqResSafe.rr_example_qos_ok. Qed.

Lemma reqres_threads_safe_witness :
  exists c evs, example_run = Some (c, evs) /\
    exists s qs, server (world c) = Some s /\
      NoDup (PointerOffset.offset <$> concat (id <$> qs) ++ losses evs ++ concat (holds <$> pcs_of c)).
Proof.
  pose proof example_view as Hv. unfold example_run in *.
  destruct example_started as [[[hs|e] w]| |] eqn:E; [|discriminate Hv..].
  destruct (run _ _ _ _) as [[c evs]|] eqn:Hr; [|discriminate Hv].
  exists c, evs. split; [reflexivity|].
  destruct (reqres_threads_safe (P := toy_posix) (fun x => x) (fun x => x) false no_hash 8 8
    (ReqResSafe.example_builder 4) _ (empty_os 100000) hs w ReqResSafe.rr_example_qos_ok
    example_builders_ok E example_sched c evs Hr) as (_ & s & qs & Hs & _ & _ & Hd & _).
  exists s, qs. split; [exact Hs|exact Hd].
Defined.

Lemma reqres_threads_delivery_witness :
  exists c evs, example_run = Some (c, evs) /\
    (exists s, server (world c) = Some s) /\ posts 3 evs = [inr 80] /\ fetches 3 evs = [inr 80] /\
    forall t, clients c !! 1%nat = Some t -> c_response (handle t) = 3%nat.
Proof.
  pose proof example_view as Hv. unfold example_run in *.
  destruct example_started as [[[hs|e] w]| |] eqn:E; [|discriminate Hv..].
  destruct (run _ _ _ _) as [[c evs]|] eqn:Hr; [|discriminate Hv].
  exists c, evs. split; [reflexivity|].
  destruct (reqres_threads_delivery (P := toy_posix) (fun x => x) (fun x => x) false no_hash 8 8
    (ReqResSafe.example_builder 4) _ (empty_os 100000) hs w ReqResSafe.rr_example_qos_ok
    example_builders_ok E example_sched c evs Hr) as ((s & Hs & _) & Hc & _).
  injection Hv as -> _. split; [exists s; exact Hs|]. split; [reflexivity|]. split; [reflexivity|].
  intros t Ht. exact (proj1 (Hc 1%nat t Ht)).
Defined.

Lemma reqres_threads_wait_free_witness :
  exists c evs, example_run = Some (c, evs) /\
    (exists c' e, exec (P := toy_posix) (fun x => x) (fun x => x) (run_of 0) c = Some (c', e)) /\
    forall c1 e1 more c2 e2, exec (fun x => x) (fun x => x) (CallSend 0 9) c = Some (c1, e1) ->
      run (fun x => x) (fun x => x) more c1 = Some (c2, e2) -> Forall (no_call 1) more -> own_steps 1 more <= 7.
Proof.
  pose proof example_view as Hv.
  assert (Hbusy : match example_run with Some (c, _) => match server_at c with Idle _ => false | _ => true end
                  | None => false end = true) by (vm_compute; reflexivity).
  unfold example_run in *. destruct example_started as [[[hs|e] w]| |] eqn:E; [|discriminate Hv..].
  destruct (run _ _ _ _) as [[c evs]|] eqn:Hr; [|discriminate Hv].
  exists c, evs. split; [reflexivity|].
  destruct (reqres_threads_wait_free (P := toy_posix) (fun x => x) (fun x => x) false no_hash 8 8
    (ReqResSafe.example_builder 4) _ (empty_os 100000) hs w ReqResSafe.rr_example_qos_ok
    example_builders_ok E example_sched c evs Hr) as (Hgo & Hsteps).
  split.
  - apply (Hgo 0%nat (server_at c)); [reflexivity|]. destruct (server_at c); done.
  - intros c1 e1 more c2 e2 He Hm Hn. exact (Hsteps (CallSend 0 9) c1 e1 more c2 e2 eq_refl He Hm Hn).
Defined.
End example.
End ReqResThreads.
