(* ===== verification/ReqResLoop.v ===== *)
(** * A server and a client that wait for each other
    (crates/entangle/tests/cross_process.rs, test_cross_thread_reqres, and
    prop_reqres_correct_computation of tests/proptest_qos.rs)

    The loops of the two threads as programs over the machine of ReqResConc.v:
    the client sends a request and spins in [PendingResponse::receive] until it
    has the response; the server spins until it has received a request, then
    answers it.  In every interleaving the client's responses are those to its
    requests, in order, and under every fair schedule both loops end. *)
From S2P Require Import Prelude Contracts FreeList IndexSet Spsc SpscConc PoolAlloc Channel Shm.
From S2P Require Import DataSegment Config Service ReqRes ReqResSafe ReqResConc.
#[local] Open Scope Z_scope.
#[local] Open Scope rust_scope.

Module ReqResLoop.
Import PointerOffset ReqResPorts SpscThreads ReqResThreads.

(** ** Where a step of a call leads *)
Section next.
Context {P : Posix} {Req Res : Type} (cast_req : Res -> Req) (cast_res : Req -> Res).
#[local] Abbreviation World := (World Req Res).
#[local] Abbreviation pc := (ReqResThreads.pc (Req := Req) (Res := Res)).

(** What no call changes: the capacities of the queues, the number of chunks
    and the list of clients. *)
Definition shape (w : World) : list Z * option (Z * list ClientWire) :=
  ((fun ch => SpscQueue.capacity (ZeroCopyChannel.send_queue ch)) <$> chans w,
   (fun s => (DataSegment.chunk_count (segment s), ReqResPorts.clients s)) <$> server w).

Lemma step_push_capacity q p q' p' e : step_push q p = Some (q', p', e) -> SpscQueue.capacity q' = SpscQueue.capacity q.
Proof using Type.
  destruct p; cbn; try done; intros Hs; repeat case_match; simplify_eq; try done.
  unfold SpscQueue.store_data in *. destruct (index _ _); cbn in *; by simplify_eq.
Qed.

Lemma step_pop_capacity q p q' p' e : step_pop q p = Some (q', p', e) -> SpscQueue.capacity q' = SpscQueue.capacity q.
Proof using Type. destruct p; cbn; try done; intros Hs; repeat case_match; by simplify_eq. Qed.

Lemma shape_chan (w : World) k ch q :
  chans w !! k = Some ch -> SpscQueue.capacity q = SpscQueue.capacity (ZeroCopyChannel.send_queue ch) ->
  shape (with_chan w k (ZeroCopyChannel.with_send ch q)) = shape w.
Proof using Type.
  intros Hk Hq. unfold shape. cbn. f_equal. rewrite list_fmap_insert. cbn. rewrite Hq.
  apply list_insert_id. by rewrite list_lookup_fmap, Hk.
Qed.

Lemma shape_segment (w : World) s g :
  server w = Some s -> DataSegment.chunk_count g = DataSegment.chunk_count (segment s) ->
  shape (with_server w (with_segment s g)) = shape w.
Proof using Type. intros Hs Hg. unfold shape. cbn. by rewrite Hs, Hg. Qed.

Lemma allocate_count g r g' : DataSegment.allocate g = Ret (r, g') -> DataSegment.chunk_count g' = DataSegment.chunk_count g.
Proof using Type. unfold DataSegment.allocate. destruct (PoolAllocator.allocate _) as [[]| |]; cbn; intros; by simplify_eq. Qed.

Lemma deallocate_count g off g' : DataSegment.deallocate g off = Ret g' -> DataSegment.chunk_count g' = DataSegment.chunk_count g.
Proof using Type. unfold DataSegment.deallocate. destruct (PoolAllocator.deallocate _ _); cbn; intros; by simplify_eq. Qed.

Lemma run_thread_shape w (p : pc) w' p' e : run_thread cast_req cast_res w p = Some (w', p', e) -> shape w' = shape w.
Proof using Type.
  intros Hr. destruct p as [|k x|k x off|k x off|k x off q|src|src|src r|src q|src off|src off x|]; cbn in Hr; try done.
  - destruct (server w) as [s|] eqn:Hs; [|by simplify_eq].
    destruct (DataSegment.allocate _) as [[[] g]| |] eqn:Ha; simplify_eq; try done;
      by apply shape_segment; [|by eapply allocate_count].
  - destruct (server w) as [s|] eqn:Hs; simplify_eq; [|done]. unfold shape. cbn. by rewrite Hs.
  - repeat case_match; by simplify_eq.
  - destruct (chans w !! k) as [ch|] eqn:Hk; [|by simplify_eq].
    destruct (step_push _ _) as [[[q' p1] e1]|] eqn:Hs; [|by simplify_eq].
    apply step_push_capacity in Hs. repeat case_match; simplify_eq; by apply shape_chan.
  - repeat case_match; by simplify_eq.
  - repeat case_match; by simplify_eq.
  - repeat case_match; by simplify_eq.
  - destruct (chans w !! channel_of src) as [ch|] eqn:Hk; [|by simplify_eq].
    destruct (step_pop _ _) as [[[q' p1] e1]|] eqn:Hs; [|by simplify_eq].
    apply step_pop_capacity in Hs. repeat case_match; simplify_eq; by apply shape_chan.
  - repeat case_match; by simplify_eq.
  - destruct (server w) as [s|] eqn:Hs; [|by simplify_eq].
    destruct (DataSegment.deallocate _ _) eqn:Ha; simplify_eq; try done.
    by apply shape_segment; [|by eapply deallocate_count].
Qed.

Section state.
Context (w : World) (pcs : list pc) (evs : list (event (Req := Req) (Res := Res))).
Context (s : ServerCell Req Res) (qs : list (list PointerOffset)) (Hinv : inv w pcs evs s qs).

(** The place after [p], and the event of the step. *)
Definition leads (p p' : pc) (e : list event) : Prop :=
  match p with
  | PostAlloc k x =>
      (exists off, p' = PostWrite k x off) /\ e = [] \/
      p' = posted x (Err (Loan OutOfMemory)) /\ e = [] /\ DataSegment.available (segment s) = 0
  | PostWrite k x off => p' = PostState k x off /\ e = []
  | PostState k x off => p' = PostPush k x off (PushStart (raw off)) /\ e = []
  | PostPush k x off _ =>
      (exists q, p' = PostPush k x off q) /\ e = [] \/
      p' = posted x (Ok tt) /\ e = [Posted k x] \/
      exists ch q, chans w !! k = Some ch /\ qs !! k = Some q /\
        SpscQueue.capacity (ZeroCopyChannel.send_queue ch) <= Z.of_nat (length q)
  | FetchState src => p' = FetchPop src PopStart /\ e = []
  | FetchPop src _ =>
      (exists q, p' = FetchPop src q) /\ e = [] \/
      p' = nothing src /\ e = [] /\ qs !! channel_of src = Some [] \/
      (exists off, p' = FetchCopy src off) /\ e = []
  | FetchCopy src off => exists x, p' = FetchFree src off x /\ e = [Fetched (channel_of src) x]
  | FetchFree src _ x => p' = fetched cast_req cast_res src x /\ e = []
  | _ => False
  end.

Lemma run_thread_leads i p w' p' e :
  pcs !! i = Some p -> run_thread cast_req cast_res w p = Some (w', p', e) -> leads p p' e.
Proof using Hinv.
  intros Hi Hr. pose proof (v_pc _ _ _ _ _ Hinv i p Hi) as Hok.
  destruct p as [|k x|k x off|k x off|k x off q|src|src|src r|src q|src off|src off x|]; cbn [run_thread] in Hr; try done.
  - rewrite (v_server _ _ _ _ _ Hinv) in Hr. destruct (pool_alloc _ _ (pool_at _ _ _ _ _ Hinv i _ Hi))
      as [[Ha Hav]|(off & seg & Ha & _)]; rewrite Ha in Hr; simplify_eq; [by right|left; split; [by eexists|done]].
  - rewrite (v_server _ _ _ _ _ Hinv) in Hr. by simplify_eq.
  - destruct Hok as [(Hk & _) _]. destruct (chan_at_index _ _ _ _ _ Hinv k Hk) as (ch & q & Hch & _ & [Hst _ _]).
    rewrite Hch, decide_False in Hr by (by rewrite Hst). by simplify_eq.
  - destruct Hok as ((Hk & Hpr & _) & _ & Hv).
    destruct (chan_at_index _ _ _ _ _ Hinv k Hk) as (ch & l & Hch & Hq & [_ (n & Hrep & Hpu & Hpo) _]).
    rewrite Hpr, (thread_at_lookup _ _ _ Hi) in Hpu. cbn in Hpu. rewrite decide_True in Hpu by done. rewrite Hch in Hr.
    destruct (decide (Z.of_nat (length l) < SpscQueue.capacity (ZeroCopyChannel.send_queue ch))) as [Hlt|Hge];
      [|right; right; exists ch, l; split; [done|split; [done|lia]]].
    destruct (step_push_cases _ _ _ _ _ _ Hrep Hpu Hpo Hv) as (q' & p1 & e1 & Hs & _ & Hcase); [by rewrite length_fmap|].
    rewrite Hs in Hr. destruct Hcase as [(Hv1 & _)|(-> & _)]; [left|right; left; by simplify_eq].
    destruct p1; simplify_eq; (split; [by eexists|done]).
  - destruct Hok as (Hk & _). destruct (chan_at_index _ _ _ _ _ Hinv _ Hk) as (ch & q & Hch & _ & [Hst _ _]).
    rewrite Hch, decide_False in Hr by (by rewrite Hst). by simplify_eq.
  - destruct Hok as ((Hk & Hco & _) & Hb).
    destruct (chan_at_index _ _ _ _ _ Hinv _ Hk) as (ch & l & Hch & Hq & [_ (n & Hrep & Hpu & Hpo) _]).
    rewrite Hco, (thread_at_lookup _ _ _ Hi) in Hpo. cbn in Hpo. rewrite decide_True in Hpo by done. rewrite Hch in Hr.
    destruct (step_pop_cases _ _ _ _ _ Hrep Hpo Hpu Hb) as (q' & p1 & e1 & Hs & _ & Hcase). rewrite Hs in Hr.
    destruct Hcase as [(Hb1 & _)|[(-> & _ & Hl & _)|(v & l' & -> & _)]].
    + left. destruct p1; simplify_eq; (split; [by eexists|done]).
    + right. left. simplify_eq. apply fmap_nil_inv in Hl. by subst l.
    + right. right. simplify_eq. split; [by eexists|done].
  - destruct Hok as (_ & x & Hx). rewrite (v_server _ _ _ _ _ Hinv), Hx in Hr. simplify_eq. by eexists.
  - rewrite (v_server _ _ _ _ _ Hinv) in Hr.
    destruct (pool_dealloc _ _ _ (pool_at _ _ _ _ _ Hinv i _ Hi)) as (seg & Hd & _). rewrite Hd in Hr. by simplify_eq.
Qed.
End state.
End next.

(** ** The two loops *)

(** The client with the responses it has: at the head of [for], in [send], at
    the head of the loop in [PendingResponse::receive], in [try_receive];
    [ClientFailed] is an [unwrap] of an error or a panic. *)
Inductive client_loop (Res : Type) :=
| CSend (acc : list Res)
| CSending (acc : list Res)
| CTry (acc : list Res)
| CTrying (acc : list Res)
| ClientFailed.
Arguments CSend {Res} acc.
Arguments CSending {Res} acc.
Arguments CTry {Res} acc.
Arguments CTrying {Res} acc.
Arguments ClientFailed {Res}.

(** The server with the number of requests it has answered: at the head of the
    inner loop, in [receive], with a request to answer, in [respond]. *)
Inductive server_loop :=
| SReceive (k : nat)
| SReceiving (k : nat)
| SRespond (k : nat)
| SResponding (k : nat)
| ServerFailed.

Inductive thread := TheClient | TheServer.

#[global] Instance thread_eq_dec : EqDecision thread.
Proof. solve_decision. Defined.

Section loops.
Context {P : Posix} {Req Res : Type} (cast_req : Res -> Req) (cast_res : Req -> Res).
(** The requests, and what the server computes. *)
Context (requests : list Req) (compute : Req -> Res).
#[local] Abbreviation config := (ReqResThreads.config (P := P) (Req := Req) (Res := Res)).
#[local] Abbreviation event := (ReqResThreads.event (Req := Req) (Res := Res)).
#[local] Abbreviation pc := (ReqResThreads.pc (Req := Req) (Res := Res)).
#[local] Abbreviation client_thread := (ReqResThreads.client_thread (Req := Req) (Res := Res)).
#[local] Abbreviation n := (length requests).

(** [trace] (ghost) has the events so far. *)
Record sys := mkSys {
  cfg : config;
  trace : list event;
  client : client_loop Res;
  serv : server_loop;
}.

Definition client_pc (c : config) : pc :=
  match ReqResThreads.clients c !! 0%nat with Some t => at_ t | None => Panicked end.

(** [client.send(&request).unwrap()] *)
Definition after_send (acc : list Res) (c : config) : client_loop Res :=
  match client_pc c with
  | Idle (Sent (Ok _)) => CTry acc
  | Idle _ | Panicked => ClientFailed
  | _ => CSending acc
  end.

(** [if let Some(value) = self.try_receive()? { return Ok(value); }], then
    [unwrap] and [push]. *)
Definition after_try (acc : list Res) (c : config) : client_loop Res :=
  match client_pc c with
  | Idle (Tried (Ok (Some v))) => CSend (acc ++ [v])
  | Idle (Tried (Ok None)) => CTry acc
  | Idle _ | Panicked => ClientFailed
  | _ => CTrying acc
  end.

Definition step_client (s : sys) : sys :=
  let act a next :=
    match exec cast_req cast_res a (cfg s) with
    | Some (c, e) => mkSys c (trace s ++ e) (next c) (serv s)
    | None => mkSys (cfg s) (trace s) ClientFailed (serv s)
    end in
  match client s with
  | CSend acc =>
      match requests !! length acc with
      | Some x => act (CallSend 0 x) (after_send acc)
      | None => s
      end
  | CSending acc => act (RunClient 0) (after_send acc)
  | CTry acc => act (CallTry 0 0) (after_try acc)
  | CTrying acc => act (RunClient 0) (after_try acc)
  | ClientFailed => s
  end.

(** [if let Ok(Some(active_req)) = server.receive()] *)
Definition after_receive (k : nat) (c : config) : server_loop :=
  match server_at c with
  | Idle (Received (Ok (Some _))) => SRespond k
  | Idle _ => SReceive k
  | Panicked => ServerFailed
  | _ => SReceiving k
  end.

(** [active_req.respond(&response).unwrap(); break;] *)
Definition after_respond (k : nat) (c : config) : server_loop :=
  match server_at c with
  | Idle (Responded (Ok _)) => SReceive (S k)
  | Idle _ | Panicked => ServerFailed
  | _ => SResponding k
  end.

Definition step_server (s : sys) : sys :=
  let act a next :=
    match exec cast_req cast_res a (cfg s) with
    | Some (c, e) => mkSys c (trace s ++ e) (client s) (next c)
    | None => mkSys (cfg s) (trace s) (client s) ServerFailed
    end in
  match serv s with
  | SReceive k => if (k <? n)%nat then act CallReceive (after_receive k) else s
  | SReceiving k => act RunServer (after_receive k)
  | SRespond k =>
      match actives (cfg s) !! 0%nat with
      | Some a => act (CallRespond 0 (compute (a_request a))) (after_respond k)
      | None => mkSys (cfg s) (trace s) (client s) ServerFailed
      end
  | SResponding k => act RunServer (after_respond k)
  | ServerFailed => s
  end.

Definition step (t : thread) (s : sys) : sys :=
  match t with TheClient => step_client s | TheServer => step_server s end.

Definition run (sched : list thread) (s : sys) : sys := foldl (fun s t => step t s) s sched.

Definition start (w : World Req Res) (h : Client) : sys := mkSys (init w [h]) [] (CSend []) (SReceive 0).

(** ** The invariant of the loops *)

Definition asked (i : nat) : list (Req + Res) := inl <$> take i requests.
Definition results (i : nat) : list Res := compute <$> take i requests.
Definition answered (i : nat) : list (Req + Res) := inr <$> results i.

(** In a call that posts [x] on channel [k]. *)
Definition posting (k : nat) (x : Req + Res) (p : pc) : Prop :=
  match p with
  | PostAlloc j y | PostWrite j y _ | PostState j y _ | PostPush j y _ _ => j = k /\ y = x
  | _ => False
  end.

(** In a call that fetches from [src], and has not copied a payload yet. *)
Definition fetching (src : source) (p : pc) : Prop :=
  match p with FetchState s | FetchPop s _ | FetchCopy s _ => s = src | _ => False end.

Definition client_ok (l : client_loop Res) (c : config) (evs : list event) : Prop :=
  match l with
  | CSend acc =>
      acc = results (length acc) /\ (length acc <= n)%nat /\ (exists last, client_pc c = Idle last) /\
      posts 0 evs = asked (length acc) /\ fetches 1 evs = answered (length acc)
  | CSending acc =>
      acc = results (length acc) /\ (exists x, requests !! length acc = Some x /\ posting 0 (inl x) (client_pc c)) /\
      posts 0 evs = asked (length acc) /\ fetches 1 evs = answered (length acc)
  | CTry acc =>
      acc = results (length acc) /\ (length acc < n)%nat /\ (exists last, client_pc c = Idle last) /\
      posts 0 evs = asked (S (length acc)) /\ fetches 1 evs = answered (length acc)
  | CTrying acc =>
      acc = results (length acc) /\ (length acc < n)%nat /\ posts 0 evs = asked (S (length acc)) /\
      (fetching (Response 1) (client_pc c) /\ fetches 1 evs = answered (length acc) \/
       exists off x, client_pc c = FetchFree (Response 1) off (inr (compute x)) /\
         requests !! length acc = Some x /\ fetches 1 evs = answered (S (length acc)))
  | ClientFailed => False
  end.

Definition server_ok (wire : ClientWire) (l : server_loop) (c : config) (evs : list event) : Prop :=
  match l with
  | SReceive k =>
      (k <= n)%nat /\ (exists last, server_at c = Idle last) /\ actives c = [] /\
      fetches 0 evs = asked k /\ posts 1 evs = answered k
  | SReceiving k =>
      (k < n)%nat /\ actives c = [] /\ posts 1 evs = answered k /\
      (fetching (Request wire []) (server_at c) /\ fetches 0 evs = asked k \/
       exists off x, server_at c = FetchFree (Request wire []) off (inl x) /\
         fetches 0 evs = asked (S k) /\ requests !! k = Some x)
  | SRespond k =>
      (exists last, server_at c = Idle last) /\
      (exists x, requests !! k = Some x /\ actives c = [mk_active x 1]) /\
      fetches 0 evs = asked (S k) /\ posts 1 evs = answered k
  | SResponding k =>
      (exists x, requests !! k = Some x /\ posting 1 (inr (compute x)) (server_at c)) /\
      actives c = [] /\ fetches 0 evs = asked (S k) /\ posts 1 evs = answered k
  | ServerFailed => False
  end.

(** One client, room for one message on each channel, and for every chunk that
    can be in use. *)
Definition room (wire : ClientWire) (w : World Req Res) : Prop :=
  request_channel wire = 0%nat /\ response_channel wire = 1%nat /\
  exists cap0 cap1 count, shape w = ([cap0; cap1], Some (count, [wire])) /\ 1 <= cap0 /\ 1 <= cap1 /\ 5 <= count.

Record good (wire : ClientWire) (s : sys) : Prop := {
  g_machine : exists sv qs, machine_ok (cfg s) (trace s) sv qs;
  g_room : room wire (world (cfg s));
  g_one : exists t, ReqResThreads.clients (cfg s) = [t] /\
    match client s with CTry _ | CTrying _ => exists p, p ∈ pendings t | _ => True end;
  g_lost : losses (trace s) = [];
  g_client : client_ok (client s) (cfg s) (trace s);
  g_server : server_ok wire (serv s) (cfg s) (trace s);
}.

(** ** The work that is left

    It falls with every step, but for those of a loop that waits. *)
Definition responded (acc : list Res) (evs : list event) : bool := (length acc <? length (posts 1 evs))%nat.
Definition requested (k : nat) (evs : list event) : bool := (k <? length (posts 0 evs))%nat.

Definition client_work (l : client_loop Res) (p : pc) (evs : list event) : Z :=
  match l with
  | CSend acc => 20 * (Z.of_nat n - Z.of_nat (length acc))
  | CSending acc => 20 * (Z.of_nat n - Z.of_nat (length acc)) - 8 + steps_left p
  | CTry acc => 20 * (Z.of_nat n - Z.of_nat (length acc)) - (if responded acc evs then 10 else 9)
  | CTrying acc =>
      20 * (Z.of_nat n - Z.of_nat (length acc)) - (if responded acc evs then 20 - steps_left p else 9)
  | ClientFailed => 0
  end.

Definition server_work (l : server_loop) (p : pc) (evs : list event) : Z :=
  match l with
  | SReceive k => 21 * (Z.of_nat n - Z.of_nat k) - (if requested k evs then 1 else 0)
  | SReceiving k => 21 * (Z.of_nat n - Z.of_nat k) - (if requested k evs then 11 - steps_left p else 0)
  | SRespond k => 21 * (Z.of_nat n - Z.of_nat k) - 11
  | SResponding k => 21 * (Z.of_nat n - Z.of_nat k) - 19 + steps_left p
  | ServerFailed => 0
  end.

Definition work (s : sys) : Z :=
  client_work (client s) (client_pc (cfg s)) (trace s) + server_work (serv s) (server_at (cfg s)) (trace s).

(** A loop that has ended, or can only look again. *)
Definition waits (t : thread) (s : sys) : bool :=
  match t with
  | TheClient =>
      match client s with
      | CSend acc => (n <=? length acc)%nat
      | CTry acc | CTrying acc => negb (responded acc (trace s))
      | _ => false
      end
  | TheServer =>
      match serv s with
      | SReceive k => (n <=? k)%nat || negb (requested k (trace s))
      | SReceiving k => negb (requested k (trace s))
      | _ => false
      end
  end.

Lemma length_results i : (i <= n)%nat -> length (results i) = i.
Proof using Type. intros Hi. unfold results. rewrite length_fmap, length_take. lia. Qed.
Lemma length_asked i : (i <= n)%nat -> length (asked i) = i.
Proof using Type. intros Hi. unfold asked. rewrite length_fmap, length_take. lia. Qed.
Lemma length_answered i : (i <= n)%nat -> length (answered i) = i.
Proof using Type. intros Hi. unfold answered. by rewrite length_fmap, length_results. Qed.
Lemma asked_S i x : requests !! i = Some x -> asked (S i) = asked i ++ [inl x].
Proof using Type. intros Hx. unfold asked. by rewrite (take_S_r _ _ _ Hx), fmap_app. Qed.
Lemma results_S i x : requests !! i = Some x -> results (S i) = results i ++ [compute x].
Proof using Type. intros Hx. unfold results. by rewrite (take_S_r _ _ _ Hx), fmap_app. Qed.
Lemma answered_S i x : requests !! i = Some x -> answered (S i) = answered i ++ [inr (compute x)].
Proof using Type. intros Hx. unfold answered. by rewrite (results_S _ _ Hx), fmap_app. Qed.

(** The message after the first [i]. *)
Lemma asked_next i k y l : asked k = asked i ++ y :: l -> (i <= n)%nat -> exists x, requests !! i = Some x /\ y = inl x.
Proof using Type.
  intros He Hi. assert (Hl : asked k !! i = Some y).
  { rewrite He, lookup_app_r, length_asked, Nat.sub_diag by (rewrite ?length_asked; lia). done. }
  unfold asked in Hl. rewrite list_lookup_fmap in Hl. destruct (take k requests !! i) as [x|] eqn:Hx; [|done].
  apply lookup_take_Some in Hx as [Hx _]. exists x. split; [done|]. by injection Hl.
Qed.
Lemma answered_next i k y l :
  answered k = answered i ++ y :: l -> (i <= n)%nat -> exists x, requests !! i = Some x /\ y = inr (compute x).
Proof using Type.
  intros He Hi. assert (Hl : answered k !! i = Some y).
  { rewrite He, lookup_app_r, length_answered, Nat.sub_diag by (rewrite ?length_answered; lia). done. }
  unfold answered, results in Hl. rewrite !list_lookup_fmap in Hl.
  destruct (take k requests !! i) as [x|] eqn:Hx; [|done].
  apply lookup_take_Some in Hx as [Hx _]. exists x. split; [done|]. by injection Hl.
Qed.

(** Steps of a call that has [room]. *)
Lemma posting_next w sv qs k x p p' e :
  posting k x p -> leads cast_req cast_res w sv qs p p' e ->
  (holds p = [] -> DataSegment.available (segment sv) <> 0) ->
  (forall ch q, chans w !! k = Some ch -> qs !! k = Some q ->
     Z.of_nat (length q) < SpscQueue.capacity (ZeroCopyChannel.send_queue ch)) ->
  posting k x p' /\ e = [] \/ p' = posted x (Ok tt) /\ e = [Posted k x].
Proof using Type.
  intros Hp Hl Ha Hq. destruct p; cbn in Hp; try done; destruct Hp as [-> ->]; cbn in Hl.
  - destruct Hl as [[[off ->] ->]|(_ & _ & Hl)]; [by left|by apply Ha in Hl].
  - destruct Hl as [-> ->]. by left.
  - destruct Hl as [-> ->]. by left.
  - destruct Hl as [[[q ->] ->]|[[-> ->]|(ch & q & Hch & Hqs & Hge)]]; [by left|by right|].
    specialize (Hq ch q Hch Hqs). lia.
Qed.

Lemma fetching_next w sv qs src p p' e :
  fetching src p -> leads cast_req cast_res w sv qs p p' e ->
  fetching src p' /\ e = [] \/
  p' = nothing src /\ e = [] /\ qs !! channel_of src = Some [] /\ (forall m k, reading m k p = []) \/
  exists off x, p' = FetchFree src off x /\ e = [Fetched (channel_of src) x].
Proof using Type.
  intros Hp Hl. destruct p; cbn in Hp; try done; subst; cbn in Hl.
  - destruct Hl as [-> ->]. by left.
  - destruct Hl as [[[q ->] ->]|[(-> & -> & Hl)|[[off ->] ->]]]; [by left|right; left; by split_and!|by left].
  - destruct Hl as (x & -> & ->). right. right. eauto.
Qed.

Lemma posting_steps k x (p : pc) : posting k x p -> 1 <= steps_left p <= 7.
Proof using Type. destruct p as [| | | |? ? ? q| | | | | | |]; cbn; try done; try lia. pose proof (push_rank_bound q). lia. Qed.

Lemma fetching_steps src (p : pc) : fetching src p -> turns src = 0 -> 2 <= steps_left p <= 9.
Proof using Type.
  destruct p as [| | | | |s| | |s q|s off| |]; cbn; try done; intros -> ->; try lia. pose proof (pop_rank_bound q). lia.
Qed.

(** ** What the machine knows about the two channels *)
Section machine.
Context (wire : ClientWire) (c : config) (evs : list event) (sv : ServerCell Req Res) (qs : list (list PointerOffset)).
Context (t : client_thread) (Hm : machine_ok c evs sv qs) (Hr : room wire (world c)).
Context (Ht : ReqResThreads.clients c = [t]).

Lemma two_threads : pcs_of c = [server_at c; client_pc c].
Proof using Ht. unfold pcs_of, client_pc. by rewrite Ht. Qed.

Lemma client_pc_at : client_pc c = at_ t.
Proof using Ht. unfold client_pc. by rewrite Ht. Qed.

Lemma pc_idle_reading last mem k : reading mem k (Idle last : pc) = [].
Proof using Type. done. Qed.

(** A channel's queue, and what it still has to deliver. *)
Lemma channel k : (k < 2)%nat -> exists ch q vs, chans (world c) !! k = Some ch /\ qs !! k = Some q /\
  1 <= SpscQueue.capacity (ZeroCopyChannel.send_queue ch) /\ length vs = length q /\
  posts k evs = fetches k evs ++
    reading (memory sv) k (match k with O => server_at c | S _ => client_pc c end) ++ vs.
Proof using Hm Hr Ht.
  intros Hk. destruct Hr as (_ & _ & cap0 & cap1 & count & Hs & H0 & H1 & _). injection Hs as Hs _.
  assert (Hlen : length (chans (world c)) = 2%nat) by (apply (f_equal length) in Hs; by rewrite length_fmap in Hs).
  destruct (chan_at_index _ _ _ _ _ (m_inv _ _ _ _ Hm) k) as (ch & q & Hch & Hq & [_ _ (vs & Hv & Hf)]); [lia|].
  exists ch, q, vs. split; [done|]. split; [done|]. split; [|split; [by apply Forall2_length in Hf|]].
  - apply (f_equal (.!! k)) in Hs. rewrite list_lookup_fmap, Hch in Hs.
    destruct k as [|[|k]]; [injection Hs as ->; lia..|lia].
  - rewrite two_threads in Hv. destruct k as [|[|k]]; [done..|lia].
Qed.

Lemma fetched_first k : (k < 2)%nat -> exists l, posts k evs = fetches k evs ++ l.
Proof using Hm Hr Ht. intros Hk. destruct (channel k Hk) as (_ & _ & vs & _ & _ & _ & _ & Hv). eauto. Qed.

(** Few messages, few chunks. *)
Lemma chunks_left :
  losses evs = [] -> (length (posts 0 evs) <= length (fetches 0 evs) + 1)%nat ->
  (length (posts 1 evs) <= length (fetches 1 evs) + 1)%nat -> holds (server_at c) = [] \/ holds (client_pc c) = [] ->
  DataSegment.available (segment sv) <> 0.
Proof using Hm Hr Ht.
  intros Hl H0 H1 Hh. destruct (channel 0) as (ch0 & q0 & vs0 & Hc0 & Hq0 & _ & Hn0 & Hv0); [lia|].
  destruct (channel 1) as (ch1 & q1 & vs1 & Hc1 & Hq1 & _ & Hn1 & Hv1); [lia|].
  pose proof (v_pool _ _ _ _ _ (m_inv _ _ _ _ Hm)) as Hp. apply pool_used_counts in Hp as [_ ->].
  pose proof (v_length _ _ _ _ _ (m_inv _ _ _ _ Hm)) as Hlq.
  destruct Hr as (_ & _ & cap0 & cap1 & count & Hs & _ & _ & Hcount). injection Hs as Hs Hsv.
  apply (f_equal length) in Hs. rewrite length_fmap in Hs. cbn in Hs.
  rewrite (v_server _ _ _ _ _ (m_inv _ _ _ _ Hm)) in Hsv. injection Hsv as -> _.
  destruct qs as [|a [|b [|]]]; cbn in Hlq, Hq0, Hq1; try lia. simplify_eq.
  apply (f_equal length) in Hv0, Hv1. rewrite !length_app in Hv0, Hv1.
  rewrite Hl, two_threads. cbn. rewrite !length_app. cbn.
  assert (Hb : forall p : pc, (length (holds p) <= 1)%nat) by (intros []; cbn; lia).
  pose proof (Hb (server_at c)). pose proof (Hb (client_pc c)). destruct Hh as [E|E]; rewrite E; cbn; lia.
Qed.
End machine.

(** One step of the client's thread, and of the server's. *)
Lemma client_step wire c evs t :
  (exists sv qs, machine_ok c evs sv qs) -> room wire (world c) -> ReqResThreads.clients c = [t] ->
  match at_ t with Idle _ => False | _ => True end ->
  exists sv qs c' e, machine_ok c evs sv qs /\ exec cast_req cast_res (RunClient 0) c = Some (c', e) /\
    (exists sv' qs', machine_ok c' (evs ++ e) sv' qs') /\ room wire (world c') /\
    server_at c' = server_at c /\ actives c' = actives c /\
    leads cast_req cast_res (world c) sv qs (at_ t) (client_pc c') e /\
    steps_left (client_pc c') < steps_left (at_ t) /\
    exists t', ReqResThreads.clients c' = [t'] /\ handle t' = handle t /\
      pendings t' = match client_pc c' with Idle (Sent (Ok _)) => mk_pending (c_response (handle t)) :: pendings t | _ => pendings t end.
Proof using Type.
  intros (sv & qs & Hm) Hr Ht Hp. pose proof (two_threads c t Ht) as Hpcs. pose proof (client_pc_at c t Ht) as Hat.
  assert (Hi : pcs_of c !! 1%nat = Some (at_ t)) by (by rewrite Hpcs, <- Hat).
  destruct (thread_goes_on cast_req cast_res _ _ _ _ _ (m_inv _ _ _ _ Hm) 1 _ Hi Hp)
    as (w' & p' & e & sv' & qs' & Hrun & _ & _ & Hlt).
  destruct t as [h ps p]. cbn [at_ handle pendings] in *.
  pose proof (run_thread_leads cast_req cast_res _ _ _ _ _ (m_inv _ _ _ _ Hm) 1 _ _ _ _ Hi Hrun) as Hl.
  eexists sv, qs, _, e. split; [done|].
  assert (He : exec cast_req cast_res (RunClient 0) c = Some (mkC w' (server_at c) (actives c)
    [mkT h (match p' with Idle (Sent (Ok _)) => mk_pending (c_response h) :: ps | _ => ps end) p'], e)).
  { cbn [exec]. rewrite Ht. cbn [lookup list_lookup]. by rewrite Hrun. }
  split; [exact He|]. split; [by eapply exec_machine; [|exact He]; eauto|].
  split. { unfold room in *. cbn [world]. by rewrite (run_thread_shape _ _ _ _ _ _ _ Hrun). }
  split; [done|]. split; [done|]. split; [done|]. split; [cbn; lia|]. eexists. split; [done|]. by split.
Qed.

Lemma server_step wire c evs t :
  (exists sv qs, machine_ok c evs sv qs) -> room wire (world c) -> ReqResThreads.clients c = [t] ->
  match server_at c with Idle _ => False | _ => True end ->
  exists sv qs c' e, machine_ok c evs sv qs /\ exec cast_req cast_res RunServer c = Some (c', e) /\
    (exists sv' qs', machine_ok c' (evs ++ e) sv' qs') /\ room wire (world c') /\
    ReqResThreads.clients c' = ReqResThreads.clients c /\
    leads cast_req cast_res (world c) sv qs (server_at c) (server_at c') e /\
    steps_left (server_at c') < steps_left (server_at c) /\
    actives c' = match server_at c' with Idle (Received (Ok (Some a))) => a :: actives c | _ => actives c end.
Proof using Type.
  intros (sv & qs & Hm) Hr Ht Hp. pose proof (two_threads c t Ht) as Hpcs.
  assert (Hi : pcs_of c !! 0%nat = Some (server_at c)) by (by rewrite Hpcs).
  destruct (thread_goes_on cast_req cast_res _ _ _ _ _ (m_inv _ _ _ _ Hm) 0 _ Hi Hp)
    as (w' & p' & e & sv' & qs' & Hrun & _ & _ & Hlt).
  pose proof (run_thread_leads cast_req cast_res _ _ _ _ _ (m_inv _ _ _ _ Hm) 0 _ _ _ _ Hi Hrun) as Hl.
  eexists sv, qs, _, e. split; [done|].
  assert (He : exec cast_req cast_res RunServer c = Some (mkC w' p'
    (match p' with Idle (Received (Ok (Some a))) => a :: actives c | _ => actives c end) (ReqResThreads.clients c), e)).
  { cbn [exec]. by rewrite Hrun. }
  split; [exact He|]. split; [by eapply exec_machine; [|exact He]; eauto|].
  split. { unfold room in *. cbn [world]. by rewrite (run_thread_shape _ _ _ _ _ _ _ Hrun). }
  split; [done|]. split; [done|]. split; [cbn; lia|done].
Qed.

(** ** Steps of the loops *)

Lemma client_ok_ext l c c' evs evs' :
  client_pc c' = client_pc c -> posts 0 evs' = posts 0 evs -> fetches 1 evs' = fetches 1 evs ->
  client_ok l c evs -> client_ok l c' evs'.
Proof using Type. intros Hp H1 H2. destruct l; cbn; by rewrite ?Hp, ?H1, ?H2. Qed.

Lemma server_ok_ext wire l c c' evs evs' :
  server_at c' = server_at c -> actives c' = actives c ->
  posts 1 evs' = posts 1 evs -> fetches 0 evs' = fetches 0 evs ->
  server_ok wire l c evs -> server_ok wire l c' evs'.
Proof using Type. intros Hp Ha H1 H2. destruct l; cbn; by rewrite ?Hp, ?Ha, ?H1, ?H2. Qed.

Lemma fetches_one k (x : Req + Res) : fetches k [Fetched k x] = [x].
Proof using Type. unfold fetches. cbn. by rewrite decide_True. Qed.

(** How far each side has come. *)
Lemma client_counts l c evs : client_ok l c evs ->
  (length (fetches 1 evs) <= length (posts 0 evs) <= length (fetches 1 evs) + 1)%nat /\
  (length (posts 0 evs) <= n)%nat /\
  match l with CSend _ | CSending _ => length (posts 0 evs) = length (fetches 1 evs) | _ => True end.
Proof using Type.
  destruct l as [acc|acc|acc|acc|]; cbn; [..|done].
  - intros (_ & Hi & _ & -> & ->). rewrite length_asked, length_answered by done. lia.
  - intros (_ & (x & Hx & _) & -> & ->). apply lookup_lt_Some in Hx. rewrite length_asked, length_answered by lia. lia.
  - intros (_ & Hi & _ & -> & ->). rewrite length_asked, length_answered by lia. lia.
  - intros (_ & Hi & -> & [[_ ->]|(off & x & _ & _ & ->)]); rewrite length_asked, length_answered by lia; lia.
Qed.

Lemma server_counts wire l c evs : server_ok wire l c evs ->
  (length (posts 1 evs) <= length (fetches 0 evs) <= length (posts 1 evs) + 1)%nat /\
  match l with SRespond _ | SResponding _ => length (fetches 0 evs) = S (length (posts 1 evs)) | _ => True end.
Proof using Type.
  destruct l as [k|k|k|k|]; cbn; [..|done].
  - intros (Hk & _ & _ & -> & ->). rewrite length_asked, length_answered by done. lia.
  - intros (Hk & _ & -> & [[_ ->]|(off & x & _ & -> & _)]); rewrite length_asked, length_answered by lia; lia.
  - intros (_ & (x & Hx & _) & -> & ->). apply lookup_lt_Some in Hx. rewrite length_asked, length_answered by lia. lia.
  - intros ((x & Hx & _) & _ & -> & ->). apply lookup_lt_Some in Hx. rewrite length_asked, length_answered by lia. lia.
Qed.

Lemma client_work_mono l c evs evs' :
  client_ok l c evs -> (length (posts 1 evs) <= length (posts 1 evs'))%nat ->
  client_work l (client_pc c) evs' <= client_work l (client_pc c) evs.
Proof using Type.
  intros Hok Hle. destruct l as [acc|acc|acc|acc|]; cbn [client_work]; try lia; unfold responded.
  - destruct (Nat.ltb_spec (length acc) (length (posts 1 evs))), (Nat.ltb_spec (length acc) (length (posts 1 evs'))); lia.
  - assert (Hs : steps_left (client_pc c) <= 9).
    { destruct Hok as (_ & _ & _ & [[Hf _]|(off & x & -> & _)]); [apply fetching_steps in Hf; [lia|done]|cbn; lia]. }
    destruct (Nat.ltb_spec (length acc) (length (posts 1 evs))), (Nat.ltb_spec (length acc) (length (posts 1 evs'))); lia.
Qed.

Lemma server_work_mono wire l c evs evs' :
  server_ok wire l c evs -> (length (posts 0 evs) <= length (posts 0 evs'))%nat ->
  server_work l (server_at c) evs' <= server_work l (server_at c) evs.
Proof using Type.
  intros Hok Hle. destruct l as [k|k|k|k|]; cbn [server_work]; try lia; unfold requested.
  - destruct (Nat.ltb_spec k (length (posts 0 evs))), (Nat.ltb_spec k (length (posts 0 evs'))); lia.
  - assert (Hs : steps_left (server_at c) <= 9).
    { destruct Hok as (_ & _ & _ & [[Hf _]|(off & x & -> & _)]); [apply fetching_steps in Hf; [lia|done]|cbn; lia]. }
    destruct (Nat.ltb_spec k (length (posts 0 evs))), (Nat.ltb_spec k (length (posts 0 evs'))); lia.
Qed.

(** Both channels have room for what is being posted. *)
Lemma enough_room wire c evs sv qs t :
  machine_ok c evs sv qs -> room wire (world c) -> ReqResThreads.clients c = [t] -> losses evs = [] ->
  (length (posts 0 evs) <= length (fetches 1 evs) + 1)%nat -> (length (posts 1 evs) <= length (fetches 0 evs))%nat ->
  (holds (server_at c) = [] \/ holds (client_pc c) = [] -> DataSegment.available (segment sv) <> 0) /\
  forall k ch q, (k < 2)%nat -> chans (world c) !! k = Some ch -> qs !! k = Some q ->
    length (posts k evs) = length (fetches k evs) ->
    Z.of_nat (length q) < SpscQueue.capacity (ZeroCopyChannel.send_queue ch).
Proof using Type.
  intros Hm Hr Ht Hl H0 H1.
  destruct (fetched_first wire c evs sv qs t Hm Hr Ht 0) as [l0 Hf0]; [lia|].
  destruct (fetched_first wire c evs sv qs t Hm Hr Ht 1) as [l1 Hf1]; [lia|].
  apply (f_equal length) in Hf0, Hf1. rewrite length_app in Hf0, Hf1. split.
  - intros Hh. apply (chunks_left wire c evs sv qs t Hm Hr Ht Hl); [lia|lia|done].
  - intros k ch q Hk Hch Hq He. destruct (channel wire c evs sv qs t Hm Hr Ht k Hk) as (ch' & q' & vs & Hch' & Hq' & Hcap & Hn & Hv).
    simplify_eq. apply (f_equal length) in Hv. rewrite !length_app in Hv. lia.
Qed.

Lemma client_advances wire s c' e l' d :
  good wire s -> (exists sv qs, machine_ok c' (trace s ++ e) sv qs) -> room wire (world c') ->
  (exists t, ReqResThreads.clients c' = [t] /\
     match l' with CTry _ | CTrying _ => exists p, p ∈ pendings t | _ => True end) ->
  server_at c' = server_at (cfg s) -> actives c' = actives (cfg s) ->
  losses e = [] /\ fetches 0 e = [] /\ posts 1 e = [] ->
  client_ok l' c' (trace s ++ e) ->
  client_work l' (client_pc c') (trace s ++ e) + d <= client_work (client s) (client_pc (cfg s)) (trace s) ->
  good wire (mkSys c' (trace s ++ e) l' (serv s)) /\ work (mkSys c' (trace s ++ e) l' (serv s)) + d <= work s.
Proof using Type.
  intros Hg Hm Hr Ht Hs Ha (He1 & He2 & He3) Hok Hw. split.
  - split; cbn [cfg trace client serv]; try done.
    + by rewrite losses_app, He1, (g_lost _ _ Hg).
    + eapply server_ok_ext; [done|done|..|apply (g_server _ _ Hg)]; by rewrite ?posts_app, ?fetches_app, ?He2, ?He3, app_nil_r.
  - unfold work. cbn [cfg trace client serv]. rewrite Hs.
    pose proof (server_work_mono _ _ _ _ (trace s ++ e) (g_server _ _ Hg)) as Hmono.
    rewrite posts_app, length_app in Hmono. specialize (Hmono ltac:(lia)). lia.
Qed.

Lemma after_send_posting acc c k x : posting k x (client_pc c) -> after_send acc c = CSending acc.
Proof using Type. unfold after_send. by destruct (client_pc c). Qed.
Lemma after_try_fetching acc c src : fetching src (client_pc c) -> after_try acc c = CTrying acc.
Proof using Type. unfold after_try. by destruct (client_pc c). Qed.

Lemma responses_posted wire l c evs : server_ok wire l c evs -> exists k, posts 1 evs = answered k.
Proof using Type. destruct l; cbn; try done; intros Hok; destruct_and?; eauto. Qed.
Lemma requests_posted l c evs : client_ok l c evs -> exists k, posts 0 evs = asked k.
Proof using Type. destruct l; cbn; try done; intros Hok; destruct_and?; eauto. Qed.

(** A call of the client's begins. *)
Lemma client_begins wire s a c' e x l' d :
  good wire s -> exec cast_req cast_res a (cfg s) = Some (c', e) ->
  e = [] -> world c' = world (cfg s) -> server_at c' = server_at (cfg s) -> actives c' = actives (cfg s) ->
  (exists t t', ReqResThreads.clients (cfg s) = [t] /\ ReqResThreads.clients c' = [t'] /\ pendings t' = pendings t /\ at_ t' = x) ->
  match l' with
  | CTry _ | CTrying _ => match client s with CTry _ | CTrying _ => True | _ => False end
  | _ => True
  end ->
  client_ok l' c' (trace s) ->
  client_work l' x (trace s) + d <= client_work (client s) (client_pc (cfg s)) (trace s) ->
  good wire (mkSys c' (trace s ++ e) l' (serv s)) /\ work (mkSys c' (trace s ++ e) l' (serv s)) + d <= work s.
Proof using Type.
  intros Hg He -> Hw Hs Ha (t & t' & Ht & Ht' & Hps & <-) Hl Hok Hwk. apply client_advances; try done.
  - eapply exec_machine; [apply (g_machine _ _ Hg)|done].
  - rewrite Hw. apply Hg.
  - exists t'. split; [done|]. rewrite Hps. destruct (g_one _ _ Hg) as (u & Hu & Hp). rewrite Ht in Hu. injection Hu as <-.
    by destruct l', (client s).
  - by rewrite app_nil_r.
  - rewrite (client_pc_at _ _ Ht'). by rewrite app_nil_r.
Qed.

Lemma first_client wire s t : good wire s -> ReqResThreads.clients (cfg s) = [t] ->
  handle t = mk_client 0 1 /\ forall p, p ∈ pendings t -> p_response p = 1%nat.
Proof using Type.
  intros Hg Ht. destruct (g_machine _ _ Hg) as (sv & qs & Hm).
  destruct (m_clients _ _ _ _ Hm 0 t) as (H1 & _ & H2); [by rewrite Ht|]. by split.
Qed.

Definition client_goes_on (wire : ClientWire) (s : sys) : Prop :=
  good wire (step_client s) /\ work (step_client s) + (if waits TheClient s then 0 else 1) <= work s /\
  serv (step_client s) = serv s /\ (waits TheClient s = true -> trace (step_client s) = trace s).

Lemma send_goes_on wire s acc : good wire s -> client s = CSend acc -> client_goes_on wire s.
Proof using Type.
  intros Hg Hc. pose proof (g_client _ _ Hg) as Hok. rewrite Hc in Hok.
  destruct Hok as (Hacc & Hle & [last Hidle] & Hpo & Hfe).
  destruct (g_one _ _ Hg) as (t & Ht & _). destruct (first_client _ _ _ Hg Ht) as [Hh _].
  unfold client_goes_on, step_client. rewrite Hc. cbn [waits]. rewrite Hc.
  destruct (requests !! length acc) as [x|] eqn:Hx.
  2: { apply lookup_ge_None in Hx. rewrite (proj2 (Nat.leb_le _ _)) by lia. split; [done|]. split; [lia|]. done. }
  pose proof (lookup_lt_Some _ _ _ Hx). rewrite (proj2 (Nat.leb_gt _ _)) by lia.
  destruct t as [h ps p]. rewrite (client_pc_at _ _ Ht) in Hidle. cbn in Hidle, Hh. subst p h.
  assert (He : exec cast_req cast_res (CallSend 0 x) (cfg s) = Some (mkC (world (cfg s)) (server_at (cfg s)) (actives (cfg s))
    [mkT (mk_client 0 1) ps (PostAlloc 0 (inl x))], [])) by (cbn [exec]; by rewrite Ht).
  rewrite He. change (after_send acc _) with (CSending acc). cbn [serv trace].
  destruct (client_begins wire s _ _ _ (PostAlloc 0 (inl x)) (CSending acc) 1 Hg He) as [H1 H2]; try done.
  - do 2 eexists. split; [exact Ht|]. by split.
  - cbn. split; [done|]. split; [|done]. by exists x.
  - rewrite Hc. cbn [client_work steps_left]. lia.
Qed.

Lemma sending_goes_on wire s acc : good wire s -> client s = CSending acc -> client_goes_on wire s.
Proof using Type.
  intros Hg Hc. pose proof (g_client _ _ Hg) as Hok. pose proof (client_counts _ _ _ Hok) as Hcnt.
  pose proof (server_counts _ _ _ _ (g_server _ _ Hg)) as [Hsc _].
  rewrite Hc in Hok, Hcnt. destruct Hok as (Hacc & (x & Hx & Hp) & Hpo & Hfe), Hcnt as (Hcn & _ & Hceq).
  destruct (g_one _ _ Hg) as (t & Ht & _). destruct (first_client _ _ _ Hg Ht) as [Hh _].
  pose proof (client_pc_at _ _ Ht) as Hat. rewrite Hat in Hp.
  destruct (client_step wire (cfg s) (trace s) t) as (sv & qs & c' & e & Hm & He & Hm' & Hr' & Hs' & Ha' & Hl & Hlt & t' & Ht' & Hh' & Hps');
    [apply Hg|apply Hg|done|by destruct (at_ t)|].
  destruct (enough_room wire _ _ _ _ _ Hm (g_room _ _ Hg) Ht (g_lost _ _ Hg)) as [Hav Hrm]; [lia|lia|].
  destruct (fetched_first _ _ _ _ _ _ Hm (g_room _ _ Hg) Ht 0) as [l0 Hf0]; [lia|].
  destruct (fetched_first _ _ _ _ _ _ Hm (g_room _ _ Hg) Ht 1) as [l1 Hf1]; [lia|].
  apply (f_equal length) in Hf0, Hf1. rewrite length_app in Hf0, Hf1.
  pose proof (posting_steps _ _ _ Hp) as Hst.
  assert (Hnext : posting 0 (inl x) (client_pc c') /\ e = [] \/
    client_pc c' = posted (inl x) (Ok tt) /\ e = [Posted 0 (inl x)]).
  { eapply posting_next; try done; [intros E; apply Hav; right; by rewrite Hat|].
    intros ch q Hch Hq. apply (Hrm 0%nat); first [done|lia]. }
  unfold client_goes_on, step_client. rewrite Hc, He. cbn [waits serv trace]. rewrite Hc.
  destruct Hnext as [[Hp' ->]|[Hp' ->]].
  - rewrite (after_send_posting _ _ _ _ Hp'). 
    destruct (client_advances wire s c' [] (CSending acc) 1 Hg) as [H1 H2]; try done; [by eexists| |].
    + rewrite app_nil_r. cbn. split; [done|]. split; [by exists x|done].
    + rewrite Hc, Hat. cbn [client_work]. lia.
  - unfold after_send. rewrite Hp'. cbn [posted].
    destruct (client_advances wire s c' [Posted 0 (inl x)] (CTry acc) 1 Hg) as [H1 H2]; try done.
    + exists t'. split; [done|]. rewrite Hps', Hp'. cbn. exists (mk_pending (c_response (handle t))). left.
    + cbn. split; [done|]. apply lookup_lt_Some in Hx as Hlx. split; [done|]. split; [by eexists|].
      rewrite posts_app, fetches_app, Hpo, Hfe, (asked_S _ _ Hx). cbn. by rewrite app_nil_r.
    + rewrite Hc, Hat. cbn [client_work]. destruct (responded _ _); lia.
Qed.

Lemma try_goes_on wire s acc : good wire s -> client s = CTry acc -> client_goes_on wire s.
Proof using Type.
  intros Hg Hc. pose proof (g_client _ _ Hg) as Hok. rewrite Hc in Hok.
  destruct Hok as (Hacc & Hle & [last Hidle] & Hpo & Hfe).
  destruct (g_one _ _ Hg) as (t & Ht & Hps). rewrite Hc in Hps.
  destruct (first_client _ _ _ Hg Ht) as [Hh Hresp]. destruct t as [h ps p]. cbn [pendings] in Hps, Hresp.
  destruct ps as [|p0 ps]; [by destruct Hps as [? ?%elem_of_nil]|]. clear Hps.
  rewrite (client_pc_at _ _ Ht) in Hidle. cbn in Hidle, Hh. subst p h.
  assert (He : exec cast_req cast_res (CallTry 0 0) (cfg s) = Some (mkC (world (cfg s)) (server_at (cfg s)) (actives (cfg s))
    [mkT (mk_client 0 1) (p0 :: ps) (FetchState (Response 1))], [])).
  { cbn [exec]. rewrite Ht. cbn. by rewrite (Hresp p0) by left. }
  unfold client_goes_on, step_client. rewrite Hc, He. change (after_try acc _) with (CTrying acc). cbn [waits serv trace]. rewrite Hc.
  destruct (client_begins wire s _ _ _ (FetchState (Response 1)) (CTrying acc) (if negb (responded acc (trace s)) then 0 else 1) Hg He)
    as [H1 H2]; try done.
  - do 2 eexists. split; [exact Ht|]. by split.
  - by rewrite Hc.
  - cbn. split; [done|]. split; [done|]. split; [done|]. by left.
  - rewrite Hc. cbn [client_work steps_left turns]. destruct (responded _ _); cbn [negb]; lia.
  - split; [done|]. split; [done|]. split; [done|]. intros _. apply app_nil_r.
Qed.

(** What the client is waiting for has not been sent. *)
Lemma not_responded wire s acc sv qs t :
  good wire s -> machine_ok (cfg s) (trace s) sv qs -> ReqResThreads.clients (cfg s) = [t] ->
  qs !! 1%nat = Some [] -> (forall m, reading m 1 (client_pc (cfg s)) = []) ->
  fetches 1 (trace s) = answered (length acc) -> (length acc <= n)%nat -> responded acc (trace s) = false.
Proof using Type.
  intros Hg Hm Ht Hq Hrd Hf Hn.
  destruct (channel _ _ _ _ _ _ Hm (g_room _ _ Hg) Ht 1) as (ch & q & vs & _ & Hq' & _ & Hlen & Hv); [lia|].
  rewrite Hq in Hq'. injection Hq' as <-. apply nil_length_inv in Hlen as ->.
  unfold responded. rewrite Hv, Hrd, Hf, app_nil_r, length_answered by done. by apply Nat.ltb_irrefl.
Qed.

Lemma trying_goes_on wire s acc : good wire s -> client s = CTrying acc -> client_goes_on wire s.
Proof using Type.
  intros Hg Hc. pose proof (g_client _ _ Hg) as Hok. rewrite Hc in Hok.
  destruct Hok as (Hacc & Hlen & Hpo & Hcase).
  destruct (g_one _ _ Hg) as (t & Ht & Hps). rewrite Hc in Hps.
  pose proof (client_pc_at _ _ Ht) as Hat. rewrite Hat in Hcase.
  destruct (client_step wire (cfg s) (trace s) t) as (sv & qs & c' & e & Hm & He & Hm' & Hr' & Hs' & Ha' & Hl & Hlt & t' & Ht' & Hh' & Hps');
    [apply Hg|apply Hg|done|by destruct Hcase as [[Hp _]|(off & x & -> & _)]; destruct (at_ t)|].
  pose proof (responses_posted _ _ _ _ (g_server _ _ Hg)) as [k Hk].
  unfold client_goes_on, step_client. rewrite Hc, He. cbn [waits serv trace]. rewrite Hc.
  destruct Hcase as [[Hp Hfe]|(off & x & Hp & Hx & Hfe)].
  - destruct (fetching_next _ _ _ _ _ _ _ Hp Hl) as [[Hp' ->]|[(Hp' & -> & Hq & Hrd)|(off & y & Hp' & ->)]].
    + rewrite (after_try_fetching _ _ _ Hp').
      destruct (client_advances wire s c' [] (CTrying acc) (if negb (responded acc (trace s)) then 0 else 1) Hg) as [H1 H2]; try done.
      * exists t'. split; [done|]. rewrite Hps'. destruct (client_pc c'); done.
      * rewrite app_nil_r. cbn. split; [done|]. split; [done|]. split; [done|]. by left.
      * rewrite Hc, Hat, app_nil_r. cbn [client_work]. destruct (responded _ _); cbn [negb]; lia.
      * split; [done|]. split; [done|]. split; [done|]. intros _. apply app_nil_r.
    + unfold after_try. rewrite Hp'. cbn [nothing].
      rewrite (not_responded wire s acc sv qs t Hg Hm Ht Hq) by (done || lia || (intros; by rewrite Hat)). cbn [negb].
      destruct (client_advances wire s c' [] (CTry acc) 0 Hg) as [H1 H2]; try done.
      * exists t'. split; [done|]. by rewrite Hps', Hp'.
      * rewrite app_nil_r. cbn. split; [done|]. split; [done|]. split; [by eexists|done].
      * rewrite Hc, Hat, app_nil_r. cbn [client_work].
        rewrite (not_responded wire s acc sv qs t Hg Hm Ht Hq) by (done || lia || (intros; by rewrite Hat)). lia.
      * split; [done|]. split; [done|]. split; [done|]. intros _. apply app_nil_r.
    + unfold after_try. rewrite Hp'. destruct Hm' as (sv' & qs' & Hm').
      destruct (fetched_first wire _ _ _ _ _ Hm' Hr' Ht' 1) as [l Hpre]; [lia|].
      rewrite posts_app, fetches_app, Hfe, Hk in Hpre. cbn [channel_of] in Hpre.
      rewrite fetches_one, app_nil_r, <- app_assoc in Hpre.
      destruct (answered_next _ _ _ _ Hpre) as (x & Hx & ->); [lia|].
      assert (Hre : responded acc (trace s) = true).
      { unfold responded. apply Nat.ltb_lt. rewrite Hk, Hpre, length_app, length_answered by lia. cbn. lia. }
      rewrite Hre. cbn [negb].
      destruct (client_advances wire s c' [Fetched 1 (inr (compute x))] (CTrying acc) 1 Hg) as [H1 H2]; try done.
      * by eexists _, _.
      * exists t'. split; [done|]. by rewrite Hps', Hp'.
      * cbn. split; [done|]. split; [done|]. rewrite posts_app, fetches_app, Hpo, Hfe. cbn. rewrite app_nil_r.
        split; [done|]. right. exists off, x. split; [done|]. split; [done|]. by rewrite (answered_S _ _ Hx).
      * rewrite Hc, Hat. cbn [client_work]. rewrite Hre.
        assert (responded acc (trace s ++ [Fetched 1 (inr (compute x))]) = true) as ->
          by (unfold responded in *; rewrite posts_app, app_nil_r; done). lia.
  - rewrite Hp in Hl. destruct Hl as [Hp' ->]. unfold after_try. rewrite Hp'. cbn [fetched as_res].
    destruct Hm' as (sv' & qs' & Hm').
    destruct (fetched_first wire _ _ _ _ _ Hm' Hr' Ht' 1) as [l Hpre]; [lia|].
    rewrite app_nil_r, Hfe in Hpre. apply (f_equal length) in Hpre. rewrite length_app, length_answered in Hpre by lia.
    assert (Hre : responded acc (trace s) = true) by (unfold responded; apply Nat.ltb_lt; lia).
    assert (Hacc' : length (acc ++ [compute x]) = S (length acc)) by (rewrite length_app; cbn; lia).
    rewrite Hre. cbn [negb].
    destruct (client_advances wire s c' [] (CSend (acc ++ [compute x])) 1 Hg) as [H1 H2]; try done.
    + by eexists _, _.
    + by exists t'.
    + rewrite app_nil_r. cbn. rewrite Hacc'. split; [by rewrite (results_S _ _ Hx), <- Hacc|].
      split; [lia|]. split; [by eexists|]. done.
    + rewrite Hc, Hat, Hp. cbn [client_work steps_left]. rewrite Hre, Hacc'. lia.
Qed.

Lemma client_goes wire s : good wire s -> client_goes_on wire s.
Proof using Type.
  intros Hg. destruct (client s) as [acc|acc|acc|acc|] eqn:Hc.
  - by eapply send_goes_on.
  - by eapply sending_goes_on.
  - by eapply try_goes_on.
  - by eapply trying_goes_on.
  - pose proof (g_client _ _ Hg) as Hok. by rewrite Hc in Hok.
Qed.

(** *** The server *)

Lemma server_advances wire s c' e l' d :
  good wire s -> (exists sv qs, machine_ok c' (trace s ++ e) sv qs) -> room wire (world c') ->
  ReqResThreads.clients c' = ReqResThreads.clients (cfg s) ->
  losses e = [] /\ fetches 1 e = [] /\ posts 0 e = [] ->
  server_ok wire l' c' (trace s ++ e) ->
  server_work l' (server_at c') (trace s ++ e) + d <= server_work (serv s) (server_at (cfg s)) (trace s) ->
  good wire (mkSys c' (trace s ++ e) (client s) l') /\ work (mkSys c' (trace s ++ e) (client s) l') + d <= work s.
Proof using Type.
  intros Hg Hm Hr Hcl (He1 & He2 & He3) Hok Hw.
  assert (Hp : client_pc c' = client_pc (cfg s)) by (unfold client_pc; by rewrite Hcl). split.
  - split; cbn [cfg trace client serv]; try done.
    + rewrite Hcl. apply Hg.
    + by rewrite losses_app, He1, (g_lost _ _ Hg).
    + eapply client_ok_ext; [done|..|apply (g_client _ _ Hg)]; by rewrite ?posts_app, ?fetches_app, ?He2, ?He3, app_nil_r.
  - unfold work. cbn [cfg trace client serv]. rewrite Hp.
    pose proof (client_work_mono _ _ _ (trace s ++ e) (g_client _ _ Hg)) as Hmono.
    rewrite posts_app, length_app in Hmono. specialize (Hmono ltac:(lia)). lia.
Qed.

Lemma after_respond_posting k c j x : posting j x (server_at c) -> after_respond k c = SResponding k.
Proof using Type. unfold after_respond. by destruct (server_at c). Qed.
Lemma after_receive_fetching k c src : fetching src (server_at c) -> after_receive k c = SReceiving k.
Proof using Type. unfold after_receive. by destruct (server_at c). Qed.

Definition server_goes_on (wire : ClientWire) (s : sys) : Prop :=
  good wire (step_server s) /\ work (step_server s) + (if waits TheServer s then 0 else 1) <= work s /\
  client (step_server s) = client s /\ (waits TheServer s = true -> trace (step_server s) = trace s).

(** A call of the server's begins. *)
Lemma server_begins wire s a c' x l' acts d :
  good wire s -> exec cast_req cast_res a (cfg s) = Some (c', []) ->
  c' = mkC (world (cfg s)) x acts (ReqResThreads.clients (cfg s)) ->
  server_ok wire l' c' (trace s) ->
  server_work l' x (trace s) + d <= server_work (serv s) (server_at (cfg s)) (trace s) ->
  good wire (mkSys c' (trace s ++ []) (client s) l') /\ work (mkSys c' (trace s ++ []) (client s) l') + d <= work s.
Proof using Type.
  intros Hg He -> Hok Hw. apply server_advances; rewrite ?app_nil_r; try done.
  - rewrite <- (app_nil_r (trace s)). eapply exec_machine; [apply (g_machine _ _ Hg)|done].
  - apply Hg.
Qed.

Lemma receive_goes_on wire s k : good wire s -> serv s = SReceive k -> server_goes_on wire s.
Proof using Type.
  intros Hg Hc. pose proof (g_server _ _ Hg) as Hok. rewrite Hc in Hok.
  destruct Hok as (Hle & [last Hidle] & Hact & Hfe & Hpo).
  unfold server_goes_on, step_server. rewrite Hc. cbn [waits]. rewrite Hc.
  destruct (Nat.ltb_spec k n) as [Hlt|Hge].
  2: { rewrite (proj2 (Nat.leb_le _ _)) by lia. split; [done|]. split; [cbn [orb]; lia|]. done. }
  rewrite (proj2 (Nat.leb_gt _ _)) by lia. cbn [orb].
  destruct (g_machine _ _ Hg) as (sv & qs & Hm). pose proof (v_server _ _ _ _ _ (m_inv _ _ _ _ Hm)) as Hsv.
  assert (Hcl : ReqResPorts.clients sv = [wire]).
  { destruct (g_room _ _ Hg) as (_ & _ & cap0 & cap1 & count & Hs & _). injection Hs as _ Hs. rewrite Hsv in Hs. by injection Hs. }
  assert (He : exec cast_req cast_res CallReceive (cfg s) = Some (mkC (world (cfg s)) (FetchState (Request wire []))
    [] (ReqResThreads.clients (cfg s)), [])) by (cbn [exec]; by rewrite Hidle, Hsv, Hcl, Hact).
  rewrite He. change (after_receive k _) with (SReceiving k). cbn [client trace].
  destruct (server_begins wire s _ _ _ (SReceiving k) _ (if negb (requested k (trace s)) then 0 else 1) Hg He eq_refl) as [H1 H2].
  - cbn. split; [done|]. split; [done|]. split; [done|]. by left.
  - rewrite Hc. cbn [server_work steps_left turns length]. destruct (requested _ _); cbn [negb]; lia.
  - split; [done|]. split; [done|]. split; [done|]. intros _. apply app_nil_r.
Qed.

(** What the server is waiting for has not been sent. *)
Lemma not_requested wire s k sv qs t :
  good wire s -> machine_ok (cfg s) (trace s) sv qs -> ReqResThreads.clients (cfg s) = [t] ->
  qs !! 0%nat = Some [] -> (forall m, reading m 0 (server_at (cfg s)) = []) ->
  fetches 0 (trace s) = asked k -> (k <= n)%nat -> requested k (trace s) = false.
Proof using Type.
  intros Hg Hm Ht Hq Hrd Hf Hn.
  destruct (channel _ _ _ _ _ _ Hm (g_room _ _ Hg) Ht 0) as (ch & q & vs & _ & Hq' & _ & Hlen & Hv); [lia|].
  rewrite Hq in Hq'. injection Hq' as <-. apply nil_length_inv in Hlen as ->.
  unfold requested. rewrite Hv, Hrd, Hf, app_nil_r, length_asked by done. by apply Nat.ltb_irrefl.
Qed.

Lemma receiving_goes_on wire s k : good wire s -> serv s = SReceiving k -> server_goes_on wire s.
Proof using Type.
  intros Hg Hc. pose proof (g_server _ _ Hg) as Hok. rewrite Hc in Hok.
  destruct Hok as (Hlen & Hact & Hpo & Hcase).
  destruct (g_one _ _ Hg) as (t & Ht & _).
  destruct (g_room _ _ Hg) as (Hw0 & Hw1 & _).
  destruct (server_step wire (cfg s) (trace s) t) as (sv & qs & c' & e & Hm & He & Hm' & Hr' & Hcl' & Hl & Hlt & Ha');
    [apply Hg|apply Hg|done|by destruct Hcase as [[Hp _]|(off & x & -> & _)]; destruct (server_at (cfg s))|].
  pose proof (requests_posted _ _ _ (g_client _ _ Hg)) as [j Hj].
  unfold server_goes_on, step_server. rewrite Hc, He. cbn [waits client trace]. rewrite Hc.
  assert (Hch : channel_of (Request wire []) = 0%nat) by done.
  destruct Hcase as [[Hp Hfe]|(off & x & Hp & Hfe & Hx)].
  - destruct (fetching_next _ _ _ _ _ _ _ Hp Hl) as [[Hp' ->]|[(Hp' & -> & Hq & Hrd)|(off & y & Hp' & ->)]].
    + rewrite (after_receive_fetching _ _ _ Hp').
      destruct (server_advances wire s c' [] (SReceiving k) (if negb (requested k (trace s)) then 0 else 1) Hg) as [H1 H2]; try done.
      * rewrite app_nil_r. cbn. split; [done|]. split; [|split; [done|by left]].
        rewrite Ha', Hact. by destruct (server_at c').
      * rewrite Hc, app_nil_r. cbn [server_work]. destruct (requested _ _); cbn [negb]; lia.
      * split; [done|]. split; [done|]. split; [done|]. intros _. apply app_nil_r.
    + unfold after_receive. rewrite Hp'. cbn [nothing next_wire]. rewrite Hch in Hq.
      rewrite (not_requested wire s k sv qs t Hg Hm Ht Hq) by (done || lia). cbn [negb].
      destruct (server_advances wire s c' [] (SReceive k) 0 Hg) as [H1 H2]; try done.
      * rewrite app_nil_r. cbn. split; [lia|]. split; [by eexists|]. by rewrite Ha', Hp'.
      * rewrite Hc, app_nil_r. cbn [server_work].
        rewrite (not_requested wire s k sv qs t Hg Hm Ht Hq) by (done || lia). lia.
      * split; [done|]. split; [done|]. split; [done|]. intros _. apply app_nil_r.
    + unfold after_receive. rewrite Hp'. rewrite Hch in *. destruct Hm' as (sv' & qs' & Hm').
      destruct (fetched_first wire _ _ _ _ t Hm' Hr' ltac:(by rewrite Hcl') 0) as [l Hpre]; [lia|].
      rewrite posts_app, fetches_app, Hfe, Hj in Hpre. rewrite fetches_one, app_nil_r, <- app_assoc in Hpre.
      destruct (asked_next _ _ _ _ Hpre) as (x & Hx & ->); [lia|].
      assert (Hre : requested k (trace s) = true).
      { unfold requested. apply Nat.ltb_lt. rewrite Hj, Hpre, length_app, length_asked by lia. cbn. lia. }
      rewrite Hre. cbn [negb].
      destruct (server_advances wire s c' [Fetched 0 (inl x)] (SReceiving k) 1 Hg) as [H1 H2]; try done.
      * by eexists _, _.
      * cbn. split; [done|]. rewrite Ha', Hp'. split; [done|]. rewrite posts_app, fetches_app, Hpo, Hfe, fetches_one. cbn. rewrite app_nil_r.
        split; [done|]. right. exists off, x. split; [done|]. split; [|done]. by rewrite (asked_S _ _ Hx).
      * rewrite Hc. cbn [server_work]. rewrite Hre.
        assert (requested k (trace s ++ [Fetched 0 (inl x)]) = true) as ->
          by (unfold requested in *; rewrite posts_app, app_nil_r; done). lia.
  - rewrite Hp in Hl. destruct Hl as [Hp' ->]. unfold fetched in Hp'. cbn [as_req] in Hp'. rewrite Hw1 in Hp'.
    unfold after_receive. rewrite Hp'.
    destruct Hm' as (sv' & qs' & Hm').
    destruct (fetched_first wire _ _ _ _ t Hm' Hr' ltac:(by rewrite Hcl') 0) as [l Hpre]; [lia|].
    rewrite app_nil_r, Hfe in Hpre. apply (f_equal length) in Hpre. rewrite length_app, length_asked in Hpre by lia.
    assert (Hre : requested k (trace s) = true) by (unfold requested; apply Nat.ltb_lt; lia).
    rewrite Hre. cbn [negb].
    destruct (server_advances wire s c' [] (SRespond k) 1 Hg) as [H1 H2]; try done.
    + by eexists _, _.
    + rewrite app_nil_r. cbn. split; [by eexists|]. split; [|done]. exists x. split; [done|]. by rewrite Ha', Hp', Hact.
    + rewrite Hc, Hp. cbn [server_work steps_left]. rewrite Hre. lia.
Qed.

Lemma respond_goes_on wire s k : good wire s -> serv s = SRespond k -> server_goes_on wire s.
Proof using Type.
  intros Hg Hc. pose proof (g_server _ _ Hg) as Hok. rewrite Hc in Hok.
  destruct Hok as ([last Hidle] & (x & Hx & Hact) & Hfe & Hpo).
  unfold server_goes_on, step_server. rewrite Hc, Hact. cbn [waits lookup list_lookup a_request]. rewrite Hc.
  assert (He : exec cast_req cast_res (CallRespond 0 (compute x)) (cfg s) = Some (mkC (world (cfg s)) (PostAlloc 1 (inr (compute x)))
    [] (ReqResThreads.clients (cfg s)), [])) by (cbn [exec]; by rewrite Hidle, Hact).
  rewrite He. change (after_respond k _) with (SResponding k). cbn [client trace].
  destruct (server_begins wire s _ _ _ (SResponding k) _ 1 Hg He eq_refl) as [H1 H2]; try done.
  - cbn. split; [|done]. by exists x.
  - rewrite Hc. cbn [server_work steps_left]. lia.
Qed.

Lemma responding_goes_on wire s k : good wire s -> serv s = SResponding k -> server_goes_on wire s.
Proof using Type.
  intros Hg Hc. pose proof (g_server _ _ Hg) as Hok. pose proof (server_counts _ _ _ _ Hok) as Hcnt.
  pose proof (client_counts _ _ _ (g_client _ _ Hg)) as [Hcc _].
  rewrite Hc in Hok, Hcnt. destruct Hok as ((x & Hx & Hp) & Hact & Hfe & Hpo), Hcnt as (Hsc & Hseq).
  destruct (g_one _ _ Hg) as (t & Ht & _).
  destruct (server_step wire (cfg s) (trace s) t) as (sv & qs & c' & e & Hm & He & Hm' & Hr' & Hcl' & Hl & Hlt & Ha');
    [apply Hg|apply Hg|done|by destruct (server_at (cfg s))|].
  destruct (enough_room wire _ _ _ _ _ Hm (g_room _ _ Hg) Ht (g_lost _ _ Hg)) as [Hav Hrm]; [lia|lia|].
  destruct (fetched_first _ _ _ _ _ _ Hm (g_room _ _ Hg) Ht 0) as [l0 Hf0]; [lia|].
  destruct (fetched_first _ _ _ _ _ _ Hm (g_room _ _ Hg) Ht 1) as [l1 Hf1]; [lia|].
  apply (f_equal length) in Hf0, Hf1. rewrite length_app in Hf0, Hf1.
  pose proof (posting_steps _ _ _ Hp) as Hst.
  assert (Hnext : posting 1 (inr (compute x)) (server_at c') /\ e = [] \/
    server_at c' = posted (inr (compute x)) (Ok tt) /\ e = [Posted 1 (inr (compute x))]).
  { eapply posting_next; try done; [intros E; apply Hav; by left|].
    intros ch q Hch Hq. apply (Hrm 1%nat); first [done|lia]. }
  unfold server_goes_on, step_server. rewrite Hc, He. cbn [waits client trace]. rewrite Hc.
  destruct Hnext as [[Hp' ->]|[Hp' ->]].
  - rewrite (after_respond_posting _ _ _ _ Hp').
    destruct (server_advances wire s c' [] (SResponding k) 1 Hg) as [H1 H2]; try done.
    + rewrite app_nil_r. cbn. split; [by exists x|]. split; [|done]. rewrite Ha', Hact. by destruct (server_at c').
    + rewrite Hc. cbn [server_work]. lia.
  - unfold after_respond. rewrite Hp'. cbn [posted].
    destruct (server_advances wire s c' [Posted 1 (inr (compute x))] (SReceive (S k)) 1 Hg) as [H1 H2]; try done.
    + cbn. apply lookup_lt_Some in Hx as Hlx. split; [done|]. split; [by eexists|]. rewrite Ha', Hp'. split; [done|].
      rewrite posts_app, fetches_app, Hpo, Hfe, (answered_S _ _ Hx). cbn. by rewrite app_nil_r.
    + rewrite Hc. cbn [server_work]. destruct (requested _ _); lia.
Qed.

Lemma server_goes wire s : good wire s -> server_goes_on wire s.
Proof using Type.
  intros Hg. destruct (serv s) as [k|k|k|k|] eqn:Hc.
  - by eapply receive_goes_on.
  - by eapply receiving_goes_on.
  - by eapply respond_goes_on.
  - by eapply responding_goes_on.
  - pose proof (g_server _ _ Hg) as Hok. by rewrite Hc in Hok.
Qed.

(** ** Rounds *)

Lemma turn_advances wire t s : good wire s ->
  good wire (step t s) /\ work (step t s) + (if waits t s then 0 else 1) <= work s /\
  (waits t s = true -> forall u, u <> t -> waits u (step t s) = waits u s).
Proof using Type.
  intros Hg. destruct t; cbn [step].
  - destruct (client_goes wire s Hg) as (H1 & H2 & H3 & H4). split; [done|]. split; [done|].
    intros Hw [] Hu; [done|]. cbn [waits]. by rewrite H3, H4.
  - destruct (server_goes wire s Hg) as (H1 & H2 & H3 & H4). split; [done|]. split; [done|].
    intros Hw [] Hu; [|done]. cbn [waits]. by rewrite H3, H4.
Qed.

Lemma loop_run wire sched s : good wire s -> good wire (run sched s) /\ work (run sched s) <= work s.
Proof using Type.
  revert s. induction sched as [|t sched IH]; intros s Hg; [split; [done|cbn; lia]|].
  destruct (turn_advances wire t s Hg) as (Hg1 & Hw1 & _). destruct (IH _ Hg1) as [Hg2 Hw2].
  change (run (t :: sched) s) with (run sched (step t s)). split; [done|]. destruct (waits t s); lia.
Qed.

(** A thread that does not wait gets something done at its turn. *)
Lemma active_run wire t sched s : good wire s -> waits t s = false -> t ∈ sched -> work (run sched s) < work s.
Proof using Type.
  revert s. induction sched as [|u sched IH]; intros s Hg Ht Hin; [by apply elem_of_nil in Hin|].
  change (run (u :: sched) s) with (run sched (step u s)).
  destruct (turn_advances wire u s Hg) as (Hg1 & Hw1 & Hu). destruct (loop_run wire sched _ Hg1) as [_ Hw2].
  destruct (waits u s) eqn:Hwu; [|lia].
  destruct (decide (t = u)) as [->|Hne]; [congruence|].
  apply elem_of_cons in Hin as [->|Hin]; [done|]. specialize (IH _ Hg1). rewrite Hu in IH by done.
  specialize (IH Ht Hin). lia.
Qed.

Definition finished (s : sys) : Prop := client s = CSend (results n) /\ serv s = SReceive n.

(** Both threads cannot wait for each other. *)
Lemma no_deadlock wire s : good wire s -> waits TheClient s = true -> waits TheServer s = true -> finished s.
Proof using Type.
  intros Hg Hc Hs. pose proof (g_client _ _ Hg) as Hco. pose proof (g_server _ _ Hg) as Hso.
  assert (Hcl : (exists acc, client s = CSend acc /\ length acc = n /\ acc = results n /\ length (posts 0 (trace s)) = n) \/
    exists i, (length (posts 1 (trace s)) <= i < n)%nat /\ length (posts 0 (trace s)) = S i).
  { cbn [waits] in Hc. destruct (client s) as [acc|acc|acc|acc|]; try done.
    - left. destruct Hco as (Hacc & Hle & _ & Hpo & _). apply Nat.leb_le in Hc. assert (Hn : length acc = n) by lia.
      exists acc. rewrite Hpo, length_asked, Hn by lia. split_and!; try done. by rewrite Hacc, Hn.
    - right. destruct Hco as (_ & Hlt & _ & Hpo & _). apply negb_true_iff, Nat.ltb_ge in Hc.
      exists (length acc). rewrite Hpo, length_asked by lia. lia.
    - right. destruct Hco as (_ & Hlt & Hpo & _). apply negb_true_iff, Nat.ltb_ge in Hc.
      exists (length acc). rewrite Hpo, length_asked by lia. lia. }
  assert (Hsv : (serv s = SReceive n /\ length (posts 1 (trace s)) = n) \/
    exists k, (length (posts 0 (trace s)) <= k < n)%nat /\ length (posts 1 (trace s)) = k).
  { cbn [waits] in Hs. destruct (serv s) as [k|k|k|k|]; try done.
    - destruct Hso as (Hle & _ & _ & _ & Hpo). apply orb_true_iff in Hs as [Hs|Hs].
      + apply Nat.leb_le in Hs. left. assert (k = n) as -> by lia. by rewrite Hpo, length_answered.
      + apply negb_true_iff, Nat.ltb_ge in Hs. destruct (decide (k = n)) as [->|].
        * left. by rewrite Hpo, length_answered.
        * right. exists k. rewrite Hpo, length_answered by lia. lia.
    - right. destruct Hso as (Hlt & _ & Hpo & _). apply negb_true_iff, Nat.ltb_ge in Hs.
      exists k. rewrite Hpo, length_answered by lia. lia. }
  destruct Hcl as [(acc & Hcl & _ & -> & Hn)|(i & Hi & Hn)], Hsv as [(Hsv & Hk)|(k & Hk1 & Hk2)]; [done|exfalso; lia..].
Qed.

Lemma both_ended_stay t s : finished s -> step t s = s.
Proof using Type.
  intros [Hc Hs]. destruct t; cbn [step].
  - unfold step_client. rewrite Hc, length_results by done. by rewrite (proj2 (lookup_ge_None requests n)) by lia.
  - unfold step_server. by rewrite Hs, Nat.ltb_irrefl.
Qed.

Lemma finished_stays_run sched s : finished s -> run sched s = s.
Proof using Type.
  intros Hf. induction sched as [|t sched IH]; [done|].
  change (run (t :: sched) s) with (run sched (step t s)). by rewrite both_ended_stay.
Qed.

Lemma work_left wire s : good wire s -> 0 <= work s.
Proof using Type.
  intros Hg. pose proof (g_client _ _ Hg) as Hco. pose proof (g_server _ _ Hg) as Hso. unfold work.
  assert (0 <= client_work (client s) (client_pc (cfg s)) (trace s)).
  { pose proof (call_steps_nonneg (client_pc (cfg s))).
    destruct (client s) as [acc|acc|acc|acc|]; cbn [client_work]; try lia.
    - destruct Hco as (_ & Hle & _). lia.
    - destruct Hco as (_ & (x & Hx & _) & _). apply lookup_lt_Some in Hx. lia.
    - destruct Hco as (_ & Hlt & _). destruct (responded _ _); lia.
    - destruct Hco as (_ & Hlt & _). destruct (responded _ _); lia. }
  assert (0 <= server_work (serv s) (server_at (cfg s)) (trace s)).
  { pose proof (call_steps_nonneg (server_at (cfg s))).
    destruct (serv s) as [k|k|k|k|]; cbn [server_work]; try lia.
    - destruct Hso as (Hle & _). unfold requested. destruct (Nat.ltb_spec k (length (posts 0 (trace s)))); [|lia].
      destruct (client_counts _ _ _ Hco) as (_ & Hn & _). lia.
    - destruct Hso as (Hlt & _). destruct (requested _ _); lia.
    - destruct Hso as (_ & (x & Hx & _) & _). apply lookup_lt_Some in Hx. lia.
    - destruct Hso as ((x & Hx & _) & _). apply lookup_lt_Some in Hx. lia. }
  lia.
Qed.

(** A round has a turn of each thread. *)
Definition fair (sched : list thread) : Prop := TheClient ∈ sched /\ TheServer ∈ sched.

Lemma fair_rounds_finish wire rounds s :
  good wire s -> Forall fair rounds -> work s < Z.of_nat (length rounds) -> finished (run (concat rounds) s).
Proof using Type.
  intros Hg Hf. revert s Hg. induction Hf as [|r rounds [Hc Hs] _ IH]; intros s Hg Hw; cbn [length] in Hw.
  { pose proof (work_left wire s Hg). lia. }
  cbn [concat]. unfold run. rewrite foldl_app. fold (run r s). fold (run (concat rounds) (run r s)).
  destruct (loop_run wire r s Hg) as [Hg' _].
  assert (Hact : finished s \/ work (run r s) < work s).
  { destruct (waits TheClient s) eqn:Hwc; [|right; by apply (active_run wire TheClient)].
    destruct (waits TheServer s) eqn:Hws; [|right; by apply (active_run wire TheServer)].
    left. by eapply no_deadlock. }
  destruct Hact as [Hfin|Hlt]; [by rewrite !finished_stays_run by (by rewrite ?finished_stays_run)|].
  apply IH; [done|lia].
Qed.
End loops.

(** ** A server and its client, from the start *)
Section started.
Context {P : Posix} {Req Res : Type} (cast_req : Res -> Req) (cast_res : Req -> Res).
Context (requests : list Req) (compute : Req -> Res).
Context {V : PosixView} {Sp : PosixSpec} (macos : bool) (hash : string -> Z) (size_req size_res : Z).
Context (b b1 : PortBuilder) (os : Os) (h : Client) (w : World Req Res).
Context (Hb : ReqResSafe.qos_ok size_req size_res b) (Hb1 : ReqResSafe.qos_ok size_req size_res b1).
Context (Hw : started macos hash size_req size_res b [b1] os = Ret (Ok [h], w)).
#[local] Abbreviation n := (length requests).
#[local] Abbreviation run := (run cast_req cast_res requests compute).

Lemma started_room : room (mk_wire (b_node_id b1) 0 1) w.
Proof using Hb Hb1 Hw Sp.
  clear Hb1. destruct Hb as (Hsz & Hmp & Hmp2 & Hfit). unfold started, create_server in Hw.
  set (mp := max_pending_requests (b_qos b)) in *.
  assert (Hcount : wrap 32 (Z.max (wrapping_mul 64 mp 2) 16) = Z.max (2 * mp) 16).
  { unfold wrapping_mul. rewrite (wrap_small 64) by (unfold fits; lia). rewrite wrap_small by (unfold fits; lia). lia. }
  rewrite Hcount in Hw. cbn [kernel server chans] in Hw.
  destruct (DataSegment.ds_create_spec macos hash os (seg_name (b_service_name b) (b_node_id b)) _ _ _ Hsz Hfit)
    as (r & os' & He & Hr).
  rewrite He in Hw. cbn [obind] in Hw. destruct r as [seg|e]; [|by cbn in Hw].
  cbn [obind connect create_client server] in Hw. injection Hw as _ <-.
  destruct Hr as (_ & _ & Hn & _). split; [done|]. split; [done|].
  eexists _, _, _. split; [reflexivity|]. cbn. lia.
Qed.

Lemma rr_start_good : good requests compute (mk_wire (b_node_id b1) 0 1) (start w h).
Proof using Hb Hb1 Hw Sp.
  pose proof started_room as Hr.
  assert (Hf : fresh w [h]) by (eapply started_fresh; [exact Hb|by constructor|exact Hw]).
  split; cbn [cfg trace client serv start].
  - by apply init_machine.
  - exact Hr.
  - eexists. split; [done|done].
  - done.
  - cbn. split; [done|]. split; [lia|]. split; [by eexists|done].
  - cbn. split; [lia|]. split; [by eexists|done].
Qed.

(** What the client has, at any place of its loop. *)
Definition responses_of (l : client_loop Res) : list Res :=
  match l with CSend acc | CSending acc | CTry acc | CTrying acc => acc | ClientFailed => [] end.

(** C18: In every interleaving of the two loops no call panics and no [unwrap]
    meets an error, and the client has got the responses to its first requests,
    in order.  Under every fair schedule (41 rounds per request suffice, a round
    being any run in which each thread has a turn) both loops end: the client
    has every response, the server has answered every request, and every chunk
    of the segment is free again. *)
Theorem reqres_loops_finish :
  (forall sched, let st := run sched (start w h) in
     client st <> ClientFailed /\ serv st <> ServerFailed /\
     exists i, (i <= n)%nat /\ responses_of (client st) = compute <$> take i requests) /\
  (forall rounds, Forall fair rounds -> (41 * n < length rounds)%nat ->
     let st := run (concat rounds) (start w h) in
     client st = CSend (compute <$> requests) /\ serv st = SReceive n /\
     exists sv, server (world (cfg st)) = Some sv /\
       DataSegment.available (segment sv) = DataSegment.chunk_count (segment sv)).
Proof using Hb Hb1 Hw Sp.
  pose proof rr_start_good as Hg. split.
  - intros sched. cbn zeta. destruct (loop_run cast_req cast_res requests compute _ sched _ Hg) as [Hg' _].
    set (st := run _ _) in *. pose proof (g_client _ _ _ _ Hg') as Hc. pose proof (g_server _ _ _ _ Hg') as Hs.
    split; [intros E; by rewrite E in Hc|]. split; [intros E; by rewrite E in Hs|].
    destruct (client st) as [acc|acc|acc|acc|]; cbn in Hc; try done; exists (length acc); (split; [|by destruct Hc]).
    + by destruct Hc as (_ & ? & _).
    + destruct Hc as (_ & (x & Hx & _) & _). apply lookup_lt_Some in Hx. lia.
    + destruct Hc as (_ & ? & _). lia.
    + destruct Hc as (_ & ? & _). lia.
  - intros rounds Hf Hn. cbn zeta.
    destruct (fair_rounds_finish cast_req cast_res requests compute _ rounds _ Hg Hf) as [Hc Hs].
    { unfold work. cbn -[Z.mul Z.of_nat]. unfold requested. cbn -[Z.mul Z.of_nat]. lia. }
    destruct (loop_run cast_req cast_res requests compute _ (concat rounds) _ Hg) as [Hg' _].
    set (st := run _ _) in *. split; [rewrite Hc; unfold results; by rewrite take_ge|]. split; [done|].
    pose proof (g_client _ _ _ _ Hg') as Hco. pose proof (g_server _ _ _ _ Hg') as Hso. rewrite Hc in Hco. rewrite Hs in Hso.
    destruct Hco as (_ & _ & [l1 Hi1] & Hp0 & Hf1), Hso as (_ & [l2 Hi2] & _ & Hf0 & Hp1).
    rewrite length_results in Hp0, Hf1 by done.
    destruct (g_machine _ _ _ _ Hg') as (sv & qs & Hm). exists sv. split; [apply (m_inv _ _ _ _ Hm)|].
    destruct (g_one _ _ _ _ Hg') as (t & Ht & _).
    destruct (channel _ _ _ _ _ _ Hm (g_room _ _ _ _ Hg') Ht 0) as (ch0 & q0 & vs0 & Hc0 & Hq0 & _ & Hn0 & Hv0); [lia|].
    destruct (channel _ _ _ _ _ _ Hm (g_room _ _ _ _ Hg') Ht 1) as (ch1 & q1 & vs1 & Hc1 & Hq1 & _ & Hn1 & Hv1); [lia|].
    apply (f_equal length) in Hv0, Hv1. rewrite Hp0, Hf0, !length_app in Hv0. rewrite Hp1, Hf1, !length_app in Hv1.
    assert (q0 = [] /\ q1 = []) as [-> ->] by (split; apply nil_length_inv; lia).
    pose proof (v_pool _ _ _ _ _ (m_inv _ _ _ _ Hm)) as Hp. apply pool_used_counts in Hp as [_ ->].
    pose proof (v_length _ _ _ _ _ (m_inv _ _ _ _ Hm)) as Hlq.
    destruct (g_room _ _ _ _ Hg') as (_ & _ & cap0 & cap1 & count & Hsh & _). injection Hsh as Hsh _.
    apply (f_equal length) in Hsh. rewrite length_fmap in Hsh. cbn in Hsh.
    destruct qs as [|a [|a' [|]]]; cbn in Hlq, Hq0, Hq1; try lia. simplify_eq.
    rewrite (g_lost _ _ _ _ Hg'), (two_threads _ _ Ht). rewrite Hi1, Hi2. cbn. lia.
Qed.
End started.

(** ** test_cross_thread_reqres *)
Section example.
Import ToyOs.

(** [AddRequest { a: i, b: i * 3 }] and the sum that the server sends. *)
Definition add_requests (m : nat) : list (Z * Z) := (fun i => (Z.of_nat i, wrapping_mul 64 (Z.of_nat i) 3)) <$> seq 0 m.
Definition sum (r : Z * Z) : Z := wrapping_add 64 r.1 r.2.

(** prop_reqres_correct_computation: its numbers are below a million. *)
Lemma sum_exact a b : 0 <= a < 1000000 -> 0 <= b < 1000000 -> sum (a, b) = a + b.
Proof. intros Ha Hb. apply wrap_small. unfold fits. cbn [fst snd]. lia. Qed.

Definition reqres_example_started :=
  started (P := toy_posix) (Req := Z * Z) (Res := Z) false no_hash 16 8 (ReqResSafe.example_builder 4)
    [ReqResSafe.example_builder 4] (empty_os 100000).

Lemma reqres_example_qos_ok : ReqResSafe.qos_ok 16 8 (ReqResSafe.example_builder 4).
Proof. vm_compute. repeat split; congruence. Qed.

(** Strict alternation of the threads. *)
Definition alternate_threads (m turns : nat) : option (client_loop Z * server_loop) :=
  match reqres_example_started with
  | Ret (Ok [h], w) =>
      let st := run (fun x => (x, 0)) (fun x => x.1) (add_requests m) sum
                  (concat (replicate turns [TheClient; TheServer])) (start w h) in
      Some (client st, serv st)
  | _ => None
  end.

(** The test, with its 50 requests. *)
Theorem cross_thread_reqres_passes :
  alternate_threads 50 1500 = Some (CSend ((fun i => i + i * 3) <$> seqZ 0 50), SReceive 50).
Proof. vm_compute. reflexivity. Qed.

Example half_way : alternate_threads 3 25 = Some (CTrying [], SReceiving 1).
Proof. vm_compute. reflexivity. Qed.

Lemma reqres_loops_finish_witness :
  exists h w, reqres_example_started = Ret (Ok [h], w) /\
    let st := run (fun x => (x, 0)) (fun x => x.1) (add_requests 3) sum
                (concat (replicate 124 [TheServer; TheClient])) (start w h) in
    client st = CSend [0; 4; 8] /\ serv st = SReceive 3.
Proof.
  assert (Hh : match reqres_example_started with Ret (Ok [_], _) => true | _ => false end = true) by (vm_compute; reflexivity).
  destruct reqres_example_started as [[[[|h [|? ?]]|e] w]| |] eqn:E; try discriminate Hh.
  exists h, w. split; [reflexivity|].
  destruct (reqres_loops_finish (P := toy_posix) (fun x => (x, 0)) (fun x : Z * Z => x.1) (add_requests 3) sum false no_hash
    16 8 (ReqResSafe.example_builder 4) (ReqResSafe.example_builder 4) (empty_os 100000) h w
    reqres_example_qos_ok reqres_example_qos_ok E) as [_ Hfin].
  destruct (Hfin (replicate 124 [TheServer; TheClient])) as (H1 & H2 & _).
  - apply Forall_replicate. split; [right; left|left].
  - rewrite length_replicate. vm_compute. lia.
  - split; [exact H1|exact H2].
Defined.
End example.
End ReqResLoop.
