(* ===== verification/Blackboard.v ===== *)
(** * Blackboard
    (crates/entangle/src/port/writer.rs, port/reader.rs, service/blackboard.rs)

    [Seqlock]: [Writer::write] and [Reader::read] cut at every access to shared
    memory, on a memory that is sequentially consistent.  The copy of a payload
    is not atomic: it moves the words of the value one at a time and in any
    order.  This machine runs one call with the others at rest ([write_alone],
    [read_alone]), and is the reference for those runs of SeqlockWeak.v, where
    the accesses have the orderings of the source, that are sequentially
    consistent; it does not stand for threads that run at the same time.
    [BlackboardPorts]: the ports and the state they share. *)
From stdpp Require Import pretty.
From S2P Require Import Prelude Contracts FreeList IndexSet PoolAlloc Shm DataSegment Config Service.
#[local] Open Scope Z_scope.
#[local] Open Scope rust_scope.

Module Seqlock.

(** The sequence number and the words of the data slot. *)
Record Slot := mk_slot { sequence : Z; words : list Z }.

Definition set_sequence (b : Slot) (s : Z) : Slot := mk_slot s (words b).
Definition set_word (b : Slot) (j : nat) (x : Z) : Slot :=
  mk_slot (sequence b) (<[j := x]> (words b)).

(** Writer: called, number loaded, number odd and words [todo] to copy. *)
Inductive write_pc :=
| WriteIdle
| WriteLoad (v : list Z)
| WriteBegin (v : list Z) (seq : Z)
| WriteCopy (v : list Z) (seq : Z) (todo : list nat).

(** Reader: called or retrying, number [s1] loaded and words [todo] to copy
    into [buf]. *)
Inductive read_pc :=
| ReadIdle (last : option (option (list Z)))
| ReadLoad
| ReadCopy (s1 : Z) (buf : list Z) (todo : list nat).

Inductive event :=
| Wrote (v : list Z)
| ReadSome (v : list Z)
| ReadNone.

(** One step of [Writer::write]; the copy moves the [k]-th word left. *)
Definition step_write (b : Slot) (k : nat) (p : write_pc)
    : option (Slot * write_pc * list event) :=
  match p with
  | WriteIdle => None
  | WriteLoad v => Some (b, WriteBegin v (sequence b), [])
  | WriteBegin v seq =>
      Some (set_sequence b (wrapping_add 64 seq 1),
            WriteCopy v seq (List.seq 0 (length (words b))), [])
  | WriteCopy v seq [] =>
      Some (set_sequence b (wrapping_add 64 seq 2), WriteIdle, [Wrote v])
  | WriteCopy v seq todo =>
      match todo !! k with
      | Some j =>
          match v !! j with
          | Some x => Some (set_word b j x, WriteCopy v seq (delete k todo), [])
          | None => None
          end
      | None => None
      end
  end.

(** One step of [Reader::read]. *)
Definition step_read (b : Slot) (k : nat) (p : read_pc) : option (read_pc * list event) :=
  match p with
  | ReadIdle _ => None
  | ReadLoad =>
      let s1 := sequence b in
      if s1 =? 0 then Some (ReadIdle (Some None), [ReadNone])
      else if negb (Z.land s1 1 =? 0) then Some (ReadLoad, [])
      else Some (ReadCopy s1 (replicate (length (words b)) 0)
                   (List.seq 0 (length (words b))), [])
  | ReadCopy s1 buf [] =>
      let s2 := sequence b in
      if s1 =? s2 then Some (ReadIdle (Some (Some buf)), [ReadSome buf])
      else Some (ReadLoad, [])
  | ReadCopy s1 buf todo =>
      match todo !! k with
      | Some j =>
          match words b !! j with
          | Some x => Some (ReadCopy s1 (<[j := x]> buf) (delete k todo), [])
          | None => None
          end
      | None => None
      end
  end.

Record config := mkC {
  slot : Slot;
  writers : list write_pc;
  readers : list read_pc;
}.

Inductive action :=
| CallWrite (i : nat) (v : list Z)
| RunWrite (i k : nat)
| CallRead (i : nat)
| RunRead (i k : nat).

(** A value has the size of the slot. *)
Definition exec (a : action) (c : config) : option (config * list event) :=
  match a with
  | CallWrite i v =>
      match writers c !! i with
      | Some WriteIdle =>
          if decide (length v = length (words (slot c)))
          then Some (mkC (slot c) (<[i := WriteLoad v]> (writers c)) (readers c), [])
          else None
      | _ => None
      end
  | RunWrite i k =>
      match writers c !! i with
      | Some p =>
          match step_write (slot c) k p with
          | Some (b, p', e) => Some (mkC b (<[i := p']> (writers c)) (readers c), e)
          | None => None
          end
      | None => None
      end
  | CallRead i =>
      match readers c !! i with
      | Some (ReadIdle _) =>
          Some (mkC (slot c) (writers c) (<[i := ReadLoad]> (readers c)), [])
      | _ => None
      end
  | RunRead i k =>
      match readers c !! i with
      | Some p =>
          match step_read (slot c) k p with
          | Some (p', e) => Some (mkC (slot c) (writers c) (<[i := p']> (readers c)), e)
          | None => None
          end
      | None => None
      end
  end.

Fixpoint run (sched : list action) (c : config) : option (config * list event) :=
  match sched with
  | [] => Some (c, [])
  | a :: sched =>
      match exec a c with
      | None => None
      | Some (c1, e1) =>
          match run sched c1 with None => None | Some (c2, e2) => Some (c2, e1 ++ e2) end
      end
  end.

(** A new writer: number 0, a slot of zeroes. *)
Definition new_slot (n : nat) : Slot := mk_slot 0 (replicate n 0).
Definition init (n nw nr : nat) : config :=
  mkC (new_slot n) (replicate nw WriteIdle) (replicate nr (ReadIdle None)).

(** ** The abstract register *)

Definition spec_step (latest : option (list Z)) (e : event) : option (option (list Z)) :=
  match e with
  | Wrote v => Some (Some v)
  | ReadSome v => if decide (latest = Some v) then Some latest else None
  | ReadNone => match latest with None => Some None | Some _ => None end
  end.

Fixpoint spec_run (latest : option (list Z)) (evs : list event) : option (option (list Z)) :=
  match evs with
  | [] => Some latest
  | e :: evs =>
      match spec_step latest e with Some l => spec_run l evs | None => None end
  end.

Definition written (evs : list event) : list (list Z) :=
  omap (fun e => match e with Wrote v => Some v | _ => None end) evs.

Lemma register_run_app l e1 e2 :
  spec_run l (e1 ++ e2) =
  match spec_run l e1 with Some l => spec_run l e2 | None => None end.
Proof.
  revert l. induction e1 as [|e e1 IH]; intros l; cbn; [done|].
  destruct (spec_step l e); [apply IH|done].
Qed.

(** What a register returns was written to it. *)
Lemma register_reads_written l evs l' v :
  spec_run l evs = Some l' -> ReadSome v ∈ evs -> l = Some v \/ v ∈ written evs.
Proof.
  revert l. induction evs as [|e evs IH]; intros l H Hin; [by apply elem_of_nil in Hin|].
  cbn in H. destruct (spec_step l e) as [l1|] eqn:E; [|done].
  apply elem_of_cons in Hin as [<-|Hin]; cbn in E.
  - case_decide; [by left|done].
  - destruct (IH _ H Hin) as [Hl|Hw].
    + destruct e as [w|w|]; cbn in E |- *.
      * simplify_eq. right. by left.
      * case_decide; simplify_eq. by left.
      * destruct l; simplify_eq.
    + right. destruct e; cbn; [by right|done|done].
Qed.

(** ** The invariant of one writer *)

(** [d] writes have ended, the last with [latest]; [w] is what the writer does. *)
Definition write_ok (b : Slot) (d : Z) (latest : option (list Z)) (w : write_pc) : Prop :=
  match w with
  | WriteIdle => sequence b = 2 * d
  | WriteLoad v => sequence b = 2 * d /\ length v = length (words b)
  | WriteBegin v seq => seq = 2 * d /\ sequence b = 2 * d /\ length v = length (words b)
  | WriteCopy v seq todo =>
      seq = 2 * d /\ sequence b = 2 * d + 1 /\ length v = length (words b) /\
      (forall j, j ∉ todo -> words b !! j = v !! j)
  end.

(** Unless a write is under way, the slot holds the latest value. *)
Definition settled (b : Slot) (d : Z) (latest : option (list Z)) : Prop :=
  match latest with
  | None => d = 0
  | Some v => 0 < d /\ (sequence b = 2 * d -> words b = v)
  end.

(** A reader that has seen [s1] holds words of the slot as it is as long as the
    number has not changed. *)
Definition read_ok (b : Slot) (p : read_pc) : Prop :=
  match p with
  | ReadCopy s1 buf todo =>
      0 < s1 <= sequence b /\ s1 mod 2 = 0 /\ length buf = length (words b) /\
      (sequence b = s1 -> forall j, j ∉ todo -> buf !! j = words b !! j)
  | _ => True
  end.

Record inv (c : config) (d : Z) (latest : option (list Z)) : Prop := {
  inv_done : 0 <= d < 2 ^ 63;
  inv_writer : exists w, writers c = [w] /\ write_ok (slot c) d latest w;
  inv_settled : settled (slot c) d latest;
  inv_readers : Forall (read_ok (slot c)) (readers c);
}.

Lemma not_in_delete {A} `{EqDecision A} (l : list A) k x j :
  l !! k = Some x -> j ∉ delete k l -> j <> x -> j ∉ l.
Proof.
  intros Hk Hj Hne Hin. apply list_elem_of_lookup in Hin as (i & Hi). apply Hj.
  apply list_elem_of_lookup. destruct (decide (i < k)%nat).
  - exists i. by rewrite list_lookup_delete_lt.
  - assert (i <> k) by (intros ->; congruence). exists (pred i).
    rewrite list_lookup_delete_ge by lia. by replace (S (pred i)) with i by lia.
Qed.

Lemma not_in_seq n j : j ∉ List.seq 0 n -> (n <= j)%nat.
Proof. rewrite elem_of_seq. lia. Qed.

(** Copying word [j] extends the agreement of two lists to [j]. *)
Lemma copy_agree (l l' : list Z) (todo : list nat) (k j : nat) x :
  length l = length l' -> todo !! k = Some j -> l' !! j = Some x ->
  (forall i, i ∉ todo -> l !! i = l' !! i) ->
  forall i, i ∉ delete k todo -> <[j := x]> l !! i = l' !! i.
Proof.
  intros Hlen Hk Hx Hall i Hi. destruct (decide (i = j)) as [->|Hne].
  - rewrite list_lookup_insert_eq; [done|]. rewrite Hlen. by eapply lookup_lt_Some.
  - rewrite list_lookup_insert_ne by done. apply Hall. by eapply not_in_delete.
Qed.

(** The writer only ever adds to the number, so readers notice. *)
Lemma read_ok_sequence b b' p :
  read_ok b p -> sequence b < sequence b' -> length (words b') = length (words b) ->
  read_ok b' p.
Proof.
  destruct p as [| |s1 buf todo]; cbn; try done.
  intros (H1 & H2 & H3 & _) Hlt Hlen. split; [lia|]. split; [done|]. split; [congruence|lia].
Qed.

Lemma read_ok_odd b b' p :
  read_ok b p -> sequence b' = sequence b -> sequence b mod 2 = 1 ->
  length (words b') = length (words b) -> read_ok b' p.
Proof.
  destruct p as [| |s1 buf todo]; cbn; try done.
  intros (H1 & H2 & H3 & _) Hs Hodd Hlen. rewrite Hs, Hlen.
  split; [done|]. split; [done|]. split; [done|]. intros <-. lia.
Qed.

Lemma step_write_inv b d latest p k b' p' e rs :
  0 <= d -> d + Z.of_nat (length (written e)) < 2 ^ 63 ->
  write_ok b d latest p -> settled b d latest -> Forall (read_ok b) rs ->
  step_write b k p = Some (b', p', e) ->
  exists latest', spec_run latest e = Some latest' /\
    write_ok b' (d + Z.of_nat (length (written e))) latest' p' /\
    settled b' (d + Z.of_nat (length (written e))) latest' /\ Forall (read_ok b') rs.
Proof.
  intros H0 Hd Hw Hs Hr Hst. destruct p as [|v|v s|v s todo]; cbn in Hw, Hst; try done.
  - destruct Hw as [Hq Hl]. simplify_eq. exists latest. cbn. rewrite Z.add_0_r. auto.
  - destruct Hw as (-> & Hq & Hl). simplify_eq. cbn in Hd |- *. rewrite Z.add_0_r in *.
    assert (Hw1 : wrapping_add 64 (2 * d) 1 = 2 * d + 1) by (apply wrap_small; unfold fits; lia).
    exists latest. rewrite Hw1. split; [done|]. split; [|split].
    + split; [done|]. split; [done|]. split; [done|].
      intros j Hj%not_in_seq. rewrite !lookup_ge_None_2 by lia. done.
    + destruct latest; cbn in Hs |- *; [|done]. split; [apply Hs|]. lia.
    + eapply Forall_impl; [exact Hr|]. intros r Hr'. apply (read_ok_sequence b); cbn; [done|lia|done].
  - destruct Hw as (-> & Hq & Hl & Ha). destruct todo as [|j0 todo].
    + simplify_eq. cbn in Hd |- *. exists (Some v).
      assert (Hw2 : wrapping_add 64 (2 * d) 2 = 2 * d + 2) by (apply wrap_small; unfold fits; lia).
      rewrite Hw2. split; [done|]. split; [lia|]. split.
      * split; [lia|]. intros _. apply list_eq. intros j. apply Ha. apply not_elem_of_nil.
      * eapply Forall_impl; [exact Hr|]. intros r Hr'. apply (read_ok_sequence b); cbn; [done|lia|done].
    + remember (j0 :: todo) as td. destruct (td !! k) as [j|] eqn:Hk; [|done].
      destruct (v !! j) as [x|] eqn:Hx; [|done]. simplify_eq. cbn in Hd |- *.
      rewrite Z.add_0_r in *. exists latest. rewrite length_insert. split; [done|]. split; [|split].
      * split; [done|]. split; [done|]. split; [done|]. by apply copy_agree.
      * destruct latest; cbn in Hs |- *; [|done]. split; [apply Hs|]. lia.
      * eapply Forall_impl; [exact Hr|]. intros r Hr'.
        apply (read_ok_odd b); cbn; [done|done| |by rewrite length_insert].
        rewrite Hq, Z.add_comm, Z.mul_comm, Z.mod_add; [done|lia].
Qed.

Lemma land_1 x : Z.land x 1 = x mod 2.
Proof. change 1 with (Z.ones 1). by rewrite Z.land_ones. Qed.

Lemma step_read_inv b d latest w p k p' e :
  0 <= d -> write_ok b d latest w -> settled b d latest -> read_ok b p ->
  step_read b k p = Some (p', e) ->
  spec_run latest e = Some latest /\ written e = [] /\ read_ok b p'.
Proof.
  intros H0 Hw Hs Hr Hst.
  assert (Hq : sequence b = 2 * d \/ sequence b = 2 * d + 1)
    by (destruct w; cbn in Hw; destruct_and?; auto).
  destruct p as [| |s1 buf todo]; cbn in Hr, Hst; try done.
  - rewrite land_1 in Hst. destruct (sequence b =? 0) eqn:E0; [|destruct (_ mod 2 =? 0) eqn:E2];
      cbn in Hst; simplify_eq; zbool.
    + assert (d = 0) as -> by lia. destruct latest; cbn in Hs |- *; [lia|done].
    + split; [done|]. split; [done|]. cbn. split; [lia|]. split; [done|].
      split; [by rewrite length_replicate|].
      intros _ j Hj%not_in_seq. rewrite !lookup_ge_None_2; rewrite ?length_replicate; [done|lia..].
    + done.
  - destruct Hr as (H1 & H2 & Hl & Ha). destruct todo as [|j0 todo].
    + destruct (s1 =? sequence b) eqn:E; simplify_eq; zbool; [|done]. split; [|done].
      cbn. rewrite decide_True; [done|].
      assert (Hdd : sequence b = 2 * d).
      { destruct Hq as [|Hq]; [done|]. rewrite E, Hq, Z.add_comm, Z.mul_comm, Z.mod_add in H2 by lia.
        done. }
      destruct latest as [v|]; cbn in Hs; [|lia]. destruct Hs as [_ <-]; [|done]. f_equal.
      apply list_eq. intros j. symmetry. apply Ha; [done|]. apply not_elem_of_nil.
    + remember (j0 :: todo) as td. destruct (td !! k) as [j|] eqn:Hk; [|done].
      destruct (words b !! j) as [x|] eqn:Hx; [|done]. simplify_eq. split; [done|]. split; [done|].
      cbn. rewrite length_insert. split; [done|]. split; [done|]. split; [done|].
      intros He. apply copy_agree; auto.
Qed.

Lemma bb_exec_inv a c d latest c' e :
  inv c d latest -> exec a c = Some (c', e) ->
  d + Z.of_nat (length (written e)) < 2 ^ 63 ->
  exists latest', spec_run latest e = Some latest' /\
    inv c' (d + Z.of_nat (length (written e))) latest'.
Proof.
  intros [Hd (w & Hw & Hwo) Hs Hr] He Hlt. unfold exec in He.
  destruct a as [i v|i k|i|i k].
  - rewrite Hw in He. destruct i as [|i]; [|done]. cbn in He. destruct w; try done.
    case_decide as Hl; simplify_eq. cbn in Hwo |- *. rewrite Z.add_0_r. exists latest.
    split; [done|]. by split; cbn; [|eexists|..].
  - rewrite Hw in He. destruct i as [|i]; [|done]. cbn in He.
    destruct (step_write _ _ _) as [[[b p'] e']|] eqn:E; simplify_eq.
    destruct (step_write_inv _ _ _ _ _ _ _ _ _ (proj1 Hd) Hlt Hwo Hs Hr E)
      as (l' & H1 & H2 & H3 & H4).
    exists l'. split; [done|]. split; cbn; [lia|by eexists|done|done].
  - destruct (readers c !! i) as [p|] eqn:Ei; [|done]. destruct p; try done. simplify_eq.
    cbn. rewrite Z.add_0_r. exists latest. split; [done|]. split; cbn; [done|by eexists|done|].
    by apply Forall_insert.
  - destruct (readers c !! i) as [p|] eqn:Ei; [|done].
    destruct (step_read _ _ _) as [[p' e']|] eqn:E; simplify_eq.
    assert (Hp : read_ok (slot c) p) by (by eapply Forall_lookup_1).
    destruct (step_read_inv _ _ _ _ _ _ _ _ (proj1 Hd) Hwo Hs Hp E) as (H1 & H2 & H3).
    rewrite H2. cbn. rewrite Z.add_0_r. exists latest. split; [done|].
    split; cbn; [done|by eexists|done|]. by apply Forall_insert.
Qed.

Lemma bb_run_inv sched c d latest c' evs :
  inv c d latest -> run sched c = Some (c', evs) ->
  d + Z.of_nat (length (written evs)) < 2 ^ 63 ->
  exists d' latest', spec_run latest evs = Some latest' /\ inv c' d' latest'.
Proof.
  revert c d latest evs. induction sched as [|a sched IH]; intros c d latest evs Hi Hr Hlt; cbn in Hr.
  - simplify_eq. eauto.
  - destruct (exec a c) as [[c1 e1]|] eqn:E; [|done].
    destruct (run sched c1) as [[c2 e2]|] eqn:E2; [|done]. simplify_eq.
    unfold written in Hlt. rewrite omap_app, length_app in Hlt.
    destruct (bb_exec_inv _ _ _ _ _ _ Hi E) as (l1 & H1 & Hi1); [unfold written; lia|].
    destruct (IH _ _ _ _ Hi1 E2) as (d2 & l2 & H2 & Hi2); [unfold written; lia|].
    exists d2, l2. by rewrite register_run_app, H1.
Qed.

Lemma bb_init_inv n nr : inv (init n 1 nr) 0 None.
Proof.
  split; cbn; [lia|by exists WriteIdle|done|]. by apply Forall_replicate.
Qed.

(** ** One writer, any number of readers, sequentially consistent memory *)

(** On one sequentially consistent memory every interleaving of one writer with
    any number of readers is an execution of an atomic register, for as long as
    fewer than 2^63 writes have ended (the 64-bit number then returns to 0).  A
    read takes effect at its last load: it returns the value of the write that
    ended last before it, or [None] when none has ended. *)
Lemma sc_register n nr sched c evs :
  run sched (init n 1 nr) = Some (c, evs) -> Z.of_nat (length (written evs)) < 2 ^ 63 ->
  exists latest, spec_run None evs = Some latest.
Proof.
  intros Hr Hlt. destruct (bb_run_inv _ _ _ _ _ _ (bb_init_inv n nr) Hr Hlt) as (d & l & H & _).
  by exists l.
Qed.

(** No torn read there: what [read] returns is a value some [write] was given,
    never a mixture of the words of two. *)
Theorem blackboard_no_torn_read n nr sched c evs v :
  run sched (init n 1 nr) = Some (c, evs) -> Z.of_nat (length (written evs)) < 2 ^ 63 ->
  ReadSome v ∈ evs -> v ∈ written evs.
Proof.
  intros Hr Hlt Hin.
  destruct (bb_run_inv _ _ _ _ _ _ (bb_init_inv n nr) Hr Hlt) as (d & l & H & _).
  by destruct (register_reads_written _ _ _ _ H Hin).
Qed.

(** ** One call with the others at rest *)

(** [Writer::write] run alone: [fuel] steps, words copied first to last. *)
Fixpoint write_alone (fuel : nat) (b : Slot) (p : write_pc) : Slot * write_pc :=
  match fuel with
  | O => (b, p)
  | S fuel =>
      match step_write b 0 p with
      | Some (b, p, _) => write_alone fuel b p
      | None => (b, p)
      end
  end.

(** [Reader::read] run alone. *)
Fixpoint read_alone (fuel : nat) (b : Slot) (p : read_pc) : outcome (option (list Z)) :=
  match p with
  | ReadIdle (Some r) => Ret r
  | _ =>
      match fuel with
      | O => OutOfFuel
      | S fuel =>
          match step_read b 0 p with
          | Some (p, _) => read_alone fuel b p
          | None => Panic
          end
      end
  end.

Lemma write_copy_alone b v seq done_ rest tail :
  words b = take done_ v ++ rest -> length v = length (words b) -> (done_ <= length v)%nat ->
  tail = List.seq done_ (length v - done_) ->
  write_alone (length v - done_ + 1) b (WriteCopy v seq tail)
  = (mk_slot (wrapping_add 64 seq 2) v, WriteIdle).
Proof.
  remember (length v - done_)%nat as m eqn:Hm. intros Hb Hl Hle ->.
  revert b done_ rest Hm Hb Hl Hle. induction m as [|m IH]; intros b d rest Hm Hb Hl Hle.
  - cbn. f_equal. unfold set_sequence. f_equal. rewrite Hb, take_ge by lia.
    rewrite Hb, length_app, length_take in Hl. destruct rest; [|cbn in Hl; lia].
    by rewrite app_nil_r.
  - change (S m + 1)%nat with (S (m + 1)). cbn [List.seq write_alone step_write].
    change ((d :: List.seq (S d) m) !! 0%nat) with (Some d). cbn iota beta.
    destruct (lookup_lt_is_Some_2 v d ltac:(lia)) as [x Hx]. rewrite Hx.
    change (delete 0%nat (d :: List.seq (S d) m)) with (List.seq (S d) m).
    destruct rest as [|y rest].
    { rewrite Hb, app_nil_r, length_take in Hl. lia. }
    apply (IH _ _ rest); [lia| | |lia].
    + cbn. rewrite Hb, (take_S_r _ _ _ Hx), <- app_assoc.
      rewrite insert_app_r_alt by (rewrite length_take; lia).
      by rewrite length_take, Nat.min_l, Nat.sub_diag by lia.
    + cbn. by rewrite length_insert.
Qed.

Lemma read_copy_alone b s1 buf d rest :
  sequence b = s1 -> buf = take d (words b) ++ rest -> length buf = length (words b) ->
  (d <= length (words b))%nat ->
  read_alone (length (words b) - d + 1) b (ReadCopy s1 buf (List.seq d (length (words b) - d)))
  = Ret (Some (words b)).
Proof.
  intros Hs. remember (length (words b) - d)%nat as m eqn:Hm.
  revert buf d rest Hm. induction m as [|m IH]; intros buf d rest Hm Hb Hl Hle.
  - cbn. rewrite Hs, Z.eqb_refl. cbn. do 2 f_equal. rewrite Hb, take_ge by lia.
    rewrite Hb, length_app, length_take in Hl. destruct rest; [|cbn in Hl; lia].
    by rewrite app_nil_r.
  - change (S m + 1)%nat with (S (m + 1)). cbn [List.seq read_alone step_read].
    change ((d :: List.seq (S d) m) !! 0%nat) with (Some d). cbn iota beta.
    destruct (lookup_lt_is_Some_2 (words b) d ltac:(lia)) as [x Hx]. rewrite Hx.
    change (delete 0%nat (d :: List.seq (S d) m)) with (List.seq (S d) m).
    destruct rest as [|y rest].
    { rewrite Hb, app_nil_r, length_take in Hl. lia. }
    apply (IH _ _ rest); [lia| | |lia].
    + rewrite Hb, (take_S_r _ _ _ Hx), <- app_assoc.
      rewrite insert_app_r_alt by (rewrite length_take; lia).
      by rewrite length_take, Nat.min_l, Nat.sub_diag by lia.
    + by rewrite length_insert.
Qed.

(** [write] is wait-free: whatever the slot holds it ends after one step
    per word and three more, and leaves the value and the number plus two.  A
    [read] that nothing disturbs then returns that value, in one step per word
    and two more, unless the number has come back to 0. *)
Theorem blackboard_write_read b v :
  fits 64 (sequence b) -> sequence b mod 2 = 0 -> length v = length (words b) ->
  let b' := mk_slot (wrapping_add 64 (sequence b) 2) v in
  write_alone (length v + 3) b (WriteLoad v) = (b', WriteIdle) /\
  read_alone (length v + 2) b' ReadLoad
  = Ret (if sequence b =? 2 ^ 64 - 2 then None else Some v).
Proof.
  intros Hf Hev Hl b'. split.
  - replace (length v + 3)%nat with (S (S (length v + 1))) by lia.
    cbn [write_alone step_write].
    pose proof (write_copy_alone (set_sequence b (wrapping_add 64 (sequence b) 1)) v (sequence b)
      0 (words b) (List.seq 0 (length (words b)))) as Hc.
    rewrite Nat.sub_0_r in Hc. apply Hc; cbn; [done|done|lia|]. by rewrite Hl.
  - replace (length v + 2)%nat with (S (length v + 1)) by lia. cbn [read_alone step_read sequence b' words].
    destruct (sequence b =? 2 ^ 64 - 2) eqn:E; zbool.
    + replace (wrapping_add 64 (sequence b) 2) with 0 by (rewrite E; reflexivity).
      by rewrite Nat.add_1_r.
    + assert (Hw : wrapping_add 64 (sequence b) 2 = sequence b + 2).
      { apply wrap_small. unfold fits in *.
        assert (sequence b <> 2 ^ 64 - 1); [|lia]. intros Hx. by rewrite Hx in Hev. }
      rewrite Hw. rewrite (proj2 (Z.eqb_neq _ 0)) by (unfold fits in Hf; lia).
      rewrite land_1, <- Zplus_mod_idemp_l, Hev. cbn [Z.add Z.modulo Z.eqb negb].
      change ((0 + 2) mod 2 =? 0) with true. cbn [negb].
      pose proof (read_copy_alone (mk_slot (sequence b + 2) v) (sequence b + 2)
        (replicate (length v) 0) 0 (replicate (length v) 0)) as Hc.
      cbn [words sequence] in Hc. rewrite Nat.sub_0_r in Hc.
      replace b' with (mk_slot (sequence b + 2) v) by (unfold b'; by rewrite Hw).
      apply Hc; [done|done|by rewrite length_replicate|lia].
Qed.

(** A [read] never blocks the writer, but a writer that stops between its
    two stores of the number blocks every reader: the loop of [read] has no
    bound, whatever the fuel. *)
Theorem blackboard_reader_spins b fuel :
  sequence b mod 2 = 1 -> read_alone fuel b ReadLoad = OutOfFuel.
Proof.
  intros Ho. induction fuel as [|fuel IH]; [done|]. cbn.
  destruct (sequence b =? 0) eqn:E0; zbool; [by rewrite E0 in Ho|].
  rewrite land_1, Ho. exact IH.
Qed.

(** A run of one writer and two readers that overlap. *)
Definition overlap : list action :=
  [CallRead 0; RunRead 0 0; CallWrite 0 [1; 2]; CallRead 0; RunWrite 0 0; RunWrite 0 0;
   RunRead 0 0; RunRead 0 0; CallRead 1; RunWrite 0 1; RunWrite 0 0; RunWrite 0 0; RunRead 1 0;
   RunRead 1 1; CallWrite 0 [3; 4]; RunWrite 0 0; RunRead 1 0; RunRead 1 0; CallRead 1;
   RunRead 1 0; RunRead 1 0; RunWrite 0 0; RunWrite 0 0; RunRead 1 0; RunWrite 0 0; RunWrite 0 0;
   RunRead 1 0; RunRead 1 0; RunRead 1 0; RunRead 1 0; RunRead 1 0].
Definition overlap_events : list event :=
  [ReadNone; Wrote [1; 2]; ReadSome [1; 2]; Wrote [3; 4]; ReadSome [3; 4]].

Lemma bb_overlap_run : exists c, run overlap (init 2 1 2) = Some (c, overlap_events).
Proof. eexists. vm_compute. reflexivity. Qed.

Lemma blackboard_no_torn_read_witness : [3; 4] ∈ written overlap_events.
Proof.
  destruct bb_overlap_run as [c Hc].
  apply (blackboard_no_torn_read 2 2 overlap c); [exact Hc|vm_compute; reflexivity|].
  repeat first [apply list_elem_of_here | apply list_elem_of_further].
Defined.

Lemma blackboard_write_read_witness :
  write_alone 5 (mk_slot 4 [0; 0]) (WriteLoad [7; 8]) = (mk_slot 6 [7; 8], WriteIdle).
Proof.
  apply (blackboard_write_read (mk_slot 4 [0; 0]) [7; 8]); [fits_tac|reflexivity|reflexivity].
Defined.

Lemma blackboard_reader_spins_witness :
  read_alone 1000 (mk_slot 3 [7; 0]) ReadLoad = OutOfFuel.
Proof. apply (blackboard_reader_spins (mk_slot 3 [7; 0]) 1000). reflexivity. Defined.

(** The algorithm is only correct for one writer, on such a memory too.  [Writer::write] takes
    [&self] and a writer may be shared between threads; when two of them load
    the same number, the first to end makes it even while the other is still
    copying, and a reader returns a value nobody wrote. *)
Theorem blackboard_two_writers_tear :
  exists sched c evs v,
    run sched (init 2 2 1) = Some (c, evs) /\ ReadSome v ∈ evs /\
    (forall i u, CallWrite i u ∈ sched -> u <> v) /\ length (written evs) = 1%nat.
Proof.
  exists [CallWrite 0 [1; 1]; CallWrite 1 [2; 2]; RunWrite 0 0; RunWrite 1 0; RunWrite 0 0;
    RunWrite 1 0; RunWrite 0 0; RunWrite 0 0; RunWrite 0 0; RunWrite 1 0;
    CallRead 0; RunRead 0 0; RunRead 0 0; RunRead 0 0; RunRead 0 0].
  do 2 eexists. exists [2; 1]. split; [vm_compute; reflexivity|].
  split; [repeat first [apply list_elem_of_here | apply list_elem_of_further]|].
  split; [|reflexivity]. intros i u Hin.
  repeat (apply elem_of_cons in Hin as [Hin|Hin]; [by simplify_eq|]). by apply elem_of_nil in Hin.
Qed.

End Seqlock.

(** ** The ports *)
Module BlackboardPorts.
Import Seqlock.

(** [WriterRegistration] and what its references lead to: [slot] is the number
    and the words of the value at [data_offset]. *)
Record Registration := mk_registration {
  segment : DataSegment.DataSegment;
  data_offset : PointerOffset.PointerOffset;
  slot : Slot;
}.

(** [BlackboardWiring]. *)
Record World `{Posix} := mk_world {
  kernel : Os;
  writer : option Registration;
}.
Arguments mk_world {H} kernel writer.
Arguments kernel {H} w.
Arguments writer {H} w.

(** The fields of [WriterBuilder] and [ReaderBuilder], and those of [Writer]
    and [Reader] other than the references of the registration. *)
Record PortBuilder := mk_builder { b_service_name : string; b_node_id : NodeId }.
Record Writer := mk_writer { w_service_name : string; w_node_id : NodeId }.
Record Reader := mk_reader { r_service_name : string; r_node_id : NodeId }.

(** [Display for LoanError]. *)
Definition LoanError_display (e : LoanError) : string :=
  match e with
  | OutOfMemory => "out of memory in data segment"
  | ExceedsMaxLoans max => "max loaned samples (" ++ pretty max ++ ") exceeded"
  end%string.

Definition seg_name (service_name : string) (node : NodeId) : string :=
  ("entangle_" ++ safe_name service_name ++ "_bb_" ++ to_hex 32 node)%string.

Section ports.
Context {P : Posix} (macos : bool) (hash : string -> Z).
(** [size_of::<T>()] and the number of words a value is copied in. *)
Context (size_of : Z) (n_words : nat).

(** [WriterBuilder::create]: as for a server, the segment is made before the
    check that there is no writer yet, and dropped when the check fails. *)
Definition create_writer (b : PortBuilder) (w : World)
    : outcome (result Writer IpcError * World) :=
  let chunk_size := Z.max size_of 8 in
  let name := seg_name (b_service_name b) (b_node_id b) in
  let! (r, os) := DataSegment.create macos hash (kernel w) name chunk_size 1 0 in
  match r with
  | Err e => Ret (Err (from e), mk_world os (writer w))
  | Ok seg =>
      let! (a, seg) := DataSegment.allocate seg in
      match a with
      | Err e =>
          let os := SharedMemory.drop os (DataSegment.shm seg) in
          let reason := ("blackboard allocate: " ++ LoanError_display e)%string in
          Ret (Err (from (ProcessMonitorError reason)), mk_world os (writer w))
      | Ok off =>
          match writer w with
          | Some _ =>
              let os := SharedMemory.drop os (DataSegment.shm seg) in
              Ret (Err (from (AlreadyExists (b_service_name b))), mk_world os (writer w))
          | None =>
              Ret (Ok (mk_writer (b_service_name b) (b_node_id b)),
                   mk_world os (Some (mk_registration seg off (new_slot n_words))))
          end
      end
  end.

(** [ReaderBuilder::create]. *)
Definition create_reader (b : PortBuilder) (w : World) : result Reader IpcError :=
  match writer w with
  | None => Err (from (NotFound (b_service_name b)))
  | Some _ => Ok (mk_reader (b_service_name b) (b_node_id b))
  end.

Context {V : PosixView} {Sp : PosixSpec}.

(** [WriterBuilder::create] never panics.  It succeeds only for the first
    writer of a service; the value then lies inside the mapping, 8-byte aligned
    and with room for a [T], readers can be made, and a read returns [None].
    Whatever the error, the registration stays as it was, and without one
    [ReaderBuilder::create] returns [NotFound]. *)
Theorem blackboard_create_ports (b : PortBuilder) (w : World) :
  0 <= size_of <= 2 ^ 47 ->
  exists r w', create_writer b w = Ret (r, w') /\
  (writer w' = None -> create_reader b w' = Err (Service (NotFound (b_service_name b)))) /\
  match r with
  | Ok _ =>
      writer w = None /\ (exists rd, create_reader b w' = Ok rd) /\
      exists reg, writer w' = Some reg /\
        DataSegment.resolve_debug_assert (segment reg) (data_offset reg) = true /\
        PointerOffset.offset (data_offset reg) mod 8 = 0 /\
        size_of <= DataSegment.chunk_size (segment reg) /\
        DataSegment.available (segment reg) = 0 /\
        read_alone 1 (slot reg) ReadLoad = Ret None
  | Err _ => writer w' = writer w
  end.
Proof using Sp.
  intros Hsz. unfold create_writer. set (name := seg_name _ _). cbn zeta.
  destruct (align8_spec (Z.max size_of 8)) as [Hal _]; [lia|lia|].
  assert (Hfit : DataSegment.fits_segment (Z.max size_of 8) 1 0).
  { split; [lia|]. split; [unfold SENTINEL; lia|]. split; [by fits_tac|].
    unfold DataSegment.HEADER_SIZE. lia. }
  assert (Hlt : Z.max size_of 8 + 7 < 2 ^ 64) by lia.
  destruct (DataSegment.ds_create_spec macos hash (kernel w) name _ 1 0 Hlt Hfit)
    as (r & os' & -> & Hr).
  assert (Hnf : forall w' : World, writer w' = None ->
    create_reader b w' = Err (Service (NotFound (b_service_name b)))).
  { intros w' Hw. unfold create_reader. by rewrite Hw. }
  cbn [obind]. destruct r as [seg|e]; [|by repeat eexists; auto].
  destruct Hr as (Hrep & Hcs & _). change (seqZ 0 1) with [0] in Hrep.
  destruct (DataSegment.ds_allocate_some _ _ _ _ Hrep) as (seg' & -> & Hrep' & Hch & Heq).
  cbn [obind]. destruct (writer w) as [reg|] eqn:Hw; [by repeat eexists; auto|].
  do 2 eexists. split; [done|]. split; [done|]. split; [done|]. split; [by eexists|].
  eexists. split; [done|]. cbn [segment data_offset slot]. rewrite <- Hch.
  destruct (DataSegment.chunk_inside _ _ _ Hrep' 0) as (H1 & H2 & _); [by left|].
  split; [done|]. split; [done|]. split; [rewrite Heq; cbn; lia|].
  split; [by destruct (DataSegment.ds_counts _ _ _ Hrep') as [_ ->]|done].
Qed.
End ports.

(** The service: [BlackboardBuilder::open_or_create]. *)
Record BlackboardBuilder := mk_bb {
  service_name : string;
  config : EntangleConfig;
  node : NodeId;
}.

Definition open_or_create {P : Posix} `{FileSystem, Ron} (type_name : string)
    (size_of align_of : Z) (b : BlackboardBuilder) (fs : Fs) (os : Os)
    : result (PortBuilder * World) IpcError * Fs :=
  let static_config :=
    StaticConfig.new Config.Blackboard (service_name b) type_name size_of align_of in
  match ServiceLifecycle.open_or_create (ServiceLifecycle.new (shm_root (config b))) fs
          static_config with
  | (Err e, fs) => (Err (from e), fs)
  | (Ok _, fs) => (Ok (mk_builder (service_name b) (node b), mk_world os None), fs)
  end.

Section witnesses.
Import ToyOs.

Definition example_builder : PortBuilder := mk_builder "b" 5.
Definition example_world : World (H := toy_posix) :=
  mk_world (H := toy_posix) (empty_os 100000) None.
Definition made {A E W} (m : outcome (result A E * W)) : bool :=
  match m with Ret (Ok _, _) => true | _ => false end.

Lemma example_made :
  made (create_writer (P := toy_posix) false no_hash 16 2 example_builder example_world) = true.
Proof. vm_compute. reflexivity. Qed.

Lemma blackboard_create_ports_witness :
  exists wr w' reg,
    create_writer (P := toy_posix) false no_hash 16 2 example_builder example_world
      = Ret (Ok wr, w') /\
    writer (H := toy_posix) w' = Some reg /\ read_alone 1 (slot reg) ReadLoad = Ret None.
Proof.
  pose proof example_made as Hm.
  destruct (blackboard_create_ports (P := toy_posix) false no_hash 16 2 example_builder
    example_world) as (r & w' & Hr & _ & Hs); [lia|].
  rewrite Hr in Hm. destruct r as [wr|e]; [|discriminate Hm].
  destruct Hs as (_ & _ & reg & Hreg & _ & _ & _ & _ & Hread).
  exists wr, w', reg. split; [exact Hr|]. split; [exact Hreg|exact Hread].
Defined.
End witnesses.
End BlackboardPorts.
