(* ===== verification/SeqlockWeak.v ===== *)
(** * The blackboard with the memory orderings of the source
    (crates/entangle/src/port/writer.rs, port/reader.rs)

    The seqlock of Blackboard.v again, for one writer and any number of readers,
    on the memory of WeakMemory.v: the accesses to the sequence number have the
    orderings that the code gives them, the copy of the payload is made of
    [Relaxed] accesses (to the compiler a copy that races with a write is
    undefined; this is the best it can mean).  A read sees no word older than the
    write it started from; but it may return words of different writes: nothing
    keeps the loads of the words before the second load of the number, nor the
    stores of the words after the store of the odd number.  Successive reads of
    one reader never go back.  In the runs where every load returns the latest
    value reads are whole, and the register is atomic. *)
From Stdlib Require Import Sorted.
From S2P Require Import Prelude WeakMemory Blackboard.
#[local] Open Scope Z_scope.

Module SeqlockWeak.
Import Seqlock.

Inductive loc := Seq | Word (j : nat).
#[export] Instance seqlock_loc_eq_dec : EqDecision loc.
Proof. solve_decision. Defined.

Record config := mkC {
  mem : memory loc;
  w_view : view loc;
  writer : write_pc;
  readers : list (view loc * read_pc);
}.

Definition init (nr : nat) : config :=
  mkC (initial (fun _ => 0)) bottom WriteIdle (replicate nr (bottom, ReadIdle None)).

Section machine.
(** The words of the payload. *)
Context (n : nat).

(** One step of [Writer::write]: a load reads place [ts], the copy moves the
    [k]-th word left. *)
Definition step_write (ts k : nat) (M : memory loc) (V : view loc) (p : write_pc)
    : option (memory loc * view loc * write_pc * list event) :=
  match p with
  | WriteIdle => None
  | WriteLoad v =>
      match load Relaxed Seq ts M V with
      | Some (seq, V) => Some (M, V, WriteBegin v seq, [])
      | None => None
      end
  | WriteBegin v seq =>
      let (M, V) := store Release Seq (wrapping_add 64 seq 1) M V in
      Some (M, V, WriteCopy v seq (List.seq 0 n), [])
  | WriteCopy v seq [] =>
      let (M, V) := store Release Seq (wrapping_add 64 seq 2) M V in
      Some (M, V, WriteIdle, [Wrote v])
  | WriteCopy v seq todo =>
      match todo !! k with
      | Some j =>
          match v !! j with
          | Some x =>
              let (M, V) := store Relaxed (Word j) x M V in
              Some (M, V, WriteCopy v seq (delete k todo), [])
          | None => None
          end
      | None => None
      end
  end.

(** One step of [Reader::read]. *)
Definition step_read (ts k : nat) (M : memory loc) (V : view loc) (p : read_pc)
    : option (view loc * read_pc * list event) :=
  match p with
  | ReadIdle _ => None
  | ReadLoad =>
      match load Acquire Seq ts M V with
      | Some (s1, V) =>
          if s1 =? 0 then Some (V, ReadIdle (Some None), [ReadNone])
          else if negb (Z.land s1 1 =? 0) then Some (V, ReadLoad, [])
          else Some (V, ReadCopy s1 (replicate n 0) (List.seq 0 n), [])
      | None => None
      end
  | ReadCopy s1 buf [] =>
      match load Acquire Seq ts M V with
      | Some (s2, V) =>
          if s1 =? s2 then Some (V, ReadIdle (Some (Some buf)), [ReadSome buf])
          else Some (V, ReadLoad, [])
      | None => None
      end
  | ReadCopy s1 buf todo =>
      match todo !! k with
      | Some j =>
          match load Relaxed (Word j) ts M V with
          | Some (x, V) => Some (V, ReadCopy s1 (<[j := x]> buf) (delete k todo), [])
          | None => None
          end
      | None => None
      end
  end.

Inductive action :=
| CallWrite (v : list Z)
| RunWrite (ts k : nat)
| CallRead (i : nat)
| RunRead (i ts k : nat).

(** A value has the size of the slot. *)
Definition exec (a : action) (c : config) : option (config * list event) :=
  match a with
  | CallWrite v =>
      match writer c with
      | WriteIdle =>
          if decide (length v = n) then Some (mkC (mem c) (w_view c) (WriteLoad v) (readers c), []) else None
      | _ => None
      end
  | RunWrite ts k =>
      match step_write ts k (mem c) (w_view c) (writer c) with
      | Some (M, V, p, e) => Some (mkC M V p (readers c), e)
      | None => None
      end
  | CallRead i =>
      match readers c !! i with
      | Some (V, ReadIdle _) => Some (mkC (mem c) (w_view c) (writer c) (<[i := (V, ReadLoad)]> (readers c)), [])
      | _ => None
      end
  | RunRead i ts k =>
      match readers c !! i with
      | Some (V, p) =>
          match step_read ts k (mem c) V p with
          | Some (V, p, e) => Some (mkC (mem c) (w_view c) (writer c) (<[i := (V, p)]> (readers c)), e)
          | None => None
          end
      | None => None
      end
  end.

Fixpoint run (sched : list action) (c : config) : option (config * list event) :=
  match sched with
  | [] => Some (c, [])
  | a :: sched =>
      match exec a c with
      | None => None
      | Some (c1, e1) =>
          match run sched c1 with None => None | Some (c2, e2) => Some (c2, e1 ++ e2) end
      end
  end.
(** ** The invariant *)

(** [vs] are the values of the writes that have begun, in order: write number
    [k] has put its words at place [S k] of their locations. *)
Record memory_ok (M : memory loc) (vs : list (list Z)) : Prop := {
  mo_wf : wf_memory M;
  mo_seq : forall t msg, M Seq !! t = Some msg ->
    val msg = wrap 64 (Z.of_nat t) /\ forall j, (j < n)%nat -> (t / 2 <= msg_view msg (Word j))%nat;
  mo_word : forall j k msg, (j < n)%nat -> M (Word j) !! S k = Some msg ->
    exists v, vs !! k = Some v /\ v !! j = Some (val msg);
  mo_values : forall v, v ∈ vs -> length v = n;
}.

(** Between writes. *)
Definition quiet (M : memory loc) (d : nat) : Prop :=
  length (M Seq) = S (2 * d) /\ forall j, (j < n)%nat -> length (M (Word j)) = S d.

Definition writer_ok (M : memory loc) (V : view loc) (vs : list (list Z)) (p : write_pc) : Prop :=
  closed M V /\ S (V Seq) = length (M Seq) /\ (forall j, (j < n)%nat -> S (V (Word j)) = length (M (Word j))) /\
  match p with
  | WriteIdle => quiet M (length vs)
  | WriteLoad v => length v = n /\ quiet M (length vs)
  | WriteBegin v seq => length v = n /\ quiet M (length vs) /\ seq = wrap 64 (Z.of_nat (2 * length vs))
  | WriteCopy v seq todo =>
      exists vs0, vs = vs0 ++ [v] /\ length v = n /\ seq = wrap 64 (Z.of_nat (2 * length vs0)) /\
        length (M Seq) = S (S (2 * length vs0)) /\ NoDup todo /\
        forall j, (j < n)%nat -> length (M (Word j)) = (if decide (j ∈ todo) then length vs else S (length vs))
  end.

(** The words of [buf] that have been copied are those of writes from number [d]
    on, counted from one. *)
Definition words_from (vs : list (list Z)) (d : nat) (todo : list nat) (buf : list Z) : Prop :=
  length buf = n /\
  forall j x, j ∉ todo -> buf !! j = Some x -> exists k v, (d <= S k)%nat /\ vs !! k = Some v /\ v !! j = Some x.

Definition has_seen (V : view loc) (d : nat) : Prop :=
  (1 <= d)%nat /\ (2 * d <= V Seq)%nat /\ forall j, (j < n)%nat -> (d <= V (Word j))%nat.

Definition reader_ok (M : memory loc) (vs : list (list Z)) (r : view loc * read_pc) : Prop :=
  closed M r.1 /\
  match r.2 with
  | ReadCopy s1 buf todo =>
      (forall j, j ∈ todo -> (j < n)%nat) /\
      exists d, s1 = wrap 64 (Z.of_nat (2 * d)) /\ has_seen r.1 d /\ words_from vs d todo buf
  | _ => True
  end.

(** The value of a write that has begun and not ended. *)
Definition writing (p : write_pc) : list (list Z) := match p with WriteCopy v _ _ => [v] | _ => [] end.

Record inv (c : config) (vs : list (list Z)) : Prop := {
  i_mem : memory_ok (mem c) vs;
  i_writer : writer_ok (mem c) (w_view c) vs (writer c);
  i_readers : Forall (reader_ok (mem c) vs) (readers c);
}.

(** Readers keep what they know when memory grows. *)
Lemma words_from_more vs vs' d todo buf : words_from vs d todo buf -> words_from (vs ++ vs') d todo buf.
Proof using Type.
  intros [Hl Hw]. split; [done|]. intros j x Hj Hx. destruct (Hw j x Hj Hx) as (k & v & Hk & Hv & Hvx).
  exists k, v. split; [done|]. split; [|done]. by apply lookup_app_l_Some.
Qed.

Lemma reader_ok_grows M M' vs vs' r : grows M M' -> reader_ok M vs r -> reader_ok M' (vs ++ vs') r.
Proof using Type.
  intros Hg [Hc Hr]. split; [by apply (closed_grows M)|].
  destruct r.2 as [last| |s1 buf todo]; try done.
  destruct Hr as (Hb & d & Hn & Hs & Hw). split; [done|]. exists d. split_and!; [done..|by apply words_from_more].
Qed.

(** ** The writer *)

(** A store of the sequence number. *)
Lemma store_seq M V M' V' vs vs' t :
  stored Release Seq (wrap 64 (Z.of_nat t)) M V M' V' -> memory_ok M vs -> closed M V ->
  length (M Seq) = t -> (forall j, (j < n)%nat -> (t / 2 <= V (Word j))%nat) ->
  (forall v, v ∈ vs' -> length v = n) ->
  memory_ok M' (vs ++ vs') /\ closed M' V' /\ grows M M' /\ length (M' Seq) = S t /\ S (V' Seq) = S t /\
  forall j, M' (Word j) = M (Word j) /\ V' (Word j) = V (Word j).
Proof using Type.
  intros Hst Hm Hc Ht Hk Hvs.
  destruct (stored_closed _ _ _ _ _ _ _ Hst (mo_wf _ _ Hm) Hc) as [Hwf' Hc'].
  pose proof (stored_grows _ _ _ _ _ _ _ Hst) as Hg.
  destruct Hst as [(msg & Hmsg & Hval & Hview & _ & _) Hoth [HVl HVo]]. specialize (Hview eq_refl).
  split; [split|split; [done|split; [done|split]]].
  - done.
  - intros k mk Hmk. rewrite Hmsg in Hmk. apply lookup_app_Some in Hmk as [Hmk|[Hge Hmk]]; [by apply Hm|].
    apply list_lookup_singleton_Some in Hmk as [He <-]. assert (k = t) as -> by lia.
    split; [done|]. intros j Hj. rewrite Hview, HVo by done. by apply Hk.
  - intros j k mk Hj Hmk. rewrite Hoth in Hmk by done. destruct (mo_word _ _ Hm _ _ _ Hj Hmk) as (v & Hv & Hx).
    exists v. split; [by apply lookup_app_l_Some|done].
  - intros v [Hv|Hv]%elem_of_app; [by apply (mo_values _ _ Hm)|by apply Hvs].
  - rewrite Hmsg, length_app, Ht. cbn. lia.
  - split; [lia|]. intros j. by rewrite Hoth, HVo.
Qed.

(** A store of a word of the write under way. *)
Lemma store_word M V M' V' vs v j x :
  stored Relaxed (Word j) x M V M' V' -> memory_ok M (vs ++ [v]) -> closed M V ->
  v !! j = Some x -> length (M (Word j)) = S (length vs) ->
  memory_ok M' (vs ++ [v]) /\ closed M' V' /\ grows M M' /\ M' Seq = M Seq /\ V' Seq = V Seq /\
  length (M' (Word j)) = S (S (length vs)) /\ V' (Word j) = S (length vs) /\
  forall i, i <> j -> M' (Word i) = M (Word i) /\ V' (Word i) = V (Word i).
Proof using Type.
  intros Hst Hm Hc Hx Hlen.
  destruct (stored_closed _ _ _ _ _ _ _ Hst (mo_wf _ _ Hm) Hc) as [Hwf' Hc'].
  pose proof (stored_grows _ _ _ _ _ _ _ Hst) as Hg.
  destruct Hst as [(msg & Hmsg & Hval & _) Hoth [HVl HVo]].
  split; [split|split; [done|split; [done|split; [by rewrite Hoth|split; [by rewrite HVo|]]]]].
  - done.
  - intros t mt Ht. rewrite Hoth in Ht by done. by apply (mo_seq _ _ Hm).
  - intros i k mk Hi Hmk. destruct (decide (i = j)) as [->|Hne].
    + rewrite Hmsg in Hmk. apply lookup_app_Some in Hmk as [Hmk|[Hge Hmk]]; [by apply Hm|].
      apply list_lookup_singleton_Some in Hmk as [He <-]. assert (k = length vs) as -> by lia.
      exists v. rewrite Hval. split; [by apply list_lookup_middle|done].
    + rewrite Hoth in Hmk by congruence. by apply (mo_word _ _ Hm).
  - apply Hm.
  - split; [rewrite Hmsg, length_app, Hlen; cbn; lia|]. split; [lia|].
    intros i Hne. by rewrite Hoth, HVo by congruence.
Qed.

Lemma writer_readers c M V p vs vs' :
  inv c vs -> grows (mem c) M -> memory_ok M (vs ++ vs') -> writer_ok M V (vs ++ vs') p ->
  inv (mkC M V p (readers c)) (vs ++ vs').
Proof using Type.
  intros [_ _ Hr] Hg Hm Hw. split; [done..|]. eapply Forall_impl; [exact Hr|].
  intros r. by apply reader_ok_grows.
Qed.

Lemma NoDup_delete_in (l : list nat) k x : NoDup l -> l !! k = Some x ->
  NoDup (delete k l) /\ forall y, y ∈ delete k l <-> y ∈ l /\ y <> x.
Proof using Type.
  intros Hnd Hk. pose proof (delete_Permutation _ _ _ Hk) as Hp. rewrite Hp in Hnd.
  apply NoDup_cons in Hnd as [Hx Hnd]. split; [done|]. intros y.
  assert (Hl : y ∈ l <-> y = x \/ y ∈ delete k l) by (by rewrite Hp, elem_of_cons at 1).
  rewrite Hl. split.
  - intros Hy. split; [by right|]. by intros ->.
  - intros [[->|Hy] Hne]; done.
Qed.

Lemma half_odd d : (S (2 * d) / 2 = d)%nat.
Proof using Type. replace (S (2 * d)) with (1 + d * 2)%nat by lia. by rewrite Nat.div_add. Qed.
Lemma half_even d : (S (S (2 * d)) / 2 = S d)%nat.
Proof using Type. replace (S (S (2 * d))) with (S d * 2)%nat by lia. by rewrite Nat.div_mul. Qed.

Lemma seq_next w d : wrapping_add 64 (wrap 64 (Z.of_nat d)) w = wrap 64 (Z.of_nat d + w).
Proof using Type. unfold wrapping_add. by rewrite wrap_add_l. Qed.

(** The store of the odd number: the write begins. *)
Lemma begin_inv c vs v seq M V :
  inv c vs -> writer c = WriteBegin v seq ->
  store Release Seq (wrapping_add 64 seq 1) (mem c) (w_view c) = (M, V) ->
  inv (mkC M V (WriteCopy v seq (List.seq 0 n)) (readers c)) (vs ++ [v]).
Proof using Type.
  intros Hinv Hw Hs. pose proof Hinv as [Hm (Hc & HS & HW & Hp) _]. rewrite Hw in Hp.
  destruct Hp as (Hl & [Hq Hqw] & ->). rewrite seq_next in Hs.
  pose proof (store_stored Release Seq (wrap 64 (Z.of_nat (S (2 * length vs)))) (mem c) (w_view c)) as Hst.
  replace (Z.of_nat (2 * length vs) + 1) with (Z.of_nat (S (2 * length vs))) in Hs by lia.
  rewrite Hs in Hst. cbn [fst snd] in Hst.
  destruct (store_seq _ _ _ _ vs [v] _ Hst Hm Hc Hq) as (Hm' & Hc' & Hg & Hlen & HV & Hwd).
  - intros j Hj. rewrite half_odd. specialize (HW j Hj). specialize (Hqw j Hj). lia.
  - by intros w ->%list_elem_of_singleton.
  - apply writer_readers; [done..|]. split; [done|]. split; [lia|]. split.
    { intros j Hj. destruct (Hwd j) as [-> ->]. by apply HW. }
    exists vs. split; [done|]. split; [done|]. split; [done|]. split; [done|]. split; [apply NoDup_seq|].
    intros j Hj. destruct (Hwd j) as [-> _]. rewrite decide_True by (apply elem_of_seq; lia).
    rewrite (Hqw j Hj), length_app. cbn. lia.
Qed.

(** The store of a word. *)
Lemma copy_inv c vs v seq todo k j x M V :
  inv c vs -> writer c = WriteCopy v seq todo -> todo !! k = Some j -> v !! j = Some x ->
  store Relaxed (Word j) x (mem c) (w_view c) = (M, V) ->
  inv (mkC M V (WriteCopy v seq (delete k todo)) (readers c)) vs.
Proof using Type.
  intros Hinv Hw Hk Hx Hs. pose proof Hinv as [Hm (Hc & HS & HW & Hp) _]. rewrite Hw in Hp.
  destruct Hp as (vs0 & -> & Hl & -> & Hq & Hnd & Hlen).
  assert (Hj : (j < n)%nat) by (rewrite <- Hl; by eapply lookup_lt_Some).
  destruct (NoDup_delete_in _ _ _ Hnd Hk) as [Hnd' Hin].
  pose proof (store_stored Relaxed (Word j) x (mem c) (w_view c)) as Hst.
  rewrite Hs in Hst. cbn [fst snd] in Hst.
  assert (Hlj : length (mem c (Word j)) = S (length vs0)).
  { rewrite (Hlen j Hj), decide_True by (by eapply list_elem_of_lookup_2). rewrite length_app. cbn. lia. }
  destruct (store_word _ _ _ _ _ _ _ _ Hst Hm Hc Hx Hlj) as (Hm' & Hc' & Hg & HMs & HVs & Hlj' & HVj & Hoth).
  rewrite <- (app_nil_r (vs0 ++ [v])). apply writer_readers; rewrite ?app_nil_r; try done.
  split; [done|]. rewrite HMs, HVs. split; [done|]. split.
  - intros i Hi. destruct (decide (i = j)) as [->|Hne]; [lia|]. destruct (Hoth i Hne) as [-> ->]. by apply HW.
  - exists vs0. do 5 (split; [done|]). intros i Hi. destruct (decide (i = j)) as [->|Hne].
    + rewrite decide_False by (rewrite Hin; naive_solver). rewrite Hlj', length_app. cbn. lia.
    + destruct (Hoth i Hne) as [-> _]. rewrite (Hlen i Hi).
      destruct (decide (i ∈ todo)), (decide (i ∈ delete k todo)); naive_solver.
Qed.

(** The store of the even number: the write ends. *)
Lemma end_inv c vs v seq M V :
  inv c vs -> writer c = WriteCopy v seq [] ->
  store Release Seq (wrapping_add 64 seq 2) (mem c) (w_view c) = (M, V) ->
  inv (mkC M V WriteIdle (readers c)) vs.
Proof using Type.
  intros Hinv Hw Hs. pose proof Hinv as [Hm (Hc & HS & HW & Hp) _]. rewrite Hw in Hp.
  destruct Hp as (vs0 & -> & Hl & -> & Hq & _ & Hlen). rewrite seq_next in Hs.
  pose proof (store_stored Release Seq (wrap 64 (Z.of_nat (S (S (2 * length vs0))))) (mem c) (w_view c)) as Hst.
  replace (Z.of_nat (2 * length vs0) + 2) with (Z.of_nat (S (S (2 * length vs0)))) in Hs by lia.
  rewrite Hs in Hst. cbn [fst snd] in Hst.
  assert (Hlen' : length (vs0 ++ [v]) = S (length vs0)) by (rewrite length_app; cbn; lia).
  assert (Hwl : forall j, (j < n)%nat -> length (mem c (Word j)) = S (S (length vs0))).
  { intros j Hj. rewrite (Hlen j Hj), decide_False by apply not_elem_of_nil. by rewrite Hlen'. }
  destruct (store_seq _ _ _ _ (vs0 ++ [v]) [] _ Hst Hm Hc Hq) as (Hm' & Hc' & Hg & HL & HV & Hwd).
  - intros j Hj. rewrite half_even. specialize (HW j Hj). specialize (Hwl j Hj). lia.
  - by intros w ?%elem_of_nil.
  - rewrite <- (app_nil_r (vs0 ++ [v])). apply writer_readers; [done..|]. rewrite app_nil_r.
    split; [done|]. split; [lia|]. split.
    { intros j Hj. destruct (Hwd j) as [-> ->]. by apply HW. }
    split; [rewrite HL, Hlen'; lia|]. intros j Hj. destruct (Hwd j) as [-> _]. rewrite (Hwl j Hj). lia.
Qed.

Lemma seqlock_write_inv ts k c vs M V p e :
  inv c (vs ++ writing (writer c)) ->
  step_write ts k (mem c) (w_view c) (writer c) = Some (M, V, p, e) ->
  inv (mkC M V p (readers c)) ((vs ++ written e) ++ writing p).
Proof using Type.
  intros Hinv He. destruct (writer c) as [|v|v seq|v seq todo] eqn:Ew; cbn [step_write writing] in He, Hinv; try done.
  - rewrite app_nil_r in Hinv. destruct (load _ _ _ _ _) as [[s V1]|] eqn:El; [|done]. simplify_eq. cbn.
    rewrite !app_nil_r. destruct Hinv as [Hm (Hc & HS & HW & Hp) Hr]. rewrite Ew in Hp.
    apply load_loaded in El. pose proof (loaded_closed _ _ _ _ _ _ _ El (mo_wf _ _ Hm) Hc) as Hc'.
    destruct El as [Hts (msg & Hmsg & <- & _ & Hle) Hg Hat]. destruct Hp as [Hl [Hq Hqw]].
    assert (ts = (2 * length vs)%nat) as -> by lia. destruct (mo_seq _ _ Hm _ _ Hmsg) as [Hv _].
    split; [done| |done]. split; [done|]. split; [specialize (Hle Seq); rewrite upd_eq, Nat.max_0_r in Hle; cbn [mem w_view]; lia|]. split; [|done].
    intros j Hj. specialize (Hle (Word j)). rewrite upd_ne in Hle by done. specialize (Hg (Word j)).
    specialize (HW j Hj). cbn [mem w_view]. lia.
  - rewrite app_nil_r in Hinv. destruct (store _ _ _ _ _) as [M1 V1] eqn:Es. simplify_eq. cbn.
    rewrite app_nil_r. by apply (begin_inv c vs).
  - destruct todo as [|j0 todo].
    + destruct (store _ _ _ _ _) as [M1 V1] eqn:Es. simplify_eq. cbn. rewrite app_nil_r. by eapply end_inv.
    + remember (j0 :: todo) as td. destruct (td !! k) as [j|] eqn:Hk; [|done].
      destruct (v !! j) as [x|] eqn:Hx; [|done]. destruct (store _ _ _ _ _) as [M1 V1] eqn:Es. simplify_eq. cbn.
      rewrite app_nil_r. by eapply copy_inv.
Qed.

Lemma wrap_parity t : wrap 64 (Z.of_nat t) mod 2 = 0 -> (2 * (t / 2) = t)%nat.
Proof using Type.
  unfold wrap. change (2 ^ 64) with (2 * 2 ^ 63). rewrite Z.rem_mul_r by lia.
  rewrite (Z.mul_comm 2), Z.mod_add by lia. rewrite Z.mod_mod by lia. intros H.
  pose proof (Nat.div_mod_eq t 2) as Hd. change 2 with (Z.of_nat 2) in H. rewrite <- Nat2Z.inj_mod in H. lia.
Qed.

(** A reader that goes on knows what it knew. *)
Lemma has_seen_le V V' d : view_le V V' -> has_seen V d -> has_seen V' d.
Proof using Type.
  intros Hle (H1 & H2 & H3). pose proof (Hle Seq). split; [done|]. split; [lia|].
  intros j Hj. specialize (H3 j Hj). specialize (Hle (Word j)). lia.
Qed.

Lemma seqlock_read_inv ts k M V vs p V' p' e :
  memory_ok M vs -> reader_ok M vs (V, p) -> step_read ts k M V p = Some (V', p', e) ->
  reader_ok M vs (V', p') /\ written e = [].
Proof using Type.
  intros Hm [Hc Hp] He. cbn [fst snd] in Hc, Hp.
  destruct p as [b| |s1 buf todo]; cbn [step_read] in He; [done| |destruct todo as [|j0 todo]].
  - destruct (load _ _ _ _ _) as [[s V1]|] eqn:El; [|done]. apply load_loaded in El.
    pose proof (loaded_closed _ _ _ _ _ _ _ El (mo_wf _ _ Hm) Hc) as Hc'.
    destruct El as [Hts (msg & Hmsg & <- & Hacq & _) Hg Hat]. destruct (mo_seq _ _ Hm _ _ Hmsg) as [Hv Hw].
    destruct (val msg =? 0) eqn:E0; [by simplify_eq|]. destruct (negb _) eqn:E1; simplify_eq; [done|]. zbool.
    split; [|done]. split; [done|]. rewrite Hv, land_1 in E1. rewrite Hv in E0. cbn [snd]. apply wrap_parity in E1.
    split; [intros j Hj%elem_of_seq; lia|].
    exists (ts / 2)%nat. split; [by rewrite E1|]. split; [split; [|split]|split; [apply length_replicate|]].
    + assert (ts <> 0%nat) by (by intros ->). lia.
    + cbn [fst]. lia.
    + intros j Hj. specialize (Hw j Hj). specialize (Hacq eq_refl (Word j)). cbn [fst]. lia.
    + intros j x Hj%not_in_seq Hx%lookup_lt_Some. rewrite length_replicate in Hx. lia.
  - destruct (load _ _ _ _ _) as [[s V1]|] eqn:El; [|done]. apply load_loaded in El.
    pose proof (loaded_closed _ _ _ _ _ _ _ El (mo_wf _ _ Hm) Hc) as Hc'. by destruct (s1 =? s); simplify_eq.
  - remember (j0 :: todo) as td. destruct Hp as (Hb & d & Hn & Hs & Hl & Hw). destruct (td !! k) as [j|] eqn:Hk; [|done].
    destruct (load _ _ _ _ _) as [[x V1]|] eqn:El; [|done]. simplify_eq. apply load_loaded in El.
    pose proof (loaded_closed _ _ _ _ _ _ _ El (mo_wf _ _ Hm) Hc) as Hc'. split; [|done]. split; [done|].
    split; [intros i Hi; apply Hb; by eapply list_elem_of_delete_inv|].
    exists d. split; [done|]. split; [by apply (has_seen_le V); [apply (ld_grows _ _ _ _ _ _ _ El)|]|].
    split; [by rewrite length_insert|]. intros i y Hi [(<- & <- & Hlt)|[Hne Hy]]%list_lookup_insert_Some.
    + destruct El as [Hts (msg & Hmsg & <- & _) _ _]. destruct Hs as (H1 & _ & H3).
      rewrite Hl in Hlt. specialize (H3 j Hlt). destruct ts as [|ts]; [lia|].
      destruct (mo_word _ _ Hm _ _ _ Hlt Hmsg) as (v & Hv & Hvx). exists ts, v. split; [lia|done].
    + apply (Hw i y); [|done]. by eapply not_in_delete.
Qed.

Lemma seqlock_exec_inv a c vs c' e :
  inv c (vs ++ writing (writer c)) -> exec a c = Some (c', e) ->
  inv c' ((vs ++ written e) ++ writing (writer c')).
Proof using Type.
  intros Hinv He. destruct a as [v|ts k|i|i ts k]; cbn in He.
  - destruct (writer c) eqn:Ew; try done. case_decide; [|done]. simplify_eq. cbn. rewrite app_nil_r.
    destruct Hinv as [Hm (Hc & HS & HW & Hp) Hr]. rewrite Ew in Hp. by split.
  - destruct (step_write _ _ _ _ _) as [[[[M V] p] e']|] eqn:Es; [|done]. simplify_eq. by eapply seqlock_write_inv.
  - destruct (readers c !! i) as [[V [b| |]]|] eqn:Hi; try done. simplify_eq. cbn. rewrite app_nil_r.
    destruct Hinv as [Hm Hw Hr]. split; try done. apply Forall_insert; [done|].
    rewrite Forall_lookup in Hr. split; [|done]. by apply (Hr i _ Hi).
  - destruct (readers c !! i) as [[V p]|] eqn:Hi; [|done].
    destruct (step_read _ _ _ _ _) as [[[V' p'] e']|] eqn:Es; [|done]. simplify_eq.
    destruct Hinv as [Hm Hw Hr]. pose proof Hr as Hr'. rewrite Forall_lookup in Hr'.
    destruct (seqlock_read_inv _ _ _ _ _ _ _ _ _ Hm (Hr' i _ Hi) Es) as [Hok ->]. cbn. rewrite app_nil_r.
    split; try done. by apply Forall_insert.
Qed.

Lemma seqlock_run_inv sched c vs c' evs :
  inv c (vs ++ writing (writer c)) -> run sched c = Some (c', evs) ->
  inv c' ((vs ++ written evs) ++ writing (writer c')).
Proof using Type.
  revert c vs evs. induction sched as [|a sched IH]; intros c vs evs Hi Hr; cbn in Hr.
  - simplify_eq. cbn. by rewrite app_nil_r.
  - destruct (exec a c) as [[c1 e1]|] eqn:He; [|done].
    destruct (run sched c1) as [[c2 e2]|] eqn:Hr2; [|done]. simplify_eq.
    apply (seqlock_exec_inv _ _ _ _ _ Hi) in He. apply (IH _ _ _ He) in Hr2.
    unfold written in *. by rewrite omap_app, app_assoc.
Qed.

Lemma seqlock_init_inv nr : inv (init nr) [].
Proof using Type.
  split; cbn.
  - split; try apply initial_wf.
    + intros t msg [-> <-]%list_lookup_singleton_Some. split; [done|]. intros j _. cbn. lia.
    + intros j k msg _ Hk. done.
    + by intros v ?%elem_of_nil.
  - split; [apply initial_closed|]. by split_and!.
  - apply Forall_replicate. split; [apply initial_closed|done].
Qed.

Lemma run_reached nr sched c evs :
  run sched (init nr) = Some (c, evs) -> inv c (written evs ++ writing (writer c)).
Proof using Type. intros Hr. by apply (seqlock_run_inv sched (init nr) [] c evs (seqlock_init_inv nr)). Qed.

(** A number that has been stored is that of a write that has ended. *)
Lemma ended_before M V vs p d :
  writer_ok M V (vs ++ writing p) p -> (2 * d < length (M Seq))%nat -> (d <= length vs)%nat.
Proof using Type.
  intros (_ & _ & _ & Hp) Hd. destruct p as [|v|v s|v s todo]; cbn [writing] in Hp; rewrite ?app_nil_r in Hp.
  - destruct Hp as [Hq _]. lia.
  - destruct Hp as (_ & Hq & _). lia.
  - destruct Hp as (_ & (Hq & _) & _). lia.
  - destruct Hp as (vs0 & [-> _]%app_inj_tail & _ & _ & Hq & _). lia.
Qed.

(** Writes that have begun stay. *)
Lemma begun_grows a c c' e :
  exec a c = Some (c', e) -> exists l, written e ++ writing (writer c') = writing (writer c) ++ l.
Proof using Type.
  intros He. destruct a as [v|ts k|i|i ts k]; cbn in He.
  - destruct (writer c); try done. case_decide; [|done]. simplify_eq. by exists [].
  - destruct (step_write _ _ _ _ _) as [[[[M V] p] e']|] eqn:Es; [|done]. simplify_eq. cbn.
    destruct (writer c) as [|v|v s|v s [|j0 todo]]; cbn [step_write] in Es; try done; repeat case_match; simplify_eq;
      cbn; eauto; by exists [].
  - destruct (readers c !! i) as [[V [b| |]]|]; try done. simplify_eq. exists []. by rewrite app_nil_r.
  - destruct (readers c !! i) as [[V p]|]; [|done].
    destruct (step_read _ _ _ _ _) as [[[V' p'] e']|] eqn:Es; [|done]. simplify_eq.
    assert (written e = []) as ->; [|exists []; by rewrite app_nil_r].
    destruct p as [b| |s1 buf [|j0 todo]]; cbn [step_read] in Es; try done; repeat case_match; by simplify_eq.
Qed.

Lemma run_begun sched c c' evs :
  run sched c = Some (c', evs) -> exists l, written evs ++ writing (writer c') = writing (writer c) ++ l.
Proof using Type.
  revert c evs. induction sched as [|a sched IH]; intros c evs Hr; cbn in Hr.
  - simplify_eq. exists []. by rewrite app_nil_r.
  - destruct (exec a c) as [[c1 e1]|] eqn:He; [|done].
    destruct (run sched c1) as [[c2 e2]|] eqn:Hr2; [|done]. simplify_eq.
    destruct (begun_grows _ _ _ _ He) as [l1 H1]. destruct (IH _ _ Hr2) as [l2 H2]. exists (l1 ++ l2).
    unfold written in *. by rewrite omap_app, <- app_assoc, H2, app_assoc, H1, app_assoc.
Qed.

(** Only the last load of a read returns a value. *)
Lemma read_some_exec i ts k c V s1 buf todo c' v :
  readers c !! i = Some (V, ReadCopy s1 buf todo) -> exec (RunRead i ts k) c = Some (c', [ReadSome v]) ->
  todo = [] /\ buf = v.
Proof using Type.
  intros Hi He. cbn in He. rewrite Hi in He.
  destruct (step_read _ _ _ _ _) as [[[V' p'] e']|] eqn:Es; [|done]. simplify_eq.
  destruct todo; cbn in Es; repeat case_match; by simplify_eq.
Qed.
End machine.

(** ** What a read returns *)

(** C22: with the orderings of the source, whatever values the loads return
    within what these allow, for as long as fewer than 2^63 writes have begun: a
    read that returns after it loaded the number [s1] returns a value of the right
    size, and [s1 = 2 * (d + 1)] where write [d] (counted from zero) has ended;
    every word of the value comes from write [d] or from a later one that has
    begun.  So when no write has begun after write [d] the value is that of
    write [d], whole. *)
Theorem seqlock_weak_words n nr sched c evs i V s1 buf todo ts k c' v :
  run n sched (init nr) = Some (c, evs) -> readers c !! i = Some (V, ReadCopy s1 buf todo) ->
  exec n (RunRead i ts k) c = Some (c', [ReadSome v]) ->
  let begun := written evs ++ writing (writer c) in
  Z.of_nat (length begun) < 2 ^ 63 ->
  length v = n /\
  exists d, s1 = 2 * Z.of_nat (S d) /\ (d < length (written evs))%nat /\
    (forall j x, v !! j = Some x ->
       exists k w, (d <= k)%nat /\ begun !! k = Some w /\ w !! j = Some x) /\
    (length begun = S d -> begun !! d = Some v).
Proof.
  intros Hr Hi He begun Hlt. pose proof (run_reached _ _ _ _ _ Hr) as Hinv. fold begun in Hinv.
  destruct Hinv as [Hm Hwr Hrs]. rewrite Forall_lookup in Hrs. destruct (Hrs i _ Hi) as [Hc (_ & d & Hs1 & Hsn & Hl & Hw)].
  cbn [fst snd] in *. destruct (read_some_exec _ _ _ _ _ _ _ _ _ _ _ Hi He) as [-> ->].
  pose proof Hsn as (Hd & Hs & _). destruct d as [|d]; [lia|]. split; [done|]. exists d.
  pose proof (ended_before n (mem c) (w_view c) (written evs) (writer c) (S d) Hwr) as Hend.
  specialize (Hc Seq). assert (Hdw : (S d <= length (written evs))%nat) by (apply Hend; lia).
  assert (Hwords : forall j x, v !! j = Some x ->
    exists k w, (d <= k)%nat /\ begun !! k = Some w /\ w !! j = Some x).
  { intros j x Hx. destruct (Hw j x ltac:(apply not_elem_of_nil) Hx) as (k' & w & Hk & Hv & Hvx).
    exists k', w. split; [lia|done]. }
  split; [|split; [lia|split; [done|]]].
  - rewrite Hs1, wrap_small; [lia|]. unfold begun in Hlt. rewrite length_app in Hlt. unfold fits. lia.
  - intros Hlen. destruct (lookup_lt_is_Some_2 begun d ltac:(lia)) as [w Hv].
    rewrite Hv. f_equal. apply list_eq_same_length with n; [done|..].
    + apply (mo_values _ _ _ Hm). by eapply list_elem_of_lookup_2.
    + intros j x y Hj Hx Hy. destruct (Hwords j y Hy) as (k' & w' & Hk & Hv' & Hy').
      assert (k' = d) as -> by (apply lookup_lt_Some in Hv'; lia). congruence.
Qed.

(** ** Successive reads of one reader *)

Definition value_of (e : event) : option (list Z) :=
  match e with ReadSome v => Some v | _ => None end.

(** The values that reader [i] returns, in order. *)
Fixpoint returned (n i : nat) (sched : list action) (c : config) : list (list Z) :=
  match sched with
  | [] => []
  | a :: sched =>
      match exec n a c with
      | Some (c', e) =>
          match a with
          | RunRead i' _ _ => if decide (i' = i) then omap value_of e else []
          | _ => []
          end ++ returned n i sched c'
      | None => []
      end
  end.

(** Word [j] of a value. *)
Definition word (j : nat) (v : list Z) : Z := default 0 (v !! j).

Lemma sorted_lookup {A} (R : A -> A -> Prop) l p q x y :
  StronglySorted R l -> l !! p = Some x -> l !! q = Some y -> (p < q)%nat -> R x y.
Proof.
  intros Hs. revert p q. induction Hs as [|z l Hs IH Hz]; intros p q Hp Hq Hlt; [done|].
  destruct q as [|q]; [lia|]. rewrite Forall_lookup in Hz. destruct p as [|p]; cbn in Hp, Hq.
  - simplify_eq. by apply (Hz q).
  - apply (IH p q); [done..|lia].
Qed.

Section order.
Context (n j : nat) (Hj : (j < n)%nat).

(** [v] has the word [j] of write [k]. *)
Definition word_of (begun : list (list Z)) (v : list Z) (k : nat) : Prop :=
  exists w x, begun !! k = Some w /\ w !! j = Some x /\ v !! j = Some x.

(** What a reader does next has the word of write [m] or of a later one; what
    it has copied has a word that it has seen. *)
Definition floor_ok (vs : list (list Z)) (m : nat) (r : view loc * read_pc) : Prop :=
  (m <= r.1 (Word j))%nat /\
  match r.2 with
  | ReadCopy s1 buf todo =>
      j ∉ todo -> exists k, (m <= S k)%nat /\ (S k <= r.1 (Word j))%nat /\ word_of vs buf k
  | _ => True
  end.

Lemma word_of_more vs vs' v k : word_of vs v k -> word_of (vs ++ vs') v k.
Proof using Type. intros (w & x & Hw & Hx). exists w, x. split; [by apply lookup_app_l_Some|done]. Qed.

Lemma floor_more vs vs' m r : floor_ok vs m r -> floor_ok (vs ++ vs') m r.
Proof using Type.
  intros [Hm Hr]. split; [done|]. destruct r.2; try done. intros Hj'. destruct (Hr Hj') as (k & H1 & H2 & H3).
  exists k. split_and!; [done..|by apply word_of_more].
Qed.

Lemma floor_step ts k M V vs m p V' p' e :
  memory_ok n M vs -> reader_ok n M vs (V, p) -> floor_ok vs m (V, p) ->
  step_read n ts k M V p = Some (V', p', e) ->
  omap value_of e = [] /\ floor_ok vs m (V', p') \/
  exists v q, omap value_of e = [v] /\ (m <= S q)%nat /\ word_of vs v q /\ floor_ok vs (S q) (V', p').
Proof using Hj.
  intros Hmem [Hc Hp] [Hm Hf] He. cbn [fst snd] in *.
  destruct p as [b| |s1 buf todo]; cbn [step_read] in He; [done| |destruct todo as [|j0 todo]].
  - destruct (load _ _ _ _ _) as [[s V1]|] eqn:El; [|done]. apply load_loaded in El.
    pose proof (ld_grows _ _ _ _ _ _ _ El (Word j)) as Hg. left.
    repeat case_match; simplify_eq; (split; [done|]); (split; cbn [fst snd]; [lia|]); try done.
    intros Hn. exfalso. apply Hn. apply elem_of_seq. lia.
  - destruct (load _ _ _ _ _) as [[s V1]|] eqn:El; [|done]. apply load_loaded in El.
    pose proof (ld_grows _ _ _ _ _ _ _ El (Word j)) as Hg.
    destruct (s1 =? s); simplify_eq; [right|left; split; [done|split; cbn; [lia|done]]].
    destruct (Hf ltac:(apply not_elem_of_nil)) as (q & H1 & H2 & H3). exists buf, q.
    split_and!; [done..|]. split; cbn; [lia|done].
  - remember (j0 :: todo) as td. destruct Hp as (_ & d & _ & Hs & Hl & _).
    destruct (td !! k) as [i|] eqn:Hk; [|done].
    destruct (load _ _ _ _ _) as [[x V1]|] eqn:El; [|done]. simplify_eq. apply load_loaded in El.
    pose proof (ld_grows _ _ _ _ _ _ _ El (Word j)) as Hg. left. split; [done|]. split; cbn [fst snd]; [lia|].
    intros Hn. destruct (decide (j = i)) as [<-|Hne].
    + destruct El as [Hts (msg & Hmsg & <- & _) _ Hat]. destruct Hs as (H1 & _ & H3).
      specialize (H3 j Hj). destruct ts as [|ts]; [lia|].
      destruct (mo_word _ _ _ Hmem _ _ _ Hj Hmsg) as (w & Hw & Hwx). exists ts.
      split; [lia|]. split; [done|]. exists w, (val msg). split_and!; [done..|].
      rewrite list_lookup_insert_eq; [done|lia].
    + destruct Hf as (q & H1 & H2 & w & x' & H3 & H4 & H5); [by eapply not_in_delete|].
      exists q. split; [done|]. split; [lia|]. exists w, x'. split_and!; [done..|].
      by rewrite list_lookup_insert_ne.
Qed.

(** An action, as far as reader [i] and its floor are concerned. *)
Lemma exec_floor i a c vs m r c' e :
  inv n c (vs ++ writing (writer c)) -> readers c !! i = Some r -> floor_ok (vs ++ writing (writer c)) m r ->
  exec n a c = Some (c', e) ->
  let vs' := (vs ++ written e) ++ writing (writer c') in
  let out := match a with RunRead i' _ _ => if decide (i' = i) then omap value_of e else [] | _ => [] end in
  exists r', readers c' !! i = Some r' /\
    (out = [] /\ floor_ok vs' m r' \/
     exists v q, out = [v] /\ (m <= S q)%nat /\ word_of vs' v q /\ floor_ok vs' (S q) r').
Proof using Hj.
  intros Hinv Hi Hf He vs' out. destruct (begun_grows n _ _ _ _ He) as [l Hl].
  assert (Hvs : vs' = (vs ++ writing (writer c)) ++ l) by (unfold vs'; by rewrite <- app_assoc, Hl, app_assoc).
  rewrite Hvs. destruct a as [v|ts k|i0|i0 ts k]; cbn in He.
  - destruct (writer c); try done. case_decide; [|done]. simplify_eq. exists r. split; [done|]. left.
    split; [done|by apply floor_more].
  - destruct (step_write _ _ _ _ _ _) as [[[[M V] p] e']|] eqn:Es; [|done]. simplify_eq. exists r.
    split; [done|]. left. split; [done|by apply floor_more].
  - destruct (readers c !! i0) as [[V [b| |]]|] eqn:Hi0; try done. simplify_eq. cbn.
    destruct (decide (i0 = i)) as [->|Hne].
    + exists (V, ReadLoad). rewrite list_lookup_insert_eq by (by eapply lookup_lt_Some). split; [done|]. left.
      split; [done|]. apply floor_more. rewrite Hi in Hi0. simplify_eq. split; [apply Hf|done].
    + exists r. rewrite list_lookup_insert_ne by done. split; [done|]. left. split; [done|by apply floor_more].
  - destruct (readers c !! i0) as [[V p]|] eqn:Hi0; [|done].
    destruct (step_read _ _ _ _ _ _) as [[[V' p'] e']|] eqn:Es; [|done]. simplify_eq. unfold out. cbn.
    destruct (decide (i0 = i)) as [->|Hne].
    + rewrite Hi in Hi0. simplify_eq. exists (V', p'). rewrite list_lookup_insert_eq by (by eapply lookup_lt_Some).
      split; [done|]. destruct Hinv as [Hm _ Hr]. rewrite Forall_lookup in Hr.
      destruct (floor_step _ _ _ _ _ _ _ _ _ _ Hm (Hr i _ Hi) Hf Es) as [[-> Hf']|(v & q & -> & Hq & Hw & Hf')].
      * left. split; [done|by apply floor_more].
      * right. exists v, q. split_and!; [done..|by apply word_of_more|by apply floor_more].
    + exists r. rewrite list_lookup_insert_ne by done. split; [done|]. left. split; [done|by apply floor_more].
Qed.

(** The writes whose words a reader returns come in their order. *)
Lemma returned_ordered i sched c vs m r c' evs :
  inv n c (vs ++ writing (writer c)) -> readers c !! i = Some r -> floor_ok (vs ++ writing (writer c)) m r ->
  run n sched c = Some (c', evs) ->
  exists ks, Forall (fun k => m <= S k)%nat ks /\ StronglySorted le ks /\
    Forall2 (word_of ((vs ++ written evs) ++ writing (writer c'))) (returned n i sched c) ks.
Proof using Hj.
  revert c vs m r evs. induction sched as [|a sched IH]; intros c vs m r evs Hinv Hi Hf Hr; cbn in Hr |- *.
  - simplify_eq. exists []. repeat constructor.
  - destruct (exec n a c) as [[c1 e1]|] eqn:He; [|done].
    destruct (run n sched c1) as [[c2 e2]|] eqn:Hr2; [|done]. simplify_eq.
    destruct (exec_floor i a c vs m r c1 e1 Hinv Hi Hf He) as (r' & Hi' & Hout). cbn zeta in Hout.
    apply (seqlock_exec_inv _ _ _ _ _ _ Hinv) in He.
    set (out := match a with RunRead i' _ _ => _ | _ => _ end) in *.
    assert (Hw : vs ++ written (e1 ++ e2) = (vs ++ written e1) ++ written e2).
    { unfold written. by rewrite omap_app, app_assoc. }
    rewrite Hw. destruct Hout as [[-> Hf']|(v & q & -> & Hq & Hwd & Hf')]; cbn [app].
    + by apply (IH _ _ _ _ _ He Hi' Hf' Hr2).
    + destruct (IH _ _ _ _ _ He Hi' Hf' Hr2) as (ks & H1 & H2 & H3). exists (q :: ks).
      split; [|split].
      * constructor; [done|]. eapply Forall_impl; [exact H1|]. cbn. lia.
      * constructor; [done|]. eapply Forall_impl; [exact H1|]. cbn. lia.
      * constructor; [|done]. destruct (run_begun n _ _ _ _ Hr2) as [l Hl].
        rewrite <- app_assoc, Hl, app_assoc. by apply word_of_more.
Qed.

Lemma word_of_word begun v k w : word_of begun v k -> begun !! k = Some w -> word j v = word j w.
Proof using Type. intros (w' & x & Hw & Hx & Hv) Hk. simplify_eq. unfold word. by rewrite Hv, Hx. Qed.

Lemma words_sorted begun vals ks :
  Forall2 (word_of begun) vals ks -> StronglySorted le ks ->
  StronglySorted Z.le (word j <$> begun) -> StronglySorted Z.le (word j <$> vals).
Proof using Type.
  intros Hf Hk Hb. induction Hf as [|v k vals ks Hv Hf IH]; [constructor|].
  apply StronglySorted_inv in Hk as [Hk Hle]; clear Hj. rewrite fmap_cons. constructor; [by apply IH|].
  apply Forall_forall. intros x (v' & -> & Hv')%list_elem_of_fmap.
  apply list_elem_of_lookup in Hv' as [p Hp]. destruct (Forall2_lookup_l _ _ _ _ _ Hf Hp) as (k' & Hk' & Hw').
  pose proof Hv as (w & _ & Hw & _). pose proof Hw' as (w' & _ & Hww & _).
  rewrite (word_of_word _ _ _ _ Hv Hw), (word_of_word _ _ _ _ Hw' Hww).
  rewrite Forall_lookup in Hle. specialize (Hle p k' Hk'). destruct (decide (k = k')) as [->|Hne]; [simplify_eq; lia|].
  apply (sorted_lookup Z.le (word j <$> begun) k k'); [done|..|lia]; by rewrite list_lookup_fmap, ?Hw, ?Hww.
Qed.
End order.

(** C23: with the orderings of the source, the reads of one reader never go
    back: for every word there are writes, in the order of the writes, from
    which the values that the reader returns one after another have that word.
    So where the words written never decrease (the counter of the test
    [blackboard_concurrent_reads]) the words read never decrease. *)
Theorem seqlock_weak_monotone n nr sched c evs i j :
  run n sched (init nr) = Some (c, evs) -> (i < nr)%nat -> (j < n)%nat ->
  let begun := written evs ++ writing (writer c) in
  let vals := returned n i sched (init nr) in
  (exists ks, StronglySorted le ks /\ Forall2 (word_of j begun) vals ks) /\
  (StronglySorted Z.le (word j <$> begun) -> StronglySorted Z.le (word j <$> vals)).
Proof.
  intros Hr Hi Hj begun vals.
  destruct (returned_ordered n j Hj i sched (init nr) [] 0 (bottom, ReadIdle None) c evs) as (ks & _ & Hs & Hf).
  - apply seqlock_init_inv.
  - cbn. by apply lookup_replicate_2.
  - split; cbn; [lia|done].
  - done.
  - split; [by exists ks|]. by apply (words_sorted j begun vals ks).
Qed.

(** ** Runs in which every load returns the latest value

    Such a run is a run of the machine [Seqlock] of Blackboard.v, which has one
    sequentially consistent memory. *)

(** The load that an action makes: a location and the place it reads. *)
Definition load_of (a : action) (c : config) : option (loc * nat) :=
  match a with
  | RunWrite ts _ => match writer c with WriteLoad _ => Some (Seq, ts) | _ => None end
  | RunRead i ts k =>
      match readers c !! i with
      | Some (_, ReadLoad) | Some (_, ReadCopy _ _ []) => Some (Seq, ts)
      | Some (_, ReadCopy _ _ todo) => match todo !! k with Some j => Some (Word j, ts) | None => None end
      | _ => None
      end
  | _ => None
  end.

Definition loads_latest (a : action) (c : config) : bool :=
  match load_of a c with
  | Some (l, ts) => (S ts =? length (mem c l))%nat
  | None => true
  end.

Fixpoint all_latest (n : nat) (sched : list action) (c : config) : bool :=
  match sched with
  | [] => true
  | a :: sched =>
      loads_latest a c && match exec n a c with Some (c', _) => all_latest n sched c' | None => true end
  end.

Section sequential.
Context (n : nat).

Definition slot_of (M : memory loc) : Slot :=
  mk_slot (latest M Seq) ((fun j => latest M (Word j)) <$> List.seq 0 n).

Definition erase (c : config) : Seqlock.config :=
  Seqlock.mkC (slot_of (mem c)) [writer c] (snd <$> readers c).

Definition erase_action (a : action) : Seqlock.action :=
  match a with
  | CallWrite v => Seqlock.CallWrite 0 v
  | RunWrite ts k => Seqlock.RunWrite 0 k
  | CallRead i => Seqlock.CallRead i
  | RunRead i ts k => Seqlock.RunRead i k
  end.

Lemma slot_words M : length (words (slot_of M)) = n.
Proof using Type. cbn. by rewrite length_fmap, length_seq. Qed.

Lemma slot_word M j : (j < n)%nat -> words (slot_of M) !! j = Some (latest M (Word j)).
Proof using Type.
  intros Hj. cbn. rewrite list_lookup_fmap.
  assert (List.seq 0 n !! j = Some j) as -> by (by apply lookup_seq). done.
Qed.

Lemma load_newest o (l : loc) ts M V v V' :
  load o l ts M V = Some (v, V') -> S ts = length (M l) -> v = latest M l.
Proof using Type.
  intros Hl Hts. apply load_loaded in Hl. destruct Hl as [_ (m & Hm & <- & _) _ _].
  unfold latest. rewrite last_lookup, <- Hts. cbn. by rewrite Hm.
Qed.

Lemma slot_store_seq o x M V : slot_of (store o Seq x M V).1 = set_sequence (slot_of M) x.
Proof using Type.
  destruct (store_latest _ _ _ _ _ _ _ (store_stored o Seq x M V)) as [H1 _]. unfold slot_of, set_sequence. cbn [words].
  rewrite H1. done.
Qed.

Lemma slot_store_word o j x M V : slot_of (store o (Word j) x M V).1 = set_word (slot_of M) j x.
Proof using Type.
  destruct (store_latest _ _ _ _ _ _ _ (store_stored o (Word j) x M V)) as [H1 H2].
  unfold set_word. unfold slot_of at 1. rewrite H2 by done. f_equal. apply list_eq. intros p.
  destruct (decide (p < n)%nat) as [Hp|Hp].
  2:{ rewrite !lookup_ge_None_2; [done|..]; rewrite ?length_insert, ?slot_words, ?length_fmap, ?length_seq; lia. }
  pose proof (slot_word (store o (Word j) x M V).1 p Hp) as E. cbn [words slot_of] in E. rewrite E.
  destruct (decide (p = j)) as [->|Hne].
  - rewrite list_lookup_insert_eq by (by rewrite slot_words). by rewrite H1.
  - rewrite list_lookup_insert_ne by done. rewrite slot_word by done. rewrite H2; [done|congruence].
Qed.

Lemma erase_write ts k c M V p e :
  loads_latest (RunWrite ts k) c = true ->
  step_write n ts k (mem c) (w_view c) (writer c) = Some (M, V, p, e) ->
  Seqlock.step_write (slot_of (mem c)) k (writer c) = Some (slot_of M, p, e).
Proof using Type.
  unfold loads_latest. cbn [load_of]. intros Hl He.
  destruct (writer c) as [|v|v s|v s todo]; cbn [step_write Seqlock.step_write] in *; [done|..].
  - destruct (load _ _ _ _ _) as [[s V1]|] eqn:El; [|done]. simplify_eq. apply Nat.eqb_eq in Hl.
    by rewrite (load_newest _ _ _ _ _ _ _ El Hl).
  - pose proof (slot_store_seq Release (wrapping_add 64 s 1) (mem c) (w_view c)) as Hs.
    destruct (store _ _ _ _ _) as [M1 V1]. simplify_eq. cbn [fst] in Hs. by rewrite Hs, slot_words.
  - destruct todo as [|j0 todo].
    + pose proof (slot_store_seq Release (wrapping_add 64 s 2) (mem c) (w_view c)) as Hs.
      destruct (store _ _ _ _ _) as [M1 V1]. simplify_eq. cbn [fst] in Hs. by rewrite Hs.
    + destruct ((j0 :: todo) !! k) as [j|]; [|done]. destruct (v !! j) as [x|]; [|done].
      pose proof (slot_store_word Relaxed j x (mem c) (w_view c)) as Hs.
      destruct (store _ _ _ _ _) as [M1 V1]. simplify_eq. cbn [fst] in Hs. by rewrite Hs.
Qed.

Lemma erase_read i ts k c V p V' p' e vs :
  loads_latest (RunRead i ts k) c = true -> readers c !! i = Some (V, p) -> reader_ok n (mem c) vs (V, p) ->
  step_read n ts k (mem c) V p = Some (V', p', e) ->
  Seqlock.step_read (slot_of (mem c)) k p = Some (p', e).
Proof using Type.
  unfold loads_latest. cbn [load_of]. intros Hl Hi [_ Hr] He. rewrite Hi in Hl. cbn [snd] in Hr.
  destruct p as [b| |s1 buf [|j0 todo]]; cbn [step_read Seqlock.step_read] in *; [done|..].
  - destruct (load _ _ _ _ _) as [[s V1]|] eqn:El; [|done]. apply Nat.eqb_eq in Hl.
    apply load_newest in El; [|done]. subst s. rewrite slot_words. cbn [sequence slot_of].
    by repeat case_match; simplify_eq.
  - destruct (load _ _ _ _ _) as [[s V1]|] eqn:El; [|done]. apply Nat.eqb_eq in Hl.
    apply load_newest in El; [|done]. subst s. cbn [sequence slot_of]. by case_match; simplify_eq.
  - destruct Hr as [Hb _]. destruct ((j0 :: todo) !! k) as [j|] eqn:Hk; [|done].
    assert (Hj : (j < n)%nat) by (apply Hb; by eapply list_elem_of_lookup_2).
    destruct (load _ _ _ _ _) as [[x V1]|] eqn:El; [|done]. apply Nat.eqb_eq in Hl.
    apply load_newest in El; [|done]. subst x. rewrite slot_word by done. by simplify_eq.
Qed.

Lemma erase_exec a c vs c' e :
  inv n c vs -> loads_latest a c = true -> exec n a c = Some (c', e) ->
  Seqlock.exec (erase_action a) (erase c) = Some (erase c', e).
Proof using Type.
  intros [_ _ Hr] Hl He. destruct a as [v|ts k|i|i ts k]; cbn in He |- *.
  - destruct (writer c) eqn:Ew; try done. case_decide as Hv; [|done]. simplify_eq.
    rewrite length_fmap, length_seq. by rewrite decide_True.
  - destruct (step_write _ _ _ _ _ _) as [[[[M V] p] e']|] eqn:Es; [|done]. simplify_eq.
    by rewrite (erase_write _ _ _ _ _ _ _ Hl Es).
  - rewrite list_lookup_fmap. destruct (readers c !! i) as [[V [b| |]]|]; try done. simplify_eq. cbn.
    unfold erase. cbn. by rewrite list_fmap_insert.
  - rewrite list_lookup_fmap. destruct (readers c !! i) as [[V p]|] eqn:Hi; [|done].
    destruct (step_read _ _ _ _ _ _) as [[[V' p'] e']|] eqn:Es; [|done]. simplify_eq. cbn.
    rewrite Forall_lookup in Hr. change (mk_slot _ _) with (slot_of (mem c)).
    rewrite (erase_read _ _ _ _ _ _ _ _ _ _ Hl Hi (Hr i _ Hi) Es). unfold erase. cbn. by rewrite list_fmap_insert.
Qed.

Lemma erase_run sched c vs c' evs :
  inv n c (vs ++ writing (writer c)) -> all_latest n sched c = true -> run n sched c = Some (c', evs) ->
  Seqlock.run (erase_action <$> sched) (erase c) = Some (erase c', evs).
Proof using Type.
  revert c vs evs. induction sched as [|a sched IH]; intros c vs evs Hi Hl Hr; cbn in Hl, Hr |- *; [by simplify_eq|].
  apply andb_prop in Hl as [Hl Hls].
  destruct (exec n a c) as [[c1 e1]|] eqn:He; [|done].
  destruct (run n sched c1) as [[c2 e2]|] eqn:Hr2; [|done]. simplify_eq.
  rewrite (erase_exec _ _ _ _ _ Hi Hl He). apply (seqlock_exec_inv n a c vs) in He; [|done].
  by rewrite (IH _ _ _ He Hls Hr2).
Qed.

Lemma erase_init nr : erase (init nr) = Seqlock.init n 1 nr.
Proof using Type.
  unfold erase, Seqlock.init, new_slot, slot_of. cbn. f_equal; [|by rewrite fmap_replicate].
  f_equal. apply list_eq_same_length with n; [by rewrite length_replicate|by rewrite length_fmap, length_seq|].
  intros p x y _ (j & -> & _)%list_lookup_fmap_Some [-> _]%lookup_replicate. done.
Qed.
End sequential.

(** C24: sequentially consistent executions of the blackboard: in every run with
    the orderings of the source in which each load returns the latest value
    stored, and in which fewer than 2^63 writes end, one writer and any number of
    readers make an atomic register: a read takes effect at its last load and
    returns, whole, the value of the write that ended last before it, or [None]
    when none has ended.  (Nothing in those orderings forces loads to return
    the latest value; what holds without that is [seqlock_weak_words] and
    [seqlock_weak_monotone].) *)
Theorem seqlock_sequential_register n nr sched c evs :
  run n sched (init nr) = Some (c, evs) -> all_latest n sched (init nr) = true ->
  Z.of_nat (length (written evs)) < 2 ^ 63 ->
  exists latest, spec_run None evs = Some latest.
Proof.
  intros Hr Hl Hlt. apply (erase_run n _ _ []) in Hr; [|apply (seqlock_init_inv n nr)|done].
  rewrite erase_init in Hr. by apply (sc_register n nr _ _ _ Hr).
Qed.

(** ** A torn read *)

(** The writer writes [1, 1], then [2, 2].  The reader sees the number of the
    first write, the first word of the second write, the second word of the
    first, and the number of the first write again. *)
Definition write_all (v : list Z) (ts : nat) : list action :=
  [CallWrite v; RunWrite ts 0; RunWrite 0 0; RunWrite 0 0; RunWrite 0 0; RunWrite 0 0].
Definition tear : list action :=
  write_all [1; 1] 0 ++ write_all [2; 2] 2 ++ [CallRead 0; RunRead 0 2 0; RunRead 0 2 0; RunRead 0 1 0; RunRead 0 2 0].

(** One writer and one reader are enough for a torn value: after [1, 1] and
    [2, 2] have been written, a read may return [2, 1]. *)
Theorem seqlock_weak_tears :
  exists sched c, run 2 sched (init 1) = Some (c, [Wrote [1; 1]; Wrote [2; 2]; ReadSome [2; 1]]).
Proof.
  exists tear. destruct (run 2 tear (init 1)) as [[c evs]|] eqn:E; [|vm_compute in E; discriminate].
  exists c. vm_compute in E. by injection E as _ <-.
Qed.

(** The run up to the last load of the read, and the state there. *)
Definition before_return : list action := take (length tear - 1) tear.
Definition end_of {A} (c0 : config) (r : option (config * A)) : config :=
  match r with Some (c, _) => c | None => c0 end.
Definition returning : config := end_of (init 1) (run 2 before_return (init 1)).
Definition its_view (c : config) : view loc :=
  match readers c !! 0%nat with Some (V, _) => V | None => bottom end.

Lemma seqlock_weak_words_witness :
  exists d, 2 = 2 * Z.of_nat (S d) /\
    forall j x, [2; 1] !! j = Some x ->
      exists k w, (d <= k)%nat /\ [[1; 1]; [2; 2]] !! k = Some w /\ w !! j = Some x.
Proof.
  destruct (seqlock_weak_words 2 1 before_return returning [Wrote [1; 1]; Wrote [2; 2]] 0 (its_view returning)
    2 [2; 1] [] 2 0 (end_of (init 1) (exec 2 (RunRead 0 2 0) returning)) [2; 1])
    as (_ & d & Hd & _ & Hw & _); [reflexivity|reflexivity|reflexivity|reflexivity|].
  exists d. split; [exact Hd|exact Hw].
Defined.

(** A read that starts over because a write ends under way, loads all latest. *)
Definition in_order : list action :=
  [CallWrite [1; 1]; RunWrite 0 0; RunWrite 0 0; RunWrite 0 0; RunWrite 0 0; RunWrite 0 0;
   CallRead 0; RunRead 0 2 0; RunRead 0 1 1; CallWrite [2; 2]; RunWrite 2 0; RunWrite 0 0; RunWrite 0 1;
   RunWrite 0 0; RunRead 0 2 0; RunWrite 0 0; RunRead 0 4 0; RunRead 0 4 0; RunRead 0 2 0; RunRead 0 2 0;
   RunRead 0 4 0].

Lemma seqlock_sequential_register_witness :
  exists latest, spec_run None [Wrote [1; 1]; Wrote [2; 2]; ReadSome [2; 2]] = Some latest.
Proof.
  apply (seqlock_sequential_register 2 1 in_order (end_of (init 1) (run 2 in_order (init 1))));
    [reflexivity|reflexivity|reflexivity].
Defined.

(** A counter that two writes raise, and three reads: the second one may still
    see the first value, the third sees the second. *)
Definition counting : list action :=
  [CallWrite [5]; RunWrite 0 0; RunWrite 0 0; RunWrite 0 0; RunWrite 0 0;
   CallRead 0; RunRead 0 2 0; RunRead 0 1 0; RunRead 0 2 0;
   CallWrite [7]; RunWrite 2 0; RunWrite 0 0; RunWrite 0 0; RunWrite 0 0;
   CallRead 0; RunRead 0 2 0; RunRead 0 1 0; RunRead 0 2 0;
   CallRead 0; RunRead 0 4 0; RunRead 0 2 0; RunRead 0 4 0].

Lemma seqlock_weak_monotone_witness :
  word 0 <$> returned 1 0 counting (init 1) = [5; 5; 7] /\
  StronglySorted Z.le (word 0 <$> returned 1 0 counting (init 1)).
Proof.
  split; [vm_compute; reflexivity|].
  apply (seqlock_weak_monotone 1 1 counting (end_of (init 1) (run 1 counting (init 1)))
    [Wrote [5]; ReadSome [5]; Wrote [7]; ReadSome [5]; ReadSome [7]] 0 0); [reflexivity|lia|lia|].
  change (StronglySorted Z.le [5; 7]). repeat constructor; lia.
Defined.
End SeqlockWeak.
