(* ===== verification/Hex.v ===== *)
(** * Hexadecimal numbers
    (std's [u128::from_str_radix] and [{:032x}], as
    crates/entangle-platform/src/process_monitor.rs uses them)

    [to_hex] of Shm.v prints; [from_str_radix_16] parses.  Printing a [u128]
    on 32 digits and parsing it gives it back. *)
From Stdlib Require Import Ascii.
From S2P Require Import Prelude Paths Contracts Shm.
#[local] Open Scope Z_scope.

(** The value of a digit of either case. *)
Definition hex_value (c : ascii) : option Z :=
  let b := Z.of_nat (nat_of_ascii c) in
  if (48 <=? b) && (b <=? 57) then Some (b - 48)
  else if (97 <=? b) && (b <=? 102) then Some (b - 87)
  else if (65 <=? b) && (b <=? 70) then Some (b - 55)
  else None.

(** The digits of a number that must stay below [2^w]. *)
Fixpoint hex_digits (w acc : Z) (s : string) : option Z :=
  match s with
  | EmptyString => Some acc
  | String c s =>
      match hex_value c with
      | None => None
      | Some d =>
          let acc := acc * 16 + d in
          if acc <? 2 ^ w then hex_digits w acc s else None
      end
  end.

(** [uN::from_str_radix(s, 16)]: an optional plus sign, then at least one digit. *)
Definition from_str_radix_16 (w : Z) (s : string) : option Z :=
  match s with
  | EmptyString => None
  | String "+"%char EmptyString => None
  | String "+"%char s => hex_digits w 0 s
  | s => hex_digits w 0 s
  end.

Lemma hex_value_digit d : 0 <= d < 16 -> hex_value (hex_digit d) = Some d.
Proof.
  intros Hd. assert (Hall : forallb (fun d => bool_decide (hex_value (hex_digit d) = Some d))
    (seqZ 0 16) = true) by (vm_compute; reflexivity).
  rewrite forallb_forall in Hall. specialize (Hall d).
  rewrite bool_decide_eq_true in Hall. apply Hall.
  apply list_elem_of_In, elem_of_seqZ. lia.
Qed.

Lemma hex_digits_app w acc s t :
  hex_digits w acc (s ++ t) =
  match hex_digits w acc s with Some a => hex_digits w a t | None => None end.
Proof.
  revert acc. induction s as [|c s IH]; intros acc; [done|].
  change (String c s ++ t)%string with (String c (s ++ t)). cbn. destruct (hex_value c) as [d|]; [|done]. destruct (_ <? _); [apply IH|done].
Qed.

Lemma hex_digits_to_hex w n x :
  0 <= x < 2 ^ w -> x < 16 ^ Z.of_nat n -> hex_digits w 0 (to_hex n x) = Some x.
Proof.
  revert x. induction n as [|n IH]; intros x Hx Hn.
  - cbn in *. f_equal. lia.
  - cbn [to_hex]. rewrite Nat2Z.inj_succ, Z.pow_succ_r in Hn by lia.
    assert (Hd : x / 16 < 16 ^ Z.of_nat n) by (apply Z.div_lt_upper_bound; lia).
    pose proof (Z.div_mod x 16 ltac:(lia)). pose proof (Z.mod_pos_bound x 16 ltac:(lia)).
    assert (0 <= x / 16) by (apply Z.div_pos; lia).
    rewrite hex_digits_app, IH by lia. cbn. rewrite hex_value_digit by lia.
    rewrite (proj2 (Z.ltb_lt _ _)) by lia. f_equal. lia.
Qed.

Lemma string_length_app s t :
  String.length (s ++ t) = (String.length s + String.length t)%nat.
Proof.
  induction s as [|c s IH]; [done|].
  change (String c s ++ t)%string with (String c (s ++ t)). cbn. by rewrite IH.
Qed.

Lemma length_to_hex n x : String.length (to_hex n x) = n.
Proof.
  revert x. induction n as [|n IH]; intros x; cbn; [done|].
  rewrite string_length_app, IH. cbn. lia.
Qed.

(** A printed number is the name of a directory entry. *)
Lemma no_slash_to_hex n x : no_slash (to_hex n x) = true.
Proof.
  revert x. induction n as [|n IH]; intros x; cbn [to_hex]; [done|].
  rewrite no_slash_append, IH. cbn. assert (Hd : 0 <= x mod 16 < 16) by (apply Z.mod_pos_bound; lia).
  destruct (Ascii.eqb_spec (hex_digit (x mod 16)) "/") as [E|]; [|done].
  apply hex_value_digit in Hd. by rewrite E in Hd.
Qed.

Lemma is_name_node x : is_name (to_hex 32 x) = true.
Proof. apply is_name_long; [rewrite length_to_hex; lia|apply no_slash_to_hex]. Qed.

(** No printed number starts with a sign. *)
Lemma from_str_radix_to_hex w n x :
  0 <= x < 2 ^ w -> x < 16 ^ Z.of_nat n -> (0 < n)%nat ->
  from_str_radix_16 w (to_hex n x) = Some x.
Proof.
  intros Hx Hn Hpos. pose proof (hex_digits_to_hex w n x Hx Hn) as Hd.
  pose proof (length_to_hex n x) as Hlen.
  destruct (to_hex n x) as [|c s]; [cbn in Hlen; lia|].
  unfold from_str_radix_16. destruct (ascii_dec c "+") as [->|Hne]; [done|].
  destruct c as [[] [] [] [] [] [] [] []]; first [exact Hd|done].
Qed.

Lemma from_str_radix_node x : fits 128 x -> from_str_radix_16 128 (to_hex 32 x) = Some x.
Proof.
  intros Hx. apply from_str_radix_to_hex; [exact Hx| |lia].
  change (Z.of_nat 32) with 32. change (16 ^ 32) with (2 ^ 128). apply Hx.
Qed.

Lemma to_hex_inj x y : fits 128 x -> fits 128 y -> to_hex 32 x = to_hex 32 y -> x = y.
Proof.
  intros Hx Hy He. apply (f_equal (from_str_radix_16 128)) in He.
  rewrite !from_str_radix_node in He by done. congruence.
Qed.

(** What is parsed fits the type. *)
Lemma hex_digits_fits w acc s x : 0 < 2 ^ w -> fits w acc -> hex_digits w acc s = Some x -> fits w x.
Proof.
  intros Hw. revert acc. induction s as [|c s IH]; intros acc Hacc; cbn; [by intros [= <-]|].
  destruct (hex_value c) as [d|] eqn:Ed; [|done].
  destruct (_ <? _) eqn:El; [|done]. zbool. apply IH. split; [|done].
  assert (0 <= d); [|unfold fits in *; lia].
  unfold hex_value in Ed. repeat case_match; zbool; simplify_eq; lia.
Qed.

Lemma from_str_radix_fits w s x : 0 < 2 ^ w -> from_str_radix_16 w s = Some x -> fits w x.
Proof.
  intros Hw. assert (H0 : fits w 0) by (unfold fits; lia).
  unfold from_str_radix_16. destruct s as [|c s]; [done|].
  destruct c as [[] [] [] [] [] [] [] []]; try (by apply hex_digits_fits).
  destruct s; [done|]. by apply hex_digits_fits.
Qed.
