(* ===== verification/FileLock.v ===== *)
(** * FileLock (crates/entangle-platform/src/file_lock.rs)

    Advisory locks by [flock(2)].  The files of the system, the descriptors
    that refer to them and the holders of their locks are the state of the
    class [LockOs]; its laws are those of open(2), flock(2), close(2) and
    unlink(2): a lock belongs to a descriptor, and ends when it is closed. *)
From S2P Require Import Prelude Paths Contracts Shm.
#[local] Open Scope Z_scope.
#[local] Open Scope rust_scope.

Class LockOs := {
  Lk : Type;
  LFd : Type;
  LFd_eq_dec :: EqDecision LFd;
  mkdir_all : Lk -> string -> result unit string * Lk;
  open_rw_create : Lk -> string -> result LFd string * Lk;
  open_read : Lk -> string -> result LFd string * Lk;
  flock_ex_nb : Lk -> LFd -> result unit string * Lk;
  flock_un : Lk -> LFd -> result unit string * Lk;
  close_fd : Lk -> LFd -> Lk;
  unlink_file : Lk -> string -> result unit string * Lk;
  dir_exists : Lk -> string -> bool;
  (** The entries of a directory: an error, a name, or a name that is not UTF-8. *)
  list_dir : Lk -> string -> result (list (result (option string) string)) string;
}.

(** What a program can observe: the file (all but a directory) a path leads to,
    the file or directory an open descriptor refers to, and who holds its lock.  Paths are
    in one spelling: without links, [.], [..] or doubled separators. *)
Class LockView `{LockOs} := {
  paths : Lk -> gmap string Z;
  file_of : Lk -> LFd -> option Z;
  holder : Lk -> Z -> option LFd;
}.

Section frames.
Context `{LockView}.

Definition same_paths (s s' : Lk) : Prop := paths s' = paths s.
Definition same_files (s s' : Lk) : Prop := forall fd, file_of s' fd = file_of s fd.
Definition same_locks (s s' : Lk) : Prop := forall i, holder s' i = holder s i.

(** Opening adds one new descriptor. *)
Definition opened (s s' : Lk) (fd : LFd) (i : Z) : Prop :=
  file_of s fd = None /\ (forall j, holder s j <> Some fd) /\ file_of s' fd = Some i /\
  (forall fd', fd' <> fd -> file_of s' fd' = file_of s fd') /\ same_locks s s'.

(** What open(2) for reading finds at a path: the file, or a directory. *)
Definition leads_to_file (s : Lk) (p : string) (i : Z) : Prop :=
  paths s !! p = Some i \/ (paths s !! p = None /\ forall q, paths s !! q <> Some i).
End frames.

Class LockOsSpec `{LockView} := {
  mkdir_all_spec s p : let s' := snd (mkdir_all s p) in
    same_paths s s' /\ same_files s s' /\ same_locks s s';
  open_rw_create_spec s p :
    match open_rw_create s p with
    | (Ok fd, s') => exists i, opened s s' fd i /\ paths s' = <[p := i]> (paths s) /\
        (paths s !! p = Some i \/
         paths s !! p = None /\ holder s i = None /\ forall q, paths s !! q <> Some i)
    | (Err _, s') => s' = s
    end;
  open_read_spec s p :
    match open_read s p with
    | (Ok fd, s') => exists i, opened s s' fd i /\ same_paths s s' /\ leads_to_file s p i
    | (Err _, s') => s' = s
    end;
  flock_ex_nb_spec s fd i :
    file_of s fd = Some i ->
    match flock_ex_nb s fd with
    | (Ok _, s') =>
        (holder s i = None \/ holder s i = Some fd) /\ holder s' i = Some fd /\
        (forall j, j <> i -> holder s' j = holder s j) /\ same_paths s s' /\ same_files s s'
    | (Err _, s') => s' = s
    end;
  flock_un_spec s fd i :
    file_of s fd = Some i ->
    match flock_un s fd with
    | (Ok _, s') =>
        (holder s i = Some fd -> holder s' i = None) /\
        (holder s i <> Some fd -> holder s' i = holder s i) /\
        (forall j, j <> i -> holder s' j = holder s j) /\ same_paths s s' /\ same_files s s'
    | (Err _, s') => s' = s
    end;
  close_fd_spec s fd : let s' := close_fd s fd in
    file_of s' fd = None /\ (forall fd', fd' <> fd -> file_of s' fd' = file_of s fd') /\
    (forall i, holder s i = Some fd -> holder s' i = None) /\
    (forall i, holder s i <> Some fd -> holder s' i = holder s i) /\ same_paths s s';
  unlink_file_spec s p :
    match unlink_file s p with
    | (Ok _, s') => is_Some (paths s !! p) /\ paths s' = delete p (paths s) /\
        same_files s s' /\ same_locks s s'
    | (Err _, s') => s' = s
    end;
  (** The holder of a lock is a descriptor of the file. *)
  holder_file s i fd : holder s i = Some fd -> file_of s fd = Some i;
  (** A listing without an error has every file directly in the directory, and
      only names of direct entries (those of directories too). *)
  list_dir_spec s d l nm :
    list_dir s d = Ok l -> (forall e, Err e ∉ l) -> is_name nm = true ->
    is_Some (paths s !! join d nm) -> Ok (Some nm) ∈ l;
  list_dir_names s d l nm : list_dir s d = Ok l -> Ok (Some nm) ∈ l -> is_name nm = true;
}.

(** The calls that fail only for want of a resource (descriptors, lock table
    entries) or of a permission do not fail.  This is an assumption, not a law:
    the theorems that make it have it as a hypothesis. *)
Class LockOsReady `{LockView} := {
  open_read_ready s p : is_Some (paths s !! p) -> exists fd s', open_read s p = (Ok fd, s');
  flock_ready s fd i : file_of s fd = Some i -> holder s i = None ->
    exists s', flock_ex_nb s fd = (Ok tt, s');
  unlink_ready s p : is_Some (paths s !! p) -> exists s', unlink_file s p = (Ok tt, s');
  dir_ready s d nm : d <> EmptyString -> is_name nm = true -> is_Some (paths s !! join d nm) ->
    dir_exists s d = true;
}.

Module FileLock.

(** [pub struct FileLock { file, path, is_locked }]. *)
Record FileLock `{LockOs} := mk {
  file : LFd;
  path : string;
  locked : bool;
}.
Arguments mk {H} file path locked.
Arguments file {H} f.
Arguments path {H} f.
Arguments locked {H} f.

Section lock.
Context {L : LockOs}.

(** What [acquire] does before it asks for the lock. *)
Definition acquire_open (s : Lk) (path : string) : result LFd PlatformError * Lk :=
  let '(r, s) :=
    match parent path with
    | Some parent =>
        match mkdir_all s parent with
        | (Err e, s) =>
            (Err (FileLockError ("cannot create directory " ++ parent ++ ": " ++ e)%string), s)
        | (Ok _, s) => (Ok tt, s)
        end
    | None => (Ok tt, s)
    end in
  match r with
  | Err e => (Err e, s)
  | Ok _ =>
      match open_rw_create s path with
      | (Err e, s) => (Err (FileLockError ("cannot open " ++ path ++ ": " ++ e)%string), s)
      | (Ok fd, s) => (Ok fd, s)
      end
  end.

(** The rest: the file is closed when the lock is not to be had. *)
Definition acquire_lock (s : Lk) (path : string) (fd : LFd) : result FileLock PlatformError * Lk :=
  match flock_ex_nb s fd with
  | (Err e, s) =>
      (Err (FileLockError ("cannot lock " ++ path ++ ": " ++ e)%string), close_fd s fd)
  | (Ok _, s) => (Ok (mk fd path true), s)
  end.

Definition acquire (s : Lk) (path : string) : result FileLock PlatformError * Lk :=
  match acquire_open s path with
  | (Err e, s) => (Err e, s)
  | (Ok fd, s) => acquire_lock s path fd
  end.

(** [FileLock::is_locked]: a probe takes the lock when it can. *)
Definition is_locked (s : Lk) (path : string) : bool * Lk :=
  match open_read s path with
  | (Err _, s) => (false, s)
  | (Ok fd, s) =>
      match flock_ex_nb s fd with
      | (Err _, s) => (true, close_fd s fd)
      | (Ok _, s) => let '(_, s) := flock_un s fd in (false, close_fd s fd)
      end
  end.

Definition unlock (s : Lk) (l : FileLock) : result unit PlatformError * FileLock * Lk :=
  if negb (locked l) then (Ok tt, l, s)
  else
    match flock_un s (file l) with
    | (Err e, s) => (Err (FileLockError ("unlock failed: " ++ e)%string), l, s)
    | (Ok _, s) => (Ok tt, mk (file l) (path l) false, s)
    end.

(** [Drop for FileLock], then the [File] it owns. *)
Definition drop (s : Lk) (l : FileLock) : Lk :=
  let '(_, l, s) := if locked l then unlock s l else (Ok tt, l, s) in
  close_fd s (file l).

Definition release_and_remove (s : Lk) (l : FileLock) : result unit PlatformError * Lk :=
  match unlock s l with
  | (Err e, l, s) => (Err e, drop s l)
  | (Ok _, l, s) =>
      match unlink_file s (path l) with
      | (Err e, s) =>
          (Err (FileLockError ("cannot remove " ++ path l ++ ": " ++ e)%string), drop s l)
      | (Ok _, s) => (Ok tt, drop s l)
      end
  end.
End lock.

(** ** What a lock guarantees *)
Section facts.
Context {L : LockOs} {V : LockView} {Sp : LockOsSpec}.

(** The lock [l] is held on the file its path leads to. *)
Definition holds (s : Lk) (l : FileLock) : Prop :=
  locked l = true /\ exists i, paths s !! path l = Some i /\ file_of s (file l) = Some i /\
    holder s i = Some (file l).

(** Nothing a program holds or can reach has changed. *)
Definition harmless (s s' : Lk) : Prop :=
  same_paths s s' /\ same_locks s s' /\
  forall fd i, file_of s fd = Some i -> file_of s' fd = Some i.

#[global] Instance harmless_refl : Reflexive harmless.
Proof. done. Qed.
#[global] Instance harmless_trans : Transitive harmless.
Proof.
  intros s1 s2 s3 (A1 & A2 & A3) (B1 & B2 & B3). split; [|split].
  - unfold same_paths in *. congruence.
  - intros i. by rewrite B2.
  - auto.
Qed.

Lemma holds_harmless s s' l : harmless s s' -> holds s l -> holds s' l.
Proof.
  intros (H1 & H2 & H3) (Hl & i & Hp & Hf & Hh). split; [done|]. exists i.
  rewrite H1, H2. auto.
Qed.

(** Opening a descriptor and closing it again, whatever lock it took meanwhile
    on a file that was free. *)
Lemma open_close s s1 s2 fd i :
  opened s s1 fd i -> paths s1 = paths s -> paths s2 = paths s1 -> same_files s1 s2 ->
  (forall j, holder s2 j = holder s1 j \/ j = i /\ holder s1 i = None /\ holder s2 i = Some fd) ->
  harmless s (close_fd s2 fd).
Proof.
  intros (Hn & Hno & Hf & Hoth & Hlk) Hp1 Hp2 Hsf Hh.
  pose proof (close_fd_spec s2 fd) as (Hc1 & Hc2 & Hc3 & Hc4 & Hc5).
  split; [|split].
  - unfold same_paths in *. congruence.
  - intros j. destruct (Hh j) as [E|(-> & E1 & E2)].
    + rewrite Hc4, E, Hlk; [done|]. rewrite E, Hlk. apply Hno.
    + rewrite (Hc3 _ E2). rewrite <- Hlk. done.
  - intros fd' j Hj. rewrite Hc2, Hsf, Hoth; [done|..]; intros ->; congruence.
Qed.

(** A probe changes nothing for the others. *)
Lemma is_locked_harmless s p : harmless s (snd (is_locked s p)).
Proof.
  unfold is_locked. pose proof (open_read_spec s p) as Ho.
  destruct (open_read s p) as [[fd|e] s1]; [|by subst].
  destruct Ho as (i & Hopen & Hp & Hi).
  assert (Hf : file_of s1 fd = Some i) by apply Hopen.
  pose proof (flock_ex_nb_spec s1 fd i Hf) as Hx.
  destruct (flock_ex_nb s1 fd) as [[[]|e] s2].
  - destruct Hx as (Hfree & Hgot & Hoth & Hp2 & Hf2).
    assert (Hnone : holder s1 i = None).
    { destruct Hfree as [|Hbad]; [done|]. destruct Hopen as (_ & Hno & _ & _ & Hlk).
      rewrite Hlk in Hbad. by apply Hno in Hbad. }
    assert (Hf' : file_of s2 fd = Some i) by (by rewrite Hf2).
    pose proof (flock_un_spec s2 fd i Hf') as Hu.
    destruct (flock_un s2 fd) as [[[]|e] s3]; cbn.
    + destruct Hu as (Hu1 & _ & Hu2 & Hp3 & Hf3).
      apply (open_close s s1 s3 fd i); [done|done|unfold same_paths in *; congruence| |].
      * intros fd'. by rewrite Hf3, Hf2.
      * intros j. left. destruct (decide (j = i)) as [->|Hne].
        -- rewrite Hu1; done.
        -- by rewrite Hu2, Hoth.
    + subst s3. apply (open_close s s1 s2 fd i); [done..|].
      intros j. destruct (decide (j = i)) as [->|Hne]; [by right|left; by apply Hoth].
  - subst s2. apply (open_close s s1 s1 fd i); try done. by left.
Qed.

(** Probing a file that can be opened: a held lock is seen, and [false] means
    that nobody holds the lock. *)
Lemma is_locked_spec s p i :
  paths s !! p = Some i -> (exists fd s', open_read s p = (Ok fd, s')) ->
  (is_Some (holder s i) -> fst (is_locked s p) = true) /\
  (fst (is_locked s p) = false -> holder s i = None).
Proof.
  intros Hi (fd & s1 & E). unfold is_locked. pose proof (open_read_spec s p) as Ho. rewrite E in Ho |- *.
  destruct Ho as (j & (Hn & Hno & Hf & Hoth & Hlk) & Hp & Hj).
  assert (j = i) as -> by (destruct Hj as [|[]]; congruence).
  pose proof (flock_ex_nb_spec s1 fd i Hf) as Hx.
  destruct (flock_ex_nb s1 fd) as [[[]|e] s2]; cbn; [|done].
  destruct Hx as ([Hfree|Hbad] & _).
  - rewrite Hlk in Hfree. rewrite Hfree. destruct (flock_un s2 fd). cbn.
    split; [by intros [??]|done].
  - rewrite Hlk in Hbad. by apply Hno in Hbad.
Qed.

(** A path where nothing is locked is seen to be free. *)
Lemma is_locked_free `{!LockOsReady} s p :
  (forall i, leads_to_file s p i -> holder s i = None) -> fst (is_locked s p) = false.
Proof.
  intros Hh. unfold is_locked. pose proof (open_read_spec s p) as Ho.
  destruct (open_read s p) as [[fd|e] s1]; [|done].
  destruct Ho as (i & (_ & _ & Hf & _ & Hl) & _ & Hi).
  destruct (flock_ready s1 fd i Hf) as [s2 ->]; [by rewrite Hl, Hh|].
  by destruct (flock_un s2 fd).
Qed.

(** Any error of the open counts as free, whoever holds the lock. *)
Lemma is_locked_cannot_open s p e s1 : open_read s p = (Err e, s1) -> is_locked s p = (false, s).
Proof.
  intros E. unfold is_locked. pose proof (open_read_spec s p) as Ho. rewrite E in Ho |- *. by subst.
Qed.

(** *** Acquiring *)

(** At most a new, unlocked file at [p]. *)
Definition grown (s s' : Lk) (p : string) : Prop :=
  same_locks s s' /\ (forall fd i, file_of s fd = Some i -> file_of s' fd = Some i) /\
  (paths s' = paths s \/
   paths s !! p = None /\ exists i, paths s' = <[p := i]> (paths s) /\ holder s i = None /\
     forall q, paths s !! q <> Some i).

(** The new lock is on the file at [p], whose lock was free. *)
Definition acquired (s s' : Lk) (l : FileLock) (p : string) : Prop :=
  path l = p /\ locked l = true /\ file_of s (file l) = None /\
  (forall j, holder s j <> Some (file l)) /\
  exists i, paths s' = <[p := i]> (paths s) /\ file_of s' (file l) = Some i /\
    holder s' i = Some (file l) /\ holder s i = None /\
    (paths s !! p = Some i \/ paths s !! p = None /\ forall q, paths s !! q <> Some i) /\
    (forall j, j <> i -> holder s' j = holder s j) /\
    (forall fd, fd <> file l -> file_of s' fd = file_of s fd).

Lemma acquire_spec s p :
  match acquire s p with
  | (Ok l, s') => acquired s s' l p
  | (Err _, s') => grown s s' p
  end.
Proof.
  assert (Hmk : forall s1, same_paths s s1 /\ same_files s s1 /\ same_locks s s1 ->
    match (match open_rw_create s1 p with
           | (Err e, s2) => (Err (FileLockError ("cannot open " ++ p ++ ": " ++ e)%string), s2)
           | (Ok fd, s2) => acquire_lock s2 p fd
           end) with
    | (Ok l, s') => acquired s s' l p
    | (Err _, s') => grown s s' p
    end).
  { intros s1 (Hp1 & Hf1 & Hl1). pose proof (open_rw_create_spec s1 p) as Ho.
    destruct (open_rw_create s1 p) as [[fd|e] s2].
    2: { subst s2. split; [done|]. split; [intros fd i; by rewrite Hf1|]. left. exact Hp1. }
    destruct Ho as (i & (Hn & Hno & Hf & Hoth & Hlk) & Hp2 & Hcase).
    rewrite Hp1 in Hp2, Hcase. unfold acquire_lock.
    pose proof (flock_ex_nb_spec s2 fd i Hf) as Hx.
    destruct (flock_ex_nb s2 fd) as [[[]|e] s3].
    - destruct Hx as (Hfree & Hgot & Hothl & Hp3 & Hf3).
      assert (Hnone : holder s i = None).
      { rewrite <- Hl1, <- Hlk. destruct Hfree as [|Hbad]; [done|].
        rewrite Hlk in Hbad. by apply Hno in Hbad. }
      split; [done|]. split; [done|]. cbn [file]. split; [by rewrite <- Hf1|].
      split; [intros j; rewrite <- Hl1; apply Hno|]. exists i.
      split; [by rewrite Hp3, Hp2|]. split; [by rewrite Hf3|]. split; [done|].
      split; [done|]. split; [|split].
      + destruct Hcase as [|(? & _ & ?)]; [by left|right]. split; [done|].
        done.
      + intros j Hj. by rewrite Hothl, Hlk, Hl1.
      + intros fd' Hfd'. by rewrite Hf3, Hoth, Hf1.
    - subst s3. pose proof (close_fd_spec s2 fd) as (Hc1 & Hc2 & Hc3 & Hc4 & Hc5).
      split; [|split].
      + intros j. rewrite Hc4, Hlk; [apply Hl1|]. rewrite Hlk. apply Hno.
      + intros fd' j Hj. rewrite Hc2, Hoth, Hf1; [done|..]; intros ->;
          rewrite <- Hf1 in Hj; congruence.
      + rewrite Hc5, Hp2. destruct Hcase as [Hs|(Hnone & Hfr & Hnew)].
        * left. by apply insert_id.
        * right. split; [done|]. exists i. split; [done|]. by rewrite <- Hl1. }
  unfold acquire, acquire_open. destruct (parent p) as [d|].
  - pose proof (mkdir_all_spec s d) as Hm. destruct (mkdir_all s d) as [[[]|e] s1]; cbn in Hm.
    + specialize (Hmk s1 Hm). by destruct (open_rw_create s1 p) as [[fd|e] s2].
    + destruct Hm as (Hp1 & Hf1 & Hl1). split; [done|].
      split; [intros fd i; by rewrite Hf1|]. by left.
  - assert (Hrefl : same_paths s s /\ same_files s s /\ same_locks s s) by done.
    specialize (Hmk s Hrefl). by destruct (open_rw_create s p) as [[fd|e] s2].
Qed.

(** *** Releasing *)

(** The descriptor is gone, and so is its lock; nobody else notices. *)
Definition dropped (s s' : Lk) (fd : LFd) : Prop :=
  file_of s' fd = None /\ (forall fd', fd' <> fd -> file_of s' fd' = file_of s fd') /\
  (forall i, holder s i = Some fd -> holder s' i = None) /\
  (forall i, holder s i <> Some fd -> holder s' i = holder s i).

Lemma drop_spec s l i :
  file_of s (file l) = Some i -> dropped s (drop s l) (file l) /\ paths (drop s l) = paths s.
Proof.
  intros Hf. unfold drop. destruct (locked l) eqn:El.
  2: { destruct (close_fd_spec s (file l)) as (? & ? & ? & ? & ?). by split. }
  unfold unlock. rewrite El. cbn [negb].
  pose proof (flock_un_spec s (file l) i Hf) as Hu.
  destruct (flock_un s (file l)) as [[[]|e] s1]; cbn [file].
  2: { subst s1. destruct (close_fd_spec s (file l)) as (? & ? & ? & ? & ?). by split. }
  destruct Hu as (Hu1 & Hu2 & Hu3 & Hp1 & Hf1).
  destruct (close_fd_spec s1 (file l)) as (C1 & C2 & C3 & C4 & C5).
  split; [|unfold same_paths in *; congruence].
  assert (Hloc : forall j, holder s1 j = holder s j \/ holder s j = Some (file l) /\ holder s1 j = None).
  { intros j. destruct (decide (j = i)) as [->|Hne]; [|left; by apply Hu3].
    destruct (decide (holder s i = Some (file l))); [right; auto|left; auto]. }
  split; [done|]. split; [intros fd' Hne; by rewrite C2, Hf1|]. split.
  - intros j Hj. destruct (Hloc j) as [E|[_ E]].
    + apply C3. congruence.
    + rewrite C4; congruence.
  - intros j Hj. destruct (Hloc j) as [E|[? _]]; [|done]. rewrite C4; congruence.
Qed.

Lemma release_and_remove_spec s l i :
  file_of s (file l) = Some i -> locked l = true ->
  let '(r, s') := release_and_remove s l in
  dropped s s' (file l) /\
  match r with
  | Ok _ => paths s' = delete (path l) (paths s)
  | Err _ => paths s' = paths s
  end.
Proof.
  intros Hf El. unfold release_and_remove, unlock. rewrite El. cbn [negb].
  pose proof (flock_un_spec s (file l) i Hf) as Hu.
  destruct (flock_un s (file l)) as [[[]|e] s1].
  2: { subst s1. by destruct (drop_spec s l i Hf). }
  destruct Hu as (Hu1 & Hu2 & Hu3 & Hp1 & Hf1). cbn [path].
  set (l' := mk (file l) (path l) false).
  assert (Hd : forall s2, same_files s1 s2 -> same_locks s1 s2 -> dropped s (drop s2 l') (file l)).
  { intros s2 Hf2 Hl2. assert (Hf' : file_of s2 (file l') = Some i) by (by rewrite Hf2, Hf1).
    destruct (drop_spec s2 l' i Hf') as [(D1 & D2 & D3 & D4) _]. cbn [file l'] in *.
    split; [done|]. split; [intros fd' Hne; by rewrite D2, Hf2, Hf1|]. split.
    - intros j Hj. destruct (decide (j = i)) as [->|Hne].
      + rewrite D4; rewrite Hl2, Hu1 by done; done.
      + apply D3. by rewrite Hl2, Hu3.
    - intros j Hj. assert (E : holder s1 j = holder s j).
      { destruct (decide (j = i)) as [->|Hne]; [by apply Hu2|by apply Hu3]. }
      rewrite D4; rewrite Hl2, E; done. }
  assert (Hpd : forall s2, same_files s1 s2 -> paths (drop s2 l') = paths s2).
  { intros s2 Hf2. apply (drop_spec s2 l' i). cbn. by rewrite Hf2, Hf1. }
  pose proof (unlink_file_spec s1 (path l)) as Hun.
  destruct (unlink_file s1 (path l)) as [[[]|e] s2].
  - destruct Hun as (_ & Hp2 & Hf2 & Hl2). split; [by apply Hd|].
    rewrite Hpd by done. unfold same_paths in *. congruence.
  - subst s2. split; [by apply Hd|]. by rewrite Hpd.
Qed.
End facts.
End FileLock.

(** ** A system with the documented behaviour

    Files and descriptors are numbers; a lock counts as long as the descriptor
    that took it is open.  Opening for reading fails when [limit] descriptors
    are open. *)
Module ToyLocks.

Record locks := mk {
  l_paths : gmap string Z;
  l_open : gmap Z Z;
  l_held : gmap Z Z;
}.

Definition no_locks : locks := mk ∅ ∅ ∅.

Definition held (s : locks) (i : Z) : option Z :=
  match l_held s !! i with
  | Some fd => if decide (l_open s !! fd = Some i) then Some fd else None
  | None => None
  end.

Definition fresh_fd (s : locks) : Z :=
  above ((map_to_list (l_open s)).*1 ++ (map_to_list (l_held s)).*2).
Definition fresh_file (s : locks) : Z :=
  above ((map_to_list (l_paths s)).*2 ++ (map_to_list (l_open s)).*2).

Definition open_file (s : locks) (i : Z) : locks :=
  mk (l_paths s) (<[fresh_fd s := i]> (l_open s)) (l_held s).

Definition entries (s : locks) (d : string) : list string :=
  List.filter is_name (omap (below d) (map_to_list (l_paths s)).*1).

Section limited.
Context (limit : option nat).

Definition full (s : locks) : bool :=
  match limit with Some n => (n <=? size (l_open s))%nat | None => false end.

#[local] Instance limited_locks : LockOs := {
  Lk := locks;
  LFd := Z;
  mkdir_all s p := (Ok tt, s);
  open_rw_create s p :=
    match l_paths s !! p with
    | Some i => (Ok (fresh_fd s), open_file s i)
    | None =>
        let i := fresh_file s in
        (Ok (fresh_fd s), open_file (mk (<[p := i]> (l_paths s)) (l_open s) (l_held s)) i)
    end;
  open_read s p :=
    if full s then (Err "EMFILE", s)
    else
      match l_paths s !! p with
      | Some i => (Ok (fresh_fd s), open_file s i)
      | None => (Err "ENOENT", s)
      end;
  flock_ex_nb s fd :=
    match l_open s !! fd with
    | None => (Err "EBADF", s)
    | Some i =>
        match held s i with
        | Some fd' =>
            if decide (fd' = fd) then (Ok tt, s) else (Err "EWOULDBLOCK", s)
        | None => (Ok tt, mk (l_paths s) (l_open s) (<[i := fd]> (l_held s)))
        end
    end;
  flock_un s fd :=
    match l_open s !! fd with
    | None => (Err "EBADF", s)
    | Some i =>
        (Ok tt, if decide (held s i = Some fd)
                then mk (l_paths s) (l_open s) (delete i (l_held s)) else s)
    end;
  close_fd s fd := mk (l_paths s) (delete fd (l_open s)) (l_held s);
  unlink_file s p :=
    match l_paths s !! p with
    | Some _ => (Ok tt, mk (delete p (l_paths s)) (l_open s) (l_held s))
    | None => (Err "ENOENT", s)
    end;
  dir_exists s d := negb (bool_decide (entries s d = []));
  list_dir s d := Ok ((fun nm => Ok (Some nm)) <$> entries s d);
}.

#[local] Instance limited_view : LockView := {
  paths := l_paths : Lk -> gmap string Z;
  file_of s fd := l_open s !! fd;
  holder := held : Lk -> Z -> option LFd;
}.

Lemma held_open s i fd : held s i = Some fd -> l_open s !! fd = Some i.
Proof. unfold held. repeat case_match; congruence. Qed.

Lemma fresh_lock_fd s :
  l_open s !! fresh_fd s = None /\ forall i, l_held s !! i <> Some (fresh_fd s).
Proof.
  split; [destruct (l_open s !! fresh_fd s) as [i|] eqn:E; [|done]; exfalso|intros i E];
    enough (fresh_fd s < fresh_fd s) by lia; apply above_fresh, elem_of_app;
    [left|right]; apply list_elem_of_fmap;
    [exists (fresh_fd s, i)|exists (i, fresh_fd s)]; (split; [done|]); by apply elem_of_map_to_list.
Qed.

Lemma fresh_file_new s :
  (forall fd, l_open s !! fd <> Some (fresh_file s)) /\ forall p, l_paths s !! p <> Some (fresh_file s).
Proof.
  split; intros x E; enough (fresh_file s < fresh_file s) by lia;
    apply above_fresh, elem_of_app; [right|left]; apply list_elem_of_fmap;
    exists (x, fresh_file s); (split; [done|]); by apply elem_of_map_to_list.
Qed.

Lemma entries_elem s d nm : is_name nm = true -> is_Some (l_paths s !! join d nm) -> nm ∈ entries s d.
Proof using.
  intros Hn [i Hi]. apply list_elem_of_In, filter_In. split; [|done]. apply list_elem_of_In, list_elem_of_omap. exists (join d nm). split; [|apply below_join].
  apply list_elem_of_fmap. exists (join d nm, i). split; [done|]. by apply elem_of_map_to_list.
Qed.

(** Opening, in terms of the view. *)
Lemma open_file_opened s i : opened (s : Lk) (open_file s i) (fresh_fd s) i.
Proof.
  destruct (fresh_lock_fd s) as [Hn Hh]. split; [done|]. split; [|split; [|split]].
  - intros j Hj%held_open. congruence.
  - apply lookup_insert_eq.
  - intros fd' Hne. by apply lookup_insert_ne.
  - intros j. cbn. unfold held. cbn. destruct (l_held s !! j) as [fd|] eqn:E; [|done].
    destruct (decide (fd = fresh_fd s)) as [->|Hne]; [by apply Hh in E|by rewrite lookup_insert_ne].
Qed.

Lemma held_other s fd i : held s i <> Some fd ->
  held (mk (l_paths s) (delete fd (l_open s)) (l_held s)) i = held s i.
Proof.
  unfold held. cbn. destruct (l_held s !! i) as [fd'|]; [|done]. intros Hne.
  destruct (decide (fd' = fd)) as [->|Hfd]; [|by rewrite lookup_delete_ne].
  rewrite lookup_delete_eq. by repeat case_decide.
Qed.

Lemma held_insert s i fd j : l_open s !! fd = Some i ->
  held (mk (l_paths s) (l_open s) (<[i := fd]> (l_held s))) j = if decide (i = j) then Some fd else held s j.
Proof.
  intros Hf. unfold held. cbn. rewrite lookup_insert. case_decide as E; [subst j|done].
  by rewrite decide_True.
Qed.

#[local] Instance limited_spec : LockOsSpec.
Proof.
  split; cbn -[entries decide].
  - done.
  - intros s p. pose proof (fresh_file_new s) as [Hf1 Hf2].
    destruct (l_paths s !! p) as [i|] eqn:E.
    + exists i. split; [apply open_file_opened|]. split; [|by left]. cbn. by rewrite insert_id.
    + exists (fresh_file s). split; [|split; [done|]].
      * apply (open_file_opened (mk (<[p := fresh_file s]> (l_paths s)) (l_open s) (l_held s))).
      * right. split; [done|]. split; [|done].
        destruct (held s _) as [fd|] eqn:Eh; [|done]. apply held_open in Eh. by apply Hf1 in Eh.
  - intros s p. destruct (full s); [done|]. destruct (l_paths s !! p) as [i|] eqn:E; [|done].
    exists i. split; [apply open_file_opened|]. by split; [|left].
  - intros s fd i Hf. rewrite Hf. destruct (held s i) as [fd'|] eqn:E.
    + case_decide as Hd; [subst fd'|done]. split_and!; [by right|done..].
    + split_and!; [by left|by rewrite held_insert, decide_True| |done..].
      intros j Hj. by rewrite held_insert, decide_False.
  - intros s fd i Hf. rewrite Hf. case_decide as E; [|split_and!; done].
    unfold held. cbn. split_and!; [by rewrite lookup_delete_eq|done| |done..].
    intros j Hj. by rewrite lookup_delete_ne.
  - intros s fd. split_and!; [apply lookup_delete_eq|by intros; apply lookup_delete_ne| | |done].
    + intros i. unfold held. cbn. destruct (l_held s !! i) as [fd'|]; [|done].
      case_decide; [|done]. intros [= ->]. by rewrite lookup_delete_eq.
    + intros i. apply held_other.
  - intros s p. by destruct (l_paths s !! p).
  - intros s i fd. apply held_open.
  - intros s d l nm [= <-] _ Hn Hp. apply list_elem_of_fmap. exists nm. split; [done|by apply entries_elem].
  - intros s d l nm [= <-] (nm' & [= <-] & Hin)%list_elem_of_fmap. by apply list_elem_of_In, filter_In in Hin as [_ ?].
Qed.
End limited.

#[export] Instance toy_locks : LockOs := limited_locks None.
#[export] Instance toy_lock_view : LockView := limited_view None.
#[export] Instance toy_lock_spec : LockOsSpec := limited_spec None.

#[export] Instance toy_lock_ready : LockOsReady.
Proof.
  split; cbn -[entries].
  - intros s p [i ->]. eauto.
  - intros s fd i -> ->. eauto.
  - intros s p [i ->]. eauto.
  - intros s d nm _ Hn Hp. pose proof (entries_elem s d nm Hn Hp) as Hin.
    destruct (entries s d); [by apply elem_of_nil in Hin|done].
Qed.
End ToyLocks.
