(* ===== verification/Monitor.v ===== *)
(** * ProcessMonitor (crates/entangle-platform/src/process_monitor.rs)

    A node is alive as long as it holds the lock of its file, whose name is the
    node's id.  The theorems take each call as one step of a system of any
    number of processes; [register_cleanup_race] cuts [register] in two. *)
From S2P Require Import Prelude Paths Contracts Shm Hex FileLock.
#[local] Open Scope Z_scope.
#[local] Open Scope rust_scope.

Module ProcessMonitor.

(** [pub struct ProcessMonitor { lock, node_id, root_dir }]. *)
Record ProcessMonitor `{LockOs} := mk {
  lock : FileLock.FileLock;
  node_id : Z;
  root_dir : string;
}.
Arguments mk {H} lock node_id root_dir.
Arguments lock {H} p.
Arguments node_id {H} p.
Arguments root_dir {H} p.

Definition nodes_dir (root : string) : string := join root "nodes".

Lemma nodes_dir_nonempty root : nodes_dir root <> EmptyString.
Proof. unfold nodes_dir, join. destruct root as [|c root]; [done|]. by destruct (ends_with_slash _). Qed.
(** [nodes_dir.join(format!("{:032x}", node_id.0))] *)
Definition node_path (root : string) (node_id : Z) : string :=
  join (nodes_dir root) (to_hex 32 node_id).

Section monitor.
Context {L : LockOs}.

Definition register (s : Lk) (node_id : Z) (root : string)
    : result ProcessMonitor PlatformError * Lk :=
  match mkdir_all s (nodes_dir root) with
  | (Err e, s) => (Err (ProcessMonitorError ("cannot create nodes dir: " ++ e)%string), s)
  | (Ok _, s) =>
      match FileLock.acquire s (node_path root node_id) with
      | (Err e, s) =>
          (Err (ProcessMonitorError
                  ("cannot acquire node lock: " ++ PlatformError_display e)%string), s)
      | (Ok lock, s) => (Ok (mk lock node_id root), s)
      end
  end.

Definition is_alive (s : Lk) (node_id : Z) (root : string) : bool * Lk :=
  FileLock.is_locked s (node_path root node_id).

(** The loop of [list_nodes]: entries that are not hexadecimal are skipped. *)
Fixpoint parse_entries (entries : list (result (option string) string))
    : result (list Z) PlatformError :=
  match entries with
  | [] => Ok []
  | Err e :: _ => Err (ProcessMonitorError ("cannot read dir entry: " ++ e)%string)
  | Ok None :: entries => parse_entries entries
  | Ok (Some name) :: entries =>
      match from_str_radix_16 128 name with
      | Some id => let? ids := parse_entries entries in Ok (id :: ids)
      | None => parse_entries entries
      end
  end.

Definition list_nodes (s : Lk) (root : string) : result (list Z) PlatformError :=
  if negb (dir_exists s (nodes_dir root)) then Ok []
  else
    match list_dir s (nodes_dir root) with
    | Err e => Err (ProcessMonitorError ("cannot read nodes dir: " ++ e)%string)
    | Ok entries => parse_entries entries
    end.

(** The loop of [cleanup_dead_nodes]: the ids whose files it removed. *)
Fixpoint cleanup_nodes (s : Lk) (root : string) (nodes : list Z) : list Z * Lk :=
  match nodes with
  | [] => ([], s)
  | id :: nodes =>
      let (alive, s) := is_alive s id root in
      if alive then cleanup_nodes s root nodes
      else
        match unlink_file s (node_path root id) with
        | (Err _, s) => cleanup_nodes s root nodes
        | (Ok _, s) => let (dead, s) := cleanup_nodes s root nodes in (id :: dead, s)
        end
  end.

Definition cleanup_dead_nodes (s : Lk) (root : string) : result (list Z) PlatformError * Lk :=
  match list_nodes s root with
  | Err e => (Err e, s)
  | Ok nodes => let (dead, s) := cleanup_nodes s root nodes in (Ok dead, s)
  end.

Definition deregister (s : Lk) (m : ProcessMonitor) : result unit PlatformError * Lk :=
  match FileLock.release_and_remove s (lock m) with
  | (Err e, s) =>
      (Err (ProcessMonitorError ("deregister failed: " ++ PlatformError_display e)%string), s)
  | (Ok _, s) => (Ok tt, s)
  end.

(** Dropping a monitor drops its lock; a process that dies closes its files. *)
Definition drop (s : Lk) (m : ProcessMonitor) : Lk := FileLock.drop s (lock m).
Definition crash (s : Lk) (m : ProcessMonitor) : Lk := close_fd s (FileLock.file (lock m)).

(** ** Processes on one root directory *)

Record system := Sys { os : Lk; monitors : list ProcessMonitor }.

Inductive step (root : string) : system -> system -> Prop :=
| step_register s ms id r s' :
    fits 128 id -> register s id root = (r, s') ->
    step root (Sys s ms) (Sys s' (match r with Ok m => m :: ms | Err _ => ms end))
| step_drop s ms1 m ms2 :
    step root (Sys s (ms1 ++ m :: ms2)) (Sys (drop s m) (ms1 ++ ms2))
| step_crash s ms1 m ms2 :
    step root (Sys s (ms1 ++ m :: ms2)) (Sys (crash s m) (ms1 ++ ms2))
| step_deregister s ms1 m ms2 r s' :
    deregister s m = (r, s') -> step root (Sys s (ms1 ++ m :: ms2)) (Sys s' (ms1 ++ ms2))
| step_probe s ms id b s' :
    is_alive s id root = (b, s') -> step root (Sys s ms) (Sys s' ms)
| step_cleanup s ms r s' :
    cleanup_dead_nodes s root = (r, s') -> step root (Sys s ms) (Sys s' ms).
End monitor.

Section links.
Context {L : LockOs} {V : LockView}.

(** No file has two paths. *)
Definition no_links (s : Lk) : Prop :=
  forall p q i, paths s !! p = Some i -> paths s !! q = Some i -> p = q.

Lemma no_links_same s s' : paths s' = paths s -> no_links s -> no_links s'.
Proof. unfold no_links. by intros ->. Qed.

Lemma no_links_insert s s' p i :
  paths s' = <[p := i]> (paths s) ->
  paths s !! p = Some i \/ (forall q, paths s !! q <> Some i) -> no_links s -> no_links s'.
Proof.
  unfold no_links. intros -> Hi Hn q r j Hq Hr.
  rewrite lookup_insert in Hq. rewrite lookup_insert in Hr.
  repeat case_decide; naive_solver.
Qed.

Lemma no_links_delete s s' p : paths s' = delete p (paths s) -> no_links s -> no_links s'.
Proof.
  unfold no_links. intros -> Hn q r j [_ Hq]%lookup_delete_Some [_ Hr]%lookup_delete_Some.
  by apply (Hn _ _ j).
Qed.

End links.

Section facts.
Context {L : LockOs} {V : LockView} {Sp : LockOsSpec} (root : string).

Lemma node_path_inj x y : fits 128 x -> fits 128 y -> node_path root x = node_path root y -> x = y.
Proof using. intros Hx Hy He%join_inj. by apply to_hex_inj. Qed.

Record inv (c : system) : Prop := {
  inv_held : forall m, m ∈ monitors c ->
    fits 128 (node_id m) /\ root_dir m = root /\
    FileLock.path (lock m) = node_path root (node_id m) /\ FileLock.holds (os c) (lock m);
  inv_ids : NoDup (node_id <$> monitors c);
  inv_fds : NoDup ((fun m => FileLock.file (lock m)) <$> monitors c);
  inv_only : forall i fd, holder (os c) i = Some fd ->
    exists m, m ∈ monitors c /\ FileLock.file (lock m) = fd;
  inv_links : no_links (os c);
}.

(** A lock whose path, descriptor and holder are as before is still held. *)
Lemma holds_same s s' l :
  FileLock.holds s l -> paths s' !! FileLock.path l = paths s !! FileLock.path l ->
  file_of s' (FileLock.file l) = file_of s (FileLock.file l) ->
  (forall i, holder s i = Some (FileLock.file l) -> holder s' i = Some (FileLock.file l)) ->
  FileLock.holds s' l.
Proof using.
  intros (Hl & i & Hp & Hf & Hh) Ep Ef Eh. split; [done|]. exists i. rewrite Ep, Ef. auto.
Qed.

Lemma inv_same s s' ms :
  inv (Sys s ms) ->
  (forall m, m ∈ ms -> FileLock.holds s (lock m) -> FileLock.holds s' (lock m)) ->
  same_locks s s' -> no_links s' -> inv (Sys s' ms).
Proof using.
  intros [I1 I2 I3 I4 I5] Hh Hl Hp. split; cbn in *; [|done|done| |done].
  - intros m Hm. destruct (I1 m Hm) as (? & ? & ? & ?). split_and!; auto.
  - intros i fd. rewrite Hl. apply I4.
Qed.

Lemma inv_harmless s s' ms : FileLock.harmless s s' -> inv (Sys s ms) -> inv (Sys s' ms).
Proof using.
  intros Hh Hi. eapply inv_same; [done| |apply Hh|].
  - intros m _. by apply FileLock.holds_harmless.
  - eapply no_links_same, Hi. apply Hh.
Qed.

(** The registered monitor of a file that is locked. *)
Lemma held_by c m i :
  inv c -> m ∈ monitors c -> paths (os c) !! node_path root (node_id m) = Some i ->
  holder (os c) i = Some (FileLock.file (lock m)).
Proof using.
  intros Hi Hm Hp. destruct (inv_held _ Hi m Hm) as (_ & _ & Epath & _ & j & Hj & _ & Hh).
  rewrite Epath, Hp in Hj. congruence.
Qed.

Lemma register_inv s ms id r s' :
  fits 128 id -> inv (Sys s ms) -> register s id root = (r, s') ->
  inv (Sys s' (match r with Ok m => m :: ms | Err _ => ms end)) /\
  match r with Ok m => node_id m = id | Err _ => True end.
Proof using Sp.
  intros Hfit Hi Hr. unfold register in Hr.
  pose proof (mkdir_all_spec s (nodes_dir root)) as Hmk.
  destruct (mkdir_all s (nodes_dir root)) as [[[]|e] s1]; cbn in Hmk; destruct Hmk as (Hp & Hf & Hl).
  2: { simplify_eq. split; [|done]. apply (inv_harmless s); [|done].
       split; [done|]. split; [done|]. intros fd i. by rewrite Hf. }
  assert (Hi1 : inv (Sys s1 ms)).
  { apply (inv_harmless s); [|done]. split; [done|]. split; [done|]. intros fd i. by rewrite Hf. }
  clear s Hi Hp Hf Hl. set (p := node_path root id) in *.
  pose proof (FileLock.acquire_spec s1 p) as Ha.
  destruct (FileLock.acquire s1 p) as [[l|e] s2]; simplify_eq.
  2: { split; [|done]. destruct Ha as (Hl & Hf & Hp). apply (inv_same s1); [done| |done|].
    2: { destruct Hp as [Hp|(_ & i & Hp & _ & Hnew)]; [by eapply no_links_same, Hi1|].
         eapply no_links_insert, Hi1; [done|]. by right. }
    intros m Hm Hh. apply (holds_same s1); [done| | |by intros i; rewrite Hl].
    - destruct Hp as [->|(Hnone & i & -> & _ & _)]; [done|]. rewrite lookup_insert_ne; [done|].
      intros He. destruct Hh as (_ & j & Hj & _). congruence.
    - destruct Hh as (_ & j & _ & Hj & _). by rewrite Hj, (Hf _ _ Hj). }
  destruct Ha as (Epath & Elock & Hnew & Hnoh & i & Hp & Hfi & Hhi & Hfree & Hcase & Hoth & Hfds).
  split; [|done].
  assert (Hfd : forall m, m ∈ ms -> FileLock.file (lock m) <> FileLock.file l).
  { intros m Hm He. destruct (inv_held _ Hi1 m Hm) as (_ & _ & _ & _ & j & _ & Hj & _).
    cbn in Hj. congruence. }
  assert (Hids : forall m, m ∈ ms -> node_id m <> id).
  { intros m Hm He. pose proof (inv_held _ Hi1 m Hm) as (_ & _ & Em & _ & j & Hj & _ & Hh).
    cbn in Hj, Hh. rewrite Em, He in Hj. fold p in Hj. destruct Hcase as [Hc|[Hc _]]; congruence. }
  split; cbn.
  - intros m [->|Hm]%elem_of_cons; cbn.
    { split; [done|]. split; [done|]. split; [done|]. split; [done|]. exists i.
      rewrite Epath, Hp, lookup_insert_eq. done. }
    destruct (inv_held _ Hi1 m Hm) as (? & ? & Em & Hh). split_and!; try done; try apply H.
    apply (holds_same s1); [done| | |].
    + rewrite Hp, lookup_insert_ne; [done|]. rewrite Em. intros He.
      apply node_path_inj in He; [|done|done]. by apply (Hids m Hm).
    + apply Hfds. by apply Hfd.
    + intros j Hj. rewrite Hoth; [done|]. intros ->. congruence.
  - apply NoDup_cons. split; [|apply Hi1]. intros (m & Hm1 & Hm2)%list_elem_of_fmap.
    by apply (Hids m Hm2).
  - apply NoDup_cons. split; [|apply Hi1]. intros (m & Hm1 & Hm2)%list_elem_of_fmap.
    by apply (Hfd m Hm2).
  - intros j fd Hj. destruct (decide (j = i)) as [->|Hne].
    + eexists. split; [apply list_elem_of_here|]. cbn. congruence.
    + rewrite Hoth in Hj by done. destruct (inv_only _ Hi1 j fd Hj) as (m & Hm & ?).
      exists m. split; [by right|done].
  - eapply no_links_insert, Hi1; [done|]. destruct Hcase as [|[_ ?]]; [by left|by right].
Qed.

(** A monitor whose descriptor is gone leaves the list. *)
Lemma inv_dropped s s' ms1 m ms2 :
  inv (Sys s (ms1 ++ m :: ms2)) -> FileLock.dropped s s' (FileLock.file (lock m)) ->
  (forall m', m' ∈ ms1 ++ ms2 -> paths s' !! FileLock.path (lock m') = paths s !! FileLock.path (lock m')) ->
  no_links s' -> inv (Sys s' (ms1 ++ ms2)).
Proof using.
  intros [I1 I2 I3 I4 I5] (D1 & D2 & D3 & D4) Hp Hnl. cbn in *.
  pose proof (elem_middle_other ms1 ms2 m) as Hin.
  rewrite <- Permutation_middle, fmap_cons in I2. apply NoDup_cons in I2 as [_ I2].
  rewrite <- Permutation_middle, fmap_cons in I3. apply NoDup_cons in I3 as [N5 I3].
  assert (Hfd : forall m', m' ∈ ms1 ++ ms2 -> FileLock.file (lock m') <> FileLock.file (lock m)).
  { intros m' Hm' He. apply N5. apply list_elem_of_fmap. by exists m'. }
  split; cbn.
  - intros m' Hm'. destruct (I1 m' (Hin _ Hm')) as (? & ? & ? & Hh). split_and!; try done; try apply H.
    apply (holds_same s); [done|by apply Hp|by apply D2, Hfd|].
    intros i Hi. rewrite D4; [done|]. rewrite Hi. intros [= He]. by apply (Hfd m').
  - done.
  - done.
  - intros i fd Hi. destruct (decide (holder s i = Some (FileLock.file (lock m)))) as [E|E].
    + rewrite (D3 _ E) in Hi. done.
    + rewrite (D4 _ E) in Hi. destruct (I4 i fd Hi) as (m' & Hm' & He).
      exists m'. split; [|done]. apply elem_of_app in Hm' as [?|[->|?]%elem_of_cons];
        [apply elem_of_app; by left|congruence|apply elem_of_app; by right].
  - done.
Qed.

Lemma held_file s ms m :
  inv (Sys s ms) -> m ∈ ms -> exists i, file_of s (FileLock.file (lock m)) = Some i.
Proof using.
  intros Hi Hm. destruct (inv_held _ Hi m Hm) as (_ & _ & _ & _ & i & _ & Hf & _). by exists i.
Qed.

Lemma deregister_inv s ms1 m ms2 r s' :
  inv (Sys s (ms1 ++ m :: ms2)) -> deregister s m = (r, s') ->
  inv (Sys s' (ms1 ++ ms2)) /\
  paths s' = match r with Ok _ => delete (node_path root (node_id m)) (paths s) | Err _ => paths s end.
Proof using Sp.
  intros Hi Hd. pose proof (elem_middle ms1 ms2 m) as Hm.
  destruct (held_file _ _ _ Hi Hm) as [i Hf].
  pose proof (inv_held _ Hi m Hm) as (Hfit & _ & Em & Hlk & _).
  pose proof (FileLock.release_and_remove_spec s (lock m) i Hf Hlk) as Hr.
  unfold deregister in Hd. destruct (FileLock.release_and_remove s (lock m)) as [[[]|e] s1];
    simplify_eq; destruct Hr as [Hdr Hp].
  - rewrite Em in Hp. split; [|done]. eapply inv_dropped; [done|done| |by eapply no_links_delete, Hi].
    intros m' Hm'. rewrite Hp, lookup_delete_ne; [done|].
    pose proof (elem_middle_other ms1 ms2 m m' Hm') as Hin.
    pose proof (inv_held _ Hi m' Hin) as (Hfit' & _ & Em' & _). rewrite Em'. intros He.
    apply node_path_inj in He; [|done|done].
    pose proof (inv_ids _ Hi) as Hnd. cbn in Hnd.
    rewrite <- Permutation_middle, fmap_cons in Hnd. apply NoDup_cons in Hnd as [Hnot _].
    apply Hnot. rewrite He. apply list_elem_of_fmap. by exists m'.
  - split; [|done]. eapply inv_dropped; [done|done| |by eapply no_links_same, Hi].
    intros. by rewrite Hp.
Qed.
Lemma drop_inv s ms1 m ms2 : inv (Sys s (ms1 ++ m :: ms2)) -> inv (Sys (drop s m) (ms1 ++ ms2)).
Proof using Sp.
  intros Hi. destruct (held_file _ _ _ Hi (elem_middle ms1 ms2 m)) as [i Hf].
  destruct (FileLock.drop_spec s (lock m) i Hf) as [Hd Hp].
  eapply inv_dropped; [done|done| |by eapply no_links_same, Hi].
  intros. unfold drop. by rewrite Hp.
Qed.

Lemma crash_inv s ms1 m ms2 : inv (Sys s (ms1 ++ m :: ms2)) -> inv (Sys (crash s m) (ms1 ++ ms2)).
Proof using Sp.
  intros Hi. destruct (close_fd_spec s (FileLock.file (lock m))) as (? & ? & ? & ? & Hp).
  eapply inv_dropped; [done|by split_and!| |by eapply no_links_same, Hi].
  intros. unfold crash. by rewrite Hp.
Qed.

(** *** Who is alive *)

Lemma is_alive_inv s ms id b s' :
  inv (Sys s ms) -> is_alive s id root = (b, s') -> inv (Sys s' ms) /\ paths s' = paths s.
Proof using Sp.
  intros Hi Ha. pose proof (FileLock.is_locked_harmless s (node_path root id)) as Hh.
  unfold is_alive in Ha. rewrite Ha in Hh. cbn in Hh. split; [|apply Hh].
  by apply (inv_harmless s).
Qed.

Section ready.
Context {Rd : LockOsReady}.

(** A registered node is alive. *)
Lemma is_alive_registered s ms id :
  inv (Sys s ms) -> id ∈ (node_id <$> ms) -> fst (is_alive s id root) = true.
Proof using Sp Rd.
  intros Hi (m & -> & Hm)%list_elem_of_fmap.
  destruct (inv_held _ Hi m Hm) as (_ & _ & Ep & _ & i & Hp & _ & Hh). cbn in Hp, Hh.
  unfold is_alive. rewrite <- Ep.
  apply (FileLock.is_locked_spec s (FileLock.path (lock m)) i Hp); [|by eexists].
  apply open_read_ready. by eexists.
Qed.

(** Nobody holds the lock of a file whose node is not registered. *)
Lemma unregistered_free s ms id i :
  inv (Sys s ms) -> fits 128 id -> id ∉ (node_id <$> ms) ->
  paths s !! node_path root id = Some i -> holder s i = None.
Proof using Sp.
  intros Hi Hfit Hid Hp. destruct (holder s i) as [fd|] eqn:Hh; [|done]. exfalso.
  pose proof (holder_file _ _ _ Hh) as Hf.
  destruct (inv_only _ Hi i fd Hh) as (m & Hm & <-).
  destruct (inv_held _ Hi m Hm) as (Hfit' & _ & Ep & _ & j & Hj & Hfj & _). cbn in Hj, Hfj.
  assert (j = i) as -> by congruence. pose proof (inv_links _ Hi _ _ _ Hp Hj) as He.
  rewrite Ep in He. apply node_path_inj in He; [|done|done].
  apply Hid. rewrite He. apply list_elem_of_fmap. by exists m.
Qed.

(** Nor the lock of what lies at such a path and is not a file. *)
Lemma unregistered_unlocked s ms id i :
  inv (Sys s ms) -> fits 128 id -> id ∉ (node_id <$> ms) ->
  leads_to_file s (node_path root id) i -> holder s i = None.
Proof using Sp.
  intros Hi Hfit Hid [Hp|[_ Hno]]; [by eapply unregistered_free|].
  destruct (holder s i) as [fd|] eqn:Hh; [|done]. exfalso. pose proof (holder_file _ _ _ Hh) as Hf.
  destruct (inv_only _ Hi i fd Hh) as (m & Hm & <-).
  destruct (inv_held _ Hi m Hm) as (_ & _ & _ & _ & j & Hj & Hfj & _). cbn in Hj, Hfj.
  assert (j = i) as -> by congruence. by apply (Hno (FileLock.path (lock m))).
Qed.

(** *** Listing *)

Lemma parse_entries_elem l ids nm id :
  parse_entries l = Ok ids -> Ok (Some nm) ∈ l -> from_str_radix_16 128 nm = Some id -> id ∈ ids.
Proof using.
  revert ids. induction l as [|[[nm'|]|e] l IH]; intros ids; cbn; [by intros _ ?%elem_of_nil| | |done].
  - destruct (from_str_radix_16 128 nm') as [id'|] eqn:E.
    + destruct (parse_entries l) as [ids'|] eqn:El; cbn; [|done]. intros [= <-].
      intros [[= ->]|Hin]%elem_of_cons Hid;
        [assert (id = id') as -> by congruence; by left|right; eauto].
    + intros Hp [[= ->]|Hin]%elem_of_cons Hid; [congruence|eauto].
  - intros Hp [|Hin]%elem_of_cons Hid; [done|eauto].
Qed.

Lemma parse_entries_no_error l ids e : parse_entries l = Ok ids -> Err e ∉ l.
Proof using.
  revert ids. induction l as [|[[nm|]|e'] l IH]; intros ids; cbn; [by intros _ ?%elem_of_nil| | |done].
  - intros Hp [|Hin]%elem_of_cons; [done|]. destruct (from_str_radix_16 128 nm); [|by eapply IH].
    destruct (parse_entries l) as [ids'|]; [|done]. by eapply IH.
  - intros Hp [|Hin]%elem_of_cons; [done|]. by eapply IH.
Qed.

Lemma parse_entries_fits l ids id : parse_entries l = Ok ids -> id ∈ ids -> fits 128 id.
Proof using.
  revert ids. induction l as [|[[nm'|]|e] l IH]; intros ids; cbn; [by intros [= <-] ?%elem_of_nil| |eauto|done].
  destruct (from_str_radix_16 128 nm') as [id'|] eqn:E; [|eauto].
  destruct (parse_entries l) as [ids'|] eqn:El; cbn; [|done]. intros [= <-].
  intros [->|Hin]%elem_of_cons; [|eauto]. by apply from_str_radix_fits in E.
Qed.

Lemma list_nodes_fits s ids id : list_nodes s root = Ok ids -> id ∈ ids -> fits 128 id.
Proof using.
  unfold list_nodes. destruct (negb _); [by intros [= <-] ?%elem_of_nil|].
  destruct (list_dir _ _); [apply parse_entries_fits|done].
Qed.

(** Every node that has a file is listed. *)
Lemma list_nodes_elem s ids id :
  list_nodes s root = Ok ids -> fits 128 id -> is_Some (paths s !! node_path root id) -> id ∈ ids.
Proof using Sp Rd.
  intros Hl Hfit Hp. unfold list_nodes in Hl.
  rewrite (dir_ready s (nodes_dir root) _ (nodes_dir_nonempty root) (is_name_node id) Hp) in Hl. cbn in Hl.
  destruct (list_dir s (nodes_dir root)) as [es|] eqn:Ed; [|done].
  eapply parse_entries_elem; [done| |by apply from_str_radix_node].
  eapply list_dir_spec; [done| |apply is_name_node|done]. intros e. by eapply parse_entries_no_error.
Qed.

(** *** Cleaning up *)

(** What the loop removes: files of nodes that are not registered. *)
Lemma cleanup_nodes_inv s ms ids dead s' :
  Forall (fits 128) ids -> inv (Sys s ms) -> cleanup_nodes s root ids = (dead, s') ->
  inv (Sys s' ms) /\
  (forall id, id ∈ dead -> id ∈ ids /\ id ∉ (node_id <$> ms) /\ paths s' !! node_path root id = None) /\
  (forall p, (forall id, id ∈ dead -> p <> node_path root id) -> paths s' !! p = paths s !! p) /\
  (forall p, paths s !! p = None -> paths s' !! p = None).
Proof using Sp Rd.
  intros Hfit. revert s dead. induction Hfit as [|id ids Hid Hfit IH]; intros s dead Hi; cbn.
  { intros [= <- <-]. split_and!; [done|by intros ? ?%elem_of_nil|done|done]. }
  destruct (is_alive s id root) as [alive s1] eqn:Ea.
  destruct (is_alive_inv _ _ _ _ _ Hi Ea) as [Hi1 Hp1].
  assert (Hskip : forall s2, inv (Sys s2 ms) -> paths s2 = paths s -> cleanup_nodes s2 root ids = (dead, s') ->
    inv (Sys s' ms) /\
    (forall id', id' ∈ dead -> id' ∈ id :: ids /\ id' ∉ (node_id <$> ms) /\ paths s' !! node_path root id' = None) /\
    (forall p, (forall id', id' ∈ dead -> p <> node_path root id') -> paths s' !! p = paths s !! p) /\
    (forall p, paths s !! p = None -> paths s' !! p = None)).
  { intros s2 Hi2 Hp2 Hc. rewrite <- Hp2. destruct (IH _ _ Hi2 Hc) as (H1 & H2 & H3 & H4).
    split_and!; [done| |done|done]. intros id' Hd. destruct (H2 _ Hd) as (? & ? & ?).
    split_and!; [by right|done|done]. }
  destruct alive; [by apply Hskip|].
  assert (Hnot : id ∉ (node_id <$> ms)).
  { intros Hin. pose proof (is_alive_registered _ _ _ Hi Hin) as Ht. by rewrite Ea in Ht. }
  pose proof (unlink_file_spec s1 (node_path root id)) as Hu.
  destruct (unlink_file s1 (node_path root id)) as [[[]|e] s2]; [|subst s2; by apply Hskip].
  destruct Hu as (_ & Hp2 & Hf2 & Hl2).
  assert (Hi2 : inv (Sys s2 ms)).
  { apply (inv_same s1); [done| |done|by eapply no_links_delete, Hi1].
    intros m Hm Hh. destruct (inv_held _ Hi1 m Hm) as (Hfm & _ & Em & _).
    apply (holds_same s1); [done| |by apply Hf2|by intros i; rewrite Hl2].
    rewrite Hp2, Em, lookup_delete_ne; [done|]. intros He. apply node_path_inj in He; [|done|done].
    apply Hnot. rewrite He. apply list_elem_of_fmap. by exists m. }
  destruct (cleanup_nodes s2 root ids) as [dead' s3] eqn:Ec. intros [= <- <-].
  destruct (IH _ _ Hi2 Ec) as (H1 & H2 & H3 & H4). rewrite Hp1 in Hp2.
  split_and!; [done| | |].
  - intros id' [->|Hd]%elem_of_cons.
    + split_and!; [by left|done|]. apply H4. rewrite Hp2. apply lookup_delete_eq.
    + destruct (H2 _ Hd) as (? & ? & ?). split_and!; [by right|done|done].
  - intros p Hne. rewrite H3 by (intros; apply Hne; by right).
    rewrite Hp2, lookup_delete_ne; [done|]. intros He. by apply (Hne id (list_elem_of_here _ _)).
  - intros p Hn. apply H4. rewrite Hp2. by apply lookup_delete_None; right.
Qed.

Lemma cleanup_inv s ms r s' :
  inv (Sys s ms) -> cleanup_dead_nodes s root = (r, s') -> inv (Sys s' ms).
Proof using Sp Rd.
  intros Hi. unfold cleanup_dead_nodes. destruct (list_nodes s root) as [ids|e] eqn:El.
  - destruct (cleanup_nodes s root ids) as [dead s1] eqn:Ec. intros [= _ <-].
    eapply cleanup_nodes_inv; [|done|done]. apply Forall_forall. intros id. by eapply list_nodes_fits.
  - by intros [= _ <-].
Qed.

(** What it does not leave behind: the file of a node that is not registered. *)
Lemma cleanup_nodes_complete s ms ids dead s' id :
  Forall (fits 128) ids -> inv (Sys s ms) -> cleanup_nodes s root ids = (dead, s') ->
  id ∈ ids -> id ∉ (node_id <$> ms) -> paths s' !! node_path root id = None.
Proof using Sp Rd.
  intros Hfit. revert s dead. induction Hfit as [|id' ids Hid Hfit IH]; intros s dead Hi Hc Hin Hnot;
    [by apply elem_of_nil in Hin|].
  pose proof (cleanup_nodes_inv s ms (id' :: ids) dead s' (Forall_cons_2 _ _ _ Hid Hfit) Hi Hc)
    as (_ & Hdead & _ & Hnone).
  destruct (paths s !! node_path root id) as [i|] eqn:Hp; [|by apply Hnone].
  cbn in Hc. destruct (is_alive s id' root) as [alive s1] eqn:Ea.
  destruct (is_alive_inv _ _ _ _ _ Hi Ea) as [Hi1 Hp1].
  apply elem_of_cons in Hin as [->|Hin].
  - pose proof (FileLock.is_locked_free s (node_path root id')
      (fun j => unregistered_unlocked _ _ _ j Hi Hid Hnot)) as Hal.
    unfold is_alive in Ea. rewrite Ea in Hal. cbn in Hal. subst alive.
    destruct (unlink_ready s1 (node_path root id')) as [s2 E]; [by rewrite Hp1; eexists|].
    rewrite E in Hc. destruct (cleanup_nodes s2 root ids) as [dead' s3]. injection Hc as <- <-.
    apply Hdead. by left.
  - destruct alive; [by eapply IH|].
    pose proof (unlink_file_spec s1 (node_path root id')) as Hu.
    destruct (unlink_file s1 (node_path root id')) as [[[]|e] s2] eqn:Eu; [|subst s2; by eapply IH].
    assert (Hi2 : inv (Sys s2 ms)).
    { assert (Hone : cleanup_nodes s root [id'] = ([id'], s2)).
      { cbn. rewrite Ea. by rewrite Eu. }
      apply (cleanup_nodes_inv s ms [id'] [id'] s2); [by constructor|done|done]. }
    destruct (cleanup_nodes s2 root ids) as [dead' s3] eqn:Ec. injection Hc as <- <-.
    by eapply IH.
Qed.

Lemma monitor_step_inv c c' : inv c -> step root c c' -> inv c'.
Proof using Sp Rd.
  intros Hi Hs. destruct Hs.
  - by apply (register_inv s ms id r s').
  - by apply drop_inv.
  - by apply crash_inv.
  - by apply (deregister_inv s ms1 m ms2 r s').
  - by apply (is_alive_inv s ms id b s').
  - by eapply cleanup_inv.
Qed.

Definition init (c : system) : Prop :=
  monitors c = [] /\ (forall i, holder (os c) i = None) /\ no_links (os c).

Lemma inv_init c : init c -> inv c.
Proof using.
  intros (Hm & Hh & Hl). split; rewrite ?Hm; [by intros ? ?%elem_of_nil|constructor|constructor| |done].
  intros i fd. by rewrite Hh.
Qed.

Lemma monitors_inv c0 c : init c0 -> rtc (step root) c0 c -> inv c.
Proof using Sp Rd.
  intros Hi. apply (invariant_rtc (step root) init inv); [|done].
  split; [apply inv_init|intros; by eapply monitor_step_inv].
Qed.

Lemma is_alive_iff s ms id :
  inv (Sys s ms) -> fits 128 id ->
  (fst (is_alive s id root) = true <-> id ∈ (node_id <$> ms)).
Proof using Sp Rd.
  intros Hc Hfit. split; [|by apply is_alive_registered].
  intros Ha. destruct (decide (id ∈ (node_id <$> ms))) as [|Hnot]; [done|]. exfalso.
  unfold is_alive in Ha. rewrite FileLock.is_locked_free in Ha; [done|].
  intros i. by eapply unregistered_unlocked.
Qed.

(** The id of a registered node is refused. *)
Lemma register_refused s ms id :
  inv (Sys s ms) -> id ∈ (node_id <$> ms) ->
  exists e, fst (register s id root) = Err (ProcessMonitorError e).
Proof using Sp.
  intros Hc Hin. assert (Hfit : fits 128 id).
  { apply list_elem_of_fmap in Hin as (m & -> & Hm). apply (inv_held _ Hc m Hm). }
  destruct (register s id root) as [r s'] eqn:Hr.
  pose proof (register_inv _ _ _ _ _ Hfit Hc Hr) as [Hi' Hid].
  destruct r as [m|e]; [exfalso|].
  - pose proof (inv_ids _ Hi') as Hnd. cbn in Hnd. apply NoDup_cons in Hnd as [Hn _].
    by rewrite Hid in Hn.
  - unfold register in Hr. repeat case_match; simplify_eq; by eexists.
Qed.

(** After a cleanup no node that is not registered has a file. *)
Lemma cleanup_complete s ms dead s' id :
  inv (Sys s ms) -> cleanup_dead_nodes s root = (Ok dead, s') -> fits 128 id ->
  id ∉ (node_id <$> ms) -> paths s' !! node_path root id = None.
Proof using Sp Rd.
  intros Hc Hcl Hid Hnot. unfold cleanup_dead_nodes in Hcl.
  destruct (list_nodes s root) as [ids|] eqn:El; [|done].
  destruct (cleanup_nodes s root ids) as [dead' s1] eqn:Ec. injection Hcl as -> ->.
  assert (Hfit : Forall (fits 128) ids).
  { apply Forall_forall. intros x. by eapply list_nodes_fits. }
  destruct (cleanup_nodes_inv s ms ids dead s' Hfit Hc Ec) as (_ & _ & _ & H4).
  destruct (paths s !! node_path root id) as [i|] eqn:Hp; [|by apply H4].
  apply (cleanup_nodes_complete s ms ids dead); [done..| |done].
  eapply list_nodes_elem; [done|done|by eexists].
Qed.
End ready.

(** C20: (process liveness, [ProcessMonitor])  Provided that no open, flock,
    unlink or stat fails for want of a resource or of a permission
    ([LockOsReady]; [monitor_open_failure] is what happens when an open does),
    and starting from files nobody has locked, after any sequence of
    registrations, drops, crashes, deregistrations, probes and cleanups by any
    number of processes: the registered nodes have distinct ids; [is_alive] is
    true exactly of the ids of registered nodes; [list_nodes], when it succeeds,
    lists every registered node; and registering the id of a registered node is
    refused. *)
Theorem monitor_liveness {Rd : LockOsReady} c0 c :
  init c0 -> rtc (step root) c0 c ->
  NoDup (node_id <$> monitors c) /\
  (forall id, fits 128 id ->
    (fst (is_alive (os c) id root) = true <-> id ∈ (node_id <$> monitors c))) /\
  (forall id ids, id ∈ (node_id <$> monitors c) -> list_nodes (os c) root = Ok ids -> id ∈ ids) /\
  (forall id, id ∈ (node_id <$> monitors c) ->
    exists e, fst (register (os c) id root) = Err (ProcessMonitorError e)).
Proof using Sp.
  intros Hi Hs. pose proof (monitors_inv _ _ Hi Hs) as Hc. destruct c as [s ms]. cbn.
  clear c0 Hi Hs. split; [apply Hc|split; [|split]].
  - intros id Hfit. by apply is_alive_iff.
  - intros id ids (m & -> & Hm)%list_elem_of_fmap Hl.
    destruct (inv_held _ Hc m Hm) as (Hfit & _ & Ep & _ & i & Hp & _). cbn in Hp.
    eapply list_nodes_elem; [done|done|]. rewrite <- Ep. by eexists.
  - intros id. by eapply register_refused.
Qed.

(** C32: (garbage collection, [cleanup_dead_nodes])  Provided that no open,
    flock, unlink or stat fails for want of a resource or of a permission
    ([LockOsReady]; otherwise see [monitor_open_failure]): in a reachable state a
    cleanup reports only ids of nodes that are not registered, and their files
    are gone; it removes no other file; afterwards no node that was listed and
    is not registered has a file; and the registered nodes still hold their
    locks. *)
Theorem monitor_cleanup {Rd : LockOsReady} c0 c dead s' :
  init c0 -> rtc (step root) c0 c -> cleanup_dead_nodes (os c) root = (Ok dead, s') ->
  (forall id, id ∈ dead -> id ∉ (node_id <$> monitors c) /\ paths s' !! node_path root id = None) /\
  (forall p, (forall id, id ∈ dead -> p <> node_path root id) -> paths s' !! p = paths (os c) !! p) /\
  (forall id, fits 128 id -> id ∉ (node_id <$> monitors c) -> paths s' !! node_path root id = None) /\
  (forall m, m ∈ monitors c -> FileLock.holds s' (lock m)).
Proof using Sp.
  intros Hi Hs Hcl. pose proof (monitors_inv _ _ Hi Hs) as Hc. destruct c as [s ms]. cbn in *.
  pose proof Hcl as Hinv. apply (cleanup_inv s ms) in Hinv; [|done]. pose proof Hcl as Hcl0.
  unfold cleanup_dead_nodes in Hcl. destruct (list_nodes s root) as [ids|] eqn:El; [|done].
  destruct (cleanup_nodes s root ids) as [dead' s1] eqn:Ec. injection Hcl as -> ->.
  assert (Hfit : Forall (fits 128) ids).
  { apply Forall_forall. intros id. by eapply list_nodes_fits. }
  destruct (cleanup_nodes_inv s ms ids dead s' Hfit Hc Ec) as (_ & H2 & H3 & H4).
  split_and!; [|done| |].
  - intros id Hd. destruct (H2 _ Hd) as (_ & ? & ?). done.
  - intros id Hid Hnot. by eapply (cleanup_complete s ms dead).
  - intros m Hm. apply (inv_held _ Hinv m Hm).
Qed.

(** *** When a call fails *)

(** A cleanup makes no file and takes no lock, whatever fails. *)
Lemma cleanup_nodes_harmless s ids dead s' :
  cleanup_nodes s root ids = (dead, s') ->
  same_locks s s' /\ forall p, paths s !! p = None -> paths s' !! p = None.
Proof using Sp.
  revert s dead. induction ids as [|id ids IH]; intros s dead; cbn; [by intros [= _ <-]|].
  pose proof (FileLock.is_locked_harmless s (node_path root id)) as (Hp & Hl & _).
  unfold is_alive. destruct (FileLock.is_locked s (node_path root id)) as [alive s1]. cbn in Hp, Hl.
  assert (Hskip : forall s2, same_locks s1 s2 -> (forall p, paths s1 !! p = None -> paths s2 !! p = None) ->
    forall d, cleanup_nodes s2 root ids = (d, s') ->
    same_locks s s' /\ forall p, paths s !! p = None -> paths s' !! p = None).
  { intros s2 Hl2 Hp2 d Hc. destruct (IH _ _ Hc) as [H1 H2]. split.
    - intros i. by rewrite H1, Hl2, Hl.
    - intros p Hn. apply H2, Hp2. by rewrite Hp. }
  destruct alive; [by apply Hskip|].
  pose proof (unlink_file_spec s1 (node_path root id)) as Hu.
  destruct (unlink_file s1 (node_path root id)) as [[[]|e] s2]; [|subst s2; by apply Hskip].
  destruct Hu as (_ & Hp2 & _ & Hl2).
  destruct (cleanup_nodes s2 root ids) as [d s3] eqn:Ec. intros [= _ <-]. eapply Hskip; [done| |done].
  intros p Hn. rewrite Hp2. by apply lookup_delete_None; right.
Qed.

(** (The open that fails, [FileLock::is_locked] and [cleanup_dead_nodes])
    Without [LockOsReady]: when a probe cannot open the file of a registered
    node, for want of a descriptor or of a permission, [is_alive] answers that
    the node is dead; a cleanup that looks at it first and can unlink the file
    removes it and reports the node as dead, while the node keeps its lock, on a
    file without a path. *)
Theorem monitor_open_failure s m e s1 ids :
  FileLock.holds s (lock m) -> FileLock.path (lock m) = node_path root (node_id m) ->
  open_read s (node_path root (node_id m)) = (Err e, s1) ->
  is_alive s (node_id m) root = (false, s) /\
  (list_nodes s root = Ok (node_id m :: ids) ->
   (exists s2, unlink_file s (node_path root (node_id m)) = (Ok tt, s2)) ->
   exists dead s', cleanup_dead_nodes s root = (Ok (node_id m :: dead), s') /\
     paths s' !! node_path root (node_id m) = None /\
     exists i, holder s' i = Some (FileLock.file (lock m))).
Proof using Sp.
  intros (_ & i & _ & _ & Hh) Hpath Ho.
  pose proof (FileLock.is_locked_cannot_open _ _ _ _ Ho) as Ha. split; [done|].
  intros Hl (s2 & Hu). unfold cleanup_dead_nodes. rewrite Hl. cbn. unfold is_alive. rewrite Ha, Hu.
  pose proof (unlink_file_spec s (node_path root (node_id m))) as Hus. rewrite Hu in Hus.
  destruct Hus as (_ & Hp2 & _ & Hl2).
  destruct (cleanup_nodes s2 root ids) as [dead s'] eqn:Ec. exists dead, s'. split; [done|].
  destruct (cleanup_nodes_harmless _ _ _ _ Ec) as [Hl3 Hp3]. split.
  - apply Hp3. rewrite Hp2. apply lookup_delete_eq.
  - exists i. by rewrite Hl3, Hl2.
Qed.

End facts.
(** ** On the example system *)
Section examples.
#[local] Existing Instances ToyLocks.toy_locks ToyLocks.toy_lock_view.
Import ToyLocks.

Definition no_files : @Lk toy_locks := no_locks.
Definition example_start : system := Sys no_files [].

Lemma example_init : init example_start.
Proof. split; [done|]. split; [done|]. intros p q i Hp.
  change ((∅ : gmap string Z) !! p = Some i) in Hp. by rewrite lookup_empty in Hp.
Qed.

(** Node 42 registers. *)
Definition example_registered : system :=
  match register no_files 42 "/tmp/entangle" with
  | (r, s) => Sys s (match r with Ok m => [m] | Err _ => [] end)
  end.

Lemma example_step : rtc (step "/tmp/entangle") example_start example_registered.
Proof. apply rtc_once. by eapply (step_register _ no_files [] 42). Qed.

Lemma monitor_liveness_witness :
  (node_id <$> monitors example_registered) = [42] /\
  fst (is_alive (os example_registered) 42 "/tmp/entangle") = true /\
  fst (is_alive (os example_registered) 7 "/tmp/entangle") = false /\
  exists e, fst (register (os example_registered) 42 "/tmp/entangle") = Err (ProcessMonitorError e).
Proof.
  destruct (monitor_liveness "/tmp/entangle" example_start example_registered example_init example_step)
    as (_ & Ha & _ & Hr).
  split; [vm_compute; reflexivity|]. split; [|split].
  - apply (Ha 42); [vm_compute; intuition congruence|]. vm_compute. constructor.
  - vm_compute. reflexivity.
  - apply (Hr 42). vm_compute. constructor.
Defined.

(** Node 42 crashes: the next cleanup removes its file. *)
Definition example_crashed : system :=
  Sys (match monitors example_registered with
       | m :: _ => crash (os example_registered) m
       | [] => os example_registered
       end) [].

Lemma example_crash_step : rtc (step "/tmp/entangle") example_start example_crashed.
Proof.
  eapply rtc_r; [apply example_step|]. exact (step_crash _ (os example_registered) [] _ []).
Qed.

Lemma monitor_cleanup_witness :
  exists s', cleanup_dead_nodes (os example_crashed) "/tmp/entangle" = (Ok [42], s') /\
    is_Some (paths (os example_crashed) !! node_path "/tmp/entangle" 42) /\
    paths s' !! node_path "/tmp/entangle" 42 = None.
Proof.
  destruct (cleanup_dead_nodes (os example_crashed) "/tmp/entangle") as [r s'] eqn:E.
  assert (Er : r = Ok [42]) by (apply (f_equal fst) in E; vm_compute in E; congruence). subst r.
  exists s'. split; [reflexivity|]. split; [vm_compute; eauto|].
  destruct (monitor_cleanup "/tmp/entangle" example_start example_crashed [42] s' example_init
            example_crash_step E) as (Hd & _).
  apply (Hd 42). apply list_elem_of_here.
Defined.

(** The same node in a process that may open only one more file. *)
Section one_descriptor.
#[local] Instance one_locks : LockOs := limited_locks (Some 1%nat).
#[local] Instance one_view : LockView := limited_view (Some 1%nat).
#[local] Instance one_spec : LockOsSpec := limited_spec (Some 1%nat).

Definition one_registered : result (@ProcessMonitor one_locks) PlatformError * @Lk one_locks :=
  @register one_locks (no_locks : @Lk one_locks) 42 "/tmp/entangle".

Definition one_monitor : @ProcessMonitor one_locks :=
  match fst one_registered with Ok m => m | Err _ => ProcessMonitor.mk (FileLock.mk 0 "" false) 0 "" end.
Definition one_state : @Lk one_locks := snd one_registered.

Lemma one_holds : FileLock.holds one_state (lock one_monitor).
Proof.
  split; [vm_compute; reflexivity|]. exists (fresh_file no_locks). split; [vm_compute; reflexivity|].
  split; vm_compute; reflexivity.
Qed.

Lemma monitor_open_failure_witness :
  fst one_registered = Ok one_monitor /\ FileLock.holds one_state (lock one_monitor) /\
  is_alive one_state 42 "/tmp/entangle" = (false, one_state) /\
  exists dead s', cleanup_dead_nodes one_state "/tmp/entangle" = (Ok (42 :: dead), s') /\
    paths s' !! node_path "/tmp/entangle" 42 = None.
Proof.
  split; [vm_compute; reflexivity|]. split; [apply one_holds|].
  destruct (monitor_open_failure "/tmp/entangle" one_state one_monitor "EMFILE" one_state []) as [Ha Hc].
  - apply one_holds.
  - vm_compute. reflexivity.
  - vm_compute. reflexivity.
  - split; [exact Ha|]. destruct Hc as (dead & s' & Hc & Hp & _).
    + vm_compute. reflexivity.
    + eexists. apply pair_fst. vm_compute. reflexivity.
    + exists dead, s'. split; [exact Hc|exact Hp].
Defined.
End one_descriptor.

(** ([register] against [cleanup_dead_nodes])  When another process cleans up
    between the moment [register] opens the file of node 42, left by a node that
    died, and the moment it locks it, the registration succeeds with a lock on a
    file that has no path: [register]'s caller believes it is registered, but
    nobody sees it alive and it is not listed, and another node can register
    under the same id. *)
Theorem register_cleanup_race :
  let root := "/tmp/entangle"%string in
  let p := node_path root 42 in
  exists fd s1 dead s2 l s3,
    FileLock.acquire_open (os example_crashed) p = (Ok fd, s1) /\
    cleanup_dead_nodes s1 root = (Ok dead, s2) /\ dead = [42] /\
    FileLock.acquire_lock s2 p fd = (Ok l, s3) /\ FileLock.locked l = true /\
    fst (is_alive s3 42 root) = false /\ list_nodes s3 root = Ok [] /\
    exists m, fst (register s3 42 root) = Ok m.
Proof.
  cbn zeta. set (root := "/tmp/entangle"%string). set (p := node_path root 42).
  set (o := FileLock.acquire_open (os example_crashed) p).
  set (c := cleanup_dead_nodes (snd o) root).
  set (fd := match fst o with Ok fd => fd | Err _ => 0 end).
  set (a := FileLock.acquire_lock (snd c) p fd).
  assert (Hl : match fst a with Ok l => FileLock.locked l | Err _ => false end = true)
    by (vm_compute; reflexivity).
  destruct (fst a) as [l|] eqn:Ea; [|done].
  exists fd, (snd o), [42], (snd c), l, (snd a).
  split; [apply pair_fst; vm_compute; reflexivity|].
  split; [apply pair_fst; vm_compute; reflexivity|]. split; [reflexivity|].
  split; [by apply pair_fst|]. split; [exact Hl|].
  split; [vm_compute; reflexivity|]. split; [vm_compute; reflexivity|].
  assert (Hok : match fst (register (snd a) 42 root) with Ok _ => true | Err _ => false end = true)
    by (vm_compute; reflexivity).
  destruct (fst (register (snd a) 42 root)) as [m|]; [by exists m|done].
Qed.
End examples.
End ProcessMonitor.
