(* ===== verification/Event.v ===== *)
(** * EventNotification (crates/entangle-platform/src/event.rs)

    The descriptors of a process, the objects behind them (an eventfd counter
    or a pipe) and the system calls on them are the class [EventOs]; its laws
    are those of eventfd(2), pipe(2), read(2), write(2), fcntl(2) and poll(2).
    A system call either returns or blocks.  Two builds of the code are
    modelled: Linux with an eventfd, the other systems with a pipe. *)
From S2P Require Import Prelude Shm.
#[local] Open Scope Z_scope.
#[local] Open Scope rust_scope.

(** The object behind a descriptor: what it is and what was written and not
    yet read. *)
Inductive channel_kind := Counter | Pipe.

#[global] Instance channel_kind_eq_dec : EqDecision channel_kind.
Proof. solve_decision. Defined.

Record channel := Channel { kind : channel_kind; pending : Z }.

(** A read empties a counter and takes one byte from a pipe. *)
Definition consume (c : channel) : channel :=
  match kind c with
  | Counter => Channel Counter 0
  | Pipe => Channel Pipe (pending c - 1)
  end.

Definition put (c : channel) : channel := Channel (kind c) (pending c + 1).

(** The number of bytes of one read or write. *)
Definition unit_size (k : channel_kind) : Z := match k with Counter => 8 | Pipe => 1 end.

(** An open file description: its object and its [O_NONBLOCK] flag. *)
Record desc := Desc { object : Z; nonblock : bool }.

Record os_error := OsError { would_block : bool; message : string }.

(** What a call does: it returns, or it waits in the kernel for as long as
    the state stays as it is. *)
Inductive sys (A : Type) := Returns (a : A) | Blocks.
Arguments Returns {A} a.
Arguments Blocks {A}.

Definition sys_bind {A B} (m : sys A) (k : A -> sys B) : sys B :=
  match m with Returns a => k a | Blocks => Blocks end.

Notation "'let*' x ':=' m 'in' k" := (sys_bind m (fun x => k))
  (at level 10, x pattern, m at level 100, k at level 200) : rust_scope.

Class EventOs := {
  Ev : Type;
  (** libc's constant. *)
  O_NONBLOCK : Z;
  POLLIN : Z;
  eventfd : Ev -> Z * Ev;
  (** The return value and the two descriptors. *)
  pipe : Ev -> Z * (Z * Z) * Ev;
  read : Ev -> Z -> Z -> sys (Z * Ev);
  write : Ev -> Z -> Z -> sys (Z * Ev);
  fcntl_getfl : Ev -> Z -> Z * Ev;
  fcntl_setfl : Ev -> Z -> Z -> Z * Ev;
  close : Ev -> Z -> Ev;
  (** The descriptors, the events asked for and the timeout; the return value
      and the [revents] fields. *)
  poll : Ev -> list (Z * Z) -> Z -> sys (Z * list Z * Ev);
  last_os_error : Ev -> os_error;
}.

(** The descriptors and the objects, as the program can observe them. *)
Class EventView `{EventOs} := {
  descs : Ev -> gmap Z desc;
  channels : Ev -> gmap Z channel;
  (** How much an object holds at most. *)
  limit : channel_kind -> Z;
}.

Section view.
Context `{EventView}.

Definition same_view (s s' : Ev) : Prop := descs s' = descs s /\ channels s' = channels s.

(** Descriptor [fd] is open on object [o] with the flag [nb]. *)
Definition open_on (s : Ev) (fd o : Z) (nb : bool) : Prop := descs s !! fd = Some (Desc o nb).

(** There is something to read at [fd]. *)
Definition readable (s : Ev) (fd : Z) : bool :=
  match descs s !! fd with
  | Some d => match channels s !! object d with Some c => 0 <? pending c | None => false end
  | None => false
  end.

(** Object [o] is new: no descriptor leads to it. *)
Definition fresh_object (s : Ev) (o : Z) : Prop :=
  channels s !! o = None /\ forall fd nb, ~ open_on s fd o nb.
End view.

(** The numbered laws.  A call that fails for another reason than the ones
    named (a signal, a limit) changes nothing but [errno]. *)
Class EventOsSpec `{EventView} := {
  nonblock_bit : exists b, 0 <= b /\ O_NONBLOCK = 2 ^ b;
  pollin_bit : exists b, 0 <= b /\ POLLIN = 2 ^ b;
  limit_pos k : 0 < limit k;
  eventfd_spec s : let '(fd, s') := eventfd s in
    (0 <= fd /\ descs s !! fd = None /\ exists o, fresh_object s o /\
       descs s' = <[fd := Desc o false]> (descs s) /\
       channels s' = <[o := Channel Counter 0]> (channels s)) \/
    (fd < 0 /\ same_view s s');
  pipe_spec s : let '(ret, (r, w), s') := pipe s in
    (ret = 0 /\ r <> w /\ descs s !! r = None /\ descs s !! w = None /\
     exists o, fresh_object s o /\
       descs s' = <[r := Desc o false]> (<[w := Desc o false]> (descs s)) /\
       channels s' = <[o := Channel Pipe 0]> (channels s)) \/
    (ret <> 0 /\ same_view s s');
  read_spec s fd o nb c :
    open_on s fd o nb -> channels s !! o = Some c -> 0 <= pending c <= limit (kind c) ->
    match read s fd (unit_size (kind c)) with
    | Returns (ret, s') =>
        (0 < pending c /\ ret = unit_size (kind c) /\ descs s' = descs s /\
         channels s' = <[o := consume c]> (channels s)) \/
        (ret = -1 /\ same_view s s' /\
         (would_block (last_os_error s') = true <-> pending c = 0 /\ nb = true))
    | Blocks => pending c = 0 /\ nb = false
    end;
  write_spec s fd o nb c :
    open_on s fd o nb -> channels s !! o = Some c -> 0 <= pending c <= limit (kind c) ->
    match write s fd (unit_size (kind c)) with
    | Returns (ret, s') =>
        (pending c < limit (kind c) /\ ret = unit_size (kind c) /\ descs s' = descs s /\
         channels s' = <[o := put c]> (channels s)) \/
        (ret = -1 /\ same_view s s')
    | Blocks => pending c = limit (kind c) /\ nb = false
    end;
  getfl_spec s fd o nb :
    open_on s fd o nb -> let '(flags, s') := fcntl_getfl s fd in
    same_view s s' /\
    (0 <= flags -> last_os_error s' = last_os_error s);
  setfl_spec s fd o nb flags :
    open_on s fd o nb -> 0 <= flags -> let '(ret, s') := fcntl_setfl s fd flags in
    (0 <= ret /\ last_os_error s' = last_os_error s /\ channels s' = channels s /\
     descs s' = <[fd := Desc o (negb (Z.land flags O_NONBLOCK =? 0))]> (descs s)) \/
    (ret < 0 /\ same_view s s');
  close_spec s fd : descs (close s fd) = delete fd (descs s) /\ channels (close s fd) = channels s;
  (** No descriptor is ready in the outcomes that report none. *)
  poll_spec s (fds : list (Z * Z)) timeout :
    Forall (fun fe => snd fe = POLLIN) fds ->
    match poll s fds timeout with
    | Returns (ret, revents, s') => same_view s s' /\ length revents = length fds /\
        (0 < ret -> forall i fd rv, fst <$> fds !! i = Some fd -> revents !! i = Some rv ->
           (Z.land rv POLLIN <> 0 <-> readable s fd = true)) /\
        (ret = 0 -> 0 <= timeout /\ forall fd e, (fd, e) ∈ fds -> readable s fd = false)
    | Blocks => timeout < 0 /\ forall fd e, (fd, e) ∈ fds -> readable s fd = false
    end;
}.

(** Calls that could be served are: no signal interrupts them, no limit is hit. *)
Class EventOsReady `{EventView} := {
  read_ready s fd o nb c : open_on s fd o nb -> channels s !! o = Some c ->
    match read s fd (unit_size (kind c)) with
    | Returns (ret, _) => 0 < pending c -> ret = unit_size (kind c)
    | Blocks => True
    end;
  read_waits s fd o c : open_on s fd o false -> channels s !! o = Some c -> pending c = 0 ->
    read s fd (unit_size (kind c)) = Blocks;
  write_ready s fd o nb c : open_on s fd o nb -> channels s !! o = Some c ->
    pending c < limit (kind c) ->
    exists s', write s fd (unit_size (kind c)) = Returns (unit_size (kind c), s');
  write_waits s fd o c : open_on s fd o false -> channels s !! o = Some c ->
    pending c = limit (kind c) -> write s fd (unit_size (kind c)) = Blocks;
  getfl_ready s fd o nb : open_on s fd o nb -> 0 <= fst (fcntl_getfl s fd);
  setfl_ready s fd o nb flags : open_on s fd o nb -> 0 <= flags ->
    0 <= fst (fcntl_setfl s fd flags);
  poll_ready s fds timeout : Forall (fun fe => snd fe = POLLIN) fds ->
    match poll s fds timeout with
    | Returns (ret, _, _) => (exists fd e, (fd, e) ∈ fds /\ readable s fd = true) -> 0 < ret
    | Blocks => True
    end;
}.

Module EventNotification.

(** [pub struct EventNotification]: one field on Linux, two elsewhere. *)
Inductive EventNotification :=
| Linux (fd : Z)
| Other (read_fd write_fd : Z).

Definition read_raw_fd (e : EventNotification) : Z :=
  match e with Linux fd => fd | Other read_fd _ => read_fd end.

Section operations.
Context {E : EventOs}.

Definition err (what : string) (s : Ev) : PlatformError :=
  EventError (what ++ message (last_os_error s)).

Definition new_eventfd (s : Ev) : result EventNotification PlatformError * Ev :=
  let '(fd, s) := eventfd s in
  if fd <? 0 then (Err (err "eventfd creation failed: " s), s) else (Ok (Linux fd), s).

Definition new_pipe (s : Ev) : result EventNotification PlatformError * Ev :=
  let '(ret, (fd0, fd1), s) := pipe s in
  if negb (ret =? 0) then (Err (err "pipe creation failed: " s), s) else (Ok (Other fd0 fd1), s).

(** [linux] is [cfg(target_os = "linux")]. *)
Definition new (linux : bool) (s : Ev) : result EventNotification PlatformError * Ev :=
  if linux then new_eventfd s else new_pipe s.

Definition notify (s : Ev) (e : EventNotification) : sys (result unit PlatformError * Ev) :=
  match e with
  | Linux fd =>
      let* (ret, s) := write s fd 8 in
      if negb (ret =? 8) then Returns (Err (err "eventfd write failed: " s), s)
      else Returns (Ok tt, s)
  | Other _ write_fd =>
      let* (ret, s) := write s write_fd 1 in
      if negb (ret =? 1) then Returns (Err (err "pipe write failed: " s), s)
      else Returns (Ok tt, s)
  end.

Definition wait (s : Ev) (e : EventNotification) : sys (result unit PlatformError * Ev) :=
  match e with
  | Linux fd =>
      let* (ret, s) := read s fd 8 in
      if negb (ret =? 8) then Returns (Err (err "eventfd read failed: " s), s)
      else Returns (Ok tt, s)
  | Other read_fd _ =>
      let* (ret, s) := read s read_fd 1 in
      if negb (ret =? 1) then Returns (Err (err "pipe read failed: " s), s)
      else Returns (Ok tt, s)
  end.

Definition set_nonblocking (s : Ev) (fd : Z) (nonblocking : bool) : result unit PlatformError * Ev :=
  let '(flags, s) := fcntl_getfl s fd in
  if flags <? 0 then (Err (err "fcntl F_GETFL failed: " s), s)
  else
    let new_flags :=
      if nonblocking then Z.lor flags O_NONBLOCK else Z.land flags (Z.lnot O_NONBLOCK) in
    let '(ret, s) := fcntl_setfl s fd new_flags in
    if ret <? 0 then (Err (err "fcntl F_SETFL failed: " s), s) else (Ok tt, s).

(** What [try_wait] does after its [wait], whose result is [result]: the flag is
    restored, and [errno] is read again. *)
Definition try_wait_end (s : Ev) (read_fd : Z) (result : result unit PlatformError)
    : Prelude.result bool PlatformError * Ev :=
  match set_nonblocking s read_fd false with
  | (Err e, s) => (Err e, s)
  | (Ok _, s) =>
      match result with
      | Ok _ => (Ok true, s)
      | Err (EventError _) =>
          if would_block (last_os_error s) then (Ok false, s)
          else (Err (err "try_wait failed: " s), s)
      | Err e => (Err e, s)
      end
  end.

Definition try_wait (s : Ev) (e : EventNotification) : sys (result bool PlatformError * Ev) :=
  let read_fd := read_raw_fd e in
  match set_nonblocking s read_fd true with
  | (Err e, s) => Returns (Err e, s)
  | (Ok _, s) =>
      let* (result, s) := wait s e in
      Returns (try_wait_end s read_fd result)
  end.

(** The [OwnedFd]s are closed. *)
Definition drop (s : Ev) (e : EventNotification) : Ev :=
  match e with
  | Linux fd => close s fd
  | Other read_fd write_fd => close (close s read_fd) write_fd
  end.
End operations.
(** ** What each operation does to its object *)
Section facts.
Context {E : EventOs} {V : EventView} {Sp : EventOsSpec}.

Definition write_raw_fd (e : EventNotification) : Z :=
  match e with Linux fd => fd | Other _ write_fd => write_fd end.

Definition kind_of (e : EventNotification) : channel_kind :=
  match e with Linux _ => Counter | Other _ _ => Pipe end.

(** The descriptors of [e] are open, in blocking mode, on an object [o] that
    holds [c], within its limit. *)
Definition live (s : Ev) (e : EventNotification) (o : Z) (c : channel) : Prop :=
  open_on s (read_raw_fd e) o false /\ open_on s (write_raw_fd e) o false /\
  channels s !! o = Some c /\ kind c = kind_of e /\ 0 <= pending c <= limit (kind c).

(** The object of [e] is the only thing that changed. *)
Definition only (s s' : Ev) (o : Z) (c : channel) : Prop :=
  descs s' = descs s /\ channels s' = <[o := c]> (channels s).

Lemma live_only s s' e o c c' :
  live s e o c -> only s s' o c' -> kind c' = kind c -> 0 <= pending c' <= limit (kind c') ->
  live s' e o c'.
Proof.
  intros (Hr & Hw & Hc & Hk & Hp) [Hd Hch] Hk' Hp'. unfold live, open_on. rewrite Hd, Hch.
  split_and!; try done; try lia; [apply lookup_insert_eq|congruence].
Qed.

Lemma same_view_only s s' o c : same_view s s' -> channels s !! o = Some c -> only s s' o c.
Proof. intros [Hd Hc] Ho. split; [done|]. by rewrite Hc, insert_id. Qed.

Lemma new_spec linux s :
  match new linux s with
  | (Ok e, s') => exists o, fresh_object s o /\ live s' e o (Channel (kind_of e) 0) /\
      kind_of e = (if linux then Counter else Pipe) /\
      (forall fd d, descs s !! fd = Some d -> descs s' !! fd = Some d) /\
      channels s' = <[o := Channel (kind_of e) 0]> (channels s)
  | (Err e, s') => same_view s s' /\ exists r, e = EventError r
  end.
Proof.
  assert (Hpos : forall k, 0 <= limit k) by (intros k; pose proof (limit_pos k); lia).
  unfold new, new_eventfd, new_pipe. destruct linux.
  - pose proof (eventfd_spec s) as He. destruct (eventfd s) as [fd s'].
    destruct He as [(Hfd & Hnone & o & Ho & Hd & Hc)|[Hfd Hv]].
    + rewrite (proj2 (Z.ltb_ge _ _)) by done. exists o. split; [done|]. split; [|split; [done|split]].
      * unfold live, open_on. cbn. rewrite Hd, Hc, !lookup_insert_eq. split_and!; done.
      * intros fd' d Hfd'. rewrite Hd, lookup_insert_ne; [done|congruence].
      * done.
    + rewrite (proj2 (Z.ltb_lt _ _)) by done. split; [done|]. by eexists.
  - pose proof (pipe_spec s) as He. destruct (pipe s) as [[ret [r w]] s'].
    destruct He as [(-> & Hne & Hr & Hw & o & Ho & Hd & Hc)|[Hret Hv]]; cbn [negb Z.eqb].
    + exists o. split; [done|]. split; [|split; [done|split]].
      * unfold live, open_on. cbn. rewrite Hd, Hc, !lookup_insert_eq, lookup_insert_ne,
          lookup_insert_eq by done. split_and!; done.
      * intros fd d Hfd. rewrite Hd, !lookup_insert_ne; [done|congruence..].
      * done.
    + rewrite (proj2 (Z.eqb_neq _ _)) by done. split; [done|]. by eexists.
Qed.

Lemma notify_spec s e o c :
  live s e o c ->
  match notify s e with
  | Returns (Ok _, s') => pending c < limit (kind c) /\ only s s' o (put c)
  | Returns (Err er, s') => same_view s s' /\ exists r, er = EventError r
  | Blocks => pending c = limit (kind c)
  end.
Proof.
  intros (_ & Hw & Hc & Hk & Hp). pose proof (write_spec s _ o false c Hw Hc Hp) as Hs.
  destruct e as [fd|rfd wfd]; cbn in *; rewrite Hk in Hs; cbn in Hs;
    (destruct (write _ _ _) as [[ret s']|]; cbn; [|rewrite Hk; apply Hs]);
    destruct Hs as [(? & -> & ? & ?)|(-> & ?)]; cbn; rewrite ?Hk; eauto; by split.
Qed.

Lemma wait_spec s e o nb c :
  open_on s (read_raw_fd e) o nb -> channels s !! o = Some c -> kind c = kind_of e ->
  0 <= pending c <= limit (kind c) ->
  match wait s e with
  | Returns (Ok _, s') => 0 < pending c /\ only s s' o (consume c)
  | Returns (Err er, s') => same_view s s' /\ (exists r, er = EventError r) /\
      (would_block (last_os_error s') = true <-> pending c = 0 /\ nb = true)
  | Blocks => pending c = 0 /\ nb = false
  end.
Proof.
  intros Hr Hc Hk Hp. pose proof (read_spec s _ o nb c Hr Hc Hp) as Hs.
  destruct e as [fd|rfd wfd]; cbn in *; rewrite Hk in Hs; cbn in Hs;
    (destruct (read _ _ _) as [[ret s']|]; cbn; [|done]);
    destruct Hs as [(? & -> & ? & ?)|(-> & ? & ?)]; cbn; eauto; by split.
Qed.

(** The flag that [set_nonblocking] asks for is the one that is set. *)
Lemma nonblock_flag flags b :
  0 <= flags ->
  let f := if b : bool then Z.lor flags O_NONBLOCK else Z.land flags (Z.lnot O_NONBLOCK) in
  0 <= f /\ negb (Z.land f O_NONBLOCK =? 0) = b.
Proof.
  intros Hf. destruct nonblock_bit as (n & Hn & ->).
  assert (Hpos : 0 < 2 ^ n) by (apply Z.pow_pos_nonneg; lia).
  destruct b; cbn zeta.
  - split; [apply Z.lor_nonneg; lia|]. apply negb_true_iff, Z.eqb_neq. intros H0.
    apply (f_equal (fun z => Z.testbit z n)) in H0.
    rewrite Z.land_spec, Z.lor_spec, Z.pow2_bits_true, Z.bits_0, orb_true_r in H0 by done. done.
  - split; [apply Z.land_nonneg; lia|]. apply negb_false_iff, Z.eqb_eq.
    rewrite <- Z.land_assoc, (Z.land_comm (Z.lnot _)), Z.land_lnot_diag. apply Z.land_0_r.
Qed.

Lemma set_nonblocking_spec s fd o nb b :
  open_on s fd o nb ->
  match set_nonblocking s fd b with
  | (Ok _, s') => descs s' = <[fd := Desc o b]> (descs s) /\ channels s' = channels s /\
      last_os_error s' = last_os_error s
  | (Err er, s') => same_view s s' /\ exists r, er = EventError r
  end.
Proof.
  intros Ho. unfold set_nonblocking. pose proof (getfl_spec s fd o nb Ho) as Hg.
  destruct (fcntl_getfl s fd) as [flags s1]. destruct Hg as [[Hd1 Hc1] He1].
  destruct (flags <? 0) eqn:El; zbool; [split; [done|by eexists]|].
  pose proof (nonblock_flag flags b El) as [Hf0 Hf]. set (f := if b then _ else _) in *.
  assert (Ho1 : open_on s1 fd o nb) by (unfold open_on; by rewrite Hd1).
  pose proof (setfl_spec s1 fd o nb f Ho1 Hf0) as Hs.
  destruct (fcntl_setfl s1 fd f) as [ret s2].
  destruct Hs as [(Hret & He2 & Hc2 & Hd2)|[Hret [Hd2 Hc2]]].
  - rewrite (proj2 (Z.ltb_ge _ _)) by done. rewrite Hf in Hd2.
    split_and!; [by rewrite Hd2, Hd1|by rewrite Hc2|by rewrite He2, He1].
  - rewrite (proj2 (Z.ltb_lt _ _)) by done. split; [|by eexists]. split; congruence.
Qed.

(** On a live event [try_wait] never blocks.
    When it succeeds its answer is whether something was pending, which it then
    consumed, the event is in blocking mode again and nothing else has changed;
    when it fails, with an event error, what was pending may have been consumed
    with no one told. *)
Lemma try_wait_facts s e o c :
  live s e o c ->
  match try_wait s e with
  | Returns (Ok b, s') =>
      b = (0 <? pending c) /\ only s s' o (if b then consume c else c) /\
      exists c', live s' e o c'
  | Returns (Err er, s') => (exists r, er = EventError r) /\
      (channels s' = channels s \/ 0 < pending c /\ channels s' = <[o := consume c]> (channels s))
  | Blocks => False
  end.
Proof.
  intros Hlive. pose proof Hlive as (Hr & Hw & Hc & Hk & Hp). unfold try_wait.
  pose proof (set_nonblocking_spec s _ o false true Hr) as H1.
  destruct (set_nonblocking s (read_raw_fd e) true) as [[[]|er] s1].
  2: { destruct H1 as [[_ Hv] He]. split; [done|]. by left. }
  destruct H1 as (Hd1 & Hc1 & He1).
  assert (Hr1 : open_on s1 (read_raw_fd e) o true) by (unfold open_on; by rewrite Hd1, lookup_insert_eq).
  assert (Hch1 : channels s1 !! o = Some c) by by rewrite Hc1.
  pose proof (wait_spec s1 e o true c Hr1 Hch1 Hk Hp) as H2.
  destruct (wait s1 e) as [[r s2]|]; cbn [sys_bind]; [|by destruct H2].
  assert (Hd2 : descs s2 = descs s1).
  { destruct r; [apply H2|apply H2]. }
  assert (Hr2 : open_on s2 (read_raw_fd e) o true) by (unfold open_on; by rewrite Hd2).
  unfold try_wait_end. pose proof (set_nonblocking_spec s2 _ o true false Hr2) as H3.
  assert (Hdone : channels s2 = channels s \/
    0 < pending c /\ channels s2 = <[o := consume c]> (channels s)).
  { destruct r as [[]|er]; [right|left]; [destruct H2 as (? & _ & H2)|destruct H2 as ((_ & H2) & _)];
      rewrite H2, Hc1; done. }
  destruct (set_nonblocking s2 (read_raw_fd e) false) as [[[]|er] s3].
  2: { destruct H3 as [[_ ->] He]. split; done. }
  destruct H3 as (Hd3 & Hc3 & He3).
  assert (Hds : descs s3 = descs s).
  { rewrite Hd3, Hd2, Hd1, insert_insert_eq. by apply insert_id. }
  destruct r as [[]|er].
  - destruct H2 as (Hpos & _ & Hc2). rewrite (proj2 (Z.ltb_lt _ _)) by done. split; [done|].
    assert (Ho : only s s3 o (consume c)) by (split; [done|]; by rewrite Hc3, Hc2, Hc1).
    split; [done|]. exists (consume c). eapply live_only; [done|done| |].
    + unfold consume. by destruct (kind c).
    + unfold consume in *. pose proof (limit_pos (kind c)). destruct (kind c); cbn in *; lia.
  - destruct H2 as ((_ & Hc2) & (rs & ->) & Hwb). rewrite <- He3 in Hwb.
    destruct (would_block _); cbn.
    + destruct Hwb as [Hwb _]. destruct (Hwb eq_refl) as [-> _]. split; [done|].
      assert (Ho : only s s3 o c).
      { apply same_view_only; [split; [done|]; by rewrite Hc3, Hc2, Hc1|done]. }
      split; [done|]. exists c. by eapply live_only.
    + split; [by eexists|]. by rewrite Hc3.
Qed.

(** ** The abstract event *)

Inductive op := Notify | Wait | TryWait.

(** A counter of what is pending: reading it takes what a read takes. *)
Definition spec_op (c : channel) (o : op) : sys (bool * channel) :=
  match o with
  | Notify => if pending c <? limit (kind c) then Returns (true, put c) else Blocks
  | Wait => if 0 <? pending c then Returns (true, consume c) else Blocks
  | TryWait => Returns (0 <? pending c, if 0 <? pending c then consume c else c)
  end.

Fixpoint spec_run (c : channel) (ops : list op) : list bool * sys channel :=
  match ops with
  | [] => ([], Returns c)
  | o :: ops =>
      match spec_op c o with
      | Blocks => ([], Blocks)
      | Returns (b, c) => let (bs, r) := spec_run c ops in (b :: bs, r)
      end
  end.

(** The same calls on an event: the answers, and the state unless one blocks. *)
Definition exec_op (s : Ev) (e : EventNotification) (o : op)
    : sys (result bool PlatformError * Ev) :=
  match o with
  | Notify => let* (r, s) := notify s e in Returns (let? _ := r in Ok true, s)
  | Wait => let* (r, s) := wait s e in Returns (let? _ := r in Ok true, s)
  | TryWait => try_wait s e
  end.

Fixpoint run (s : Ev) (e : EventNotification) (ops : list op)
    : list (result bool PlatformError) * sys Ev :=
  match ops with
  | [] => ([], Returns s)
  | o :: ops =>
      match exec_op s e o with
      | Blocks => ([], Blocks)
      | Returns (b, s) => let (bs, r) := run s e ops in (b :: bs, r)
      end
  end.

Context {Rd : EventOsReady}.

Lemma set_nonblocking_ready s fd o nb b :
  open_on s fd o nb -> exists s', set_nonblocking s fd b = (Ok tt, s').
Proof.
  intros Ho. unfold set_nonblocking. pose proof (getfl_spec s fd o nb Ho) as Hg.
  pose proof (getfl_ready s fd o nb Ho) as Hf. destruct (fcntl_getfl s fd) as [flags s1].
  destruct Hg as [[Hd1 _] _]. cbn in Hf. rewrite (proj2 (Z.ltb_ge _ _)) by done.
  pose proof (nonblock_flag flags b Hf) as [Hf0 _]. set (f := if b then _ else _) in *.
  assert (Ho1 : open_on s1 fd o nb) by (unfold open_on; by rewrite Hd1).
  pose proof (setfl_ready s1 fd o nb f Ho1 Hf0) as Hret. destruct (fcntl_setfl s1 fd f) as [ret s2].
  cbn in Hret. rewrite (proj2 (Z.ltb_ge _ _)) by done. by exists s2.
Qed.

Lemma try_wait_ready s e o c :
  live s e o c -> exists b s', try_wait s e = Returns (Ok b, s').
Proof.
  intros (Hr & Hw & Hc & Hk & Hp). unfold try_wait.
  destruct (set_nonblocking_ready s _ o false true Hr) as [s1 E1]. rewrite E1.
  pose proof (set_nonblocking_spec s _ o false true Hr) as H1. rewrite E1 in H1.
  destruct H1 as (Hd1 & Hc1 & _).
  assert (Hr1 : open_on s1 (read_raw_fd e) o true) by (unfold open_on; by rewrite Hd1, lookup_insert_eq).
  assert (Hch1 : channels s1 !! o = Some c) by by rewrite Hc1.
  pose proof (wait_spec s1 e o true c Hr1 Hch1 Hk Hp) as H2.
  assert (Hread : 0 < pending c -> forall er s2, wait s1 e <> Returns (Err er, s2)).
  { intros Hpos er s2. pose proof (read_ready s1 _ o true c Hr1 Hch1) as Hrd. rewrite Hk in Hrd.
    destruct e; cbn in *; (destruct (read _ _ _) as [[ret s3]|]; cbn; [|done]);
      by rewrite Hrd by done. }
  destruct (wait s1 e) as [[r s2]|]; cbn [sys_bind]; [|by destruct H2].
  assert (Hr2 : open_on s2 (read_raw_fd e) o true).
  { unfold open_on. destruct r; destruct H2 as [H2a H2b]; [destruct H2b as [-> _]|destruct H2a as [-> _]]; done. }
  unfold try_wait_end. destruct (set_nonblocking_ready s2 _ o true false Hr2) as [s3 E3]. rewrite E3.
  pose proof (set_nonblocking_spec s2 _ o true false Hr2) as H3. rewrite E3 in H3.
  destruct H3 as (_ & _ & He3). destruct r as [[]|er]; [by eauto|].
  destruct H2 as (_ & (rs & ->) & Hwb). rewrite He3.
  destruct (decide (0 < pending c)) as [Hpos|Hz]; [by edestruct (Hread Hpos)|].
  rewrite (proj2 Hwb); [by eauto|]. split; [lia|done].
Qed.

(** One call: the same answer, the same object, nothing else. *)
Lemma exec_op_spec s e o c x :
  live s e o c ->
  match spec_op c x with
  | Returns (b, c') => exists s', exec_op s e x = Returns (Ok b, s') /\ only s s' o c' /\ live s' e o c'
  | Blocks => exec_op s e x = Blocks
  end.
Proof.
  intros Hl. pose proof Hl as (Hr & Hw & Hc & Hk & Hp). pose proof (limit_pos (kind c)) as Hlim.
  assert (Hsz : unit_size (kind c) = match e with Linux _ => 8 | Other _ _ => 1 end)
    by (rewrite Hk; by destruct e).
  destruct x; cbn [spec_op exec_op].
  - pose proof (notify_spec s e o c Hl) as Hn. destruct (pending c <? _) eqn:Ep; zbool.
    + destruct (write_ready s _ o false c Hw Hc Ep) as [s' Hs']. rewrite Hsz in Hs'.
      assert (Hok : notify s e = Returns (Ok tt, s')) by (destruct e; cbn in *; by rewrite Hs').
      rewrite Hok in Hn |- *. destruct Hn as [_ Ho]. exists s'. split; [done|]. split; [done|].
      eapply live_only; [done|done|done|]. cbn. lia.
    + pose proof (write_waits s _ o c Hw Hc ltac:(lia)) as Hb. rewrite Hsz in Hb.
      destruct e; cbn in *; by rewrite Hb.
  - pose proof (wait_spec s e o false c Hr Hc Hk Hp) as Hn. destruct (0 <? pending c) eqn:Ep; zbool.
    + pose proof (read_ready s _ o false c Hr Hc) as Hs'. rewrite Hsz in Hs'.
      assert (Hok : exists s', wait s e = Returns (Ok tt, s')).
      { destruct e; cbn in *; (destruct (read _ _ _) as [[ret s']|]; cbn in *;
          [rewrite Hs' by done; by exists s'|destruct Hn; lia]). }
      destruct Hok as [s' Hok]. rewrite Hok in Hn |- *. destruct Hn as [_ Ho]. exists s'.
      split; [done|]. split; [done|].
      eapply live_only; [done|done|unfold consume; by destruct (kind c)|].
      unfold consume. destruct (kind c); cbn in *; lia.
    + pose proof (read_waits s _ o c Hr Hc ltac:(lia)) as Hb. rewrite Hsz in Hb.
      destruct e; cbn in *; by rewrite Hb.
  - pose proof (try_wait_facts s e o c Hl) as Ht.
    assert (Hok : exists b s', try_wait s e = Returns (Ok b, s')).
    { apply (try_wait_ready s e o c Hl). }
    destruct Hok as (b & s' & Hok). rewrite Hok in Ht |- *. destruct Ht as (-> & Ho & _).
    exists s'. split; [done|]. split; [done|].
    destruct (0 <? pending c) eqn:Ep; zbool; [|by eapply live_only].
    eapply live_only; [done|done|unfold consume; by destruct (kind c)|].
    unfold consume. destruct (kind c); cbn in *; lia.
Qed.

(** C25: ([EventNotification])  A new event, on either kind of system, answers any
    sequence of [notify], [wait] and [try_wait] calls as a counter that starts
    at zero: a [notify] adds one and waits only when the counter is full, a
    [wait] takes what is there and waits only when nothing is, a [try_wait]
    never waits.  Where the counter does not wait, neither does the event;
    everything else in the system is left as it was.  The condition: no read,
    write or fcntl is interrupted by a signal or fails for another reason than a
    full or an empty counter ([EventOsReady]). *)
Theorem event_refines_counter linux s e s1 ops :
  new linux s = (Ok e, s1) ->
  let c0 := Channel (if linux then Counter else Pipe) 0 in
  exists o, live s1 e o c0 /\
  match spec_run c0 ops with
  | (bs, Returns c) => exists s2, run s1 e ops = (Ok <$> bs, Returns s2) /\ live s2 e o c /\ only s1 s2 o c
  | (bs, Blocks) => run s1 e ops = (Ok <$> bs, Blocks)
  end.
Proof.
  intros Hn c0. pose proof (new_spec linux s) as Hs. rewrite Hn in Hs.
  destruct Hs as (o & _ & Hl & Hk & _). rewrite Hk in Hl. fold c0 in Hl. exists o. split; [done|].
  clear Hn Hk. clearbody c0. revert s1 c0 Hl. induction ops as [|x ops IH]; intros s1 c Hl; cbn.
  { exists s1. split; [done|]. split; [done|]. apply same_view_only; [done|apply Hl]. }
  pose proof (exec_op_spec s1 e o c x Hl) as Hx. destruct (spec_op c x) as [[b c']|]; [|by rewrite Hx].
  destruct Hx as (s' & -> & [Hd Hc] & Hl'). specialize (IH s' c' Hl').
  destruct (spec_run c' ops) as [bs [cf|]]; [|by rewrite IH].
  destruct IH as (s2 & -> & Hl2 & [Hd2 Hc2]). exists s2. split; [done|]. split; [done|].
  split; [by rewrite Hd2|]. by rewrite Hc2, Hc, insert_insert_eq.
Qed.

(** (one [EventNotification] shared by two threads)  While one thread is
    inside [try_wait], the descriptor is in non-blocking mode for every thread:
    a [wait] that another thread makes then, with nothing pending, does not wait
    but fails. *)
Theorem try_wait_breaks_wait s e o c s1 :
  live s e o c -> pending c = 0 -> set_nonblocking s (read_raw_fd e) true = (Ok tt, s1) ->
  exists r s2, wait s1 e = Returns (Err (EventError r), s2) /\ same_view s1 s2.
Proof.
  intros (Hr & Hw & Hc & Hk & Hp) H0 E1.
  pose proof (set_nonblocking_spec s _ o false true Hr) as H1. rewrite E1 in H1.
  destruct H1 as (Hd1 & Hc1 & _).
  assert (Hr1 : open_on s1 (read_raw_fd e) o true) by (unfold open_on; by rewrite Hd1, lookup_insert_eq).
  pose proof (wait_spec s1 e o true c Hr1 ltac:(by rewrite Hc1) Hk Hp) as H2.
  destruct (wait s1 e) as [[[[]|er] s2]|].
  - destruct H2 as [? _]. lia.
  - destruct H2 as (Hv & (r & ->) & _). eauto.
  - by destruct H2.
Qed.
End facts.
End EventNotification.

(** ** A system with the documented behaviour *)
Module ToyEvents.

Record events := mk {
  t_descs : gmap Z desc;
  t_channels : gmap Z channel;
  t_error : os_error;
}.

Definition no_error : os_error := OsError false "ok".
Definition t_limit (k : channel_kind) : Z := match k with Counter => 2 ^ 64 - 2 | Pipe => 65536 end.

Definition fresh_fd (s : events) : Z := above (map_to_list (t_descs s)).*1.
Definition fresh_channel (s : events) : Z :=
  above ((map_to_list (t_channels s)).*1 ++ (object <$> (map_to_list (t_descs s)).*2)).

Definition add_desc (s : events) (fd o : Z) : events :=
  mk (<[fd := Desc o false]> (t_descs s)) (t_channels s) (t_error s).
Definition set_channel (s : events) (o : Z) (c : channel) : events :=
  mk (t_descs s) (<[o := c]> (t_channels s)) (t_error s).
Definition fail (s : events) (e : os_error) : events := mk (t_descs s) (t_channels s) e.

(** The descriptor, its flag and its object. *)
Definition find (s : events) (fd : Z) : option (Z * bool * channel) :=
  match t_descs s !! fd with
  | Some (Desc o nb) =>
      match t_channels s !! o with Some c => Some (o, nb, c) | None => None end
  | None => None
  end.

(** An operation that waits until [can] holds. *)
Definition transfer (can : channel -> bool) (f : channel -> channel) (s : events) (fd n : Z)
    : sys (Z * events) :=
  match find s fd with
  | None => Returns (-1, fail s (OsError false "EBADF"))
  | Some (o, nb, c) =>
      if can c then Returns (n, set_channel s o (f c))
      else if nb then Returns (-1, fail s (OsError true "EAGAIN")) else Blocks
  end.

Definition t_ready (s : events) (fd : Z) : bool :=
  match find s fd with Some (_, _, c) => 0 <? pending c | None => false end.

#[export] Instance toy_events : EventOs := {
  Ev := events;
  O_NONBLOCK := 2048;
  POLLIN := 1;
  eventfd s :=
    let fd := fresh_fd s in let o := fresh_channel s in
    (fd, set_channel (add_desc s fd o) o (Channel Counter 0));
  pipe s :=
    let w := fresh_fd s in let o := fresh_channel s in
    (0, (w + 1, w), set_channel (add_desc (add_desc s w o) (w + 1) o) o (Channel Pipe 0));
  read := transfer (fun c => 0 <? pending c) consume;
  write := transfer (fun c => pending c <? t_limit (kind c)) put;
  fcntl_getfl s fd :=
    match t_descs s !! fd with
    | Some d => (if nonblock d then 2050 else 2, s)
    | None => (-1, fail s (OsError false "EBADF"))
    end;
  fcntl_setfl s fd flags :=
    match t_descs s !! fd with
    | Some d => (0, mk (<[fd := Desc (object d) (negb (Z.land flags 2048 =? 0))]> (t_descs s))
                      (t_channels s) (t_error s))
    | None => (-1, fail s (OsError false "EBADF"))
    end;
  close s fd := mk (delete fd (t_descs s)) (t_channels s) (t_error s);
  poll s fds timeout :=
    let revents := (fun fe : Z * Z => if t_ready s (fst fe) then 1 else 0) <$> fds in
    if existsb (fun fe => t_ready s (fst fe)) fds
    then Returns (Z.of_nat (length (filter (fun r => r <> 0) revents)), revents, s)
    else if timeout <? 0 then Blocks else Returns (0, revents, s);
  last_os_error := t_error;
}.

#[export] Instance toy_event_view : EventView := {
  descs := t_descs : Ev -> gmap Z desc;
  channels := t_channels : Ev -> gmap Z channel;
  limit := t_limit;
}.

Lemma fresh_fd_ge s fd d : t_descs s !! fd = Some d -> fd < fresh_fd s.
Proof.
  intros E. apply above_fresh, list_elem_of_fmap. exists (fd, d). split; [done|].
  by apply elem_of_map_to_list.
Qed.

Lemma fresh_fd_new s n : 0 <= n -> t_descs s !! (fresh_fd s + n) = None.
Proof.
  intros Hn. destruct (t_descs s !! _) as [d|] eqn:E; [|done]. apply fresh_fd_ge in E. lia.
Qed.

Lemma fresh_channel_new s : fresh_object (s : Ev) (fresh_channel s).
Proof.
  split.
  - cbn. destruct (t_channels s !! _) as [c|] eqn:E; [|done]. exfalso.
    enough (fresh_channel s < fresh_channel s) by lia. apply above_fresh, elem_of_app. left.
    apply list_elem_of_fmap. exists (fresh_channel s, c). split; [done|]. by apply elem_of_map_to_list.
  - intros fd nb E. cbn in E. enough (fresh_channel s < fresh_channel s) by lia.
    apply above_fresh, elem_of_app. right. apply list_elem_of_fmap. eexists. split; [|].
    2: { apply list_elem_of_fmap. eexists. split; [|by apply elem_of_map_to_list]. reflexivity. }
    done.
Qed.

Lemma find_open (s : Ev) fd o nb c :
  open_on s fd o nb -> channels s !! o = Some c -> find s fd = Some (o, nb, c).
Proof. unfold open_on, find. cbn. intros -> Hc. by rewrite Hc. Qed.

Lemma t_ready_readable (s : Ev) fd : t_ready s fd = readable s fd.
Proof.
  unfold t_ready, readable, find. cbn. destruct (t_descs s !! fd) as [[o nb]|]; [|done]. cbn.
  by destruct (t_channels s !! o).
Qed.

Lemma transfer_spec (can : channel -> bool) f (s : Ev) fd o nb c n :
  open_on s fd o nb -> channels s !! o = Some c ->
  transfer can f s fd n =
    if can c then Returns (n, set_channel s o (f c))
    else if nb then Returns (-1, fail s (OsError true "EAGAIN")) else Blocks.
Proof. intros Ho Hc. unfold transfer. by rewrite (find_open s fd o nb c Ho Hc). Qed.

Lemma toy_poll (s : Ev) (fds : list (Z * Z)) timeout :
  match poll s fds timeout with
  | Returns (ret, revents, s') => s' = s /\
      revents = (fun fe : Z * Z => if readable s (fst fe) then 1 else 0) <$> fds /\
      ((exists fd e, (fd, e) ∈ fds /\ readable s fd = true) -> 0 < ret) /\
      (ret = 0 -> 0 <= timeout /\ forall fd e, (fd, e) ∈ fds -> readable s fd = false)
  | Blocks => timeout < 0 /\ forall fd e, (fd, e) ∈ fds -> readable s fd = false
  end.
Proof.
  cbn [poll toy_events].
  assert (Hrev : ((fun fe : Z * Z => if t_ready s (fst fe) then 1 else 0) <$> fds)
    = ((fun fe : Z * Z => if readable s (fst fe) then 1 else 0) <$> fds)).
  { apply list_fmap_ext. intros i fe _. by rewrite t_ready_readable. }
  destruct (existsb _ fds) eqn:Ex.
  - apply existsb_exists in Ex as ((fd & e) & Hin%list_elem_of_In & Hr). rewrite t_ready_readable in Hr. cbn in Hr.
    assert (Hpos : 0 < Z.of_nat (length (filter (fun r : Z => r <> 0)
      ((fun fe : Z * Z => if t_ready s (fst fe) then 1 else 0) <$> fds)))).
    { destruct (filter _ _) as [|x l] eqn:El; [|cbn; lia]. exfalso.
      assert (H1 : 1 ∈ filter (fun r : Z => r <> 0)
        ((fun fe : Z * Z => if t_ready s (fst fe) then 1 else 0) <$> fds)).
      { apply list_elem_of_filter. split; [done|]. apply list_elem_of_fmap.
        exists (fd, e). cbn. by rewrite t_ready_readable, Hr. }
      rewrite El in H1. by apply elem_of_nil in H1. }
    split_and!; [done|done|done|lia].
  - assert (Hno : forall fd e, (fd, e) ∈ fds -> readable s fd = false).
    { intros fd e Hin. destruct (readable s fd) eqn:Hr; [|done]. exfalso.
      rewrite <- t_ready_readable in Hr. apply not_true_iff_false in Ex. apply Ex, existsb_exists.
      exists (fd, e). split; [by apply list_elem_of_In|done]. }
    destruct (timeout <? 0) eqn:Et; zbool; [done|]. split_and!; [done|done| |done].
    intros (fd & e & Hin & Hr). by rewrite (Hno _ _ Hin) in Hr.
Qed.

#[export] Instance toy_event_spec : EventOsSpec.
Proof.
  split.
  - exists 11. split; [lia|reflexivity].
  - exists 0. split; [lia|reflexivity].
  - intros []; cbn; lia.
  - intros s. cbn. left. split; [apply above_nonneg|]. split.
    { rewrite <- (Z.add_0_r (fresh_fd s)). by apply fresh_fd_new. }
    exists (fresh_channel s). split; [apply fresh_channel_new|done].
  - intros s. cbn. left. split; [done|]. split; [lia|]. split; [by apply fresh_fd_new|]. split.
    { rewrite <- (Z.add_0_r (fresh_fd s)). by apply fresh_fd_new. }
    exists (fresh_channel s). split; [apply fresh_channel_new|done].
  - intros s fd o nb c Ho Hc Hp. cbn [read toy_events]. rewrite (transfer_spec _ _ s fd o nb c) by done.
    destruct (0 <? pending c) eqn:E; zbool; [by left|].
    assert (pending c = 0) by lia. destruct nb; [right|done]. by split_and!.
  - intros s fd o nb c Ho Hc Hp. cbn [write toy_events]. rewrite (transfer_spec _ _ s fd o nb c) by done.
    cbn [limit toy_event_view] in *.
    destruct (_ <? _) eqn:E; zbool; [by left|]. destruct nb; [by right|]. split; [lia|done].
  - intros s fd o nb Ho. unfold open_on in Ho. cbn in *. by rewrite Ho.
  - intros s fd o nb flags Ho Hf. unfold open_on in Ho. cbn in *. rewrite Ho. by left.
  - done.
  - intros s fds timeout Hall. pose proof (toy_poll s fds timeout) as Hp.
    destruct (poll s fds timeout) as [[[ret revents] s']|]; [|done].
    destruct Hp as (-> & -> & _ & H0). split; [done|]. split; [apply length_fmap|]. split; [|done].
    intros _ i fd rv Hfd. rewrite list_lookup_fmap.
    destruct (fds !! i) as [fe|]; [|done]. cbn in *. injection Hfd as ->. intros [= <-].
    by case_match.
Qed.

#[export] Instance toy_event_ready : EventOsReady.
Proof.
  split.
  - intros s fd o nb c Ho Hc. cbn [read toy_events]. rewrite (transfer_spec _ _ s fd o nb c) by done.
    destruct (0 <? pending c) eqn:E; zbool; [done|]. destruct nb; [lia|done].
  - intros s fd o c Ho Hc Hp. cbn [read toy_events]. rewrite (transfer_spec _ _ s fd o false c) by done.
    by rewrite Hp.
  - intros s fd o nb c Ho Hc Hp. cbn [write toy_events limit toy_event_view] in *.
    rewrite (transfer_spec _ _ s fd o nb c) by done. rewrite (proj2 (Z.ltb_lt _ _)) by done. eauto.
  - intros s fd o c Ho Hc Hp. cbn [write toy_events limit toy_event_view] in *.
    rewrite (transfer_spec _ _ s fd o false c) by done. by rewrite (proj2 (Z.ltb_ge _ _)) by lia.
  - intros s fd o nb Ho. unfold open_on in Ho. cbn in *. rewrite Ho. by destruct nb.
  - intros s fd o nb flags Ho Hf. unfold open_on in Ho. cbn in *. by rewrite Ho.
  - intros s fds timeout _. pose proof (toy_poll s fds timeout) as Hp.
    destruct (poll s fds timeout) as [[[ret revents] s']|]; [|done]. apply Hp.
Qed.

Definition no_events : @Ev toy_events := mk ∅ ∅ no_error.

(** A new event of the example system, on Linux and elsewhere. *)
Definition new_event (linux : bool) : EventNotification.EventNotification * Ev :=
  match EventNotification.new linux no_events with
  | (Ok e, s) => (e, s)
  | (Err _, s) => (EventNotification.Linux 0, s)
  end.

Lemma new_event_ok linux :
  EventNotification.new linux no_events = (Ok (new_event linux).1, (new_event linux).2).
Proof. by destruct linux. Qed.

Import EventNotification.

Lemma event_refines_counter_witness :
  let ops := [Notify; Notify; TryWait; TryWait; Wait] in
  fst (run (new_event true).2 (new_event true).1 ops) = [Ok true; Ok true; Ok true; Ok false] /\
  snd (run (new_event true).2 (new_event true).1 ops) = Blocks /\
  fst (run (new_event false).2 (new_event false).1 ops) = [Ok true; Ok true; Ok true; Ok true] /\
  snd (run (new_event false).2 (new_event false).1 ops) = Blocks.
Proof.
  cbn zeta.
  destruct (event_refines_counter true no_events _ _ [Notify; Notify; TryWait; TryWait; Wait] (new_event_ok true))
    as (o1 & _ & H1).
  destruct (event_refines_counter false no_events _ _ [Notify; Notify; TryWait; TryWait; Wait] (new_event_ok false))
    as (o2 & _ & H2).
  change (spec_run _ _) with ([true; true; true; false], Blocks (A := channel)) in H1.
  change (spec_run _ _) with ([true; true; true; true], Blocks (A := channel)) in H2.
  rewrite H1, H2. auto.
Defined.

Lemma try_wait_breaks_wait_witness :
  exists s1, set_nonblocking (new_event true).2 (read_raw_fd (new_event true).1) true = (Ok tt, s1) /\
    wait (new_event true).2 (new_event true).1 = Blocks /\
    exists r s2, wait s1 (new_event true).1 = Returns (Err (EventError r), s2).
Proof.
  destruct (set_nonblocking (new_event true).2 (read_raw_fd (new_event true).1) true) as [r s1] eqn:E.
  assert (Er : r = Ok tt) by (apply (f_equal fst) in E; vm_compute in E; congruence). subst r.
  exists s1. split; [reflexivity|]. split; [reflexivity|].
  destruct (try_wait_breaks_wait (new_event true).2 (new_event true).1 1 (Channel Counter 0) s1)
    as (r & s2 & Hr & _); [|reflexivity|exact E|eauto].
  split_and!; [reflexivity..|vm_compute; discriminate|vm_compute; discriminate].
Defined.
End ToyEvents.
