(* ===== verification/EventPorts.v ===== *)
(** * The event pattern
    (crates/entangle/src/service/event.rs, port/notifier.rs, port/listener.rs)

    Each port makes an [EventNotification] of its own. *)
From S2P Require Import Prelude Contracts Shm Config Service Event.
#[local] Open Scope Z_scope.
#[local] Open Scope rust_scope.

Module Notifier.
(** [NotifierBuilder] and [Notifier]. *)
Record NotifierBuilder := mk_builder { b_service_name : string; b_node_id : NodeId }.
Record Notifier := mk { service_name : string; event : EventNotification.EventNotification }.

Section notifier.
Context {E : EventOs}.

Definition create (linux : bool) (b : NotifierBuilder) (s : Ev) : result Notifier IpcError * Ev :=
  match EventNotification.new linux s with
  | (Err e, s) => (Err (from e), s)
  | (Ok event, s) => (Ok (mk (b_service_name b) event), s)
  end.

Definition notify (s : Ev) (n : Notifier) : sys (result unit IpcError * Ev) :=
  let* (r, s) := EventNotification.notify s (event n) in Returns (map_err from r, s).
End notifier.
End Notifier.

Module Listener.
(** [ListenerBuilder] and [Listener]. *)
Record ListenerBuilder := mk_builder { b_service_name : string; b_node_id : NodeId }.
Record Listener := mk { service_name : string; event : EventNotification.EventNotification }.

Section listener.
Context {E : EventOs}.

Definition create (linux : bool) (b : ListenerBuilder) (s : Ev) : result Listener IpcError * Ev :=
  match EventNotification.new linux s with
  | (Err e, s) => (Err (from e), s)
  | (Ok event, s) => (Ok (mk (b_service_name b) event), s)
  end.

Definition wait (s : Ev) (l : Listener) : sys (result unit IpcError * Ev) :=
  let* (r, s) := EventNotification.wait s (event l) in Returns (map_err from r, s).

Definition try_wait (s : Ev) (l : Listener) : sys (result bool IpcError * Ev) :=
  let* (r, s) := EventNotification.try_wait s (event l) in Returns (map_err from r, s).

Definition raw_fd (l : Listener) : Z := EventNotification.read_raw_fd (event l).
End listener.
End Listener.

(** ** The service *)
Module EventService.
Record EventBuilder := mk_builder {
  b_service_name : string;
  b_config : EntangleConfig;
  b_node_id : NodeId;
  b_qos : EventQos;
}.
Record EventService := mk {
  service_name : string;
  config : EntangleConfig;
  node_id : NodeId;
  qos : EventQos;
}.

Definition new (service_name : string) (config : EntangleConfig) (node : NodeId) : EventBuilder :=
  mk_builder service_name config node (default_event_qos config).

Definition max_notifiers (b : EventBuilder) (n : Z) : EventBuilder :=
  mk_builder (b_service_name b) (b_config b) (b_node_id b)
    {| Config.max_notifiers := n; Config.max_listeners := Config.max_listeners (b_qos b) |}.

Definition max_listeners (b : EventBuilder) (n : Z) : EventBuilder :=
  mk_builder (b_service_name b) (b_config b) (b_node_id b)
    {| Config.max_notifiers := Config.max_notifiers (b_qos b); Config.max_listeners := n |}.

Definition open_or_create `{FileSystem, Ron} (b : EventBuilder) (fs : Fs)
    : result EventService IpcError * Fs :=
  let static_config := StaticConfig.new Config.Event (b_service_name b) "event" 0 1 in
  let lifecycle := ServiceLifecycle.new (shm_root (b_config b)) in
  match ServiceLifecycle.open_or_create lifecycle fs static_config with
  | (Err e, fs) => (Err (from e), fs)
  | (Ok _, fs) => (Ok (mk (b_service_name b) (b_config b) (b_node_id b) (b_qos b)), fs)
  end.

Definition notifier (s : EventService) : Notifier.NotifierBuilder :=
  Notifier.mk_builder (service_name s) (node_id s).

Definition listener (s : EventService) : Listener.ListenerBuilder :=
  Listener.mk_builder (service_name s) (node_id s).
End EventService.

(** ** Notifiers do not reach listeners *)
Section ports.
Context {E : EventOs} {V : EventView} {Sp : EventOsSpec} {Rd : EventOsReady}.
Import EventNotification.

(** A listener and a notifier of one service, made in this order or in the other. *)
Definition create_ports (listener_first linux : bool) (svc : EventService.EventService) (s : Ev)
    : option (Listener.Listener * Notifier.Notifier * Ev) :=
  if listener_first
  then
    match Listener.create linux (EventService.listener svc) s with
    | (Ok l, s) =>
        match Notifier.create linux (EventService.notifier svc) s with
        | (Ok n, s) => Some (l, n, s)
        | (Err _, _) => None
        end
    | (Err _, _) => None
    end
  else
    match Notifier.create linux (EventService.notifier svc) s with
    | (Ok n, s) =>
        match Listener.create linux (EventService.listener svc) s with
        | (Ok l, s) => Some (l, n, s)
        | (Err _, _) => None
        end
    | (Err _, _) => None
    end.

(** [notify], [count] times over, as long as it does not block. *)
Fixpoint notify_times (count : nat) (s : Ev) (n : Notifier.Notifier) : sys Ev :=
  match count with
  | O => Returns s
  | S count => let* (_, s) := Notifier.notify s n in notify_times count s n
  end.

(** A new event does not disturb a live one, and has another object. *)
Lemma new_live linux s e o c e' s' :
  live s e o c -> new linux s = (Ok e', s') ->
  live s' e o c /\ exists o', o' <> o /\ live s' e' o' (Channel (kind_of e') 0).
Proof.
  intros (Hr & Hw & Hc & Hk & Hp) Hn. pose proof (new_spec linux s) as Hs. rewrite Hn in Hs.
  destruct Hs as (o' & [Ho' Hfd] & Hl' & Hk' & Hds & Hcs).
  assert (Hne : o' <> o) by congruence. split; [|by exists o'].
  unfold live, open_on in *. rewrite Hcs, lookup_insert_ne by done. split_and!; auto; lia.
Qed.

Lemma new_both linux s e e' s1 s2 :
  new linux s = (Ok e, s1) -> new linux s1 = (Ok e', s2) ->
  exists o o', o' <> o /\ live s2 e o (Channel (kind_of e) 0) /\ live s2 e' o' (Channel (kind_of e') 0).
Proof.
  intros H1 H2. pose proof (new_spec linux s) as Hs. rewrite H1 in Hs.
  destruct Hs as (o & _ & Hl & _). destruct (new_live linux s1 e o _ e' s2 Hl H2) as (? & o' & ? & ?).
  by exists o, o'.
Qed.

Lemma create_ports_live first linux svc s l n s' :
  create_ports first linux svc s = Some (l, n, s') ->
  exists o o' c', o' <> o /\ live s' (Listener.event l) o (Channel (kind_of (Listener.event l)) 0) /\
    live s' (Notifier.event n) o' c'.
Proof.
  unfold create_ports, Listener.create, Notifier.create.
  destruct first; destruct (new linux s) as [[e|?] s1] eqn:E1; try done;
    destruct (new linux s1) as [[e'|?] s2] eqn:E2; try done; intros [= <- <- <-]; cbn;
    destruct (new_both _ _ _ _ _ _ E1 E2) as (o & o' & Hne & ? & ?).
  - by exists o, o', (Channel (kind_of e') 0).
  - exists o', o, (Channel (kind_of e) 0). by split; [congruence|].
Qed.

Lemma notify_times_frame count s n o c s' e' o' c' :
  live s (Notifier.event n) o c -> live s e' o' c' -> o' <> o ->
  notify_times count s n = Returns s' -> live s' e' o' c'.
Proof.
  revert s c. induction count as [|count IH]; intros s c Hn Hl Hne; cbn.
  { by intros [= <-]. }
  unfold Notifier.notify. pose proof (notify_spec s _ o c Hn) as Hs.
  pose proof Hn as (_ & _ & Hc & _ & Hp).
  destruct (EventNotification.notify s (Notifier.event n)) as [[[[]|er] s1]|]; cbn; [| |done].
  - destruct Hs as [Hlim Ho]. apply (IH _ (put c)); [|destruct Ho as [Hd Hc']|done].
    + eapply live_only; [done|done|done|]. cbn. lia.
    + unfold live, open_on in *. rewrite Hd, Hc', lookup_insert_ne by done. done.
  - destruct Hs as [[Hd Hc'] _]. apply (IH _ c); [| |done];
      unfold live, open_on in *; by rewrite Hd, Hc'.
Qed.

(** C40: (the event pattern)  A listener and a notifier of the same service share
    nothing: however many times the notifier notifies, the listener's
    [try_wait] answers that nothing is pending, and its [wait] waits. *)
Theorem notifier_never_wakes_listener first linux svc s l n s1 count s2 :
  create_ports first linux svc s = Some (l, n, s1) -> notify_times count s1 n = Returns s2 ->
  (exists s3, Listener.try_wait s2 l = Returns (Ok false, s3)) /\ Listener.wait s2 l = Blocks.
Proof.
  intros Hc Hn. destruct (create_ports_live _ _ _ _ _ _ _ Hc) as (o & o' & c' & Hne & Hl & Hl').
  pose proof (notify_times_frame _ _ _ _ _ _ _ _ _ Hl' Hl ltac:(congruence) Hn) as Hl2.
  pose proof (exec_op_spec s2 _ o _ TryWait Hl2) as (s3 & Ht & _).
  pose proof (exec_op_spec s2 _ o _ Wait Hl2) as Hw. cbn in Ht, Hw. split.
  - exists s3. unfold Listener.try_wait. by rewrite Ht.
  - unfold Listener.wait. by destruct (EventNotification.wait s2 (Listener.event l)) as [[r s4]|].
Qed.
End ports.

Section examples.
Import ToyEvents.

Definition example_service : EventService.EventService :=
  EventService.mk "system/shutdown" EntangleConfig_default 1 EventQos_default.

Lemma notifier_never_wakes_listener_witness :
  exists l n s1 s2,
    create_ports true true example_service ToyEvents.no_events = Some (l, n, s1) /\
    notify_times 3 s1 n = Returns s2 /\
    (exists s3, Listener.try_wait s2 l = Returns (Ok false, s3)) /\ Listener.wait s2 l = Blocks.
Proof.
  destruct (create_ports true true example_service ToyEvents.no_events) as [[[l n] s1]|] eqn:E1;
    [|vm_compute in E1; discriminate].
  destruct (notify_times 3 s1 n) as [s2|] eqn:E2.
  2: { exfalso. vm_compute in E1. injection E1 as <- <- <-. vm_compute in E2. discriminate. }
  exists l, n, s1, s2. split; [done|]. split; [done|].
  exact (notifier_never_wakes_listener true true example_service _ l n s1 3 s2 E1 E2).
Defined.
End examples.
