(* ===== verification/WaitSet.v ===== *)
(** * WaitSet (crates/entangle/src/waitset.rs)

    A list of descriptors that [wait] polls for input. *)
From S2P Require Import Prelude Event EventPorts.
#[local] Open Scope Z_scope.
#[local] Open Scope rust_scope.

(** std's [Duration]. *)
Record Duration := mk_duration { as_secs : Z; subsec_nanos : Z }.

Definition from_millis (ms : Z) : Duration :=
  mk_duration (ms / 1000) (ms mod 1000 * 1000000).

(** [Duration::as_millis], a [u128]. *)
Definition as_millis (d : Duration) : Z := as_secs d * 1000 + subsec_nanos d / 1000000.

(** [x as i32]. *)
Definition as_i32 (x : Z) : Z := let y := wrap 32 x in if y <? 2 ^ 31 then y else y - 2 ^ 32.

Module WaitSet.

Record WaitEntry := mk_entry { fd : Z; id : Z }.
(** [pub struct WaitSet { fds }]; an [AttachmentId] is its number. *)
Record WaitSet := mk { fds : list WaitEntry }.

Definition new : WaitSet := mk [].

Definition attach_fd (ws : WaitSet) (fd : Z) : Z * WaitSet :=
  let id := Z.of_nat (length (fds ws)) in (id, mk (fds ws ++ [mk_entry fd id])).

Definition attach_listener (ws : WaitSet) (l : Listener.Listener) : Z * WaitSet :=
  attach_fd ws (Listener.raw_fd l).

Definition timeout_ms (timeout : option Duration) : Z :=
  match timeout with Some d => as_i32 (as_millis d) | None => -1 end.

Section wait.
Context {E : EventOs}.

(** The iterator chain at the end of [wait]; [i] is the number of the next entry. *)
Fixpoint triggered (i : Z) (revents : list Z) : list Z :=
  match revents with
  | [] => []
  | rv :: revents =>
      if negb (Z.land rv POLLIN =? 0) then i :: triggered (i + 1) revents
      else triggered (i + 1) revents
  end.

Definition wait (s : Ev) (ws : WaitSet) (timeout : option Duration) : sys (list Z * Ev) :=
  match fds ws with
  | [] => Returns ([], s)
  | entries =>
      let pollfds := (fun entry => (fd entry, POLLIN)) <$> entries in
      let* (ret, revents, s) := poll s pollfds (timeout_ms timeout) in
      if ret <=? 0 then Returns ([], s) else Returns (triggered 0 revents, s)
  end.
End wait.

(** ** What [wait] reports *)
Section facts.
Context {E : EventOs} {V : EventView} {Sp : EventOsSpec} {Rd : EventOsReady}.

(** Attaching a list of descriptors, in order, and the ids they are given. *)
Fixpoint attach_all (ws : WaitSet) (l : list Z) : list Z * WaitSet :=
  match l with
  | [] => ([], ws)
  | x :: l => let (i, ws) := attach_fd ws x in let (ids, ws) := attach_all ws l in (i :: ids, ws)
  end.

(** The ids, from [i] on, of the descriptors of [l] that have input. *)
Fixpoint ready_ids (s : Ev) (i : Z) (l : list Z) : list Z :=
  match l with
  | [] => []
  | x :: l => if readable s x then i :: ready_ids s (i + 1) l else ready_ids s (i + 1) l
  end.

Lemma attach_all_spec ws l :
  let '(ids, ws') := attach_all ws l in
  (fd <$> fds ws') = (fd <$> fds ws) ++ l /\
  ids = seqZ (Z.of_nat (length (fds ws))) (Z.of_nat (length l)).
Proof.
  revert ws. induction l as [|x l IH]; intros ws; cbn -[Z.of_nat].
  { by rewrite app_nil_r. }
  specialize (IH (mk (fds ws ++ [mk_entry x (Z.of_nat (length (fds ws)))]))).
  destruct (attach_all _ l) as [ids ws']. destruct IH as [-> ->]. cbn [fds]. split.
  - by rewrite fmap_app, <- app_assoc.
  - rewrite length_app. cbn [length]. rewrite (seqZ_cons _ (Z.of_nat (S _))) by lia.
    f_equal. f_equal; lia.
Qed.

Lemma triggered_ready s i l revents :
  length revents = length l ->
  (forall j fd rv, l !! j = Some fd -> revents !! j = Some rv ->
     (Z.land rv POLLIN <> 0 <-> readable s fd = true)) ->
  triggered i revents = ready_ids s i l.
Proof.
  revert i l. induction revents as [|rv revents IH]; intros i [|x l] Hlen Hr; try done. cbn in *.
  specialize (IH (i + 1) l ltac:(lia)). rewrite IH.
  2: { intros j. apply (Hr (S j)). }
  specialize (Hr 0%nat x rv eq_refl eq_refl).
  destruct (Z.eqb_spec (Z.land rv POLLIN) 0) as [E0|E0], (readable s x); cbn; intuition congruence.
Qed.

Lemma ready_ids_nil s i l : (forall x, x ∈ l -> readable s x = false) -> ready_ids s i l = [].
Proof.
  revert i. induction l as [|x l IH]; intros i Hr; [done|]. cbn.
  rewrite (Hr x (list_elem_of_here _ _)). apply IH. intros y Hy. apply Hr. by right.
Qed.

Lemma as_i32_range x : - 2 ^ 31 <= as_i32 x < 2 ^ 31.
Proof. unfold as_i32. pose proof (wrap_fits 32 x ltac:(lia)) as [? ?]. destruct (_ <? _) eqn:El; zbool; lia. Qed.

Lemma as_i32_small x : 0 <= x < 2 ^ 31 -> as_i32 x = x.
Proof.
  intros Hx. unfold as_i32. rewrite wrap_small by (unfold fits; lia).
  by rewrite (proj2 (Z.ltb_lt _ _)) by lia.
Qed.

(** What a call reports, for a set that watches the descriptors [l]. *)
Lemma wait_reports s l ws timeout :
  (fd <$> fds ws) = l ->
  match wait s ws timeout with
  | Returns (reported, s') =>
      (l = [] -> s' = s) /\ same_view s s' /\ reported = ready_ids s 0 l
  | Blocks =>
      l <> [] /\ ready_ids s 0 l = [] /\
      match timeout with
      | None => True
      | Some d => as_i32 (as_millis d) < 0 /\ ~ 0 <= as_millis d < 2 ^ 31
      end
  end.
Proof.
  intros Hfds.
  unfold wait. destruct (fds ws) as [|e0 es] eqn:Efds.
  { cbn in Hfds. subst l. done. }
  assert (Hne : l <> []) by (subst l; done). rewrite <- Efds in *. clear Efds e0 es.
  set (pfds := (fun entry => (fd entry, POLLIN)) <$> fds ws).
  assert (Hpf : fst <$> pfds = l).
  { unfold pfds. rewrite <- list_fmap_compose. done. }
  assert (Hall : Forall (fun fe : Z * Z => snd fe = POLLIN) pfds) by by apply Forall_fmap, Forall_true.
  assert (Hin : forall x, x ∈ l -> (x, POLLIN) ∈ pfds).
  { intros x. rewrite <- Hpf. intros ([y e] & -> & Hy)%list_elem_of_fmap. cbn.
    rewrite Forall_forall in Hall. specialize (Hall _ Hy). cbn in Hall. by subst e. }
  pose proof (poll_spec s pfds (timeout_ms timeout) Hall) as Hs.
  pose proof (poll_ready s pfds (timeout_ms timeout) Hall) as Hr.
  destruct (poll s pfds (timeout_ms timeout)) as [[[ret revents] s']|]; cbn [sys_bind].
  - destruct Hs as (Hv & Hlen & Hrev & _). destruct (ret <=? 0) eqn:Er; zbool.
    + split; [done|]. split; [done|]. symmetry. apply ready_ids_nil. intros x Hx.
      destruct (readable s x) eqn:E1; [|done]. enough (0 < ret) by lia.
      apply Hr. eauto.
    + split; [done|]. split; [done|]. apply triggered_ready.
      { rewrite Hlen, <- Hpf. symmetry. apply length_fmap. }
      intros j x rv Hj. apply (Hrev Er j). rewrite <- Hpf, list_lookup_fmap in Hj. done.
  - destruct Hs as [Ht Hno]. split; [done|]. split.
    + apply ready_ids_nil. eauto.
    + destruct timeout as [d|]; [|done]. cbn in Ht. split; [done|]. intros Hd.
      rewrite as_i32_small in Ht by done. lia.
Qed.

(** C36: ([WaitSet])  Attaching gives distinct ids in order.  [wait] on an empty
    set returns at once, whatever the timeout.  On a non-empty set it changes
    nothing, and when it returns it reports exactly the ids of the attached
    descriptors that have input, in order; it blocks only when none has, and
    then either no timeout was given or the timeout in milliseconds, as an
    [i32], is negative; so a timeout below 2^31 ms never blocks. *)
Theorem waitset_wait_spec s l ids ws timeout :
  attach_all new l = (ids, ws) ->
  ids = seqZ 0 (Z.of_nat (length l)) /\
  match wait s ws timeout with
  | Returns (reported, s') =>
      (l = [] -> s' = s) /\ same_view s s' /\ reported = ready_ids s 0 l
  | Blocks =>
      l <> [] /\ ready_ids s 0 l = [] /\
      match timeout with
      | None => True
      | Some d => as_i32 (as_millis d) < 0 /\ ~ 0 <= as_millis d < 2 ^ 31
      end
  end.
Proof.
  intros Ha. pose proof (attach_all_spec new l) as Hspec. rewrite Ha in Hspec.
  destruct Hspec as [Hfds Hids]. split; [done|by apply wait_reports].
Qed.
End facts.

Section examples.
Import ToyEvents.

(** Two listeners, the second one notified. *)
Definition two_listeners : Z * Z * Ev :=
  let '(fd1, s) := eventfd ToyEvents.no_events in
  let '(fd2, s) := eventfd s in
  (fd1, fd2, match write s fd2 8 with Returns (_, s) => s | Blocks => s end).

Lemma waitset_wait_spec_witness :
  let '(fd1, fd2, s) := two_listeners in
  let (ids, ws) := attach_all new [fd1; fd2] in
  ids = [0; 1] /\ match wait s ws None with Returns (r, _) => r = [1] | Blocks => False end.
Proof.
  destruct two_listeners as [[fd1 fd2] s] eqn:Et. destruct (attach_all new [fd1; fd2]) as [ids ws] eqn:Ea.
  destruct (waitset_wait_spec s [fd1; fd2] ids ws None Ea) as [-> Hw]. split; [reflexivity|].
  vm_compute in Et. injection Et as <- <- <-.
  destruct (wait _ ws None) as [[r s']|].
  - destruct Hw as (_ & _ & ->). vm_compute. reflexivity.
  - destruct Hw as (_ & Hw & _). vm_compute in Hw. discriminate.
Defined.

(** A timeout of 2^31 ms (25 days) never ends, one of 2^32 ms ends at once. *)
Example waitset_timeout_wraps :
  let s := (two_listeners).2 in
  let ws := snd (attach_fd new (two_listeners).1.1) in
  wait s ws (Some (from_millis (2 ^ 31))) = Blocks /\
  timeout_ms (Some (from_millis (2 ^ 32))) = 0.
Proof. split; vm_compute; reflexivity. Qed.
End examples.
End WaitSet.
