(* ===== verification/Signal.v ===== *)
(** * SignalHandler (crates/entangle-platform/src/signal.rs)

    Three global flags, set by the handler of SIGTERM and SIGINT.  A handler
    runs at any time, on any thread, so its stores interleave with those of
    other handlers and of [reset]. *)
From S2P Require Import Prelude Shm.
#[local] Open Scope Z_scope.
#[local] Open Scope rust_scope.

(** libc's constants. *)
Definition SIGTERM : Z := 15.
Definition SIGINT : Z := 2.

(** [signal(2)], as the nix crate offers it: it replaces the disposition of one
    signal by the handler. *)
Class SignalOs := {
  So : Type;
  signal : So -> Z -> result unit string * So;
}.

(** The signals whose disposition is the handler. *)
Class SignalOsSpec `{SignalOs} := {
  handled : So -> gset Z;
  signal_spec s sig : match signal s sig with
    | (Ok _, s') => handled s' = {[sig]} ∪ handled s
    | (Err _, s') => handled s' = handled s
    end;
}.

Module SignalHandler.

(** The statics [SHUTDOWN_REQUESTED], [SIGTERM_RECEIVED], [SIGINT_RECEIVED]. *)
Record flags := mk {
  SHUTDOWN_REQUESTED : bool;
  SIGTERM_RECEIVED : bool;
  SIGINT_RECEIVED : bool;
}.

Definition initial : flags := mk false false false.

Inductive flag := Shutdown | Sigterm | Sigint.

#[global] Instance flag_eq_dec : EqDecision flag.
Proof. solve_decision. Defined.

(** One atomic store. *)
Record store := Store { target : flag; value : bool }.

#[global] Instance store_eq_dec : EqDecision store.
Proof. solve_decision. Defined.

Definition run_store (f : flags) (s : store) : flags :=
  match target s with
  | Shutdown => mk (value s) (SIGTERM_RECEIVED f) (SIGINT_RECEIVED f)
  | Sigterm => mk (SHUTDOWN_REQUESTED f) (value s) (SIGINT_RECEIVED f)
  | Sigint => mk (SHUTDOWN_REQUESTED f) (SIGTERM_RECEIVED f) (value s)
  end.

(** The stores of [signal_handler(sig)] and of [reset], in program order. *)
Definition signal_handler (sig : Z) : list store :=
  Store Shutdown true ::
  (if sig =? SIGTERM then [Store Sigterm true]
   else if sig =? SIGINT then [Store Sigint true] else []).

Definition reset : list store := [Store Shutdown false; Store Sigterm false; Store Sigint false].

Definition shutdown_requested (f : flags) : bool := SHUTDOWN_REQUESTED f.
Definition sigterm_received (f : flags) : bool := SIGTERM_RECEIVED f.
Definition sigint_received (f : flags) : bool := SIGINT_RECEIVED f.

Definition install `{SignalOs} (s : So) : result unit PlatformError * So :=
  match signal s SIGTERM with
  | (Err e, s) => (Err (SignalError ("failed to install SIGTERM handler: " ++ e)), s)
  | (Ok _, s) =>
      match signal s SIGINT with
      | (Err e, s) => (Err (SignalError ("failed to install SIGINT handler: " ++ e)), s)
      | (Ok _, s) => (Ok tt, s)
      end
  end.

Lemma install_spec `{SignalOsSpec} s s' :
  install s = (Ok tt, s') -> SIGTERM ∈ handled s' /\ SIGINT ∈ handled s'.
Proof.
  unfold install. pose proof (signal_spec s SIGTERM) as H1.
  destruct (signal s SIGTERM) as [[[]|e] s1]; [|done].
  pose proof (signal_spec s1 SIGINT) as H2. destruct (signal s1 SIGINT) as [[[]|e] s2]; [|done].
  intros [= <-]. rewrite H2, H1, !elem_of_union, !elem_of_singleton. tauto.
Qed.

(** ** Handlers and resets running together *)

(** The flags, and the stores that each call under way has still to make. *)
Record machine := Machine { memory : flags; calls : list (list store) }.

Inductive step : machine -> machine -> Prop :=
| step_call m cs1 s ss cs2 :
    step (Machine m (cs1 ++ (s :: ss) :: cs2)) (Machine (run_store m s) (cs1 ++ ss :: cs2)).

Definition get (f : flags) (x : flag) : bool :=
  match x with
  | Shutdown => SHUTDOWN_REQUESTED f
  | Sigterm => SIGTERM_RECEIVED f
  | Sigint => SIGINT_RECEIVED f
  end.

Lemma get_run_store f s x : get (run_store f s) x = if decide (x = target s) then value s else get f x.
Proof. by destruct s as [[] v], x. Qed.

(** While only handlers run: each call has made the stores of its handler up to
    some point, and a flag is set when one of them has set it. *)
Definition progress : Type := Z * list store * list store.
Definition pr_sig (p : progress) : Z := p.1.1.
Definition pr_done (p : progress) : list store := p.1.2.
Definition pr_todo (p : progress) : list store := p.2.

Definition inv (sigs : list Z) (mc : machine) : Prop :=
  exists l : list progress, sigs = pr_sig <$> l /\ calls mc = pr_todo <$> l /\
    (forall p, p ∈ l -> signal_handler (pr_sig p) = pr_done p ++ pr_todo p) /\
    (forall x, get (memory mc) x = true <-> exists p, p ∈ l /\ Store x true ∈ pr_done p).

Definition start (sigs : list Z) : machine := Machine initial (signal_handler <$> sigs).

Lemma signals_start sigs : inv sigs (start sigs).
Proof.
  exists ((fun sig => (sig, [], signal_handler sig)) <$> sigs). rewrite <- !list_fmap_compose.
  split; [by rewrite list_fmap_id|]. split; [done|]. split.
  - by intros p (sig & -> & _)%list_elem_of_fmap.
  - intros x. split; [by destruct x|]. intros (p & (sig & -> & _)%list_elem_of_fmap & Hin).
    by apply elem_of_nil in Hin.
Qed.

Lemma handler_true sig s : s ∈ signal_handler sig -> value s = true.
Proof.
  unfold signal_handler. intros [->|Hs]%elem_of_cons; [done|].
  repeat case_match; rewrite ?elem_of_cons, elem_of_nil in Hs; by destruct_or?; subst.
Qed.

Lemma handler_flag sig x : Store x true ∈ signal_handler sig ->
  x = Shutdown \/ x = Sigterm /\ sig = SIGTERM \/ x = Sigint /\ sig = SIGINT.
Proof.
  unfold signal_handler. intros [[= ->]|Hs]%elem_of_cons; [by left|]. right.
  repeat case_match; zbool; rewrite ?elem_of_cons, elem_of_nil in Hs; destruct_or?; simplify_eq; auto.
Qed.

Lemma inv_step sigs mc mc' : inv sigs mc -> step mc mc' -> inv sigs mc'.
Proof.
  intros (l & -> & Hc & Hh & Hg) Hs. destruct Hs as [m cs1 s ss cs2]. cbn in *.
  symmetry in Hc. apply fmap_app_inv in Hc as (l1 & l' & -> & Hl' & ->).
  symmetry in Hl'. apply fmap_cons_inv in Hl' as ([[sig d] c] & l2 & Hp & -> & ->).
  cbn in Hp. subst c.
  pose proof (Hh _ (elem_middle l1 l2 _)) as Hsig. cbn in Hsig.
  assert (Hv : value s = true).
  { apply (handler_true sig). rewrite Hsig. apply elem_of_app. right. by left. }
  exists (l1 ++ (sig, d ++ [s], ss) :: l2). rewrite !fmap_app, !fmap_cons. split; [done|]. split; [done|]. split.
  - intros p Hp. apply elem_of_app in Hp as [Hp|[->|Hp]%elem_of_cons].
    + apply Hh, elem_of_app. by left.
    + cbn. by rewrite <- app_assoc.
    + apply Hh, elem_of_app. right. by right.
  - intros x. cbn [memory]. rewrite get_run_store. split.
    + intros Hx. case_decide as E.
      * eexists. split; [apply elem_middle|]. cbn. apply elem_of_app. right. subst x.
        apply list_elem_of_singleton. destruct s as [t v]. cbn in *. by subst v.
      * apply Hg in Hx as (p & Hp & Hd). apply elem_of_app in Hp as [Hp|[->|Hp]%elem_of_cons].
        -- exists p. split; [apply elem_of_app; by left|done].
        -- eexists. split; [apply elem_middle|]. cbn in *. apply elem_of_app. by left.
        -- exists p. split; [apply elem_of_app; right; by right|done].
    + intros (p & Hp & Hd). case_decide as E; [done|]. apply Hg.
      apply elem_of_app in Hp as [Hp|[->|Hp]%elem_of_cons].
      * exists p. split; [apply elem_of_app; by left|done].
      * eexists. split; [apply elem_middle|]. cbn in *. apply elem_of_app in Hd as [Hd|Hd]; [done|].
        apply list_elem_of_singleton in Hd. subst s. done.
      * exists p. split; [apply elem_of_app; right; by right|done].
Qed.

Lemma inv_reachable sigs mc : rtc step (start sigs) mc -> inv sigs mc.
Proof.
  intros Hr. apply (invariant_rtc step (fun s => s = start sigs) (inv sigs) (start sigs)); [|done|done].
  split; [intros ? ->; apply signals_start|intros; by eapply inv_step].
Qed.

(** ([signal_handler])  Whatever signals arrive, and however the stores of
    their handlers interleave: a flag that is set is never seen without the
    common one, every flag that is set is that of a signal that arrived, and once
    the handlers are through, each flag says exactly whether its signal arrived. *)
Theorem signal_flags sigs mc :
  rtc step (start sigs) mc ->
  let f := memory mc in
  (sigterm_received f = true \/ sigint_received f = true -> shutdown_requested f = true) /\
  (sigterm_received f = true -> SIGTERM ∈ sigs) /\ (sigint_received f = true -> SIGINT ∈ sigs) /\
  (shutdown_requested f = true -> sigs <> []) /\
  (Forall (fun c => c = []) (calls mc) ->
    (SIGTERM ∈ sigs -> sigterm_received f = true) /\ (SIGINT ∈ sigs -> sigint_received f = true) /\
    (sigs <> [] -> shutdown_requested f = true)).
Proof.
  intros (l & -> & Hc & Hh & Hg)%inv_reachable f.
  assert (Hsrc : forall x, get f x = true -> exists p, p ∈ l /\ Store x true ∈ pr_done p /\
    Store x true ∈ signal_handler (pr_sig p)).
  { intros x (p & Hp & Hd)%Hg. exists p. split; [done|]. split; [done|]. rewrite (Hh p Hp). set_solver. }
  assert (Hfirst : forall x, get f x = true -> get f Shutdown = true).
  { intros x (p & Hp & Hd & _)%Hsrc. apply Hg. exists p. split; [done|]. pose proof (Hh p Hp) as E.
    destruct (pr_done p) as [|s d]; [by apply elem_of_nil in Hd|]. unfold signal_handler in E.
    injection E as <- _. by left. }
  assert (Hsig : forall x sig, (forall sig', Store x true ∈ signal_handler sig' -> sig' = sig) ->
    get f x = true -> sig ∈ (pr_sig <$> l)).
  { intros x sig Huniq (p & Hp & _ & Hs)%Hsrc. rewrite <- (Huniq _ Hs). by apply list_elem_of_fmap_2. }
  split; [intros [H|H]; [by apply (Hfirst Sigterm)|by apply (Hfirst Sigint)]|].
  split; [apply (Hsig Sigterm)|]. { intros ? ?%handler_flag. naive_solver. }
  split; [apply (Hsig Sigint)|]. { intros ? ?%handler_flag. naive_solver. }
  split. { intros (p & Hp & _)%(Hsrc Shutdown). destruct l; [by apply elem_of_nil in Hp|done]. }
  intros Hall.
  assert (Hdone : forall p x, p ∈ l -> Store x true ∈ signal_handler (pr_sig p) -> get f x = true).
  { intros p x Hp Hs. apply Hg. exists p. split; [done|]. rewrite (Hh p Hp) in Hs.
    rewrite Hc in Hall. rewrite Forall_forall in Hall.
    rewrite (Hall (pr_todo p)) in Hs by by apply list_elem_of_fmap_2. by rewrite app_nil_r in Hs. }
  split; [|split].
  - intros (p & E & Hp)%list_elem_of_fmap. apply (Hdone p Sigterm Hp). rewrite <- E. vm_compute. set_solver.
  - intros (p & E & Hp)%list_elem_of_fmap. apply (Hdone p Sigint Hp). rewrite <- E. vm_compute. set_solver.
  - destruct l as [|p l]; [done|]. intros _. apply (Hdone p Shutdown); by left.
Qed.

(** A SIGTERM and a SIGINT, whose handlers interrupt one another. *)
Lemma signal_flags_witness :
  exists mc, rtc step (start [SIGTERM; SIGINT]) mc /\ sigint_received (memory mc) = true /\
    shutdown_requested (memory mc) = true.
Proof.
  exists (Machine (mk true false true) [[Store Sigterm true]; []]).
  assert (Hr : rtc step (start [SIGTERM; SIGINT]) (Machine (mk true false true) [[Store Sigterm true]; []])).
  { eapply rtc_l; [exact (step_call initial [] (Store Shutdown true) [Store Sigterm true]
      [[Store Shutdown true; Store Sigint true]])|].
    eapply rtc_l; [exact (step_call (mk true false false) [[Store Sigterm true]] (Store Shutdown true)
      [Store Sigint true] [])|].
    apply rtc_once. exact (step_call (mk true false false) [[Store Sigterm true]] (Store Sigint true) [] []). }
  destruct (signal_flags [SIGTERM; SIGINT] _ Hr) as (Hs & _).
  split; [exact Hr|]. split; [reflexivity|]. apply Hs. by right.
Defined.

(** ([reset] against [signal_handler])  When a SIGTERM handler is interrupted,
    or runs on another thread, while [reset] runs, all calls can end with
    [sigterm_received] set and [shutdown_requested] clear. *)
Theorem signal_reset_race :
  exists f, rtc step (Machine initial [signal_handler SIGTERM; reset]) (Machine f [[]; []]) /\
    sigterm_received f = true /\ shutdown_requested f = false.
Proof.
  exists (mk false true false). split; [|done].
  eapply rtc_l; [apply (step_call _ [] _ _ [reset])|]. cbn.
  do 3 (eapply rtc_l; [apply (step_call _ [_] _ _ [])|]; cbn).
  apply rtc_once. exact (step_call initial [] (Store Sigterm true) [] [[]]).
Qed.
End SignalHandler.

(** ** A system that always installs the handler *)
Module ToySignals.
#[export] Instance toy_signals : SignalOs := {
  So := gset Z;
  signal s sig := (Ok tt, {[sig]} ∪ s);
}.

#[export] Instance toy_signal_spec : SignalOsSpec.
Proof. apply (Build_SignalOsSpec toy_signals (fun s => s)). done. Defined.
End ToySignals.
