(* ===== verification/Node.v ===== *)
(** * Node (crates/entangle/src/node.rs)

    A node has an id made of two hashes, registers itself with the process
    monitor and installs the signal handlers; it makes the builders of the four
    patterns. *)
From S2P Require Import Prelude Paths Contracts Shm Config Service PubSub ReqRes Blackboard Hex FileLock Monitor EventPorts Signal.
#[local] Open Scope Z_scope.
#[local] Open Scope rust_scope.

(** std's [DefaultHasher], and how it hashes an [u32], an [u128] and a
    [ThreadId]. *)
Class DefaultHasher := {
  Hasher : Type;
  hasher_new : Hasher;
  hash_u32 : Hasher -> Z -> Hasher;
  hash_u128 : Hasher -> Z -> Hasher;
  hash_thread : Hasher -> Z -> Hasher;
  finish : Hasher -> Z;
}.

(** A hash is a [u64]. *)
Class DefaultHasherSpec `{DefaultHasher} := { finish_fits h : fits 64 (finish h) }.

Module Node.

(** What [generate_id] reads from its surroundings: the process, the clock
    ([None] when it is before the epoch) and the thread. *)
Record surroundings := mk_surroundings { pid : Z; now : option Z; thread : Z }.

Definition generate_id `{DefaultHasher} (x : surroundings) : NodeId :=
  let hasher := hash_u32 hasher_new (pid x) in
  let hasher := hash_u128 hasher (default 0 (now x)) in
  let h1 := finish hasher in
  let hasher := hash_thread hasher (thread x) in
  let h2 := finish hasher in
  Z.lor (shl 128 h1 64) h2.

Record Node `{LockOs} := mk {
  id : NodeId;
  config : EntangleConfig;
  monitor : ProcessMonitor.ProcessMonitor;
}.
Arguments mk {H} id config monitor.
Arguments id {H} n.
Arguments config {H} n.
Arguments monitor {H} n.

Record NodeBuilder := mk_builder { b_config : EntangleConfig; b_name : option string }.

Definition builder : NodeBuilder := mk_builder EntangleConfig_default None.

Definition with_name (b : NodeBuilder) (name : string) : NodeBuilder :=
  mk_builder (b_config b) (Some name).

(** [load] reads and parses the file; see Config.v. *)
Definition with_config_file (read : string -> option string) (parse : string -> option EntangleConfig)
    (b : NodeBuilder) (path : string) : NodeBuilder :=
  mk_builder (load read parse path) (b_name b).

Definition with_config (b : NodeBuilder) (config : EntangleConfig) : NodeBuilder :=
  mk_builder config (b_name b).

(** The configuration with the builder's name, when it has one. *)
Definition named_config (b : NodeBuilder) : EntangleConfig :=
  match b_name b with
  | Some name =>
      {| shm_root := shm_root (b_config b);
         node_name := Some name;
         default_pubsub_qos := default_pubsub_qos (b_config b);
         default_event_qos := default_event_qos (b_config b) |}
  | None => b_config b
  end.

(** [ServiceSelector], and the four builders it makes. *)
Record ServiceSelector := mk_selector {
  service_name : string;
  s_config : EntangleConfig;
  s_node_id : NodeId;
}.

Definition publish_subscribe (s : ServiceSelector) : PubSubPorts.PubSubBuilder.PubSubBuilder :=
  PubSubPorts.PubSubBuilder.new (service_name s) (s_config s) (s_node_id s).
Definition event (s : ServiceSelector) : EventService.EventBuilder :=
  EventService.new (service_name s) (s_config s) (s_node_id s).
Definition request_response (s : ServiceSelector) : ReqResPorts.ReqResBuilder.ReqResBuilder :=
  ReqResPorts.ReqResBuilder.new (service_name s) (s_config s) (s_node_id s).

Definition blackboard (s : ServiceSelector) : BlackboardPorts.BlackboardBuilder :=
  BlackboardPorts.mk_bb (service_name s) (s_config s) (s_node_id s).

Section node.
Context {L : LockOs} {S : SignalOs} {D : DefaultHasher}.

(** A failing [install] drops the monitor it was registered with. *)
Definition create (b : NodeBuilder) (x : surroundings) (s : Lk) (so : So)
    : result Node IpcError * Lk * So :=
  let config := named_config b in
  let id := generate_id x in
  let root := shm_root config in
  match ProcessMonitor.register s id root with
  | (Err e, s) => (Err (from e), s, so)
  | (Ok monitor, s) =>
      match SignalHandler.install so with
      | (Err e, so) => (Err (from e), ProcessMonitor.drop s monitor, so)
      | (Ok _, so) => (Ok (mk id config monitor), s, so)
      end
  end.

(** The fields of a node that is dropped are: the lock is released. *)
Definition drop (s : Lk) (n : Node) : Lk := ProcessMonitor.drop s (monitor n).

Definition name (n : Node) : option string := node_name (config n).

Definition service (n : Node) (name : string) : ServiceSelector :=
  mk_selector name (config n) (id n).

Definition shutdown_requested (f : SignalHandler.flags) : bool := SignalHandler.shutdown_requested f.
End node.

Section facts.
Context {L : LockOs} {V : LockView} {Sp : LockOsSpec}.
Context {S : SignalOs} {SS : SignalOsSpec} {D : DefaultHasher} {DS : DefaultHasherSpec}.
Import ProcessMonitor.

(** The id is the two hashes side by side. *)
Lemma generate_id_halves x :
  let h1 := finish (hash_u128 (hash_u32 hasher_new (pid x)) (default 0 (now x))) in
  let h2 := finish (hash_thread (hash_u128 (hash_u32 hasher_new (pid x)) (default 0 (now x))) (thread x)) in
  generate_id x = h1 * 2 ^ 64 + h2 /\ fits 128 (generate_id x).
Proof.
  intros h1 h2. assert (H1 : fits 64 h1) by apply finish_fits. assert (H2 : fits 64 h2) by apply finish_fits.
  assert (E : generate_id x = h1 * 2 ^ 64 + h2).
  { unfold generate_id. fold h1 h2. unfold shl. rewrite Z.shiftl_mul_pow2 by lia.
    rewrite wrap_small by (unfold fits in *; lia). rewrite <- (Z.shiftl_mul_pow2 h1) by lia.
    rewrite (fields_lor 64) by (lia || apply H1 || done). by rewrite Z.shiftl_mul_pow2 by lia. }
  split; [done|]. rewrite E. apply (fields_fits 64 64); [lia..|done|done].
Qed.

Lemma create_inv b x s so ms root :
  shm_root (b_config b) = root -> inv root (Sys s ms) ->
  match create b x s so with
  | (Ok n, s', so') => inv root (Sys s' (monitor n :: ms)) /\ node_id (monitor n) = generate_id x /\
      id n = generate_id x /\ SignalHandler.install so = (Ok tt, so')
  | (Err _, s', _) => inv root (Sys s' ms)
  end.
Proof.
  intros Hroot Hi. unfold create.
  assert (Hr : shm_root (named_config b) = root) by (unfold named_config; by destruct (b_name b)).
  rewrite Hr. destruct (register s (generate_id x) root) as [r s'] eqn:Er.
  pose proof (register_inv root s ms _ r s' (proj2 (generate_id_halves x)) Hi Er) as [Hi' Hid].
  destruct r as [m|e]; [|done].
  destruct (SignalHandler.install so) as [[[]|e] so'] eqn:Ei; [done|].
  by apply (drop_inv root s' [] m ms).
Qed.

(** C37: ([Node], with the monitor and the signal handlers)  Provided that no
    open, flock, unlink or stat fails for want of a resource or of a permission
    ([LockOsReady]; otherwise see [monitor_open_failure]): in any reachable state
    of the nodes of a root directory, creating a node either fails and leaves
    the same nodes alive, or gives a node that is alive under its id, next to
    those that were, with the handlers of SIGTERM and SIGINT installed and the
    builder's name; when it is dropped it is no longer alive, the others still
    are, and the next cleanup removes its file. *)
Theorem node_life_cycle {Rd : LockOsReady} root c0 c b x so :
  init c0 -> rtc (step root) c0 c -> shm_root (b_config b) = root ->
  let alive s i := fst (is_alive s i root) in
  match create b x (os c) so with
  | (Ok n, s', so') =>
      id n = generate_id x /\ fits 128 (id n) /\ id n ∉ (node_id <$> monitors c) /\
      (b_name b <> None -> name n = b_name b) /\
      SIGTERM ∈ handled so' /\ SIGINT ∈ handled so' /\
      (forall i, fits 128 i -> alive s' i = true <-> i = id n \/ alive (os c) i = true) /\
      (forall i, fits 128 i -> alive (Node.drop s' n) i = true <-> alive (os c) i = true) /\
      (forall dead s3, cleanup_dead_nodes (Node.drop s' n) root = (Ok dead, s3) ->
         paths s3 !! node_path root (id n) = None)
  | (Err _, s', _) => forall i, fits 128 i -> alive s' i = true <-> alive (os c) i = true
  end.
Proof.
  intros Hi Hs Hroot alive. pose proof (monitors_inv root _ _ Hi Hs) as Hc.
  destruct c as [s ms]. cbn [os monitors] in *.
  assert (Hal : forall s1 ms1, inv root (Sys s1 ms1) -> forall i, fits 128 i ->
    alive s1 i = true <-> i ∈ (node_id <$> ms1)).
  { intros s1 ms1 H1 i. by apply is_alive_iff. }
  pose proof (create_inv b x s so ms root Hroot Hc) as Hcr.
  destruct (create b x s so) as [[[n|e] s'] so'] eqn:Ec.
  2: { intros i Hfi. by rewrite !Hal. }
  destruct Hcr as (Hi' & Hm & Hid & Hins). apply SignalHandler.install_spec in Hins as [Ht Hit].
  assert (Hd : inv root (Sys (Node.drop s' n) ms)) by by apply (drop_inv root s' [] (monitor n) ms).
  pose proof (inv_ids root _ Hi') as Hnd. cbn in Hnd. apply NoDup_cons in Hnd as [Hnew _].
  rewrite Hm, <- Hid in Hnew. pose proof (proj2 (generate_id_halves x)) as Hfit. rewrite <- Hid in Hfit.
  split; [done|]. split; [done|]. split; [done|]. split.
  { unfold create in Ec. repeat case_match; simplify_eq. unfold name, named_config. cbn.
    by destruct (b_name b). }
  split; [done|]. split; [done|]. split; [|split].
  - intros i Hfi. rewrite (Hal _ _ Hi' i Hfi), (Hal _ _ Hc i Hfi). cbn. rewrite elem_of_cons, Hm, Hid. done.
  - intros i Hfi. by rewrite (Hal _ _ Hd i Hfi), (Hal _ _ Hc i Hfi).
  - intros dead s3 Hcl. by eapply (cleanup_complete root (Node.drop s' n) ms).
Qed.

(** ([generate_id])  Two nodes created by one thread within one tick of the
    clock get the same id, whatever the hash function: while the first lives the
    second cannot be created. *)
Theorem node_same_tick {Rd : LockOsReady} root c0 c b b' x so n s' so' :
  init c0 -> rtc (step root) c0 c ->
  shm_root (b_config b) = root -> shm_root (b_config b') = root ->
  create b x (os c) so = (Ok n, s', so') ->
  exists e, fst (fst (create b' x s' so')) = Err (Platform (ProcessMonitorError e)).
Proof.
  intros Hi Hs Hroot Hroot' Hcr. pose proof (monitors_inv root _ _ Hi Hs) as Hc.
  destruct c as [s ms]. cbn [os] in *.
  pose proof (create_inv b x s so ms root Hroot Hc) as Hi'. rewrite Hcr in Hi'.
  destruct Hi' as (Hi' & Hm & _).
  destruct (register_refused root s' (monitor n :: ms) (generate_id x) Hi') as [e He].
  { cbn. rewrite Hm. by left. }
  exists e. unfold create.
  assert (Hr : shm_root (named_config b') = root) by (unfold named_config; by destruct (b_name b')).
  rewrite Hr. destruct (register s' (generate_id x) root) as [r s2]. cbn in He. subst r. done.
Qed.
End facts.

(** ** On the example system *)
Section examples.
Import ToyLocks ToySignals.

(** A hash function: a sum. *)
#[local] Instance toy_hasher : DefaultHasher := {
  Hasher := Z;
  hasher_new := 7;
  hash_u32 h x := wrap 64 (h * 31 + x);
  hash_u128 h x := wrap 64 (h * 31 + x);
  hash_thread h x := wrap 64 (h * 31 + x);
  finish h := wrap 64 h;
}.

#[local] Instance toy_hasher_spec : DefaultHasherSpec.
Proof. split. intros h. by apply wrap_fits. Qed.

Definition example_surroundings : surroundings := mk_surroundings 100 (Some 1700000000000000000) 1.
Definition example_root : string := "/tmp/entangle/".
Definition no_handlers : @So toy_signals := ∅.

Lemma node_life_cycle_witness :
  let '(r, s, _) := create (with_name builder "a") example_surroundings
                      (ProcessMonitor.no_files) no_handlers in
  match r with
  | Ok n => name n = Some "a"%string /\ fst (ProcessMonitor.is_alive s (id n) example_root) = true /\
      fst (ProcessMonitor.is_alive (drop s n) (id n) example_root) = false
  | Err _ => False
  end.
Proof.
  pose proof (node_life_cycle example_root ProcessMonitor.example_start ProcessMonitor.example_start
    (with_name builder "a") example_surroundings no_handlers ProcessMonitor.example_init (rtc_refl _ _)
    eq_refl) as Hl.
  assert (Hok : match fst (fst (create (with_name builder "a") example_surroundings
    (ProcessMonitor.os ProcessMonitor.example_start) no_handlers)) with Ok _ => true | Err _ => false end = true)
    by (vm_compute; reflexivity).
  cbv zeta in Hl.
  change (ProcessMonitor.no_files) with (ProcessMonitor.os ProcessMonitor.example_start).
  destruct (create (with_name builder "a") example_surroundings
    (ProcessMonitor.os ProcessMonitor.example_start) no_handlers) as [[[n|e] s'] so'] eqn:Ec; [|done].
  destruct Hl as (_ & Hfit & _ & Hn & _ & _ & H1 & H2 & _). split; [by apply Hn|].
  split; [apply H1; [done|by left]|].
  apply not_true_iff_false. intros Ha. apply H2 in Ha; [|done].
  apply (ProcessMonitor.is_alive_iff example_root _ []) in Ha; [by apply elem_of_nil in Ha| |done].
  apply ProcessMonitor.inv_init, ProcessMonitor.example_init.
Defined.

Lemma node_same_tick_witness :
  let '(_, s, so) := create builder example_surroundings ProcessMonitor.no_files no_handlers in
  exists e, fst (fst (create (with_name builder "b") example_surroundings s so))
            = Err (Platform (ProcessMonitorError e)).
Proof.
  assert (Hok : match fst (fst (create builder example_surroundings
    (ProcessMonitor.os ProcessMonitor.example_start) no_handlers)) with Ok _ => true | Err _ => false end = true)
    by (vm_compute; reflexivity).
  change (ProcessMonitor.no_files) with (ProcessMonitor.os ProcessMonitor.example_start).
  destruct (create builder example_surroundings
    (ProcessMonitor.os ProcessMonitor.example_start) no_handlers) as [[[n|e] s'] so'] eqn:Ec; [|done].
  exact (node_same_tick example_root ProcessMonitor.example_start ProcessMonitor.example_start
    builder (with_name builder "b") example_surroundings no_handlers n s' so'
    ProcessMonitor.example_init (rtc_refl _ _) eq_refl eq_refl Ec).
Defined.
End examples.
End Node.
