(* ===== verification/Derive.v ===== *)
(** * The derive macro of ZeroCopySafe (crates/entangle-derive/src/lib.rs)

    The macro works on the syntax tree that syn parses and produces tokens that
    rustc checks.  The syntax tree is data here; what rustc does with the
    produced items is the relation [zero_copy] (trait selection) and the
    predicate [expands].  The theorems relate what the macro accepts to the
    contract in the doc comment of the trait (contracts.rs). *)
From Stdlib Require Import Ascii.
From S2P Require Import Prelude.

(** ** The syntax tree *)

(** A type after name resolution: an array, a parameter of the item, or a path
    (a primitive, a struct, [Vec], a reference, ...) with its arguments. *)
Inductive ty :=
| TArray (elem : ty) (len : string)
| TParam (ident : string)
| TPath (path : string) (args : list ty).

(** One attribute: the path when it is one identifier, and what
    [parse_args::<syn::Ident>()] makes of its arguments. *)
Record Attribute := mk_attr { path_ident : option string; args_ident : option string }.

Inductive GenericParam :=
| Lifetime (ident : string)
| Type_ (ident : string)
| Const (ident : string).

(** A predicate [t: Trait] of a where clause. *)
Record WherePredicate := Bound { bounded_ty : ty; trait : string }.

Inductive Data :=
| Struct (fields : list ty)
| Enum (variants : list (list ty))
| Union (fields : list ty).

Record DeriveInput := mk_input {
  ident : string;
  attrs : list Attribute;
  generics : list GenericParam;
  where_clause : list WherePredicate;
  data : Data;
}.

(** The tokens of the generated items: the header of the impl, which the helper
    function repeats, and the types that the assertions name. *)
Record Tokens := mk_tokens {
  impl_for : string;
  impl_generics : list GenericParam;
  where_tokens : list WherePredicate;
  field_assertions : list ty;
}.

Module ZeroCopySafe.

Definition starts_with (c : ascii) (s : string) : bool :=
  match s with String d _ => Ascii.eqb c d | EmptyString => false end.

Definition valid_repr_ident (repr : string) : bool :=
  (String.eqb repr "C" || String.eqb repr "transparent") ||
  (starts_with "u"%char repr || starts_with "i"%char repr).

Fixpoint has_valid_repr_attrs (attrs : list Attribute) : bool :=
  match attrs with
  | [] => false
  | attr :: attrs =>
      match path_ident attr with
      | Some p =>
          if String.eqb p "repr" then
            match args_ident attr with
            | Some repr => if valid_repr_ident repr then true else has_valid_repr_attrs attrs
            | None => has_valid_repr_attrs attrs
            end
          else has_valid_repr_attrs attrs
      | None => has_valid_repr_attrs attrs
      end
  end.

Definition has_valid_repr (input : DeriveInput) : bool := has_valid_repr_attrs (attrs input).

Definition is_fieldless_enum (data : Data) : bool :=
  match data with
  | Enum variants => forallb (fun fields => match fields with [] => true | _ => false end) variants
  | _ => false
  end.

Definition validate_struct_fields (fields : list ty) : result unit string := Ok tt.

Definition generate_field_assertions (data : Data) : list ty :=
  match data with Struct fields => fields | _ => [] end.

(** The bounds added for the type parameters. *)
Definition param_bound (param : GenericParam) : list WherePredicate :=
  match param with Type_ ident => [Bound (TParam ident) "ZeroCopySafe"] | _ => [] end.

Definition check_data (data : Data) : result unit string :=
  match data with
  | Struct fields => validate_struct_fields fields
  | Enum _ =>
      if negb (is_fieldless_enum data)
      then Err "ZeroCopySafe enums must be fieldless (no data variants)"%string else Ok tt
  | Union _ => Err "ZeroCopySafe cannot be derived for unions"%string
  end.

Definition impl_zero_copy_safe (input : DeriveInput) : result Tokens string :=
  if negb (has_valid_repr input)
  then Err "ZeroCopySafe requires #[repr(C)] or #[repr(transparent)]"%string
  else
    match check_data (data input) with
    | Err e => Err e
    | Ok _ =>
        let where_predicates := where_clause input ++ (generics input ≫= param_bound) in
        Ok (mk_tokens (ident input) (generics input) where_predicates
              (generate_field_assertions (data input)))
    end.

(** The impls that contracts.rs writes by hand, apart from the one for arrays. *)
Definition primitives : list string :=
  ["u8"; "u16"; "u32"; "u64"; "u128"; "i8"; "i16"; "i32"; "i64"; "i128"; "f32"; "f64"; "bool"]%string.

(** ** What rustc makes of it *)

(** The type parameters of an item, and the substitution of arguments for them. *)
Definition type_params (d : DeriveInput) : list string :=
  omap (fun p => match p with Type_ x => Some x | _ => None end) (generics d).

Fixpoint lookup_param (xs : list string) (ts : list ty) (x : string) : option ty :=
  match xs, ts with
  | y :: xs, t :: ts => if String.eqb x y then Some t else lookup_param xs ts x
  | _, _ => None
  end.

Fixpoint subst (s : string -> option ty) (t : ty) : ty :=
  match t with
  | TArray elem len => TArray (subst s elem) len
  | TParam x => default (TParam x) (s x)
  | TPath p args => TPath p (map (subst s) args)
  end.

Definition instance (d : DeriveInput) (args : list ty) : ty -> ty :=
  subst (lookup_param (type_params d) args).

(** Trait selection for [t: ZeroCopySafe], in a program whose derives are [P],
    under the bounds [G]: a bound in scope, a hand-written impl, or a derived one
    whose where clause holds. *)
Inductive zero_copy (P : list DeriveInput) (G : list WherePredicate) : ty -> Prop :=
| zc_bound t : Bound t "ZeroCopySafe" ∈ G -> zero_copy P G t
| zc_primitive p : p ∈ primitives -> zero_copy P G (TPath p [])
| zc_array t len : zero_copy P G t -> zero_copy P G (TArray t len)
| zc_derived d tok args :
    d ∈ P -> impl_zero_copy_safe d = Ok tok -> length args = length (type_params d) ->
    (forall t, Bound t "ZeroCopySafe" ∈ where_tokens tok -> zero_copy P G (instance d args t)) ->
    zero_copy P G (TPath (ident d) args).

(** The types of the fields, whatever the item is. *)
Definition fields_of (d : Data) : list ty :=
  match d with Struct fields => fields | Enum variants => concat variants | Union fields => fields end.

(** A type mentions only the parameters in scope. *)
Fixpoint in_scope (xs : list string) (t : ty) : Prop :=
  match t with
  | TArray elem _ => in_scope xs elem
  | TParam x => x ∈ xs
  | TPath _ args => foldr (fun t acc => in_scope xs t /\ acc) True args
  end.

(** The derive of [d] is accepted and the produced items type-check. *)
Record expands (P : list DeriveInput) (d : DeriveInput) : Prop := {
  ex_scope_fields : Forall (in_scope (type_params d)) (fields_of (data d));
  ex_scope_where : Forall (fun b => in_scope (type_params d) (bounded_ty b)) (where_clause d);
  ex_derived : exists tok, impl_zero_copy_safe d = Ok tok /\
    Forall (zero_copy P (where_tokens tok)) (field_assertions tok);
}.

(** A program whose every derive compiles; items have one definition, and none
    is called like a primitive. *)
Record compiles (P : list DeriveInput) : Prop := {
  co_expands : Forall (expands P) P;
  co_unique : forall d d', d ∈ P -> d' ∈ P -> ident d = ident d' -> d = d';
  co_primitive : forall d, d ∈ P -> ident d ∉ primitives;
}.

(** *** Substitution *)

Section ty_induction.
Context (Q : ty -> Prop).
Context (Harr : forall t len, Q t -> Q (TArray t len)) (Hpar : forall x, Q (TParam x)).
Context (Hpath : forall p args, Forall Q args -> Q (TPath p args)).

Fixpoint ty_ind_args (t : ty) : Q t :=
  match t with
  | TArray t len => Harr t len (ty_ind_args t)
  | TParam x => Hpar x
  | TPath p args =>
      Hpath p args ((fix go (l : list ty) : Forall Q l :=
        match l with [] => Forall_nil_2 _ | t :: l => Forall_cons_2 _ _ _ (ty_ind_args t) (go l) end) args)
  end.
End ty_induction.

Lemma lookup_param_map f xs ts x :
  lookup_param xs (map f ts) x = option_map f (lookup_param xs ts x).
Proof.
  revert ts. induction xs as [|y xs IH]; intros [|t ts]; [done..|]. cbn. by destruct (String.eqb x y).
Qed.

Lemma lookup_param_some xs ts x : length ts = length xs -> x ∈ xs -> is_Some (lookup_param xs ts x).
Proof.
  revert ts. induction xs as [|y xs IH]; intros [|t ts] Hlen Hx; try done; [by apply elem_of_nil in Hx|].
  cbn in *. destruct (String.eqb_spec x y) as [->|Hne]; [by eexists|].
  apply IH; [lia|]. by apply elem_of_cons in Hx as [?|?].
Qed.

Lemma in_scope_args xs p args : in_scope xs (TPath p args) <-> Forall (in_scope xs) args.
Proof.
  cbn. induction args as [|t args IH]; cbn; [by split|]. by rewrite Forall_cons, IH.
Qed.

(** Substituting into an instance is instantiating with substituted arguments. *)
Lemma subst_instance d args s t :
  length args = length (type_params d) -> in_scope (type_params d) t ->
  subst s (instance d args t) = instance d (map (subst s) args) t.
Proof.
  intros Hlen. unfold instance. induction t as [t len IH|x|p l IH] using ty_ind_args; intros Hs; cbn.
  - by rewrite IH.
  - rewrite lookup_param_map. destruct (lookup_param_some _ _ x Hlen Hs) as [t ->]. done.
  - f_equal. rewrite map_map. apply in_scope_args in Hs.
    induction l as [|t l IHl]; [done|]. cbn. apply Forall_cons in IH as [H1 H2].
    apply Forall_cons in Hs as [S1 S2]. f_equal; auto.
Qed.

Lemma impl_ok d tok : impl_zero_copy_safe d = Ok tok ->
  has_valid_repr d = true /\ check_data (data d) = Ok tt /\
  where_tokens tok = where_clause d ++ (generics d ≫= param_bound) /\
  field_assertions tok = generate_field_assertions (data d).
Proof.
  unfold impl_zero_copy_safe. destruct (has_valid_repr d); [|done]. cbn.
  destruct (check_data (data d)) as [[]|e]; [|done]. by intros [= <-].
Qed.

Lemma where_in_scope P d tok b :
  expands P d -> impl_zero_copy_safe d = Ok tok -> b ∈ where_tokens tok ->
  in_scope (type_params d) (bounded_ty b).
Proof.
  intros Hd (_ & _ & -> & _)%impl_ok. rewrite elem_of_app. intros [Hb|Hb].
  - pose proof (ex_scope_where _ _ Hd) as Hw. rewrite Forall_forall in Hw. by apply Hw.
  - apply list_elem_of_bind in Hb as (p & Hb & Hp). destruct p as [x|x|x]; cbn in Hb;
      try (by apply elem_of_nil in Hb).
    apply list_elem_of_singleton in Hb as ->. cbn. unfold type_params.
    apply list_elem_of_omap. by exists (Type_ x).
Qed.

Lemma zero_copy_subst P G G' s t :
  Forall (expands P) P -> zero_copy P G t ->
  (forall b, Bound b "ZeroCopySafe" ∈ G -> zero_copy P G' (subst s b)) ->
  zero_copy P G' (subst s t).
Proof.
  intros HP Hz Hs. induction Hz as [t Hb|p Hp|t len _ IH|d tok args Hd Htok Hlen _ IH].
  - by apply Hs.
  - by apply zc_primitive.
  - by apply zc_array.
  - cbn. rewrite Forall_forall in HP.
    apply (zc_derived _ _ d tok); [done|done|by rewrite length_map|]. intros t Ht.
    rewrite <- subst_instance; [by apply IH|done|].
    apply (where_in_scope P d tok (Bound t "ZeroCopySafe")); auto.
Qed.

(** *** What a value is made of *)

(** The elements of an array and the fields of an item, at its arguments. *)
Inductive component (P : list DeriveInput) : ty -> ty -> Prop :=
| component_elem t len : component P (TArray t len) t
| component_field d args f :
    d ∈ P -> length args = length (type_params d) -> f ∈ fields_of (data d) ->
    component P (TPath (ident d) args) (instance d args f).

(** The contract of the trait: a primitive, an array, or an item with a fixed
    layout that is a struct or an enum without data. *)
Definition plain (P : list DeriveInput) (t : ty) : Prop :=
  match t with
  | TArray _ _ => True
  | TParam _ => False
  | TPath p args =>
      (p ∈ primitives /\ args = []) \/
      exists d, d ∈ P /\ ident d = p /\ has_valid_repr d = true /\
        match data d with
        | Struct _ => True
        | Enum variants => concat variants = []
        | Union _ => False
        end
  end.

Lemma fieldless_concat variants : is_fieldless_enum (Enum variants) = true -> concat variants = [].
Proof.
  cbn. induction variants as [|fs vs IH]; cbn; [done|]. destruct fs; [|done]. cbn. exact IH.
Qed.

Lemma check_data_ok d : check_data d = Ok tt ->
  match d with Struct _ => True | Enum vs => concat vs = [] | Union _ => False end.
Proof.
  destruct d as [fs|vs|fs]; cbn [check_data]; [done| |done].
  destruct (is_fieldless_enum (Enum vs)) eqn:E; [|done]. intros _. by apply fieldless_concat.
Qed.

Lemma zero_copy_plain P t : zero_copy P [] t -> plain P t.
Proof.
  intros Hz. inversion Hz as [? Hb|p Hp|? ?|d tok args Hd Htok Hlen Hw]; subst; [by apply elem_of_nil in Hb| |done|].
  - by left.
  - right. exists d. apply impl_ok in Htok as (Hr & Hc & _). split_and!; try done. by apply check_data_ok.
Qed.

Lemma zero_copy_component P t t' : compiles P -> zero_copy P [] t -> component P t t' -> zero_copy P [] t'.
Proof.
  intros [HP Huniq Hprim] Hz Hc. destruct Hc as [t len|d args f Hd Hlen Hf].
  - inversion Hz as [? Hb| |? ? Ht|]; subst; [by apply elem_of_nil in Hb|done].
  - inversion Hz as [? Hb|p Hp| |d' tok args' Hd' Htok Hlen' Hw Heq]; subst;
      [by apply elem_of_nil in Hb|by apply Hprim in Hd|].
    apply Huniq in Heq; [|done|done]. subst d'.
    pose proof HP as HP'. rewrite Forall_forall in HP. destruct (ex_derived _ _ (HP d Hd)) as (tok' & Htok' & Hall).
    assert (tok' = tok) as -> by congruence. apply impl_ok in Htok' as (_ & Hc & _ & Hfa).
    rewrite Hfa in Hall. apply check_data_ok in Hc.
    destruct (data d) as [fs|vs|fs]; cbn in Hf; [| |done].
    + rewrite Forall_forall in Hall. eapply zero_copy_subst; [done|by apply Hall|]. intros b Hb. by apply Hw.
    + rewrite Hc in Hf. by apply elem_of_nil in Hf.
Qed.

(** C29: (soundness of [derive(ZeroCopySafe)])  In a program that compiles, every
    type that trait selection accepts as [ZeroCopySafe], and every type reached
    from it through array elements and fields, at any depth and through any
    generic arguments, is a primitive, an array, or an item with an accepted
    [repr] that is a struct or an enum without data: no union, no pointer,
    [Vec] or [String] is ever part of it. *)
Theorem derive_sound P t t' :
  compiles P -> zero_copy P [] t -> rtc (component P) t t' -> plain P t' /\ zero_copy P [] t'.
Proof.
  intros HP Hz Hr. induction Hr as [t|t t1 t' Hc _ IH]; [split; [by apply zero_copy_plain|done]|].
  apply IH. by eapply zero_copy_component.
Qed.

Lemma valid_repr_attrs l :
  has_valid_repr_attrs l = true <-> exists a r, a ∈ l /\ path_ident a = Some "repr"%string /\
    args_ident a = Some r /\ valid_repr_ident r = true.
Proof.
  induction l as [|a l IH]; cbn [has_valid_repr_attrs].
  { split; [done|]. intros (a & r & Ha & _). by apply elem_of_nil in Ha. }
  assert (Hskip : (forall r, path_ident a = Some "repr"%string -> args_ident a = Some r ->
      valid_repr_ident r = false) ->
    has_valid_repr_attrs l = true <-> exists b r, b ∈ a :: l /\ path_ident b = Some "repr"%string /\
    args_ident b = Some r /\ valid_repr_ident r = true).
  { intros Hno. rewrite IH. split; intros (b & r & Hb & Hp & Hr & Hv).
    - exists b, r. split_and!; [by right|done..].
    - apply elem_of_cons in Hb as [->|Hb]; [by rewrite (Hno r Hp Hr) in Hv|]. eauto 6. }
  destruct (path_ident a) as [p|] eqn:Ep; [|apply Hskip; congruence].
  destruct (String.eqb_spec p "repr") as [->|Hne]; [|apply Hskip; congruence].
  destruct (args_ident a) as [r|] eqn:Ea; [|apply Hskip; congruence].
  destruct (valid_repr_ident r) eqn:Ev; [|apply Hskip; congruence].
  split; [|done]. intros _. exists a, r. split_and!; [by left|done..].
Qed.

Lemma concat_fieldless vs : is_fieldless_enum (Enum vs) = true <-> concat vs = [].
Proof.
  split; [apply fieldless_concat|]. cbn. induction vs as [|fs vs IH]; cbn; [done|].
  destruct fs; cbn; [exact IH|done].
Qed.

(** ([impl_zero_copy_safe])  The macro accepts an item exactly when one of its
    [repr] attributes has a single identifier that is C, transparent or an
    integer type, and it is a struct or an enum whose variants have no fields;
    the impl then repeats the where clause, asks that every type parameter be
    [ZeroCopySafe] and asserts each field of a struct. *)
Theorem impl_zero_copy_safe_spec d :
  let valid := (exists a r, a ∈ attrs d /\ path_ident a = Some "repr"%string /\ args_ident a = Some r /\
                  valid_repr_ident r = true) /\
               match data d with Struct _ => True | Enum vs => concat vs = [] | Union _ => False end in
  match impl_zero_copy_safe d with
  | Ok tok => valid /\ impl_for tok = ident d /\
      (forall b, b ∈ where_tokens tok <-> b ∈ where_clause d \/
         exists x, b = Bound (TParam x) "ZeroCopySafe" /\ x ∈ type_params d) /\
      field_assertions tok = match data d with Struct fields => fields | _ => [] end
  | Err _ => ~ valid
  end.
Proof.
  intros valid. assert (Hv : valid <-> has_valid_repr d = true /\ check_data (data d) = Ok tt).
  { unfold valid, has_valid_repr. rewrite valid_repr_attrs. split; intros [H1 H2]; (split; [done|]).
    - destruct (data d) as [fs|vs|fs]; [done| |done]. cbn [check_data].
      by rewrite (proj2 (concat_fieldless vs) H2).
    - by apply check_data_ok. }
  destruct (impl_zero_copy_safe d) as [tok|e] eqn:E.
  - assert (Hid : impl_for tok = ident d).
    { unfold impl_zero_copy_safe in E. repeat case_match; by simplify_eq. }
    apply impl_ok in E as (Hr & Hc & Hw & Hf). split; [by apply Hv|]. split; [done|]. split; [|done].
    intros b. rewrite Hw, elem_of_app. f_equiv. rewrite list_elem_of_bind. unfold type_params. split.
    + intros ([x|x|x] & Hb & Hp); cbn in Hb; try by apply elem_of_nil in Hb.
      apply list_elem_of_singleton in Hb as ->. exists x. split; [done|].
      apply list_elem_of_omap. by exists (Type_ x).
    + intros (x & -> & (p & Hp & Hx)%list_elem_of_omap). destruct p as [y|y|y]; simplify_eq.
      exists (Type_ x). split; [by apply list_elem_of_singleton|done].
  - rewrite Hv. intros [Hr Hc]. unfold impl_zero_copy_safe in E. by rewrite Hr, Hc in E.
Qed.

(** ** The items of the macro's own tests *)
Definition repr (r : string) : Attribute := mk_attr (Some "repr"%string) (Some r).
Definition path (p : string) : ty := TPath p [].

Definition Inner : DeriveInput := mk_input "Inner" [repr "C"] [] [] (Struct [path "f64"; path "f64"]).
Definition Outer : DeriveInput := mk_input "Outer" [repr "C"] [] [] (Struct [path "Inner"; path "f64"]).
Definition Status : DeriveInput := mk_input "Status" [repr "u8"] [] [] (Enum [[]; []; []]).
Definition Pair : DeriveInput :=
  mk_input "Pair" [repr "C"] [Type_ "T"] [] (Struct [TParam "T"; TParam "T"]).
Definition NoRepr : DeriveInput := mk_input "NoRepr" [] [] [] (Struct [path "u64"]).
Definition BadUnion : DeriveInput := mk_input "BadUnion" [repr "C"] [] [] (Union [path "u32"; path "f32"]).
Definition HasVec : DeriveInput := mk_input "HasVec" [repr "C"] [] [] (Struct [TPath "Vec" [path "u8"]]).

Definition good_program : list DeriveInput := [Inner; Outer; Status; Pair].

Ltac pick := first [apply list_elem_of_here | apply list_elem_of_further; pick].

Ltac foralls := repeat first [apply Forall_nil_2 | apply Forall_cons_2].

Lemma good_inner G : zero_copy good_program G (path "Inner").
Proof.
  eapply (zc_derived _ _ Inner _ []); [pick|reflexivity|reflexivity|].
  cbn. by intros t ?%elem_of_nil.
Qed.

Lemma good_compiles : compiles good_program.
Proof.
  split.
  - assert (Hf64 : forall G, zero_copy good_program G (path "f64")) by (intros; apply zc_primitive; pick).
    unfold good_program at 2. foralls; (split; [cbn; foralls; cbn; try done; pick|cbn; foralls|]);
      (eexists; split; [reflexivity|]; cbn; foralls; try apply Hf64; try apply good_inner; apply zc_bound; pick).
  - assert (Hall : forall d d', d ∈ good_program -> d' ∈ good_program ->
      ident d = ident d' -> d = d'); [|exact Hall].
    unfold good_program. intros d d' H1 H2.
    rewrite !elem_of_cons, elem_of_nil in H1, H2. destruct_or?; subst; cbn; congruence.
  - intros d H1. unfold good_program in H1. rewrite !elem_of_cons, elem_of_nil in H1.
    destruct_or?; subst; cbn; apply (bool_decide_unpack _); reflexivity.
Qed.

Lemma derive_sound_witness :
  zero_copy good_program [] (TPath "Pair" [path "Outer"]) /\
  rtc (component good_program) (TPath "Pair" [path "Outer"]) (path "f64") /\
  plain good_program (path "f64").
Proof.
  assert (Hz : zero_copy good_program [] (TPath "Pair" [path "Outer"])).
  { eapply (zc_derived _ _ Pair _ [path "Outer"]); [pick|reflexivity|reflexivity|].
    cbn. intros t Ht%list_elem_of_singleton. injection Ht as ->. cbn.
    eapply (zc_derived _ _ Outer _ []); [pick|reflexivity|reflexivity|]. cbn. by intros t ?%elem_of_nil. }
  assert (Hr : rtc (component good_program) (TPath "Pair" [path "Outer"]) (path "f64")).
  { eapply rtc_l; [eapply (component_field _ Pair [path "Outer"] (TParam "T")); [pick|reflexivity|pick]|].
    eapply rtc_l; [eapply (component_field _ Outer [] (path "Inner")); [pick|reflexivity|pick]|].
    apply rtc_once. eapply (component_field _ Inner [] (path "f64")); [pick|reflexivity|pick]. }
  split; [exact Hz|]. split; [exact Hr|].
  apply (derive_sound good_program _ _ good_compiles Hz Hr).
Defined.

(** The rejected ones: two by the macro, one by the assertion it produces. *)
Example bad_items :
  impl_zero_copy_safe NoRepr = Err "ZeroCopySafe requires #[repr(C)] or #[repr(transparent)]"%string /\
  impl_zero_copy_safe BadUnion = Err "ZeroCopySafe cannot be derived for unions"%string /\
  ~ expands [HasVec] HasVec.
Proof.
  split; [reflexivity|]. split; [reflexivity|]. intros [_ _ (tok & Ht & Hall)].
  injection Ht as <-. cbn in Hall. apply Forall_cons in Hall as [Hz _].
  inversion Hz as [? Hb|p Hp| |d tok args Hd]; subst.
  - by apply elem_of_nil in Hb.
  - apply list_elem_of_singleton in Hd as ->. discriminate.
Qed.
End ZeroCopySafe.
