(* ===== verification/Shared.v ===== *)
(** * The shared contract (src/contracts/shared_types.rs, src/contracts/mock.rs)

    The types and traits that the crates were written against, as the contract
    file declares them, and the mock channel that it goes with.  The crates keep
    copies of their own (entangle-transport/src/contracts.rs and error.rs,
    entangle/src/contracts.rs, config.rs and error.rs, modelled in Contracts.v,
    Shm.v and Config.v): the theorems say what the copies still agree on, and
    the platform's [SharedMemory] is shown to fit the trait that the contract
    asks of it. *)
From S2P Require Import Prelude Contracts FreeList IndexSet Spsc Mock Channel Shm Config Derive.
#[local] Open Scope Z_scope.
#[local] Open Scope rust_scope.

Module SharedTypes.

(** The impls of [ZeroCopySafe], apart from the one for arrays. *)
Definition zero_copy_impls : list string :=
  ["u8"; "u16"; "u32"; "u64"; "u128"; "i8"; "i16"; "i32"; "i64"; "i128"; "f32"; "f64"; "bool"]%string.

(** [pub struct NodeId(pub u128)]. *)
Record NodeId := mk_node { id : Z }.

Module PointerOffset.
Record PointerOffset := mk { raw0 : Z }.

Definition new (segment_id offset : Z) : PointerOffset :=
  mk (Z.lor (shl 64 segment_id 48) (Z.land offset 0x0000FFFFFFFFFFFF)).
Definition new_debug_assert (offset : Z) : bool := offset <? Z.shiftl 1 48.
Definition segment_id (p : PointerOffset) : Z := wrap 16 (Z.shiftr (raw0 p) 48).
Definition offset (p : PointerOffset) : Z := Z.land (raw0 p) 0x0000FFFFFFFFFFFF.
End PointerOffset.

Inductive OverflowStrategy := Overwrite | DropNewest | Block.

Record PubSubQos := mk_pubsub {
  history_size : Z;
  max_publishers : Z;
  max_subscribers : Z;
  subscriber_overflow : OverflowStrategy;
  max_loaned_samples : Z;
  buffer_size : Z;
}.

Record EventQos := mk_event { max_notifiers : Z; max_listeners : Z }.

Record ReqResQos := mk_reqres {
  max_clients : Z;
  max_servers : Z;
  max_pending_requests : Z;
}.

Inductive LoanError := OutOfMemory | ExceedsMaxLoans (max : Z).
Inductive SendError := SendConnectionBroken | QueueFull.
Inductive ReceiveError := Empty | RecvConnectionBroken.

Inductive PlatformError :=
| SharedMemoryCreate (reason : string)
| SharedMemoryOpen (reason : string)
| FileLock (reason : string)
| Signal (reason : string).

Inductive ServiceError :=
| AlreadyExists (name : string)
| NotFound (name : string)
| IncompatibleQos (reason : string)
| Corrupted (reason : string)
| VersionMismatch (expected found : Z).

Inductive PortError :=
| Loan (e : LoanError)
| Send (e : SendError)
| Receive (e : ReceiveError)
| ConnectionLost (peer_id : Z).

Inductive IpcError :=
| Service (e : ServiceError)
| Port (e : PortError)
| Platform (e : PlatformError).

(** [pub struct SharedMemoryHandle]; [ptr] is an address. *)
Record SharedMemoryHandle := mk_handle { ptr : Z; size : Z; name : string }.

(** [trait SharedMemoryProvider]; [W] is the state that [&self] reaches. *)
Class SharedMemoryProvider (W : Type) := {
  create : W -> string -> Z -> result SharedMemoryHandle PlatformError * W;
  open : W -> string -> result SharedMemoryHandle PlatformError * W;
  unlink : W -> string -> result unit PlatformError * W;
}.

Record EntangleConfig := mk_config {
  shm_root : string;
  node_name : option string;
  default_pubsub_qos : PubSubQos;
  default_event_qos : EventQos;
}.

Definition MAGIC_NUMBER : Z := 0x5A4349500001.

(** [#[repr(u32)] enum PatternType] and [#[repr(u8)] enum ChannelState]. *)
Inductive PatternType := PubSub | Event | ReqRes | Blackboard.
Definition PatternType_as_u32 (p : PatternType) : Z :=
  match p with PubSub => 1 | Event => 2 | ReqRes => 3 | Blackboard => 4 end.

Inductive ChannelState := Creating | Connected | Disconnected.
Definition ChannelState_as_u8 (s : ChannelState) : Z :=
  match s with Creating => 0 | Connected => 1 | Disconnected => 2 end.

(** [MockZeroCopyChannel] of contracts/mock.rs. *)
Module MockZeroCopyChannel.
Record MockZeroCopyChannel := mk { send_queue : list Z; return_queue : list Z }.

Definition new (_capacity : Z) : MockZeroCopyChannel := mk [] [].

Definition send (c : MockZeroCopyChannel) (offset : Z) : MockZeroCopyChannel :=
  mk (send_queue c ++ [offset]) (return_queue c).

Definition receive (c : MockZeroCopyChannel) : option Z * MockZeroCopyChannel :=
  match send_queue c with
  | [] => (None, c)
  | v :: l => (Some v, mk l (return_queue c))
  end.

Definition return_slot (c : MockZeroCopyChannel) (offset : Z) : MockZeroCopyChannel :=
  mk (send_queue c) (return_queue c ++ [offset]).

Definition reclaim (c : MockZeroCopyChannel) : option Z * MockZeroCopyChannel :=
  match return_queue c with
  | [] => (None, c)
  | v :: l => (Some v, mk (send_queue c) l)
  end.
End MockZeroCopyChannel.
End SharedTypes.

(** ** What the crates' copies keep

    A copy loses nothing of the original ([back_copy]); it may say more, which
    the original has no name for ([back] is [None] there). *)
Class Copy (A B : Type) := {
  copy : A -> B;
  back : B -> option A;
  back_copy : forall a, back (copy a) = Some a;
  copy_back : forall a b, back b = Some a -> copy a = b;
}.

(** Nothing was added either. *)
Definition exact (A B : Type) `{Copy A B} : Prop := forall b : B, is_Some (back (A := A) b).

(** Closes the two laws of a copy by cases. *)
Ltac copy_tac := [> by intros [] | by intros [] []; cbn; intros; simplify_eq].

Module Copies.
Module S := SharedTypes.

#[global] Instance copy_offset : Copy S.PointerOffset.PointerOffset Contracts.PointerOffset.PointerOffset.
Proof.
  refine {| copy p := Contracts.PointerOffset.mk (S.PointerOffset.raw0 p);
            back p := Some (S.PointerOffset.mk (Contracts.PointerOffset.raw0 p)) |}; copy_tac.
Defined.

#[global] Instance copy_loan : Copy S.LoanError LoanError.
Proof.
  refine {| copy e := match e with
                      | S.OutOfMemory => OutOfMemory
                      | S.ExceedsMaxLoans m => ExceedsMaxLoans m
                      end;
            back e := Some match e with
                           | OutOfMemory => S.OutOfMemory
                           | ExceedsMaxLoans m => S.ExceedsMaxLoans m
                           end |}; copy_tac.
Defined.

#[global] Instance copy_send : Copy S.SendError SendError.
Proof.
  refine {| copy e := match e with
                      | S.SendConnectionBroken => SendConnectionBroken
                      | S.QueueFull => QueueFull
                      end;
            back e := Some match e with
                           | SendConnectionBroken => S.SendConnectionBroken
                           | QueueFull => S.QueueFull
                           end |}; copy_tac.
Defined.

#[global] Instance copy_receive : Copy S.ReceiveError ReceiveError.
Proof.
  refine {| copy e := match e with
                      | S.Empty => Empty
                      | S.RecvConnectionBroken => RecvConnectionBroken
                      end;
            back e := Some match e with
                           | Empty => S.Empty
                           | RecvConnectionBroken => S.RecvConnectionBroken
                           end |}; copy_tac.
Defined.

#[global] Instance copy_state : Copy S.ChannelState ChannelState.
Proof.
  refine {| copy s := match s with
                      | S.Creating => Creating
                      | S.Connected => Connected
                      | S.Disconnected => Disconnected
                      end;
            back s := Some match s with
                           | Creating => S.Creating
                           | Connected => S.Connected
                           | Disconnected => S.Disconnected
                           end |}; copy_tac.
Defined.

#[global] Instance copy_pattern : Copy S.PatternType PatternType.
Proof.
  refine {| copy s := match s with
                      | S.PubSub => PubSub
                      | S.Event => Event
                      | S.ReqRes => ReqRes
                      | S.Blackboard => Blackboard
                      end;
            back s := Some match s with
                           | PubSub => S.PubSub
                           | Event => S.Event
                           | ReqRes => S.ReqRes
                           | Blackboard => S.Blackboard
                           end |}; copy_tac.
Defined.

Definition copy_overflow (s : S.OverflowStrategy) : OverflowStrategy :=
  match s with S.Overwrite => Overwrite | S.DropNewest => DropNewest | S.Block => Block end.
Definition back_overflow (s : OverflowStrategy) : S.OverflowStrategy :=
  match s with Overwrite => S.Overwrite | DropNewest => S.DropNewest | Block => S.Block end.

Definition copy_qos (q : S.PubSubQos) : PubSubQos :=
  {| history_size := S.history_size q; max_publishers := S.max_publishers q;
     max_subscribers := S.max_subscribers q;
     subscriber_overflow := copy_overflow (S.subscriber_overflow q);
     max_loaned_samples := S.max_loaned_samples q; buffer_size := S.buffer_size q |}.
Definition back_qos (q : PubSubQos) : S.PubSubQos :=
  S.mk_pubsub (history_size q) (max_publishers q) (max_subscribers q)
    (back_overflow (subscriber_overflow q)) (max_loaned_samples q) (buffer_size q).

Lemma back_copy_qos q : back_qos (copy_qos q) = q.
Proof. by destruct q as [? ? ? [] ? ?]. Qed.
Lemma copy_back_qos q : copy_qos (back_qos q) = q.
Proof. by destruct q as [? ? ? [] ? ?]. Qed.

#[global] Instance copy_pubsub : Copy S.PubSubQos PubSubQos.
Proof.
  refine {| copy := copy_qos; back q := Some (back_qos q) |}.
  - intros q. by rewrite back_copy_qos.
  - intros a b [= <-]. apply copy_back_qos.
Defined.

#[global] Instance copy_config : Copy S.EntangleConfig EntangleConfig.
Proof.
  refine {| copy c := {| shm_root := S.shm_root c; node_name := S.node_name c;
                         default_pubsub_qos := copy_qos (S.default_pubsub_qos c);
                         default_event_qos :=
                           {| max_notifiers := S.max_notifiers (S.default_event_qos c);
                              max_listeners := S.max_listeners (S.default_event_qos c) |} |};
            back c := Some (S.mk_config (shm_root c) (node_name c) (back_qos (default_pubsub_qos c))
                              (S.mk_event (max_notifiers (default_event_qos c))
                                 (max_listeners (default_event_qos c)))) |}.
  - intros [? ? q []]. cbn. by rewrite back_copy_qos.
  - intros a [? ? q []] [= <-]. cbn. by rewrite copy_back_qos.
Defined.

#[global] Instance copy_service : Copy S.ServiceError ServiceError.
Proof.
  refine {| copy e := match e with
                      | S.AlreadyExists n => AlreadyExists n
                      | S.NotFound n => NotFound n
                      | S.IncompatibleQos r => IncompatibleQos r
                      | S.Corrupted r => Corrupted r
                      | S.VersionMismatch a b => VersionMismatch a b
                      end;
            back e := match e with
                      | AlreadyExists n => Some (S.AlreadyExists n)
                      | NotFound n => Some (S.NotFound n)
                      | IncompatibleQos r => Some (S.IncompatibleQos r)
                      | Corrupted r => Some (S.Corrupted r)
                      | VersionMismatch a b => Some (S.VersionMismatch a b)
                      | ServicePlatform _ => None
                      end |}; copy_tac.
Defined.

#[global] Instance copy_port : Copy S.PortError PortError.
Proof.
  refine {| copy e := match e with
                      | S.Loan e => Loan (copy e)
                      | S.Send e => Send (copy e)
                      | S.Receive e => Receive (copy e)
                      | S.ConnectionLost p => ConnectionLost p
                      end;
            back e := match e with
                      | Loan e => S.Loan <$> back e
                      | Send e => S.Send <$> back e
                      | Receive e => S.Receive <$> back e
                      | ConnectionLost p => Some (S.ConnectionLost p)
                      end |}.
  - intros [e|e|e|p]; rewrite ?back_copy; done.
  - intros a [e|e|e|p] Hb; [apply fmap_Some in Hb as (e' & He & ->); by rewrite (copy_back e' e He)..|].
    by simplify_eq.
Defined.
End Copies.

Section contract.
Import Copies.

(** The types that the crates declare anew are the contract's: the eight below
    one for one, with the same bits in a [PointerOffset], the same
    discriminants, the same magic number and the same primitive types that are
    safe to send.  [ServiceError] has grown by one variant, which wraps a
    platform error; it is the only one that the contract cannot name. *)
Theorem contract_copies :
  exact S.PointerOffset.PointerOffset PointerOffset.PointerOffset /\ exact S.LoanError LoanError /\
  exact S.SendError SendError /\ exact S.ReceiveError ReceiveError /\
  exact S.ChannelState ChannelState /\ exact S.PatternType PatternType /\
  exact S.EntangleConfig EntangleConfig /\ exact S.PortError PortError /\
  (forall e : ServiceError, back (A := S.ServiceError) e = None <-> exists p, e = ServicePlatform p) /\
  (forall sid off, copy (S.PointerOffset.new sid off) = PointerOffset.new sid off /\
     S.PointerOffset.new_debug_assert off = PointerOffset.new_debug_assert off) /\
  (forall p, S.PointerOffset.segment_id p = PointerOffset.segment_id (copy p) /\
     S.PointerOffset.offset p = PointerOffset.offset (copy p)) /\
  (forall s, S.ChannelState_as_u8 s = ChannelState_as_u8 (copy s)) /\
  (forall p, S.PatternType_as_u32 p = PatternType_as_u32 (copy p)) /\
  S.MAGIC_NUMBER = MAGIC_NUMBER /\ S.zero_copy_impls = Derive.ZeroCopySafe.primitives.
Proof.
  do 8 (split; [intros x; try (by eexists)|]).
  { destruct x as [e|e|e|p]; cbn; by eexists. }
  split; [intros []; cbn; split; try done; try (by eexists); by intros [? ?]|].
  split; [done|]. split; [done|]. split; [by intros []|]. split; [by intros []|]. done.
Qed.
End contract.

(** ** The platform's shared memory as a [SharedMemoryProvider]

    The crates never implement the trait; [SharedMemory] has its three
    operations.  The contract's [PlatformError] has fewer variants and no
    object names: the message carries the rest. *)
Section provider.
Context {P : Posix} (macos : bool) (hash : string -> Z).

Definition handle_of (m : SharedMemory.SharedMemory) : SharedTypes.SharedMemoryHandle :=
  SharedTypes.mk_handle (SharedMemory.ptr m) (SharedMemory.size m) (SharedMemory.name m).

#[local] Instance posix_provider : SharedTypes.SharedMemoryProvider Os := {
  create os name size :=
    match SharedMemory.create macos hash os name size with
    | (Ok m, os) => (Ok (handle_of m), os)
    | (Err e, os) => (Err (SharedTypes.SharedMemoryCreate (PlatformError_display e)), os)
    end;
  open os name :=
    match SharedMemory.open macos hash os name with
    | (Ok m, os) => (Ok (handle_of m), os)
    | (Err e, os) => (Err (SharedTypes.SharedMemoryOpen (PlatformError_display e)), os)
    end;
  unlink os name :=
    match SharedMemory.unlink macos hash os name with
    | (Ok _, os) => (Ok tt, os)
    | (Err e, os) => (Err (SharedTypes.SharedMemoryOpen (PlatformError_display e)), os)
    end;
}.

Context {V : PosixView} {Sp : PosixSpec}.

(** A handle that [create] gives describes a mapping of the requested size, and
    a second [create] under the name fails until the name is unlinked. *)
Lemma provider_create os nm sz h os' :
  SharedTypes.create os nm sz = (Ok h, os') ->
  SharedTypes.size h = sz /\
  exists o, names os' = <[SharedMemory.normalize_name macos hash nm := o]> (names os).
Proof using Sp.
  cbn. pose proof (SharedMemory.shm_create_facts macos hash os nm sz) as Hf. cbn zeta in Hf.
  destruct (SharedMemory.create macos hash os nm sz) as [[m|e] os1]; intros; simplify_eq.
  destruct Hf as (_ & _ & _ & _ & Hsz & o & Hn & _). split; [done|]. by exists o.
Qed.
End provider.

(** ** The mock channel stands in for the real one *)
Section mock.
Import SharedTypes.MockZeroCopyChannel.

(** The calls of a client that is connected throughout, on the mock: what each
    answers in terms of the real channel's replies. *)
Definition mock_call (c : MockZeroCopyChannel) (o : ZeroCopyChannel.call)
    : ZeroCopyChannel.reply * MockZeroCopyChannel :=
  match o with
  | ZeroCopyChannel.Connect | ZeroCopyChannel.Disconnect => (ZeroCopyChannel.Done, c)
  | ZeroCopyChannel.Send off =>
      (ZeroCopyChannel.Sent (Ok tt), send c (PointerOffset.raw off))
  | ZeroCopyChannel.Receive =>
      let (r, c) := receive c in
      (ZeroCopyChannel.Received
         match r with Some v => Ok (PointerOffset.from_raw v) | None => Err Empty end, c)
  | ZeroCopyChannel.Return off => (ZeroCopyChannel.Done, return_slot c (PointerOffset.raw off))
  | ZeroCopyChannel.Reclaim =>
      let (r, c) := reclaim c in
      (ZeroCopyChannel.Reclaimed (PointerOffset.from_raw <$> r), c)
  end.

Fixpoint mock_calls (c : MockZeroCopyChannel) (os : list ZeroCopyChannel.call)
    : list ZeroCopyChannel.reply :=
  match os with
  | [] => []
  | o :: os => let (r, c) := mock_call c o in r :: mock_calls c os
  end.

(** The contents of the mock are those of the abstract channel. *)
Definition mocks (c : MockZeroCopyChannel) (m : ZeroCopyChannel.spec_channel) : Prop :=
  send_queue c = PointerOffset.raw <$> ZeroCopyChannel.sp_sent m /\
  return_queue c = PointerOffset.raw <$> ZeroCopyChannel.sp_returned m /\
  ZeroCopyChannel.sp_state m <> Disconnected.

Lemma mock_spec cap os c m rs m' :
  mocks c m -> ZeroCopyChannel.Disconnect ∉ os ->
  ZeroCopyChannel.spec_calls cap m os = Some (rs, m') ->
  ZeroCopyChannel.Sent (Err QueueFull) ∉ rs -> mock_calls c os = rs.
Proof.
  revert c m rs. induction os as [|o os IH]; intros c m rs Hm Hd Hs Hf; cbn in Hs; [by simplify_eq|].
  apply not_elem_of_cons in Hd as [Hd Hds].
  destruct (ZeroCopyChannel.spec_call cap m o) as [[r m1]|] eqn:E; [|done]. cbn in Hs.
  destruct (ZeroCopyChannel.spec_calls cap m1 os) as [[rs1 m2]|] eqn:E2; [|done]. cbn in Hs. simplify_eq.
  apply not_elem_of_cons in Hf as [Hf Hfs]. destruct m as [st sq rq], c as [q r0].
  destruct Hm as (Hq & Hr & Hst). cbn in Hq, Hr, Hst. subst q r0.
  assert (Hstep : exists c1, mock_call (mk (PointerOffset.raw <$> sq) (PointerOffset.raw <$> rq)) o
                             = (r, c1) /\ mocks c1 m1).
  { destruct o; cbn in E |- *; try done.
    - simplify_eq. by eexists.
    - rewrite decide_False in E by done. destruct (_ =? _); simplify_eq. eexists. split; [done|].
      split; cbn; [by rewrite fmap_app|done].
    - destruct sq as [|v sq]; simplify_eq; cbn; [rewrite decide_False by done|];
        rewrite ?ZeroCopyChannel.from_raw_raw; by eexists.
    - destruct (_ =? _); simplify_eq. eexists. split; [done|].
      split; cbn; [done|]. by rewrite fmap_app.
    - destruct rq as [|v rq]; simplify_eq; cbn; rewrite ?ZeroCopyChannel.from_raw_raw; by eexists. }
  destruct Hstep as (c1 & Hc & Hm1). cbn [mock_calls]. rewrite Hc. f_equal. by eapply IH.
Qed.

(** (the mock channel against the real one)  A client that never
    disconnects and never meets a full queue gets from [MockZeroCopyChannel]
    exactly the answers of a [ZeroCopyChannel], whatever capacity it asked for:
    the mock differs only in having no bound and no connection state. *)
Theorem mock_channel_equivalent fuel cap s r os rs c' :
  (0 < fuel)%nat -> 0 <= cap <= 2 ^ 63 -> ZeroCopyChannel.Disconnect ∉ os ->
  ZeroCopyChannel.do_calls fuel (ZeroCopyChannel.new cap s r) os = Ret (rs, c') ->
  ZeroCopyChannel.Sent (Err QueueFull) ∉ rs ->
  mock_calls (new cap) os = rs.
Proof.
  intros Hf Hc Hd Hr Hq. destruct (ZeroCopyChannel.chan_new cap s r Hc) as (_ & Hrep & Hst).
  set (n := SpscQueue.capacity _) in *. clearbody n.
  assert (Hspec : forall os c m rs c', ZeroCopyChannel.implements c n m ->
    ZeroCopyChannel.do_calls fuel c os = Ret (rs, c') ->
    exists m', ZeroCopyChannel.spec_calls n m os = Some (rs, m')).
  { clear -Hf. induction os as [|o os IH]; intros c m rs c' Hi Hr; cbn in Hr |- *; simplify_eq; [eauto|].
    pose proof (ZeroCopyChannel.chan_do_call_spec fuel c n m o Hf Hi) as Ho.
    destruct (ZeroCopyChannel.spec_call n m o) as [[r1 m1]|]; [|by rewrite Ho in Hr].
    destruct Ho as (c1 & Ho & Hi1). rewrite Ho in Hr. cbn in Hr.
    destruct (ZeroCopyChannel.do_calls fuel c1 os) as [[rs1 c2]| |] eqn:E; cbn in Hr; simplify_eq.
    destruct (IH _ _ _ _ Hi1 E) as [m2 H2]. cbn. rewrite H2. by eexists. }
  destruct (Hspec os (ZeroCopyChannel.new cap s r)
    (ZeroCopyChannel.Build_spec_channel Creating [] []) rs c') as [m' Hm']; [by split|done|].
  eapply (mock_spec n os (new cap) _ rs m'); [|done..]. by split.
Qed.

Lemma mock_channel_equivalent_witness :
  let o v := PointerOffset.from_raw v in
  mock_calls (new 2) [ZeroCopyChannel.Send (o 7); ZeroCopyChannel.Send (o 8); ZeroCopyChannel.Receive;
    ZeroCopyChannel.Return (o 7); ZeroCopyChannel.Receive; ZeroCopyChannel.Receive;
    ZeroCopyChannel.Reclaim; ZeroCopyChannel.Reclaim]
  = [ZeroCopyChannel.Sent (Ok tt); ZeroCopyChannel.Sent (Ok tt); ZeroCopyChannel.Received (Ok (o 7));
     ZeroCopyChannel.Done; ZeroCopyChannel.Received (Ok (o 8)); ZeroCopyChannel.Received (Err Empty);
     ZeroCopyChannel.Reclaimed (Some (o 7)); ZeroCopyChannel.Reclaimed None].
Proof.
  eapply (mock_channel_equivalent 1 2 1 2); [lia|lia| |vm_compute; reflexivity|];
    intros H; repeat (apply elem_of_cons in H as [H|H]; [discriminate H|]); by apply elem_of_nil in H.
Defined.
End mock.
