(* ===== verification/Tests.v ===== *)
(** * The unit tests of the lock-free structures and the transport
    (the modules [tests] of entangle-lockfree/src/*.rs and
    entangle-transport/src/*.rs)

    The sequential tests as programs on the models: an [assert!] that fails is
    a [Panic], as is an [unwrap] of an error, and a test passes when it returns.
    They are run for several patterns of spurious compare-exchange failures,
    which the tests of the source cannot force.  The tests with threads are in
    SpscLoop.v, IndexSetLoop.v, BitsetLoop.v and MpmcLoop.v. *)
From S2P Require Import Prelude Contracts FreeList IndexSet Spsc Bitset Mpmc Relocatable.
From S2P Require Import PoolAlloc Channel Shm DataSegment SegmentMgr.
#[local] Open Scope Z_scope.
#[local] Open Scope rust_scope.

(** [assert!(b)], and [unwrap] of a [Result] and of an [Option]. *)
Notation "'assert!' b 'in' k" := (if b then k else Panic)
  (at level 10, b at level 100, k at level 200) : rust_scope.

Definition unwrap {A E} (r : result A E) : outcome A :=
  match r with Ok a => Ret a | Err _ => Panic end.
Definition unwrap_option {A} (r : option A) : outcome A :=
  match r with Some a => Ret a | None => Panic end.
Definition is_err {A E} (r : result A E) : bool := match r with Ok _ => false | Err _ => true end.
Definition is_none {A} (r : option A) : bool := match r with Some _ => false | None => true end.

#[global] Instance result_eq_dec {A E} `{EqDecision A, EqDecision E} : EqDecision (result A E).
Proof. solve_decision. Defined.

(** [assert_eq!] on what the tests compare. *)
Definition eqb {A} `{EqDecision A} (a b : A) : bool := bool_decide (a = b).

(** One, two and three turns of each loop. *)
Definition patterns : list (list bool) := [[false]; [true; false]; [true; true; false]].

Definition passes (test : list bool -> outcome unit) : bool :=
  forallb (fun sp => match test sp with Ret _ => true | _ => false end) patterns.

Module RelocatableTests.
Import RelocatablePtr.
Definition null_by_default (self : Z) : outcome unit :=
  let rp := null in
  assert! is_null rp in
  assert! load self rp =? 0 in
  Ret tt.

(** [data] is the address that [data.as_ptr()] gives. *)
Definition store_and_load (self data : Z) : outcome unit :=
  let rp := store self data in
  assert! negb (is_null rp) in
  let loaded := load self rp in
  assert! loaded =? data in
  Ret tt.

Definition clear_resets_to_null (self data : Z) : outcome unit :=
  let rp := store self data in
  assert! negb (is_null rp) in
  let rp := clear rp in
  assert! is_null rp in
  Ret tt.

(** The pointer and the data are different objects of one address space. *)
Theorem relocatable_tests_pass self data :
  fits 64 self -> fits 64 data -> self <> data -> - 2 ^ 63 <= data - self < 2 ^ 63 ->
  null_by_default self = Ret tt /\ store_and_load self data = Ret tt /\
  clear_resets_to_null self data = Ret tt.
Proof.
  intros Hs Hd Hne Hr. split; [done|].
  assert (Ho : offset (store self data) = data - self) by (by apply offset_store).
  assert (Hn : is_null (store self data) = false)
    by (unfold is_null; rewrite Ho; apply Z.eqb_neq; lia).
  split; [|unfold clear_resets_to_null; by rewrite Hn].
  unfold store_and_load, load. rewrite Hn, Ho, (proj2 (Z.eqb_neq (data - self) 0)) by lia. cbn [negb].
  replace (self + (data - self)) with data by lia. by rewrite wrap_small, Z.eqb_refl.
Qed.

Lemma relocatable_tests_pass_witness :
  store_and_load 4096 8200 = Ret tt.
Proof. apply (relocatable_tests_pass 4096 8200); [fits_tac|fits_tac|lia|lia]. Defined.
End RelocatableTests.

Module SpscTests.
Import SpscQueue.
Definition push_pop_basic : outcome unit :=
  let q := new 4 in
  assert! is_empty q in
  let! (r, q) := push q 1 in assert! r in
  let! (r, q) := push q 2 in assert! r in
  let! (r, q) := push q 3 in assert! r in
  let! (r, q) := push q 4 in assert! r in
  assert! is_full q in
  let! (r, q) := push q 5 in assert! negb r in
  let! (r, q) := pop q in assert! eqb r (Some 1) in
  let! (r, q) := pop q in assert! eqb r (Some 2) in
  let! (r, q) := pop q in assert! eqb r (Some 3) in
  let! (r, q) := pop q in assert! eqb r (Some 4) in
  assert! is_empty q in
  let! (r, q) := pop q in assert! eqb r None in
  Ret tt.

Fixpoint wrap_around_from (q : SpscQueue) (rounds : list Z) : outcome unit :=
  match rounds with
  | [] => Ret tt
  | round :: rounds =>
      let! (r, q) := push q (round * 2) in assert! r in
      let! (r, q) := push q (round * 2 + 1) in assert! r in
      let! (r, q) := pop q in assert! eqb r (Some (round * 2)) in
      let! (r, q) := pop q in assert! eqb r (Some (round * 2 + 1)) in
      wrap_around_from q rounds
  end.
Definition wrap_around : outcome unit := wrap_around_from (new 2) (seqZ 0 10).

Definition len_tracking : outcome unit :=
  let q := new 4 in
  assert! len q =? 0 in
  let! (_, q) := push q 1 in
  assert! len q =? 1 in
  let! (_, q) := push q 2 in
  assert! len q =? 2 in
  let! (_, q) := pop q in
  assert! len q =? 1 in
  Ret tt.

Theorem spsc_tests_pass :
  push_pop_basic = Ret tt /\ wrap_around = Ret tt /\ len_tracking = Ret tt.
Proof. vm_compute. repeat split. Qed.
End SpscTests.

Module IndexSetTests.
Import UniqueIndexSet.
Definition basic_acquire_release (sp : list bool) : outcome unit :=
  let! set := new 4 in
  assert! borrowed_count set =? 0 in
  assert! available set =? 4 in
  let! (a, set) := acquire sp set in let! a := unwrap a in
  let! (b, set) := acquire sp set in let! b := unwrap b in
  assert! negb (a =? b) in
  assert! borrowed_count set =? 2 in
  let! set := release sp set a in
  assert! borrowed_count set =? 1 in
  let! set := release sp set b in
  assert! borrowed_count set =? 0 in
  Ret tt.

Definition exhaust_and_recover (sp : list bool) : outcome unit :=
  let! set := new 2 in
  let! (a, set) := acquire sp set in let! a := unwrap a in
  let! (b, set) := acquire sp set in let! b := unwrap b in
  let! (r, set) := acquire sp set in assert! is_err r in
  let! set := release sp set a in
  let! (c, set) := acquire sp set in let! c := unwrap c in
  assert! c =? a in
  let! set := release sp set b in
  let! set := release sp set c in
  Ret tt.

(** [acquired] grows by [n] indices; then all of [indices] are given back. *)
Fixpoint acquire_many (n : nat) (sp : list bool) (set : UniqueIndexSet) (acquired : list Z)
    : outcome (list Z * UniqueIndexSet) :=
  match n with
  | O => Ret (acquired, set)
  | S n =>
      let! (r, set) := acquire sp set in
      let! i := unwrap r in
      acquire_many n sp set (acquired ++ [i])
  end.

Fixpoint release_all (indices : list Z) (sp : list bool) (set : UniqueIndexSet)
    : outcome UniqueIndexSet :=
  match indices with
  | [] => Ret set
  | idx :: indices => let! set := release sp set idx in release_all indices sp set
  end.

Definition all_indices_unique (sp : list bool) : outcome unit :=
  let n := 64 in
  let! set := new n in
  let! (acquired, set) := acquire_many (Z.to_nat n) sp set [] in
  assert! Z.of_nat (length (remove_dups acquired)) =? n in
  Ret tt.

(** With the numbers of the test as parameters. *)
Definition large_capacity (capacity : Z) (n : nat) : outcome unit :=
  let! set := new capacity in
  let! (indices, set) := acquire_many n [false] set [] in
  assert! borrowed_count set =? Z.of_nat n in
  let! set := release_all indices [false] set in
  assert! borrowed_count set =? 0 in
  Ret tt.
Definition large_capacity_beyond_16bit : outcome unit := large_capacity 100000 (Z.to_nat 70000).

Lemma acquire_many_wf n set acquired free held :
  wf set free held -> (n <= length free)%nat ->
  exists set', acquire_many n [false] set acquired = Ret (acquired ++ take n free, set') /\
    wf set' (drop n free) (rev (take n free) ++ held).
Proof.
  revert set acquired free held. induction n as [|n IH]; intros set acquired free held Hw Hn.
  { exists set. cbn. rewrite app_nil_r. by rewrite drop_0. }
  destruct free as [|x free]; [cbn in Hn; lia|].
  destruct (acquire_nonempty set x free held Hw) as (set1 & Ha & Hw1 & _).
  cbn [acquire_many]. rewrite Ha. cbn [obind unwrap].
  destruct (IH set1 (acquired ++ [x]) free (x :: held) Hw1) as (set2 & He & Hw2); [cbn in Hn; lia|].
  exists set2. rewrite He. cbn. rewrite <- app_assoc. split; [done|]. by rewrite <- app_assoc.
Qed.

Lemma release_all_wf indices set free held :
  wf set free (indices ++ held) ->
  exists set' free', release_all indices [false] set = Ret set' /\ wf set' free' held.
Proof.
  revert set free. induction indices as [|i l IH]; intros set free Hw; [by exists set, free|].
  destruct (release_wf set i free (l ++ held) Hw) as (set1 & Hr & Hw1 & _).
  cbn [release_all]. rewrite Hr.
  cbn [obind]. by apply (IH set1 (i :: free)).
Qed.

(** The counter of borrowed indices is right at every size that [new] accepts. *)
Theorem large_capacity_passes capacity n :
  0 < capacity < SENTINEL -> Z.of_nat n <= capacity -> large_capacity capacity n = Ret tt.
Proof.
  intros Hc Hn. unfold large_capacity.
  assert (Hnew : exists s, new capacity = Ret s /\ UniqueIndexSet.capacity s = capacity).
  { unfold new. rewrite (proj2 (Z.ltb_lt 0 capacity)), (proj2 (Z.ltb_lt capacity SENTINEL)) by lia.
    by eexists. }
  destruct Hnew as (s & Hs & Hcap). rewrite Hs. cbn [obind].
  pose proof (new_wf _ _ Hs) as Hw.
  destruct (acquire_many_wf n s [] _ _ Hw) as (s1 & Ha & Hw1); [rewrite length_seqZ; lia|].
  rewrite Ha. cbn [obind app]. rewrite app_nil_r in Hw1.
  pose proof (wf_borrowed _ _ _ Hw1) as Hb. unfold borrowed_count at 1. rewrite Hb.
  rewrite length_rev, length_take, length_seqZ.
  rewrite (proj2 (Z.eqb_eq _ _)) by lia.
  assert (Hp : wf s1 (drop n (seqZ 0 capacity)) (take n (seqZ 0 capacity) ++ [])).
  { eapply wf_held_perm; [exact Hw1|]. rewrite !app_nil_r. symmetry. apply Permutation_rev. }
  destruct (release_all_wf _ s1 _ [] Hp) as (s2 & fr & Hr & Hw2). rewrite Hr. cbn [obind].
  pose proof (wf_borrowed _ _ _ Hw2) as Hb2. unfold borrowed_count. by rewrite Hb2.
Qed.

Lemma large_capacity_passes_witness : large_capacity_beyond_16bit = Ret tt.
Proof. apply (large_capacity_passes 100000 (Z.to_nat 70000)); [unfold SENTINEL|]; lia. Defined.

Theorem index_set_tests_pass :
  passes basic_acquire_release = true /\ passes exhaust_and_recover = true /\
  passes all_indices_unique = true.
Proof. vm_compute. repeat split. Qed.
End IndexSetTests.

Module MpmcTests.
Import MpmcContainer.
Definition add_and_get (sp : list bool) : outcome unit :=
  let! c := new 4 in
  let! (r, c) := add sp c 100 in let! s0 := unwrap_option r in
  let! (r, c) := add sp c 200 in let! s1 := unwrap_option r in
  let! r := get c s0 in assert! eqb r (Some 100) in
  let! r := get c s1 in assert! eqb r (Some 200) in
  assert! len c =? 2 in
  Ret tt.

Definition remove_test (sp : list bool) : outcome unit :=
  let! c := new 4 in
  let! (r, c) := add sp c 42 in let! s := unwrap_option r in
  let! (r, c) := remove sp c s in assert! eqb r (Some 42) in
  let! r := get c s in assert! eqb r None in
  assert! len c =? 0 in
  Ret tt.

Definition full (sp : list bool) : outcome unit :=
  let! c := new 2 in
  let! (r, c) := add sp c 1 in let! _ := unwrap_option r in
  let! (r, c) := add sp c 2 in let! _ := unwrap_option r in
  let! (r, c) := add sp c 3 in assert! is_none r in
  Ret tt.

Definition reuse_after_remove (sp : list bool) : outcome unit :=
  let! c := new 2 in
  let! (r, c) := add sp c 1 in let! s := unwrap_option r in
  let! (_, c) := remove sp c s in
  let! (r, c) := add sp c 99 in let! s2 := unwrap_option r in
  let! r := get c s2 in assert! eqb r (Some 99) in
  Ret tt.

(** [values.sort(); assert_eq!(values, expected)] for an [expected] that is
    sorted: the same values, each as often. *)
Definition same_values (values expected : list Z) : bool :=
  bool_decide (values ≡ₚ expected).

Definition for_each_test (sp : list bool) : outcome unit :=
  let! c := new 4 in
  let! (_, c) := add sp c 10 in
  let! (_, c) := add sp c 20 in
  let! (_, c) := add sp c 30 in
  let! values := for_each c (fun _ v values => values ++ [v]) [] in
  assert! same_values values [10; 20; 30] in
  Ret tt.

Theorem mpmc_tests_pass :
  passes add_and_get = true /\ passes remove_test = true /\ passes full = true /\
  passes reuse_after_remove = true /\ passes for_each_test = true.
Proof. vm_compute. repeat split. Qed.
End MpmcTests.

Module BitsetTests.
Import AtomicBitSet.
Definition set_and_check (sp : list bool) : outcome unit :=
  let bs := new 128 in
  let! b := is_set bs 0 in assert! negb b in
  let! (b, bs) := set sp bs 0 in assert! b in
  let! b := is_set bs 0 in assert! b in
  let! (b, bs) := set sp bs 0 in assert! negb b in
  Ret tt.

Definition clear_test (sp : list bool) : outcome unit :=
  let bs := new 128 in
  let! (_, bs) := set sp bs 42 in
  let! (b, bs) := clear sp bs 42 in assert! b in
  let! b := is_set bs 42 in assert! negb b in
  let! (b, bs) := clear sp bs 42 in assert! negb b in
  Ret tt.

Definition count (sp : list bool) : outcome unit :=
  let bs := new 128 in
  let! (_, bs) := set sp bs 0 in
  let! (_, bs) := set sp bs 63 in
  let! (_, bs) := set sp bs 64 in
  let! (_, bs) := set sp bs 127 in
  assert! count_set bs =? 4 in
  Ret tt.

Definition find_and_clear (sp : list bool) : outcome unit :=
  let bs := new 128 in
  let! (_, bs) := set sp bs 5 in
  let! (_, bs) := set sp bs 70 in
  let! (r, bs) := find_and_clear_first_set sp bs in assert! eqb r (Some 5) in
  let! (r, bs) := find_and_clear_first_set sp bs in assert! eqb r (Some 70) in
  let! (r, bs) := find_and_clear_first_set sp bs in assert! eqb r None in
  Ret tt.

Theorem bitset_tests_pass :
  passes set_and_check = true /\ passes clear_test = true /\ passes count = true /\
  passes find_and_clear = true.
Proof. vm_compute. repeat split. Qed.
End BitsetTests.

Module PoolTests.
Import PoolAllocator.
#[local] Abbreviation index_set := UniqueIndexSet.UniqueIndexSet.
Definition new_pool (capacity chunk_size segment_id base_offset : Z)
    : outcome (PoolAllocator index_set) :=
  new (UniqueIndexSet.new capacity) chunk_size segment_id base_offset.

Definition allocate_and_deallocate : outcome unit :=
  let! alloc := new_pool 4 256 0 0 in
  assert! available alloc =? 4 in
  let! (r, alloc) := allocate alloc in let! o1 := unwrap r in
  let! (r, alloc) := allocate alloc in let! o2 := unwrap r in
  assert! negb (eqb o1 o2) in
  assert! allocated_count alloc =? 2 in
  let! alloc := deallocate alloc o1 in
  assert! allocated_count alloc =? 1 in
  assert! available alloc =? 3 in
  Ret tt.

Definition exhaust : outcome unit :=
  let! alloc := new_pool 2 64 0 0 in
  let! (r, alloc) := allocate alloc in let! _ := unwrap r in
  let! (r, alloc) := allocate alloc in let! _ := unwrap r in
  let! (r, alloc) := allocate alloc in assert! is_err r in
  Ret tt.

Definition offset_encoding : outcome unit :=
  let! alloc := new_pool 4 1024 3 4096 in
  let! (r, alloc) := allocate alloc in let! o := unwrap r in
  assert! PointerOffset.segment_id o =? 3 in
  assert! PointerOffset.offset o =? 4096 in
  Ret tt.

Theorem pool_tests_pass :
  allocate_and_deallocate = Ret tt /\ exhaust = Ret tt /\ offset_encoding = Ret tt.
Proof. vm_compute. repeat split. Qed.
End PoolTests.

Module ChannelTests.
Import ZeroCopyChannel.
(** [fuel] is that of the loop of [return_offset]: one turn is enough here. *)
Definition send_receive_cycle (fuel : nat) : outcome unit :=
  let ch := connect (new 4 1 2) in
  let offset := PointerOffset.new 0 1024 in
  let! (r, ch) := send ch offset in let! _ := unwrap r in
  let! (r, ch) := receive ch in let! received := unwrap r in
  assert! eqb received offset in
  let! ch := return_offset fuel ch received in
  let! (r, ch) := reclaim ch in let! reclaimed := unwrap_option r in
  assert! eqb reclaimed offset in
  Ret tt.

Definition disconnected_send_fails : outcome unit :=
  let ch := disconnect (connect (new 4 1 2)) in
  let offset := PointerOffset.new 0 0 in
  let! (r, ch) := send ch offset in assert! eqb r (Err SendConnectionBroken) in
  Ret tt.

Definition empty_receive : outcome unit :=
  let ch := connect (new 4 1 2) in
  let! (r, ch) := receive ch in assert! eqb r (Err Empty) in
  Ret tt.

Definition queue_full : outcome unit :=
  let ch := connect (new 2 1 2) in
  let! (r, ch) := send ch (PointerOffset.new 0 0) in let! _ := unwrap r in
  let! (r, ch) := send ch (PointerOffset.new 0 1) in let! _ := unwrap r in
  let! (r, ch) := send ch (PointerOffset.new 0 2) in
  assert! eqb r (Err QueueFull) in
  Ret tt.

Theorem channel_tests_pass :
  send_receive_cycle 1 = Ret tt /\ disconnected_send_fails = Ret tt /\
  empty_receive = Ret tt /\ queue_full = Ret tt.
Proof. vm_compute. repeat split. Qed.
End ChannelTests.

(** A segment of the mapped memory as the tests write to it: one [u64] cell
    per address, as [resolve_mut] and [resolve_ref] hand it out. *)
Abbreviation memory := (gmap Z Z).

Module DataSegmentTests.
Import DataSegment.
Section tests.
Context {P : Posix} (macos : bool) (hash : string -> Z).

Definition create_allocate_write_read (os : Os) (name : string) (mem : memory) : outcome unit :=
  let! (r, os) := create macos hash os name 64 4 0 in let! ds := unwrap r in
  let! (r, ds) := allocate ds in let! offset := unwrap r in
  let mem := <[resolve_ptr ds offset := 0xCAFEBABE]> mem in
  assert! eqb (mem !! resolve_ptr ds offset) (Some 0xCAFEBABE) in
  let! ds := deallocate ds offset in
  assert! available ds =? 4 in
  Ret tt.

Definition exhaust_and_recover (os : Os) (name : string) : outcome unit :=
  let! (r, os) := create macos hash os name 32 2 0 in let! ds := unwrap r in
  let! (r, ds) := allocate ds in let! o1 := unwrap r in
  let! (r, ds) := allocate ds in let! o2 := unwrap r in
  let! (r, ds) := allocate ds in assert! is_err r in
  let! ds := deallocate ds o1 in
  let! (r, ds) := allocate ds in let! o3 := unwrap r in
  let! (r, ds) := allocate ds in assert! is_err r in
  let! ds := deallocate ds o2 in
  let! ds := deallocate ds o3 in
  Ret tt.

Context {V : PosixView} {Sp : PosixSpec}.

(** On every system that creates the segment. *)
Theorem data_segment_tests_pass os name mem :
  (exists ds os', create macos hash os name 64 4 0 = Ret (Ok ds, os')) ->
  (exists ds os', create macos hash os name 32 2 0 = Ret (Ok ds, os')) ->
  create_allocate_write_read os name mem = Ret tt /\ exhaust_and_recover os name = Ret tt.
Proof using Sp.
  intros Hcr1 Hcr2. split.
  - destruct Hcr1 as (ds & os' & Hc). unfold create_allocate_write_read.
    destruct (ds_create_spec macos hash os name 64 4 0) as (r & os1 & Hc' & Hr);
      [done|vm_compute; repeat split; congruence|].
    rewrite Hc in Hc'. injection Hc' as <- <-. destruct Hr as (Hr & _).
    rewrite Hc. cbn [obind unwrap].
    destruct (ds_allocate_some ds 0 [1; 2; 3] [] Hr) as (s1 & -> & Hr1 & Hch & _).
    cbn [obind unwrap]. unfold eqb. rewrite lookup_insert_eq, bool_decide_true by done.
    rewrite <- Hch.
    destruct (ds_deallocate_some s1 0 [1; 2; 3] [] Hr1) as (s2 & -> & Hr2 & _).
    cbn [obind]. by destruct (ds_counts _ _ _ Hr2) as [_ ->].
  - destruct Hcr2 as (ds & os' & Hc). unfold exhaust_and_recover.
    destruct (ds_create_spec macos hash os name 32 2 0) as (r & os1 & Hc' & Hr);
      [done|vm_compute; repeat split; congruence|].
    rewrite Hc in Hc'. injection Hc' as <- <-. destruct Hr as (Hr & _).
    rewrite Hc. cbn [obind unwrap].
    destruct (ds_allocate_some ds 0 [1] [] Hr) as (s1 & -> & Hr1 & Hch1 & _). cbn [obind unwrap].
    destruct (ds_allocate_some s1 1 [] [0] Hr1) as (s2 & -> & Hr2 & Hch2 & _). cbn [obind unwrap].
    rewrite (ds_allocate_none s2 _ Hr2). cbn [obind is_err].
    rewrite <- Hch1, <- Hch2.
    destruct (ds_deallocate_some s2 0 [] [1]) as (s3 & -> & Hr3 & Hch3 & _).
    { eapply ds_rep_perm; [exact Hr2|]. constructor. }
    cbn [obind].
    destruct (ds_allocate_some s3 0 [] [1] Hr3) as (s4 & -> & Hr4 & Hch4 & _). cbn [obind unwrap].
    rewrite (ds_allocate_none s4 _ Hr4). cbn [obind is_err].
    rewrite <- (Hch2 1), <- (Hch3 1), <- (Hch4 1).
    destruct (ds_deallocate_some s4 1 [] [0]) as (s5 & -> & Hr5 & Hch5 & _).
    { eapply ds_rep_perm; [exact Hr4|]. constructor. }
    cbn [obind]. rewrite <- (Hch4 0), <- (Hch5 0).
    by destruct (ds_deallocate_some s5 0 [1] [] Hr5) as (s6 & -> & _).
Qed.
End tests.

Import ToyOs.
Lemma data_segment_tests_pass_witness :
  create_allocate_write_read (P := toy_posix) false no_hash (empty_os 100000) "basic" ∅ = Ret tt /\
  exhaust_and_recover (P := toy_posix) false no_hash (empty_os 100000) "basic" = Ret tt.
Proof. apply (data_segment_tests_pass false no_hash); eexists _, _; reflexivity. Defined.
End DataSegmentTests.

Module SegmentMgrTests.
Import SegmentManager.
Section tests.
Context {P : Posix} (macos : bool) (hash : string -> Z).

Definition single_segment (os : Os) (prefix : string) (mem : memory) : outcome unit :=
  let! (r, os) := create macos hash os prefix 64 4 in let! mgr := unwrap r in
  let! (r, mgr, os) := allocate macos hash os mgr in let! o := unwrap r in
  assert! PointerOffset.segment_id o =? 0 in
  let! v := resolve_ptr mgr o in
  let mem := <[v := 42]> mem in
  let! v := resolve_ptr mgr o in
  assert! eqb (mem !! v) (Some 42) in
  let! mgr := deallocate mgr o in
  Ret tt.

Definition auto_expand (os : Os) (prefix : string) : outcome unit :=
  let! (r, os) := create macos hash os prefix 32 2 in let! mgr := unwrap r in
  let! (r, mgr, os) := allocate macos hash os mgr in let! o1 := unwrap r in
  let! (r, mgr, os) := allocate macos hash os mgr in let! o2 := unwrap r in
  assert! segment_count mgr =? 1 in
  let! (r, mgr, os) := allocate macos hash os mgr in let! o3 := unwrap r in
  assert! segment_count mgr =? 2 in
  assert! PointerOffset.segment_id o3 =? 1 in
  let! mgr := deallocate mgr o1 in
  let! mgr := deallocate mgr o2 in
  let! mgr := deallocate mgr o3 in
  Ret tt.
End tests.

Import ToyOs.
Theorem segment_mgr_tests_pass :
  single_segment (P := toy_posix) false no_hash (empty_os 100000) "single" ∅ = Ret tt /\
  auto_expand (P := toy_posix) false no_hash (empty_os 100000) "expand" = Ret tt.
Proof. vm_compute. repeat split. Qed.
End SegmentMgrTests.
