(* ===== verification/TestsOs.v ===== *)
(** * The unit tests of the platform layer and of WaitSet
    (the modules [tests] of entangle-platform/src/*.rs and entangle/src/waitset.rs)

    As in Tests.v.  Where the laws of the system calls decide the outcome, the
    tests pass on every system that has them; the others are run on the example
    systems of their components.  Temporary files that a test removes at its
    end are left out. *)
From S2P Require Import Prelude Paths Contracts Shm Hex FileLock Monitor Event EventPorts WaitSet Signal Tests.
#[local] Open Scope Z_scope.
#[local] Open Scope rust_scope.

Module SharedMemoryTests.
Import SharedMemory.
Section tests.
Context {P : Posix} (macos : bool) (hash : string -> Z).

(** A [u64] in mapped memory is two little-endian [u32]s. *)
Definition store_u64 (os : Os) (addr offset v : Z) : Os :=
  store_u32 (store_u32 os addr offset (wrap 32 v)) addr (offset + 4) (Z.shiftr v 32).
Definition load_u64 (os : Os) (addr offset : Z) : Z :=
  load_u32 os addr offset + 2 ^ 32 * load_u32 os addr (offset + 4).

Definition create_and_open (os : Os) (name : string) : outcome Os :=
  let size := 4096 in
  let (r, os) := create macos hash os name size in let! shm := unwrap r in
  assert! SharedMemory.size shm =? size in
  assert! is_owner shm in
  let (r, os) := open macos hash os name in let! shm2 := unwrap r in
  assert! SharedMemory.size shm2 =? size in
  assert! negb (is_owner shm2) in
  Ret (drop (drop os shm2) shm).

Definition write_and_read (os : Os) (name : string) : outcome Os :=
  let size := 4096 in
  let (r, os) := create macos hash os name size in let! shm := unwrap r in
  let os := store_u64 os (ptr shm) 0 0xDEADBEEF in
  let (r, os) := open macos hash os name in let! shm2 := unwrap r in
  assert! load_u64 os (ptr shm2) 0 =? 0xDEADBEEF in
  Ret (drop (drop os shm2) shm).

Definition double_create_fails (os : Os) (name : string) : outcome unit :=
  let (r, os) := create macos hash os name 4096 in let! _ := unwrap r in
  let (r, os) := create macos hash os name 4096 in assert! is_err r in
  Ret tt.

Context {V : PosixView} {Sp : PosixSpec}.

(** Two mappings of one object: what one stores the other loads. *)
Lemma load_store_u64 os a b o v :
  fits 64 v -> mapped os a = Some o ->
  let os' := store_u64 os a b v in
  mapped os' a = Some o /\ names os' = names os /\ (forall o, size_of os' o = size_of os o) /\
  cell os' o b + 2 ^ 32 * cell os' o (b + 4) = v.
Proof using Sp.
  intros Hv Ha. unfold store_u64.
  destruct (store_u32_spec os a o b (wrap 32 v) Ha) as (Hn1 & Hs1 & Hm1 & Hc1 & _).
  destruct (store_u32_spec _ a o (b + 4) (Z.shiftr v 32) (Hm1 _ _ Ha)) as (Hn2 & Hs2 & Hm2 & Hc2 & Ho2).
  split; [auto|]. split; [congruence|]. split; [intros x; by rewrite Hs2, Hs1|].
  rewrite Hc2, Ho2, Hc1 by lia. unfold wrap. rewrite Z.shiftr_div_pow2 by lia.
  pose proof (Z.div_mod v (2 ^ 32)). lia.
Qed.

(** On every system: once [create] and [open] have succeeded no assertion fails. *)
Theorem shared_memory_tests_pass os name shm os1 :
  create macos hash os name 4096 = (Ok shm, os1) ->
  (forall shm2 os2, open macos hash os1 name = (Ok shm2, os2) ->
     create_and_open os name = Ret (drop (drop os2 shm2) shm)) /\
  (forall shm2 os2, open macos hash (store_u64 os1 (ptr shm) 0 0xDEADBEEF) name = (Ok shm2, os2) ->
     write_and_read os name = Ret (drop (drop os2 shm2) shm)) /\
  double_create_fails os name = Ret tt.
Proof using Sp.
  intros Hc. pose proof (shm_create_facts macos hash os name 4096) as Hf. rewrite Hc in Hf.
  destruct Hf as (Hn & _ & Hown & Hname & Hsize & o & Hnames & [Hb1 Hb2] & _).
  split; [|split].
  - intros shm2 os2 Ho. pose proof (shm_open_spec macos hash os1 name) as Hos. rewrite Ho in Hos.
    destruct Hos as (Hown2 & _ & _ & o2 & Hn2 & [_ Hsz2] & _ & [Hs2 _] & _).
    rewrite Hnames, lookup_insert_eq in Hn2. injection Hn2 as <-.
    unfold create_and_open. rewrite Hc. cbn [obind unwrap]. rewrite Hsize, Hown, Ho. cbn [obind unwrap].
    by rewrite Hsz2, Hs2, <- Hb2, Hsize, Hown2.
  - intros shm2 os2 Ho.
    destruct (load_store_u64 os1 (ptr shm) 0 o 0xDEADBEEF ltac:(fits_tac) Hb1) as (_ & Hnm & _ & Hv).
    pose proof (shm_open_spec macos hash (store_u64 os1 (ptr shm) 0 0xDEADBEEF) name) as Hos.
    rewrite Ho in Hos. destruct Hos as (_ & _ & _ & o2 & Hn2 & [Hm2 _] & _ & [_ Hc2] & _).
    rewrite Hnm, Hnames, lookup_insert_eq in Hn2. injection Hn2 as <-.
    unfold write_and_read. rewrite Hc. cbn [obind unwrap]. rewrite Ho. cbn [obind unwrap].
    unfold load_u64. rewrite !(load_u32_spec os2 _ o _ Hm2), !Hc2, Hv. done.
  - unfold double_create_fails. rewrite Hc. cbn [obind unwrap].
    destruct (shm_create_taken macos hash os1 name 4096) as [e ->]; [|done].
    rewrite Hnames, lookup_insert_eq. eauto.
Qed.
End tests.

Import ToyOs.
Lemma shared_memory_tests_pass_witness :
  double_create_fails (P := toy_posix) false no_hash (empty_os 10000) "double_create" = Ret tt.
Proof. eapply (shared_memory_tests_pass false no_hash). vm_compute. reflexivity. Defined.
End SharedMemoryTests.

Module FileLockTests.
Import FileLock.
Section tests.
Context {L : LockOs}.

Definition acquire_and_release (s : Lk) (path : string) : outcome Lk :=
  let (r, s) := acquire s path in let! lock := unwrap r in
  Ret (drop s lock).

(** [exists] is what [Path::exists] answers. *)
Definition release_and_remove_test (exists_ : Lk -> string -> bool) (s : Lk) (path : string)
    : outcome unit :=
  let (r, s) := acquire s path in let! lock := unwrap r in
  let (r, s) := release_and_remove s lock in let! _ := unwrap r in
  assert! negb (exists_ s path) in
  Ret tt.
End tests.
End FileLockTests.

Module MonitorTests.
Import ProcessMonitor.
Section tests.
Context {L : LockOs}.

Definition register_and_list (s : Lk) (root : string) : outcome Lk :=
  let node_id := 42 in
  let (r, s) := register s node_id root in let! monitor := unwrap r in
  let! nodes := unwrap (list_nodes s root) in
  assert! bool_decide (node_id ∈ nodes) in
  Ret (drop s monitor).

Definition cleanup_dead (s : Lk) (root : string) : outcome unit :=
  let node_id := 99 in
  let (r, s) := register s node_id root in let! monitor := unwrap r in
  let s := drop s monitor in
  let (r, s) := cleanup_dead_nodes s root in let! dead := unwrap r in
  assert! bool_decide (node_id ∈ dead) in
  Ret tt.
End tests.
End MonitorTests.

Module SignalTests.
Import SignalHandler.
(** A call that no handler interrupts makes its stores one after the other. *)
Definition run_call (f : flags) (call : list store) : flags := fold_left run_store call f.

Definition install_handlers `{SignalOs} (s : So) (f : flags) : outcome unit :=
  let f := run_call f reset in
  let (r, s) := install s in let! _ := unwrap r in
  assert! negb (shutdown_requested f) in
  Ret tt.

Definition manual_flag_set (f : flags) : outcome unit :=
  let f := run_call f reset in
  let f := run_call f [Store Shutdown true] in
  assert! shutdown_requested f in
  let f := run_call f reset in
  assert! negb (shutdown_requested f) in
  Ret tt.

(** Whatever the flags are when the tests start. *)
Theorem signal_tests_pass `{SignalOs} s s' f :
  install s = (Ok tt, s') -> install_handlers s f = Ret tt /\ manual_flag_set f = Ret tt.
Proof. intros Hi. split; [|done]. unfold install_handlers. by rewrite Hi. Qed.
End SignalTests.

Module EventTests.
Import EventNotification.
Section tests.
Context {E : EventOs}.

(** A test that returns, with its outcome, or one that hangs. *)
Definition notify_and_wait (linux : bool) (s : Ev) : sys (outcome unit) :=
  match new linux s with
  | (Err _, _) => Returns Panic
  | (Ok event, s) =>
      let* (r, s) := notify s event in
      match r with
      | Err _ => Returns Panic
      | Ok _ => let* (r, s) := wait s event in Returns (unwrap r)
      end
  end.

Definition try_wait_empty (linux : bool) (s : Ev) : sys (outcome unit) :=
  match new linux s with
  | (Err _, _) => Returns Panic
  | (Ok event, s) =>
      let* (r, s) := try_wait s event in
      Returns (let! b := unwrap r in assert! negb b in Ret tt)
  end.

Definition try_wait_with_pending (linux : bool) (s : Ev) : sys (outcome unit) :=
  match new linux s with
  | (Err _, _) => Returns Panic
  | (Ok event, s) =>
      let* (r, s) := notify s event in
      match r with
      | Err _ => Returns Panic
      | Ok _ =>
          let* (r1, s) := try_wait s event in
          let* (r2, s) := try_wait s event in
          Returns (let! b := unwrap r1 in assert! b in
                   let! b := unwrap r2 in assert! negb b in Ret tt)
      end
  end.

Context {V : EventView} {Sp : EventOsSpec} {Rd : EventOsReady}.

(** On every system that gives a descriptor, with an eventfd or with a pipe. *)
Theorem event_tests_pass linux s e s1 :
  new linux s = (Ok e, s1) ->
  notify_and_wait linux s = Returns (Ret tt) /\ try_wait_empty linux s = Returns (Ret tt) /\
  try_wait_with_pending linux s = Returns (Ret tt).
Proof.
  intros Hn. pose proof (new_spec linux s) as Hs. rewrite Hn in Hs.
  destruct Hs as (o & _ & Hl & _). set (c0 := Channel (kind_of e) 0) in *.
  unfold notify_and_wait, try_wait_empty, try_wait_with_pending. rewrite Hn.
  pose proof (limit_pos (kind_of e)) as Hlim.
  pose proof (exec_op_spec s1 e o c0 Notify Hl) as Hnotify. cbn in Hnotify.
  rewrite (proj2 (Z.ltb_lt _ _)) in Hnotify by done. destruct Hnotify as (s2 & En & _ & Hl2).
  destruct (notify s1 e) as [[[[]|er] sn]|]; try discriminate En. injection En as ->. cbn [sys_bind].
  pose proof (exec_op_spec s2 e o _ Wait Hl2) as Hwait. cbn in Hwait. destruct Hwait as (s3 & Ew & _).
  pose proof (exec_op_spec s1 e o c0 TryWait Hl) as (s4 & Et & _). cbn in Et.
  pose proof (exec_op_spec s2 e o _ TryWait Hl2) as (s5 & Et1 & _ & Hl5). cbn in Et1.
  pose proof (exec_op_spec s5 e o _ TryWait Hl5) as (s6 & Et2 & _).
  destruct (wait s2 e) as [[[[]|er] sw]|]; try discriminate Ew.
  split; [done|]. split; [by rewrite Et|]. rewrite Et1. cbn [sys_bind]. cbn in Et2. rewrite Et2. cbn.
  unfold consume. by destruct (kind_of e).
Qed.
End tests.

Import ToyEvents.
Lemma event_tests_pass_witness :
  notify_and_wait true no_events = Returns (Ret tt) /\
  notify_and_wait false no_events = Returns (Ret tt).
Proof.
  split; [destruct (new true no_events) as [[e|] s1] eqn:E
         |destruct (new false no_events) as [[e|] s1] eqn:E];
    try (vm_compute in E; discriminate); exact (proj1 (event_tests_pass _ _ e s1 E)).
Defined.
End EventTests.

Module WaitSetTests.
Definition empty_waitset_returns_empty `{EventOs} (s : Ev) : sys (outcome unit) :=
  let ws := WaitSet.new in
  let* (triggered, s) := WaitSet.wait s ws (Some (from_millis 10)) in
  Returns (assert! bool_decide (triggered = []) in Ret tt).

Theorem waitset_tests_pass `{EventOs} s : empty_waitset_returns_empty s = Returns (Ret tt).
Proof. done. Qed.
End WaitSetTests.

(** ** The file locks of the example system *)
Section toy.
#[local] Existing Instances ToyLocks.toy_locks ToyLocks.toy_lock_view.
Import ToyLocks.

Definition file_exists (s : @Lk toy_locks) (p : string) : bool :=
  bool_decide (is_Some (paths s !! p)).

Theorem lock_tests_pass :
  match FileLockTests.acquire_and_release (no_locks : @Lk toy_locks) "/tmp/a" with
  | Ret _ => true | _ => false end = true /\
  FileLockTests.release_and_remove_test file_exists (no_locks : @Lk toy_locks) "/tmp/b" = Ret tt /\
  match MonitorTests.register_and_list (no_locks : @Lk toy_locks) "/tmp/pm" with
  | Ret _ => true | _ => false end = true /\
  MonitorTests.cleanup_dead (no_locks : @Lk toy_locks) "/tmp/pm" = Ret tt.
Proof. split_and!; vm_compute; reflexivity. Qed.
End toy.
