(* ===== verification/Examples.v ===== *)
(** * The example programs (crates/entangle/examples/)

    pubsub.rs, reqres.rs and blackboard.rs as programs over the models of Node
    and of the patterns, from the creation of the node to the last line they
    print, run on the example systems.  event.rs and waitset.rs are stated for
    every system that has the laws of Event.v: the first never ends, the second
    reports a timeout.  multi_process.rs is PubSubLoop.v.

    What a program prints is a list of values, not of strings. *)
From Stdlib Require Import QArith.
From S2P Require Import Prelude Paths Contracts FreeList IndexSet Spsc PoolAlloc Channel Shm DataSegment.
From S2P Require Import Config Service PubSub ReqRes Blackboard Hex FileLock Monitor Event EventPorts.
From S2P Require Import WaitSet Signal Node Tests.
#[local] Open Scope Z_scope.
#[local] Open Scope rust_scope.

(** The configuration of the examples: only the root directory is their own. *)
Definition example_config (root : string) : EntangleConfig :=
  {| shm_root := root;
     node_name := node_name EntangleConfig_default;
     default_pubsub_qos := default_pubsub_qos EntangleConfig_default;
     default_event_qos := default_event_qos EntangleConfig_default |}.

(** [Node::builder().config(config).create().unwrap()] *)
Definition create_node {L : LockOs} {S : SignalOs} {D : DefaultHasher} (root : string)
    (x : Node.surroundings) (s : Lk) (so : So) : outcome (Node.Node * Lk * So) :=
  let '(r, s, so) := Node.create (Node.with_config Node.builder (example_config root)) x s so in
  let! node := unwrap r in Ret (node, s, so).

Module PubSubExample.
Import PubSubPorts.
(** The [f64] values of the example are exact. *)
Record SensorData := mk { timestamp : Z; value : Q }.
Definition zeroed : SensorData := mk 0 0.

Inductive line :=
| LineSent (timestamp : Z) (value : Q)
| LineReceived (timestamp : Z) (value : Q)
| LineActiveLoans (n : Z).

(** [i * 100] and [20.0 + (i as f64) * 0.5]. *)
Definition reading (i : Z) : SensorData := mk (i * 100) (20 + inject_Z i * (1 # 2))%Q.

Section main.
Context {P : Posix} {L : LockOs} {S : SignalOs} {D : DefaultHasher} `{FileSystem, Ron}.
Context (macos : bool) (hash : string -> Z) (fuel : nat).
#[local] Abbreviation World := (World SensorData).

(** [for i in 0..10u64 { loan; write the fields; send; println }] *)
Fixpoint send_readings (publisher : Publisher) (nums : list Z) (w : World) : outcome (list line * World) :=
  match nums with
  | [] => Ret ([], w)
  | i :: nums =>
      let! (r, w) := loan zeroed w publisher in let! sample := unwrap r in
      let! w := write w sample (mk (timestamp (reading i)) (value zeroed)) in
      let! w := write w sample (reading i) in
      let! (r, w) := send w sample in let! _ := unwrap r in
      let! (out, w) := send_readings publisher nums w in
      Ret (LineSent (i * 100) (20 + inject_Z i * (1 # 2)) :: out, w)
  end.

(** [for _ in 0..10 { if let Some(sample) = subscriber.receive().unwrap() { .. } }] *)
Fixpoint receive_all (subscriber : Subscriber) (n : nat) (w : World) : outcome (list line * World) :=
  match n with
  | O => Ret ([], w)
  | Datatypes.S n =>
      let! (r, w) := receive w subscriber in
      let! sample := unwrap r in
      match sample with
      | Some sample =>
          let! v := read w sample in
          let! w := drop_sample fuel w sample in
          let! (out, w) := receive_all subscriber n w in
          Ret (LineReceived (timestamp v) (value v) :: out, w)
      | None => receive_all subscriber n w
      end
  end.

Definition main (root : string) (x : Node.surroundings) (s : Lk) (so : So) (fs : Fs) (os : Os)
    : outcome (list line) :=
  let! (node, s, so) := create_node root x s so in
  let b := PubSubBuilder.max_loaned_samples
             (Node.publish_subscribe (Node.service node "sensor/temperature")) 16 in
  let '(r, fs) := PubSubBuilder.open_or_create "SensorData" 16 8 b fs os in
  let! (service, w) := unwrap r in
  let! (r, w) := create_publisher macos hash 16 (PubSubBuilder.port_builder service) w in
  let! publisher := unwrap r in
  let (subscriber, w) := create_subscriber (PubSubBuilder.port_builder service) w in
  let! (sent, w) := send_readings publisher (seqZ 0 10) w in
  let! (received, w) := receive_all subscriber 10 w in
  let! (r, w) := receive w subscriber in
  let! last := unwrap r in
  assert! is_none last in
  let! w := reclaim fuel w publisher in
  let! c := deref (publishers w) (p_cell publisher) in
  Ret (sent ++ received ++ [LineActiveLoans (active_loans c)]).
End main.
End PubSubExample.

Module ReqResExample.
Import ReqResPorts.
Record AddRequest := mk { a : Z; b : Z }.
Record AddResponse := mk_response { result : Z }.

Inductive line := LineSending (a b : Z) | LineResult (r : Z) | LineDone.

Section main.
Context {P : Posix} {L : LockOs} {S : SignalOs} {D : DefaultHasher} `{FileSystem, Ron}.
Context (macos : bool) (hash : string -> Z) (fuel : nat).
(** Reading the bytes of a request as a response, and conversely. *)
Context (cast_req : AddResponse -> AddRequest) (cast_res : AddRequest -> AddResponse).
#[local] Abbreviation World := (World AddRequest AddResponse).

(** [for i in 0..5u64 { .. }] *)
Fixpoint requests (client : Client) (nums : list Z) (w : World) : outcome (list line * World) :=
  match nums with
  | [] => Ret ([], w)
  | i :: nums =>
      let req := mk i (i * 10) in
      let! (r, w) := client_send w client req in let! pending := unwrap r in
      let! (r, w) := server_receive cast_req w in
      let! r := unwrap r in let! active := unwrap_option r in
      let sum := wrapping_add 64 (a (a_request active)) (b (a_request active)) in
      let! (r, w) := respond w active (mk_response sum) in let! _ := unwrap r in
      let! (r, w) := receive_response cast_res fuel w pending in let! resp := unwrap r in
      let! (out, w) := requests client nums w in
      Ret (LineSending (a req) (b req) :: LineResult (result resp) :: out, w)
  end.

Definition main (root : string) (x : Node.surroundings) (s : Lk) (so : So) (fs : Fs) (os : Os)
    : outcome (list line) :=
  let! (node, s, so) := create_node root x s so in
  let b := Node.request_response (Node.service node "calc/add") in
  let '(r, fs) := ReqResBuilder.open_or_create "AddRequest" "AddResponse" 16 8 8 8 b fs os in
  let! (service, w) := unwrap r in
  let! (r, w) := create_server macos hash 16 8 service w in let! _ := unwrap r in
  let (r, w) := create_client service w in let! client := unwrap r in
  let! (out, w) := requests client (seqZ 0 5) w in
  Ret (out ++ [LineDone]).
End main.
End ReqResExample.

(** [n as f64] for [0 <= n < 2^53]: the bits of the number, and back. *)
Definition f64_bits (n : Z) : Z :=
  if n =? 0 then 0
  else let e := Z.log2 n in Z.shiftl (e + 1023) 52 + Z.shiftl (n - 2 ^ e) (52 - e).
Definition f64_value (bits : Z) : Z :=
  if bits =? 0 then 0
  else let e := Z.shiftr bits 52 - 1023 in Z.shiftr (2 ^ 52 + Z.land bits (Z.ones 52)) (52 - e).

Module BlackboardExample.
Import Seqlock BlackboardPorts.

Inductive line :=
| LineNoData
| LineWrote (x y z : Z)
| LineLatest (x y z : Z)
| LineDone.

(** [Position]: three words; each coordinate of the example is an integer. *)
Definition position (x y z : Z) : list Z := [f64_bits x; f64_bits y; f64_bits z].
Definition coordinate (pos : list Z) (k : nat) : Z := f64_value (nth k pos 0).

Section main.
Context {P : Posix} {L : LockOs} {S : SignalOs} {D : DefaultHasher} `{FileSystem, Ron}.
Context (macos : bool) (hash : string -> Z) (fuel : nat).

(** [writer.write(&pos).unwrap()] with no other thread. *)
Definition write (slot : Slot) (pos : list Z) : outcome Slot :=
  match write_alone fuel slot (WriteLoad pos) with
  | (slot, WriteIdle) => Ret slot
  | _ => OutOfFuel
  end.

Fixpoint write_positions (nums : list Z) (slot : Slot) : outcome (list line * Slot) :=
  match nums with
  | [] => Ret ([], slot)
  | i :: nums =>
      let pos := position i (i * 2) (i * 3) in
      let! slot := write slot pos in
      let! (out, slot) := write_positions nums slot in
      Ret (LineWrote (coordinate pos 0) (coordinate pos 1) (coordinate pos 2) :: out, slot)
  end.

Definition main (root : string) (x : Node.surroundings) (s : Lk) (so : So) (fs : Fs) (os : Os)
    : outcome (list line) :=
  let! (node, s, so) := create_node root x s so in
  let b := Node.blackboard (Node.service node "state/position") in
  let '(r, fs) := open_or_create "Position" 24 8 b fs os in
  let! (service, w) := unwrap r in
  let! (r, w) := create_writer macos hash 24 3 service w in let! writer := unwrap r in
  let! reader := unwrap (create_reader service w) in
  let! reg := unwrap_option (BlackboardPorts.writer w) in
  let! r := read_alone fuel (slot reg) ReadLoad in
  assert! is_none r in
  let! (out, slot) := write_positions (seqZ 0 5) (slot reg) in
  let! r := read_alone fuel slot ReadLoad in
  let! latest := unwrap_option r in
  let line := LineLatest (coordinate latest 0) (coordinate latest 1) (coordinate latest 2) in
  assert! coordinate latest 0 =? 4 in
  Ret (LineNoData :: out ++ [line; LineDone]).
End main.
End BlackboardExample.

(** ** Their output on the example systems *)
Section output.
Import ToyOs ToyFs ToyLocks ToySignals.

(** A format that knows one configuration. *)
#[local] Instance one_config (c0 : StaticConfig.StaticConfig) : Ron := {
  to_ron c := if decide (c = c0) then Ok "config"%string else Err "unknown"%string;
  from_ron s := if decide (s = "config"%string) then Ok c0 else Err "syntax"%string;
}.

#[local] Instance sum_hasher : DefaultHasher := {
  Hasher := Z;
  hasher_new := 7;
  hash_u32 h x := wrap 64 (h * 31 + x);
  hash_u128 h x := wrap 64 (h * 31 + x);
  hash_thread h x := wrap 64 (h * 31 + x);
  finish h := wrap 64 h;
}.

Definition here : Node.surroundings := Node.mk_surroundings 100 (Some 1700000000000000000) 1.
#[local] Abbreviation no_locks := (ToyLocks.no_locks : @Lk toy_locks).
#[local] Abbreviation no_handlers := (∅ : @So toy_signals).

Definition pubsub_output : outcome (list PubSubExample.line) :=
  let _ := one_config (StaticConfig.new PubSub "sensor/temperature" "SensorData" 16 8) in
  PubSubExample.main (P := toy_posix) false no_hash 11 "/tmp/e/" here no_locks no_handlers empty_fs
    (empty_os 100000).

Definition reqres_output : outcome (list ReqResExample.line) :=
  let _ := one_config (StaticConfig.new ReqRes "calc/add" "AddRequest:AddResponse" 16 8) in
  ReqResExample.main (P := toy_posix) false no_hash 1
    (fun x => ReqResExample.mk (ReqResExample.result x) 0)
    (fun x => ReqResExample.mk_response (ReqResExample.a x))
    "/tmp/e/" here no_locks no_handlers empty_fs (empty_os 100000).

Definition blackboard_output : outcome (list BlackboardExample.line) :=
  let _ := one_config (StaticConfig.new Config.Blackboard "state/position" "Position" 24 8) in
  BlackboardExample.main (P := toy_posix) false no_hash 6 "/tmp/e/" here no_locks no_handlers empty_fs
    (empty_os 100000).

Theorem pubsub_example :
  pubsub_output = Ret (
    map (fun i => PubSubExample.LineSent (i * 100) (20 + inject_Z i * (1 # 2))) (seqZ 0 10) ++
    map (fun i => PubSubExample.LineReceived (i * 100) (20 + inject_Z i * (1 # 2))) (seqZ 0 10) ++
    [PubSubExample.LineActiveLoans 0]).
Proof. vm_compute. reflexivity. Qed.

Theorem reqres_example :
  reqres_output = Ret (
    concat (map (fun i => [ReqResExample.LineSending i (i * 10); ReqResExample.LineResult (i * 11)]) (seqZ 0 5))
    ++ [ReqResExample.LineDone]).
Proof. vm_compute. reflexivity. Qed.

Theorem blackboard_example :
  blackboard_output = Ret (
    BlackboardExample.LineNoData ::
    map (fun i => BlackboardExample.LineWrote i (i * 2) (i * 3)) (seqZ 0 5) ++
    [BlackboardExample.LineLatest 4 8 12; BlackboardExample.LineDone]).
Proof. vm_compute. reflexivity. Qed.
End output.

(** ** event.rs: the listener's thread and the main thread *)
Module EventExample.
Import EventNotification.

Inductive line := LineWaiting | LineReceived | LineSending | LineDone.

(** The main thread: about to notify, in [join], at its end; the other: at its
    start, in [wait], at its end.  A failed [unwrap] ends a thread in [..Panicked]. *)
Inductive main_pc := MainNotify | MainJoin | MainDone | MainPanicked.
Inductive listener_pc := ListenStart | ListenWait | ListenDone | ListenPanicked.

Section example.
Context {E : EventOs}.

Record state := mk_state {
  ev : Ev;
  listener : Listener.Listener;
  notifier : Notifier.Notifier;
  main_at : main_pc;
  listener_at : listener_pc;
  out : list line;
}.

Definition goto (s : state) (e : Ev) (m : main_pc) (l : listener_pc) (o : list line) : state :=
  mk_state e (listener s) (notifier s) m l (out s ++ o).

(** One step of either thread; a call that blocks is no step. *)
Inductive step : state -> state -> Prop :=
| step_start s :
    listener_at s = ListenStart ->
    step s (goto s (ev s) (main_at s) ListenWait [LineWaiting])
| step_wait s e r :
    listener_at s = ListenWait -> Listener.wait (ev s) (listener s) = Returns (r, e) ->
    step s (match r with
            | Ok _ => goto s e (main_at s) ListenDone [LineReceived]
            | Err _ => goto s e (main_at s) ListenPanicked []
            end)
| step_notify s e r :
    main_at s = MainNotify -> Notifier.notify (ev s) (notifier s) = Returns (r, e) ->
    step s (match r with
            | Ok _ => goto s e MainJoin (listener_at s) [LineSending]
            | Err _ => goto s e MainPanicked (listener_at s) [LineSending]
            end)
| step_join s :
    main_at s = MainJoin -> listener_at s = ListenDone ->
    step s (goto s (ev s) MainDone (listener_at s) [LineDone])
| step_join_panic s :
    main_at s = MainJoin -> listener_at s = ListenPanicked ->
    step s (goto s (ev s) MainPanicked (listener_at s) []).

Definition start (s : Ev) (l : Listener.Listener) (n : Notifier.Notifier) : state :=
  mk_state s l n MainNotify ListenStart [].

Context {V : EventView} {Sp : EventOsSpec} {Rd : EventOsReady}.

(** Nothing is pending at the listener, and the thread has not got past [wait]. *)
Definition stuck (s : state) : Prop :=
  (exists o o' c', o' <> o /\
     live (ev s) (Listener.event (listener s)) o (Channel (kind_of (Listener.event (listener s))) 0) /\
     live (ev s) (Notifier.event (notifier s)) o' c') /\
  (listener_at s = ListenStart \/ listener_at s = ListenWait) /\ main_at s <> MainDone /\
  LineReceived ∉ out s /\ LineDone ∉ out s.

Lemma not_printed (x y : line) l : x ∉ l -> x <> y -> x ∉ l ++ [y].
Proof. intros Hl Hxy. by rewrite elem_of_app, list_elem_of_singleton; intros [?|?]. Qed.

Lemma stuck_waits s : stuck s -> Listener.wait (ev s) (listener s) = Blocks.
Proof.
  intros ((o & o' & c' & _ & Hl & _) & _).
  pose proof (exec_op_spec _ _ _ _ Wait Hl) as Hw. cbn in Hw. unfold Listener.wait.
  by destruct (EventNotification.wait _ _) as [[r e]|].
Qed.

Lemma notify_keeps s e r : stuck s -> Notifier.notify (ev s) (notifier s) = Returns (r, e) ->
  exists o o' c', o' <> o /\
    live e (Listener.event (listener s)) o (Channel (kind_of (Listener.event (listener s))) 0) /\
    live e (Notifier.event (notifier s)) o' c'.
Proof.
  intros ((o & o' & c' & Hne & Hl & Hn) & _) He.
  assert (H1 : notify_times 1 (ev s) (notifier s) = Returns e) by (cbn; by rewrite He).
  pose proof (notify_times_frame 1 _ _ _ _ _ _ _ _ Hn Hl ltac:(congruence) H1) as Hl'.
  unfold Notifier.notify in He. pose proof (notify_spec _ _ _ _ Hn) as Hs.
  pose proof Hn as (_ & _ & _ & _ & Hp).
  destruct (EventNotification.notify (ev s) _) as [[[[]|er] e']|]; cbn in He; [| |done];
    injection He as <- <-; exists o, o'.
  - destruct Hs as [Hlim Ho]. exists (put c'). split; [done|]. split; [done|].
    eapply live_only; [done|done|done|]. cbn. lia.
  - destruct Hs as [[Hd Hc] _]. exists c'. split; [done|]. split; [done|].
    unfold live, open_on in *. by rewrite Hd, Hc.
Qed.

Lemma stuck_step s s' : stuck s -> step s s' -> stuck s'.
Proof.
  intros Hst Hs. pose proof (stuck_waits s Hst) as Hw.
  pose proof Hst as (Hlive & Hat & Hmain & Ho1 & Ho2).
  destruct Hs as [s Hl|s e r Hl He|s e r Hm He|s Hm Hl|s Hm Hl].
  - split; [done|]. split; [by right|]. split; [done|]. cbn. by split; apply not_printed.
  - congruence.
  - pose proof (notify_keeps s e r Hst He) as Hk.
    destruct r; (split; [done|]); (split; [done|]); (split; [done|]); cbn;
      by split; apply not_printed.
  - destruct Hat; congruence.
  - destruct Hat; congruence.
Qed.

(** (examples/event.rs)  However its two threads run, the example never
    reports the event and never ends: [join] waits for a thread that waits for
    an event nobody sends to it. *)
Theorem event_example_hangs linux svc s l n s1 st :
  create_ports false linux svc s = Some (l, n, s1) -> rtc step (start s1 l n) st ->
  main_at st <> MainDone /\ LineReceived ∉ out st /\ LineDone ∉ out st /\
  (main_at st = MainJoin -> listener_at st = ListenWait -> forall st', ~ step st st').
Proof.
  intros Hc Hr. destruct (create_ports_live _ _ _ _ _ _ _ Hc) as (o & o' & c' & Hne & Hl & Hn).
  assert (Hst : stuck st).
  { apply (invariant_rtc step (fun x => x = start s1 l n) stuck (start s1 l n) st); [|done|done].
    split; [|intros x y; apply stuck_step]. intros x ->.
    split; [by exists o, o', c'|]. split; [by left|]. split; [done|]. by split; intros ?%elem_of_nil. }
  pose proof (stuck_waits st Hst) as Hw. destruct Hst as (_ & Hat & Hm & H1 & H2).
  do 3 (split; [done|]). intros Hj Hlw st' Hs. destruct Hs; try congruence; destruct Hat; congruence.
Qed.
End example.

Section witness.
Import ToyEvents.
(** Both threads run as far as they can. *)
Lemma event_example_hangs_witness :
  exists l n s1 st, create_ports false true example_service no_events = Some (l, n, s1) /\
    rtc step (start s1 l n) st /\ out st = [LineWaiting; LineSending] /\
    main_at st = MainJoin /\ listener_at st = ListenWait /\ forall st', ~ step st st'.
Proof.
  destruct (create_ports false true example_service no_events) as [[[l n] s1]|] eqn:E1;
    [|vm_compute in E1; discriminate].
  destruct (Notifier.notify s1 n) as [[r s2]|] eqn:E2.
  2: { exfalso. vm_compute in E1. injection E1 as <- <- <-. vm_compute in E2. discriminate. }
  assert (Hok : r = Ok tt).
  { vm_compute in E1. injection E1 as <- <- <-. vm_compute in E2. by injection E2 as <- _. }
  subst r. set (st := mk_state s2 l n MainJoin ListenWait [LineWaiting; LineSending]).
  assert (Hr : rtc step (start s1 l n) st).
  { eapply rtc_l; [by apply step_start|]. apply rtc_once.
    exact (step_notify (goto (start s1 l n) s1 MainNotify ListenWait [LineWaiting]) s2 (Ok tt) eq_refl E2). }
  exists l, n, s1, st. split; [reflexivity|]. split; [exact Hr|].
  destruct (event_example_hangs true example_service no_events l n s1 st E1 Hr) as (_ & _ & _ & Hj).
  split; [reflexivity|]. split; [reflexivity|]. split; [reflexivity|]. apply Hj; reflexivity.
Defined.
End witness.
End EventExample.

(** ** waitset.rs *)
Module WaitSetExample.
Import WaitSet EventNotification.

Inductive line :=
| LineAttachedA (id : Z)
| LineAttachedB (id : Z)
| LineSendingB
| LineWaiting
| LineTriggeredA
| LineTriggeredB
| LineTimedOut
| LineDone.

Section example.
Context {E : EventOs}.

(** The four ports, in the order of the example. *)
Definition create_four (linux : bool) (svc_a svc_b : EventService.EventService) (s : Ev)
    : option (Notifier.Notifier * Notifier.Notifier * Listener.Listener * Listener.Listener * Ev) :=
  match Notifier.create linux (EventService.notifier svc_a) s with
  | (Err _, _) => None
  | (Ok na, s) =>
  match Notifier.create linux (EventService.notifier svc_b) s with
  | (Err _, _) => None
  | (Ok nb, s) =>
  match Listener.create linux (EventService.listener svc_a) s with
  | (Err _, _) => None
  | (Ok la, s) =>
  match Listener.create linux (EventService.listener svc_b) s with
  | (Err _, _) => None
  | (Ok lb, s) => Some (na, nb, la, lb, s)
  end end end end.

(** The loop over what was triggered. *)
Definition report (id_a id_b : Z) (triggered : list Z) : list line :=
  concat (map (fun id => if id =? id_a then [LineTriggeredA]
                         else if id =? id_b then [LineTriggeredB] else []) triggered).

(** The thread that notifies B, before or after the main thread is in [wait]:
    its state and what it prints. *)
Definition notify_b (s : Ev) (nb : Notifier.Notifier) : sys (list line * Ev) :=
  let* (_, s) := Notifier.notify s nb in Returns ([LineSendingB], s).

(** [early]: the other thread is done when [wait] looks at the descriptors. *)
Definition main (early : bool) (na nb : Notifier.Notifier) (la lb : Listener.Listener) (s : Ev)
    : sys (outcome (list line)) :=
  let waitset := WaitSet.new in
  let (id_a, waitset) := attach_listener waitset la in
  let (id_b, waitset) := attach_listener waitset lb in
  let attached := [LineAttachedA id_a; LineAttachedB id_b; LineWaiting] in
  let* (before, s) := (if early then notify_b s nb else Returns ([], s)) in
  let* (triggered, s) := WaitSet.wait s waitset (Some (from_millis 500)) in
  let* (after, s) := (if early then Returns ([], s) else notify_b s nb) in
  let lines := report id_a id_b triggered in
  let none := match triggered with [] => [LineTimedOut] | _ => [] end in
  let* (r, s) := Notifier.notify s na in
  Returns (let! _ := unwrap r in
           Ret (attached ++ before ++ lines ++ none ++ after ++ [LineDone])).

Context {V : EventView} {Sp : EventOsSpec} {Rd : EventOsReady}.

Lemma live_not_readable s e o k :
  live s e o (Channel k 0) -> readable s (read_raw_fd e) = false.
Proof. intros (Hr & _ & Hc & _). unfold readable. rewrite Hr. cbn. by rewrite Hc. Qed.

(** A notification of an event with room succeeds and touches no other event. *)
Lemma notify_other s n o c :
  live s (Notifier.event n) o c -> pending c < limit (kind c) ->
  exists s', Notifier.notify s n = Returns (Ok tt, s') /\ live s' (Notifier.event n) o (put c) /\
    forall e' o' c', live s e' o' c' -> o' <> o -> live s' e' o' c'.
Proof.
  intros Hn Hlim. pose proof (exec_op_spec s _ o c Notify Hn) as Hs. cbn [spec_op exec_op] in Hs.
  rewrite (proj2 (Z.ltb_lt _ _)) in Hs by done. destruct Hs as (s' & Hs & [Hd Hc] & Hl).
  exists s'. unfold Notifier.notify. destruct (notify s (Notifier.event n)) as [[[[]|er] s2]|]; try discriminate Hs.
  injection Hs as ->. split; [done|]. split; [done|]. intros e' o' c' (H1 & H2 & H3 & H4) Hne.
  unfold live, open_on in *. by rewrite Hd, Hc, lookup_insert_ne.
Qed.

(** All four are live, on four objects; nothing is pending, except at B. *)
Definition four (s : Ev) (cb : channel) (na nb : Notifier.Notifier) (la lb : Listener.Listener) : Prop :=
  exists oa ob oc od, NoDup [oa; ob; oc; od] /\
    live s (Notifier.event na) oa (Channel (kind_of (Notifier.event na)) 0) /\
    live s (Notifier.event nb) ob cb /\
    live s (Listener.event la) oc (Channel (kind_of (Listener.event la)) 0) /\
    live s (Listener.event lb) od (Channel (kind_of (Listener.event lb)) 0).

(** A new event gets an object that no live one has. *)
Lemma new_fresh linux s e s' :
  new linux s = (Ok e, s') ->
  exists o, live s' e o (Channel (kind_of e) 0) /\
    forall e' o' c', live s e' o' c' -> o' <> o /\ live s' e' o' c'.
Proof.
  intros Hn. pose proof (new_spec linux s) as Hs. rewrite Hn in Hs.
  destruct Hs as (o & [Ho _] & Hl & _ & Hds & Hcs). exists o. split; [done|].
  intros e' o' c' (H1 & H2 & H3 & H4). assert (o' <> o) by congruence. split; [done|].
  unfold live, open_on in *. rewrite Hcs, lookup_insert_ne by done. split_and!; auto; apply H4.
Qed.

Lemma create_four_live linux svc_a svc_b s na nb la lb s' :
  create_four linux svc_a svc_b s = Some (na, nb, la, lb, s') ->
  four s' (Channel (kind_of (Notifier.event nb)) 0) na nb la lb.
Proof.
  unfold create_four, Notifier.create, Listener.create. intros Hcr.
  destruct (new linux s) as [[ena|] s1] eqn:E1; [|done].
  destruct (new linux s1) as [[enb|] s2] eqn:E2; [|done].
  destruct (new linux s2) as [[ela|] s3] eqn:E3; [|done].
  destruct (new linux s3) as [[elb|] s4] eqn:E4; [|done]. injection Hcr as <- <- <- <- <-.
  destruct (new_fresh _ _ _ _ E1) as (oa & Ha & _). destruct (new_fresh _ _ _ _ E2) as (ob & Hb & F2).
  destruct (new_fresh _ _ _ _ E3) as (oc & Hc & F3). destruct (new_fresh _ _ _ _ E4) as (od & Hd & F4).
  destruct (F2 _ _ _ Ha) as [N1 Ha2]. destruct (F3 _ _ _ Ha2) as [N2 Ha3], (F3 _ _ _ Hb) as [N3 Hb3].
  destruct (F4 _ _ _ Ha3) as [N4 Ha4], (F4 _ _ _ Hb3) as [N5 Hb4], (F4 _ _ _ Hc) as [N6 Hc4].
  exists oa, ob, oc, od. split; [|done].
  repeat (apply NoDup_cons; split; [rewrite ?elem_of_cons, ?elem_of_nil; intuition congruence|]).
  constructor.
Qed.

Lemma live_view s s' e o c : same_view s s' -> live s e o c -> live s' e o c.
Proof. intros [Hd Hc] Hl. unfold live, open_on in *. by rewrite Hd, Hc. Qed.

Lemma wait_four s cb na nb la lb ws :
  four s cb na nb la lb -> (fd <$> fds ws) = [Listener.raw_fd la; Listener.raw_fd lb] ->
  exists s', WaitSet.wait s ws (Some (from_millis 500)) = Returns ([], s') /\ four s' cb na nb la lb.
Proof.
  intros (oa & ob & oc & od & Hnd & Ha & Hb & Hc & Hd) Hws.
  pose proof (wait_reports s _ ws (Some (from_millis 500)) Hws) as Hw.
  destruct (WaitSet.wait s ws _) as [[r s']|].
  - destruct Hw as (_ & Hv & ->). exists s'. cbn. unfold Listener.raw_fd.
    rewrite (live_not_readable _ _ _ _ Hc), (live_not_readable _ _ _ _ Hd). split; [done|].
    exists oa, ob, oc, od. split; [done|]. split_and!; by eapply live_view.
  - destruct Hw as (_ & _ & _ & Hn). by destruct Hn.
Qed.

Lemma notify_a s cb na nb la lb :
  four s cb na nb la lb -> exists s', Notifier.notify s na = Returns (Ok tt, s').
Proof.
  intros (oa & ob & oc & od & _ & Ha & _).
  destruct (notify_other s na oa _ Ha) as (s' & ? & _); [apply limit_pos|by exists s'].
Qed.

Lemma notify_b_four s na nb la lb :
  four s (Channel (kind_of (Notifier.event nb)) 0) na nb la lb ->
  exists s' cb, notify_b s nb = Returns ([LineSendingB], s') /\ four s' cb na nb la lb.
Proof.
  intros (oa & ob & oc & od & Hnd & Ha & Hb & Hc & Hd).
  destruct (notify_other s nb ob _ Hb) as (s' & Hn & Hb' & Hk); [apply limit_pos|].
  exists s', (put (Channel (kind_of (Notifier.event nb)) 0)). split; [unfold notify_b; by rewrite Hn|].
  pose proof Hnd as Hnd'. rewrite !NoDup_cons, !elem_of_cons, !elem_of_nil in Hnd'.
  exists oa, ob, oc, od. split; [done|]. split_and!; [|done|..]; apply Hk; try done; intuition congruence.
Qed.

(** (examples/waitset.rs)  Whether the other thread notifies before or after
    the main thread looks at the descriptors, the example reports a timeout and
    neither listener: the comment in it says that listener B triggers. *)
Theorem waitset_example_times_out early linux svc_a svc_b s na nb la lb s1 :
  create_four linux svc_a svc_b s = Some (na, nb, la, lb, s1) ->
  exists lines, main early na nb la lb s1 = Returns (Ret lines) /\
    LineTimedOut ∈ lines /\ LineTriggeredA ∉ lines /\ LineTriggeredB ∉ lines.
Proof.
  intros Hc%create_four_live. unfold main. cbn [attach_listener attach_fd].
  set (ws := WaitSet.mk _).
  assert (Hws : (fd <$> fds ws) = [Listener.raw_fd la; Listener.raw_fd lb]) by done. clearbody ws.
  destruct early; cbn [sys_bind].
  - destruct (notify_b_four _ _ _ _ _ Hc) as (s2 & cb & -> & H2). cbn [sys_bind].
    destruct (wait_four _ _ _ _ _ _ ws H2 Hws) as (s3 & -> & H3). cbn [sys_bind].
    destruct (notify_a _ _ _ _ _ _ H3) as (s4 & ->). cbn.
    eexists. split; [done|]. set_solver.
  - destruct (wait_four _ _ _ _ _ _ ws Hc Hws) as (s2 & -> & H2). cbn [sys_bind].
    destruct (notify_b_four _ _ _ _ _ H2) as (s3 & cb & -> & H3). cbn [sys_bind].
    destruct (notify_a _ _ _ _ _ _ H3) as (s4 & ->). cbn.
    eexists. split; [done|]. set_solver.
Qed.
End example.

Section witness.
Import ToyEvents.
Definition other_service : EventService.EventService :=
  EventService.mk "event/sensor-b" EntangleConfig_default 1 EventQos_default.

Lemma waitset_example_times_out_witness :
  match create_four true example_service other_service no_events with
  | Some (na, nb, la, lb, s1) =>
      exists lines, main true na nb la lb s1 = Returns (Ret lines) /\ LineTimedOut ∈ lines
  | None => False
  end.
Proof.
  destruct (create_four true example_service other_service no_events) as [[[[[na nb] la] lb] s1]|] eqn:E.
  - destruct (waitset_example_times_out true true _ _ _ na nb la lb s1 E) as (lines & H1 & H2 & _).
    exists lines. split; [exact H1|exact H2].
  - vm_compute in E. discriminate.
Defined.
End witness.
End WaitSetExample.
