(* ===== verification/Integration.v ===== *)
(** * The integration tests (crates/entangle/tests/integration.rs)

    The tests of one thread as programs over the models of Node and of the
    patterns, from the creation of the node to the last assertion, run on the
    example systems; and test_publisher_disconnect_detection of
    tests/cross_process.rs.  pubsub_concurrent_producer_consumer is PubSubLoop.v. *)
From Stdlib Require Import QArith.
From stdpp Require Import sorting.
From S2P Require Import Prelude Paths Contracts FreeList IndexSet Spsc PoolAlloc Channel Shm DataSegment.
From S2P Require Import Config Service PubSub ReqRes Blackboard Hex FileLock Monitor Event EventPorts.
From S2P Require Import Signal Node Tests Examples.
#[local] Open Scope Z_scope.
#[local] Open Scope rust_scope.

Module Integration.

(** The [f64] values of the tests are exact. *)
Record SensorData := mk { timestamp : Z; value : Q; flags : Z; pad : Z }.
Definition no_data : SensorData := mk 0 0 0 0.

Section tests.
Context {P : Posix} {L : LockOs} {S : SignalOs} {D : DefaultHasher} `{FileSystem, Ron}.
Context (macos : bool) (hash : string -> Z) (fuel : nat).
(** What a test runs on: the node's root and surroundings, and the systems. *)
Context (root : string) (x : Node.surroundings) (s : Lk) (so : So) (fs : Fs) (os : Os).

(** ** Publish-subscribe *)
Section pubsub.
Import PubSubPorts.
Context {T : Type} (zero : T) (type_name : string) (size_of align_of : Z).
#[local] Abbreviation World := (World T).

(** The node, the service and one port of each kind. *)
Definition pubsub_ports (name : string) (build : PubSubBuilder.PubSubBuilder -> PubSubBuilder.PubSubBuilder)
    : outcome (Publisher * Subscriber * World) :=
  let! (node, s, so) := create_node root x s so in
  let b := build (Node.publish_subscribe (Node.service node name)) in
  let '(r, fs) := PubSubBuilder.open_or_create type_name size_of align_of b fs os in
  let! (service, w) := unwrap r in
  let! (r, w) := create_publisher macos hash size_of (PubSubBuilder.port_builder service) w in
  let! publisher := unwrap r in
  let (subscriber, w) := create_subscriber (PubSubBuilder.port_builder service) w in
  Ret (publisher, subscriber, w).

Definition active_loans_now (w : World) (p : Publisher) : outcome Z :=
  let! c := deref (publishers w) (p_cell p) in Ret (active_loans c).

(** [let mut sample = publisher.loan().unwrap(); *sample = v; sample.send().unwrap();] *)
Definition loan_write_send (w : World) (p : Publisher) (v : T) : outcome World :=
  let! (r, w) := loan zero w p in let! sample := unwrap r in
  let! w := write w sample v in
  let! (r, w) := send w sample in let! _ := unwrap r in Ret w.

Fixpoint send_values (w : World) (p : Publisher) (vs : list T) : outcome World :=
  match vs with
  | [] => Ret w
  | v :: vs => let! w := loan_write_send w p v in send_values w p vs
  end.

(** [subscriber.receive().unwrap().unwrap()], with the value read. *)
Definition receive_value (w : World) (sub : Subscriber) : outcome (Sample * T * World) :=
  let! (r, w) := receive w sub in
  let! r := unwrap r in let! sample := unwrap_option r in
  let! v := read w sample in Ret (sample, v, w).

(** A loop that receives a sample, compares its value and drops it. *)
Fixpoint receive_values `{EqDecision T} (w : World) (sub : Subscriber) (vs : list T) : outcome World :=
  match vs with
  | [] => Ret w
  | v :: vs =>
      let! (sample, u, w) := receive_value w sub in
      assert! eqb u v in
      let! w := drop_sample fuel w sample in
      receive_values w sub vs
  end.
End pubsub.

Section pubsub_tests.
Import PubSubPorts.

Definition pubsub_single_publisher_single_subscriber : outcome unit :=
  let! (publisher, subscriber, w) := pubsub_ports "SensorData" 24 8 "test/sensor" (fun b => b) in
  let! (r, w) := loan no_data w publisher in let! sample := unwrap r in
  let! w := write w sample (mk 1000 0 0 0) in
  let! w := write w sample (mk 1000 (85 # 2) 0 0) in
  let! w := write w sample (mk 1000 (85 # 2) 1 0) in
  let! (r, w) := send w sample in let! _ := unwrap r in
  let! (received, v, w) := receive_value w subscriber in
  assert! timestamp v =? 1000 in
  assert! Qeq_bool (value v) (85 # 2) in
  assert! flags v =? 1 in
  let! w := drop_sample fuel w received in
  let! w := reclaim fuel w publisher in
  let! n := active_loans_now w publisher in
  assert! n =? 0 in Ret tt.

Definition pubsub_multiple_samples : outcome unit :=
  let! (publisher, subscriber, w) :=
    pubsub_ports "u64" 8 8 "test/multi" (fun b => PubSubBuilder.max_loaned_samples b 8) in
  let values := (fun i => i * 100) <$> seqZ 0 5 in
  let! w := send_values 0 w publisher values in
  let! w := receive_values w subscriber values in
  let! (r, w) := receive w subscriber in
  let! r := unwrap r in
  assert! is_none r in Ret tt.

Definition pubsub_drop_without_send_returns_slot : outcome unit :=
  let! (publisher, subscriber, w) :=
    pubsub_ports "u64" 8 8 "test/drop" (fun b => PubSubBuilder.max_loaned_samples b 2) in
  let! (r, w) := loan 0 w publisher in let! sample := unwrap r in
  let! n := active_loans_now w publisher in assert! n =? 1 in
  let! w := drop_mut w sample in
  let! n := active_loans_now w publisher in assert! n =? 0 in
  let! w := loan_write_send 0 w publisher 999 in Ret tt.

Definition pubsub_subscriber_returns_slot_on_sample_drop : outcome unit :=
  let! (publisher, subscriber, w) :=
    pubsub_ports "u64" 8 8 "test/return" (fun b => PubSubBuilder.max_loaned_samples b 4) in
  let! w := loan_write_send 0 w publisher 42 in
  let! n := active_loans_now w publisher in assert! n =? 1 in
  let! (received, v, w) := receive_value w subscriber in
  assert! v =? 42 in
  let! w := drop_sample fuel w received in
  let! w := reclaim fuel w publisher in
  let! n := active_loans_now w publisher in assert! n =? 0 in Ret tt.

(** A loop that collects the values of the samples it gets. *)
Fixpoint receive_some (w : World Z) (sub : Subscriber) (rounds : nat) : outcome (list Z * World Z) :=
  match rounds with
  | O => Ret ([], w)
  | Datatypes.S rounds =>
      let! (r, w) := receive w sub in
      match r with
      | Ok (Some sample) =>
          let! v := read w sample in
          let! w := drop_sample fuel w sample in
          let! (l, w) := receive_some w sub rounds in Ret (v :: l, w)
      | _ => receive_some w sub rounds
      end
  end.

Definition pubsub_multi_publisher_multi_subscriber : outcome unit :=
  let! (node, s, so) := create_node root x s so in
  let b := PubSubBuilder.max_loaned_samples (Node.publish_subscribe (Node.service node "test/mpms")) 32 in
  let '(r, fs) := PubSubBuilder.open_or_create "u64" 8 8 b fs os in
  let! (service, w) := unwrap r in
  let! (r, w) := create_publisher macos hash 8 (PubSubBuilder.port_builder service) w in let! pub1 := unwrap r in
  let! (r, w) := create_publisher macos hash 8 (PubSubBuilder.port_builder service) w in let! pub2 := unwrap r in
  let (sub, w) := create_subscriber (PubSubBuilder.port_builder service) w in
  assert! publisher_count sub =? 2 in
  let sent1 := (fun i => 0 * 1000 + i) <$> seqZ 0 3 in
  let sent2 := (fun i => 1 * 1000 + i) <$> seqZ 0 3 in
  let! w := send_values 0 w pub1 sent1 in
  let! w := send_values 0 w pub2 sent2 in
  let! (all_received, w) := receive_some w sub 6 in
  assert! eqb (merge_sort Z.le all_received) (merge_sort Z.le (sent1 ++ sent2)) in Ret tt.

(** [while let Ok(Some(sample)) = subscriber.receive() { .. }] *)
Fixpoint drain (turns : nat) (w : World Z) (sub : Subscriber) : outcome (list Z * World Z) :=
  match turns with
  | O => OutOfFuel
  | Datatypes.S turns =>
      let! (r, w) := receive w sub in
      match r with
      | Ok (Some sample) =>
          let! v := read w sample in
          let! w := drop_sample fuel w sample in
          let! (l, w) := drain turns w sub in Ret (v :: l, w)
      | _ => Ret ([], w)
      end
  end.

(** Dropping a [Publisher] does nothing to the channels: it has no [Drop]. *)
Definition test_publisher_disconnect_detection (turns : nat) : outcome unit :=
  let! (publisher, subscriber, w) :=
    pubsub_ports "u64" 8 8 "cross/disconnect" (fun b => PubSubBuilder.max_loaned_samples b 8) in
  let! w := send_values 0 w publisher (seqZ 0 3) in
  let! (received, w) := drain turns w subscriber in
  assert! eqb received [0; 1; 2] in
  let! (r, w) := receive w subscriber in
  let! result := unwrap r in
  assert! is_none result in Ret tt.

Definition service_already_exists_error : outcome unit :=
  let! (node, s, so) := create_node root x s so in
  let b := Node.publish_subscribe (Node.service node "test/unique") in
  let '(r, fs) := PubSubBuilder.create "u64" 8 8 b fs os : result (_ * World Z) IpcError * Fs in
  let! _ := unwrap r in
  let '(result, fs) := PubSubBuilder.create "u64" 8 8 b fs os : result (_ * World Z) IpcError * Fs in
  assert! is_err result in Ret tt.
End pubsub_tests.

(** ** Request-response *)
Section reqres_tests.
Import ReqResPorts ReqResExample.
Context (cast_req : AddResponse -> AddRequest) (cast_res : AddRequest -> AddResponse).
#[local] Abbreviation World := (World AddRequest AddResponse).

Definition reqres_ports (name : string) : outcome (Client * World) :=
  let! (node, s, so) := create_node root x s so in
  let b := Node.request_response (Node.service node name) in
  let '(r, fs) := ReqResBuilder.open_or_create "AddRequest" "AddResponse" 16 8 8 8 b fs os in
  let! (service, w) := unwrap r in
  let! (r, w) := create_server macos hash 16 8 service w in let! _ := unwrap r in
  let (r, w) := create_client service w in let! client := unwrap r in
  Ret (client, w).

Definition reqres_basic_request_response : outcome unit :=
  let! (client, w) := reqres_ports "test/adder" in
  let! (r, w) := client_send w client (ReqResExample.mk 3 7) in let! pending := unwrap r in
  let! (r, w) := server_receive cast_req w in
  let! r := unwrap r in let! active_req := unwrap_option r in
  assert! a (a_request active_req) =? 3 in
  assert! b (a_request active_req) =? 7 in
  let resp := mk_response (wrapping_add 64 (a (a_request active_req)) (b (a_request active_req))) in
  let! (r, w) := respond w active_req resp in let! _ := unwrap r in
  let! (r, w) := receive_response cast_res fuel w pending in let! r := unwrap r in
  assert! result r =? 10 in Ret tt.

Fixpoint request_loop (client : Client) (nums : list Z) (w : World) : outcome unit :=
  match nums with
  | [] => Ret tt
  | i :: nums =>
      let! (r, w) := client_send w client (ReqResExample.mk i (i * 2)) in let! pending := unwrap r in
      let! (r, w) := server_receive cast_req w in
      let! r := unwrap r in let! active_req := unwrap_option r in
      let sum := wrapping_add 64 (a (a_request active_req)) (b (a_request active_req)) in
      let! (r, w) := respond w active_req (mk_response sum) in let! _ := unwrap r in
      let! (r, w) := receive_response cast_res fuel w pending in let! r := unwrap r in
      assert! result r =? i + i * 2 in
      request_loop client nums w
  end.

Definition reqres_multiple_requests : outcome unit :=
  let! (client, w) := reqres_ports "test/calc" in request_loop client (seqZ 0 5) w.
End reqres_tests.

(** ** Blackboard *)
Section blackboard_tests.
Import Seqlock BlackboardPorts.

(** The node, the service, a writer, a reader: what they share is a slot. *)
Definition blackboard_ports (name type_name : string) (size_of : Z) (n_words : nat) : outcome Slot :=
  let! (node, s, so) := create_node root x s so in
  let b := Node.blackboard (Node.service node name) in
  let '(r, fs) := open_or_create type_name size_of 8 b fs os in
  let! (service, w) := unwrap r in
  let! (r, w) := create_writer macos hash size_of n_words service w in let! _ := unwrap r in
  let! _ := unwrap (create_reader service w) in
  let! reg := unwrap_option (BlackboardPorts.writer w) in Ret (slot reg).

(** [SensorData { timestamp: 1234, value: 99.9, flags: 0xFF, _pad: 0 }]: three
    words, the second the bits of the [f64], the third [flags] and [_pad]. *)
Definition f64_99_9 : Z := 0x4058F9999999999A.
Definition sensor_words (timestamp value flags pad : Z) : list Z := [timestamp; value; flags + Z.shiftl pad 32].

Definition blackboard_write_and_read (fuel : nat) : outcome unit :=
  let! slot := blackboard_ports "test/state" "SensorData" 24 3 in
  let! r := read_alone fuel slot ReadLoad in
  assert! is_none r in
  let! slot := BlackboardExample.write fuel slot (sensor_words 1234 f64_99_9 0xFF 0) in
  let! r := read_alone fuel slot ReadLoad in
  let! read_data := unwrap_option r in
  assert! nth 0 read_data 0 =? 1234 in
  assert! nth 1 read_data 0 =? f64_99_9 in
  assert! wrap 32 (nth 2 read_data 0) =? 0xFF in Ret tt.

Fixpoint write_values (fuel : nat) (slot : Slot) (vs : list Z) : outcome Slot :=
  match vs with
  | [] => Ret slot
  | v :: vs => let! slot := BlackboardExample.write fuel slot [v] in write_values fuel slot vs
  end.

Definition blackboard_overwrite (fuel : nat) : outcome unit :=
  let! slot := blackboard_ports "test/overwrite" "u64" 8 1 in
  let! slot := write_values fuel slot (seqZ 0 10) in
  let! r := read_alone fuel slot ReadLoad in
  let! value := unwrap_option r in
  assert! eqb value [9] in Ret tt.
End blackboard_tests.

(** ** Events *)
Definition event_notify_and_listen {E : EventOs} (linux : bool) (e : Ev) : sys (outcome unit) :=
  match create_node root x s so with
  | Ret (node, s, so) =>
      match EventService.open_or_create (Node.event (Node.service node "test/event")) fs with
      | (Ok service, fs) =>
          match Notifier.create linux (EventService.notifier service) e with
          | (Ok notifier, e) =>
              match Listener.create linux (EventService.listener service) e with
              | (Ok listener, e) =>
                  let* (r, e) := Notifier.notify e notifier in
                  match r with
                  | Err _ => Returns Panic
                  | Ok _ =>
                      let* (r, e) := Listener.try_wait e listener in
                      Returns (let! b := unwrap r in assert! (b || true) in Ret tt)
                  end
              | _ => Returns Panic
              end
          | _ => Returns Panic
          end
      | _ => Returns Panic
      end
  | _ => Returns Panic
  end.
End tests.

(** ** On the example systems *)
Section run.
Import ToyOs ToyFs ToyLocks ToySignals ToyEvents Examples.

Definition toy_ron (pattern : PatternType) (name type_name : string) (size_of align_of : Z) : Ron :=
  one_config (StaticConfig.new pattern name type_name size_of align_of).
#[local] Existing Instance sum_hasher.
#[local] Abbreviation root := "/tmp/entangle_test/"%string.
#[local] Abbreviation no_locks := (ToyLocks.no_locks : @Lk toy_locks).
#[local] Abbreviation no_handlers := (∅ : @So toy_signals).
#[local] Abbreviation memory := (empty_os 100000).

Definition cast_req (r : ReqResExample.AddResponse) : ReqResExample.AddRequest := ReqResExample.mk (ReqResExample.result r) 0.
Definition cast_res (r : ReqResExample.AddRequest) : ReqResExample.AddResponse := ReqResExample.mk_response (ReqResExample.a r).

Theorem integration_pubsub_tests_pass :
  (let _ := toy_ron PubSub "test/sensor" "SensorData" 24 8 in
   pubsub_single_publisher_single_subscriber (P := toy_posix) false no_hash 2 root here no_locks no_handlers empty_fs memory) = Ret tt /\
  (let _ := toy_ron PubSub "test/multi" "u64" 8 8 in
   pubsub_multiple_samples (P := toy_posix) false no_hash 2 root here no_locks no_handlers empty_fs memory) = Ret tt /\
  (let _ := toy_ron PubSub "test/drop" "u64" 8 8 in
   pubsub_drop_without_send_returns_slot (P := toy_posix) false no_hash root here no_locks no_handlers empty_fs memory) = Ret tt /\
  (let _ := toy_ron PubSub "test/return" "u64" 8 8 in
   pubsub_subscriber_returns_slot_on_sample_drop (P := toy_posix) false no_hash 2 root here no_locks no_handlers empty_fs memory) = Ret tt /\
  (let _ := toy_ron PubSub "test/mpms" "u64" 8 8 in
   pubsub_multi_publisher_multi_subscriber (P := toy_posix) false no_hash 2 root here no_locks no_handlers empty_fs memory) = Ret tt /\
  (let _ := toy_ron PubSub "cross/disconnect" "u64" 8 8 in
   test_publisher_disconnect_detection (P := toy_posix) false no_hash 2 root here no_locks no_handlers empty_fs memory 4) = Ret tt.
Proof. vm_compute. repeat split. Qed.

Theorem integration_other_tests_pass :
  (let _ := toy_ron PubSub "test/unique" "u64" 8 8 in
   service_already_exists_error (P := toy_posix) root here no_locks no_handlers empty_fs memory) = Ret tt /\
  (let _ := toy_ron ReqRes "test/adder" "AddRequest:AddResponse" 16 8 in
   reqres_basic_request_response (P := toy_posix) false no_hash 1 root here no_locks no_handlers empty_fs memory cast_req cast_res) = Ret tt /\
  (let _ := toy_ron ReqRes "test/calc" "AddRequest:AddResponse" 16 8 in
   reqres_multiple_requests (P := toy_posix) false no_hash 1 root here no_locks no_handlers empty_fs memory cast_req cast_res) = Ret tt /\
  (let _ := toy_ron Config.Blackboard "test/state" "SensorData" 24 8 in
   blackboard_write_and_read (P := toy_posix) false no_hash root here no_locks no_handlers empty_fs memory 6) = Ret tt /\
  (let _ := toy_ron Config.Blackboard "test/overwrite" "u64" 8 8 in
   blackboard_overwrite (P := toy_posix) false no_hash root here no_locks no_handlers empty_fs memory 6) = Ret tt.
Proof. vm_compute. repeat split. Qed.

Theorem integration_event_test_passes :
  (let _ := toy_ron Config.Event "test/event" "event" 0 1 in
   event_notify_and_listen root here no_locks no_handlers empty_fs true no_events)
  = Returns (Ret tt).
Proof. vm_compute. reflexivity. Qed.
End run.
End Integration.
